(* ===== verification/_CoqProject ===== *)
-Q . S2P
Prelude.v
GoText.v
Sanitize.v
Discovery.v
Limits.v
HubValidate.v
GraphKeys.v
Reconcile.v
GraphDiff.v
HubMerge.v
Ambiguity.v
Hub.v
Snapshot.v
Pdu.v
NetAddr.v
Walker.v
Ospf.v
Cdp.v
Lldp.v
Credentials.v
LogLimit.v
Synthesize.v
Probe.v
Transport.v
Bgp.v
Mpls.v
Isis.v
Fdb.v
SessionPool.v
Acquire.v
Evictor.v
DeviceWalk.v
Reasons.v
Walkers.v
Config.v
Yang.v
SnapshotWriter.v
Collector.v
Otlp.v
Cycle.v
Loop.v
Admin.v
Leadership.v
Scheduler.v
Telemetry.v
Lifecycle.v
Registry.v
Agent.v
Capture.v
Spoke.v
SharedSnapshot.v
Federation.v
Restart.v
