(* ===== verification/Prelude.v ===== *)
(** * network-topology-exporter: a verification development

    The program polls network devices over SNMP, builds a graph of devices and
    links, publishes it as metrics and, in a federation, pushes it from spokes to a
    hub that merges the domains.  This library models its core and proves what each
    part promises to the others.  Names follow the Go source; file names below are
    under src/internal/.

    ** How a graph comes about, and which file models what

    1. A target is probed.  credentials/credentials.go resolves profiles and limits
       the rate of trials ([Credentials]); app/probe.go tries them and
       discovery/snmp/zeroize.go overwrites the secrets ([Probe]);
       config/target_override.go, app/device_walk.go and app/probe_target.go select
       and run the protocol walkers ([DeviceWalk]).  discovery/snmp/snmp.go walks tables
       and reads the system group ([Transport]) on sessions that it opens or takes from
       the pool ([Acquire]); pool.go keeps sessions ([SessionPool]) and evicts idle ones
       ([Evictor]); pdu.go, scope.go and outcome.go decode variables ([Pdu]).  The walkers are discovery/lldp ([Lldp]), cdp ([Cdp]), fdb ([Fdb]),
       ospf ([Ospf]), bgp ([Bgp]), isis ([Isis]) and mpls ([Mpls]) on a common
       framework ([Walker]: the walk monad, sessions, table scans), and [Walkers] puts
       them in as the modules of [DeviceWalk].
    2. app/helpers.go resolves addresses and MACs to device names ([Synthesize]);
       graph/graph.go groups the observations by link ([GraphKeys]), reconciles them
       and reports conflicts ([Reconcile]), diffs graphs and ages unconfirmed links
       ([GraphDiff]).  app/cycle.go puts this together after the concurrent probes
       ([Cycle]), app/loop.go publishes ([Loop]) and schedules cycles against forced
       walks under one mutex ([Scheduler]).
    3. snapshot/snapshot.go persists the graph ([Snapshot]), through the writer goroutines
       of app/loop.go and federation/hub_snapshot.go ([SnapshotWriter]);
       loglimit/loglimit.go bounds the log ([LogLimit]).
    4. federation/spoke.go and app/spoke_pusher.go push ([Spoke]);
       federation/hub_validate.go checks a push ([HubValidate]),
       federation/hub_merge.go merges the domains ([HubMerge]) against the interface
       [ReconcilerSpec] that [Reconcile] implements and warns of colliding names
       ([Ambiguity]), and federation/hub.go,
       hub_push.go, hub_publish.go and hub_eviction.go run the registry ([Hub]); the
       election callbacks of app/app.go, which Run of federation/elector_k8s.go calls, say
       which hub leads and with which fence token ([Leadership]).
    5. config/ gives all of this its settings: defaults, validation and [Load] after
       the YAML decoder ([Config]).
    6. The graph leaves the process as Prometheus series (metrics/topology_collector.go,
       [Collector]), as a YANG document (output/yang, [Yang]) and as OTLP attributes, log
       records and events (output/otlp, app/otlp_publisher.go, events, [Otlp]).
       app/rediscover.go and app/httpx answer the admin, readiness, liveness and metrics
       requests ([Admin]); metrics/metrics.go and its adapters name and register the
       counters the other parts increment ([Registry]) and metrics/sub_reason.go closes
       their label values ([Reasons]).
    7. The process: app/app.go, app/recover.go, app/debug.go and federation/hub_server.go
       start, supervise and stop all of this ([Lifecycle]: [Run] as the list of its effects
       and its exit code, [supervise] for what its goroutines do, [shutdown] with the
       clock); otelx, tracing and the constructors of output/otlp set up telemetry, and
       PushGraph exports the graph ([Telemetry]).
    8. snmptest/ is the SNMP agent the tests of all walkers run against ([Agent]) and the
       parser of the captures it serves ([Capture]).
    9. The parts together: [Federation] puts the spokes' mailboxes and retries and the hub
       into one system; [Restart] a process that ends and the next one, through the
       snapshot; [SharedSnapshot] the replicas of a hub that share a snapshot file, with
       [Write] cut at its system calls.

    [Prelude] has the notations, tactics and lists, sorting, first match, longest
    match and deduplication; [GoText] the Go strings (UTF-8 decoding, package strings,
    strconv) and [NetAddr] the text forms of package net; [Discovery] the value types of discovery/discovery.go; [Limits] and
    [Sanitize] the shared byte caps and the truncation.

    ** Conventions

    - Go values are immutable Rocq values where the source copies or only reads them.
      Shared mutable data is explicit: the hub's state and the builds in flight
      ([Hub.world]), the file system ([Snapshot]), the heap of secret buffers
      ([Probe]), the mailbox and the phases of its two goroutines ([Spoke]), the pool
      and the heap of its connections ([SessionPool]).
    - A walk is a value of the monad [W]: the events it records (outcomes, decode
      issues, degradations, the release of its session) and its result.  A session is
      a function from a table to an error or the variables the agent answers with, so
      a theorem about a walk holds for every agent.
    - An operation that can fail returns a [sum] whose left side is the error.
    - Strings are byte strings.  Integers are [Z]; their width is written out where
      overflow matters (the token bucket, strconv.Atoi, the publication generation, the age
      of an unconfirmed link).
      A time is a number of nanoseconds; [time_Sub] saturates as Time.Sub does.
    - A map is a [gmap].  The order of a [range] loop over a map is a parameter
      ([MapRange]); theorems hold for every order, and some say that the order does
      not matter.
    - Concurrency is either a step relation over the critical sections ([Hub.step],
      [pusher_step], [SnapshotWriter.step], [publisher_step], [leadership_step],
      [sched_step], [push_step], [supervise], and for the compositions [fed_step] and
      [cluster_step]) or, where goroutines only meet at one lock, the list of their
      contributions in the order of the lock ([Cycle], [LogLimit], the token bucket
      and the cache of [Credentials]).
    - Code the repository does not contain is a parameter with its documented laws:
      encoding/json on the snapshot ([Codec]: what was encoded decodes, the numbers and times
      as they were and the strings if they are valid UTF-8), encoding/json and gzip between
      spoke and hub ([Wire]), rand.N ([Jitter]), the case tables of package unicode
      ([Unicode]), the float64 product of the token bucket ([TrialFloat]), the file
      system and url.Parse of the configuration ([ConfigEnv]), the OpenTelemetry SDK
      ([OTelSDK]), certificates and URL joining ([Machine]), the float64 product of the
      drain timeout ([FloatScale]), the runtime collectors ([RuntimeCollectors]), the
      metric constructor of the Prometheus client ([ConstMetrics]).  The text forms of
      package net are a class ([NetText]) whose laws ([NetTextLaws]) the concrete
      [go_net] of [NetAddr] satisfies.
    - There is no fuel that a theorem depends on: the loops of the source are
      structural here, but for [quarantine_from] (the hundred slots of the source) and
      [push_loop] (the five attempts of the source), whose bound is the source's own,
      the parser of IPv6 text in [NetAddr] (eight rounds, the groups of an address), the
      search for a free link id in [Yang] (one round more than ids in use, which is
      proved to be enough), and in [Agent] the comparison of OIDs (one round per byte)
      and the binary search (one per element): [oid_order_exact] and
      [agent_serves_table] show both to be enough.

    ** What the theorems show

    - Reconciliation: it equals a declarative reference for every iteration order,
      yields one canonical edge per observed link, from a best observation, and a
      conflict exactly for the ports whose observations disagree.
    - Diff and ageing: the changes are exactly the differences and patch the old graph
      to the new one; a link's age follows its lifecycle, as an int, and expires on time.
    - Cycle and loop: the result of a cycle does not depend on scheduling; the event
      stream replays to the published graph; what is persisted or pushed was
      published; every target and every observation is accounted for.
    - Probing: secrets are overwritten on every path; the order of credentials; the
      bound on the trial rate; the life time of cached profiles; the module scope of
      an address; only declared label values reach its counters.
    - Walking: whatever the agent answers, the edges of each walker are exactly the
      usable rows of its tables, and carry the form of its protocol; the row-index
      decoders invert the vendors' encodings; every walker run records one outcome.
    - Sessions: no session is shared, leaked or left with credentials in any
      interleaving without a rotation; the modules of a target always get a connected
      session, at the number of dials a reference count gives; an idle session is closed
      and wiped within its limit and a tick; a walk reports the outcome of its transport.
    - Configuration: [Load] accepts exactly what its conditions say, its result loads
      again unchanged, and the level a v3 profile is opened at depends on its protocol names
      (in plain text without one for authentication).
    - Federation: the handler of a push takes exactly the requests that pass its checks, and
      the first that fails gives the answer; the validation accepts exactly the wire
      contract; the merge has
      exactly the links it should; the hub keeps its invariants in every interleaving
      and implements an abstract registry when operations do not overlap; a rejected
      push changes nothing; the mailbox keeps the newest payload.
    - Persistence: a write stopped at any system call, under any faults, leaves the old file,
      the new one, or the old one in quarantine because it was corrupt; writes round-trip and
      respect the lease epoch; the loader's validation is the capped list of all violations
      of its literal caps.
    - Outputs: the YANG document has the referential integrity its consumers do not
      check, and the endpoint serves the current graph; the search for a link id ends; a
      scrape does not panic on UTF-8 directions, sends bounded labels and repeats a series
      exactly when sanitised identities collide; OTLP attributes
      are well-formed; the publisher bounds and accounts for its pushes.
    - Operations: a snapshot writer has one write in flight and never reorders; the admin
      endpoint walks only in-scope targets of authenticated callers and answers every
      target; the liveness gate and the watchdog agree; the fence token of a leading hub
      never decreases.
    - Process: walks are serialised whatever panics, and while nothing does the scheduler
      serves exactly the ticks it takes, as the sequential loop; the routes and workers of a
      start are exactly those of its configuration, and the exit code of the process is 1
      exactly for a start that was refused; the process drains exactly when it should, within
      a bound; all signals of telemetry agree; the edges of an export are those of one pushed
      graph, and so are its devices, though the two may differ; the metric set registers without a panic and
      every counted value fits its metric.
    - Together: the hub holds for each spoke what the wire carried of the payload that spoke
      had acknowledged last, in the order it was sent, whatever answers get lost; a process that starts from the
      snapshot of another goes on as that one would have; a snapshot file that replicas
      share is never torn, refuses only those the Lease has left behind, and takes a step
      back only by a write that another one overtook.  Run alone, the routine cut at its
      system calls is [Write], and the scheduler's three parts of a cycle are [Loop.cycle];
      these are lemmas of the library.
    - Test support: OIDs are ordered as lists of numbers, the agent answers from its table
      and a walk of it ends, and captures are read back.
    - Where the code does not do what its comments or documents say, a theorem or an
      example exhibits it: [hub_overlapping_pushes_lose_one],
      [hub_overlapping_pushes_pass_rate_limit], [accepted_push_defeats_snapshot],
      [module_status_sticks], [failed_push_counted_twice],
      [dropped_profile_keeps_key], [rank_zero_beats_configured],
      [reconcile_tie_keeps_first], [matched_protocol_follows_order],
      [l3_adjacency_blocks_push], [lldp_chassis_id_defeats_push],
      [sysdescr_defeats_push], [rotation_aliases_session],
      [established_peer_reported_down], [vendor_state_lenient],
      [priv_only_profile_is_plaintext], [zero_retries_means_one],
      [nan_budget_accepted], [link_keys_collide], [panicked_write_stops_snapshots],
      [hub_restart_loses_neighbours], [accepted_push_repeats_series],
      [refused_connection_is_4xx], [unread_epoch_unfenced], [cycle_count_wraps],
      [panicked_cycle_wedges], [panicking_publish_looks_healthy],
      [hub_exit_cuts_pushes], [dead_loop_keeps_serving], [late_store_stays],
      [unchecked_traces], [undocumented_site], [one_token_per_walk],
      [case_variant_is_warned], [text_swallows_line], [lost_answer_reported_failed],
      [stale_leader_overwrites], [late_quarantine_removes_snapshot],
      [lost_lease_ends_process], [torn_export], [loaded_age_wraps].  [stale_restart_misses_removal] shows what a restart
      without the last snapshot forgets.

    ** What is not modelled

    YAML and JSON codecs, gosnmp and its wire format, the exporters behind the
    OpenTelemetry SDK, TLS itself, sockets, the Kubernetes client, the flag parser, log
    lines and spans: calls into libraries, without a decision of the program's own that
    the models above do not have.  Help texts and HTTP time-outs are constants that no
    modelled behaviour depends on.  pduInetAddress of discovery/bgp/bgp_v2.go and
    WalkToIntMap of discovery/snmp/pdu.go have no caller.  When the Kubernetes elector calls back is an argument
    of [elector_Run] and a step of [cluster_step].  version/ and cmd/ are build variables and a call of
    [Run]. *)

From stdpp Require Export gmap strings list sorting pretty.
From Stdlib Require Import Ascii ZArith Lia.

(** ** Notations

    Go values are written with the constructors of the model: [error]-returning
    code is a [sum] whose left side is the error.  The do-notation below reads
    like the early-return style of the source. *)

Declare Scope go_scope.
Delimit Scope go_scope with go.

Notation "'do' x <- e ; k" :=
  (match e with inl err => inl err | inr x => k end)
  (at level 10, x pattern, e at level 100, k at level 200) : go_scope.
Notation "'guard' b 'else' e ; k" :=
  (if b then inl e else k)
  (at level 10, b at level 100, e at level 100, k at level 200) : go_scope.

Open Scope go_scope.

(** ** Tactics *)

(** Case analysis on the boolean tests and matches of the goal. *)
Ltac split_ifs :=
  repeat (match goal with
          | |- context [if ?b then _ else _] => destruct b eqn:?
          end; simpl in *; try done).

(** Turns boolean conjunctions, disjunctions and comparisons into propositions. *)
Ltac bprop :=
  repeat match goal with
  | H : (_ && _)%bool = true |- _ => apply andb_true_iff in H as [? ?]
  | H : (_ || _)%bool = false |- _ => apply orb_false_iff in H as [? ?]
  | H : (_ || _)%bool = true |- _ => apply orb_true_iff in H
  | H : (_ && _)%bool = false |- _ => apply andb_false_iff in H
  | H : negb _ = true |- _ => apply negb_true_iff in H
  | H : negb _ = false |- _ => apply negb_false_iff in H
  | H : Z.ltb _ _ = true |- _ => apply Z.ltb_lt in H
  | H : Z.ltb _ _ = false |- _ => apply Z.ltb_ge in H
  | H : Z.leb _ _ = true |- _ => apply Z.leb_le in H
  | H : Z.leb _ _ = false |- _ => apply Z.leb_gt in H
  | H : Z.eqb _ _ = true |- _ => apply Z.eqb_eq in H
  | H : Z.eqb _ _ = false |- _ => apply Z.eqb_neq in H
  | H : bool_decide _ = true |- _ => apply bool_decide_eq_true in H
  | H : bool_decide _ = false |- _ => apply bool_decide_eq_false in H
  end.

(** Splits a hypothesis that says an error-returning computation succeeded. *)
Ltac invert_ok :=
  repeat match goal with
  | H : inl _ = inr _ |- _ => discriminate H
  | H : inr _ = inl _ |- _ => discriminate H
  | H : inr _ = inr _ |- _ => injection H as H; subst
  | H : inl _ = inl _ |- _ => injection H as H; subst
  | H : (if ?b then inl _ else _) = inr _ |- _ =>
      destruct b eqn:?; [discriminate H|]
  | H : match ?e with inl _ => inl _ | inr _ => _ end = inr _ |- _ =>
      destruct e eqn:?; [discriminate H|]
  end.

(** Takes existentials, conjunctions and disjunctions apart. *)
Ltac destruct_ex :=
  repeat (match goal with
  | H : ∃ _, _ |- _ => destruct H
  | H : _ ∧ _ |- _ => destruct H
  | H : _ ∨ _ |- _ => destruct H
  | H : (_, _) = (_, _) |- _ => injection H as ? ?
  end; try subst).

Create HintDb ntx.

(** ** Lists *)

Section Lists.
Context {A B : Type}.

(** A left fold keeps an invariant that every step keeps. *)
Lemma fold_left_inv (P : B → Prop) (f : B → A → B) (l : list A) (b : B) :
  P b → (∀ b' a, a ∈ l → P b' → P (f b' a)) → P (fold_left f l b).
Proof.
  revert b. induction l as [|a l IH]; intros b Hb Hf; simpl; [done|].
  apply IH; [|set_solver]. apply Hf; [set_solver|done].
Qed.

(** A left fold whose invariant also sees the prefix it has consumed. *)
Lemma fold_left_prefix_inv (P : list A → B → Prop) (f : B → A → B) (l : list A) (b : B) :
  P [] b →
  (∀ pre a b', P pre b' → P (pre ++ [a]) (f b' a)) →
  P l (fold_left f l b).
Proof.
  intros Hnil Hstep.
  cut (∀ l pre b, P pre b → P (pre ++ l) (fold_left f l b)).
  { intros Hgen. apply (Hgen l [] b Hnil). }
  clear l b Hnil. induction l as [|a l IH]; intros pre b Hb; simpl.
  - by rewrite app_nil_r.
  - replace (pre ++ a :: l) with ((pre ++ [a]) ++ l) by by rewrite <-app_assoc.
    apply IH, Hstep, Hb.
Qed.

(** What one step of a left fold establishes and every step keeps holds at the
    end. *)
Lemma fold_left_reach (Q : B → Prop) (f : B → A → B) (l : list A) (b : B) (x : A) :
  x ∈ l → (∀ b', Q (f b' x)) → (∀ b' a, Q b' → Q (f b' a)) → Q (fold_left f l b).
Proof.
  intros Hx Hset Hkeep. revert b. induction Hx as [y l|x y l Hx IH]; intros b; simpl; [|by apply IH].
  apply fold_left_inv; auto.
Qed.

(** Nested loops are one loop over the joined list; loops with equal bodies are equal. *)
Lemma fold_left_bind {C} (f : A → list C) (g : B → C → B) (l : list A) (b : B) :
  fold_left (λ b x, fold_left g (f x) b) l b = fold_left g (l ≫= f) b.
Proof. revert b. induction l as [|x l IH]; intros b; [done|]. cbn. by rewrite fold_left_app, IH. Qed.

Lemma fold_left_ext (f g : B → A → B) (l : list A) (b : B) :
  (∀ b x, f b x = g b x) → fold_left f l b = fold_left g l b.
Proof. intros Hfg. revert b. induction l as [|x l IH]; intros b; [done|]. cbn. by rewrite Hfg, IH. Qed.

Lemma existsb_elem (p : A → bool) (l : list A) :
  existsb p l = true ↔ ∃ x, x ∈ l ∧ p x = true.
Proof.
  rewrite existsb_exists. split; intros (x & Hx & Hp); exists x;
    by rewrite ?list_elem_of_In in *.
Qed.

Lemma forallb_elem (p : A → bool) (l : list A) :
  forallb p l = true ↔ ∀ x, x ∈ l → p x = true.
Proof.
  rewrite forallb_forall. split; intros H x Hx; apply H;
    by rewrite ?list_elem_of_In in *.
Qed.

Lemma NoDup_fmap_elem (f : A → B) (l : list A) x y :
  NoDup (f <$> l) → x ∈ l → y ∈ l → f x = f y → x = y.
Proof.
  induction l as [|z l IH]; simpl; [set_solver|].
  rewrite NoDup_cons, !elem_of_cons. intros [Hz Hnd] [->|Hx] [->|Hy] Heq; auto.
  - destruct Hz. rewrite Heq. apply list_elem_of_fmap. eauto.
  - destruct Hz. rewrite <-Heq. apply list_elem_of_fmap. eauto.
Qed.

Lemma NoDup_fmap_filter (f : A → B) (P : A → Prop) `{∀ x, Decision (P x)} (l : list A) :
  NoDup (f <$> l) → NoDup (f <$> filter P l).
Proof.
  induction l as [|x l IH]; simpl; [done|]. rewrite NoDup_cons.
  intros [Hx Hnd]. rewrite filter_cons. case_decide; simpl; [|auto].
  apply NoDup_cons; split; [|auto]. intros Hin. apply Hx.
  apply list_elem_of_fmap in Hin as (y & -> & Hy).
  apply list_elem_of_filter in Hy as [_ Hy]. apply list_elem_of_fmap. eauto.
Qed.
End Lists.

(** ** Stable sorting

    [sort.SliceStable] and [slices.SortFunc] of the Go library, as a stable
    insertion sort over a boolean comparison.  [slices.SortFunc] is not stable;
    the uses in the program sort by keys that are pairwise different, where every
    sort gives the same list ([sort_by_unique]). *)

Section Sorting.
Context {A : Type} (le : A → A → bool).

Fixpoint insert_by (x : A) (l : list A) : list A :=
  match l with
  | [] => [x]
  | y :: l' => if le x y then x :: y :: l' else y :: insert_by x l'
  end.

Fixpoint sort_by (l : list A) : list A :=
  match l with
  | [] => []
  | x :: l' => insert_by x (sort_by l')
  end.

Lemma insert_by_Permutation x l : insert_by x l ≡ₚ x :: l.
Proof.
  induction l as [|y l IH]; simpl; [done|].
  destruct (le x y); [done|]. rewrite IH. apply Permutation_swap.
Qed.

Lemma sort_by_Permutation l : sort_by l ≡ₚ l.
Proof. induction l as [|x l IH]; simpl; [done|]. by rewrite insert_by_Permutation, IH. Qed.

Lemma elem_of_sort_by x l : x ∈ sort_by l ↔ x ∈ l.
Proof. by rewrite sort_by_Permutation. Qed.

Lemma length_sort_by l : length (sort_by l) = length l.
Proof. apply Permutation_length, sort_by_Permutation. Qed.

Context (le_trans : ∀ x y z, le x y = true → le y z = true → le x z = true).
Context (le_total : ∀ x y, le x y = true ∨ le y x = true).

Definition Rle (x y : A) : Prop := le x y = true.

Lemma insert_by_StronglySorted x l :
  StronglySorted Rle l → StronglySorted Rle (insert_by x l).
Proof using le_trans le_total.
  induction 1 as [|y l Hl IH Hy]; simpl; [by repeat constructor|].
  destruct (le x y) eqn:Hxy.
  - constructor; [by constructor|]. constructor; [done|].
    eapply Forall_impl; [done|]. intros z Hz. unfold Rle in *. eauto.
  - constructor; [done|]. rewrite insert_by_Permutation. constructor; [|done].
    unfold Rle. destruct (le_total x y); congruence.
Qed.

Lemma sort_by_StronglySorted l : StronglySorted Rle (sort_by l).
Proof using le_trans le_total.
  induction l; simpl; [constructor|]. by apply insert_by_StronglySorted.
Qed.

(** Two permutations of a list whose comparison is antisymmetric on its
    members sort to the same list. *)
Lemma sort_by_unique l1 l2 :
  l1 ≡ₚ l2 →
  (∀ x y, x ∈ l1 → y ∈ l1 → le x y = true → le y x = true → x = y) →
  sort_by l1 = sort_by l2.
Proof using le_trans le_total.
  intros Hp Hanti. apply (StronglySorted_unique_strong Rle).
  - intros x y Hx Hy. rewrite elem_of_sort_by in Hx, Hy.
    rewrite <-Hp in Hy. by apply Hanti.
  - apply sort_by_StronglySorted.
  - apply sort_by_StronglySorted.
  - by rewrite !sort_by_Permutation.
Qed.

(** Stability: among the members with one key the input order is kept. *)
Lemma insert_by_filter (P : A → Prop) `{∀ x, Decision (P x)} x l :
  (∀ y, P x → P y → le x y = true) →
  StronglySorted Rle l →
  filter P (insert_by x l) = filter P (x :: l).
Proof.
  intros Heq. induction l as [|y l IH]; intros Hs; simpl; [done|].
  destruct (le x y) eqn:Hxy; [done|].
  apply StronglySorted_inv in Hs as [Hs _]. specialize (IH Hs).
  rewrite !filter_cons in *. rewrite IH.
  repeat case_decide; try done.
  exfalso. rewrite Heq in Hxy; done.
Qed.

Lemma sort_by_stable (P : A → Prop) `{∀ x, Decision (P x)} l :
  (∀ x y, P x → P y → le x y = true) → filter P (sort_by l) = filter P l.
Proof using le_trans le_total.
  intros Heq. induction l as [|x l IH]; simpl; [done|].
  rewrite insert_by_filter; [|by intros; apply Heq|apply sort_by_StronglySorted].
  rewrite !filter_cons, IH. done.
Qed.
End Sorting.

#[export] Hint Resolve sort_by_Permutation : ntx.

(** ** First match in a list

    The [for ... return] loops that pick the first entry a test accepts. *)

Section FindFirst.
Context {A : Type} (p : A → bool).

Fixpoint find_first (l : list A) : option A :=
  match l with
  | [] => None
  | x :: l' => if p x then Some x else find_first l'
  end.

Lemma find_first_Some l x :
  find_first l = Some x →
  ∃ pre post, l = pre ++ x :: post ∧ p x = true ∧ Forall (λ y, p y = false) pre.
Proof.
  induction l as [|y l IH]; simpl; [done|]. destruct (p y) eqn:Hy.
  - intros [= ->]. by exists [], l.
  - intros (pre & post & -> & Hx & Hpre)%IH. exists (y :: pre), post.
    split; [done|]. split; [done|]. by constructor.
Qed.

Lemma find_first_None l : find_first l = None ↔ Forall (λ y, p y = false) l.
Proof.
  induction l as [|y l IH]; simpl; [split; by repeat constructor|].
  rewrite Forall_cons. destruct (p y) eqn:Hy; [naive_solver|]. rewrite IH. naive_solver.
Qed.
End FindFirst.

(** ** Longest match first

    The tables of networks are sorted by decreasing prefix length, so that the
    first entry that matches is one with the longest prefix. *)

Section LongestFirst.
Context {A : Type} (len : A → Z).

Definition longer (a b : A) : bool := (len b <=? len a)%Z.

Lemma longer_trans a b c : longer a b = true → longer b c = true → longer a c = true.
Proof. unfold longer. intros. bprop. apply Z.leb_le. lia. Qed.

Lemma longer_total a b : longer a b = true ∨ longer b a = true.
Proof. unfold longer. rewrite !Z.leb_le. lia. Qed.

Lemma first_match_longest (p : A → bool) l a :
  find_first p (sort_by longer l) = Some a →
  p a = true ∧ a ∈ l ∧ ∀ c, c ∈ l → p c = true → (len c ≤ len a)%Z.
Proof.
  pose proof (sort_by_StronglySorted longer longer_trans longer_total l) as Hs.
  intros (pre & post & Heq & Ha & Hpre)%find_first_Some. rewrite Heq in Hs.
  assert (∀ c, c ∈ l ↔ c ∈ pre ++ a :: post) as Hin by (intros c; by rewrite <-Heq, elem_of_sort_by).
  split; [done|]. split; [apply Hin; set_solver|]. intros c Hc%Hin Hcc.
  apply elem_of_app in Hc as [Hc|[->|Hc]%elem_of_cons].
  - rewrite Forall_forall in Hpre. rewrite Hpre in Hcc; done.
  - lia.
  - apply StronglySorted_app_1_r, StronglySorted_inv in Hs as [_ Hf]. rewrite Forall_forall in Hf.
    specialize (Hf c Hc). unfold Rle, longer in Hf. by bprop.
Qed.
End LongestFirst.

(** ** Deduplication, keeping the first occurrence

    The [seen := map[K]struct{}] idiom of the source: an element is kept when no
    element before it has its key. *)

Section Dedup.
Context {A K : Type} `{Countable K} (key : A → K).

Fixpoint dedup_from (seen : gset K) (l : list A) : list A :=
  match l with
  | [] => []
  | x :: l' =>
      if bool_decide (key x ∈ seen) then dedup_from seen l'
      else x :: dedup_from ({[key x]} ∪ seen) l'
  end.

Definition dedup_by (l : list A) : list A := dedup_from ∅ l.

Lemma dedup_from_elem seen l x :
  x ∈ dedup_from seen l → x ∈ l ∧ key x ∉ seen.
Proof.
  revert seen. induction l as [|y l IH]; intros seen; simpl; [set_solver|].
  case_bool_decide as Hy; [set_solver|]. rewrite elem_of_cons.
  intros [->|Hx]; [set_solver|]. apply IH in Hx. set_solver.
Qed.

Lemma dedup_from_NoDup seen l : NoDup (key <$> dedup_from seen l).
Proof.
  revert seen. induction l as [|y l IH]; intros seen; simpl; [constructor|].
  case_bool_decide as Hy; [done|]. simpl. apply NoDup_cons. split; [|done].
  intros (x & Hk & Hx)%list_elem_of_fmap. apply dedup_from_elem in Hx. set_solver.
Qed.

Lemma dedup_from_keys seen l k :
  k ∈ key <$> dedup_from seen l ↔ k ∈ key <$> l ∧ k ∉ seen.
Proof.
  revert seen. induction l as [|y l IH]; intros seen; simpl; [set_solver|].
  case_bool_decide as Hy.
  - rewrite IH. set_solver.
  - rewrite fmap_cons, elem_of_cons, IH. destruct (decide (k = key y)); set_solver.
Qed.

Lemma dedup_from_id seen l :
  NoDup (key <$> l) → (∀ x, x ∈ l → key x ∉ seen) → dedup_from seen l = l.
Proof.
  revert seen. induction l as [|y l IH]; intros seen; simpl; [done|].
  rewrite NoDup_cons. intros [Hy Hnd] Hs.
  rewrite bool_decide_eq_false_2 by (apply Hs; set_solver). f_equal.
  apply IH; [done|]. intros x Hx.
  assert (key x ≠ key y); [|set_solver].
  intros Heq. apply Hy. rewrite <-Heq. apply list_elem_of_fmap. eauto.
Qed.

Lemma dedup_by_NoDup l : NoDup (key <$> dedup_by l).
Proof. apply dedup_from_NoDup. Qed.

Lemma dedup_by_keys l k : k ∈ key <$> dedup_by l ↔ k ∈ key <$> l.
Proof. unfold dedup_by. rewrite dedup_from_keys. set_solver. Qed.

Lemma dedup_by_elem l x : x ∈ dedup_by l → x ∈ l.
Proof. intros Hx. by apply dedup_from_elem in Hx as [? _]. Qed.

Lemma dedup_by_idemp l : dedup_by (dedup_by l) = dedup_by l.
Proof. apply dedup_from_id; [apply dedup_by_NoDup|set_solver]. Qed.

(** The kept occurrence is the first one with its key. *)
Lemma dedup_from_first seen l x :
  x ∈ dedup_from seen l ↔
  key x ∉ seen ∧ find_first (λ y, bool_decide (key y = key x)) l = Some x.
Proof.
  revert seen. induction l as [|y l IH]; intros seen; simpl; [set_solver|].
  case_bool_decide as Hy; case_bool_decide as Hk.
  - rewrite IH, <-Hk. naive_solver.
  - by rewrite IH.
  - rewrite elem_of_cons, IH. split; [intros [->|[Hx _]]; [done|]|naive_solver].
    rewrite <-Hk in Hx. set_solver.
  - rewrite elem_of_cons, IH. naive_solver set_solver.
Qed.

Lemma dedup_by_first l x :
  x ∈ dedup_by l ↔ find_first (λ y, bool_decide (key y = key x)) l = Some x.
Proof. unfold dedup_by. rewrite dedup_from_first. set_solver. Qed.
End Dedup.

(** ** Checks that stop at the first error

    A loop whose body returns an error early; success carries no value. *)

Section Checks.
Context {E A : Type}.

Fixpoint check_all (f : A → E + unit) (l : list A) : E + unit :=
  match l with
  | [] => inr tt
  | x :: l' => do _ <- f x; check_all f l'
  end.

(** The same, with the index of the element. *)
Fixpoint check_alli (f : nat → A → E + unit) (i : nat) (l : list A) : E + unit :=
  match l with
  | [] => inr tt
  | x :: l' => do _ <- f i x; check_alli f (S i) l'
  end.

Lemma check_all_ok f l : check_all f l = inr tt ↔ ∀ x, x ∈ l → f x = inr tt.
Proof.
  induction l as [|x l IH]; simpl; [split; [set_solver|done]|].
  destruct (f x) as [e|[]] eqn:Hx.
  - split; [done|]. intros H. rewrite (H x) in Hx by set_solver. done.
  - rewrite IH. setoid_rewrite elem_of_cons. naive_solver.
Qed.

Lemma check_all_err f l e : check_all f l = inl e → ∃ x, x ∈ l ∧ f x = inl e.
Proof.
  induction l as [|x l IH]; simpl; [done|]. destruct (f x) as [e'|[]] eqn:Hx.
  - intros [= <-]. exists x. set_solver.
  - intros (y & Hy & Hf)%IH. exists y. set_solver.
Qed.

Lemma check_all_perm f l1 l2 :
  l1 ≡ₚ l2 → check_all f l1 = inr tt ↔ check_all f l2 = inr tt.
Proof. intros Hp. rewrite !check_all_ok. by setoid_rewrite Hp. Qed.

Lemma bind_ok (c : E + unit) (k : E + unit) :
  (do _ <- c; k) = inr tt ↔ c = inr tt ∧ k = inr tt.
Proof. destruct c as [e|[]]; naive_solver. Qed.

Lemma guard_ok (b : bool) (e : E) (k : E + unit) :
  (guard b else e; k) = inr tt ↔ b = false ∧ k = inr tt.
Proof. destruct b; naive_solver. Qed.

(** The same for computations that return a value. *)
Lemma bind_inr {B C} (c : E + B) (k : B → E + C) v :
  (do x <- c; k x) = inr v ↔ ∃ x, c = inr x ∧ k x = inr v.
Proof. destruct c; naive_solver. Qed.

Lemma guard_inr {B} (b : bool) (e : E) (k : E + B) v :
  (guard b else e; k) = inr v ↔ b = false ∧ k = inr v.
Proof. destruct b; naive_solver. Qed.
End Checks.

#[export] Hint Rewrite @bind_ok @guard_ok @check_all_ok : ntx.
