(* ===== verification/GoText.v ===== *)
(** * Go strings

    What the program uses of the Go standard library for text: byte strings with
    slicing and byte-wise order, UTF-8 decoding as [range] over a string and
    [unicode/utf8] do it, [strings.Map], [strings.ToLower], [strings.TrimSpace],
    [strings.TrimRight], [strings.ReplaceAll], [strings.SplitN],
    [strings.IndexByte], [strconv.Atoi] and [strconv.Itoa].

    A Go string is a [string] of the Standard Library, one [ascii] per byte.
    The Unicode case tables are data of the Go release and not of this program:
    they are the argument [unicode_lower] of the class [Unicode], and every
    theorem holds for all tables. *)

From Stdlib Require Import Ascii NArith ZArith Lia.
From S2P Require Import Prelude.
Open Scope Z_scope.

(** ** Bytes and slices *)

Definition byte_val (c : ascii) : Z := Z.of_N (N_of_ascii c).
Definition chr (z : Z) : ascii := ascii_of_N (Z.to_N z).

Lemma byte_val_range c : 0 ≤ byte_val c < 256.
Proof.
  unfold byte_val. pose proof (N_ascii_bounded c). lia.
Qed.

Lemma chr_byte_val c : chr (byte_val c) = c.
Proof. unfold chr, byte_val. rewrite N2Z.id. apply ascii_N_embedding. Qed.

Lemma byte_val_chr z : 0 ≤ z < 256 → byte_val (chr z) = z.
Proof.
  intros Hz. unfold chr, byte_val. rewrite N_ascii_embedding by lia. lia.
Qed.

(** [len(s)], [s[:n]] and [s[n:]]. *)
Definition slen (s : string) : nat := String.length s.

Fixpoint stake (n : nat) (s : string) : string :=
  match n, s with
  | S n', String c s' => String c (stake n' s')
  | _, _ => ""
  end.

Fixpoint sdrop (n : nat) (s : string) : string :=
  match n, s with
  | S n', String _ s' => sdrop n' s'
  | O, _ => s
  | _, EmptyString => ""
  end.

Fixpoint snth (n : nat) (s : string) : option ascii :=
  match n, s with
  | O, String c _ => Some c
  | S n', String _ s' => snth n' s'
  | _, EmptyString => None
  end.

Lemma sapp_nil_l s : "" +:+ s = s.
Proof. done. Qed.

Lemma sapp_cons c s t : String c s +:+ t = String c (s +:+ t).
Proof. done. Qed.

Lemma sapp_nil_r s : s +:+ "" = s.
Proof. induction s as [|c s IH]; [done|]. by rewrite sapp_cons, IH. Qed.

Lemma sapp_assoc s t u : (s +:+ t) +:+ u = s +:+ (t +:+ u).
Proof. induction s as [|c s IH]; [done|]. by rewrite !sapp_cons, IH. Qed.

Lemma slen_app s t : slen (s +:+ t) = (slen s + slen t)%nat.
Proof.
  unfold slen. induction s as [|c s IH]; [done|]. rewrite sapp_cons. simpl. by rewrite IH.
Qed.

Lemma slen_0 s : slen s = 0%nat → s = "".
Proof. by destruct s. Qed.

Lemma stake_sdrop n s : stake n s +:+ sdrop n s = s.
Proof.
  revert s. induction n as [|n IH]; intros [|c s]; simpl; try done.
  by rewrite sapp_cons, IH.
Qed.

Lemma sdrop_app s t : sdrop (slen s) (s +:+ t) = t.
Proof. induction s as [|c s IH]; [done|]. rewrite sapp_cons. simpl. apply IH. Qed.

Lemma stake_app s t : stake (slen s) (s +:+ t) = s.
Proof. induction s as [|c s IH]; [done|]. rewrite sapp_cons. simpl. by rewrite IH. Qed.

Lemma slen_stake n s : slen (stake n s) = (n `min` slen s)%nat.
Proof.
  unfold slen. revert s. induction n as [|n IH]; intros [|c s]; simpl; try lia.
  rewrite IH. lia.
Qed.

Lemma slen_sdrop n s : slen (sdrop n s) = (slen s - n)%nat.
Proof.
  unfold slen. revert s. induction n as [|n IH]; intros [|c s]; simpl; try lia.
  apply IH.
Qed.

Lemma stake_ge n s : (slen s ≤ n)%nat → stake n s = s.
Proof.
  unfold slen. revert s. induction n as [|n IH]; intros [|c s]; simpl; try done; [lia|].
  intros Hn. rewrite IH; [done|lia].
Qed.

(** Concatenation of a list of strings. *)
Fixpoint sconcat (l : list string) : string :=
  match l with
  | [] => ""
  | s :: l' => s +:+ sconcat l'
  end.

Lemma sconcat_app l1 l2 : sconcat (l1 ++ l2) = sconcat l1 +:+ sconcat l2.
Proof. induction l1; simpl; [done|]. by rewrite sapp_assoc, IHl1. Qed.

(** [strings.Join(l, sep)]. *)
Fixpoint strings_Join (l : list string) (sep : string) : string :=
  match l with
  | [] => ""
  | [s] => s
  | s :: l' => s +:+ sep +:+ strings_Join l' sep
  end.

(** ** The byte-wise order of Go's [<] on strings *)

Definition str_lt (a b : string) : bool := String.ltb a b.
Definition str_le (a b : string) : bool := String.leb a b.

(** [strings.Compare]. *)
Definition strings_Compare (a b : string) : Z :=
  if str_lt a b then -1 else if str_lt b a then 1 else 0.

Lemma str_le_refl a : str_le a a = true.
Proof. apply Is_true_true. apply (reflexivity (R:=String.le) a). Qed.

Lemma str_le_trans a b c : str_le a b = true → str_le b c = true → str_le a c = true.
Proof.
  rewrite <-!Is_true_true. apply (transitivity (R:=String.le)).
Qed.

Lemma str_le_antisym a b : str_le a b = true → str_le b a = true → a = b.
Proof. apply String.leb_antisym. Qed.

Lemma str_le_total a b : str_le a b = true ∨ str_le b a = true.
Proof. apply String.leb_total. Qed.

Lemma str_lt_le a b : str_lt a b = negb (str_le b a).
Proof.
  unfold str_lt, str_le, String.ltb, String.leb.
  rewrite (String.compare_antisym a b). by destruct (b ?= a)%string.
Qed.

Lemma str_lt_irrefl a : str_lt a a = false.
Proof. by rewrite str_lt_le, str_le_refl. Qed.

Lemma str_lt_neq a b : str_lt a b = true → a ≠ b.
Proof. intros H ->. by rewrite str_lt_irrefl in H. Qed.

Lemma str_trichotomy a b : str_lt a b = true ∨ a = b ∨ str_lt b a = true.
Proof.
  rewrite !str_lt_le.
  destruct (str_le b a) eqn:Hba, (str_le a b) eqn:Hab; simpl; auto.
  right; left. by apply str_le_antisym.
Qed.

Lemma str_lt_asym a b : str_lt a b = true → str_lt b a = false.
Proof.
  rewrite !str_lt_le. intros H%negb_true_iff. apply negb_false_iff.
  destruct (str_le_total a b); congruence.
Qed.

Lemma str_lt_trans a b c : str_lt a b = true → str_lt b c = true → str_lt a c = true.
Proof.
  rewrite !str_lt_le, !negb_true_iff. intros Hab Hbc.
  destruct (str_le c a) eqn:Hca; [|done].
  destruct (str_le_total a b) as [H|H]; [|congruence].
  rewrite (str_le_trans c a b) in Hbc; done.
Qed.

(** ** Prefixes, search and replacement *)

(** [strings.HasPrefix(s, p)]. *)
Fixpoint HasPrefix (s p : string) : bool :=
  match p, s with
  | EmptyString, _ => true
  | String a p', String b s' => if Ascii.eqb a b then HasPrefix s' p' else false
  | _, EmptyString => false
  end.

Lemma HasPrefix_app p s : HasPrefix (p +:+ s) p = true.
Proof.
  induction p as [|a p IH]; [by destruct s|]. rewrite sapp_cons. simpl.
  by rewrite Ascii.eqb_refl.
Qed.

Lemma HasPrefix_spec s p : HasPrefix s p = true ↔ ∃ t, s = p +:+ t.
Proof.
  split; [|intros [t ->]; apply HasPrefix_app].
  revert s. induction p as [|a p IH]; intros s; [by eexists|].
  destruct s as [|b s]; simpl; [done|].
  destruct (Ascii.eqb_spec a b) as [->|]; [|done].
  intros [t ->]%IH. exists t. done.
Qed.

(** [strings.IndexByte(s, c)], [None] for -1. *)
Fixpoint IndexByte (s : string) (c : ascii) : option nat :=
  match s with
  | EmptyString => None
  | String b s' => if Ascii.eqb b c then Some O else S <$> IndexByte s' c
  end.

Fixpoint has_byte (c : ascii) (s : string) : bool :=
  match s with
  | EmptyString => false
  | String b s' => Ascii.eqb b c || has_byte c s'
  end.

(** [strings.Count(s, string(c))] for one byte. *)
Fixpoint count_byte (c : ascii) (s : string) : nat :=
  match s with
  | EmptyString => O
  | String b s' => (if Ascii.eqb b c then 1 else 0) + count_byte c s'
  end.

Lemma IndexByte_None s c : IndexByte s c = None ↔ has_byte c s = false.
Proof.
  induction s as [|b s IH]; simpl; [done|]. destruct (Ascii.eqb b c); simpl; [done|].
  by rewrite fmap_None, IH.
Qed.

Lemma IndexByte_Some s c i :
  IndexByte s c = Some i ↔
  s = stake i s +:+ String c (sdrop (S i) s) ∧ has_byte c (stake i s) = false.
Proof.
  revert i. induction s as [|b s IH]; intros i; simpl.
  - split; [done|]. intros [H _]. destruct i; simpl in *; discriminate.
  - destruct (Ascii.eqb_spec b c) as [->|Hne].
    + destruct i as [|i]; simpl; [done|]. rewrite Ascii.eqb_refl. naive_solver.
    + destruct i as [|i]; simpl.
      * split; [by intros (? & ? & ?)%fmap_Some|].
        rewrite sapp_nil_l. by intros [[= ->] _].
      * rewrite fmap_Some. rewrite (proj2 (Ascii.eqb_neq b c)) by done. simpl.
        rewrite sapp_cons. split.
        -- intros (j & Hj & [= ->]). apply IH in Hj as [Hj1 Hj2].
           split; [f_equal; exact Hj1|exact Hj2].
        -- intros [[= Heq] Hb]. exists i. split; [|done]. by apply IH.
Qed.

(** [strings.SplitN(s, sep, n)] for a one-byte separator and [n >= 1]: at most
    [n] pieces, the last one unsplit. *)
Fixpoint split_first (c : ascii) (s : string) : string * option string :=
  match s with
  | EmptyString => ("", None)
  | String b s' =>
      if Ascii.eqb b c then ("", Some s')
      else let '(p, r) := split_first c s' in (String b p, r)
  end.

Fixpoint SplitN (c : ascii) (n : nat) (s : string) : list string :=
  match n with
  | O => []
  | S O => [s]
  | S n' =>
      match split_first c s with
      | (p, None) => [p]
      | (p, Some r) => p :: SplitN c n' r
      end
  end.

(** [strings.Split(s, sep)] for a one-byte separator. *)
Fixpoint strings_Split (c : ascii) (s : string) : list string :=
  match s with
  | EmptyString => [""]
  | String b s' =>
      if Ascii.eqb b c then "" :: strings_Split c s'
      else match strings_Split c s' with
           | p :: r => String b p :: r
           | [] => [String b ""]
           end
  end.

Lemma split_first_app c p r :
  has_byte c p = false → split_first c (p +:+ String c r) = (p, Some r).
Proof.
  induction p as [|b p IH]; simpl.
  - intros _. by rewrite Ascii.eqb_refl.
  - intros [Hb Hp]%orb_false_iff. by rewrite Hb, IH.
Qed.

Lemma SplitN_cons c n p r :
  has_byte c p = false →
  SplitN c (S (S n)) (p +:+ String c r) = p :: SplitN c (S n) r.
Proof. intros Hp. cbn [SplitN]. by rewrite split_first_app. Qed.

Lemma split_first_none c s : has_byte c s = false → split_first c s = (s, None).
Proof.
  induction s as [|b s IH]; simpl; [done|].
  intros [Hb Hs]%orb_false_iff. by rewrite Hb, IH.
Qed.

Lemma has_byte_app c s t : has_byte c (s +:+ t) = has_byte c s || has_byte c t.
Proof. induction s as [|b s IH]; [done|]. rewrite sapp_cons. simpl. by rewrite IH, orb_assoc. Qed.

(** [strings.ReplaceAll(s, old, new)] for a non-empty [old]: left to right,
    matches do not overlap.  [skip] counts the bytes of a match still to drop. *)
Fixpoint replace_from (old new : string) (skip : nat) (s : string) : string :=
  match s with
  | EmptyString => ""
  | String c s' =>
      match skip with
      | S k => replace_from old new k s'
      | O => if HasPrefix s old
             then new +:+ replace_from old new (slen old - 1) s'
             else String c (replace_from old new O s')
      end
  end.

Definition ReplaceAll (s old new : string) : string := replace_from old new O s.

Lemma replace_from_skip old new k s :
  replace_from old new k s = replace_from old new O (sdrop k s).
Proof.
  revert s. induction k as [|k IH]; intros [|c s]; try done. apply IH.
Qed.

Lemma ReplaceAll_match old new s :
  old ≠ "" → ReplaceAll (old +:+ s) old new = new +:+ ReplaceAll s old new.
Proof.
  intros Hold. unfold ReplaceAll. destruct old as [|a old]; [done|].
  rewrite sapp_cons. cbn [replace_from].
  rewrite <-(sapp_cons a old s), HasPrefix_app. f_equal.
  rewrite replace_from_skip.
  assert (slen (String a old) - 1 = slen old)%nat as -> by (unfold slen; simpl; lia).
  by rewrite sdrop_app.
Qed.

Lemma ReplaceAll_skip old new c s :
  HasPrefix (String c s) old = false →
  ReplaceAll (String c s) old new = String c (ReplaceAll s old new).
Proof. intros H. unfold ReplaceAll. cbn [replace_from]. by rewrite H. Qed.

(** ** UTF-8 *)

Definition rune := Z.
Definition RuneError : rune := 65533.

Definition in_range (lo hi z : Z) : bool := (lo <=? z) && (z <=? hi).
Definition is_cont (z : Z) : bool := in_range 128 191 z.

(** The well-formed multi-byte sequences of [unicode/utf8] (its tables [first]
    and [acceptRanges]): no overlong forms, no surrogates, nothing past U+10FFFF. *)
Definition seq2 (x b1 : Z) : bool := in_range 194 223 x && is_cont b1.

Definition seq3 (x b1 b2 : Z) : bool :=
  in_range 224 239 x
  && (if x =? 224 then in_range 160 191 b1
      else if x =? 237 then in_range 128 159 b1
      else is_cont b1)
  && is_cont b2.

Definition seq4 (x b1 b2 b3 : Z) : bool :=
  in_range 240 244 x
  && (if x =? 240 then in_range 144 191 b1
      else if x =? 244 then in_range 128 143 b1
      else is_cont b1)
  && is_cont b2 && is_cont b3.

(** One step of decoding: a rune with the bytes that encode it, or a byte that
    starts no well-formed sequence ([RuneError] of width 1). *)
Inductive chunk :=
  | Rune (r : rune) (bytes : string)
  | Bad (b : ascii).

Fixpoint chunks (s : string) : list chunk :=
  match s with
  | EmptyString => []
  | String c0 s1 =>
      let x := byte_val c0 in
      if x <? 128 then Rune x (String c0 "") :: chunks s1
      else
        match s1 with
        | EmptyString => Bad c0 :: chunks s1
        | String c1 s2 =>
            let b1 := byte_val c1 in
            if seq2 x b1 then
              Rune ((x - 192) * 64 + (b1 - 128)) (String c0 (String c1 "")) :: chunks s2
            else
              match s2 with
              | EmptyString => Bad c0 :: chunks s1
              | String c2 s3 =>
                  let b2 := byte_val c2 in
                  if seq3 x b1 b2 then
                    Rune ((x - 224) * 4096 + (b1 - 128) * 64 + (b2 - 128))
                      (String c0 (String c1 (String c2 ""))) :: chunks s3
                  else
                    match s3 with
                    | EmptyString => Bad c0 :: chunks s1
                    | String c3 s4 =>
                        let b3 := byte_val c3 in
                        if seq4 x b1 b2 b3 then
                          Rune ((x - 240) * 262144 + (b1 - 128) * 4096
                                + (b2 - 128) * 64 + (b3 - 128))
                            (String c0 (String c1 (String c2 (String c3 "")))) :: chunks s4
                        else Bad c0 :: chunks s1
                    end
              end
        end
  end.

Definition chunk_bytes (k : chunk) : string :=
  match k with Rune _ b => b | Bad c => String c "" end.

Definition chunk_rune (k : chunk) : rune :=
  match k with Rune r _ => r | Bad _ => RuneError end.

Definition chunk_ok (k : chunk) : bool :=
  match k with Rune _ _ => true | Bad _ => false end.

(** [for _, r := range s], [utf8.ValidString(s)]. *)
Definition runes_of (s : string) : list rune := chunk_rune <$> chunks s.
Definition ValidString (s : string) : bool := forallb chunk_ok (chunks s).

(** [utf8.RuneStart(b)]. *)
Definition RuneStart (c : ascii) : bool := negb (is_cont (byte_val c)).

(** The induction principle of [chunks]: the tail decoding continues with. *)
Lemma chunks_ind (P : string → Prop) :
  P "" →
  (∀ s k t, s ≠ "" → s = chunk_bytes k +:+ t → chunk_bytes k ≠ "" →
     chunks s = k :: chunks t → P t → P s) →
  ∀ s, P s.
Proof.
  intros H0 Hstep s. remember (slen s) as n eqn:Hn. revert s Hn.
  induction (lt_wf n) as [n _ IH]. intros s ->.
  destruct s as [|c0 s1]; [done|].
  assert (∀ k t, String c0 s1 = chunk_bytes k +:+ t → chunk_bytes k ≠ "" →
    chunks (String c0 s1) = k :: chunks t → P (String c0 s1)) as Hgo.
  { intros k t Heq Hne Hch. apply (Hstep _ k t); try done. eapply IH; [|reflexivity].
    rewrite Heq, slen_app. destruct (chunk_bytes k); [done|]. unfold slen. simpl. lia. }
  assert (chunks (String c0 s1) = Bad c0 :: chunks s1 → P (String c0 s1)) as Hbad.
  { by apply Hgo. }
  destruct (byte_val c0 <? 128) eqn:E0.
  { eapply (Hgo _ s1); [| |cbn [chunks]; cbv zeta; by rewrite E0]; done. }
  destruct s1 as [|c1 s2]; [apply Hbad; cbn [chunks]; cbv zeta; by rewrite E0|].
  destruct (seq2 (byte_val c0) (byte_val c1)) eqn:E1.
  { eapply (Hgo _ s2); [| |cbn [chunks]; cbv zeta; by rewrite E0, E1]; done. }
  destruct s2 as [|c2 s3]; [apply Hbad; cbn [chunks]; cbv zeta; by rewrite E0, E1|].
  destruct (seq3 (byte_val c0) (byte_val c1) (byte_val c2)) eqn:E2.
  { eapply (Hgo _ s3); [| |cbn [chunks]; cbv zeta; by rewrite E0, E1, E2]; done. }
  destruct s3 as [|c3 s4]; [apply Hbad; cbn [chunks]; cbv zeta; by rewrite E0, E1, E2|].
  destruct (seq4 (byte_val c0) (byte_val c1) (byte_val c2) (byte_val c3)) eqn:E3.
  { eapply (Hgo _ s4); [| |cbn [chunks]; cbv zeta; by rewrite E0, E1, E2, E3]; done. }
  apply Hbad. cbn [chunks]; cbv zeta; by rewrite E0, E1, E2, E3.
Qed.

(** Decoding loses no byte. *)
Lemma chunks_bytes s : sconcat (chunk_bytes <$> chunks s) = s.
Proof.
  induction s as [|s k t Hne Hs Hk Hch IH] using chunks_ind; [done|].
  rewrite Hch, fmap_cons. cbn [sconcat]. by rewrite IH.
Qed.

(** What a chunk of [chunks s] holds: a rune in range whose bytes are a leading
    byte and at most three continuation bytes. *)
Fixpoint all_cont (s : string) : bool :=
  match s with
  | EmptyString => true
  | String c s' => is_cont (byte_val c) && all_cont s'
  end.

Definition rune_bytes (b : string) : Prop :=
  ∃ c b', b = String c b' ∧ RuneStart c = true ∧ all_cont b' = true ∧ (slen b' ≤ 3)%nat.

Lemma rune_bytes_intro c b :
  (byte_val c < 128 ∨ 192 ≤ byte_val c) → all_cont b = true → (slen b ≤ 3)%nat →
  rune_bytes (String c b).
Proof.
  intros Hc Hb Hl. exists c, b. split; [done|]. split; [|done].
  unfold RuneStart, is_cont, in_range.
  destruct (128 <=? byte_val c) eqn:?, (byte_val c <=? 191) eqn:?; bprop; simpl; lia.
Qed.

Lemma all_cont_cons c b : 128 ≤ byte_val c ≤ 191 → all_cont b = true → all_cont (String c b) = true.
Proof.
  intros [H1 H2] Hb. simpl. unfold is_cont, in_range.
  by rewrite (proj2 (Z.leb_le _ _) H1), (proj2 (Z.leb_le _ _) H2), Hb.
Qed.

(** The rune a whole string encodes, if it encodes exactly one. *)
Definition rune_code (b : string) : option rune :=
  match b with
  | String c0 EmptyString =>
      if byte_val c0 <? 128 then Some (byte_val c0) else None
  | String c0 (String c1 EmptyString) =>
      let x := byte_val c0 in let b1 := byte_val c1 in
      if seq2 x b1 then Some ((x - 192) * 64 + (b1 - 128)) else None
  | String c0 (String c1 (String c2 EmptyString)) =>
      let x := byte_val c0 in let b1 := byte_val c1 in let b2 := byte_val c2 in
      if seq3 x b1 b2
      then Some ((x - 224) * 4096 + (b1 - 128) * 64 + (b2 - 128)) else None
  | String c0 (String c1 (String c2 (String c3 EmptyString))) =>
      let x := byte_val c0 in let b1 := byte_val c1 in
      let b2 := byte_val c2 in let b3 := byte_val c3 in
      if seq4 x b1 b2 b3
      then Some ((x - 240) * 262144 + (b1 - 128) * 4096 + (b2 - 128) * 64 + (b3 - 128))
      else None
  | _ => None
  end.

Definition chunk_wf (k : chunk) : Prop :=
  match k with
  | Bad c => 128 ≤ byte_val c
  | Rune r b => rune_code b = Some r
  end.

Lemma seq2_ranges x b1 : seq2 x b1 = true → 194 ≤ x ≤ 223 ∧ 128 ≤ b1 ≤ 191.
Proof. unfold seq2, is_cont, in_range. intros. bprop. lia. Qed.

Lemma seq3_ranges x b1 b2 :
  seq3 x b1 b2 = true → 224 ≤ x ≤ 239 ∧ 128 ≤ b1 ≤ 191 ∧ 128 ≤ b2 ≤ 191 ∧ (x = 224 → 160 ≤ b1).
Proof.
  unfold seq3, is_cont, in_range. intros.
  destruct (x =? 224) eqn:?, (x =? 237) eqn:?; bprop; lia.
Qed.

Lemma seq4_ranges x b1 b2 b3 :
  seq4 x b1 b2 b3 = true →
  240 ≤ x ≤ 244 ∧ 128 ≤ b1 ≤ 191 ∧ 128 ≤ b2 ≤ 191 ∧ 128 ≤ b3 ≤ 191 ∧
  (x = 240 → 144 ≤ b1) ∧ (x = 244 → b1 ≤ 143).
Proof.
  unfold seq4, is_cont, in_range. intros.
  destruct (x =? 240) eqn:?, (x =? 244) eqn:?; bprop; lia.
Qed.

Lemma seq2_false x b1 : ¬ 194 ≤ x ≤ 223 → seq2 x b1 = false.
Proof. intros H. destruct (seq2 x b1) eqn:E; [|done]. apply seq2_ranges in E. lia. Qed.

Lemma seq3_false x b1 b2 : ¬ 224 ≤ x ≤ 239 → seq3 x b1 b2 = false.
Proof. intros H. destruct (seq3 x b1 b2) eqn:E; [|done]. apply seq3_ranges in E. lia. Qed.

Lemma ltb_false x : 128 ≤ x → (x <? 128) = false.
Proof. intros H. by apply Z.ltb_ge. Qed.

Lemma chunks_wf s : Forall chunk_wf (chunks s).
Proof.
  remember (slen s) as n eqn:Hn. revert s Hn.
  induction (lt_wf n) as [n _ IH]. intros s ->.
  destruct s as [|c0 s1]; [constructor|].
  assert (∀ t, (slen t < S (slen s1))%nat → Forall chunk_wf (chunks t)) as IH'.
  { intros t Ht. by eapply IH. }
  clear IH. cbn [chunks]. cbv zeta. unfold slen in IH'.
  destruct (byte_val c0 <? 128) eqn:E0.
  { constructor; [|apply IH'; lia]. simpl. by rewrite E0. }
  assert (Forall chunk_wf (Bad c0 :: chunks s1)) as Hbad.
  { constructor; [simpl; bprop; lia|]. apply IH'. lia. }
  destruct s1 as [|c1 s2]; [done|].
  destruct (seq2 _ _) eqn:E1.
  { constructor; [|apply IH'; simpl; lia]. simpl. by rewrite E1. }
  destruct s2 as [|c2 s3]; [done|].
  destruct (seq3 _ _ _) eqn:E2.
  { constructor; [|apply IH'; simpl; lia]. simpl. by rewrite E2. }
  destruct s3 as [|c3 s4]; [done|].
  destruct (seq4 _ _ _ _) eqn:E3; [|done].
  constructor; [|apply IH'; simpl; lia]. simpl. by rewrite E3.
Qed.

Lemma chunks_rune s r b l : chunks s = Rune r b :: l → rune_code b = Some r.
Proof.
  intros Hs. pose proof (chunks_wf s) as Hwf. rewrite Hs in Hwf.
  by apply Forall_cons in Hwf as [? _].
Qed.

(** Decoding a rune followed by anything gives the rune first. *)
Lemma chunks_app_rune b r u : rune_code b = Some r → chunks (b +:+ u) = Rune r b :: chunks u.
Proof.
  destruct b as [|c0 [|c1 [|c2 [|c3 [|]]]]]; intros H; simpl in H; try discriminate;
    rewrite ?sapp_cons, sapp_nil_l; cbn [chunks]; cbv zeta.
  - destruct (byte_val c0 <? 128) eqn:E; [|done]. by injection H as <-.
  - destruct (seq2 _ _) eqn:E; [|done]. injection H as <-.
    pose proof (seq2_ranges _ _ E). by rewrite ltb_false by lia.
  - destruct (seq3 _ _ _) eqn:E; [|done]. injection H as <-.
    pose proof (seq3_ranges _ _ _ E). rewrite ltb_false by lia. by rewrite seq2_false by lia.
  - destruct (seq4 _ _ _ _) eqn:E; [|done]. injection H as <-.
    pose proof (seq4_ranges _ _ _ _ E). rewrite ltb_false by lia. rewrite seq2_false by lia.
    by rewrite seq3_false by lia.
Qed.

Lemma rune_code_bytes b r : rune_code b = Some r → rune_bytes b.
Proof.
  destruct b as [|c0 [|c1 [|c2 [|c3 [|]]]]]; simpl; try done; cbv zeta.
  - destruct (byte_val c0 <? 128) eqn:E; [|done]. intros _. bprop.
    apply rune_bytes_intro; [lia|done|]. unfold slen; simpl; lia.
  - destruct (seq2 _ _) eqn:E; [|done]. intros _. apply seq2_ranges in E.
    apply rune_bytes_intro; [lia| |unfold slen; simpl; lia]. apply all_cont_cons; [lia|done].
  - destruct (seq3 _ _ _) eqn:E; [|done]. intros _. apply seq3_ranges in E.
    apply rune_bytes_intro; [lia| |unfold slen; simpl; lia].
    do 2 (apply all_cont_cons; [lia|]). done.
  - destruct (seq4 _ _ _ _) eqn:E; [|done]. intros _. apply seq4_ranges in E.
    apply rune_bytes_intro; [lia| |unfold slen; simpl; lia].
    do 3 (apply all_cont_cons; [lia|]). done.
Qed.

Lemma rune_code_range b r : rune_code b = Some r → 0 ≤ r ≤ 1114111.
Proof.
  destruct b as [|c0 [|c1 [|c2 [|c3 [|]]]]]; simpl; try done; cbv zeta.
  - pose proof (byte_val_range c0).
    destruct (byte_val c0 <? 128) eqn:E; [|done]. intros [= <-]. bprop. lia.
  - destruct (seq2 _ _) eqn:E; [|done]. intros [= <-]. apply seq2_ranges in E. lia.
  - destruct (seq3 _ _ _) eqn:E; [|done]. intros [= <-]. apply seq3_ranges in E. lia.
  - destruct (seq4 _ _ _ _) eqn:E; [|done]. intros [= <-]. apply seq4_ranges in E. lia.
Qed.

(** An ASCII rune is its byte. *)
Lemma rune_code_ascii b r : rune_code b = Some r → r < 128 → b = String (chr r) "".
Proof.
  destruct b as [|c0 [|c1 [|c2 [|c3 [|]]]]]; simpl; try done; cbv zeta.
  - destruct (byte_val c0 <? 128) eqn:E; [|done]. intros [= <-] _. by rewrite chr_byte_val.
  - destruct (seq2 _ _) eqn:E; [|done]. intros [= <-]. apply seq2_ranges in E. lia.
  - destruct (seq3 _ _ _) eqn:E; [|done]. intros [= <-]. apply seq3_ranges in E. lia.
  - destruct (seq4 _ _ _ _) eqn:E; [|done]. intros [= <-]. apply seq4_ranges in E. lia.
Qed.

(** The induction principle of well-formed UTF-8. *)
Lemma valid_ind (P : string → Prop) :
  P "" →
  (∀ r b t, rune_code b = Some r → ValidString t = true → P t → P (b +:+ t)) →
  ∀ s, ValidString s = true → P s.
Proof.
  intros H0 Hstep s. induction s as [|s k t Hne Hs Hk Hch IH] using chunks_ind; [done|].
  intros Hv. unfold ValidString in Hv. rewrite Hch in Hv. simpl in Hv.
  apply andb_true_iff in Hv as [Hok Ht]. destruct k as [r b|]; [|done].
  simpl in Hs. subst s. eapply Hstep; eauto using chunks_rune.
Qed.

Lemma ValidString_rune b r t :
  rune_code b = Some r → ValidString (b +:+ t) = ValidString t.
Proof. intros Hb. unfold ValidString. by rewrite (chunks_app_rune _ _ _ Hb). Qed.

(** [utf8.AppendRune]: the encoding of a rune; surrogates and values out of
    range become U+FFFD. *)
Definition encode_rune (r : rune) : string :=
  let bad := String (chr 239) (String (chr 191) (String (chr 189) "")) in
  if (r <? 0) || (1114111 <? r) || in_range 55296 57343 r then bad
  else if r <? 128 then String (chr r) ""
  else if r <? 2048 then
    String (chr (192 + r / 64)) (String (chr (128 + r mod 64)) "")
  else if r <? 65536 then
    String (chr (224 + r / 4096))
      (String (chr (128 + (r / 64) mod 64)) (String (chr (128 + r mod 64)) ""))
  else
    String (chr (240 + r / 262144))
      (String (chr (128 + (r / 4096) mod 64))
        (String (chr (128 + (r / 64) mod 64)) (String (chr (128 + r mod 64)) ""))).

Lemma encode_error : rune_code (encode_rune RuneError) = Some RuneError.
Proof. vm_compute. reflexivity. Qed.

(** [strings.Map(f, s)]: [f] returns [None] for a negative rune (dropped).  A rune
    mapped to itself keeps its bytes; an ill-formed byte reaches [f] as
    [RuneError] and leaves as the encoding of the result. *)
Definition map_chunk (f : rune → option rune) (k : chunk) : string :=
  match k with
  | Rune r b =>
      match f r with
      | None => ""
      | Some r' => if r' =? r then b else encode_rune r'
      end
  | Bad _ =>
      match f RuneError with
      | None => ""
      | Some r' => encode_rune r'
      end
  end.

Definition strings_Map (f : rune → option rune) (s : string) : string :=
  sconcat (map_chunk f <$> chunks s).

(** [unicode.IsControl]. *)
Definition IsControl (r : rune) : bool := in_range 0 31 r || in_range 127 159 r.

(** The mapping that drops control characters, which the program applies to
    names received from devices. *)
Definition strip_control (s : string) : string :=
  strings_Map (λ r, if IsControl r then None else Some r) s.

(** [unicode.IsSpace], the White_Space property. *)
Definition IsSpace (r : rune) : bool :=
  in_range 9 13 r || (r =? 32) || (r =? 133) || (r =? 160) || (r =? 5760)
  || in_range 8192 8202 r || (r =? 8232) || (r =? 8233) || (r =? 8239)
  || (r =? 8287) || (r =? 12288).

(** The simple lower-case mapping of the Unicode tables for runes past ASCII. *)
Class Unicode := unicode_lower : rune → rune.

(** [unicode.ToLower]. *)
Definition unicode_ToLower `{Unicode} (r : rune) : rune :=
  if r <? 128 then (if in_range 65 90 r then r + 32 else r) else unicode_lower r.

Definition ToLower `{Unicode} (s : string) : string :=
  strings_Map (λ r, Some (unicode_ToLower r)) s.

(** A table with the runes past ASCII whose lower-case form is an ASCII letter
    (U+0130 and the Kelvin sign U+212A) and the Latin-1 letters. *)
Definition unicode_table : Unicode := λ r,
  if r =? 304 then 105
  else if r =? 8490 then 107
  else if in_range 192 222 r && negb (r =? 215) then r + 32
  else r.

(** [strings.TrimSpace]: drops leading and trailing white space runes. *)
Fixpoint drop_space (l : list chunk) : list chunk :=
  match l with
  | [] => []
  | k :: l' => if IsSpace (chunk_rune k) then drop_space l' else l
  end.

Definition TrimSpace (s : string) : string :=
  sconcat (chunk_bytes <$> reverse (drop_space (reverse (drop_space (chunks s))))).

(** [strings.TrimRight(s, cutset)] for one byte. *)
Fixpoint TrimRight (c : ascii) (s : string) : string :=
  match s with
  | EmptyString => ""
  | String b s' =>
      let r := TrimRight c s' in
      if Ascii.eqb b c && bool_decide (r = "") then "" else String b r
  end.

(** [for _, r := range s] on a string of ASCII bytes sees the bytes. *)
Lemma runes_of_ascii c s :
  byte_val c < 128 → runes_of (String c s) = byte_val c :: runes_of s.
Proof.
  intros Hc. unfold runes_of. cbn [chunks]. cbv zeta.
  by rewrite (proj2 (Z.ltb_lt _ _) Hc).
Qed.

(** ASCII strings decode byte by byte. *)
Fixpoint is_ascii (s : string) : bool :=
  match s with
  | EmptyString => true
  | String c s' => (byte_val c <? 128) && is_ascii s'
  end.

Lemma chunks_ascii_app a s :
  is_ascii a = true → chunks (a +:+ s) = chunks a ++ chunks s.
Proof.
  induction a as [|c a IH]; [done|]. cbn [is_ascii]. intros [Hc Ha]%andb_true_iff.
  rewrite sapp_cons. cbn [chunks]. cbv zeta. rewrite Hc. by rewrite IH.
Qed.

Lemma strings_Map_ascii_app f a s :
  is_ascii a = true → strings_Map f (a +:+ s) = strings_Map f a +:+ strings_Map f s.
Proof.
  intros Ha. unfold strings_Map. by rewrite chunks_ascii_app, fmap_app, sconcat_app.
Qed.

(** Dropping nothing changes nothing, on well-formed text. *)
Lemma strip_control_id s :
  ValidString s = true → forallb (λ r, negb (IsControl r)) (runes_of s) = true →
  strip_control s = s.
Proof.
  intros Hv. pattern s. apply valid_ind; [done| |done].
  intros r b t Hb Ht IH. unfold strip_control, strings_Map, runes_of.
  rewrite (chunks_app_rune _ _ _ Hb), !fmap_cons. cbn [forallb chunk_rune sconcat map_chunk].
  intros [Hr Hrest]%andb_true_iff. apply negb_true_iff in Hr. rewrite Hr, Z.eqb_refl.
  f_equal. by apply IH.
Qed.

(** ** Decimal numbers *)

Definition digit_val (c : ascii) : option Z :=
  let z := byte_val c in if in_range 48 57 z then Some (z - 48) else None.

Fixpoint parse_digits (acc : Z) (s : string) : option Z :=
  match s with
  | EmptyString => Some acc
  | String c s' =>
      match digit_val c with
      | Some d => parse_digits (acc * 10 + d) s'
      | None => None
      end
  end.

Definition MaxInt : Z := 9223372036854775807.
Definition MinInt : Z := -9223372036854775808.

(** [strconv.Atoi] on a 64-bit platform: an optional sign, at least one digit,
    in the range of [int]. *)
Definition Atoi (s : string) : option Z :=
  let check (z : Z) := if in_range MinInt MaxInt z then Some z else None in
  match s with
  | EmptyString => None
  | String c s' =>
      if Ascii.eqb c "-" then
        match s' with EmptyString => None | _ => parse_digits 0 s' ≫= λ v, check (- v) end
      else if Ascii.eqb c "+" then
        match s' with EmptyString => None | _ => parse_digits 0 s' ≫= check end
      else parse_digits 0 s ≫= check
  end.

(** [strconv.Itoa]. *)
Definition Itoa (z : Z) : string := pretty z.

(** Arithmetic on [int64] wraps around. *)
Definition wrap64 (z : Z) : Z := (z + 2 ^ 63) mod 2 ^ 64 - 2 ^ 63.

Lemma wrap64_small z : 0 ≤ z ≤ MaxInt → wrap64 z = z.
Proof.
  intros Hz. unfold wrap64, MaxInt in *. rewrite Z.mod_small by (split; [lia|]; lia). lia.
Qed.

(** Two prefixes of one string: one is a prefix of the other. *)
Lemma HasPrefix_both s p q :
  HasPrefix s p = true → HasPrefix s q = true → HasPrefix p q = true ∨ HasPrefix q p = true.
Proof.
  revert p q. induction s as [|c s IH]; intros [|a p] [|b q]; simpl; auto; try done.
  destruct (Ascii.eqb_spec a c) as [->|]; [|done].
  destruct (Ascii.eqb_spec b c) as [->|]; [|done].
  rewrite Ascii.eqb_refl. apply IH.
Qed.
