(* ===== verification/Sanitize.v ===== *)
(** * internal/sanitize

    [TruncateAtRuneBoundary]: a byte cap that never cuts a UTF-8 sequence. *)

From Stdlib Require Import Ascii ZArith Lia.
From S2P Require Import Prelude GoText.
Open Scope Z_scope.

(** The loop [for n > 0 && !utf8.RuneStart(s[n]) { n-- }].  It runs with
    [n < len(s)], so [s[n]] never panics. *)
Fixpoint retreat (s : string) (n : nat) : nat :=
  match n with
  | O => O
  | S n' =>
      match snth n s with
      | Some c => if RuneStart c then n else retreat s n'
      | None => n
      end
  end.

Definition TruncateAtRuneBoundary (s : string) (maxBytes : Z) : string :=
  if maxBytes <=? 0 then ""
  else if Z.of_nat (slen s) <=? maxBytes then s
  else stake (retreat s (Z.to_nat maxBytes)) s.

Lemma retreat_le s n : (retreat s n ≤ n)%nat.
Proof.
  induction n as [|n IH]; cbn [retreat]; [lia|].
  destruct (snth (S n) s) as [c|]; [|lia]. destruct (RuneStart c); lia.
Qed.

Lemma snth_app_r b t m : snth (slen b + m) (b +:+ t) = snth m t.
Proof. unfold slen. induction b as [|c b IH]; [done|]. rewrite sapp_cons. simpl. done. Qed.

Lemma snth_cont b m t c :
  all_cont b = true → snth m (b +:+ t) = Some c → (m < slen b)%nat → RuneStart c = false.
Proof.
  unfold slen. revert m. induction b as [|a b IH]; intros m; simpl; [lia|].
  intros [Ha Hb]%andb_true_iff. rewrite sapp_cons. destruct m as [|m]; simpl.
  - intros [= ->] _. unfold RuneStart. by rewrite Ha.
  - intros Hm Hl. eapply IH; eauto. lia.
Qed.

(** Inside a rune the loop goes back to the rune's first byte. *)
Lemma retreat_inside c b t n :
  all_cont b = true → (n ≤ slen b)%nat → retreat (String c b +:+ t) n = O.
Proof.
  intros Hb. induction n as [|n IH]; intros Hn; [done|].
  rewrite sapp_cons in *. cbn [retreat snth].
  destruct (snth n (b +:+ t)) as [a|] eqn:Ha.
  - rewrite (snth_cont b n t a); [apply IH; lia|done|done|lia].
  - exfalso. revert Ha. clear -Hn. unfold slen in Hn. revert n Hn.
    induction b as [|x b IHb]; intros n Hn; simpl in Hn; [lia|].
    rewrite sapp_cons. destruct n; simpl; [done|]. apply IHb. lia.
Qed.

(** Past a rune the loop works on the rest of the string. *)
Lemma retreat_past b t m :
  (∀ c, snth 0 t = Some c → RuneStart c = true) →
  retreat (b +:+ t) (slen b + S m) = (slen b + retreat t (S m))%nat
  ∨ t = "".
Proof.
  intros Ht. destruct t as [|c0 t0]; [by right|left].
  specialize (Ht c0 eq_refl).
  cut (∀ k, (slen b + k = 0)%nat ∨
    retreat (b +:+ String c0 t0) (slen b + k) = (slen b + retreat (String c0 t0) k)%nat).
  { intros Hk. destruct (Hk (S m)) as [|]; [lia|done]. }
  intros k. induction k as [|k IH].
  - rewrite Nat.add_0_r. destruct (slen b) eqn:Hl; [by left|right].
    cbn [retreat]. rewrite <-Hl, <-(Nat.add_0_r (slen b)), snth_app_r. cbn [snth].
    rewrite Ht. lia.
  - right. replace (slen b + S k)%nat with (S (slen b + k)) by lia. cbn [retreat].
    replace (S (slen b + k)) with (slen b + S k)%nat by lia. rewrite snth_app_r.
    destruct (snth (S k) (String c0 t0)) as [c|] eqn:Hc; [|done].
    destruct (RuneStart c); [done|]. destruct IH as [IH|IH]; [|done].
    assert (slen b = 0%nat ∧ k = 0%nat) as [Hb ->] by lia. rewrite Hb. done.
Qed.

Lemma valid_first t c : ValidString t = true → snth 0 t = Some c → RuneStart c = true.
Proof.
  intros Hv. revert c. pattern t. apply valid_ind; [done| |done].
  intros r b u (a & b' & -> & Ha & _)%rune_code_bytes _ _ c.
  rewrite sapp_cons. simpl. by intros [= <-].
Qed.

Lemma stake_app_ge b t m : stake (slen b + m) (b +:+ t) = b +:+ stake m t.
Proof. unfold slen. induction b as [|c b IH]; [done|]. rewrite !sapp_cons. simpl. by rewrite IH. Qed.

(** Cutting well-formed UTF-8 leaves well-formed UTF-8 and gives up at most the
    three continuation bytes of one rune. *)
Lemma retreat_valid s n :
  ValidString s = true → (n < slen s)%nat →
  ValidString (stake (retreat s n) s) = true ∧ (n ≤ retreat s n + 3)%nat.
Proof.
  intros Hv. revert n. pattern s. apply valid_ind; [|clear s Hv|done].
  { intros n Hn. unfold slen in Hn. simpl in Hn. lia. }
  intros r b t Hcode Ht IH n Hn.
  destruct (rune_code_bytes b r Hcode) as (c & b' & -> & _ & Hcont & Hlen).
  destruct (decide (n ≤ slen b')%nat) as [Hle|Hgt].
  { rewrite retreat_inside by done. split; [done|lia]. }
  assert (slen (String c b') = S (slen b')) as Hsl by done.
  rewrite slen_app, Hsl in Hn.
  destruct (retreat_past (String c b') t (n - slen (String c b') - 1)) as [Hr| ->].
  - intros a. by apply valid_first.
  - destruct (decide (n = S (slen b'))) as [->|Hne].
    + assert (retreat (String c b' +:+ t) (S (slen b')) = S (slen b')) as ->.
      { cbn [retreat]. rewrite <-Hsl, <-(Nat.add_0_r (slen (String c b'))), snth_app_r.
        destruct (snth 0 t) as [a|] eqn:Ha; [|lia]. rewrite (valid_first t a); [lia|done|done]. }
      rewrite <-Hsl, stake_app. split; [|lia].
      by rewrite <-(sapp_nil_r (String c b')), (ValidString_rune _ r).
    + replace (slen (String c b') + S (n - slen (String c b') - 1))%nat with n in Hr by lia.
      replace (S (n - slen (String c b') - 1)) with (n - S (slen b'))%nat in Hr by lia.
      rewrite Hr, stake_app_ge, (ValidString_rune _ r) by done.
      destruct (IH (n - S (slen b'))%nat) as [IH1 IH2]; [lia|]. split; [done|lia].
  - assert (slen "" = 0%nat) by done. lia.
Qed.

(** ** Properties *)

(** The result never exceeds the cap. *)
Lemma truncate_length s m :
  Z.of_nat (slen (TruncateAtRuneBoundary s m)) ≤ Z.max 0 m.
Proof.
  unfold TruncateAtRuneBoundary. destruct (m <=? 0) eqn:?; [simpl; lia|].
  destruct (Z.of_nat (slen s) <=? m) eqn:?; bprop; [lia|].
  rewrite slen_stake. pose proof (retreat_le s (Z.to_nat m)). lia.
Qed.

(** The result is a prefix of the input. *)
Lemma truncate_prefix s m : ∃ t, s = TruncateAtRuneBoundary s m +:+ t.
Proof.
  unfold TruncateAtRuneBoundary. destruct (m <=? 0); [by eexists|].
  destruct (_ <=? m); [exists ""; by rewrite sapp_nil_r|].
  eexists. symmetry. apply stake_sdrop.
Qed.

Lemma truncate_valid s m :
  ValidString s = true → ValidString (TruncateAtRuneBoundary s m) = true.
Proof.
  intros Hv. unfold TruncateAtRuneBoundary. destruct (m <=? 0) eqn:?; [done|].
  destruct (Z.of_nat (slen s) <=? m) eqn:?; [done|]. bprop.
  apply retreat_valid; [done|lia].
Qed.
