(* ===== verification/Discovery.v ===== *)
(** * internal/discovery: the value types

    Devices, edges, out-of-scope neighbours and the reconciled graph.  The
    enumerations of the source ([DiscoveryProtocol], [LinkKind], [Direction],
    [Confidence], [Adjacency]) are Go string types: a value decoded from JSON may
    hold any string, so they are strings here, with the declared constants and
    their [Valid] predicates.  A [time.Time] is its distance in nanoseconds from
    Go's zero time and a [time.Duration] a number of nanoseconds. *)

From Stdlib Require Import ZArith Lia.
From S2P Require Import Prelude GoText.
Open Scope Z_scope.

Abbreviation time := Z (only parsing).
Abbreviation duration := Z (only parsing).

Definition Second : duration := 1000000000.
Definition Minute : duration := 60 * Second.
Definition Hour : duration := 60 * Minute.

(** [Time.Sub] saturates at the bounds of a [Duration]. *)
Definition time_Sub (t u : time) : duration := Z.max MinInt (Z.min MaxInt (t - u)).

Lemma time_Sub_exact t u : MinInt ≤ t - u ≤ MaxInt → time_Sub t u = t - u.
Proof. unfold time_Sub. lia. Qed.

Lemma time_Sub_lower t u d : MinInt < d → d ≤ MaxInt → d ≤ time_Sub t u ↔ d ≤ t - u.
Proof. unfold time_Sub. lia. Qed.

(** ** Iteration over a Go map

    The order of [for k, v := range m] is unspecified and may differ from one
    loop to the next.  A client is parameterised over the order each [range]
    statement (its [site]) uses; the law says only that every entry is visited
    once. *)
Class MapRange := {
  range_map : nat → ∀ K V `{Countable K}, gmap K V → list (K * V);
  range_map_perm : ∀ site K V `{Countable K} (m : gmap K V),
    range_map site K V m ≡ₚ map_to_list m
}.
Arguments range_map {_} site {K V _ _} m.
Arguments range_map_perm {_} site {K V _ _} m.

Lemma elem_of_range `{MapRange} site {K V} `{Countable K} (m : gmap K V) k v :
  (k, v) ∈ range_map site m ↔ m !! k = Some v.
Proof. by rewrite range_map_perm, elem_of_map_to_list. Qed.

Lemma range_NoDup `{MapRange} site {K V} `{Countable K} (m : gmap K V) :
  NoDup ((range_map site m).*1).
Proof. rewrite range_map_perm. apply NoDup_fst_map_to_list. Qed.

(** One order, to evaluate the model with. *)
#[refine] Definition range_std : MapRange := {|
  range_map _ K V _ _ m := map_to_list m
|}.
Proof. by intros. Defined.

(** The opposite order. *)
#[refine] Definition range_rev : MapRange := {|
  range_map _ K V _ _ m := reverse (map_to_list m)
|}.
Proof. intros. apply reverse_Permutation. Defined.

(** ** Metadata keys and degraded reasons *)

Definition MetadataKeyDegraded : string := "degraded".
Definition MetadataKeyDegradedReason : string := "degraded_reason".
Definition MetadataKeyPeerChassisMac : string := "peer_chassis_mac".

(** [JoinReasonCodes]: empty and repeated reasons are dropped, the rest joined
    with commas in order of first appearance. *)
Definition JoinReasonCodes (reasons : list string) : string :=
  strings_Join (dedup_by id (filter (λ r, r ≠ "") reasons)) ",".

(** ** Records *)

Record Device := mkDevice {
  ID : string;
  Vendor : string;
  Model : string;
  OSVersion : string;
  Site : string;
  Uptime : duration;
  Labels : gmap string string
}.

#[export] Instance Device_eq_dec : EqDecision Device.
Proof. solve_decision. Defined.

Definition DiscoveryProtocolLLDP : string := "lldp".
Definition DiscoveryProtocolCDP : string := "cdp".
Definition DiscoveryProtocolBGP : string := "bgp".
Definition DiscoveryProtocolOSPF : string := "ospf".
Definition DiscoveryProtocolFDB : string := "fdb".
Definition DiscoveryProtocolISIS : string := "isis".
Definition DiscoveryProtocolMPLSTE : string := "mpls_te".
Definition DiscoveryProtocolConfigured : string := "configured".

Definition DiscoveryProtocol_Valid (p : string) : bool :=
  bool_decide (p ∈ [DiscoveryProtocolLLDP; DiscoveryProtocolCDP; DiscoveryProtocolBGP;
                    DiscoveryProtocolOSPF; DiscoveryProtocolFDB; DiscoveryProtocolISIS;
                    DiscoveryProtocolMPLSTE; DiscoveryProtocolConfigured]).

Definition LinkKindEthernet : string := "ethernet".
Definition LinkKindMPLSTE : string := "mpls-te".
Definition LinkKindIP : string := "ip".
Definition LinkKindLogical : string := "logical".

Definition LinkKind_Valid (k : string) : bool :=
  bool_decide (k ∈ [LinkKindEthernet; LinkKindMPLSTE; LinkKindIP; LinkKindLogical]).

Definition DirectionBidirectional : string := "bidirectional".
Definition DirectionUnidirectional : string := "unidirectional".

Definition Direction_Valid (d : string) : bool :=
  bool_decide (d ∈ [DirectionBidirectional; DirectionUnidirectional]).

Definition ConfidenceHigh : string := "high".
Definition ConfidenceMedium : string := "medium".
Definition ConfidenceLow : string := "low".

Definition Confidence_Valid (c : string) : bool :=
  bool_decide (c ∈ [ConfidenceHigh; ConfidenceMedium; ConfidenceLow]).

Definition AdjacencyDirect : string := "direct".
Definition AdjacencyIndirect : string := "indirect".
Definition AdjacencyUnknown : string := "unknown".

Definition Adjacency_Valid (a : string) : bool :=
  bool_decide (a ∈ [AdjacencyDirect; AdjacencyIndirect; AdjacencyUnknown]).

Record Edge := mkEdge {
  SrcDevice : string;
  SrcPort : string;
  DstDevice : string;
  DstPort : string;
  DiscoveryProto : string;
  Direction : string;
  Confidence : string;
  Adjacency : string;
  PrecedenceRank : Z;
  LinkKind : string;
  ObservedAt : time;
  Metadata : gmap string string
}.

#[export] Instance Edge_eq_dec : EqDecision Edge.
Proof. solve_decision. Defined.

Record OutOfScopeNeighbour := mkOOS {
  ReportingDevice : string;
  ReportingPort : string;
  NeighbourHint : string;
  Proto : string;
  FirstSeen : time;
  LastSeen : time
}.

#[export] Instance OutOfScopeNeighbour_eq_dec : EqDecision OutOfScopeNeighbour.
Proof. solve_decision. Defined.

Record Graph := mkGraph {
  Devices : list Device;
  Edges : list Edge;
  OutOfScope : list OutOfScopeNeighbour
}.

#[export] Instance Graph_eq_dec : EqDecision Graph.
Proof. solve_decision. Defined.

(** ** Field updates *)

Definition set_endpoints (e : Edge) (sd sp dd dp : string) : Edge :=
  mkEdge sd sp dd dp (DiscoveryProto e) (Direction e) (Confidence e) (Adjacency e)
    (PrecedenceRank e) (LinkKind e) (ObservedAt e) (Metadata e).

Definition set_Direction (e : Edge) (d : string) : Edge :=
  mkEdge (SrcDevice e) (SrcPort e) (DstDevice e) (DstPort e) (DiscoveryProto e) d
    (Confidence e) (Adjacency e) (PrecedenceRank e) (LinkKind e) (ObservedAt e) (Metadata e).

Definition set_DstDevice (e : Edge) (d : string) : Edge :=
  set_endpoints e (SrcDevice e) (SrcPort e) d (DstPort e).

Definition set_DstPort (e : Edge) (p : string) : Edge :=
  set_endpoints e (SrcDevice e) (SrcPort e) (DstDevice e) p.

(** The reverse observation: both endpoints swapped. *)
Definition swap_endpoints (e : Edge) : Edge :=
  set_endpoints e (DstDevice e) (DstPort e) (SrcDevice e) (SrcPort e).

Lemma swap_endpoints_involutive e : swap_endpoints (swap_endpoints e) = e.
Proof. by destruct e. Qed.

(** ** The strings of a value *)

Definition map_text (m : gmap string string) : list string := map_to_list m ≫= λ kv, [kv.1; kv.2].
Definition device_text (d : Device) : list string := [ID d; Vendor d; Model d; OSVersion d; Site d] ++ map_text (Labels d).
Definition edge_text (e : Edge) : list string :=
  [SrcDevice e; SrcPort e; DstDevice e; DstPort e; DiscoveryProto e; Direction e; Confidence e; Adjacency e; LinkKind e] ++
  map_text (Metadata e).
Definition oos_text (n : OutOfScopeNeighbour) : list string := [ReportingDevice n; ReportingPort n; NeighbourHint n; Proto n].
