(* ===== verification/Limits.v ===== *)
(** * internal/limits, and the byte-level facts behind its checks

    The byte caps that the push validator of the hub and the snapshot loader
    share, and the relation between the runes a Go loop sees and the bytes of the
    string. *)

From Stdlib Require Import ZArith Lia Ascii.
From S2P Require Import Prelude GoText.
Open Scope Z_scope.

Definition MaxDeviceIDBytes : Z := 256.
Definition MaxPortNameBytes : Z := 256.
Definition MaxLabelKeyBytes : Z := 256.
Definition MaxLabelValueBytes : Z := 4096.

(** [len(s)]. *)
Definition zlen (s : string) : Z := Z.of_nat (slen s).

Definition exceeds (cap : Z) (s : string) : bool := cap <? zlen s.

Lemma exceeds_false cap s : exceeds cap s = false ↔ zlen s ≤ cap.
Proof. unfold exceeds. apply Z.ltb_ge. Qed.

(** The runes below U+0080 of any string are its ASCII bytes. *)
Lemma ascii_rune_byte s r : r < 128 → r ∈ runes_of s ↔ 0 ≤ r ∧ has_byte (chr r) s = true.
Proof.
  intros Hr. unfold runes_of. pose proof (chunks_wf s) as Hwf. revert Hwf.
  induction s as [|s k t Hne Hs Hk Hch IH] using chunks_ind.
  { intros _. split; [set_solver|]. intros [_ H]. done. }
  rewrite Hch. intros [Hw Hwf]%Forall_cons. specialize (IH Hwf).
  rewrite fmap_cons, elem_of_cons, IH, Hs, has_byte_app, orb_true_iff. clear IH Hwf.
  destruct k as [r' b|c]; simpl in *.
  - destruct (decide (r' < 128)) as [Hlt|Hge].
    + rewrite (rune_code_ascii _ _ Hw Hlt). pose proof (rune_code_range _ _ Hw).
      cbn [has_byte]. rewrite orb_false_r. rewrite Ascii.eqb_eq.
      split; [intros [->|?]; [split; [lia|auto]|naive_solver]|].
      intros [H0 [Heq|?]]; [left|naive_solver].
      rewrite <-(byte_val_chr r), <-(byte_val_chr r') by lia. congruence.
    + assert (0 ≤ r → has_byte (chr r) b = false) as Hno.
      { intros H0. apply rune_code_bytes in Hw as Hb. destruct Hb as (c & b' & -> & Hst & Hc & _).
        assert (128 ≤ byte_val c) as Hc0.
        { destruct (decide (byte_val c < 128)); [|lia]. exfalso.
          destruct b' as [|c1 b']; simpl in Hw.
          - destruct (byte_val c <? 128) eqn:E; [|done]. injection Hw as <-. lia.
          - revert Hw. destruct b' as [|c2 [|c3 [|]]]; simpl; try done; cbv zeta.
            + rewrite seq2_false by lia. done.
            + rewrite seq3_false by lia. done.
            + destruct (seq4 _ _ _ _) eqn:E; [|done]. apply seq4_ranges in E. lia. }
        assert (byte_val (chr r) = r) as Hcr by (apply byte_val_chr; lia).
        cbn [has_byte]. apply orb_false_iff. split.
        - apply Ascii.eqb_neq. intros ->. lia.
        - clear - Hc Hcr Hr. induction b' as [|d b' IH]; [done|]. cbn [all_cont] in Hc.
          apply andb_true_iff in Hc as [Hd Hc]. cbn [has_byte]. rewrite IH by done.
          apply orb_false_iff. split; [|done]. apply Ascii.eqb_neq. intros ->.
          unfold is_cont, in_range in Hd. bprop. lia. }
      split.
      * intros [->|?]; [lia|naive_solver].
      * intros [H0 [H|?]]; [by rewrite Hno in H|naive_solver].
  - assert (0 ≤ r → Ascii.eqb c (chr r) = false) as Hno.
    { intros H0. apply Ascii.eqb_neq. intros ->. rewrite byte_val_chr in Hw by lia. lia. }
    rewrite orb_false_r. unfold RuneError. split; [naive_solver lia|].
    intros [H0 [H|?]]; [|naive_solver]. by rewrite Hno in H.
Qed.

(** A string whose every byte is printable: no C0 control and no DEL. *)
Definition control_free (s : string) : Prop :=
  ∀ r, (0 ≤ r < 32 ∨ r = 127) → has_byte (chr r) s = false.

Lemma control_free_runes s :
  control_free s ↔ Forall (λ r, (r <? 32) || (r =? 127) = false) (runes_of s).
Proof.
  unfold control_free. rewrite Forall_forall. split.
  - intros Hf r Hr. apply orb_false_iff. rewrite Z.ltb_ge, Z.eqb_neq.
    destruct (decide (r < 128)) as [Hlt|]; [|lia].
    apply ascii_rune_byte in Hr as [H0 Hb]; [|done].
    split; [destruct (decide (r < 32))|intros ->]; try lia; rewrite Hf in Hb by lia; done.
  - intros Hf r Hr. destruct (has_byte (chr r) s) eqn:Hb; [|done]. exfalso.
    assert (r ∈ runes_of s) as Hin by (apply ascii_rune_byte; [lia|split; [lia|done]]).
    apply Hf in Hin. bprop. lia.
Qed.
