(* ===== verification/HubValidate.v ===== *)
(** * internal/federation: hub_validate.go

    The checks every spoke push passes before it can touch the state of the hub.
    A [*validationError] is modelled by its reject reason; the text of its message
    is not modelled.  The loops over label and metadata maps are parameterised
    over the iteration order, since the first offending entry decides the reason. *)

From Stdlib Require Import ZArith Lia Ascii.
From S2P Require Import Prelude GoText Discovery Limits.
Open Scope Z_scope.

(** ** The wire type *)

Record SpokePayload := mkSpokePayload {
  SpokeID : string;
  CycleAt : time;
  sp_Devices : list Device;
  sp_Edges : list Edge;
  sp_OutOfScope : list OutOfScopeNeighbour
}.

#[export] Instance SpokePayload_eq_dec : EqDecision SpokePayload.
Proof. solve_decision. Defined.

(** ** Reject reasons *)

Inductive RejectReason :=
  | RejectReasonStaleGeneration
  | RejectReasonSizeBudgetExceeded
  | RejectReasonInvalidLabelKey
  | RejectReasonInvalidLabelValue
  | RejectReasonStructuralInvalid.

#[export] Instance RejectReason_eq_dec : EqDecision RejectReason.
Proof. solve_decision. Defined.

(** The wire string of each reason. *)
Definition RejectReason_String (r : RejectReason) : string :=
  match r with
  | RejectReasonStaleGeneration => "stale_generation"
  | RejectReasonSizeBudgetExceeded => "size_budget_exceeded"
  | RejectReasonInvalidLabelKey => "invalid_label_key"
  | RejectReasonInvalidLabelValue => "invalid_label_value"
  | RejectReasonStructuralInvalid => "structural_invalid"
  end.

Abbreviation verdict := (RejectReason + unit)%type (only parsing).

(** Wraps the error of an inner check: the outer call picks its own reason. *)
Definition rewrap (r : RejectReason) (v : verdict) : verdict :=
  match v with inl _ => inl r | inr u => inr u end.

Lemma rewrap_ok r v : rewrap r v = inr tt ↔ v = inr tt.
Proof. destruct v as [|[]]; naive_solver. Qed.

(** ** Labels *)

Definition label_start (c : ascii) : bool :=
  let z := byte_val c in in_range 97 122 z || in_range 65 90 z || (z =? 95).

Definition label_rest (c : ascii) : bool :=
  label_start c || in_range 48 57 (byte_val c).

Fixpoint all_bytes (p : ascii → bool) (s : string) : bool :=
  match s with
  | EmptyString => true
  | String c s' => p c && all_bytes p s'
  end.

(** [labelKeyPattern]: an ASCII letter or underscore, then letters, digits and
    underscores. *)
Definition labelKeyPattern (s : string) : bool :=
  match s with
  | EmptyString => false
  | String c s' => label_start c && all_bytes label_rest s'
  end.

Definition validateLabelKey (k : string) : verdict :=
  guard bool_decide (k = "") else RejectReasonInvalidLabelKey;
  guard exceeds MaxLabelKeyBytes k else RejectReasonInvalidLabelKey;
  guard HasPrefix k "__" else RejectReasonInvalidLabelKey;
  guard negb (labelKeyPattern k) else RejectReasonInvalidLabelKey;
  inr tt.

Definition forbidden_rune (r : rune) : bool := (r <? 32) || (r =? 127).

Definition check_runes (e : RejectReason) (s : string) : verdict :=
  check_all (λ r,
    guard (r =? 0) || (r =? 10) || (r =? 13) else e;
    guard forbidden_rune r else e;
    inr tt) (runes_of s).

Definition validateLabelValue (v : string) : verdict :=
  guard exceeds MaxLabelValueBytes v else RejectReasonInvalidLabelValue;
  check_runes RejectReasonInvalidLabelValue v.

Definition validateMetricLabelString (s : string) : verdict := validateLabelValue s.

(** ** The payload *)

Section Validate.
Context `{MR : MapRange}.

Definition validate_inventory (f : string) : verdict :=
  guard negb (ValidString f) else RejectReasonInvalidLabelValue;
  rewrap RejectReasonInvalidLabelValue (validateMetricLabelString f).

Definition validate_label (kv : string * string) : verdict :=
  do _ <- rewrap RejectReasonInvalidLabelKey (validateLabelKey kv.1);
  guard negb (ValidString kv.2) else RejectReasonInvalidLabelValue;
  rewrap RejectReasonInvalidLabelValue (validateLabelValue kv.2).

(** The body of the loop over the devices, [seen] being the IDs before. *)
Definition validate_device (seen : gset string) (d : Device) : verdict :=
  guard bool_decide (ID d = "") else RejectReasonStructuralInvalid;
  guard exceeds MaxDeviceIDBytes (ID d) else RejectReasonStructuralInvalid;
  guard negb (ValidString (ID d)) else RejectReasonStructuralInvalid;
  do _ <- rewrap RejectReasonInvalidLabelValue (validateMetricLabelString (ID d));
  guard bool_decide (ID d ∈ seen) else RejectReasonStructuralInvalid;
  do _ <- check_all validate_inventory [Vendor d; Model d; OSVersion d; Site d];
  check_all validate_label (range_map 0 (Labels d)).

Fixpoint validate_devices (seen : gset string) (l : list Device) : verdict :=
  match l with
  | [] => inr tt
  | d :: l' =>
      do _ <- validate_device seen d;
      validate_devices ({[ID d]} ∪ seen) l'
  end.

Definition validate_edge_field (f : string) : verdict :=
  guard exceeds MaxPortNameBytes f else RejectReasonStructuralInvalid;
  guard negb (ValidString f) else RejectReasonStructuralInvalid;
  rewrap RejectReasonInvalidLabelValue (validateMetricLabelString f).

Definition validate_metadata (kv : string * string) : verdict :=
  guard bool_decide (kv.1 = "") else RejectReasonInvalidLabelKey;
  guard exceeds MaxLabelKeyBytes kv.1 else RejectReasonInvalidLabelKey;
  guard negb (ValidString kv.1) else RejectReasonInvalidLabelKey;
  do _ <- check_runes RejectReasonInvalidLabelKey kv.1;
  guard negb (ValidString kv.2) else RejectReasonInvalidLabelValue;
  rewrap RejectReasonInvalidLabelValue (validateLabelValue kv.2).

Definition validate_edge (e : Edge) : verdict :=
  guard bool_decide (SrcDevice e = "") || bool_decide (SrcPort e = "")
        || bool_decide (DstDevice e = "") else RejectReasonStructuralInvalid;
  guard bool_decide (SrcDevice e = DstDevice e) else RejectReasonStructuralInvalid;
  do _ <- check_all validate_edge_field
            [SrcDevice e; SrcPort e; DstDevice e; DstPort e; DiscoveryProto e; LinkKind e];
  check_all validate_metadata (range_map 1 (Metadata e)).

Definition validate_oos_field (f : string) : verdict :=
  guard exceeds MaxPortNameBytes f else RejectReasonStructuralInvalid;
  guard negb (ValidString f) else RejectReasonInvalidLabelValue;
  rewrap RejectReasonInvalidLabelValue (validateMetricLabelString f).

Definition validate_oos (n : OutOfScopeNeighbour) : verdict :=
  check_all validate_oos_field [ReportingDevice n; ReportingPort n; NeighbourHint n; Proto n].

Definition validateSpokePayload (p : SpokePayload) : verdict :=
  do _ <- validate_devices ∅ (sp_Devices p);
  do _ <- check_all validate_edge (sp_Edges p);
  check_all validate_oos (sp_OutOfScope p).
End Validate.

(** ** What an accepted payload satisfies *)

(** A string that can be a label value: bounded, well-formed UTF-8, and without
    the bytes that break the exposition line protocol. *)
Definition text_ok (cap : Z) (s : string) : Prop :=
  zlen s ≤ cap ∧ ValidString s = true ∧ control_free s.

Definition label_key_ok (k : string) : Prop :=
  zlen k ≤ MaxLabelKeyBytes ∧ HasPrefix k "__" = false ∧ labelKeyPattern k = true.

Record device_ok (d : Device) : Prop := {
  dok_id : ID d ≠ "" ∧ text_ok MaxDeviceIDBytes (ID d);
  dok_fields : Forall (text_ok MaxLabelValueBytes) [Vendor d; Model d; OSVersion d; Site d];
  dok_labels : ∀ k v, Labels d !! k = Some v → label_key_ok k ∧ text_ok MaxLabelValueBytes v
}.

Record edge_ok (e : Edge) : Prop := {
  eok_required : SrcDevice e ≠ "" ∧ SrcPort e ≠ "" ∧ DstDevice e ≠ "";
  eok_no_self : SrcDevice e ≠ DstDevice e;
  eok_fields : Forall (text_ok MaxPortNameBytes)
    [SrcDevice e; SrcPort e; DstDevice e; DstPort e; DiscoveryProto e; LinkKind e];
  eok_metadata : ∀ k v, Metadata e !! k = Some v →
    k ≠ "" ∧ text_ok MaxLabelKeyBytes k ∧ text_ok MaxLabelValueBytes v
}.

Definition oos_ok (n : OutOfScopeNeighbour) : Prop :=
  Forall (text_ok MaxPortNameBytes)
    [ReportingDevice n; ReportingPort n; NeighbourHint n; Proto n].

Record payload_ok (p : SpokePayload) : Prop := {
  pok_devices : Forall device_ok (sp_Devices p);
  pok_unique : NoDup (ID <$> sp_Devices p);
  pok_edges : Forall edge_ok (sp_Edges p);
  pok_oos : Forall oos_ok (sp_OutOfScope p)
}.

Lemma check_runes_ok e s : check_runes e s = inr tt ↔ control_free s.
Proof.
  unfold check_runes. rewrite check_all_ok, control_free_runes, Forall_forall.
  apply forall_proper. intros r. apply Morphisms_Prop.iff_iff_iff_impl_morphism; [done|].
  rewrite !guard_ok. unfold forbidden_rune.
  split; [naive_solver|]. intros Hr. split; [|done]. bprop.
  rewrite !orb_false_iff, !Z.eqb_neq. lia.
Qed.

Lemma validateLabelValue_ok v :
  validateLabelValue v = inr tt ↔ zlen v ≤ MaxLabelValueBytes ∧ control_free v.
Proof. unfold validateLabelValue. by rewrite guard_ok, check_runes_ok, exceeds_false. Qed.

Lemma validateLabelKey_ok k : validateLabelKey k = inr tt ↔ label_key_ok k.
Proof.
  unfold validateLabelKey, label_key_ok.
  rewrite !guard_ok, exceeds_false, negb_false_iff, bool_decide_eq_false.
  split; [naive_solver|]. intros (? & ? & Hp). split_and!; try done. by intros ->.
Qed.

(** A field check: a cap, UTF-8, and the label value check, whose own cap is looser. *)
Lemma text_ok_label cap v :
  cap ≤ MaxLabelValueBytes →
  text_ok cap v ↔ zlen v ≤ cap ∧ ValidString v = true ∧ validateLabelValue v = inr tt.
Proof. intros Hc. unfold text_ok. rewrite validateLabelValue_ok. naive_solver lia. Qed.

Lemma MaxPortNameBytes_le : MaxPortNameBytes ≤ MaxLabelValueBytes.
Proof. done. Qed.
Lemma MaxDeviceIDBytes_le : MaxDeviceIDBytes ≤ MaxLabelValueBytes.
Proof. done. Qed.
Lemma MaxLabelKeyBytes_le : MaxLabelKeyBytes ≤ MaxLabelValueBytes.
Proof. done. Qed.

Lemma validate_edge_field_ok f : validate_edge_field f = inr tt ↔ text_ok MaxPortNameBytes f.
Proof.
  unfold validate_edge_field, validateMetricLabelString.
  by rewrite !guard_ok, rewrap_ok, exceeds_false, negb_false_iff, text_ok_label
    by apply MaxPortNameBytes_le.
Qed.

Lemma validate_oos_field_ok f : validate_oos_field f = inr tt ↔ text_ok MaxPortNameBytes f.
Proof.
  unfold validate_oos_field, validateMetricLabelString.
  by rewrite !guard_ok, rewrap_ok, exceeds_false, negb_false_iff, text_ok_label
    by apply MaxPortNameBytes_le.
Qed.

Lemma validate_inventory_ok f : validate_inventory f = inr tt ↔ text_ok MaxLabelValueBytes f.
Proof.
  unfold validate_inventory, validateMetricLabelString.
  rewrite !guard_ok, rewrap_ok, negb_false_iff, text_ok_label, validateLabelValue_ok by done.
  naive_solver.
Qed.

Lemma validate_label_ok kv :
  validate_label kv = inr tt ↔ label_key_ok kv.1 ∧ text_ok MaxLabelValueBytes kv.2.
Proof.
  unfold validate_label.
  rewrite bind_ok, guard_ok, !rewrap_ok, negb_false_iff, validateLabelKey_ok,
    text_ok_label, validateLabelValue_ok by done. naive_solver.
Qed.

Lemma validate_metadata_ok kv :
  validate_metadata kv = inr tt ↔
  kv.1 ≠ "" ∧ text_ok MaxLabelKeyBytes kv.1 ∧ text_ok MaxLabelValueBytes kv.2.
Proof.
  unfold validate_metadata.
  rewrite !guard_ok, bind_ok, guard_ok, rewrap_ok, check_runes_ok, exceeds_false,
    !negb_false_iff, bool_decide_eq_false, (text_ok_label MaxLabelValueBytes),
    validateLabelValue_ok by done.
  unfold text_ok. naive_solver.
Qed.

Lemma check_all_Forall {A} (f : A → verdict) (P : A → Prop) l :
  (∀ x, f x = inr tt ↔ P x) → check_all f l = inr tt ↔ Forall P l.
Proof. intros Hf. rewrite check_all_ok, Forall_forall. naive_solver. Qed.

Section Accept.
Context `{MR : MapRange}.

Lemma check_range_ok {V} site (f : string * V → verdict) (m : gmap string V) :
  check_all f (range_map site m) = inr tt ↔ ∀ k v, m !! k = Some v → f (k, v) = inr tt.
Proof.
  rewrite check_all_ok. split.
  - intros H k v Hk. by apply H, elem_of_range.
  - intros H [k v] Hin. by eapply H, elem_of_range.
Qed.

Lemma validate_device_ok seen d :
  validate_device seen d = inr tt ↔ device_ok d ∧ ID d ∉ seen.
Proof.
  unfold validate_device, validateMetricLabelString.
  repeat first [rewrite guard_ok|rewrite bind_ok].
  rewrite rewrap_ok, exceeds_false, negb_false_iff,
    !bool_decide_eq_false, (check_all_Forall _ _ _ validate_inventory_ok), check_range_ok.
  setoid_rewrite validate_label_ok. split.
  - intros (H1 & H2 & H3 & H4 & H5 & H6 & H7). split; [|done]. split; [|done|done].
    split; [done|]. apply text_ok_label; [apply MaxDeviceIDBytes_le|done].
  - intros [[[Hne Hid] Hf Hl] Hs].
    apply text_ok_label in Hid as (? & ? & ?); [|apply MaxDeviceIDBytes_le]. done.
Qed.

Lemma validate_devices_ok seen l :
  validate_devices seen l = inr tt ↔
  Forall device_ok l ∧ NoDup (ID <$> l) ∧ ∀ d, d ∈ l → ID d ∉ seen.
Proof.
  revert seen. induction l as [|d l IH]; intros seen; cbn [validate_devices].
  { split; [|done]. intros _. split_and!; [constructor|constructor|set_solver]. }
  rewrite bind_ok, validate_device_ok, IH, Forall_cons, fmap_cons, NoDup_cons. split.
  - intros ([Hd Hs] & Hl & Hnd & Hseen). split_and!; try done.
    + intros (d' & Heq & Hin)%list_elem_of_fmap. apply Hseen in Hin. set_solver.
    + intros d' [->|Hin]%elem_of_cons; [done|]. apply Hseen in Hin. set_solver.
  - intros ([Hd Hl] & [Hni Hnd] & Hseen). split_and!; try done; [apply Hseen; set_solver|].
    intros d' Hin. apply not_elem_of_union. split; [|apply Hseen; set_solver].
    rewrite elem_of_singleton. intros Heq. apply Hni. rewrite <-Heq.
    apply list_elem_of_fmap. eauto.
Qed.

Lemma validate_edge_ok e : validate_edge e = inr tt ↔ edge_ok e.
Proof.
  unfold validate_edge.
  rewrite !guard_ok, bind_ok, !orb_false_iff, !bool_decide_eq_false,
    (check_all_Forall _ _ _ validate_edge_field_ok), check_range_ok.
  setoid_rewrite validate_metadata_ok. split.
  - intros (((? & ?) & ?) & ? & ? & ?). by constructor.
  - intros [(? & ? & ?) ? ? ?]. done.
Qed.

Lemma validate_oos_ok n : validate_oos n = inr tt ↔ oos_ok n.
Proof. apply check_all_Forall, validate_oos_field_ok. Qed.

Lemma validateSpokePayload_ok p : validateSpokePayload p = inr tt ↔ payload_ok p.
Proof.
  unfold validateSpokePayload.
  rewrite !bind_ok, validate_devices_ok, (check_all_Forall _ _ _ validate_edge_ok),
    (check_all_Forall _ _ _ validate_oos_ok). split.
  - intros ((? & ? & _) & ? & ?). done.
  - intros [? ? ? ?]. split_and!; try done; set_solver.
Qed.
End Accept.

(** ** Reasons *)

(** The reasons the validator gives. *)
Definition validation_reason (r : RejectReason) : Prop :=
  r = RejectReasonInvalidLabelKey ∨ r = RejectReasonInvalidLabelValue
  ∨ r = RejectReasonStructuralInvalid.

(** A check all of whose errors are validation reasons. *)
Definition reasoned (v : verdict) : Prop := ∀ r, v = inl r → validation_reason r.

Lemma reasoned_ok (u : unit) : reasoned (inr u).
Proof. by intros r. Qed.
Lemma reasoned_bind (c k : verdict) : reasoned c → reasoned k → reasoned (do _ <- c; k).
Proof. intros Hc Hk r. destruct c; [|apply Hk]. intros [= ->]. by apply Hc. Qed.
Lemma reasoned_guard (b : bool) (e : RejectReason) (k : verdict) :
  validation_reason e → reasoned k → reasoned (guard b else e; k).
Proof. intros He Hk r. destruct b; [|apply Hk]. by intros [= ->]. Qed.
Lemma reasoned_rewrap e v : validation_reason e → reasoned (rewrap e v).
Proof. intros He r. destruct v; simpl; [|done]. by intros [= ->]. Qed.
Lemma reasoned_all {A} (f : A → verdict) l : (∀ x, reasoned (f x)) → reasoned (check_all f l).
Proof. intros Hf r (x & _ & Hx)%check_all_err. by apply (Hf x). Qed.

Create HintDb reasons.
#[export] Hint Resolve reasoned_ok reasoned_bind reasoned_guard reasoned_rewrap reasoned_all : reasons.
#[export] Hint Extern 2 (validation_reason _) => (unfold validation_reason; tauto) : reasons.
#[export] Hint Extern 1 (reasoned (check_runes _ _)) => (unfold check_runes) : reasons.


Lemma validateSpokePayload_reasoned `{MR : MapRange} p : reasoned (validateSpokePayload p).
Proof.
  assert (∀ d seen, reasoned (validate_device seen d)) as Hd.
  { intros. unfold validate_device. auto 20 with reasons.
    repeat first [apply reasoned_guard|apply reasoned_bind]; auto with reasons;
      apply reasoned_all; intros; unfold validate_label, validate_inventory; auto with reasons. }
  apply reasoned_bind; [|apply reasoned_bind; apply reasoned_all; intros x].
  - generalize (∅ : gset string). induction (sp_Devices p); intros seen; simpl; auto with reasons.
  - unfold validate_edge.
    repeat first [apply reasoned_guard|apply reasoned_bind]; auto with reasons;
      apply reasoned_all; intros; unfold validate_edge_field, validate_metadata;
      repeat first [apply reasoned_guard|apply reasoned_bind]; auto with reasons.
  - apply reasoned_all; intros. unfold validate_oos_field. auto with reasons.
Qed.

(** ** Properties *)

(** C12: the hub accepts exactly the well-formed payloads, whatever the iteration
    order of the label maps: device IDs are present, unique and bounded, edges have
    their required ends and join two different devices, label names follow the
    Prometheus grammar, and no string that reaches a label or an attribute holds
    a control byte, malformed UTF-8 or more bytes than its cap. *)
Theorem push_validation_exact (MR : MapRange) (p : SpokePayload) :
  validateSpokePayload p = inr tt ↔ payload_ok p.
Proof. apply validateSpokePayload_ok. Qed.

(** every rejection of the validator carries one of the three validation
    reasons, and the iteration order never turns a rejection into an acceptance. *)
Theorem push_validation_reasons (MR1 MR2 : MapRange) (p : SpokePayload) (r : RejectReason) :
  validateSpokePayload (MR:=MR1) p = inl r →
  validation_reason r ∧
  ∃ r', validateSpokePayload (MR:=MR2) p = inl r' ∧ validation_reason r'.
Proof.
  intros Hr. split; [exact (validateSpokePayload_reasoned p r Hr)|].
  destruct (validateSpokePayload (MR:=MR2) p) as [r'|[]] eqn:H2.
  - exists r'. split; [done|]. exact (validateSpokePayload_reasoned p r' H2).
  - apply validateSpokePayload_ok in H2.
    apply (validateSpokePayload_ok (MR:=MR1)) in H2. congruence.
Qed.

(** ** Witnesses *)

Definition plain_device (id : string) : Device := mkDevice id "cisco" "" "" "" 0 ∅.

Definition payload_of (sid : string) (at_ : time) (ds : list Device) (es : list Edge) : SpokePayload :=
  mkSpokePayload sid at_ ds es [].

Example accepted_push :
  validateSpokePayload (MR:=range_std)
    (payload_of "dc1" 1 [plain_device "core1"]
       [mkEdge "core1" "Gi0/1" "access1" "" DiscoveryProtocolLLDP DirectionUnidirectional
          ConfidenceHigh AdjacencyDirect 2 LinkKindEthernet 1 {["bgp.remote_as" := "65001"]}]) = inr tt.
Proof. vm_compute. reflexivity. Qed.

Lemma push_validation_reasons_witness :
  let p := payload_of "dc1" 1 [plain_device "core1"; plain_device "core1"] [] in
  validateSpokePayload (MR:=range_std) p = inl RejectReasonStructuralInvalid ∧
  ∃ r, validateSpokePayload (MR:=range_rev) p = inl r ∧ validation_reason r.
Proof.
  assert (validateSpokePayload (MR:=range_std)
    (payload_of "dc1" 1 [plain_device "core1"; plain_device "core1"] []) =
    inl RejectReasonStructuralInvalid) as Hr by (vm_compute; reflexivity).
  split; [exact Hr|].
  exact (proj2 (push_validation_reasons range_std range_rev _ _ Hr)).
Defined.
