(* ===== verification/GraphKeys.v ===== *)
(** * internal/graph: keys and port names

    [EdgeKey] with its order, the canonical key of an edge, port-name
    normalisation, and the text form of a key kept in the snapshot. *)

From Stdlib Require Import Ascii ZArith Lia.
From S2P Require Import Prelude GoText Discovery.
Open Scope Z_scope.

(** ** Edge keys *)

Record EdgeKey := mkEdgeKey {
  k_SrcDevice : string;
  k_SrcPort : string;
  k_DstDevice : string;
  k_DstPort : string
}.

#[export] Instance EdgeKey_eq_dec : EqDecision EdgeKey.
Proof. solve_decision. Defined.

#[export] Instance EdgeKey_countable : Countable EdgeKey.
Proof.
  refine (inj_countable'
    (λ k, (k_SrcDevice k, k_SrcPort k, k_DstDevice k, k_DstPort k))
    (λ '(a, b, c, d), mkEdgeKey a b c d) _).
  by intros [].
Defined.

Definition compareEdgeKey (a b : EdgeKey) : Z :=
  if str_lt (k_SrcDevice a) (k_SrcDevice b) then -1
  else if str_lt (k_SrcDevice b) (k_SrcDevice a) then 1
  else if str_lt (k_SrcPort a) (k_SrcPort b) then -1
  else if str_lt (k_SrcPort b) (k_SrcPort a) then 1
  else if str_lt (k_DstDevice a) (k_DstDevice b) then -1
  else if str_lt (k_DstDevice b) (k_DstDevice a) then 1
  else if str_lt (k_DstPort a) (k_DstPort b) then -1
  else if str_lt (k_DstPort b) (k_DstPort a) then 1
  else 0.

Definition key_le (a b : EdgeKey) : bool := compareEdgeKey a b <=? 0.

(** Lexicographic steps: a field decides, or is equal and the rest decides. *)
Ltac key_cases :=
  repeat first
    [ rewrite str_lt_irrefl
    | match goal with
      | H : str_lt ?a ?b = true |- context [str_lt ?a ?b] => rewrite H
      | H : str_lt ?b ?a = true |- context [str_lt ?a ?b] => rewrite (str_lt_asym b a H)
      | |- context [str_lt ?a ?b] => destruct (str_trichotomy a b) as [?|[->|?]]
      end ].

Lemma compareEdgeKey_refl a : compareEdgeKey a a = 0.
Proof. unfold compareEdgeKey. by rewrite !str_lt_irrefl. Qed.

Lemma compareEdgeKey_opp a b : compareEdgeKey b a = - compareEdgeKey a b.
Proof. destruct a, b. unfold compareEdgeKey; simpl. by key_cases. Qed.

Lemma compareEdgeKey_eq a b : compareEdgeKey a b = 0 → a = b.
Proof.
  destruct a, b. unfold compareEdgeKey; simpl. key_cases; done.
Qed.

(** The comparison as a lexicographic order on field lists. *)
Fixpoint lex_lt (l1 l2 : list string) : bool :=
  match l1, l2 with
  | a :: l1', b :: l2' => if str_lt a b then true else if str_lt b a then false else lex_lt l1' l2'
  | _, _ => false
  end.

Definition key_fields (k : EdgeKey) : list string :=
  [k_SrcDevice k; k_SrcPort k; k_DstDevice k; k_DstPort k].

Lemma compareEdgeKey_lt a b : compareEdgeKey a b < 0 ↔ lex_lt (key_fields a) (key_fields b) = true.
Proof.
  destruct a, b. unfold compareEdgeKey; simpl. split_ifs; split; try done; try lia.
Qed.

Lemma lex_lt_trans l1 l2 l3 : lex_lt l1 l2 = true → lex_lt l2 l3 = true → lex_lt l1 l3 = true.
Proof.
  revert l2 l3. induction l1 as [|a l1 IH]; intros [|b l2] [|c l3]; simpl; try done.
  destruct (str_trichotomy a b) as [H|[->|H]].
  - rewrite H. intros _. destruct (str_trichotomy b c) as [H'|[->|H']].
    + by rewrite (str_lt_trans a b c).
    + by rewrite H.
    + rewrite (str_lt_asym c b) by done. by rewrite H'.
  - rewrite str_lt_irrefl. intros H1. split_ifs. intros H2. by eapply IH.
  - rewrite (str_lt_asym b a) by done. by rewrite H.
Qed.

Lemma key_le_spec a b : key_le a b = true ↔ a = b ∨ compareEdgeKey a b < 0.
Proof.
  unfold key_le. rewrite Z.leb_le. split.
  - intros H. destruct (decide (compareEdgeKey a b = 0)) as [He|]; [|right; lia].
    left. by apply compareEdgeKey_eq.
  - intros [->|H]; [by rewrite compareEdgeKey_refl|lia].
Qed.

Lemma key_le_trans a b c : key_le a b = true → key_le b c = true → key_le a c = true.
Proof.
  rewrite !key_le_spec. intros [->|H1] [->|H2]; auto.
  right. rewrite compareEdgeKey_lt in *. by eapply lex_lt_trans.
Qed.

Lemma key_le_total a b : key_le a b = true ∨ key_le b a = true.
Proof. unfold key_le. rewrite !Z.leb_le, (compareEdgeKey_opp a b). lia. Qed.

Lemma key_le_antisym a b : key_le a b = true → key_le b a = true → a = b.
Proof.
  unfold key_le. rewrite !Z.leb_le, (compareEdgeKey_opp a b). intros.
  apply compareEdgeKey_eq. lia.
Qed.

(** [Key]: the endpoints in canonical order. *)
Definition canonical (a b : EdgeKey) : EdgeKey := if compareEdgeKey a b <=? 0 then a else b.

Definition Key (e : Edge) : EdgeKey :=
  canonical (mkEdgeKey (SrcDevice e) (SrcPort e) (DstDevice e) (DstPort e))
            (mkEdgeKey (DstDevice e) (DstPort e) (SrcDevice e) (SrcPort e)).

Lemma canonical_comm a b : canonical a b = canonical b a.
Proof.
  unfold canonical. rewrite (compareEdgeKey_opp a b).
  destruct (compareEdgeKey a b <=? 0) eqn:H1, (- compareEdgeKey a b <=? 0) eqn:H2; try done;
    bprop; [|lia].
  apply compareEdgeKey_eq. lia.
Qed.

Lemma Key_swap e : Key (swap_endpoints e) = Key e.
Proof. unfold Key. rewrite canonical_comm. done. Qed.

(** ** Port names *)

Definition portPrefixes : list (string * string) :=
  [("HundredGigabitEthernet", "Hu");
   ("HundredGigE", "Hu");
   ("FortyGigabitEthernet", "Fo");
   ("TwentyFiveGigE", "Twe");
   ("TenGigabitEthernet", "Te");
   ("TwoGigabitEthernet", "Tw");
   ("GigabitEthernet", "Gi");
   ("FastEthernet", "Fa");
   ("Ethernet", "Eth");
   ("Management", "Mgmt");
   ("Port-channel", "Po");
   ("Loopback", "Lo");
   ("Tunnel", "Tu");
   ("Vlan", "Vl")].

Section PortNames.
Context `{U : Unicode}.

(** The loop over the prefix table. *)
Fixpoint normalize_prefix (name lower : string) (table : list (string * string)) : string :=
  match table with
  | [] => name
  | (long, short) :: table' =>
      if HasPrefix lower (ToLower long) then short +:+ sdrop (slen long) name
      else normalize_prefix name lower table'
  end.

Definition NormalizePortName (name : string) : string :=
  let name := strip_control name in
  let lower := ToLower name in
  normalize_prefix name lower portPrefixes.

Definition normalizedGroupKey (e : Edge) : EdgeKey :=
  canonical
    (mkEdgeKey (SrcDevice e) (NormalizePortName (SrcPort e))
               (DstDevice e) (NormalizePortName (DstPort e)))
    (mkEdgeKey (DstDevice e) (NormalizePortName (DstPort e))
               (SrcDevice e) (NormalizePortName (SrcPort e))).

(** No long prefix starts another one, whatever the case: at most one entry of
    the table matches a name, so the order of the table is immaterial. *)

Lemma portPrefixes_apart :
  Forall (λ '(i, p), Forall (λ '(j, q),
    (Nat.eqb i j || negb (HasPrefix (ToLower p.1) (ToLower q.1))) = true)
    (zip (seq 0 14) portPrefixes)) (zip (seq 0 14) portPrefixes).
Proof. repeat (constructor; [|]); repeat constructor. Qed.

Lemma normalize_prefix_hit name lower table long short :
  (long, short) ∈ table →
  HasPrefix lower (ToLower long) = true →
  Forall (λ q, q = (long, short) ∨ HasPrefix lower (ToLower q.1) = false) table →
  normalize_prefix name lower table = short +:+ sdrop (slen long) name.
Proof.
  intros Hin Hp. induction table as [|[l s] table IH]; [set_solver|].
  rewrite Forall_cons. intros [[[= -> ->]|Hl] Hf]; cbn [normalize_prefix]; [by rewrite Hp|].
  simpl in Hl. rewrite Hl. apply IH; [|done].
  apply elem_of_cons in Hin as [[= -> ->]|]; [congruence|done].
Qed.

Lemma portPrefixes_only lower long short :
  (long, short) ∈ portPrefixes → HasPrefix lower (ToLower long) = true →
  Forall (λ q, q = (long, short) ∨ HasPrefix lower (ToLower q.1) = false) portPrefixes.
Proof.
  intros Hin Hp. apply list_elem_of_lookup in Hin as [i Hi].
  apply Forall_lookup. intros j q Hq.
  destruct (HasPrefix lower (ToLower q.1)) eqn:Hq'; [left|by right].
  pose proof portPrefixes_apart as Hap. rewrite Forall_lookup in Hap.
  assert (∀ i p, portPrefixes !! i = Some p →
    zip (seq 0 14) portPrefixes !! i = Some (i, p)) as Hzip.
  { intros n p Hn. apply lookup_zip_with_Some. exists n, p. split; [done|]. split; [|done].
    apply lookup_seq. split; [done|]. by apply lookup_lt_Some in Hn. }
  pose proof (Hap i _ (Hzip _ _ Hi)) as H1. pose proof (Hap j _ (Hzip _ _ Hq)) as H2.
  simpl in H1, H2. rewrite Forall_lookup in H1, H2.
  specialize (H1 j _ (Hzip _ _ Hq)). specialize (H2 i _ (Hzip _ _ Hi)). simpl in H1, H2.
  destruct (Nat.eqb_spec i j) as [->|Hij]; [congruence|].
  rewrite (proj2 (Nat.eqb_neq j i)) in H2 by done. simpl in H1, H2.
  apply negb_true_iff in H1, H2.
  destruct (HasPrefix_both lower (ToLower long) (ToLower q.1)); congruence.
Qed.

(** Every spelling of a known long prefix, in any ASCII case, is replaced by
    the short form and the rest of the name is kept as it is. *)
Lemma normalize_long long short w suffix :
  (long, short) ∈ portPrefixes →
  is_ascii w = true → ToLower w = ToLower long → slen w = slen long →
  ValidString (w +:+ suffix) = true →
  forallb (λ r, negb (IsControl r)) (runes_of (w +:+ suffix)) = true →
  NormalizePortName (w +:+ suffix) = short +:+ suffix.
Proof.
  intros Hin Hw Hlow Hlen Hv Hc. unfold NormalizePortName. cbv zeta.
  rewrite strip_control_id by done.
  assert (HasPrefix (ToLower (w +:+ suffix)) (ToLower long) = true) as Hp.
  { unfold ToLower at 1. rewrite strings_Map_ascii_app by done.
    fold (ToLower w). rewrite Hlow. apply HasPrefix_app. }
  rewrite (normalize_prefix_hit _ _ _ long short); eauto using portPrefixes_only.
  by rewrite <-Hlen, sdrop_app.
Qed.

(** A name with no known prefix and no control character is left alone. *)
Lemma normalize_unknown name :
  ValidString name = true →
  forallb (λ r, negb (IsControl r)) (runes_of name) = true →
  Forall (λ q, HasPrefix (ToLower name) (ToLower q.1) = false) portPrefixes →
  NormalizePortName name = name.
Proof.
  intros Hv Hc Hf. unfold NormalizePortName. cbv zeta. rewrite strip_control_id by done.
  induction Hf as [|[l s] table Hl _ IH]; [done|]. cbn [normalize_prefix].
  simpl in Hl. by rewrite Hl.
Qed.

(** With different devices the canonical side is the smaller device. *)
Lemma normalizedGroupKey_cases e :
  SrcDevice e ≠ DstDevice e →
  (str_lt (SrcDevice e) (DstDevice e) = true ∧
   normalizedGroupKey e =
     mkEdgeKey (SrcDevice e) (NormalizePortName (SrcPort e))
               (DstDevice e) (NormalizePortName (DstPort e))) ∨
  (str_lt (DstDevice e) (SrcDevice e) = true ∧
   normalizedGroupKey e =
     mkEdgeKey (DstDevice e) (NormalizePortName (DstPort e))
               (SrcDevice e) (NormalizePortName (SrcPort e))).
Proof.
  intros Hne. unfold normalizedGroupKey, canonical, compareEdgeKey; simpl.
  destruct (str_trichotomy (SrcDevice e) (DstDevice e)) as [H|[H|H]]; [|done|].
  - left. by rewrite H.
  - right. by rewrite (str_lt_asym _ _ H), H.
Qed.

(** Both directions of a link have one group key. *)
Lemma normalizedGroupKey_swap e : normalizedGroupKey (swap_endpoints e) = normalizedGroupKey e.
Proof. apply canonical_comm. Qed.
End PortNames.

(** ** The text form of a key *)

Definition esc (s : string) : string := ReplaceAll (ReplaceAll s "%" "%25") "|" "%7C".
Definition unesc (s : string) : string := ReplaceAll (ReplaceAll s "%7C" "|") "%25" "%".

Definition EdgeKeyString (k : EdgeKey) : string :=
  esc (k_SrcDevice k) +:+ "|" +:+ esc (k_SrcPort k) +:+ "|" +:+
  esc (k_DstDevice k) +:+ "|" +:+ esc (k_DstPort k).

(** [None] is the error of a text that does not have three separators. *)
Definition EdgeKeyFromString (s : string) : option EdgeKey :=
  match SplitN "|" 4 s with
  | [p0; p1; p2; p3] => Some (mkEdgeKey (unesc p0) (unesc p1) (unesc p2) (unesc p3))
  | _ => None
  end.

Lemma HasPrefix_other a c p t : c ≠ a → HasPrefix (String c t) (String a p) = false.
Proof. intros H. cbn [HasPrefix]. by rewrite (proj2 (Ascii.eqb_neq a c)). Qed.

Lemma esc_cons c s :
  esc (String c s) =
  (if Ascii.eqb c "%" then "%25" else if Ascii.eqb c "|" then "%7C" else String c "") +:+ esc s.
Proof.
  unfold esc. destruct (Ascii.eqb_spec c "%") as [->|Hp].
  - change (String "%" s) with ("%" +:+ s). rewrite ReplaceAll_match by done.
    change ("%25" +:+ ?x) with (String "%" (String "2" (String "5" x))).
    by rewrite !ReplaceAll_skip.
  - rewrite ReplaceAll_skip by by apply HasPrefix_other.
    destruct (Ascii.eqb_spec c "|") as [->|Hb].
    + change (String "|" ?x) with ("|" +:+ x). by rewrite ReplaceAll_match.
    + by rewrite ReplaceAll_skip by by apply HasPrefix_other.
Qed.

Lemma esc_no_bar s : has_byte "|" (esc s) = false.
Proof.
  induction s as [|c s IH]; [done|]. rewrite esc_cons, has_byte_app, IH, orb_false_r.
  destruct (Ascii.eqb_spec c "%"); [done|]. destruct (Ascii.eqb c "|") eqn:H; [done|].
  simpl. by rewrite H.
Qed.

Lemma unesc_esc s : unesc (esc s) = s.
Proof.
  induction s as [|c s IH]; [done|]. rewrite esc_cons. unfold unesc in *.
  destruct (Ascii.eqb_spec c "%") as [->|Hp].
  - change ("%25" +:+ ?x) with (String "%" (String "2" (String "5" x))).
    rewrite (ReplaceAll_skip "%7C" "|" "%"), (ReplaceAll_skip "%7C" "|" "2"),
      (ReplaceAll_skip "%7C" "|" "5") by done.
    etrans; [by apply (ReplaceAll_match "%25")|]. by rewrite IH.
  - destruct (Ascii.eqb_spec c "|") as [->|Hb].
    + rewrite ReplaceAll_match by done.
      change ("|" +:+ ?x) with (String "|" x). rewrite ReplaceAll_skip by done. by rewrite IH.
    + rewrite sapp_cons, sapp_nil_l, !ReplaceAll_skip by by apply HasPrefix_other.
      by rewrite IH.
Qed.

Lemma EdgeKeyFromString_String k : EdgeKeyFromString (EdgeKeyString k) = Some k.
Proof.
  unfold EdgeKeyFromString, EdgeKeyString.
  rewrite !(sapp_cons "|" ""), !sapp_nil_l, !SplitN_cons by apply esc_no_bar. cbn [SplitN].
  rewrite !unesc_esc. by destruct k.
Qed.

#[export] Instance EdgeKeyString_inj : Inj (=) (=) EdgeKeyString.
Proof.
  intros k1 k2 H. apply (f_equal EdgeKeyFromString) in H.
  rewrite !EdgeKeyFromString_String in H. congruence.
Qed.
