(* ===== verification/Reconcile.v ===== *)
(** * internal/graph: Reconcile

    The collapse of one cycle's observations into one ranked edge per physical
    link, with its direction, and the record of the ports whose sources name
    different neighbours.  [reconcile_groups] is the grouping loop, [emit] the
    body of the loop over the groups, [conflict_of] the body of the loop over
    the ports; [Reconcile] composes them as the source does.  The three [range]
    loops over maps take their order from [MapRange]. *)

From Stdlib Require Import ZArith Lia.
From S2P Require Import Prelude GoText Discovery GraphKeys.
Open Scope Z_scope.

Record group := mkGroup {
  byRank : gmap Z (list Edge);
  minRank : Z;
  sides : gset string
}.

(** The only conflict kind is [ConflictNeighbourDisagreement]. *)
Definition ConflictNeighbourDisagreement : string := "neighbour_disagreement".

Record Conflict := mkConflict {
  c_SrcDevice : string;
  c_SrcPort : string;
  c_Kind : string;
  c_Sources : list string;
  c_Edges : list Edge
}.

Record portObservation := mkPortObservation {
  po_key : EdgeKey;
  po_dstDevice : string;
  po_rawSrcPort : string
}.

Section Reconcile.
Context `{U : Unicode} `{MR : MapRange}.

(** An observation with both device names, of two different devices. *)
Definition keyable (e : Edge) : bool :=
  negb (bool_decide (SrcDevice e = "") || bool_decide (DstDevice e = "")
        || bool_decide (SrcDevice e = DstDevice e)).

Definition new_group (e : Edge) : group := mkGroup ∅ (PrecedenceRank e) ∅.

Definition add_to_group (e : Edge) (g : group) : group :=
  mkGroup
    (<[PrecedenceRank e := default [] (byRank g !! PrecedenceRank e) ++ [e]]> (byRank g))
    (if PrecedenceRank e <? minRank g then PrecedenceRank e else minRank g)
    ({[SrcDevice e]} ∪ sides g).

Definition group_step (groups : gmap EdgeKey group) (e : Edge) : gmap EdgeKey group :=
  if keyable e then
    let k := normalizedGroupKey e in
    <[k := add_to_group e (default (new_group e) (groups !! k))]> groups
  else groups.

Definition reconcile_groups (edges : list Edge) : gmap EdgeKey group :=
  fold_left group_step edges ∅.

(** One step of the selection loop: the canonical side beats the other one,
    then the lexically first protocol wins. *)
Definition choose_step (k : EdgeKey) (chosen c : Edge) : Edge :=
  let side := bool_decide (SrcDevice c = k_SrcDevice k) in
  let chosenSide := bool_decide (SrcDevice chosen = k_SrcDevice k) in
  if side && negb chosenSide then c
  else if eqb side chosenSide && str_lt (DiscoveryProto c) (DiscoveryProto chosen) then c
  else chosen.

(** [None] is the panic of [candidates[0]] on an empty slice. *)
Definition choose (k : EdgeKey) (candidates : list Edge) : option Edge :=
  match candidates with
  | [] => None
  | c0 :: _ => Some (fold_left (choose_step k) candidates c0)
  end.

(** Canonical endpoint order, direction, normalised port names. *)
Definition finish (k : EdgeKey) (bidirectional : bool) (chosen : Edge) : Edge :=
  let chosen :=
    if bool_decide (SrcDevice chosen ≠ k_SrcDevice k) then swap_endpoints chosen else chosen in
  let chosen :=
    set_Direction chosen
      (if bidirectional then DirectionBidirectional else DirectionUnidirectional) in
  set_endpoints chosen (SrcDevice chosen) (NormalizePortName (SrcPort chosen))
    (DstDevice chosen) (NormalizePortName (DstPort chosen)).

Definition emit (k : EdgeKey) (g : group) : option Edge :=
  let bidirectional := (2 <=? size (sides g))%nat in
  finish k bidirectional <$> choose k (default [] (byRank g !! minRank g)).

Definition edge_le (a b : Edge) : bool := key_le (Key a) (Key b).

(** *** Conflicts *)

Definition observe (k : EdgeKey) (m : gmap (string * string) (list portObservation)) (o : Edge)
  : gmap (string * string) (list portObservation) :=
  let pk := (SrcDevice o, NormalizePortName (SrcPort o)) in
  <[pk := default [] (m !! pk) ++ [mkPortObservation k (DstDevice o) (SrcPort o)]]> m.

Definition portNeighbours (groups : list (EdgeKey * group))
  : gmap (string * string) (list portObservation) :=
  fold_left (λ m '(k, g),
    fold_left (λ m '(_, candidates), fold_left (observe k) candidates m)
      (range_map 2 (byRank g)) m) groups ∅.

Definition allSame (obs : list portObservation) : bool :=
  match obs with
  | [] => true
  | o :: rest => forallb (λ o', bool_decide (po_dstDevice o' = po_dstDevice o)) rest
  end.

(** The distinct group keys of the observations, in order. *)
Definition conflict_keys (obs : list portObservation) : list EdgeKey :=
  dedup_by id (po_key <$> obs).

Definition conflict_sources (groups : gmap EdgeKey group) (obs : list portObservation)
  : list string :=
  sort_by str_le (dedup_by id (
    conflict_keys obs ≫= λ k,
      match groups !! k with
      | Some g => DiscoveryProto <$> default [] (byRank g !! minRank g)
      | None => []
      end)).

Definition raw_le (a b : portObservation) : bool := str_le (po_rawSrcPort a) (po_rawSrcPort b).

Definition conflict_of (groups : gmap EdgeKey group) (resultByNormKey : gmap EdgeKey Edge)
    (pk : string * string) (obs : list portObservation) : option Conflict :=
  if (length obs <? 2)%nat || allSame obs then None
  else
    rawPort ← po_rawSrcPort <$> head (sort_by raw_le obs);
    Some (mkConflict pk.1 rawPort ConflictNeighbourDisagreement
            (conflict_sources groups obs)
            (omap (λ k, resultByNormKey !! k) (conflict_keys obs))).

Definition conflict_le (a b : Conflict) : bool :=
  if bool_decide (c_SrcDevice a = c_SrcDevice b) then str_le (c_SrcPort a) (c_SrcPort b)
  else str_le (c_SrcDevice a) (c_SrcDevice b).

(** *** The whole function *)

Definition emitted (groups : gmap EdgeKey group) : list (EdgeKey * Edge) :=
  omap (λ '(k, g), pair k <$> emit k g) (range_map 0 groups).

Definition Reconcile (edges : list Edge) : list Edge * list Conflict :=
  match edges with
  | [] => ([], [])
  | _ =>
      let groups := reconcile_groups edges in
      let pairs := emitted groups in
      let result := sort_by edge_le pairs.*2 in
      let resultByNormKey := list_to_map (reverse pairs) in
      let conflicts :=
        omap (λ '(pk, obs), conflict_of groups resultByNormKey pk obs)
          (range_map 3 (portNeighbours (range_map 1 groups))) in
      (result, sort_by conflict_le conflicts)
  end.

(** ** The groups *)

(** The observations of one link. *)
Definition observations (k : EdgeKey) (edges : list Edge) : list Edge :=
  filter (λ e, keyable e = true ∧ normalizedGroupKey e = k) edges.

(** What a group says of the observations [l] it was built from. *)
Record group_of (l : list Edge) (g : group) : Prop := {
  go_rank : ∀ r, default [] (byRank g !! r) = filter (λ e, PrecedenceRank e = r) l;
  go_dom : ∀ r c, byRank g !! r = Some c → c ≠ [];
  go_min : ∃ e, e ∈ l ∧ PrecedenceRank e = minRank g;
  go_low : ∀ e, e ∈ l → minRank g ≤ PrecedenceRank e;
  go_sides : sides g = list_to_set (SrcDevice <$> l)
}.

Lemma add_to_group_of l g e : group_of l g → group_of (l ++ [e]) (add_to_group e g).
Proof.
  intros [Hr Hd Hm Hl Hs]. split; simpl.
  - intros r. rewrite filter_app, filter_cons, filter_nil.
    destruct (decide (PrecedenceRank e = r)) as [<-|Hne].
    + by rewrite lookup_insert_eq, Hr.
    + by rewrite lookup_insert_ne, Hr, app_nil_r.
  - intros r c. rewrite lookup_insert_Some. intros [[_ <-]|[_ H]]; [|eauto].
    by destruct (default [] _).
  - destruct (PrecedenceRank e <? minRank g) eqn:?.
    + exists e. set_solver.
    + destruct Hm as (e' & He' & <-). exists e'. set_solver.
  - intros e'. rewrite elem_of_app, list_elem_of_singleton.
    destruct (PrecedenceRank e <? minRank g) eqn:?; bprop;
      intros [He'%Hl| ->]; lia.
  - rewrite fmap_app, list_to_set_app_L, Hs. simpl. set_solver.
Qed.

Lemma new_group_of e : group_of [e] (add_to_group e (new_group e)).
Proof.
  split; simpl.
  - intros r. rewrite filter_cons, filter_nil.
    destruct (decide (PrecedenceRank e = r)) as [<-|Hne].
    + by rewrite lookup_insert_eq.
    + by rewrite lookup_insert_ne.
  - intros r c. rewrite lookup_insert_Some. by intros [[_ <-]|[_ H]].
  - exists e. rewrite Z.ltb_irrefl. set_solver.
  - intros e' ->%list_elem_of_singleton. by rewrite Z.ltb_irrefl.
  - set_solver.
Qed.

(** The grouping loop computes, for every key, the group of its observations. *)
Lemma reconcile_groups_spec edges k :
  match reconcile_groups edges !! k with
  | Some g => group_of (observations k edges) g
  | None => observations k edges = []
  end.
Proof.
  unfold reconcile_groups. revert k.
  apply (fold_left_prefix_inv (λ pre gs, ∀ k,
    match gs !! k with
    | Some g => group_of (observations k pre) g
    | None => observations k pre = []
    end)); [done|].
  intros pre e gs IH k. unfold observations in *. rewrite filter_app, filter_cons, filter_nil.
  unfold group_step. destruct (keyable e) eqn:Hk.
  - destruct (decide (normalizedGroupKey e = k)) as [<-|Hne].
    + rewrite decide_True by done. cbv zeta. rewrite lookup_insert_eq.
      specialize (IH (normalizedGroupKey e)).
      destruct (gs !! normalizedGroupKey e) as [g|]; simpl.
      * by apply add_to_group_of.
      * rewrite IH. apply new_group_of.
    + rewrite decide_False by naive_solver. cbv zeta.
      rewrite lookup_insert_ne, app_nil_r by done. apply IH.
  - rewrite decide_False by naive_solver. rewrite app_nil_r. apply IH.
Qed.

Lemma reconcile_groups_Some edges k g :
  reconcile_groups edges !! k = Some g → group_of (observations k edges) g.
Proof. intros H. pose proof (reconcile_groups_spec edges k) as Hs. by rewrite H in Hs. Qed.

Lemma group_of_nonempty l g : group_of l g → l ≠ [].
Proof. intros [_ _ (e & He & _) _ _] ->. by apply not_elem_of_nil in He. Qed.

Lemma elem_of_observations k edges e :
  e ∈ observations k edges ↔ e ∈ edges ∧ keyable e = true ∧ normalizedGroupKey e = k.
Proof. unfold observations. rewrite list_elem_of_filter. naive_solver. Qed.

(** ** The selection loop *)

Definition on_side (k : EdgeKey) (e : Edge) : bool := bool_decide (SrcDevice e = k_SrcDevice k).

(** [a] is at least as good as [b]: the canonical side first, then the
    lexically smaller protocol. *)
Definition pref (k : EdgeKey) (a b : Edge) : bool :=
  if eqb (on_side k a) (on_side k b) then str_le (DiscoveryProto a) (DiscoveryProto b)
  else on_side k a.

Lemma pref_refl k a : pref k a a = true.
Proof. unfold pref. by rewrite eqb_reflx, str_le_refl. Qed.

Lemma pref_trans k a b c : pref k a b = true → pref k b c = true → pref k a c = true.
Proof.
  unfold pref. destruct (on_side k a), (on_side k b), (on_side k c); simpl; try done;
    apply str_le_trans.
Qed.

Lemma choose_step_pref k a b :
  choose_step k a b = if pref k a b then a else b.
Proof.
  unfold choose_step, pref, on_side.
  destruct (bool_decide (SrcDevice b = _)), (bool_decide (SrcDevice a = _)); simpl; try done;
    rewrite str_lt_le; by destruct (str_le _ _).
Qed.

Lemma pref_total k a b : pref k a b = false → pref k b a = true.
Proof.
  unfold pref. destruct (on_side k a), (on_side k b); simpl; try done;
    destruct (str_le_total (DiscoveryProto a) (DiscoveryProto b)); congruence.
Qed.

Lemma fold_choose_spec k l c0 :
  let w := fold_left (choose_step k) l c0 in
  w ∈ c0 :: l ∧ pref k w c0 = true ∧ ∀ c, c ∈ l → pref k w c = true.
Proof.
  simpl. revert c0. induction l as [|c l IH]; intros c0; simpl.
  - split; [set_solver|]. split; [apply pref_refl|set_solver].
  - destruct (IH (choose_step k c0 c)) as (Hin & Hw & Hl).
    rewrite choose_step_pref in *. destruct (pref k c0 c) eqn:Hp.
    + split; [set_solver|]. split; [done|]. intros c' [->|Hc']%elem_of_cons; [|auto].
      by eapply pref_trans.
    + apply pref_total in Hp. split; [set_solver|]. split; [by eapply pref_trans|].
      intros c' [->|Hc']%elem_of_cons; auto.
Qed.

Lemma choose_Some k l w :
  choose k l = Some w → w ∈ l ∧ ∀ c, c ∈ l → pref k w c = true.
Proof.
  destruct l as [|c0 l]; [done|]. cbn [choose]. intros [= <-].
  destruct (fold_choose_spec k (c0 :: l) c0) as (Hin & _ & Hl). split; [set_solver|done].
Qed.

Lemma choose_total k l : l ≠ [] → ∃ w, choose k l = Some w.
Proof. destruct l; [done|]. by eexists. Qed.

(** ** The emitted edge *)

Definition ends (e : Edge) : EdgeKey :=
  mkEdgeKey (SrcDevice e) (SrcPort e) (DstDevice e) (DstPort e).

Lemma keyable_spec e :
  keyable e = true ↔ SrcDevice e ≠ "" ∧ DstDevice e ≠ "" ∧ SrcDevice e ≠ DstDevice e.
Proof.
  unfold keyable. rewrite negb_true_iff, !orb_false_iff, !bool_decide_eq_false. tauto.
Qed.

Lemma keyable_swap e : keyable (swap_endpoints e) = keyable e.
Proof.
  apply eq_true_iff_eq. rewrite !keyable_spec. destruct e; simpl. naive_solver.
Qed.

(** The key of a group is canonical, and the emitted edge has it as its
    endpoints. *)
Lemma group_key_lt e :
  keyable e = true →
  str_lt (k_SrcDevice (normalizedGroupKey e)) (k_DstDevice (normalizedGroupKey e)) = true.
Proof.
  intros (_ & _ & Hne)%keyable_spec.
  by destruct (normalizedGroupKey_cases e Hne) as [[H ->]|[H ->]].
Qed.

Lemma ends_finish b e : keyable e = true → ends (finish (normalizedGroupKey e) b e) = normalizedGroupKey e.
Proof.
  intros (_ & _ & Hne)%keyable_spec. unfold finish, ends.
  destruct (normalizedGroupKey_cases e Hne) as [[H ->]|[H ->]]; simpl.
  - by rewrite bool_decide_eq_false_2 by naive_solver.
  - by rewrite bool_decide_eq_true_2 by naive_solver.
Qed.

Lemma Key_ends e :
  str_lt (SrcDevice e) (DstDevice e) = true → Key e = ends e.
Proof. intros H. unfold Key, canonical, compareEdgeKey, ends; simpl. by rewrite H. Qed.

Lemma Key_finish b e : keyable e = true → Key (finish (normalizedGroupKey e) b e) = normalizedGroupKey e.
Proof.
  intros Hk. pose proof (ends_finish b e Hk) as He. rewrite Key_ends; [done|].
  pose proof (group_key_lt e Hk) as Hlt. by rewrite <-He in Hlt.
Qed.

Lemma finish_fields k b e :
  DiscoveryProto (finish k b e) = DiscoveryProto e ∧
  PrecedenceRank (finish k b e) = PrecedenceRank e ∧
  Confidence (finish k b e) = Confidence e ∧
  Adjacency (finish k b e) = Adjacency e ∧
  LinkKind (finish k b e) = LinkKind e ∧
  Direction (finish k b e) =
    (if b then DirectionBidirectional else DirectionUnidirectional).
Proof. unfold finish. by case_bool_decide. Qed.

(** Every observation of a link was reported by one of its two endpoints. *)
Lemma observation_src k edges e :
  e ∈ observations k edges → SrcDevice e = k_SrcDevice k ∨ SrcDevice e = k_DstDevice k.
Proof.
  intros (_ & Hk & <-)%elem_of_observations. apply keyable_spec in Hk as (_ & _ & Hne).
  destruct (normalizedGroupKey_cases e Hne) as [[_ ->]|[_ ->]]; auto.
Qed.

(** ** The reference definition *)

Definition min_rank (l : list Edge) : Z :=
  match l with
  | [] => 0
  | e :: l' => foldr (λ o m, Z.min (PrecedenceRank o) m) (PrecedenceRank e) l'
  end.

(** Both endpoints reported the link. *)
Definition confirmed (k : EdgeKey) (l : list Edge) : bool :=
  bool_decide (k_SrcDevice k ∈ SrcDevice <$> l) && bool_decide (k_DstDevice k ∈ SrcDevice <$> l).

Definition link (k : EdgeKey) (edges : list Edge) : option Edge :=
  let l := observations k edges in
  finish k (confirmed k l) <$> choose k (filter (λ e, PrecedenceRank e = min_rank l) l).

Definition group_keys (edges : list Edge) : list EdgeKey :=
  dedup_by id (normalizedGroupKey <$> filter (λ e, keyable e = true) edges).

Definition reconcile_ref (edges : list Edge) : list Edge :=
  sort_by edge_le (omap (λ k, link k edges) (group_keys edges)).

Lemma min_rank_spec l :
  l ≠ [] → (∃ e, e ∈ l ∧ PrecedenceRank e = min_rank l) ∧ ∀ e, e ∈ l → min_rank l ≤ PrecedenceRank e.
Proof.
  destruct l as [|e0 l]; [done|]. intros _. cbn [min_rank].
  induction l as [|e l [(w & Hw & Hr) IH]]; simpl.
  - split; [exists e0; set_solver|]. intros e ->%list_elem_of_singleton. done.
  - split.
    + destruct (Z.min_spec (PrecedenceRank e)
        (foldr (λ o m, Z.min (PrecedenceRank o) m) (PrecedenceRank e0) l)) as [[_ ->]|[_ ->]].
      * exists e. set_solver.
      * exists w. split; [set_solver|done].
    + intros e' He'. destruct (decide (e' = e)) as [->|Hne]; [lia|].
      specialize (IH e'). etrans; [apply Z.le_min_r|]. apply IH. set_solver.
Qed.

Lemma group_min_rank l g : group_of l g → minRank g = min_rank l.
Proof.
  intros Hg. destruct (min_rank_spec l (group_of_nonempty l g Hg)) as [(w & Hw & Hwr) Hlow].
  destruct Hg as [_ _ (e & He & Her) Hl _].
  specialize (Hlow e He). specialize (Hl w Hw). lia.
Qed.

Lemma group_confirmed k edges g :
  group_of (observations k edges) g →
  (2 <=? size (sides g))%nat = confirmed k (observations k edges).
Proof.
  intros Hg. set (l := observations k edges) in *.
  assert (sides g ⊆ {[k_SrcDevice k; k_DstDevice k]}) as Hsub.
  { rewrite (go_sides _ _ Hg). intros d. rewrite elem_of_list_to_set, list_elem_of_fmap.
    intros (e & -> & He). apply observation_src in He. set_solver. }
  assert (k_SrcDevice k ≠ k_DstDevice k) as Hne.
  { destruct (go_min _ _ Hg) as (e & He & _). apply elem_of_observations in He as (_ & Hk & <-).
    apply str_lt_neq, group_key_lt, Hk. }
  assert (confirmed k l = bool_decide ({[k_SrcDevice k; k_DstDevice k]} ⊆ sides g)) as ->.
  { unfold confirmed. rewrite (go_sides _ _ Hg). apply eq_bool_prop_intro.
    rewrite Is_true_true, andb_true_iff, !bool_decide_eq_true, bool_decide_spec.
    rewrite union_subseteq, !singleton_subseteq_l, !elem_of_list_to_set. done. }
  assert (size ({[k_SrcDevice k; k_DstDevice k]} : gset string) = 2%nat) as Hsz.
  { rewrite size_union by set_solver. by rewrite !size_singleton. }
  case_bool_decide as Hin.
  - apply Nat.leb_le. rewrite <-Hsz. by apply subseteq_size.
  - apply Nat.leb_gt. rewrite <-Hsz. apply subset_size. split; done.
Qed.

Lemma emit_link edges k g : reconcile_groups edges !! k = Some g → emit k g = link k edges.
Proof.
  intros Hg%reconcile_groups_Some. unfold emit, link.
  rewrite (group_confirmed k edges g Hg), (go_rank _ _ Hg), (group_min_rank _ _ Hg). done.
Qed.

Lemma elem_of_group_keys edges k : k ∈ group_keys edges ↔ observations k edges ≠ [].
Proof.
  unfold group_keys. rewrite <-(list_fmap_id (dedup_by _ _)), dedup_by_keys, list_fmap_id.
  rewrite list_elem_of_fmap. split.
  - intros (e & -> & [Hk He]%list_elem_of_filter) Hnil.
    assert (e ∈ observations (normalizedGroupKey e) edges) as Hin by by apply elem_of_observations.
    rewrite Hnil in Hin. by apply not_elem_of_nil in Hin.
  - intros Hne. destruct (observations k edges) as [|e l] eqn:Ho; [done|].
    assert (e ∈ observations k edges) as (He & Hk & Hkey)%elem_of_observations
      by (rewrite Ho; set_solver).
    exists e. split; [done|]. by apply list_elem_of_filter.
Qed.

Lemma NoDup_group_keys edges : NoDup (group_keys edges).
Proof. unfold group_keys. rewrite <-list_fmap_id. apply dedup_by_NoDup. Qed.

Lemma group_keys_domain edges : (map_to_list (reconcile_groups edges)).*1 ≡ₚ group_keys edges.
Proof.
  apply NoDup_Permutation; [apply NoDup_fst_map_to_list|apply NoDup_group_keys|].
  intros k. rewrite elem_of_group_keys.
  pose proof (reconcile_groups_spec edges k) as Hs.
  rewrite list_elem_of_fmap. split.
  - intros ([k' g] & -> & Hg%elem_of_map_to_list). simpl in *. rewrite Hg in Hs.
    by eapply group_of_nonempty.
  - intros Hne. destruct (reconcile_groups edges !! k) as [g|] eqn:Hg; [|done].
    exists (k, g). split; [done|]. by apply elem_of_map_to_list.
Qed.

Lemma link_total k edges : observations k edges ≠ [] → ∃ e, link k edges = Some e.
Proof.
  intros Hne. unfold link. destruct (min_rank_spec _ Hne) as [(e & He & Hr) _].
  destruct (choose_total k
    (filter (λ e, PrecedenceRank e = min_rank (observations k edges)) (observations k edges)))
    as [w ->]; [|by eexists].
  intros Hnil. assert (e ∈ ([] : list Edge)) as Hin; [|by apply not_elem_of_nil in Hin].
  rewrite <-Hnil. by apply list_elem_of_filter.
Qed.

(** The winner of a link: an observation of it with the lowest rank, preferred
    among those of that rank. *)
Lemma link_Some k edges e :
  link k edges = Some e →
  ∃ w, w ∈ observations k edges ∧
    (∀ o, o ∈ observations k edges → PrecedenceRank w ≤ PrecedenceRank o) ∧
    (∀ o, o ∈ observations k edges → PrecedenceRank o = PrecedenceRank w → pref k w o = true) ∧
    e = finish k (confirmed k (observations k edges)) w.
Proof.
  unfold link. intros (w & Hw & ->)%fmap_Some.
  apply choose_Some in Hw as [Hw Hp]. apply list_elem_of_filter in Hw as [Hr Hw].
  assert (observations k edges ≠ []) as Hne.
  { intros Hnil. rewrite Hnil in Hw. by apply not_elem_of_nil in Hw. }
  destruct (min_rank_spec _ Hne) as [_ Hlow].
  exists w. split; [done|]. split; [by intros o Ho; rewrite Hr; auto|]. split; [|done].
  intros o Ho Hro. apply Hp. apply list_elem_of_filter. split; [congruence|done].
Qed.

Lemma link_Key k edges e : link k edges = Some e → Key e = k ∧ ends e = k.
Proof.
  intros (w & Hw & _ & _ & ->)%link_Some. apply elem_of_observations in Hw as (_ & Hk & <-).
  split; [by apply Key_finish|by apply ends_finish].
Qed.

Lemma omap_fst_link {B} (f : EdgeKey → option B) (L : list (EdgeKey * group)) :
  omap (λ '(k, _), f k) L = omap f L.*1.
Proof. induction L as [|[k g] L IH]; csimpl; [done|]. destruct (f k); by rewrite IH. Qed.

Lemma omap_ext_elem {A B} (f g : A → option B) (L : list A) :
  (∀ x, x ∈ L → f x = g x) → omap f L = omap g L.
Proof.
  induction L as [|x L IH]; intros H; csimpl; [done|].
  rewrite (H x) by set_solver. rewrite IH by set_solver. done.
Qed.

Lemma emitted_pairs edges :
  emitted (reconcile_groups edges) ≡ₚ omap (λ k, pair k <$> link k edges) (group_keys edges).
Proof.
  unfold emitted. rewrite range_map_perm, <-group_keys_domain, <-omap_fst_link.
  erewrite omap_ext_elem; [reflexivity|]. intros [k g] Hg%elem_of_map_to_list.
  by rewrite (emit_link edges).
Qed.

Lemma emitted_edges edges :
  (emitted (reconcile_groups edges)).*2 ≡ₚ omap (λ k, link k edges) (group_keys edges).
Proof.
  rewrite emitted_pairs.
  induction (group_keys edges) as [|k l IH]; csimpl; [done|].
  destruct (link k edges); csimpl; by rewrite <-?IH.
Qed.

(** The edge order is antisymmetric on the links of a graph. *)
Lemma link_unique edges x y :
  x ∈ omap (λ k, link k edges) (group_keys edges) →
  y ∈ omap (λ k, link k edges) (group_keys edges) → Key x = Key y → x = y.
Proof.
  rewrite !list_elem_of_omap. intros (k1 & _ & H1) (k2 & _ & H2) He.
  destruct (link_Key _ _ _ H1) as [<- _]. destruct (link_Key _ _ _ H2) as [<- _].
  rewrite He in H1. congruence.
Qed.

Lemma edge_le_trans a b c : edge_le a b = true → edge_le b c = true → edge_le a c = true.
Proof. apply key_le_trans. Qed.

Lemma edge_le_total a b : edge_le a b = true ∨ edge_le b a = true.
Proof. apply key_le_total. Qed.

(** The whole result, whatever the order of the map iterations. *)
Lemma Reconcile_edges edges : (Reconcile edges).1 = reconcile_ref edges.
Proof.
  destruct edges as [|e0 edges]; [done|]. set (es := e0 :: edges). cbv [Reconcile]. cbn [fst].
  unfold reconcile_ref. apply sort_by_unique.
  - apply edge_le_trans.
  - apply edge_le_total.
  - apply emitted_edges.
  - intros x y. rewrite emitted_edges. intros Hx Hy Hxy Hyx.
    eapply link_unique; eauto. by apply key_le_antisym.
Qed.

Lemma elem_of_Reconcile edges e :
  e ∈ (Reconcile edges).1 ↔ link (Key e) edges = Some e.
Proof.
  rewrite Reconcile_edges. unfold reconcile_ref. rewrite elem_of_sort_by, list_elem_of_omap.
  split.
  - intros (k & _ & Hl). by destruct (link_Key _ _ _ Hl) as [-> _].
  - intros Hl. exists (Key e). split; [|done]. apply elem_of_group_keys.
    apply link_Some in Hl as (w & Hw & _) . intros Hnil. rewrite Hnil in Hw.
    by apply not_elem_of_nil in Hw.
Qed.

Lemma Reconcile_keys edges k :
  k ∈ Key <$> (Reconcile edges).1 ↔ observations k edges ≠ [].
Proof.
  rewrite list_elem_of_fmap. split.
  - intros (e & -> & He%elem_of_Reconcile). apply link_Some in He as (w & Hw & _).
    intros Hnil. rewrite Hnil in Hw. by apply not_elem_of_nil in Hw.
  - intros (e & He)%link_total. destruct (link_Key _ _ _ He) as [Hk _].
    exists e. split; [done|]. apply elem_of_Reconcile. by rewrite Hk.
Qed.

Lemma Reconcile_NoDup edges : NoDup (Key <$> (Reconcile edges).1).
Proof.
  rewrite Reconcile_edges. unfold reconcile_ref. rewrite sort_by_Permutation.
  assert (∀ l, NoDup l → NoDup (Key <$> omap (λ k, link k edges) l)) as H;
    [|apply H, NoDup_group_keys].
  induction 1 as [|k l Hk Hl IH]; csimpl; [constructor|].
  destruct (link k edges) as [e|] eqn:He; [|done]. csimpl. apply NoDup_cons. split; [|done].
  intros (e' & Heq & (k' & Hk' & He')%list_elem_of_omap)%list_elem_of_fmap.
  apply link_Key in He as [He _]. apply link_Key in He' as [He' _]. congruence.
Qed.

Lemma Reconcile_sorted edges : StronglySorted (Rle edge_le) (Reconcile edges).1.
Proof.
  rewrite Reconcile_edges. apply sort_by_StronglySorted;
    [apply edge_le_trans|apply edge_le_total].
Qed.

(** ** Conflicts *)

Definition port_of (e : Edge) : string * string :=
  (SrcDevice e, NormalizePortName (SrcPort e)).

Definition obs_of (k : EdgeKey) (e : Edge) : portObservation :=
  mkPortObservation k (DstDevice e) (SrcPort e).

Lemma elem_of_observe k cs m pk o :
  o ∈ default [] (fold_left (observe k) cs m !! pk) ↔
  o ∈ default [] (m !! pk) ∨ ∃ e, e ∈ cs ∧ port_of e = pk ∧ o = obs_of k e.
Proof.
  revert m. induction cs as [|c cs IH]; intros m; simpl; [set_solver|].
  rewrite IH. unfold observe at 1. fold (port_of c) (obs_of k c).
  destruct (decide (port_of c = pk)) as [Heq|Hne].
  - rewrite Heq, lookup_insert_eq. simpl. rewrite elem_of_app, list_elem_of_singleton.
    setoid_rewrite elem_of_cons. clear IH. split; intros; destruct_ex; first [done | eauto 12].
  - rewrite lookup_insert_ne by done. setoid_rewrite elem_of_cons. clear IH. split; intros; destruct_ex; first [done | eauto 12].
Qed.

Lemma elem_of_observe_ranks k (rs : list (Z * list Edge)) m pk o :
  o ∈ default [] (fold_left (λ m '(_, cs), fold_left (observe k) cs m) rs m !! pk) ↔
  o ∈ default [] (m !! pk) ∨
    ∃ r cs e, (r, cs) ∈ rs ∧ e ∈ cs ∧ port_of e = pk ∧ o = obs_of k e.
Proof.
  revert m. induction rs as [|[r cs] rs IH]; intros m; simpl; [set_solver|].
  rewrite IH, elem_of_observe. setoid_rewrite elem_of_cons. clear IH. split; intros; destruct_ex; first [done | eauto 12].
Qed.

Lemma elem_of_portNeighbours gs pk o :
  o ∈ default [] (portNeighbours gs !! pk) ↔
    ∃ k g r cs e, (k, g) ∈ gs ∧ byRank g !! r = Some cs ∧ e ∈ cs ∧ port_of e = pk ∧ o = obs_of k e.
Proof.
  unfold portNeighbours.
  transitivity (o ∈ default [] ((∅ : gmap (string * string) (list portObservation)) !! pk) ∨
    ∃ k g r cs e, (k, g) ∈ gs ∧ byRank g !! r = Some cs ∧ e ∈ cs ∧ port_of e = pk ∧ o = obs_of k e);
    [|rewrite lookup_empty; set_solver].
  generalize (∅ : gmap (string * string) (list portObservation)) as m.
  induction gs as [|[k g] gs IH]; intros m; simpl; [set_solver|].
  rewrite IH, elem_of_observe_ranks. setoid_rewrite elem_of_range.
  setoid_rewrite elem_of_cons. clear IH. split; intros; destruct_ex; first [done | eauto 12].
Qed.

(** The observations of a port are those of the keyable edges it reports. *)
Lemma portNeighbours_spec edges pk o :
  o ∈ default [] (portNeighbours (range_map 1 (reconcile_groups edges)) !! pk) ↔
  ∃ e, e ∈ edges ∧ keyable e = true ∧ port_of e = pk ∧ o = obs_of (normalizedGroupKey e) e.
Proof.
  rewrite elem_of_portNeighbours. setoid_rewrite elem_of_range. split.
  - intros (k & g & r & cs & e & Hg%reconcile_groups_Some & Hr & He & Hp & ->).
    pose proof (go_rank _ _ Hg r) as Hrk. rewrite Hr in Hrk. simpl in Hrk. subst cs.
    apply list_elem_of_filter in He as [_ (He & Hk & <-)%elem_of_observations].
    by exists e.
  - intros (e & He & Hk & Hp & ->).
    assert (e ∈ observations (normalizedGroupKey e) edges) as Ho by by apply elem_of_observations.
    pose proof (reconcile_groups_spec edges (normalizedGroupKey e)) as Hs.
    destruct (reconcile_groups edges !! normalizedGroupKey e) as [g|] eqn:Hg.
    + pose proof (go_rank _ _ Hs (PrecedenceRank e)) as Hrk.
      assert (e ∈ default [] (byRank g !! PrecedenceRank e)) as Hin.
      { rewrite Hrk. by apply list_elem_of_filter. }
      destruct (byRank g !! PrecedenceRank e) as [cs|] eqn:Hcs; [|set_solver].
      naive_solver.
    + rewrite Hs in Ho. set_solver.
Qed.

Lemma allSame_false obs :
  allSame obs = false ↔ ∃ o1 o2, o1 ∈ obs ∧ o2 ∈ obs ∧ po_dstDevice o1 ≠ po_dstDevice o2.
Proof.
  destruct obs as [|o rest]; simpl; [set_solver|].
  rewrite <-not_true_iff_false, forallb_elem. split.
  - intros Hn. destruct (decide (Forall (λ o', po_dstDevice o' = po_dstDevice o) rest)) as [Hf|Hf].
    + destruct Hn. intros x Hx. apply bool_decide_eq_true. rewrite Forall_forall in Hf. auto.
    + apply not_Forall_Exists in Hf; [|intros ?; apply _].
      apply Exists_exists in Hf as (o' & Ho' & Hd). exists o, o'. set_solver.
  - intros (o1 & o2 & H1 & H2 & Hd) Hall.
    assert (∀ o', o' ∈ o :: rest → po_dstDevice o' = po_dstDevice o) as Hs.
    { intros o' [->|Ho']%elem_of_cons; [done|]. by apply Hall, bool_decide_eq_true in Ho'. }
    rewrite (Hs o1), (Hs o2) in Hd; done.
Qed.

Lemma allSame_short obs : (length obs < 2)%nat → allSame obs = true.
Proof. destruct obs as [|o [|]]; simpl; [done|done|lia]. Qed.

Lemma conflict_of_Some gs rs pk obs c :
  conflict_of gs rs pk obs = Some c →
  allSame obs = false ∧ c_SrcDevice c = pk.1 ∧ (∃ o, o ∈ obs ∧ po_rawSrcPort o = c_SrcPort c).
Proof.
  unfold conflict_of. destruct (_ || _) eqn:Hb; [done|]. apply orb_false_iff in Hb as [_ Hs].
  destruct (sort_by raw_le obs) as [|o l] eqn:Ho; [done|]. intros [= <-]. simpl.
  split; [done|]. split; [done|]. exists o. split; [|done].
  rewrite <-(elem_of_sort_by raw_le), Ho. set_solver.
Qed.

Lemma conflict_of_total gs rs pk obs :
  allSame obs = false → ∃ c, conflict_of gs rs pk obs = Some c.
Proof.
  intros Hs. unfold conflict_of. rewrite Hs.
  destruct (length obs <? 2)%nat eqn:Hl.
  { apply Nat.ltb_lt in Hl. rewrite allSame_short in Hs; done. }
  simpl. destruct (sort_by raw_le obs) as [|o l] eqn:Ho; [|by eexists].
  pose proof (length_sort_by raw_le obs) as Hlen. rewrite Ho in Hlen.
  apply Nat.ltb_ge in Hl. simpl in Hlen. lia.
Qed.

Lemma Reconcile_conflict_list edges :
  edges ≠ [] →
  (Reconcile edges).2 =
    sort_by conflict_le
      (omap (λ '(pk, obs),
         conflict_of (reconcile_groups edges)
           (list_to_map (reverse (emitted (reconcile_groups edges)))) pk obs)
         (range_map 3 (portNeighbours (range_map 1 (reconcile_groups edges))))).
Proof. by destruct edges. Qed.

(** A conflict is recorded for a port exactly when two of the observations the
    port reported name different neighbours. *)
Lemma Reconcile_conflicts edges d p :
  (∃ c, c ∈ (Reconcile edges).2 ∧ c_SrcDevice c = d ∧ NormalizePortName (c_SrcPort c) = p) ↔
  (∃ e1 e2, e1 ∈ edges ∧ e2 ∈ edges ∧ keyable e1 = true ∧ keyable e2 = true ∧
     port_of e1 = (d, p) ∧ port_of e2 = (d, p) ∧ DstDevice e1 ≠ DstDevice e2).
Proof.
  destruct (decide (edges = [])) as [->|Hne0]; [set_solver|].
  rewrite Reconcile_conflict_list by done. clear Hne0. rename edges into es.
  setoid_rewrite elem_of_sort_by. setoid_rewrite list_elem_of_omap. split.
  - intros (c & ([pk obs] & Hobs%elem_of_range & Hc) & <- & <-).
    apply conflict_of_Some in Hc as (Hs & Hd & (o & Ho & Hraw)).
    assert (∀ o', o' ∈ obs → ∃ e, e ∈ es ∧ keyable e = true ∧ port_of e = pk ∧
      o' = obs_of (normalizedGroupKey e) e) as Hall.
    { intros o' Ho'. apply portNeighbours_spec. by rewrite Hobs. }
    assert (pk = (c_SrcDevice c, NormalizePortName (c_SrcPort c))) as Hpk.
    { destruct (Hall o Ho) as (e & _ & _ & <- & ->). simpl in Hraw, Hd.
      unfold port_of. by rewrite Hd, <-Hraw. }
    apply allSame_false in Hs as (o1 & o2 & H1 & H2 & Hne).
    destruct (Hall o1 H1) as (e1 & He1 & Hk1 & Hp1 & ->).
    destruct (Hall o2 H2) as (e2 & He2 & Hk2 & Hp2 & ->).
    exists e1, e2. rewrite <-Hpk. done.
  - intros (e1 & e2 & He1 & He2 & Hk1 & Hk2 & Hp1 & Hp2 & Hne).
    set (pn := portNeighbours (range_map 1 (reconcile_groups es))).
    assert (obs_of (normalizedGroupKey e1) e1 ∈ default [] (pn !! (d, p))) as Ho1
      by (apply portNeighbours_spec; eauto).
    assert (obs_of (normalizedGroupKey e2) e2 ∈ default [] (pn !! (d, p))) as Ho2
      by (apply portNeighbours_spec; eauto).
    destruct (pn !! (d, p)) as [obs|] eqn:Hobs; [|set_solver]. simpl in Ho1, Ho2.
    assert (allSame obs = false) as Hs by (apply allSame_false; eauto 10).
    set (rs := list_to_map _).
    destruct (conflict_of_total (reconcile_groups es) rs (d, p) obs Hs) as [c Hc].
    pose proof (conflict_of_Some _ _ _ _ _ Hc) as (_ & Hd & (o & Ho & Hraw)).
    exists c. split.
    { exists ((d, p), obs). split; [|done]. by apply elem_of_range. }
    split; [done|].
    assert (o ∈ default [] (pn !! (d, p))) as Ho' by by rewrite Hobs.
    apply portNeighbours_spec in Ho' as (e & _ & _ & Hp & ->). simpl in Hraw. rewrite <-Hraw.
    unfold port_of in Hp. by injection Hp.
Qed.

(** ** Input order *)

Lemma observations_perm k l1 l2 : l1 ≡ₚ l2 → observations k l1 ≡ₚ observations k l2.
Proof. intros Hp. unfold observations. by rewrite Hp. Qed.

(** What of an edge does not depend on the order of the observations. *)
Definition summary (e : Edge) : EdgeKey * string * Z * string :=
  (Key e, DiscoveryProto e, PrecedenceRank e, Direction e).

Lemma link_perm k l1 l2 e1 e2 :
  l1 ≡ₚ l2 → link k l1 = Some e1 → link k l2 = Some e2 → summary e1 = summary e2.
Proof.
  intros Hp H1 H2. unfold summary.
  destruct (link_Key _ _ _ H1) as [-> _]. destruct (link_Key _ _ _ H2) as [-> _].
  apply link_Some in H1 as (w1 & Hw1 & Hr1 & Hp1 & ->).
  apply link_Some in H2 as (w2 & Hw2 & Hr2 & Hp2 & ->).
  pose proof (observations_perm k l1 l2 Hp) as Ho.
  assert (confirmed k (observations k l1) = confirmed k (observations k l2)) as ->.
  { unfold confirmed. f_equal; apply bool_decide_ext; by rewrite Ho. }
  set (b := confirmed k (observations k l2)).
  destruct (finish_fields k b w1) as (-> & -> & _ & _ & _ & ->).
  destruct (finish_fields k b w2) as (-> & -> & _ & _ & _ & ->).
  assert (w2 ∈ observations k l1) as Hw2' by by rewrite Ho.
  assert (w1 ∈ observations k l2) as Hw1' by by rewrite <-Ho.
  assert (PrecedenceRank w1 = PrecedenceRank w2) as Hr.
  { specialize (Hr1 w2 Hw2'). specialize (Hr2 w1 Hw1'). lia. }
  specialize (Hp1 w2 Hw2' (eq_sym Hr)). specialize (Hp2 w1 Hw1' Hr).
  rewrite Hr. do 3 f_equal. revert Hp1 Hp2. unfold pref.
  destruct (on_side k w1), (on_side k w2); simpl; try done; apply str_le_antisym.
Qed.
End Reconcile.

Lemma Reconcile_key_list `{U : Unicode} (MR1 MR2 : MapRange) l1 l2 :
  l1 ≡ₚ l2 →
  Key <$> (Reconcile (MR:=MR1) l1).1 = Key <$> (Reconcile (MR:=MR2) l2).1.
Proof.
  intros Hp. apply (StronglySorted_unique_strong (Rle key_le)).
  - intros x y _ _. apply key_le_antisym.
  - apply (StronglySorted_fmap Key (Rle edge_le) (Rle key_le));
      [done|apply Reconcile_sorted].
  - apply (StronglySorted_fmap Key (Rle edge_le) (Rle key_le));
      [done|apply Reconcile_sorted].
  - apply NoDup_Permutation; [apply Reconcile_NoDup|apply Reconcile_NoDup|].
    intros k. rewrite !Reconcile_keys. pose proof (observations_perm k l1 l2 Hp) as Ho.
    split; intros Hne Hnil; rewrite Hnil in Ho; apply Hne.
    + by apply Permutation_nil_r in Ho.
    + by apply Permutation_nil_l in Ho.
Qed.

(** ** Properties *)

(** C2: Reconcile, with any order of its map iterations, returns exactly the
    reference result: for every group key with at least one usable observation
    the one link built from its observations, sorted by key. *)
Theorem reconcile_refines_reference `{U : Unicode} (MR : MapRange) (edges : list Edge) :
  (Reconcile (MR:=MR) edges).1 = reconcile_ref edges.
Proof. apply Reconcile_edges. Qed.

(** the reconciled set has one edge per link: it is sorted by lifecycle key,
    no key occurs twice, a key occurs exactly when some observation with two
    different non-empty device names has it as its group key, and every edge is
    in canonical endpoint order, so that its endpoints are its own key. *)
Theorem reconcile_one_edge_per_link `{U : Unicode} (MR : MapRange) (edges : list Edge) :
  let res := (Reconcile (MR:=MR) edges).1 in
  StronglySorted (Rle edge_le) res ∧
  NoDup (Key <$> res) ∧
  (∀ k, k ∈ Key <$> res ↔ ∃ o, o ∈ edges ∧ keyable o = true ∧ normalizedGroupKey o = k) ∧
  (∀ e, e ∈ res → ends e = Key e ∧ str_lt (SrcDevice e) (DstDevice e) = true).
Proof.
  simpl. split; [apply Reconcile_sorted|]. split; [apply Reconcile_NoDup|]. split.
  - intros k. rewrite Reconcile_keys. split.
    + intros Hne. destruct (observations k edges) as [|o l] eqn:Ho; [done|].
      exists o. rewrite <-elem_of_observations, Ho. set_solver.
    + intros (o & Ho) Hnil. rewrite <-elem_of_observations, Hnil in Ho. set_solver.
  - intros e He%elem_of_Reconcile. destruct (link_Key _ _ _ He) as [_ Hk]. split; [done|].
    apply link_Some in He as (w & Hw & _). apply elem_of_observations in Hw as (_ & Hkey & Hg).
    pose proof (group_key_lt w Hkey) as Hlt. rewrite Hg, <-Hk in Hlt. done.
Qed.

(** C14: every reconciled edge carries the protocol, rank, confidence, adjacency
    and link kind of one observation of its link; no observation of that link has
    a lower rank; among those of the same rank the canonical side wins and then
    the lexically first protocol; and the edge is bidirectional exactly when both
    endpoints of the link reported it. *)
Theorem reconcile_picks_best_observation `{U : Unicode} (MR : MapRange) (edges : list Edge) (e : Edge) :
  e ∈ (Reconcile (MR:=MR) edges).1 →
  ∃ w, w ∈ observations (Key e) edges ∧
    DiscoveryProto e = DiscoveryProto w ∧ PrecedenceRank e = PrecedenceRank w ∧
    Confidence e = Confidence w ∧ Adjacency e = Adjacency w ∧ LinkKind e = LinkKind w ∧
    (∀ o, o ∈ observations (Key e) edges → PrecedenceRank w ≤ PrecedenceRank o) ∧
    (∀ o, o ∈ observations (Key e) edges → PrecedenceRank o = PrecedenceRank w →
       pref (Key e) w o = true) ∧
    (Direction e = DirectionBidirectional ↔
       ∃ o1 o2, o1 ∈ observations (Key e) edges ∧ o2 ∈ observations (Key e) edges ∧
         SrcDevice o1 = SrcDevice e ∧ SrcDevice o2 = DstDevice e).
Proof.
  intros He%elem_of_Reconcile. destruct (link_Key _ _ _ He) as [_ Hends].
  pose proof He as (w & Hw & Hr & Hp & Hfin)%link_Some. exists w.
  destruct (finish_fields (Key e) (confirmed (Key e) (observations (Key e) edges)) w)
    as (H1 & H2 & H3 & H4 & H5 & H6). rewrite <-Hfin in H1, H2, H3, H4, H5, H6.
  do 8 (split; [done|]).
  assert (SrcDevice e = k_SrcDevice (Key e) ∧ DstDevice e = k_DstDevice (Key e)) as [-> ->]
    by by rewrite <-Hends.
  rewrite H6. unfold confirmed.
  destruct (bool_decide (k_SrcDevice (Key e) ∈ _)) eqn:Ha,
    (bool_decide (k_DstDevice (Key e) ∈ _)) eqn:Hb; simpl; bprop;
    rewrite list_elem_of_fmap in Ha, Hb; split; try done; naive_solver.
Qed.

(** the order in which the discovery modules deliver the observations, and
    the order of the map iterations, do not change which links are reported, nor
    the protocol, rank and direction of each. *)
Theorem reconcile_input_order_irrelevant `{U : Unicode} (MR1 MR2 : MapRange) (l1 l2 : list Edge) :
  l1 ≡ₚ l2 →
  summary <$> (Reconcile (MR:=MR1) l1).1 = summary <$> (Reconcile (MR:=MR2) l2).1.
Proof.
  intros Hp. pose proof (Reconcile_key_list MR1 MR2 l1 l2 Hp) as Hk.
  apply list_eq. intros i.
  assert ((Key <$> (Reconcile (MR:=MR1) l1).1) !! i = (Key <$> (Reconcile (MR:=MR2) l2).1) !! i)
    as Hki by by rewrite Hk.
  clear Hk. rename Hki into Hk. rewrite !list_lookup_fmap in Hk. rewrite !list_lookup_fmap.
  destruct ((Reconcile (MR:=MR1) l1).1 !! i) as [a|] eqn:Ha,
    ((Reconcile (MR:=MR2) l2).1 !! i) as [b|] eqn:Hb; simpl in *; try done.
  injection Hk as Hk. f_equal.
  apply list_elem_of_lookup_2, elem_of_Reconcile in Ha, Hb.
  rewrite <-Hk in Hb. eapply link_perm; eauto.
Qed.

(** a disagreement between sources is never resolved silently: a conflict is
    reported for a port of a device exactly when two usable observations of that
    port, its name taken up to encoding, name different neighbours. *)
Theorem reconcile_reports_disagreements `{U : Unicode} (MR : MapRange) (edges : list Edge) d p :
  (∃ c, c ∈ (Reconcile (MR:=MR) edges).2 ∧ c_SrcDevice c = d ∧
        NormalizePortName (c_SrcPort c) = p) ↔
  (∃ e1 e2, e1 ∈ edges ∧ e2 ∈ edges ∧ keyable e1 = true ∧ keyable e2 = true ∧
     port_of e1 = (d, p) ∧ port_of e2 = (d, p) ∧ DstDevice e1 ≠ DstDevice e2).
Proof. apply Reconcile_conflicts. Qed.


(** ** Witnesses

    Two sources for one link between [core1] and [access1], with two encodings of
    the same port. *)

Definition lldp_edge (sd sp dd dp : string) : Edge :=
  mkEdge sd sp dd dp DiscoveryProtocolLLDP DirectionUnidirectional ConfidenceHigh
    AdjacencyDirect 2 LinkKindEthernet 1 ∅.

Definition cdp_edge (sd sp dd dp : string) : Edge :=
  mkEdge sd sp dd dp DiscoveryProtocolCDP DirectionUnidirectional ConfidenceHigh
    AdjacencyDirect 3 LinkKindEthernet 1 ∅.

Definition sample_edges : list Edge :=
  [lldp_edge "core1" "GigabitEthernet0/1" "access1" "Gi0/24";
   cdp_edge "access1" "gigabitethernet0/24" "core1" "Gi0/1"].

Definition sample_link : Edge :=
  mkEdge "access1" "Gi0/24" "core1" "Gi0/1" DiscoveryProtocolLLDP DirectionBidirectional
    ConfidenceHigh AdjacencyDirect 2 LinkKindEthernet 1 ∅.

Example sample_reconciled :
  Reconcile (U:=unicode_table) (MR:=range_std) sample_edges = ([sample_link], []).
Proof. vm_compute. reflexivity. Qed.

Lemma reconcile_picks_best_observation_witness :
  sample_link ∈ (Reconcile (U:=unicode_table) (MR:=range_std) sample_edges).1 ∧
  ∃ w, w ∈ observations (U:=unicode_table) (Key sample_link) sample_edges ∧
       DiscoveryProto sample_link = DiscoveryProto w.
Proof.
  assert (sample_link ∈ (Reconcile (U:=unicode_table) (MR:=range_std) sample_edges).1) as Hin.
  { apply (list_elem_of_lookup_2 _ 0). vm_compute. reflexivity. }
  split; [exact Hin|].
  destruct (reconcile_picks_best_observation (U:=unicode_table) range_std sample_edges sample_link Hin)
    as (w & Hw & Hp & _).
  exists w. split; [exact Hw|exact Hp].
Defined.

Lemma reconcile_input_order_irrelevant_witness :
  summary <$> (Reconcile (U:=unicode_table) (MR:=range_std) sample_edges).1 =
  summary <$> (Reconcile (U:=unicode_table) (MR:=range_rev) (rev sample_edges)).1.
Proof.
  apply reconcile_input_order_irrelevant. apply Permutation_swap.
Defined.

(** Two observations that tie on rank, side and protocol: the first one in the
    input wins, with its own confidence. *)
Example reconcile_tie_keeps_first :
  let a := set_endpoints (lldp_edge "a" "1" "b" "2") "a" "1" "b" "2" in
  let b := mkEdge "a" "1" "b" "2" DiscoveryProtocolLLDP DirectionUnidirectional ConfidenceLow
             AdjacencyUnknown 2 LinkKindEthernet 1 ∅ in
  Confidence <$> (Reconcile (U:=unicode_table) (MR:=range_std) [a; b]).1 = [ConfidenceHigh] ∧
  Confidence <$> (Reconcile (U:=unicode_table) (MR:=range_std) [b; a]).1 = [ConfidenceLow].
Proof. vm_compute. split; reflexivity. Qed.
