(* ===== verification/GraphDiff.v ===== *)
(** * internal/graph: Diff and AgeUnconfirmed

    The change records between two reconciled cycles, the lifecycle counters of
    the links that are not confirmed from both ends, and the conversion of those
    counters to and from the form the snapshot stores. *)

From Stdlib Require Import ZArith Lia.
From S2P Require Import Prelude GoText Discovery GraphKeys Reconcile.
Open Scope Z_scope.

(** ** Diff *)

Inductive ChangeKind := ChangeAdded | ChangeRemoved | ChangeUpdated.

#[export] Instance ChangeKind_eq_dec : EqDecision ChangeKind.
Proof. solve_decision. Defined.

Record EdgeChange := mkEdgeChange {
  Kind : ChangeKind;
  Before : option Edge;
  After : option Edge
}.

#[export] Instance EdgeChange_eq_dec : EqDecision EdgeChange.
Proof. solve_decision. Defined.

Definition added (a : Edge) : EdgeChange := mkEdgeChange ChangeAdded None (Some a).
Definition updated (b a : Edge) : EdgeChange := mkEdgeChange ChangeUpdated (Some b) (Some a).
Definition removed (b : Edge) : EdgeChange := mkEdgeChange ChangeRemoved (Some b) None.

Definition edgeMateriallyChanged (before after : Edge) : bool :=
  bool_decide (Direction before ≠ Direction after)
  || bool_decide (DiscoveryProto before ≠ DiscoveryProto after)
  || bool_decide (Confidence before ≠ Confidence after)
  || bool_decide (PrecedenceRank before ≠ PrecedenceRank after)
  || bool_decide (LinkKind before ≠ LinkKind after).

Section Diff.
Context `{MR : MapRange}.

Definition index_by_key (l : list Edge) : gmap EdgeKey Edge :=
  fold_left (λ m e, <[Key e := e]> m) l ∅.

(** One iteration of the loop over [after]. *)
Definition diff_step (st : gmap EdgeKey Edge * list EdgeChange) (a : Edge)
  : gmap EdgeKey Edge * list EdgeChange :=
  let '(beforeMap, changes) := st in
  let k := Key a in
  let changes :=
    match beforeMap !! k with
    | None => changes ++ [added a]
    | Some b => if edgeMateriallyChanged b a then changes ++ [updated b a] else changes
    end in
  (delete k beforeMap, changes).

Definition change_before_le (x y : EdgeChange) : bool :=
  match Before x, Before y with
  | Some a, Some b => key_le (Key a) (Key b)
  | _, _ => true
  end.

Definition Diff (before after : list Edge) : list EdgeChange :=
  match before, after with
  | [], [] => []
  | _, _ =>
      let '(beforeMap, changes) := fold_left diff_step after (index_by_key before, []) in
      let removals := (λ '(_, b), removed b) <$> range_map 0 beforeMap in
      changes ++ sort_by change_before_le removals
  end.
End Diff.

(** ** AgeUnconfirmed *)

Section Ages.
Context `{MR : MapRange}.

Record age_state := mkAgeState {
  ages : gmap EdgeKey Z;
  seen : gset EdgeKey;
  expired : list EdgeKey
}.

(** [ages[k]++] on an int, then expiry when the counter reaches [ttl]. *)
Definition bump (ttl : Z) (k : EdgeKey) (n : Z) (st : age_state) : age_state :=
  let n' := wrap64 (n + 1) in
  if ttl <=? n'
  then mkAgeState (delete k (ages st)) (seen st) (expired st ++ [k])
  else mkAgeState (<[k := n']> (ages st)) (seen st) (expired st).

Definition see (k : EdgeKey) (st : age_state) : age_state :=
  mkAgeState (ages st) ({[k]} ∪ seen st) (expired st).

Definition age_present (ttl : Z) (st : age_state) (e : Edge) : age_state :=
  let k := Key e in
  let st := see k st in
  if bool_decide (Direction e = DirectionBidirectional)
  then mkAgeState (delete k (ages st)) (seen st) (expired st)
  else match ages st !! k with
       | None => mkAgeState (<[k := 0]> (ages st)) (seen st) (expired st)
       | Some n => bump ttl k n st
       end.

Definition age_absent (ttl : Z) (st : age_state) (k : EdgeKey) : age_state :=
  if bool_decide (k ∈ seen st) then st
  else match ages st !! k with
       | None => st
       | Some n => bump ttl k n st
       end.

(** A nil counter map is returned as it is and nothing expires. *)
Definition AgeUnconfirmed (current : list Edge) (m : option (gmap EdgeKey Z)) (ttl : Z)
  : option (gmap EdgeKey Z) * list EdgeKey :=
  match m with
  | None => (None, [])
  | Some m =>
      let st := fold_left (age_present ttl) current (mkAgeState m ∅ []) in
      let st := fold_left (age_absent ttl) (range_map 0 (ages st)).*1 st in
      (Some (ages st), expired st)
  end.

(** ** The counters in the snapshot *)

Definition AgesToEdgeKeys (m : gmap string Z) : gmap EdgeKey Z :=
  fold_left (λ out '(s, v),
    match EdgeKeyFromString s with
    | None => out
    | Some k => <[k := v]> out
    end) (range_map 0 m) ∅.

Definition EdgeKeysToAges (m : gmap EdgeKey Z) : gmap string Z :=
  fold_left (λ out '(k, v), <[EdgeKeyString k := v]> out) (range_map 0 m) ∅.
End Ages.

(** ** Lemmas on Diff *)

Section DiffFacts.
Context `{MR : MapRange}.

Lemma index_by_key_lookup l k e :
  NoDup (Key <$> l) → index_by_key l !! k = Some e ↔ e ∈ l ∧ Key e = k.
Proof.
  intros Hnd. unfold index_by_key.
  cut (∀ m : gmap EdgeKey Edge, (∀ x, x ∈ l → m !! Key x = None) →
    fold_left (λ m e, <[Key e := e]> m) l m !! k = Some e ↔
    m !! k = Some e ∨ (e ∈ l ∧ Key e = k)).
  { intros Hc. rewrite Hc by (intros; apply lookup_empty). rewrite lookup_empty. naive_solver. }
  induction l as [|x l IH]; intros m Hm; [set_solver|].
  rewrite fmap_cons, NoDup_cons in Hnd. destruct Hnd as [Hx Hnd]. cbn [fold_left].
  rewrite IH.
  - rewrite lookup_insert_Some, elem_of_cons. split.
    + intros [[[<- <-]|[? ?]]|[? ?]]; auto.
    + intros [Hk|[[->|He] <-]]; auto. left. right. split; [|done].
      intros <-. rewrite Hm in Hk by set_solver. done.
  - done.
  - intros y Hy. rewrite lookup_insert_ne; [apply Hm; set_solver|].
    intros Heq. apply Hx. rewrite Heq. apply list_elem_of_fmap. eauto.
Qed.

(** What the loop over [after] has done once it has consumed [pre]. *)
Record diff_inv (bm : gmap EdgeKey Edge) (pre : list Edge)
    (st : gmap EdgeKey Edge * list EdgeChange) : Prop := {
  di_rest : ∀ k e, st.1 !! k = Some e ↔ bm !! k = Some e ∧ k ∉ Key <$> pre;
  di_changes : ∀ c, c ∈ st.2 ↔ ∃ a, a ∈ pre ∧
    ((bm !! Key a = None ∧ c = added a) ∨
     (∃ b, bm !! Key a = Some b ∧ edgeMateriallyChanged b a = true ∧ c = updated b a))
}.

Lemma diff_loop bm after :
  NoDup (Key <$> after) → diff_inv bm after (fold_left diff_step after (bm, [])).
Proof.
  intros Hnd.
  apply (fold_left_prefix_inv (λ pre st, NoDup (Key <$> pre) → diff_inv bm pre st));
    [|clear after Hnd|done].
  { intros _. split; set_solver. }
  intros pre a [rest cs] IH Hnd. rewrite fmap_app, NoDup_app in Hnd.
  destruct Hnd as (Hnd & Hdisj & _). destruct (IH Hnd) as [Hrest Hcs]. simpl in Hrest, Hcs.
  assert (Key a ∉ Key <$> pre) as Ha by (intros Hin; by apply Hdisj in Hin; set_solver).
  assert (rest !! Key a = bm !! Key a) as Hlook.
  { apply option_eq. intros e. rewrite Hrest. naive_solver. }
  unfold diff_step. rewrite Hlook. split; cbn [fst snd].
  - intros k e. rewrite fmap_app, lookup_delete_Some, Hrest, not_elem_of_app.
    simpl. rewrite list_elem_of_singleton. naive_solver.
  - intros c. setoid_rewrite elem_of_app. setoid_rewrite list_elem_of_singleton.
    destruct (bm !! Key a) as [b|] eqn:Hb.
    + destruct (edgeMateriallyChanged b a) eqn:Hm.
      * rewrite elem_of_app, list_elem_of_singleton, Hcs. split.
        -- intros [(x & Hx & H)| ->]; [eauto|]. exists a. split; [auto|]. right. eauto.
        -- intros (x & [Hx| ->] & H); [left; eauto|]. right.
           destruct H as [[H _]|(b' & Hb' & _ & ->)]; congruence.
      * rewrite Hcs. split; [intros (x & Hx & H); eauto|].
        intros (x & [Hx| ->] & H); [eauto|].
        destruct H as [[H _]|(b' & Hb' & Hm' & ->)]; congruence.
    + rewrite elem_of_app, list_elem_of_singleton, Hcs. split.
      * intros [(x & Hx & H)| ->]; [eauto|]. exists a. auto.
      * intros (x & [Hx| ->] & H); [left; eauto|]. right.
        destruct H as [[_ ->]|(b' & Hb' & _)]; congruence.
Qed.

Lemma elem_of_Diff before after c :
  NoDup (Key <$> before) → NoDup (Key <$> after) →
  c ∈ Diff before after ↔
    (∃ a, a ∈ after ∧ Key a ∉ Key <$> before ∧ c = added a) ∨
    (∃ b a, b ∈ before ∧ a ∈ after ∧ Key b = Key a ∧
       edgeMateriallyChanged b a = true ∧ c = updated b a) ∨
    (∃ b, b ∈ before ∧ Key b ∉ Key <$> after ∧ c = removed b).
Proof.
  intros Hb Ha.
  assert (Diff before after =
    let '(bm, cs) := fold_left diff_step after (index_by_key before, []) in
    cs ++ sort_by change_before_le ((λ '(_, b), removed b) <$> range_map 0 bm)) as ->.
  { destruct before, after; try done. cbn [fold_left index_by_key]. simpl.
    assert (range_map 0 (∅ : gmap EdgeKey Edge) = []) as ->; [|done].
    apply Permutation_nil_r. by rewrite range_map_perm, map_to_list_empty. }
  pose proof (diff_loop (index_by_key before) after Ha) as [Hrest Hcs].
  destruct (fold_left diff_step after (index_by_key before, [])) as [bm cs]. simpl in Hrest, Hcs.
  rewrite elem_of_app, elem_of_sort_by, Hcs, list_elem_of_fmap.
  assert (∀ a, index_by_key before !! Key a = None ↔ Key a ∉ Key <$> before) as Hnone.
  { intros a. rewrite eq_None_not_Some, list_elem_of_fmap. split.
    - intros Hn (b & Heq & Hin). apply Hn. exists b. by apply index_by_key_lookup.
    - intros Hn (b & [Hin Heq]%index_by_key_lookup); [|done]. apply Hn. eauto. }
  split.
  - intros [(a & Hin & [[Hn ->]|(b & Hl & Hm & ->)])|([k b] & -> & Hin)].
    + left. exists a. by rewrite <-Hnone.
    + right; left. apply index_by_key_lookup in Hl as [Hbin Hk]; [|done]. by exists b, a.
    + right; right. apply elem_of_range, Hrest in Hin as [Hl Hk].
      apply index_by_key_lookup in Hl as [Hbin <-]; [|done]. by exists b.
  - intros [(a & Hin & Hn & ->)|[(b & a & Hbin & Hin & Hk & Hm & ->)|(b & Hbin & Hn & ->)]].
    + left. exists a. split; [done|]. left. by rewrite Hnone.
    + left. exists a. split; [done|]. right. exists b. split; [|done].
      by apply index_by_key_lookup.
    + right. exists (Key b, b). split; [done|]. apply elem_of_range, Hrest.
      split; [|done]. by apply index_by_key_lookup.
Qed.
End DiffFacts.

(** ** Lemmas on AgeUnconfirmed *)

(** How one cycle saw a link. *)
Inductive sighting := Confirmed | OneSided | Absent.

Definition sighting_of_edge (e : Edge) : sighting :=
  if bool_decide (Direction e = DirectionBidirectional) then Confirmed else OneSided.

Definition sighting_of (current : list Edge) (k : EdgeKey) : sighting :=
  match find_first (λ e, bool_decide (Key e = k)) current with
  | Some e => sighting_of_edge e
  | None => Absent
  end.

(** The promise of the lifecycle: what one cycle does to the counter of one link,
    and whether the link expires. *)
Definition next_age (ttl : Z) (s : sighting) (age : option Z) : option Z * bool :=
  match s, age with
  | Confirmed, _ => (None, false)
  | OneSided, None => (Some 0, false)
  | Absent, None => (None, false)
  | _, Some n => if ttl <=? wrap64 (n + 1) then (None, true) else (Some (wrap64 (n + 1)), false)
  end.

Section AgeFacts.
Context `{MR : MapRange} (ttl : Z).

(** The part of the state that belongs to one link. *)
Definition view (k : EdgeKey) (st : age_state) : option Z * bool * bool :=
  (ages st !! k, bool_decide (k ∈ seen st), bool_decide (k ∈ expired st)).

Lemma view_eq k st st' :
  ages st !! k = ages st' !! k → (k ∈ seen st ↔ k ∈ seen st') →
  (k ∈ expired st ↔ k ∈ expired st') → view k st = view k st'.
Proof. intros Ha Hs He. unfold view. f_equal; [f_equal|]; by try apply bool_decide_ext. Qed.

Lemma bump_other k j n st : j ≠ k → view k (bump ttl j n st) = view k st.
Proof.
  intros Hne. unfold bump. destruct (ttl <=? wrap64 (n + 1)); apply view_eq; simpl;
    rewrite ?lookup_delete_ne, ?lookup_insert_ne by done; set_solver.
Qed.

Lemma age_present_other k st e : Key e ≠ k → view k (age_present ttl st e) = view k st.
Proof.
  intros Hne. trans (view k (see (Key e) st)).
  - unfold age_present. case_bool_decide; [|simpl; destruct (ages st !! Key e)];
      [|by apply bump_other|]; apply view_eq; simpl;
      rewrite ?lookup_delete_ne, ?lookup_insert_ne by done; set_solver.
  - apply view_eq; simpl; set_solver.
Qed.

Lemma age_absent_other k st j : j ≠ k → view k (age_absent ttl st j) = view k st.
Proof.
  intros Hne. unfold age_absent. case_bool_decide; [done|].
  destruct (ages st !! j); [by apply bump_other|done].
Qed.

Lemma fold_other {A} (key : A → EdgeKey) (f : age_state → A → age_state) k l st :
  (∀ st a, key a ≠ k → view k (f st a) = view k st) →
  k ∉ key <$> l → view k (fold_left f l st) = view k st.
Proof.
  intros Hf Hk. apply (fold_left_inv (λ st', view k st' = view k st)); [done|].
  intros st' a Ha IH. rewrite Hf; [done|]. intros <-. apply Hk, list_elem_of_fmap. eauto.
Qed.

(** The view of one link across a loop that visits it once. *)
Lemma fold_once {A} (key : A → EdgeKey) (f : age_state → A → age_state) k l1 a l2 st :
  (∀ st a, key a ≠ k → view k (f st a) = view k st) →
  NoDup (key <$> l1 ++ a :: l2) → key a = k →
  ∃ st', view k st' = view k st ∧ view k (fold_left f (l1 ++ a :: l2) st) = view k (f st' a).
Proof.
  intros Hf Hnd Hk. rewrite fmap_app, NoDup_app, fmap_cons, NoDup_cons in Hnd.
  destruct Hnd as (_ & Hdisj & Hnd & _). exists (fold_left f l1 st). split.
  - apply (fold_other key); [done|]. intros Hin. apply (Hdisj _ Hin). rewrite Hk. set_solver.
  - rewrite fold_left_app. cbn [fold_left]. apply (fold_other key); [done|]. by rewrite <-Hk.
Qed.

Lemma view_inv k st a s x :
  view k st = (a, s, x) → ages st !! k = a ∧ (k ∈ seen st ↔ s = true) ∧ (k ∈ expired st ↔ x = true).
Proof. unfold view. intros [= <- <- <-]. rewrite !bool_decide_eq_true. done. Qed.

Lemma bump_view k n st :
  view k (bump ttl k n st) =
  let '(a, x) := if ttl <=? wrap64 (n + 1) then (None, true) else (Some (wrap64 (n + 1)), false) in
  (a, bool_decide (k ∈ seen st), x || bool_decide (k ∈ expired st)).
Proof.
  unfold bump, view. destruct (ttl <=? wrap64 (n + 1)); simpl.
  - rewrite lookup_delete_eq. do 2 f_equal. apply bool_decide_eq_true. set_solver.
  - by rewrite lookup_insert_eq.
Qed.

Lemma present_loop current m k :
  NoDup (Key <$> current) →
  view k (fold_left (age_present ttl) current (mkAgeState m ∅ [])) =
  match sighting_of current k with
  | Absent => (m !! k, false, false)
  | s => let '(a, x) := next_age ttl s (m !! k) in (a, true, x)
  end.
Proof.
  intros Hnd. unfold sighting_of.
  destruct (find_first _ current) as [e|] eqn:Hf.
  - apply find_first_Some in Hf as (l1 & l2 & -> & Hk & _). bprop.
    destruct (fold_once Key (age_present ttl) k l1 e l2 (mkAgeState m ∅ []))
      as (st' & Hv & ->); [apply age_present_other|done|done|].
    unfold view at 2 in Hv. simpl in Hv.
    apply view_inv in Hv as (Ha & Hs & Hx).
    assert (k ∉ expired st') by (rewrite Hx; done).
    unfold age_present, sighting_of_edge. cbv zeta. rewrite Hk.
    assert (bool_decide (k ∈ seen (see k st')) = true) as Hsee
      by (apply bool_decide_eq_true; simpl; set_solver).
    assert (bool_decide (k ∈ expired (see k st')) = false) as Hexp
      by by apply bool_decide_eq_false.
    assert (ages (see k st') !! k = m !! k) as Hsa by exact Ha.
    destruct (bool_decide (Direction e = DirectionBidirectional)); [|rewrite Hsa].
    + unfold view. cbn [ages seen expired]. by rewrite lookup_delete_eq, Hsee, Hexp.
    + destruct (m !! k) as [n|]; cbn [next_age].
      * rewrite bump_view, Hsee, Hexp. by destruct (ttl <=? wrap64 (n + 1)).
      * unfold view. cbn [ages seen expired]. by rewrite lookup_insert_eq, Hsee, Hexp.
  - apply find_first_None in Hf. rewrite (fold_other Key).
    + unfold view. simpl. repeat f_equal.
    + apply age_present_other.
    + intros (e & -> & He)%list_elem_of_fmap. rewrite Forall_forall in Hf.
      specialize (Hf e He). by bprop.
Qed.

(** One cycle, link by link. *)
Lemma AgeUnconfirmed_pointwise current m k :
  NoDup (Key <$> current) →
  ∃ m' ex, AgeUnconfirmed current (Some m) ttl = (Some m', ex) ∧
    (m' !! k, bool_decide (k ∈ ex)) = next_age ttl (sighting_of current k) (m !! k).
Proof.
  intros Hnd. unfold AgeUnconfirmed. cbv zeta.
  set (st := fold_left (age_present ttl) current (mkAgeState m ∅ [])).
  set (ks := (range_map 0 (ages st)).*1).
  eexists _, _. split; [reflexivity|].
  assert (view k st = _) as Hv by apply present_loop, Hnd.
  assert (∀ a s x, view k (fold_left (age_absent ttl) ks st) = (a, s, x) →
    (ages (fold_left (age_absent ttl) ks st) !! k,
     bool_decide (k ∈ expired (fold_left (age_absent ttl) ks st))) = (a, x)) as Hproj
    by (unfold view; naive_solver).
  destruct (decide (k ∈ ks)) as [Hin|Hout].
  - assert (NoDup (id <$> ks)) as Hks by (rewrite list_fmap_id; apply range_NoDup).
    apply list_elem_of_split in Hin as (l1 & l2 & Heq).
    rewrite Heq in Hks. rewrite Heq in Hproj. rewrite Heq.
    destruct (fold_once id (age_absent ttl) k l1 k l2 st)
      as (st' & Hv' & Hfin); [apply age_absent_other|done|done|].
    rewrite Hfin in Hproj. rewrite Hv in Hv'. clear Hv Hfin Heq Hks.
    unfold age_absent in Hproj.
    destruct (sighting_of current k).
    + eapply Hproj. rewrite bool_decide_eq_true_2; [exact Hv'|].
      apply view_inv in Hv' as (_ & -> & _). done.
    + rewrite (surjective_pairing (next_age _ _ _)) in Hv'.
      rewrite (surjective_pairing (next_age _ _ _)). eapply Hproj.
      rewrite bool_decide_eq_true_2; [exact Hv'|].
      apply view_inv in Hv' as (_ & -> & _). done.
    + pose proof (view_inv _ _ _ _ _ Hv') as (Ha & Hs & Hx).
      rewrite bool_decide_eq_false_2 in Hproj by (rewrite Hs; done).
      rewrite Ha in Hproj. destruct (m !! k) as [n|]; simpl.
      * rewrite bump_view, (bool_decide_eq_false_2 (k ∈ expired st')) in Hproj
          by (rewrite Hx; done).
        destruct (ttl <=? wrap64 (n + 1)); by eapply Hproj.
      * eapply Hproj. exact Hv'.
  - assert (ages st !! k = None) as Hnone.
    { apply eq_None_not_Some. intros [v Hl]. apply Hout.
      apply list_elem_of_fmap. exists (k, v). split; [done|]. by apply elem_of_range. }
    assert (view k (fold_left (age_absent ttl) ks st) = view k st) as Hst.
    { apply (fold_other id); [apply age_absent_other|]. by rewrite list_fmap_id. }
    rewrite Hst, Hv in Hproj. apply (f_equal (λ v, v.1.1)) in Hv. simpl in Hv.
    rewrite Hnone in Hv.
    destruct (sighting_of current k).
    + by eapply Hproj.
    + rewrite (surjective_pairing (next_age _ _ _)) in Hproj |- *. by eapply Hproj.
    + destruct (m !! k); [by simpl in Hv|]. by eapply Hproj.
Qed.
End AgeFacts.

(** ** Applying the changes *)

Definition change_key (c : EdgeChange) : option EdgeKey :=
  match After c, Before c with
  | Some a, _ => Some (Key a)
  | None, Some b => Some (Key b)
  | None, None => None
  end.

(** A consumer of the change records, which keeps its own copy of the edges. *)
Definition apply_change (m : gmap EdgeKey Edge) (c : EdgeChange) : gmap EdgeKey Edge :=
  match change_key c with
  | Some k => partial_alter (λ _, After c) k m
  | None => m
  end.

(** Two views of one link that [edgeMateriallyChanged] does not tell apart. *)
Inductive same_link : option Edge → option Edge → Prop :=
| same_link_none : same_link None None
| same_link_some a b : edgeMateriallyChanged a b = false → same_link (Some a) (Some b).

Lemma edgeMateriallyChanged_refl e : edgeMateriallyChanged e e = false.
Proof. unfold edgeMateriallyChanged. by rewrite !bool_decide_eq_false_2 by naive_solver. Qed.

Lemma apply_changes_at (cs : list EdgeChange) m k :
  (∀ c c', c ∈ cs → c' ∈ cs → change_key c = Some k → change_key c' = Some k → c = c') →
  (∀ c, c ∈ cs → change_key c = Some k → fold_left apply_change cs m !! k = After c) ∧
  ((∀ c, c ∈ cs → change_key c ≠ Some k) → fold_left apply_change cs m !! k = m !! k).
Proof.
  induction cs as [|c0 cs IH] using rev_ind; intros Hu; [split; [set_solver|done]|].
  destruct IH as [IH1 IH2]; [set_solver|]. rewrite fold_left_app. cbn [fold_left].
  assert (∀ m', change_key c0 ≠ Some k → apply_change m' c0 !! k = m' !! k) as Hne.
  { intros m' Hk. unfold apply_change. destruct (change_key c0) as [j|]; [|done].
    apply lookup_partial_alter_ne. congruence. }
  split.
  - intros c Hc Hk. destruct (decide (change_key c0 = Some k)) as [Hk0|Hk0].
    + assert (c = c0) as -> by (apply Hu; set_solver).
      unfold apply_change. rewrite Hk0. apply lookup_partial_alter_eq.
    + rewrite Hne by done. apply IH1; [|done].
      apply elem_of_app in Hc as [Hc|Hc%list_elem_of_singleton]; [done|]. by subst.
  - intros Hn. rewrite Hne by set_solver. apply IH2. set_solver.
Qed.

(** ** Maps rebuilt entry by entry *)

Lemma fold_rekey_lookup {K J V} `{Countable J} (f : K → option J) (l : list (K * V)) j v :
  NoDup l.*1 →
  (∀ k1 k2, k1 ∈ l.*1 → k2 ∈ l.*1 → f k1 = f k2 → is_Some (f k1) → k1 = k2) →
  fold_left (λ (out : gmap J V) '(k, w), match f k with None => out | Some i => <[i := w]> out end)
    l ∅ !! j = Some v ↔ ∃ k, (k, v) ∈ l ∧ f k = Some j.
Proof.
  induction l as [|[k w] l IH] using rev_ind; intros Hnd Hinj; [cbn; set_solver|].
  rewrite fold_left_app. cbn [fold_left].
  rewrite fmap_app, NoDup_app in Hnd. destruct Hnd as (Hnd & Hdisj & _).
  specialize (IH Hnd). rewrite fmap_app in Hinj.
  ospecialize (IH _); [intros k1 k2 H1 H2; apply Hinj; set_solver|].
  destruct (f k) as [i|] eqn:Hk.
  - rewrite lookup_insert_Some, IH. setoid_rewrite elem_of_app. setoid_rewrite list_elem_of_singleton.
    split; [intros [[<- <-]|[Hne (k' & Hin & Hk')]]; eauto|].
    intros (k' & [Hin|[= -> ->]] & Hk'); [|left; split; congruence].
    right. split; [|eauto]. intros ->.
    assert (k' ∈ l.*1) by (apply list_elem_of_fmap; exists (k', v); done).
    assert (k' = k) as ->; [|set_solver].
    apply Hinj; [set_solver..|congruence|]. by rewrite Hk'.
  - rewrite IH. setoid_rewrite elem_of_app. setoid_rewrite list_elem_of_singleton.
    split; [intros (k' & Hin & Hk'); eauto|].
    intros (k' & [Hin|[= -> ->]] & Hk'); [eauto|congruence].
Qed.

Lemma elem_of_range_keys `{MR : MapRange} site {K V} `{Countable K} (m : gmap K V) k :
  k ∈ (range_map site m).*1 ↔ is_Some (m !! k).
Proof.
  rewrite list_elem_of_fmap. split.
  - intros ([k' v] & -> & Hin%elem_of_range). eauto.
  - intros [v Hv]. exists (k, v). split; [done|]. by apply elem_of_range.
Qed.

Lemma EdgeKeysToAges_lookup `{MR : MapRange} m s v :
  EdgeKeysToAges m !! s = Some v ↔ ∃ k, m !! k = Some v ∧ EdgeKeyString k = s.
Proof.
  pose proof (fold_rekey_lookup (λ k, Some (EdgeKeyString k)) (range_map 0 m) s v
    (range_NoDup 0 m)) as Hf.
  unfold EdgeKeysToAges. rewrite Hf.
  - split; intros (k & Hin & Hk); exists k; rewrite elem_of_range in *; split; congruence.
  - intros k1 k2 _ _ [= Heq] _. by apply EdgeKeyString_inj.
Qed.

(** ** Runs of cycles *)

(** Successive cycles: each has its own reconciled edges and iteration order. *)
Fixpoint run_ages (ttl : Z) (cycles : list (MapRange * list Edge)) (m : gmap EdgeKey Z)
  : list (list EdgeKey) * gmap EdgeKey Z :=
  match cycles with
  | [] => ([], m)
  | (MR, current) :: cycles' =>
      let '(m', ex) := AgeUnconfirmed (MR:=MR) current (Some m) ttl in
      let '(exs, mf) := run_ages ttl cycles' (default m m') in
      (ex :: exs, mf)
  end.

Lemma run_ages_cons ttl MR current cycles m k :
  NoDup (Key <$> current) →
  ∃ m' ex, run_ages ttl ((MR, current) :: cycles) m =
      (ex :: (run_ages ttl cycles m').1, (run_ages ttl cycles m').2) ∧
    (m' !! k, bool_decide (k ∈ ex)) = next_age ttl (sighting_of current k) (m !! k).
Proof.
  intros Hnd. destruct (AgeUnconfirmed_pointwise (MR:=MR) ttl current m k Hnd) as (m' & ex & Heq & Hk).
  exists m', ex. split; [|done]. cbn [run_ages]. rewrite Heq. simpl. by destruct (run_ages ttl cycles m').
Qed.

(** A counter that runs from [n] expires for the first time after [ttl - n - 1] more
    cycles. *)
Lemma run_ages_counting ttl k cycles m n :
  m !! k = Some n → 0 ≤ n < ttl → ttl ≤ MaxInt →
  Forall (λ c, NoDup (Key <$> c.2) ∧ sighting_of c.2 k ≠ Confirmed) cycles →
  ∀ i ex, (run_ages ttl cycles m).1 !! i = Some ex →
    Z.of_nat i ≤ ttl - n - 1 → k ∈ ex ↔ Z.of_nat i = ttl - n - 1.
Proof.
  revert m n. induction cycles as [|[MR current] cycles IH]; intros m n Hm Hn Hmax Hall i ex Hi Hle;
    [done|].
  apply Forall_cons in Hall as [[Hnd Hs] Hall]. simpl in Hnd, Hs.
  destruct (run_ages_cons ttl MR current cycles m k Hnd) as (m' & ex' & Heq & Hk).
  rewrite Heq in Hi. simpl in Hi. rewrite Hm in Hk.
  assert (next_age ttl (sighting_of current k) (Some n) =
    if ttl <=? n + 1 then (None, true) else (Some (n + 1), false)) as Hna.
  { rewrite <- (wrap64_small (n + 1)) by (unfold MinInt in *; lia). by destruct (sighting_of current k). }
  rewrite Hna in Hk. destruct (ttl <=? n + 1) eqn:Ht; bprop.
  - assert (i = 0%nat) as -> by lia. injection Hi as <-. injection Hk as _ Hk. bprop. split; [lia|done].
  - injection Hk as Hm' Hk. bprop. destruct i as [|i].
    + injection Hi as <-. split; [done|lia].
    + simpl in Hi. rewrite (IH m' (n + 1) Hm' ltac:(lia) Hmax Hall i ex Hi) by lia. lia.
Qed.

(** The record a link must have, from its two versions. *)
Definition change_at (before after : gmap EdgeKey Edge) (k : EdgeKey) : option EdgeChange :=
  match before !! k, after !! k with
  | None, None => None
  | None, Some a => Some (added a)
  | Some b, None => Some (removed b)
  | Some b, Some a => if edgeMateriallyChanged b a then Some (updated b a) else None
  end.

Lemma index_by_key_None l k :
  NoDup (Key <$> l) → index_by_key l !! k = None ↔ k ∉ Key <$> l.
Proof.
  intros Hnd. rewrite eq_None_not_Some, list_elem_of_fmap. split.
  - intros Hn (e & -> & He). apply Hn. exists e. by apply index_by_key_lookup.
  - intros Hn (e & [He Hk]%index_by_key_lookup); [|done]. apply Hn. eauto.
Qed.

Lemma Diff_at `{MR : MapRange} before after k c :
  NoDup (Key <$> before) → NoDup (Key <$> after) →
  c ∈ Diff before after ∧ change_key c = Some k ↔
  change_at (index_by_key before) (index_by_key after) k = Some c.
Proof.
  intros Hb Ha. rewrite (elem_of_Diff before after c Hb Ha). unfold change_at.
  destruct (index_by_key before !! k) as [b|] eqn:Hlb, (index_by_key after !! k) as [a|] eqn:Hla;
    first [apply index_by_key_lookup in Hlb; [|done]|apply index_by_key_None in Hlb; [|done]];
    first [apply index_by_key_lookup in Hla; [|done]|apply index_by_key_None in Hla; [|done]];
    split.
  - destruct Hlb as [Hbin Hbk], Hla as [Hain Hak].
    intros [[(a' & Hin & Hn & ->)|[(b' & a' & Hin & Hin' & Hk & Hm & ->)|(b' & Hin & Hn & ->)]] Hc];
      cbn in Hc; injection Hc as Hc.
    + destruct Hn. rewrite Hc, <-Hbk. apply list_elem_of_fmap; eauto.
    + assert (a' = a) as -> by (eapply (NoDup_fmap_elem Key after); eauto; congruence).
      assert (b' = b) as -> by (eapply (NoDup_fmap_elem Key before); eauto; congruence).
      by rewrite Hm.
    + destruct Hn. rewrite Hc, <-Hak. apply list_elem_of_fmap; eauto.
  - destruct Hlb as [Hbin Hbk], Hla as [Hain Hak]. destruct (edgeMateriallyChanged b a) eqn:Hm; [|done].
    intros [= <-]. split; [|by cbn; rewrite Hak]. right; left. exists b, a. split_and!; congruence.
  - destruct Hlb as [Hbin Hbk].
    intros [[(a' & Hin & Hn & ->)|[(b' & a' & Hin & Hin' & Hk & Hm & ->)|(b' & Hin & Hn & ->)]] Hc];
      cbn in Hc; injection Hc as Hc.
    + destruct Hla. rewrite <-Hc. apply list_elem_of_fmap; eauto.
    + destruct Hla. rewrite <-Hc. apply list_elem_of_fmap; eauto.
    + do 2 f_equal. eapply (NoDup_fmap_elem Key before); eauto; congruence.
  - destruct Hlb as [Hbin Hbk]. subst k. intros [= <-]. split; [|done]. right; right. eauto.
  - destruct Hla as [Hain Hak].
    intros [[(a' & Hin & Hn & ->)|[(b' & a' & Hin & Hin' & Hk & Hm & ->)|(b' & Hin & Hn & ->)]] Hc];
      cbn in Hc; injection Hc as Hc.
    + do 2 f_equal. eapply (NoDup_fmap_elem Key after); eauto; congruence.
    + destruct Hlb. rewrite <-Hc, <-Hk. apply list_elem_of_fmap; eauto.
    + destruct Hlb. rewrite <-Hc. apply list_elem_of_fmap; eauto.
  - destruct Hla as [Hain Hak]. subst k. intros [= <-]. split; [|done]. left. eauto.
  - intros [[(a' & Hin & Hn & ->)|[(b' & a' & Hin & Hin' & Hk & Hm & ->)|(b' & Hin & Hn & ->)]] Hc];
      cbn in Hc; injection Hc as Hc; exfalso.
    + destruct Hla. rewrite <-Hc. apply list_elem_of_fmap; eauto.
    + destruct Hla. rewrite <-Hc. apply list_elem_of_fmap; eauto.
    + destruct Hlb. rewrite <-Hc. apply list_elem_of_fmap; eauto.
  - done.
Qed.

(** ** Properties *)

(** C15: the change records are exact.  For two reconciled edge sets there is a
    record for a link exactly when the link appeared, disappeared, or differs in
    direction, protocol, confidence, rank or kind, and the record carries the two
    versions; and a consumer that holds the edges of [before] and applies every
    record of [Diff before after] holds the links of [after]. *)
Theorem diff_changes_patch (MR : MapRange) (before after : list Edge) :
  NoDup (Key <$> before) → NoDup (Key <$> after) →
  ∀ k,
    (∀ c, c ∈ Diff before after ∧ change_key c = Some k ↔
          change_at (index_by_key before) (index_by_key after) k = Some c) ∧
    same_link (fold_left apply_change (Diff before after) (index_by_key before) !! k)
              (index_by_key after !! k).
Proof.
  intros Hb Ha k. pose proof (λ c, Diff_at before after k c Hb Ha) as HD. split; [done|].
  destruct (apply_changes_at (Diff before after) (index_by_key before) k) as [H1 H2].
  { intros c c' Hc Hc' Hk Hk'.
    assert (Some c = Some c') by (rewrite <-(proj1 (HD c)), <-(proj1 (HD c')); done). congruence. }
  destruct (change_at (index_by_key before) (index_by_key after) k) as [c|] eqn:Hc.
  - destruct (proj2 (HD c) eq_refl) as [Hin Hk]. rewrite (H1 c Hin Hk).
    unfold change_at in Hc.
    repeat case_match; simplify_eq; simpl; constructor; apply edgeMateriallyChanged_refl.
  - rewrite H2; [|intros c Hin Hk; by specialize (proj1 (HD c) (conj Hin Hk))].
    unfold change_at in Hc.
    repeat case_match; simplify_eq; by constructor.
Qed.

(** C16: one cycle of the lifecycle acts on each link on its own.  A link seen from
    both ends loses its counter; a link seen from one end for the first time gets
    counter zero; a counter of a link that is one-sided or absent is incremented as
    an int, which wraps, and when it reaches the limit the link is reported expired and
    forgotten. *)
Theorem age_unconfirmed_lifecycle (MR : MapRange) (ttl : Z) (current : list Edge) (m : gmap EdgeKey Z) :
  NoDup (Key <$> current) →
  ∃ m' ex, AgeUnconfirmed current (Some m) ttl = (Some m', ex) ∧
    ∀ k, (m' !! k, bool_decide (k ∈ ex)) = next_age ttl (sighting_of current k) (m !! k).
Proof.
  intros Hnd. destruct (AgeUnconfirmed current (Some m) ttl) as [o ex] eqn:Heq.
  assert (∃ m', o = Some m') as [m' ->] by (apply (f_equal fst) in Heq; simpl in Heq; eauto).
  exists m', ex. split; [done|]. intros k.
  destruct (AgeUnconfirmed_pointwise ttl current m k Hnd) as (m'' & ex' & Heq' & Hk).
  rewrite Heq in Heq'. injection Heq' as <- <-. exact Hk.
Qed.

(** C40: expiry is neither early nor late.  A link first seen from one end, and seen
    from one end or not at all in the cycles that follow, whatever the iteration
    orders, is reported expired in the cycle with index [ttl] (the first sighting
    has index 0) and in no cycle before it, for every limit that an int holds. *)
Theorem unconfirmed_link_expires_on_time (ttl : Z) (k : EdgeKey) (m : gmap EdgeKey Z)
    (MR : MapRange) (first : list Edge) (rest : list (MapRange * list Edge)) :
  1 ≤ ttl ≤ MaxInt → m !! k = None →
  NoDup (Key <$> first) → sighting_of first k = OneSided →
  Forall (λ c, NoDup (Key <$> c.2) ∧ sighting_of c.2 k ≠ Confirmed) rest →
  ∀ i ex, (run_ages ttl ((MR, first) :: rest) m).1 !! i = Some ex →
    Z.of_nat i ≤ ttl → k ∈ ex ↔ Z.of_nat i = ttl.
Proof.
  intros Ht Hm Hnd Hs Hrest i ex Hi Hle.
  destruct (run_ages_cons ttl MR first rest m k Hnd) as (m' & ex' & Heq & Hk).
  rewrite Hs, Hm in Hk. simpl in Hk. injection Hk as Hm' Hk. bprop.
  rewrite Heq in Hi. simpl in Hi. destruct i as [|i]; simpl in Hi.
  - injection Hi as <-. split; [done|lia].
  - rewrite (run_ages_counting ttl k rest m' 0 Hm' ltac:(lia) ltac:(lia) Hrest i ex Hi) by lia. lia.
Qed.

(** the lifecycle counters survive a restart: converted to the form the snapshot
    stores and back, whatever the iteration orders, the counter map is the same. *)
Theorem ages_snapshot_roundtrip (MR1 MR2 : MapRange) (m : gmap EdgeKey Z) :
  AgesToEdgeKeys (MR:=MR2) (EdgeKeysToAges (MR:=MR1) m) = m.
Proof.
  apply map_eq. intros k. apply option_eq. intros v. unfold AgesToEdgeKeys.
  rewrite (fold_rekey_lookup EdgeKeyFromString _ k v (range_NoDup 0 _)).
  - setoid_rewrite elem_of_range. setoid_rewrite EdgeKeysToAges_lookup. split.
    + intros (s & (k' & Hk' & <-) & Hs). rewrite EdgeKeyFromString_String in Hs. congruence.
    + intros Hk. exists (EdgeKeyString k). split; [eauto|]. apply EdgeKeyFromString_String.
  - intros s1 s2 [v1 H1]%elem_of_range_keys [v2 H2]%elem_of_range_keys Heq _.
    apply EdgeKeysToAges_lookup in H1 as (k1 & _ & <-).
    apply EdgeKeysToAges_lookup in H2 as (k2 & _ & <-).
    rewrite !EdgeKeyFromString_String in Heq. congruence.
Qed.

(** ** Witnesses *)

Definition one_sided : Edge := lldp_edge "access1" "Gi0/24" "core1" "Gi0/1".
Definition other_link : Edge := cdp_edge "access2" "Gi0/1" "core1" "Gi0/2".

Lemma diff_changes_patch_witness :
  Diff (MR:=range_std) [one_sided; other_link] [sample_link] =
    [updated one_sided sample_link; removed other_link] ∧
  same_link (fold_left apply_change (Diff (MR:=range_std) [one_sided; other_link] [sample_link])
               (index_by_key [one_sided; other_link]) !! Key sample_link)
            (index_by_key [sample_link] !! Key sample_link).
Proof.
  split; [vm_compute; reflexivity|].
  apply (diff_changes_patch range_std [one_sided; other_link] [sample_link]);
    apply (bool_decide_unpack _); vm_compute; exact I.
Defined.

Lemma age_unconfirmed_lifecycle_witness :
  ∃ m' ex, AgeUnconfirmed (MR:=range_std) [one_sided] (Some {[Key one_sided := 2]}) 3 = (Some m', ex) ∧
    (m' !! Key one_sided, bool_decide (Key one_sided ∈ ex)) = (None, true).
Proof.
  destruct (age_unconfirmed_lifecycle range_std 3 [one_sided] {[Key one_sided := 2]})
    as (m' & ex & Heq & Hk).
  - apply (bool_decide_unpack _). vm_compute. exact I.
  - exists m', ex. split; [exact Heq|]. rewrite Hk. vm_compute. reflexivity.
Defined.

Lemma unconfirmed_link_expires_on_time_witness :
  let cycles := [(range_std, [one_sided]); (range_rev, []); (range_std, [one_sided]);
                 (range_std, [one_sided])] in
  (run_ages 3 cycles ∅).1 = [[]; []; []; [Key one_sided]] ∧
  ∀ ex, (run_ages 3 cycles ∅).1 !! 3%nat = Some ex → Key one_sided ∈ ex.
Proof.
  split; [vm_compute; reflexivity|]. intros ex Hex.
  apply (unconfirmed_link_expires_on_time 3 (Key one_sided) ∅ range_std [one_sided]
    [(range_rev, []); (range_std, [one_sided]); (range_std, [one_sided])]) with (i := 3%nat);
    [unfold MaxInt; lia|reflexivity| | | |exact Hex|lia|lia].
  - apply (bool_decide_unpack _). vm_compute. exact I.
  - vm_compute. reflexivity.
  - repeat (apply Forall_cons_2; [split; [apply (bool_decide_unpack _); vm_compute; exact I
      |vm_compute; discriminate]|]). apply Forall_nil_2.
Defined.

(** Nothing bounds the counters of a snapshot: one that was loaded as the greatest int wraps
    when it is incremented, and the link is kept instead of expired. *)
Example loaded_age_wraps :
  let '(m', ex) := AgeUnconfirmed (MR:=range_std) [] (Some {[Key one_sided := MaxInt]}) 3 in
  ((.!! Key one_sided) <$> m', ex) = (Some (Some MinInt), []).
Proof. vm_compute. reflexivity. Qed.
