(* ===== verification/HubMerge.v ===== *)
(** * internal/federation: hub_merge.go

    The combined graph of the hub: the devices and edges of every spoke, the
    edges synthesised from matching out-of-scope observations, and the configured
    inter-domain links, reconciled once more.

    The reconciler is used through an interface, [ReconcilerSpec]: the theorems of
    this file hold for every implementation of it, and [graph_reconciler] shows
    that [Reconcile] is one. *)

From Stdlib Require Import ZArith Lia Ascii.
From S2P Require Import Prelude GoText Discovery GraphKeys Reconcile Limits HubValidate.
Open Scope Z_scope.

(** ** The interface to the graph package *)

Class Reconciler := reconcile : list Edge → list Edge * list Conflict.

Class ReconcilerSpec `{U : Unicode} (R : Reconciler) : Prop := {
  (** One edge per link, and a link for every usable observation. *)
  rc_unique : ∀ edges, NoDup (Key <$> (reconcile edges).1);
  rc_links : ∀ edges k,
    (∃ e, e ∈ (reconcile edges).1 ∧ Key e = k) ↔ observations k edges ≠ [];
  (** The winner has the lowest rank, and among those the preferred side and
      protocol. *)
  rc_best : ∀ edges e, e ∈ (reconcile edges).1 →
    ∃ w, w ∈ observations (Key e) edges ∧
      DiscoveryProto e = DiscoveryProto w ∧ PrecedenceRank e = PrecedenceRank w ∧
      LinkKind e = LinkKind w ∧
      (∀ o, o ∈ observations (Key e) edges → PrecedenceRank w ≤ PrecedenceRank o) ∧
      (∀ o, o ∈ observations (Key e) edges → PrecedenceRank o = PrecedenceRank w →
         pref (Key e) w o = true);
  (** Bidirectional exactly when both ends were observed. *)
  rc_direction : ∀ edges e, e ∈ (reconcile edges).1 →
    Direction e = DirectionBidirectional ↔ confirmed (Key e) (observations (Key e) edges) = true
}.

#[export] Instance graph_reconcile `{U : Unicode} `{MR : MapRange} : Reconciler := Reconcile.

#[export] Instance graph_reconciler `{U : Unicode} `{MR : MapRange} : ReconcilerSpec graph_reconcile.
Proof.
  split; unfold reconcile, graph_reconcile; intros edges.
  - apply Reconcile_NoDup.
  - intros k. rewrite <-Reconcile_keys, list_elem_of_fmap. naive_solver.
  - intros e He%elem_of_Reconcile. apply link_Some in He as (w & Hw & Hr & Hp & Hfin).
    destruct (finish_fields (Key e) (confirmed (Key e) (observations (Key e) edges)) w)
      as (H1 & H2 & H3 & H4 & H5 & H6). rewrite <-Hfin in *.
    exists w. split_and!; done.
  - intros e He%elem_of_Reconcile. apply link_Some in He as (w & Hw & Hr & Hp & Hfin).
    destruct (finish_fields (Key e) (confirmed (Key e) (observations (Key e) edges)) w)
      as (_ & _ & _ & _ & _ & H6). rewrite <-Hfin in H6. rewrite H6.
    by destruct (confirmed _ _).
Qed.

(** ** Configuration and registry *)

Record InterDomainLink := mkIDL {
  LocalDevice : string;
  LocalPort : string;
  RemoteDevice : string;
  RemotePort : string;
  idl_LinkKind : string
}.

(** The fields of [FederationConfig] and [FederationHubConfig] the hub reads. *)
Record FederationConfig := mkFederationConfig {
  SpokeTimeout : duration;
  KnownInterDomainLinks : list InterDomainLink;
  MinPushInterval : duration;
  MaxGraphEdges : Z;
  MaxGraphDevices : Z;
  LooseDeviceNameMatching : bool
}.

Record spokeEntry := mkSpokeEntry {
  payload : SpokePayload;
  lastSeen : time
}.

#[export] Instance spokeEntry_eq_dec : EqDecision spokeEntry.
Proof. solve_decision. Defined.

(** ** Device names *)

Definition normalizeDeviceName `{U : Unicode} (s : string) : string :=
  let s := ToLower s in
  match IndexByte s "."%char with
  | Some i => stake i s
  | None => s
  end.

Definition canonicalizeDeviceName `{U : Unicode} (cfg : FederationConfig) (s : string) : string :=
  if LooseDeviceNameMatching cfg then normalizeDeviceName s else ToLower s.

(** ** Edge pairs *)

Definition base_edge (src srcPort dst dstPort proto kind confidence : string) (rank : Z) (now : time)
  : Edge :=
  mkEdge src srcPort dst dstPort proto DirectionUnidirectional confidence AdjacencyUnknown
    rank kind now ∅.

(** [time.Now()] is read once per pair; [clock] gives the reading, by the number
    of edges collected so far. *)
Definition appendEdgePair (clock : nat → time) (edges : list Edge)
    (src srcPort dst dstPort proto kind confidence : string) (rank : Z) : list Edge :=
  let now := clock (length edges) in
  edges ++ [base_edge src srcPort dst dstPort proto kind confidence rank now;
            base_edge dst dstPort src srcPort proto kind confidence rank now].

(** ** buildCombinedGraph *)

Section Merge.
Context `{U : Unicode} `{MR : MapRange} `{R : Reconciler}.
Context (cfg : FederationConfig) (clock : nat → time).

Definition spokesSnapshot (spokes : gmap string spokeEntry) : gmap string spokeEntry := spokes.

(** The first loop: devices (the first spoke in name order keeps a device) and
    edges, with the reverse of every bidirectional edge. *)
Record collected := mkCollected {
  seenDevices : gset string;
  allDevices : list Device;
  allEdges : list Edge
}.

Definition collect_device (st : collected) (d : Device) : collected :=
  if bool_decide (ID d ∈ seenDevices st) then st
  else mkCollected ({[ID d]} ∪ seenDevices st) (allDevices st ++ [d]) (allEdges st).

Definition spoke_edges (e : Edge) : list Edge :=
  if bool_decide (Direction e = DirectionBidirectional) then [e; swap_endpoints e] else [e].

Definition collect_edge (st : collected) (e : Edge) : collected :=
  mkCollected (seenDevices st) (allDevices st) (allEdges st ++ spoke_edges e).

Definition collect_spoke (spokes : gmap string spokeEntry) (st : collected) (sk : string) : collected :=
  match spokes !! sk with
  | None => st
  | Some entry =>
      let st := fold_left collect_device (sp_Devices (payload entry)) st in
      fold_left collect_edge (sp_Edges (payload entry)) st
  end.

Definition spokeKeys (spokes : gmap string spokeEntry) : list string :=
  sort_by str_le (range_map 0 spokes).*1.

Definition collect (spokes : gmap string spokeEntry) : collected :=
  fold_left (collect_spoke spokes) (spokeKeys spokes) (mkCollected ∅ [] []).

(** The index of the out-of-scope observations by (device, hint). *)
Record oosVal := mkOosVal { reportingPort : string; oos_proto : string }.

Definition oos_key (n : OutOfScopeNeighbour) : string * string :=
  (canonicalizeDeviceName cfg (ReportingDevice n), canonicalizeDeviceName cfg (NeighbourHint n)).

Definition index_oos (m : gmap (string * string) (list oosVal)) (n : OutOfScopeNeighbour)
  : gmap (string * string) (list oosVal) :=
  let k := oos_key n in
  <[k := default [] (m !! k) ++ [mkOosVal (ReportingPort n) (Proto n)]]> m.

Definition oosIndex (spokes : gmap string spokeEntry) : gmap (string * string) (list oosVal) :=
  fold_left (λ m '(_, entry), fold_left index_oos (sp_OutOfScope (payload entry)) m)
    (range_map 1 spokes) ∅.

(** The matching loop.  [visited] holds the device pairs with their port pairs. *)
Record matching := mkMatching {
  visited : gset ((string * string) * (string * string));
  m_edges : list Edge;
  unmatchedCount : Z
}.

Definition match_ports (k : string * string) (local : oosVal) (st : matching) (remote : oosVal)
  : matching :=
  let '(device, hint) := k in
  let '(a, b) := if str_lt hint device then (hint, device) else (device, hint) in
  let '(aPort, bPort) :=
    if bool_decide (a = device) then (reportingPort local, reportingPort remote)
    else (reportingPort remote, reportingPort local) in
  let key := ((a, b), (aPort, bPort)) in
  if bool_decide (key ∈ visited st) then st
  else
    let proto := if bool_decide (oos_proto local = "") then oos_proto remote else oos_proto local in
    mkMatching ({[key]} ∪ visited st)
      (appendEdgePair clock (m_edges st) device (reportingPort local) hint (reportingPort remote)
         proto LinkKindEthernet ConfidenceMedium 2)
      (unmatchedCount st).

Definition match_key (idx : gmap (string * string) (list oosVal)) (st : matching)
    (kv : (string * string) * list oosVal) : matching :=
  let '((device, hint), locals) := kv in
  match idx !! (hint, device) with
  | None => mkMatching (visited st) (m_edges st) (unmatchedCount st + 1)
  | Some remotes =>
      fold_left (λ st local, fold_left (match_ports (device, hint) local) remotes st) locals st
  end.

Definition match_oos (idx : gmap (string * string) (list oosVal)) (edges : list Edge) : matching :=
  fold_left (match_key idx) (range_map 2 idx) (mkMatching ∅ edges 0).

(** The configured links whose two devices are in the graph. *)
Definition inject_link (seen : gset string) (edges : list Edge) (l : InterDomainLink) : list Edge :=
  if negb (bool_decide (LocalDevice l ∈ seen)) || negb (bool_decide (RemoteDevice l ∈ seen))
  then edges
  else
    let kind := if bool_decide (idl_LinkKind l = "") then LinkKindEthernet else idl_LinkKind l in
    appendEdgePair clock edges (LocalDevice l) (LocalPort l) (RemoteDevice l) (RemotePort l)
      DiscoveryProtocolConfigured kind ConfidenceHigh 0.

(** Every edge that is handed to the reconciler. *)
Definition combined_edges (spokes : gmap string spokeEntry) : list Edge :=
  let st := collect spokes in
  fold_left (inject_link (seenDevices st)) (KnownInterDomainLinks cfg)
    (m_edges (match_oos (oosIndex spokes) (allEdges st))).

Definition buildCombinedGraph (spokes : gmap string spokeEntry) : Graph * Z :=
  let st := collect spokes in
  let ms := match_oos (oosIndex spokes) (allEdges st) in
  let edges := fold_left (inject_link (seenDevices st)) (KnownInterDomainLinks cfg) (m_edges ms) in
  (mkGraph (allDevices st) (reconcile edges).1 [], unmatchedCount ms).
End Merge.

(** ** What is collected *)

Definition pushed {A} (field : SpokePayload → list A) (spokes : gmap string spokeEntry) (x : A) : Prop :=
  ∃ id entry, spokes !! id = Some entry ∧ x ∈ field (payload entry).

Section Collected.
Context `{U : Unicode} `{MR : MapRange}.

Definition entries (spokes : gmap string spokeEntry) : list spokeEntry :=
  omap (λ sk, spokes !! sk) (spokeKeys spokes).

Lemma elem_of_spokeKeys spokes id : id ∈ spokeKeys spokes ↔ is_Some (spokes !! id).
Proof.
  unfold spokeKeys. rewrite elem_of_sort_by, list_elem_of_fmap. split.
  - intros ([k v] & -> & Hin%elem_of_range). eauto.
  - intros [v Hv]. exists (id, v). split; [done|]. by apply elem_of_range.
Qed.

Lemma elem_of_entries {A} (field : SpokePayload → list A) spokes x :
  (∃ en, en ∈ entries spokes ∧ x ∈ field (payload en)) ↔ pushed field spokes x.
Proof.
  unfold entries, pushed. setoid_rewrite list_elem_of_omap. split.
  - intros (en & (id & _ & Hl) & Hx). eauto.
  - intros (id & en & Hl & Hx). exists en. split; [|done]. exists id. split; [|done].
    apply elem_of_spokeKeys. eauto.
Qed.

(** The devices in the order of the first loop, and its result. *)
Definition device_list (spokes : gmap string spokeEntry) : list Device :=
  entries spokes ≫= (λ en, sp_Devices (payload en)).

Lemma collect_devices_from ds st :
  fold_left collect_device ds st =
  mkCollected (list_to_set (ID <$> ds) ∪ seenDevices st)
    (allDevices st ++ dedup_from ID (seenDevices st) ds) (allEdges st).
Proof.
  revert st. induction ds as [|d ds IH]; intros [sn al ed]; cbn [fold_left].
  { simpl. rewrite app_nil_r. f_equal. set_solver. }
  rewrite IH. unfold collect_device. cbn [dedup_from seenDevices allDevices allEdges].
  case_bool_decide; cbn [seenDevices allDevices allEdges]; rewrite <-?app_assoc; f_equal;
    rewrite fmap_cons; cbn; set_solver.
Qed.

Lemma collect_edges_from es st :
  fold_left collect_edge es st =
  mkCollected (seenDevices st) (allDevices st) (allEdges st ++ (es ≫= spoke_edges)).
Proof.
  revert st. induction es as [|e es IH]; intros [sn al ed]; cbn [fold_left].
  - by rewrite app_nil_r.
  - rewrite IH. cbn [collect_edge seenDevices allDevices allEdges]. by rewrite <-app_assoc.
Qed.

Lemma dedup_from_app {A K} `{Countable K} (key : A → K) s l1 l2 :
  dedup_from key s (l1 ++ l2) =
  dedup_from key s l1 ++ dedup_from key (list_to_set (key <$> l1) ∪ s) l2.
Proof.
  revert s. induction l1 as [|x l1 IH]; intros s.
  { cbn. by rewrite (left_id_L ∅ (∪)). }
  rewrite fmap_cons, list_to_set_cons. cbn [app dedup_from].
  case_bool_decide; rewrite IH; cbn [app]; f_equal; [|f_equal]; f_equal; set_solver.
Qed.

Lemma collect_from spokes ks st :
  fold_left (collect_spoke spokes) ks st =
  let ens := omap (λ sk, spokes !! sk) ks in
  let ds := ens ≫= (λ en, sp_Devices (payload en)) in
  mkCollected (list_to_set (ID <$> ds) ∪ seenDevices st)
    (allDevices st ++ dedup_from ID (seenDevices st) ds)
    (allEdges st ++ (ens ≫= (λ en, sp_Edges (payload en) ≫= spoke_edges))).
Proof.
  revert st. induction ks as [|sk ks IH]; intros [sn al ed]; cbn [fold_left].
  { simpl. rewrite !app_nil_r. f_equal. set_solver. }
  rewrite IH. clear IH. unfold collect_spoke. csimpl. destruct (spokes !! sk) as [en|]; [|done].
  rewrite collect_devices_from, collect_edges_from. csimpl.
  rewrite dedup_from_app, fmap_app, <-!app_assoc. f_equal. set_solver.
Qed.

Lemma collect_spec spokes :
  collect spokes =
  mkCollected (list_to_set (ID <$> device_list spokes)) (dedup_by ID (device_list spokes))
    (entries spokes ≫= (λ en, sp_Edges (payload en) ≫= spoke_edges)).
Proof.
  unfold collect. rewrite collect_from. cbn. f_equal. set_solver.
Qed.

Lemma elem_of_device_list spokes d : d ∈ device_list spokes ↔ pushed sp_Devices spokes d.
Proof. unfold device_list. rewrite list_elem_of_bind, <-elem_of_entries. naive_solver. Qed.

Lemma elem_of_seenDevices spokes id :
  id ∈ seenDevices (collect spokes) ↔ ∃ d, pushed sp_Devices spokes d ∧ ID d = id.
Proof.
  rewrite collect_spec. cbn. rewrite elem_of_list_to_set, list_elem_of_fmap.
  setoid_rewrite elem_of_device_list. naive_solver.
Qed.

Lemma elem_of_allEdges spokes e :
  e ∈ allEdges (collect spokes) ↔ ∃ e0, pushed sp_Edges spokes e0 ∧ e ∈ spoke_edges e0.
Proof.
  rewrite collect_spec. cbn. rewrite list_elem_of_bind. setoid_rewrite list_elem_of_bind.
  setoid_rewrite <-(elem_of_entries sp_Edges). naive_solver.
Qed.
End Collected.

(** ** What is matched *)

Section Matched.
Context `{U : Unicode} `{MR : MapRange} (cfg : FederationConfig) (clock : nat → time).

(** An out-of-scope observation with its canonical names. *)
Definition reported (spokes : gmap string spokeEntry) (k : string * string) (v : oosVal) : Prop :=
  ∃ n, pushed sp_OutOfScope spokes n ∧ oos_key cfg n = k ∧ v = mkOosVal (ReportingPort n) (Proto n).

Lemma index_oos_elem ns m k v :
  v ∈ default [] (fold_left (index_oos cfg) ns m !! k) ↔
  v ∈ default [] (m !! k) ∨
  ∃ n, n ∈ ns ∧ oos_key cfg n = k ∧ v = mkOosVal (ReportingPort n) (Proto n).
Proof.
  revert m. induction ns as [|n ns IH]; intros m; cbn [fold_left]; [set_solver|].
  rewrite IH. unfold index_oos. cbv zeta.
  destruct (decide (oos_key cfg n = k)) as [<-|Hne].
  - rewrite lookup_insert_eq. simpl. rewrite elem_of_app, list_elem_of_singleton.
    setoid_rewrite elem_of_cons. split.
    + intros [[H|H]|(n' & Hn & Hk & Hv)]; eauto 8.
    + intros [H|(n' & [->|Hn] & Hk & Hv)]; eauto 8.
  - rewrite lookup_insert_ne by done. setoid_rewrite elem_of_cons. split.
    + intros [H|(n' & Hn & Hk & Hv)]; eauto 8.
    + intros [H|(n' & [->|Hn] & Hk & Hv)]; [eauto 8|done|eauto 8].
Qed.

Lemma index_oos_nonempty ns m :
  (∀ k l, m !! k = Some l → l ≠ []) →
  ∀ k l, fold_left (index_oos cfg) ns m !! k = Some l → l ≠ [].
Proof.
  intros Hm. apply (fold_left_inv (λ m : gmap _ (list oosVal), ∀ k l, m !! k = Some l → l ≠ []));
    [done|].
  intros m' n _ IH k l. unfold index_oos. cbv zeta.
  intros [[_ <-]|[_ Hl]]%lookup_insert_Some; [|by eapply IH].
  by destruct (default [] (m' !! oos_key cfg n)).
Qed.

Lemma oosIndex_elem spokes k v :
  v ∈ default [] (oosIndex cfg spokes !! k) ↔ reported spokes k v.
Proof.
  unfold oosIndex, reported, pushed.
  assert (∀ (l : list (string * spokeEntry)) m, v ∈ default [] (fold_left (λ m '(_, en),
      fold_left (index_oos cfg) (sp_OutOfScope (payload en)) m) l m !! k) ↔
    v ∈ default [] (m !! k) ∨ ∃ id en n, (id, en) ∈ l ∧ n ∈ sp_OutOfScope (payload en) ∧
      oos_key cfg n = k ∧ v = mkOosVal (ReportingPort n) (Proto n)) as Hfold.
  { induction l as [|[id en] l IH]; intros m; cbn [fold_left]; [set_solver|].
    rewrite IH, index_oos_elem. setoid_rewrite elem_of_cons. split.
    - intros [[H|(n & Hn & H')]|(id' & en' & n & Hin & Hn & H')]; [by left| |]; right; eauto 10.
    - intros [H|(id' & en' & n & [[= -> ->]|Hin] & Hn & H')]; eauto 10. }
  rewrite Hfold, lookup_empty. simpl. setoid_rewrite elem_of_range. split.
  - intros [H|(id & en & n & Hin & Hn & H')]; [set_solver|]. exists n. eauto 10.
  - intros (n & (id & en & Hin & Hn) & H). right. eauto 10.
Qed.

Lemma oosIndex_nonempty spokes k l : oosIndex cfg spokes !! k = Some l → l ≠ [].
Proof.
  unfold oosIndex. revert k l.
  apply (fold_left_inv (λ m : gmap (string * string) (list oosVal), ∀ k l, m !! k = Some l → l ≠ []));
    [by intros ? ?; rewrite lookup_empty|].
  intros m [id en] _ IH. by apply index_oos_nonempty.
Qed.

(** A synthesised edge, up to the protocol and the time it carries. *)
Definition synth (e : Edge) (a pa b pb : string) : Prop :=
  ∃ proto now, e = base_edge a pa b pb proto LinkKindEthernet ConfidenceMedium 2 now.

Definition both_in (l : list Edge) (key : (string * string) * (string * string)) : Prop :=
  let '((a, b), (pa, pb)) := key in
  (∃ e, e ∈ l ∧ synth e a pa b pb) ∧ (∃ e, e ∈ l ∧ synth e b pb a pa).

(** What the loop has done, given the pairs it may use ([src]). *)
Record match_inv (edges0 : list Edge) (src : string → string → string → string → Prop)
    (st : matching) : Prop := {
  mi_keep : ∀ e, e ∈ edges0 → e ∈ m_edges st;
  mi_visited : ∀ key, key ∈ visited st → both_in (m_edges st) key;
  mi_only : ∀ e, e ∈ m_edges st → e ∈ edges0 ∨
    ∃ a pa b pb, synth e a pa b pb ∧ src a pa b pb
}.

(** The visited key of a matched pair. *)
Definition pair_key (a pa b pb : string) : (string * string) * (string * string) :=
  if str_lt b a then ((b, a), (pb, pa)) else ((a, b), (pa, pb)).

Lemma match_ports_eq a b local st remote :
  match_ports clock (a, b) local st remote =
  let key := pair_key a (reportingPort local) b (reportingPort remote) in
  if bool_decide (key ∈ visited st) then st
  else
    mkMatching ({[key]} ∪ visited st)
      (appendEdgePair clock (m_edges st) a (reportingPort local) b (reportingPort remote)
         (if bool_decide (oos_proto local = "") then oos_proto remote else oos_proto local)
         LinkKindEthernet ConfidenceMedium 2)
      (unmatchedCount st).
Proof.
  unfold match_ports, pair_key. destruct (str_lt b a) eqn:Hlt.
  - rewrite bool_decide_eq_false_2 by by apply str_lt_neq. done.
  - by rewrite bool_decide_eq_true_2.
Qed.

Lemma both_in_mono l l' key : (∀ e, e ∈ l → e ∈ l') → both_in l key → both_in l' key.
Proof. destruct key as [[a b] [pa pb]]. simpl. naive_solver. Qed.

Lemma match_ports_inv edges0 src a b local remote st :
  match_inv edges0 src st →
  src a (reportingPort local) b (reportingPort remote) →
  src b (reportingPort remote) a (reportingPort local) →
  match_inv edges0 src (match_ports clock (a, b) local st remote).
Proof.
  intros [Hk Hv Ho] Hs1 Hs2. rewrite match_ports_eq. cbv zeta.
  case_bool_decide; [done|]. unfold appendEdgePair. cbv zeta.
  split; cbn [m_edges visited].
  - intros e He. apply elem_of_app. auto.
  - intros key [->%elem_of_singleton|Hkey]%elem_of_union.
    + unfold pair_key, both_in. destruct (str_lt b a); split; eexists;
        (split; [apply elem_of_app; right|by eexists _, _]); (apply list_elem_of_here ||
        apply list_elem_of_further, list_elem_of_here).
    + eapply both_in_mono; [|by apply Hv]. intros e He. apply elem_of_app. auto.
  - intros e [He|He]%elem_of_app; [by apply Ho|]. right.
    apply elem_of_cons in He as [->|He%list_elem_of_singleton]; [|subst e].
    + do 4 eexists. split; [by eexists _, _|done].
    + do 4 eexists. split; [by eexists _, _|done].
Qed.

Lemma match_ports_visits a b local remote st :
  visited st ⊆ visited (match_ports clock (a, b) local st remote) ∧
  pair_key a (reportingPort local) b (reportingPort remote) ∈
    visited (match_ports clock (a, b) local st remote).
Proof.
  rewrite match_ports_eq. cbv zeta. case_bool_decide; [done|]. cbn [visited]. set_solver.
Qed.

(** The port pairs two reciprocal entries of the index offer. *)
Definition offered (idx : gmap (string * string) (list oosVal)) (a pa b pb : string) : Prop :=
  ∃ l r, l ∈ default [] (idx !! (a, b)) ∧ r ∈ default [] (idx !! (b, a)) ∧
    pa = reportingPort l ∧ pb = reportingPort r.

Lemma match_key_inv edges0 idx st kv :
  idx !! kv.1 = Some kv.2 → match_inv edges0 (offered idx) st →
  match_inv edges0 (offered idx) (match_key clock idx st kv).
Proof.
  destruct kv as [[a b] locals]. simpl. intros Hl Hst.
  destruct (idx !! (b, a)) as [remotes|] eqn:Hr; [|by destruct Hst].
  apply fold_left_inv; [done|]. intros st1 l Hlin Hst1.
  apply fold_left_inv; [done|]. intros st2 r Hrin Hst2.
  apply match_ports_inv; [done|exists l, r|exists r, l]; rewrite Hl, Hr; done.
Qed.

Lemma match_key_visits idx st kv key :
  key ∈ visited st → key ∈ visited (match_key clock idx st kv).
Proof.
  destruct kv as [[a b] locals]. simpl. intros Hkey.
  destruct (idx !! (b, a)) as [remotes|]; [|done].
  apply (fold_left_inv (λ st, key ∈ visited st)); [done|]. intros st1 l _ Hst1.
  apply (fold_left_inv (λ st, key ∈ visited st)); [done|]. intros st2 r _ Hst2.
  by apply match_ports_visits.
Qed.

Lemma match_oos_inv idx edges0 : match_inv edges0 (offered idx) (match_oos clock idx edges0).
Proof.
  unfold match_oos. apply fold_left_inv.
  - split; cbn; [done|set_solver|auto].
  - intros st [k ls] Hin Hst. apply match_key_inv; [|done]. by apply elem_of_range in Hin.
Qed.

Lemma match_oos_visits idx edges0 a pa b pb :
  offered idx a pa b pb → pair_key a pa b pb ∈ visited (match_oos clock idx edges0).
Proof.
  intros (l & r & Hl & Hr & -> & ->).
  destruct (idx !! (a, b)) as [locals|] eqn:Hla; [|set_solver].
  destruct (idx !! (b, a)) as [remotes|] eqn:Hlb; [|set_solver]. simpl in Hl, Hr.
  unfold match_oos.
  apply (fold_left_reach (λ st, _ ∈ visited st) _ _ _ ((a, b), locals)).
  - by apply elem_of_range.
  - intros st. simpl. rewrite Hlb.
    apply (fold_left_reach (λ st, _ ∈ visited st) _ _ _ l); [done| |].
    + intros st1. apply (fold_left_reach (λ st, _ ∈ visited st) _ _ _ r); [done| |].
      * intros st2. apply match_ports_visits.
      * intros st2 r' Hst2. by apply match_ports_visits.
    + intros st1 l' Hst1. apply (fold_left_inv (λ st, _ ∈ visited st)); [done|].
      intros st2 r' _ Hst2. by apply match_ports_visits.
  - intros st kv Hst. by apply match_key_visits.
Qed.

(** The directed observations the matching adds are exactly those offered. *)
Lemma match_oos_ends idx edges0 a pa b pb :
  (∃ e, e ∈ m_edges (match_oos clock idx edges0) ∧ ends e = mkEdgeKey a pa b pb) ↔
  (∃ e, e ∈ edges0 ∧ ends e = mkEdgeKey a pa b pb) ∨ offered idx a pa b pb.
Proof.
  destruct (match_oos_inv idx edges0) as [Hk Hv Ho]. split.
  - intros (e & He & Hends). destruct (Ho e He) as [H|(a' & pa' & b' & pb' & (p & n & ->) & Hs)];
      [eauto|]. injection Hends as <- <- <- <-. auto.
  - intros [(e & He & Hends)|Hs]; [eauto|].
    apply (match_oos_visits _ edges0), Hv in Hs. unfold pair_key in Hs.
    destruct (str_lt b a); simpl in Hs; destruct Hs as [(e1 & H1 & p1 & n1 & ->) (e2 & H2 & p2 & n2 & ->)].
    + eexists. split; [exact H2|done].
    + eexists. split; [exact H1|done].
Qed.

Lemma match_oos_edge idx edges0 e :
  e ∈ m_edges (match_oos clock idx edges0) →
  e ∈ edges0 ∨ (PrecedenceRank e = 2 ∧ Direction e = DirectionUnidirectional).
Proof.
  intros He. destruct (mi_only _ _ _ (match_oos_inv idx edges0) e He)
    as [H|(a & pa & b & pb & (p & n & ->) & _)]; auto.
Qed.

Lemma match_oos_keep idx edges0 e : e ∈ edges0 → e ∈ m_edges (match_oos clock idx edges0).
Proof. apply (mi_keep _ _ _ (match_oos_inv idx edges0)). Qed.

(** ** What is injected *)

Definition idl_kind (l : InterDomainLink) : string :=
  if bool_decide (idl_LinkKind l = "") then LinkKindEthernet else idl_LinkKind l.

Definition configured_edge (e : Edge) (l : InterDomainLink) : Prop :=
  ∃ now, e = base_edge (LocalDevice l) (LocalPort l) (RemoteDevice l) (RemotePort l)
               DiscoveryProtocolConfigured (idl_kind l) ConfidenceHigh 0 now ∨
         e = base_edge (RemoteDevice l) (RemotePort l) (LocalDevice l) (LocalPort l)
               DiscoveryProtocolConfigured (idl_kind l) ConfidenceHigh 0 now.

Lemma inject_links seen ls edges e :
  e ∈ fold_left (inject_link clock seen) ls edges →
  e ∈ edges ∨ ∃ l, l ∈ ls ∧ LocalDevice l ∈ seen ∧ RemoteDevice l ∈ seen ∧ configured_edge e l.
Proof.
  revert edges. induction ls as [|l ls IH]; intros edges; cbn [fold_left]; [auto|].
  intros [He|(l' & Hl & H)]%IH; [|right; exists l'; set_solver]. revert He.
  unfold inject_link. destruct (negb _ || negb _) eqn:Hs; [auto|].
  bprop. unfold appendEdgePair. cbv zeta.
  intros [He|He]%elem_of_app; [auto|]. right. exists l. split; [set_solver|]. do 2 (split; [done|]).
  eexists. apply elem_of_cons in He as [->|He%list_elem_of_singleton]; eauto.
Qed.

Lemma inject_links_mono seen ls edges e :
  e ∈ edges → e ∈ fold_left (inject_link clock seen) ls edges.
Proof.
  intros He. apply (fold_left_inv (λ es, e ∈ es)); [done|]. intros es l _ Hes.
  unfold inject_link. destruct (negb _ || negb _); [done|]. unfold appendEdgePair. set_solver.
Qed.

Lemma inject_links_total seen ls edges l :
  l ∈ ls → LocalDevice l ∈ seen → RemoteDevice l ∈ seen →
  let base now sd sp dd dp :=
    base_edge sd sp dd dp DiscoveryProtocolConfigured (idl_kind l) ConfidenceHigh 0 now in
  ∃ now,
    base now (LocalDevice l) (LocalPort l) (RemoteDevice l) (RemotePort l)
      ∈ fold_left (inject_link clock seen) ls edges ∧
    base now (RemoteDevice l) (RemotePort l) (LocalDevice l) (LocalPort l)
      ∈ fold_left (inject_link clock seen) ls edges.
Proof.
  intros Hl H1 H2 base.
  apply (fold_left_reach (λ es, ∃ now, base now _ _ _ _ ∈ es ∧ base now _ _ _ _ ∈ es) _ _ _ l);
    [done| |].
  - intros es. unfold inject_link. rewrite !bool_decide_eq_true_2 by done. simpl.
    unfold appendEdgePair. eexists. split; apply elem_of_app; right;
      [apply list_elem_of_here|apply list_elem_of_further, list_elem_of_here].
  - intros es l' (now & Ha & Hb). exists now.
    unfold inject_link. destruct (negb _ || negb _); [done|]. unfold appendEdgePair. set_solver.
Qed.
End Matched.

(** ** The observations behind the combined graph *)

Section Sources.
Context `{U : Unicode} (cfg : FederationConfig).

Definition known (spokes : gmap string spokeEntry) (id : string) : Prop :=
  ∃ d, pushed sp_Devices spokes d ∧ ID d = id.

(** The directed observations the registry and the configuration justify. *)
Inductive source (spokes : gmap string spokeEntry) : EdgeKey → Prop :=
| source_pushed e : pushed sp_Edges spokes e → source spokes (ends e)
| source_reverse e :
    pushed sp_Edges spokes e → Direction e = DirectionBidirectional →
    source spokes (ends (swap_endpoints e))
| source_matched a b l r :
    reported cfg spokes (a, b) l → reported cfg spokes (b, a) r →
    source spokes (mkEdgeKey a (reportingPort l) b (reportingPort r))
| source_configured l :
    l ∈ KnownInterDomainLinks cfg → known spokes (LocalDevice l) → known spokes (RemoteDevice l) →
    source spokes (mkEdgeKey (LocalDevice l) (LocalPort l) (RemoteDevice l) (RemotePort l))
| source_configured_reverse l :
    l ∈ KnownInterDomainLinks cfg → known spokes (LocalDevice l) → known spokes (RemoteDevice l) →
    source spokes (mkEdgeKey (RemoteDevice l) (RemotePort l) (LocalDevice l) (LocalPort l)).

Lemma ends_determine e e' :
  ends e = ends e' →
  keyable e = keyable e' ∧ normalizedGroupKey e = normalizedGroupKey e' ∧ SrcDevice e = SrcDevice e'.
Proof.
  destruct e, e'. unfold ends, keyable, normalizedGroupKey. simpl. by intros [= -> -> -> ->].
Qed.

Context `{MR : MapRange} (clock : nat → time).

Lemma spoke_edges_ends e0 e :
  e ∈ spoke_edges e0 ↔ e = e0 ∨ (Direction e0 = DirectionBidirectional ∧ e = swap_endpoints e0).
Proof. unfold spoke_edges. case_bool_decide; set_solver. Qed.

(** The edges before the configured links are added. *)
Definition matched_edges (spokes : gmap string spokeEntry) : list Edge :=
  m_edges (match_oos clock (oosIndex cfg spokes) (allEdges (collect spokes))).

Lemma matched_ends spokes k :
  (∃ e, e ∈ matched_edges spokes ∧ ends e = k) ↔
  (∃ e0 e, pushed sp_Edges spokes e0 ∧ e ∈ spoke_edges e0 ∧ ends e = k) ∨
  (∃ l r, reported cfg spokes (k_SrcDevice k, k_DstDevice k) l ∧
     reported cfg spokes (k_DstDevice k, k_SrcDevice k) r ∧
     k_SrcPort k = reportingPort l ∧ k_DstPort k = reportingPort r).
Proof.
  destruct k as [a pa b pb]. unfold matched_edges. rewrite match_oos_ends.
  unfold offered. cbn [k_SrcDevice k_SrcPort k_DstDevice k_DstPort].
  setoid_rewrite oosIndex_elem. setoid_rewrite elem_of_allEdges. naive_solver.
Qed.

Lemma combined_ends spokes k :
  (∃ e, e ∈ combined_edges cfg clock spokes ∧ ends e = k) ↔ source spokes k.
Proof.
  unfold combined_edges. cbv zeta. fold (matched_edges spokes). split.
  - intros (e & [He|(l & Hl & Hs1 & Hs2 & Hc)]%inject_links & Hends).
    + destruct (proj1 (matched_ends spokes k)) as [(e0 & e1 & Hp & He1 & <-)|(l & r & Hl & Hr & E1 & E2)];
        [eauto| |].
      * apply spoke_edges_ends in He1 as [->|[Hb ->]]; by constructor.
      * destruct k as [a pa b pb]. simpl in *. subst. by constructor.
    + rewrite !elem_of_seenDevices in Hs1, Hs2. rewrite <-Hends.
      destruct Hc as [now [->| ->]]; by constructor.
  - assert ((∃ e, e ∈ matched_edges spokes ∧ ends e = k) → ∃ e, e ∈ fold_left (inject_link clock
        (seenDevices (collect spokes))) (KnownInterDomainLinks cfg) (matched_edges spokes) ∧
        ends e = k) as Hin by (intros (e & He & Hk); exists e; auto using inject_links_mono).
    rewrite matched_ends in Hin.
    destruct 1 as [e Hp|e Hp Hb|a b l r Hl Hr|l Hl H1 H2|l Hl H1 H2].
    + apply Hin. left. exists e, e. rewrite spoke_edges_ends. auto.
    + apply Hin. left. exists e, (swap_endpoints e). rewrite spoke_edges_ends. auto.
    + apply Hin. right. by exists l, r.
    + destruct (inject_links_total clock (seenDevices (collect spokes)) (KnownInterDomainLinks cfg)
        (matched_edges spokes) l) as (now & Ha & Hb'); [done|by apply elem_of_seenDevices..|].
      eexists. split; [exact Ha|done].
    + destruct (inject_links_total clock (seenDevices (collect spokes)) (KnownInterDomainLinks cfg)
        (matched_edges spokes) l) as (now & Ha & Hb'); [done|by apply elem_of_seenDevices..|].
      eexists. split; [exact Hb'|done].
Qed.

(** An edge of the list the reconciler sees has a rank its origin explains. *)
Lemma combined_rank spokes e :
  e ∈ combined_edges cfg clock spokes →
  (∃ e0, pushed sp_Edges spokes e0 ∧ PrecedenceRank e = PrecedenceRank e0) ∨
  PrecedenceRank e = 2 ∨
  (PrecedenceRank e = 0 ∧ DiscoveryProto e = DiscoveryProtocolConfigured ∧
   ∃ l, l ∈ KnownInterDomainLinks cfg ∧ LinkKind e = idl_kind l).
Proof.
  unfold combined_edges. cbv zeta.
  intros [He|(l & Hl & _ & _ & now & [->| ->])]%inject_links; [|eauto 8..].
  apply match_oos_edge in He as [He|[He _]]; [|auto].
  apply elem_of_allEdges in He as (e0 & Hp & He). left. exists e0. split; [done|].
  by apply spoke_edges_ends in He as [->|[_ ->]].
Qed.

(** The devices: the first spoke in name order keeps a device. *)
Lemma first_spoke (spokes : gmap string spokeEntry) ks s d :
  StronglySorted (Rle str_le) ks →
  d ∈ dedup_from ID s (omap (λ sk, spokes !! sk) ks ≫= (λ en, sp_Devices (payload en))) →
  ∃ id en, id ∈ ks ∧ spokes !! id = Some en ∧ d ∈ sp_Devices (payload en) ∧
    ∀ id' en' d', id' ∈ ks → spokes !! id' = Some en' → d' ∈ sp_Devices (payload en') →
      ID d' = ID d → str_le id id' = true.
Proof.
  intros Hs. revert s. induction Hs as [|k ks Hs IH Hk]; intros s; csimpl; [set_solver|].
  assert (∀ s', d ∈ dedup_from ID s' (omap (λ sk, spokes !! sk) ks ≫= (λ en, sp_Devices (payload en))) →
    (∀ en d', spokes !! k = Some en → d' ∈ sp_Devices (payload en) → ID d' ≠ ID d) →
    ∃ id en, id ∈ k :: ks ∧ spokes !! id = Some en ∧ d ∈ sp_Devices (payload en) ∧
      ∀ id' en' d', id' ∈ k :: ks → spokes !! id' = Some en' → d' ∈ sp_Devices (payload en') →
      ID d' = ID d → str_le id id' = true) as Hrest.
  { intros s' (id & en & Hin & Hl & Hd & Hmin)%IH Hno. exists id, en. split; [set_solver|].
    do 2 (split; [done|]). intros id' en' d' [->|Hin']%elem_of_cons Hl' Hd' Hid; [|eauto].
    by destruct (Hno en' d' Hl' Hd'). }
  destruct (spokes !! k) as [en|] eqn:Hlk; [|intros Hd; apply (Hrest s Hd); naive_solver].
  csimpl. rewrite dedup_from_app, elem_of_app. intros [Hd|Hd].
  - exists k, en. split; [set_solver|]. split; [done|]. split; [by apply dedup_from_elem in Hd as [? _]|].
    intros id' en' d' [->|Hin']%elem_of_cons _ _ _; [apply str_le_refl|].
    rewrite Forall_forall in Hk. by apply Hk.
  - apply (Hrest _ Hd). intros en' d' [= <-] Hd' Hid.
    apply dedup_from_elem in Hd as [_ Hd]. apply Hd, elem_of_union_l, elem_of_list_to_set.
    rewrite <-Hid. apply list_elem_of_fmap. eauto.
Qed.
End Sources.

Lemma build_devices `{U : Unicode} (MR : MapRange) (R : Reconciler) (cfg : FederationConfig)
    (clock : nat → time) (spokes : gmap string spokeEntry) :
  let devs := Devices (buildCombinedGraph cfg clock spokes).1 in
  NoDup (ID <$> devs) ∧
  (∀ id, id ∈ ID <$> devs ↔ known spokes id) ∧
  (∀ d, d ∈ devs → ∃ id en, spokes !! id = Some en ∧ d ∈ sp_Devices (payload en) ∧
     ∀ id' en' d', spokes !! id' = Some en' → d' ∈ sp_Devices (payload en') → ID d' = ID d →
       str_le id id' = true).
Proof.
  unfold buildCombinedGraph. cbv zeta. cbn [fst Devices]. rewrite collect_spec. cbn [allDevices].
  split; [apply dedup_by_NoDup|]. split.
  - intros id. rewrite dedup_by_keys, list_elem_of_fmap. unfold known.
    setoid_rewrite elem_of_device_list. naive_solver.
  - intros d Hd. apply first_spoke in Hd as (id & en & _ & Hl & Hd & Hmin).
    + exists id, en. do 2 (split; [done|]). intros id' en' d' Hl' Hd' Hid.
      eapply Hmin; [apply elem_of_spokeKeys|..]; eauto.
    + apply sort_by_StronglySorted; [apply str_le_trans|apply str_le_total].
Qed.

Lemma build_links `{U : Unicode} (MR : MapRange) (R : Reconciler) `{!ReconcilerSpec R}
    (cfg : FederationConfig) (clock : nat → time) (spokes : gmap string spokeEntry) :
  let es := Edges (buildCombinedGraph cfg clock spokes).1 in
  let seen_from o k := source cfg spokes (ends o) ∧ keyable o = true ∧ normalizedGroupKey o = k in
  NoDup (Key <$> es) ∧
  (∀ k, k ∈ Key <$> es ↔ ∃ o, seen_from o k) ∧
  (∀ e, e ∈ es →
     (Direction e = DirectionBidirectional ↔
      ∃ o1 o2, seen_from o1 (Key e) ∧ seen_from o2 (Key e) ∧
        SrcDevice o1 = k_SrcDevice (Key e) ∧ SrcDevice o2 = k_DstDevice (Key e))).
Proof.
  cbv zeta. unfold buildCombinedGraph. cbv zeta. cbn [fst Edges].
  change (fold_left _ _ _) with (combined_edges cfg clock spokes).
  assert (∀ k dev, (∃ o, o ∈ observations k (combined_edges cfg clock spokes) ∧ SrcDevice o = dev) ↔
    ∃ o, (source cfg spokes (ends o) ∧ keyable o = true ∧ normalizedGroupKey o = k) ∧
         SrcDevice o = dev) as Hobs.
  { intros k dev. split.
    - intros (o & (Ho & Hk & Hg)%elem_of_observations & Hd). exists o. split; [|done].
      split; [|done]. apply (combined_ends cfg clock). eauto.
    - intros (o & (Hs & Hk & Hg) & Hd). apply (combined_ends cfg clock) in Hs as (e & He & Hends).
      destruct (ends_determine _ _ Hends) as (Hk' & Hg' & Hd'). exists e.
      rewrite elem_of_observations. split_and!; congruence. }
  split; [apply rc_unique|]. split.
  - intros k. rewrite list_elem_of_fmap.
    trans (∃ e, e ∈ (reconcile (combined_edges cfg clock spokes)).1 ∧ Key e = k); [naive_solver|].
    rewrite rc_links. split.
    + intros Hne. destruct (observations k _) as [|o l] eqn:Ho; [done|].
      destruct (proj1 (Hobs k (SrcDevice o))) as (o' & Ho' & _); [|eauto].
      exists o. rewrite Ho. split; [apply list_elem_of_here|done].
    + intros (o & Ho) Hnil. destruct (proj2 (Hobs k (SrcDevice o))) as (e & He & _); [eauto|].
      rewrite Hnil in He. set_solver.
  - intros e He. rewrite rc_direction by done. unfold confirmed.
    rewrite andb_true_iff, !bool_decide_eq_true, !list_elem_of_fmap.
    destruct (Hobs (Key e) (k_SrcDevice (Key e))) as [S1 S2].
    destruct (Hobs (Key e) (k_DstDevice (Key e))) as [D1 D2]. split.
    + intros [(o1 & E1 & H1) (o2 & E2 & H2)].
      destruct S1 as (o1' & Ho1 & Hd1); [by exists o1|].
      destruct D1 as (o2' & Ho2 & Hd2); [by exists o2|]. by exists o1', o2'.
    + intros (o1 & o2 & Ho1 & Ho2 & Hd1 & Hd2).
      destruct S2 as (o1' & H1 & E1); [by exists o1|].
      destruct D2 as (o2' & H2 & E2); [by exists o2|]. split; [by exists o1'|by exists o2'].
Qed.

(** ** Properties *)

(** the devices of the combined graph: every device ID some spoke pushed occurs
    once, and the record kept is the one of the spoke that comes first in name
    order among the spokes that pushed it. *)
Theorem merge_devices `{U : Unicode} (MR : MapRange) (R : Reconciler) (cfg : FederationConfig)
    (clock : nat → time) (spokes : gmap string spokeEntry) :
  let devs := Devices (buildCombinedGraph cfg clock spokes).1 in
  NoDup (ID <$> devs) ∧
  (∀ id, id ∈ ID <$> devs ↔ known spokes id) ∧
  (∀ d, d ∈ devs → ∃ id en, spokes !! id = Some en ∧ d ∈ sp_Devices (payload en) ∧
     ∀ id' en' d', spokes !! id' = Some en' → d' ∈ sp_Devices (payload en') → ID d' = ID d →
       str_le id id' = true).
Proof. apply build_devices. Qed.

(** C11: the links of the combined graph are exactly those the registry and the
    configuration justify, and each is bidirectional exactly when both of its ends
    are justified: by a pushed edge, by the reverse of a bidirectional one, by a
    pair of reciprocal out-of-scope observations, or by a configured link between
    known devices.  None of it depends on the iteration orders or on the clock. *)
Theorem merge_links_exact `{U : Unicode} (MR : MapRange) (R : Reconciler) `{!ReconcilerSpec R}
    (cfg : FederationConfig) (clock : nat → time) (spokes : gmap string spokeEntry) :
  let es := Edges (buildCombinedGraph cfg clock spokes).1 in
  let seen_from o k := source cfg spokes (ends o) ∧ keyable o = true ∧ normalizedGroupKey o = k in
  NoDup (Key <$> es) ∧
  (∀ k, k ∈ Key <$> es ↔ ∃ o, seen_from o k) ∧
  (∀ e, e ∈ es →
     (Direction e = DirectionBidirectional ↔
      ∃ o1 o2, seen_from o1 (Key e) ∧ seen_from o2 (Key e) ∧
        SrcDevice o1 = k_SrcDevice (Key e) ∧ SrcDevice o2 = k_DstDevice (Key e))).
Proof. by apply build_links. Qed.

(** a configured inter-domain link between two known devices is always in the
    combined graph, bidirectional, with protocol [configured] and a configured
    kind, as long as the spokes push no rank at or below zero for their edges. *)
Theorem merge_configured_links_win `{U : Unicode} (MR : MapRange) (R : Reconciler)
    `{!ReconcilerSpec R} (cfg : FederationConfig) (clock : nat → time)
    (spokes : gmap string spokeEntry) (l : InterDomainLink) (o : Edge) :
  l ∈ KnownInterDomainLinks cfg → known spokes (LocalDevice l) → known spokes (RemoteDevice l) →
  ends o = mkEdgeKey (LocalDevice l) (LocalPort l) (RemoteDevice l) (RemotePort l) →
  keyable o = true →
  (∀ e, pushed sp_Edges spokes e → 0 < PrecedenceRank e) →
  ∃ e, e ∈ Edges (buildCombinedGraph cfg clock spokes).1 ∧ Key e = normalizedGroupKey o ∧
    DiscoveryProto e = DiscoveryProtocolConfigured ∧ Direction e = DirectionBidirectional ∧
    ∃ l', l' ∈ KnownInterDomainLinks cfg ∧ LinkKind e = idl_kind l'.
Proof.
  intros Hl H1 H2 Hends Hkey Hrank. unfold buildCombinedGraph. cbv zeta. cbn [fst Edges].
  change (fold_left _ _ _) with (combined_edges cfg clock spokes).
  destruct (inject_links_total clock (seenDevices (collect spokes)) (KnownInterDomainLinks cfg)
    (m_edges (match_oos clock (oosIndex cfg spokes) (allEdges (collect spokes)))) l Hl)
    as (now & Ha & Hb); [by apply elem_of_seenDevices..|].
  change (fold_left _ _ _) with (combined_edges cfg clock spokes) in Ha, Hb. cbv zeta in Ha, Hb.
  set (fwd := base_edge (LocalDevice l) _ _ _ _ _ _ _ _) in Ha.
  set (rev := base_edge (RemoteDevice l) _ _ _ _ _ _ _ _) in Hb.
  assert (fwd ∈ observations (normalizedGroupKey o) (combined_edges cfg clock spokes)) as Hfwd.
  { destruct (ends_determine o fwd Hends) as (Hk' & Hg' & _).
    rewrite elem_of_observations. split_and!; congruence. }
  assert (rev ∈ observations (normalizedGroupKey o) (combined_edges cfg clock spokes)) as Hrev.
  { destruct (ends_determine o (swap_endpoints rev) Hends) as (Hk' & Hg' & _).
    rewrite elem_of_observations. split; [done|].
    rewrite Hk', keyable_swap in Hkey. rewrite Hg', normalizedGroupKey_swap. done. }
  destruct (proj2 (rc_links (combined_edges cfg clock spokes) (normalizedGroupKey o))) as (e & He & Hk).
  { intros Hnil. rewrite Hnil in Hfwd. by apply not_elem_of_nil in Hfwd. }
  exists e. do 2 (split; [done|]). rewrite rc_direction by done.
  destruct (rc_best _ _ He) as (w & Hw & Hp & Hr & Hlk & Hmin & _). rewrite Hk in Hw, Hmin |- *.
  assert (PrecedenceRank w ≤ 0) as Hle by (apply (Hmin fwd Hfwd)).
  apply elem_of_observations in Hw as (Hw & _).
  apply combined_rank in Hw as [(e0 & He0 & Hr0)|[Hr0|(Hr0 & Hp0 & Hl0)]]; [|lia|].
  { specialize (Hrank e0 He0). lia. }
  rewrite Hp, Hlk. split_and!; [done| |done].
  assert (SrcDevice o = LocalDevice l ∧ DstDevice o = RemoteDevice l) as [Hs Hd]
    by by injection Hends.
  apply andb_true_iff. rewrite !bool_decide_eq_true, !list_elem_of_fmap.
  apply keyable_spec in Hkey as (_ & _ & Hne).
  destruct (normalizedGroupKey_cases o Hne) as [[_ Hg]|[_ Hg]]; rewrite Hg; cbn [k_SrcDevice k_DstDevice];
    rewrite <-Hg, Hs, Hd; split; first [by exists fwd|by exists rev].
Qed.

(** ** Witnesses

    Two domains with one device each: [dc1] sees [edge2] out of scope and [dc2]
    sees [edge1]. *)

Definition oos (dev port hint proto : string) : OutOfScopeNeighbour := mkOOS dev port hint proto 1 1.

Definition domain1 : spokeEntry :=
  mkSpokeEntry (mkSpokePayload "dc1" 10 [plain_device "edge1"; plain_device "core1"]
    [lldp_edge "core1" "Gi0/1" "edge1" "Gi0/2"] [oos "edge1" "Te1/1" "EDGE2" "lldp"]) 10.
Definition domain2 : spokeEntry :=
  mkSpokeEntry (mkSpokePayload "dc2" 10 [plain_device "edge2"] []
    [oos "edge2" "Te2/1" "edge1" "cdp"]) 10.
Definition two_domains : gmap string spokeEntry := {["dc1" := domain1; "dc2" := domain2]}.

Definition wan_link : InterDomainLink := mkIDL "core1" "Hu0/1" "edge2" "Hu0/9" "".

Definition sample_cfg : FederationConfig :=
  mkFederationConfig (180 * Second) [wan_link] 0 0 0 false.

Lemma merge_links_exact_witness :
  let es := Edges (buildCombinedGraph (U:=unicode_table) (MR:=range_std)
    (R:=graph_reconcile (U:=unicode_table) (MR:=range_std)) sample_cfg (λ _, 11) two_domains).1 in
  length es = 3%nat ∧ NoDup (Key <$> es).
Proof.
  split; [vm_compute; reflexivity|].
  exact (proj1 (merge_links_exact (U:=unicode_table) range_std
    (graph_reconcile (U:=unicode_table) (MR:=range_std)) sample_cfg (λ _, 11) two_domains)).
Defined.

Lemma merge_configured_links_win_witness :
  ∃ e, e ∈ Edges (buildCombinedGraph (U:=unicode_table) (MR:=range_std)
      (R:=graph_reconcile (U:=unicode_table) (MR:=range_std)) sample_cfg (λ _, 11) two_domains).1 ∧
    DiscoveryProto e = DiscoveryProtocolConfigured ∧ Direction e = DirectionBidirectional.
Proof.
  destruct (merge_configured_links_win (U:=unicode_table) range_std
    (graph_reconcile (U:=unicode_table) (MR:=range_std)) sample_cfg (λ _, 11) two_domains wan_link
    (lldp_edge "core1" "Hu0/1" "edge2" "Hu0/9")) as (e & He & _ & Hp & Hd & _).
  - apply list_elem_of_here.
  - exists (plain_device "core1"). split; [|reflexivity]. exists "dc1", domain1.
    split; [vm_compute; reflexivity|]. apply list_elem_of_further, list_elem_of_here.
  - exists (plain_device "edge2"). split; [|reflexivity]. exists "dc2", domain2.
    split; [vm_compute; reflexivity|]. apply list_elem_of_here.
  - reflexivity.
  - vm_compute. reflexivity.
  - intros e (id & en & Hl & He).
    unfold two_domains in Hl. apply lookup_insert_Some in Hl as [[_ <-]|[_ Hl]].
    + apply list_elem_of_singleton in He. subst e. vm_compute. reflexivity.
    + apply lookup_singleton_Some in Hl as [_ <-]. apply not_elem_of_nil in He. destruct He.
  - exists e. split; [exact He|]. split; [exact Hp|exact Hd].
Defined.

(** The two domains name different protocols for the matched link: the one that
    is reported follows the iteration order of the index. *)
Example matched_protocol_follows_order :
  let proto MR := (λ e, DiscoveryProto e) <$>
    filter (λ e, SrcDevice e = "edge1") (Edges (buildCombinedGraph (U:=unicode_table) (MR:=MR)
      (R:=graph_reconcile (U:=unicode_table) (MR:=MR)) sample_cfg (λ _, 11) two_domains).1) in
  (proto range_std = ["lldp"] ∧ proto range_rev = ["cdp"]) ∨
  (proto range_std = ["cdp"] ∧ proto range_rev = ["lldp"]).
Proof. vm_compute. auto. Qed.

(** A pushed edge with rank zero, the value an absent JSON field decodes to, takes
    the place of a configured link. *)
Example rank_zero_beats_configured :
  let bgp := mkEdge "core1" "Hu0/1" "edge2" "Hu0/9" DiscoveryProtocolBGP DirectionUnidirectional
               ConfidenceHigh AdjacencyDirect 0 LinkKindIP 1 ∅ in
  let dc1 := mkSpokeEntry (payload_of "dc1" 10 [plain_device "core1"; plain_device "edge2"] [bgp]) 10 in
  DiscoveryProto <$> Edges (buildCombinedGraph (U:=unicode_table) (MR:=range_std)
    (R:=graph_reconcile (U:=unicode_table) (MR:=range_std)) sample_cfg (λ _, 11)
    {["dc1" := dc1]}).1 = [DiscoveryProtocolBGP].
Proof. vm_compute. reflexivity. Qed.
