(* ===== verification/Ambiguity.v ===== *)
(** * internal/federation/hub_merge.go: colliding device names

    Before it matches out-of-scope observations, buildCombinedGraph looks for different raw
    names that the name matching identifies, and warns once per such name.  The warnings do
    not change the graph; they tell the operator that two devices may have been taken for
    one. *)

From Stdlib Require Import ZArith Lia.
From S2P Require Import Prelude GoText Discovery GraphKeys Reconcile HubValidate HubMerge.
Open Scope Z_scope.

Section Ambiguity.
Context `{U : Unicode} `{MR : MapRange} (cfg : FederationConfig).

(** [map[string]map[string]struct{}]. *)
Notation names_by_canonical := (gmap string (gmap string unit)).

Definition add_raw (m : names_by_canonical) (raw : string) : names_by_canonical :=
  let canon := canonicalizeDeviceName cfg raw in
  <[canon := <[raw := tt]> (default ∅ (m !! canon))]> m.

Definition add_observation (m : names_by_canonical) (n : OutOfScopeNeighbour) : names_by_canonical :=
  fold_left add_raw [ReportingDevice n; NeighbourHint n] m.

Definition rawNamesForCanonical (spokes : gmap string spokeEntry) : names_by_canonical :=
  fold_left (λ m '(_, entry), fold_left add_observation (sp_OutOfScope (payload entry)) m) (range_map 10 spokes) ∅.

(** [warnedNames] and the warnings so far: a canonical name with its raw names. *)
Definition warn_name (st : gset string * list (string * list string)) (kv : string * gmap string unit)
  : gset string * list (string * list string) :=
  let '(canon, rawSet) := kv in
  if (1 <? size rawSet)%nat then
    if decide (canon ∈ st.1) then st
    else ({[canon]} ∪ st.1, st.2 ++ [(canon, (range_map 11 rawSet).*1)])
  else st.

Definition ambiguous_names (spokes : gmap string spokeEntry) : list (string * list string) :=
  (fold_left warn_name (range_map 12 (rawNamesForCanonical spokes)) (∅, [])).2.

(** ** Lemmas *)

(** The raw names of the registry's observations. *)
Definition mentioned (spokes : gmap string spokeEntry) (raw : string) : Prop :=
  ∃ n, pushed sp_OutOfScope spokes n ∧ (raw = ReportingDevice n ∨ raw = NeighbourHint n).

Definition raw_names (spokes : gmap string spokeEntry) : list string :=
  range_map 10 spokes ≫= λ '(_, entry), sp_OutOfScope (payload entry) ≫= λ n, [ReportingDevice n; NeighbourHint n].

Lemma rawNames_fold spokes : rawNamesForCanonical spokes = fold_left add_raw (raw_names spokes) ∅.
Proof.
  unfold rawNamesForCanonical, raw_names. rewrite <- fold_left_bind. apply fold_left_ext. intros m [sk entry].
  by rewrite <- fold_left_bind.
Qed.

Lemma elem_of_raw_names spokes raw : raw ∈ raw_names spokes ↔ mentioned spokes raw.
Proof.
  unfold raw_names, mentioned, pushed. rewrite list_elem_of_bind. split.
  - intros ([sk entry] & Hr & Hin%elem_of_range). apply list_elem_of_bind in Hr as (n & Hr & Hn).
    exists n. split; [by exists sk, entry|]. set_solver.
  - intros (n & (sk & entry & Hin & Hn) & Hr). exists (sk, entry). split; [|by apply elem_of_range].
    apply list_elem_of_bind. exists n. split; [|done]. set_solver.
Qed.

(** The map holds, under each canonical name, the raw names that have it; and no empty set. *)
Lemma raw_fold_spec l m canon raw :
  (is_Some (default ∅ (fold_left add_raw l m !! canon) !! raw) ↔
     is_Some (default ∅ (m !! canon) !! raw) ∨ raw ∈ l ∧ canonicalizeDeviceName cfg raw = canon).
Proof.
  revert m. induction l as [|r l IH]; intros m; cbn [fold_left]; [set_solver|]. rewrite IH. unfold add_raw.
  destruct (decide (canonicalizeDeviceName cfg r = canon)) as [<-|Hne].
  - rewrite lookup_insert_eq. cbn [from_option id]. destruct (decide (r = raw)) as [->|Hr].
    + rewrite lookup_insert_eq, elem_of_cons. naive_solver.
    + rewrite lookup_insert_ne by done. rewrite elem_of_cons. naive_solver.
  - rewrite lookup_insert_ne by done. rewrite elem_of_cons. naive_solver.
Qed.

Lemma raw_set spokes canon rawSet :
  rawNamesForCanonical spokes !! canon = Some rawSet →
  ∀ raw, is_Some (rawSet !! raw) ↔ mentioned spokes raw ∧ canonicalizeDeviceName cfg raw = canon.
Proof.
  intros Hm raw. pose proof (raw_fold_spec (raw_names spokes) ∅ canon raw) as Hs. rewrite <- rawNames_fold, Hm in Hs.
  cbn [from_option id] in Hs. rewrite Hs, lookup_empty, elem_of_raw_names. cbn [from_option id]. rewrite lookup_empty.
  split; [intros [[? ?]|?]; done|by right].
Qed.

(** A map has two keys or more exactly when two of its keys differ. *)
Lemma size_two (m : gmap string unit) : (1 < size m)%nat ↔ ∃ a b, a ≠ b ∧ is_Some (m !! a) ∧ is_Some (m !! b).
Proof.
  rewrite <- size_dom. split.
  - intros Hs. destruct (elements (dom m)) as [|a [|b l]] eqn:He.
    1, 2: unfold size, set_size in Hs; cbn in Hs; rewrite He in Hs; cbn in Hs; lia.
    pose proof (NoDup_elements (dom m)) as Hnd. rewrite He in Hnd. apply NoDup_cons in Hnd as [Ha _].
    exists a, b. split_and!; [set_solver|apply elem_of_dom, elem_of_elements; rewrite He; set_solver..].
  - intros (a & b & Hab & Ha%elem_of_dom & Hb%elem_of_dom).
    assert ({[a; b]} ⊆ dom m) as Hsub by set_solver. apply subseteq_size in Hsub.
    rewrite size_union, !size_singleton in Hsub by set_solver. lia.
Qed.

(** The loop that warns, over entries with different names. *)
Lemma warn_fold l st :
  NoDup l.*1 → (∀ k, k ∈ l.*1 → k ∉ st.1) →
  (fold_left warn_name l st).2 =
  st.2 ++ ((λ kv, (kv.1, (range_map 11 kv.2).*1)) <$> filter (λ kv, (1 < size kv.2)%nat) l).
Proof.
  revert st. induction l as [|[canon rs] l IH]; intros [warned ws] Hnd Hw; cbn [fold_left].
  { by rewrite app_nil_r. }
  cbn [fmap list_fmap fst] in Hnd. apply NoDup_cons in Hnd as [Hc Hnd]. unfold warn_name at 2. cbn [fst snd] in *.
  rewrite filter_cons. cbn [snd]. destruct (Nat.ltb_spec 1 (size rs)) as [Hs|Hs].
  - rewrite decide_False by (apply Hw; left). rewrite decide_True by done. rewrite IH; [|done|].
    + cbn [snd]. by rewrite <- app_assoc.
    + intros k Hk. cbn [fst]. assert (k ∉ warned) by (apply Hw; by right). assert (k ≠ canon) by (intros ->; done). set_solver.
  - rewrite decide_False by lia. apply IH; [done|]. intros k Hk. apply Hw. by right.
Qed.

Lemma ambiguous_names_eq spokes :
  ambiguous_names spokes =
  (λ kv, (kv.1, (range_map 11 kv.2).*1)) <$> filter (λ kv, (1 < size kv.2)%nat) (range_map 12 (rawNamesForCanonical spokes)).
Proof. unfold ambiguous_names. rewrite warn_fold; [reflexivity|apply range_NoDup|]. intros k _. cbn. set_solver. Qed.

(** ** Claims *)

(** the warnings about colliding names are exact, for any iteration order.  There is
    one warning per canonical name that two different raw names of the reported
    observations share, none for another name, and it lists exactly the raw names that
    share it, each once. *)
Theorem ambiguity_warnings_exact (spokes : gmap string spokeEntry) :
  NoDup (ambiguous_names spokes).*1 ∧
  (∀ canon, canon ∈ (ambiguous_names spokes).*1 ↔
     ∃ a b, a ≠ b ∧ mentioned spokes a ∧ mentioned spokes b ∧
       canonicalizeDeviceName cfg a = canon ∧ canonicalizeDeviceName cfg b = canon) ∧
  (∀ canon raws, (canon, raws) ∈ ambiguous_names spokes →
     NoDup raws ∧ ∀ raw, raw ∈ raws ↔ mentioned spokes raw ∧ canonicalizeDeviceName cfg raw = canon).
Proof.
  rewrite ambiguous_names_eq. split_and!.
  - rewrite <- list_fmap_compose. apply NoDup_fmap_filter, range_NoDup.
  - intros canon. rewrite <- list_fmap_compose, list_elem_of_fmap. split.
    + intros ([k rs] & -> & [Hs Hin%elem_of_range]%list_elem_of_filter). cbn in *.
      apply size_two in Hs as (a & b & Hab & Ha & Hb).
      apply (raw_set _ _ _ Hin) in Ha as [? ?]. apply (raw_set _ _ _ Hin) in Hb as [? ?]. exists a, b. done.
    + intros (a & b & Hab & Ha & Hb & Ca & Cb).
      pose proof (raw_fold_spec (raw_names spokes) ∅ canon a) as Hs. rewrite <- rawNames_fold, elem_of_raw_names in Hs.
      destruct (rawNamesForCanonical spokes !! canon) as [rs|] eqn:Hm; cycle 1.
      { destruct (proj2 Hs) as [? H]; [by right|]. cbn in H. by rewrite lookup_empty in H. }
      exists (canon, rs). split; [done|]. apply list_elem_of_filter. split; [|by apply elem_of_range]. cbn.
      apply size_two. exists a, b. split_and!; [done|by apply (raw_set _ _ _ Hm)..].
  - intros canon raws ([k rs] & [= -> ->] & [Hs Hin%elem_of_range]%list_elem_of_filter)%list_elem_of_fmap. cbn in *.
    split; [apply range_NoDup|]. intros raw. rewrite <- (raw_set _ _ _ Hin raw), list_elem_of_fmap. split.
    + intros ([r []] & -> & Hr%elem_of_range). eauto.
    + intros [[] Hr]. exists (raw, tt). split; [done|]. by apply elem_of_range.
Qed.
End Ambiguity.

(** The names need not denote two devices: the same name in another case, or with and
    without its domain, is warned about as well. *)
Example case_variant_is_warned :
  ambiguous_names (U:=unicode_table) (MR:=range_std) sample_cfg two_domains = [("edge2", ["edge2"; "EDGE2"])] ∨
  ambiguous_names (U:=unicode_table) (MR:=range_std) sample_cfg two_domains = [("edge2", ["EDGE2"; "edge2"])].
Proof. vm_compute. auto. Qed.
