(* ===== verification/Hub.v ===== *)
(** * internal/federation: the hub

    hub.go, hub_push.go, hub_publish.go and hub_eviction.go.  A push is handled in
    three parts: the checks that read nothing but the request and the leader flag,
    the registration under the lock (rate limit, copy of the registry, generation),
    and the commit under the lock.  The combined graph is built between the two
    locked parts, so that other requests and the eviction tick may run in between;
    [step] is the relation of those interleavings.

    The decoding of the body (gzip, encoding/json) is an input of the model: a
    request carries what the decoder returned. *)

From Stdlib Require Import ZArith Lia Ascii.
From S2P Require Import Prelude GoText Discovery GraphKeys Reconcile Limits HubValidate HubMerge.
Open Scope Z_scope.

(** ** Responses *)

Inductive response :=
  | NoContent
  | HttpError (code : Z)
  | TooManyRequests (retryAfter : Z)
  | PushRejection (code : Z) (reason : RejectReason).

Definition StatusBadRequest : Z := 400.
Definition StatusForbidden : Z := 403.
Definition StatusMethodNotAllowed : Z := 405.
Definition StatusConflict : Z := 409.
Definition StatusRequestEntityTooLarge : Z := 413.
Definition StatusUnsupportedMediaType : Z := 415.
Definition StatusServiceUnavailable : Z := 503.

Definition statusForRejectReason (r : RejectReason) : Z :=
  match r with
  | RejectReasonSizeBudgetExceeded => StatusRequestEntityTooLarge
  | RejectReasonStaleGeneration => StatusConflict
  | RejectReasonInvalidLabelKey | RejectReasonInvalidLabelValue
  | RejectReasonStructuralInvalid => StatusBadRequest
  end.

(** ** The request *)

Inductive decoded :=
  | Decoded (p : SpokePayload)
  | WireTooLarge
  | InflatedTooLarge
  | BadGzip
  | BadJSON.

Record request := mkRequest {
  Method : string;
  ContentEncoding : string;
  Body : decoded;
  PeerCN : option string
}.

Definition maxDevicesPerPush : Z := 10000.
Definition maxEdgesPerPush : Z := 50000.
Definition maxPushPayloadBytes : Z := 33554432.

(** [cappedReader.Read(p)] over a reader that has [avail] bytes left and returns
    at most what it is asked for: the bytes read, or the sentinel error. *)
Definition cappedReader_Read (n : Z) (lenp avail : Z) : option Z * Z :=
  if n <=? 0 then (None, n)
  else
    let want := if n <? lenp then n else lenp in
    let rn := Z.min want avail in
    (Some rn, n - rn).

Definition zlength {A} (l : list A) : Z := Z.of_nat (length l).

Definition spoke_id_rune (c : rune) : bool :=
  in_range 97 122 c || in_range 65 90 c || in_range 48 57 c
  || (c =? 45) || (c =? 95) || (c =? 46).

Section Admission.
Context `{MR : MapRange} (cfg : FederationConfig).

Definition decode_body (req : request) : response + SpokePayload :=
  let enc := ContentEncoding req in
  if bool_decide (enc = "") || bool_decide (enc = "identity") || bool_decide (enc = "gzip") then
    if bool_decide (enc = "gzip") && (match Body req with BadGzip => true | _ => false end)
    then inl (HttpError StatusBadRequest)
    else match Body req with
         | Decoded p => inr p
         | WireTooLarge => inl (HttpError StatusRequestEntityTooLarge)
         | InflatedTooLarge => inl (HttpError StatusRequestEntityTooLarge)
         | BadGzip | BadJSON => inl (HttpError StatusBadRequest)
         end
  else inl (HttpError StatusUnsupportedMediaType).

Definition check_spoke_id (id : string) : response + unit :=
  guard bool_decide (id = "") else HttpError StatusBadRequest;
  guard exceeds 128 id else HttpError StatusBadRequest;
  guard negb (forallb spoke_id_rune (runes_of id)) else HttpError StatusBadRequest;
  inr tt.

Definition check_cn (cn : option string) (id : string) : response + unit :=
  match cn with
  | Some c => guard bool_decide (c ≠ id) else HttpError StatusForbidden; inr tt
  | None => inr tt
  end.

Definition check_cycle_at (now cycleAt : time) : response + unit :=
  guard cycleAt =? 0 else HttpError StatusBadRequest;
  guard now + 5 * Minute <? cycleAt else HttpError StatusBadRequest;
  guard SpokeTimeout cfg <? time_Sub now cycleAt else HttpError StatusBadRequest;
  inr tt.

(** The part of [handlePush] before the lock: the payload that goes on, or the
    response, with the reject reason that is counted. *)
Definition admit_push (isLeader : bool) (now : time) (req : request)
  : (response * option RejectReason) + SpokePayload :=
  let plain {A} (v : response + A) : (response * option RejectReason) + A :=
    match v with inl r => inl (r, None) | inr a => inr a end in
  guard bool_decide (Method req ≠ "POST") else (HttpError StatusMethodNotAllowed, None);
  guard negb isLeader else (HttpError StatusServiceUnavailable, None);
  do p <- plain (decode_body req);
  guard (maxDevicesPerPush <? zlength (sp_Devices p)) || (maxEdgesPerPush <? zlength (sp_Edges p))
    else (HttpError StatusRequestEntityTooLarge, None);
  do _ <- (match validateSpokePayload p with
           | inl r => inl (PushRejection StatusBadRequest r, Some r)
           | inr u => inr u
           end);
  do _ <- plain (check_spoke_id (SpokeID p));
  do _ <- plain (check_cn (PeerCN req) (SpokeID p));
  do _ <- plain (check_cycle_at now (CycleAt p));
  inr p.
End Admission.

(** ** The state of the hub *)

(** The gauges and counters the hub writes. *)
Record hub_metrics := mkHubMetrics {
  GraphStale : bool;
  Topology : Graph;
  FederationSpokeUp : gset string;
  FederationSpokeLastPushUnix : gmap string Z;
  HubOOSUnmatchedTotal : Z;
  GraphUpdatesRejectedTotal : list RejectReason;
  SnapshotQueueFull : nat
}.

Record Hub := mkHub {
  spokes : gmap string spokeEntry;
  publishGen : Z;
  lastPublishedGen : Z;
  firstLive : bool;
  isLeader : bool;
  leaseEpoch : Z;
  snapshotCh : option (list Graph);
  mx : hub_metrics
}.

Definition set_spokes (h : Hub) s : Hub :=
  mkHub s (publishGen h) (lastPublishedGen h) (firstLive h) (isLeader h) (leaseEpoch h) (snapshotCh h) (mx h).
Definition set_mx (h : Hub) m : Hub :=
  mkHub (spokes h) (publishGen h) (lastPublishedGen h) (firstLive h) (isLeader h) (leaseEpoch h) (snapshotCh h) m.
Definition set_publishGen (h : Hub) g : Hub :=
  mkHub (spokes h) g (lastPublishedGen h) (firstLive h) (isLeader h) (leaseEpoch h) (snapshotCh h) (mx h).
Definition set_snapshotCh (h : Hub) q : Hub :=
  mkHub (spokes h) (publishGen h) (lastPublishedGen h) (firstLive h) (isLeader h) (leaseEpoch h) q (mx h).

Definition empty_metrics : hub_metrics := mkHubMetrics false (mkGraph [] [] []) ∅ ∅ 0 [] 0.

Definition NewHub (snapshotPath : string) : Hub :=
  mkHub ∅ 0 0 false true 0 (if bool_decide (snapshotPath = "") then None else Some []) empty_metrics.

Definition IsReady (h : Hub) : bool := firstLive h && isLeader h.

Definition SetLeader (v : bool) (h : Hub) : Hub :=
  mkHub (spokes h) (publishGen h) (lastPublishedGen h) (firstLive h) v (leaseEpoch h) (snapshotCh h) (mx h).

Definition SetLeaseEpoch (e : Z) (h : Hub) : Hub :=
  mkHub (spokes h) (publishGen h) (lastPublishedGen h) (firstLive h) (isLeader h) e (snapshotCh h) (mx h).

Definition publishMetrics (g : Graph) (clearStale : bool) (m : hub_metrics) : hub_metrics :=
  mkHubMetrics (if clearStale then false else GraphStale m) g (FederationSpokeUp m)
    (FederationSpokeLastPushUnix m) (HubOOSUnmatchedTotal m) (GraphUpdatesRejectedTotal m)
    (SnapshotQueueFull m).

Definition RestoreGraph (g : Graph) (h : Hub) : Hub := set_mx h (publishMetrics g false (mx h)).

Definition count_reject (r : RejectReason) (m : hub_metrics) : hub_metrics :=
  mkHubMetrics (GraphStale m) (Topology m) (FederationSpokeUp m) (FederationSpokeLastPushUnix m)
    (HubOOSUnmatchedTotal m) (GraphUpdatesRejectedTotal m ++ [r]) (SnapshotQueueFull m).

(** ** Publication *)

(** [publishGen.Add(1)] on a [uint64]. *)
Definition next_gen (g : Z) : Z := (g + 1) mod 2 ^ 64.

(** [t.Unix()]: whole seconds since the epoch, here since Go's zero time. *)
Definition unix (t : time) : Z := t / Second.

Record acceptedPush := mkAcceptedPush { ap_id : string; ap_entry : spokeEntry }.

Definition over_budget (cfg : FederationConfig) (g : Graph) : bool :=
  ((0 <? MaxGraphEdges cfg) && (MaxGraphEdges cfg <? zlength (Edges g)))
  || ((0 <? MaxGraphDevices cfg) && (MaxGraphDevices cfg <? zlength (Devices g))).

(** The registration of a spoke with its liveness gauges. *)
Definition commit_spoke (a : acceptedPush) (h : Hub) : Hub :=
  let m := mx h in
  mkHub (<[ap_id a := ap_entry a]> (spokes h)) (publishGen h) (lastPublishedGen h)
    true (isLeader h) (leaseEpoch h) (snapshotCh h)
    (mkHubMetrics (if firstLive h then GraphStale m else false) (Topology m)
       ({[ap_id a]} ∪ FederationSpokeUp m)
       (<[ap_id a := unix (lastSeen (ap_entry a))]> (FederationSpokeLastPushUnix m))
       (HubOOSUnmatchedTotal m) (GraphUpdatesRejectedTotal m) (SnapshotQueueFull m)).

Definition publish_graph (gen : Z) (g : Graph) (unmatched : Z) (h : Hub) : Hub :=
  let m := mx h in
  mkHub (spokes h) (publishGen h) gen (firstLive h) (isLeader h) (leaseEpoch h) (snapshotCh h)
    (mkHubMetrics (GraphStale m) g (FederationSpokeUp m) (FederationSpokeLastPushUnix m)
       unmatched (GraphUpdatesRejectedTotal m) (SnapshotQueueFull m)).

(** [publishIfWinner]: entirely under the lock. *)
Definition publishIfWinner (cfg : FederationConfig) (gen : Z) (g : Graph) (unmatched : Z)
    (accepted : option acceptedPush) (h : Hub) : Hub * option RejectReason :=
  if gen <=? lastPublishedGen h then (h, Some RejectReasonStaleGeneration)
  else if over_budget cfg g
  then (set_mx h (count_reject RejectReasonSizeBudgetExceeded (mx h)),
        Some RejectReasonSizeBudgetExceeded)
  else
    let h := match accepted with None => h | Some a => commit_spoke a h end in
    (publish_graph gen g unmatched h, None).

(** [writeSnapshotAsync]: a queue of one graph; a full queue drops. *)
Definition writeSnapshotAsync (g : Graph) (h : Hub) : Hub :=
  match snapshotCh h with
  | None => h
  | Some [] => set_snapshotCh h (Some [g])
  | Some _ =>
      let m := mx h in
      set_mx h (mkHubMetrics (GraphStale m) (Topology m) (FederationSpokeUp m)
        (FederationSpokeLastPushUnix m) (HubOOSUnmatchedTotal m) (GraphUpdatesRejectedTotal m)
        (S (SnapshotQueueFull m)))
  end.

(** ** The locked parts of handlePush *)

(** A build between the two locked parts: the generation it holds, the registry it
    was built from, and the push it would commit. *)
Record flight := mkFlight {
  f_gen : Z;
  f_candidate : gmap string spokeEntry;
  f_accepted : option acceptedPush
}.

Definition retry_after (cfg : FederationConfig) (sinceLast : duration) : Z :=
  Z.max 1 (Z.quot (MinPushInterval cfg - sinceLast) Second).

Definition too_soon (cfg : FederationConfig) (now : time) (prev : option spokeEntry) : option Z :=
  match prev with
  | Some e =>
      let sinceLast := time_Sub now (lastSeen e) in
      if (0 <? MinPushInterval cfg) && (sinceLast <? MinPushInterval cfg)
      then Some (retry_after cfg sinceLast) else None
  | None => None
  end.

Definition begin_push (cfg : FederationConfig) (now : time) (p : SpokePayload) (h : Hub)
  : response + (Hub * flight) :=
  match too_soon cfg now (spokes h !! SpokeID p) with
  | Some secs => inl (TooManyRequests secs)
  | None =>
      let entry := mkSpokeEntry p now in
      let candidate := <[SpokeID p := entry]> (spokesSnapshot (spokes h)) in
      let gen := next_gen (publishGen h) in
      inr (set_publishGen h gen,
           mkFlight gen candidate (Some (mkAcceptedPush (SpokeID p) entry)))
  end.

(** The commit, once the graph of the flight is built. *)
Definition finish_flight (cfg : FederationConfig) (f : flight) (g : Graph) (unmatched : Z) (h : Hub)
  : Hub * response :=
  let '(h', rejected) := publishIfWinner cfg (f_gen f) g unmatched (f_accepted f) h in
  match rejected with
  | None => (writeSnapshotAsync g h', NoContent)
  | Some r => (h', PushRejection (statusForRejectReason r) r)
  end.

(** ** Eviction *)

Definition silent (cfg : FederationConfig) (now : time) (e : spokeEntry) : bool :=
  SpokeTimeout cfg <? time_Sub now (lastSeen e).

(** The first locked part of [evictSilentSpokes]: the registry entries and their
    gauges go together. *)
Definition evict (cfg : FederationConfig) (now : time) (h : Hub) : Hub * gset string :=
  let evicted := dom (filter (λ kv, silent cfg now kv.2 = true) (spokes h)) in
  let m := mx h in
  (mkHub (filter (λ kv, silent cfg now kv.2 = false) (spokes h)) (publishGen h) (lastPublishedGen h)
     (firstLive h) (isLeader h) (leaseEpoch h) (snapshotCh h)
     (mkHubMetrics (GraphStale m) (Topology m) (FederationSpokeUp m ∖ evicted)
        (filter (λ kv, kv.1 ∉ evicted) (FederationSpokeLastPushUnix m))
        (HubOOSUnmatchedTotal m) (GraphUpdatesRejectedTotal m) (SnapshotQueueFull m)),
   evicted).

(** The second: a copy of the registry and a generation for the rebuild. *)
Definition begin_rebuild (h : Hub) : Hub * flight :=
  let gen := next_gen (publishGen h) in
  (set_publishGen h gen, mkFlight gen (spokesSnapshot (spokes h)) None).

(** [runEviction] does not start the ticker for a timeout that is not positive. *)
Definition eviction_enabled (cfg : FederationConfig) : bool := 0 <? SpokeTimeout cfg.

(** ** Interleavings *)

Section Steps.
Context `{U : Unicode} (cfg : FederationConfig).

(** A build of a registry: any iteration order, any clock. *)
Definition combines (reg : gmap string spokeEntry) (g : Graph) (unmatched : Z) : Prop :=
  ∃ (MR : MapRange) (clock : nat → time),
    buildCombinedGraph (R:=graph_reconcile) cfg clock reg = (g, unmatched).

(** The hub, the builds that are running, and the evictions whose rebuild has not
    taken its generation yet. *)
Record world := mkWorld {
  hub : Hub;
  flights : list flight;
  rebuilds : nat
}.

Inductive step : world → world → Prop :=
| step_refused (MR : MapRange) now req h fs n resp counted :
    admit_push cfg (isLeader h) now req = inl (resp, counted) →
    step (mkWorld h fs n)
         (mkWorld (match counted with None => h | Some r => set_mx h (count_reject r (mx h)) end) fs n)
| step_limited (MR : MapRange) now req p h fs n resp :
    admit_push cfg (isLeader h) now req = inr p → begin_push cfg now p h = inl resp →
    step (mkWorld h fs n) (mkWorld h fs n)
| step_begin (MR : MapRange) now req p h fs n h' f :
    admit_push cfg (isLeader h) now req = inr p → begin_push cfg now p h = inr (h', f) →
    step (mkWorld h fs n) (mkWorld h' (f :: fs) n)
| step_finish f fs1 fs2 h n g unmatched h' resp :
    combines (f_candidate f) g unmatched →
    finish_flight cfg f g unmatched h = (h', resp) →
    step (mkWorld h (fs1 ++ f :: fs2) n) (mkWorld h' (fs1 ++ fs2) n)
| step_evict now h fs n h' evicted :
    eviction_enabled cfg = true → isLeader h = true → evict cfg now h = (h', evicted) →
    step (mkWorld h fs n) (mkWorld h' fs (if bool_decide (evicted = ∅) then n else S n))
| step_rebuild h fs n h' f :
    begin_rebuild h = (h', f) → step (mkWorld h fs (S n)) (mkWorld h' (f :: fs) n)
| step_leader v h fs n : step (mkWorld h fs n) (mkWorld (SetLeader v h) fs n)
| step_epoch e h fs n : step (mkWorld h fs n) (mkWorld (SetLeaseEpoch e h) fs n)
| step_drain h g q fs n :
    snapshotCh h = Some (g :: q) →
    step (mkWorld h fs n) (mkWorld (set_snapshotCh h (Some q)) fs n).

(** A hub as [NewHub] makes it, with or without a restored graph. *)
Definition initial (h : Hub) : Prop :=
  ∃ path g stale, h = NewHub path ∨
    h = RestoreGraph g (set_mx (NewHub path) (mkHubMetrics stale (mkGraph [] [] []) ∅ ∅ 0 [] 0)).

(** The worlds reachable in a number of steps. *)
Inductive reach : nat → world → Prop :=
| reach_init h : initial h → reach 0 (mkWorld h [] 0)
| reach_step n w w' : reach n w → step w w' → reach (S n) w'.

(** ** The invariant *)

Definition entry_ok (id : string) (e : spokeEntry) : Prop :=
  payload_ok (payload e) ∧ SpokeID (payload e) = id ∧ id ≠ "".

Record flight_ok (h : Hub) (f : flight) : Prop := {
  fo_gen : 0 < f_gen f ≤ publishGen h;
  fo_candidate : map_Forall entry_ok (f_candidate f);
  fo_accepted : ∀ a, f_accepted f = Some a →
    entry_ok (ap_id a) (ap_entry a) ∧ f_candidate f !! ap_id a = Some (ap_entry a)
}.

Record hub_ok (h : Hub) : Prop := {
  ho_gen : 0 ≤ lastPublishedGen h ≤ publishGen h;
  ho_entries : map_Forall entry_ok (spokes h);
  ho_up : FederationSpokeUp (mx h) = dom (spokes h);
  ho_last : FederationSpokeLastPushUnix (mx h) = (λ e, unix (lastSeen e)) <$> spokes h;
  ho_live : firstLive h = true → GraphStale (mx h) = false;
  ho_first : spokes h ≠ ∅ → firstLive h = true;
  ho_budget : 0 < lastPublishedGen h → over_budget cfg (Topology (mx h)) = false;
  ho_queue : ∀ q, snapshotCh h = Some q → (length q ≤ 1)%nat
}.

Record world_ok (n : nat) (w : world) : Prop := {
  wo_hub : hub_ok (hub w);
  wo_count : publishGen (hub w) + Z.of_nat (rebuilds w) ≤ Z.of_nat n;
  wo_flights : Forall (flight_ok (hub w)) (flights w);
  wo_distinct : NoDup (f_gen <$> flights w)
}.

Lemma set_publishGen_ok h g : hub_ok h → publishGen h ≤ g → hub_ok (set_publishGen h g).
Proof. intros [? ? ? ? ? ? ? ?] Hg. split; simpl; try done. lia. Qed.

Lemma flight_ok_mono h h' f : publishGen h ≤ publishGen h' → flight_ok h f → flight_ok h' f.
Proof. intros Hle [? ? ?]. split; try done. lia. Qed.

Lemma flights_mono h h' fs :
  publishGen h ≤ publishGen h' → Forall (flight_ok h) fs → Forall (flight_ok h') fs.
Proof. intros Hle Hf. eapply Forall_impl; [done|]. intros f. by apply flight_ok_mono. Qed.

Lemma next_gen_small g : 0 ≤ g < 2 ^ 64 - 1 → next_gen g = g + 1.
Proof. intros Hg. unfold next_gen. apply Z.mod_small. lia. Qed.

(** *** Admission *)

Lemma admit_push_ok `{MR : MapRange} leader now req p :
  admit_push cfg leader now req = inr p →
  leader = true ∧ payload_ok p ∧ check_spoke_id (SpokeID p) = inr tt ∧
  (∀ cn, PeerCN req = Some cn → cn = SpokeID p) ∧
  CycleAt p ≠ 0 ∧ CycleAt p ≤ now + 5 * Minute ∧ time_Sub now (CycleAt p) ≤ SpokeTimeout cfg ∧
  zlength (sp_Devices p) ≤ maxDevicesPerPush ∧ zlength (sp_Edges p) ≤ maxEdgesPerPush.
Proof.
  unfold admit_push. intros Ha.
  destruct (bool_decide (Method req ≠ "POST")); [done|].
  destruct leader; simpl in Ha; [|done].
  destruct (decode_body req) as [|p']; [done|].
  destruct (_ || _) eqn:Hsize; [done|]. bprop.
  destruct (validateSpokePayload p') as [|[]] eqn:Hv; [done|].
  destruct (check_spoke_id (SpokeID p')) as [|[]] eqn:Hid; [done|].
  destruct (check_cn (PeerCN req) (SpokeID p')) as [|[]] eqn:Hcn; [done|].
  destruct (check_cycle_at cfg now (CycleAt p')) as [|[]] eqn:Hc; [done|].
  injection Ha as <-. apply validateSpokePayload_ok in Hv.
  unfold check_cycle_at in Hc. invert_ok. bprop.
  split_and!; try done.
  intros cn Heq. rewrite Heq in Hcn. unfold check_cn in Hcn. invert_ok. bprop.
  by destruct (decide (cn = SpokeID p')).
Qed.

Lemma check_spoke_id_nonempty id : check_spoke_id id = inr tt → id ≠ "".
Proof. unfold check_spoke_id. intros H. invert_ok. by bprop. Qed.

(** *** Publication *)

Lemma commit_spoke_ok a h :
  hub_ok h → entry_ok (ap_id a) (ap_entry a) → hub_ok (commit_spoke a h).
Proof.
  intros [? ? Hup Hlast ? ? ? ?] He. split; simpl; try done.
  - by apply map_Forall_insert_2.
  - rewrite dom_insert_L, Hup. done.
  - by rewrite Hlast, fmap_insert.
  - intros _. destruct (firstLive h) eqn:Hf; auto.
Qed.

Lemma publish_graph_ok gen g u h :
  hub_ok h → lastPublishedGen h < gen ≤ publishGen h → over_budget cfg g = false →
  hub_ok (publish_graph gen g u h).
Proof. intros [? ? ? ? ? ? ? ?] Hg Hb. split; simpl; try done. lia. Qed.

Lemma publishIfWinner_ok gen g u acc h :
  hub_ok h → gen ≤ publishGen h →
  (∀ a, acc = Some a → entry_ok (ap_id a) (ap_entry a)) →
  hub_ok (publishIfWinner cfg gen g u acc h).1.
Proof.
  intros Hh Hg Hacc. unfold publishIfWinner.
  destruct (gen <=? lastPublishedGen h) eqn:Hle; [done|]. bprop.
  destruct (over_budget cfg g) eqn:Hb; [by destruct Hh|].
  apply publish_graph_ok; [|destruct acc; simpl; lia|done].
  destruct acc; [|done]. apply commit_spoke_ok; auto.
Qed.

Lemma writeSnapshotAsync_ok g h : hub_ok h → hub_ok (writeSnapshotAsync g h).
Proof.
  intros [? ? ? ? ? ? ? Hq]. unfold writeSnapshotAsync.
  destruct (snapshotCh h) as [[|g' q]|] eqn:Hch; split; simpl; try done.
  - intros q [= <-]. simpl. lia.
  - intros q'. rewrite Hch. intros [= <-]. by apply Hq.
  - intros q'. by rewrite Hch.
Qed.

(** The commit changes no generation counter, and lets every flight be. *)
Lemma finish_flight_gen f g u h : publishGen (finish_flight cfg f g u h).1 = publishGen h.
Proof.
  unfold finish_flight, publishIfWinner.
  destruct (f_gen f <=? lastPublishedGen h); [done|].
  destruct (over_budget cfg g); [done|]. simpl. unfold writeSnapshotAsync.
  by destruct (f_accepted f) as [a|]; simpl; destruct (snapshotCh h) as [[|]|].
Qed.

Lemma finish_flight_ok f g u h :
  hub_ok h → flight_ok h f → hub_ok (finish_flight cfg f g u h).1.
Proof.
  intros Hh [Hg _ Ha]. unfold finish_flight.
  assert (hub_ok (publishIfWinner cfg (f_gen f) g u (f_accepted f) h).1) as Hp.
  { apply publishIfWinner_ok; [done|lia|]. intros a Hacc. by apply Ha. }
  destruct (publishIfWinner _ _ _ _ _ _) as [h' [r|]]; simpl in *; [done|].
  by apply writeSnapshotAsync_ok.
Qed.

(** *** Eviction *)

Lemma evict_ok now h : hub_ok h → hub_ok (evict cfg now h).1.
Proof.
  intros [? Hen Hup Hlast ? Hf ? ?]. unfold evict.
  set (ev := dom (filter (λ kv, silent cfg now kv.2 = true) (spokes h))). split; simpl; try done.
  - intros id e [He _]%map_lookup_filter_Some. by apply Hen.
  - rewrite Hup. apply set_eq. intros id. subst ev.
    rewrite elem_of_difference, !elem_of_dom.
    unfold is_Some. setoid_rewrite map_lookup_filter_Some. simpl. split.
    + intros [(e & He) Hn]. exists e. split; [done|].
      destruct (silent cfg now e) eqn:Hs; [|done]. destruct Hn. eauto.
    + intros (e & He & Hs). split; [eauto|]. intros (e' & He' & Hs'). congruence.
  - rewrite Hlast. apply map_eq. intros id. apply option_eq. intros t. subst ev.
    rewrite map_lookup_filter_Some, !lookup_fmap_Some. setoid_rewrite map_lookup_filter_Some. simpl.
    rewrite elem_of_dom. unfold is_Some. setoid_rewrite map_lookup_filter_Some. simpl. split.
    + intros [(e & <- & He) Hn]. exists e. split; [done|]. split; [done|].
      destruct (silent cfg now e) eqn:Hs; [|done]. destruct Hn. eauto.
    + intros (e & <- & He & Hs). split; [eauto|]. intros (e' & He' & Hs'). congruence.
  - intros Hne. apply Hf. intros Heq. apply Hne. rewrite Heq. apply map_filter_empty.
Qed.
End Steps.

(** ** Preservation *)

Section Preservation.
Context `{U : Unicode} (cfg : FederationConfig).

Lemma initial_ok h : initial h → hub_ok cfg h.
Proof.
  intros (path & g & stale & [->| ->]); split; simpl; try done;
    try (by intros q; case_bool_decide; intros [= <-]; simpl; lia).
Qed.

Lemma begin_push_flight now p h h' f :
  hub_ok cfg h → publishGen h < 2 ^ 64 - 1 → payload_ok p → SpokeID p ≠ "" →
  begin_push cfg now p h = inr (h', f) →
  h' = set_publishGen h (publishGen h + 1) ∧ f_gen f = publishGen h + 1 ∧ flight_ok h' f.
Proof.
  intros Hh Hlt Hp Hid Hb. pose proof (ho_gen _ _ Hh). unfold begin_push in Hb.
  destruct (too_soon _ _ _); [done|]. cbv zeta in Hb. rewrite next_gen_small in Hb by lia.
  injection Hb as <- <-. split; [done|]. split; [done|]. split; simpl.
  - lia.
  - apply map_Forall_insert_2; [done|]. apply (ho_entries _ _ Hh).
  - intros a [= <-]. simpl. split; [done|]. apply lookup_insert_eq.
Qed.

Lemma begin_rebuild_flight h h' f :
  hub_ok cfg h → publishGen h < 2 ^ 64 - 1 → begin_rebuild h = (h', f) →
  h' = set_publishGen h (publishGen h + 1) ∧ f_gen f = publishGen h + 1 ∧ flight_ok h' f.
Proof.
  intros Hh Hlt Hb. pose proof (ho_gen _ _ Hh). unfold begin_rebuild in Hb.
  rewrite next_gen_small in Hb by lia. injection Hb as <- <-.
  split; [done|]. split; [done|]. split; simpl; [lia| |done]. apply (ho_entries _ _ Hh).
Qed.

(** A new flight has a generation of its own. *)
Lemma new_flight_ok h fs f n h' r r' :
  world_ok cfg n (mkWorld h fs r) →
  h' = set_publishGen h (publishGen h + 1) → f_gen f = publishGen h + 1 → flight_ok h' f →
  publishGen h + Z.of_nat r' + 1 ≤ Z.of_nat (S n) →
  world_ok cfg (S n) (mkWorld h' (f :: fs) r').
Proof.
  intros [Hh Hc Hfs Hnd] -> Hg Hf Hn. split; cbn [hub flights rebuilds] in *.
  - apply set_publishGen_ok; [done|lia].
  - simpl. lia.
  - constructor; [done|]. eapply flights_mono; [|done]. simpl. lia.
  - rewrite fmap_cons. constructor; [|done]. rewrite Hg. intros (f' & Heq & Hin)%list_elem_of_fmap.
    rewrite Forall_forall in Hfs. pose proof (fo_gen _ _ (Hfs f' Hin)). lia.
Qed.

Lemma world_ok_hub n h h' fs r :
  world_ok cfg n (mkWorld h fs r) → publishGen h' = publishGen h → hub_ok cfg h' →
  world_ok cfg (S n) (mkWorld h' fs r).
Proof.
  intros [Hh Hc Hfs Hnd] Hg Hh'. split; cbn [hub flights rebuilds] in *; try done; [lia|].
  eapply flights_mono; [|done]. lia.
Qed.

Lemma step_ok n w w' :
  Z.of_nat n < 2 ^ 64 - 1 → world_ok cfg n w → step cfg w w' → world_ok cfg (S n) w'.
Proof.
  intros Hn Hw Hs. pose proof (wo_hub _ _ _ Hw) as Hh. pose proof (wo_count _ _ _ Hw) as Hc.
  destruct Hs; cbn [hub flights rebuilds] in Hh, Hc.
  - apply (world_ok_hub n h); [done|by destruct counted|].
    destruct counted; [|done]. by destruct Hh.
  - by apply (world_ok_hub n h).
  - apply admit_push_ok in H as (_ & Hp & Hid & _). apply check_spoke_id_nonempty in Hid.
    apply begin_push_flight in H0 as (Heq & Hg & Hf); [|done|lia|done|done].
    eapply new_flight_ok; eauto. lia.
  - destruct Hw as [_ _ Hfs Hnd]. cbn [hub flights rebuilds] in Hfs, Hnd.
    apply Forall_app in Hfs as [Hf1 Hf2]. apply Forall_cons in Hf2 as [Hf Hf2].
    pose proof (finish_flight_gen cfg f g unmatched h) as Hg.
    pose proof (finish_flight_ok cfg f g unmatched h Hh Hf) as Hok.
    rewrite H0 in Hg, Hok. simpl in Hg, Hok. split; cbn [hub flights rebuilds]; [done|lia| |].
    + apply Forall_app. split; (eapply flights_mono; [|done]; lia).
    + rewrite fmap_app in *. cbn in Hnd. rewrite NoDup_app, NoDup_cons in Hnd. rewrite NoDup_app.
      set_solver.
  - pose proof (evict_ok cfg now h Hh) as Hok. rewrite H1 in Hok. simpl in Hok.
    assert (publishGen h' = publishGen h) as Hg by (by injection H1 as <- _).
    case_bool_decide.
    + by apply (world_ok_hub n h).
    + destruct (world_ok_hub n h h' fs n0 Hw Hg Hok) as [? ? ? ?]. cbn [hub flights rebuilds] in *.
      split; cbn [hub flights rebuilds]; try done. lia.
  - apply begin_rebuild_flight in H as (Heq & Hg & Hf); [|done|lia].
    eapply new_flight_ok; eauto. lia.
  - apply (world_ok_hub n h); [done..|]. by destruct Hh.
  - apply (world_ok_hub n h); [done..|]. by destruct Hh.
  - apply (world_ok_hub n h); [done..|]. destruct Hh as [? ? ? ? ? ? ? Hq]. split; simpl; try done.
    intros q' [= <-]. specialize (Hq _ H). simpl in Hq. lia.
Qed.

Lemma reach_ok n w : Z.of_nat n < 2 ^ 64 → reach cfg n w → world_ok cfg n w.
Proof.
  intros Hn Hr. induction Hr as [h Hi|n w w' Hr IH Hs].
  - split; cbn; [by apply initial_ok| |constructor|constructor].
    destruct Hi as (? & ? & ? & [->| ->]); simpl; lia.
  - eapply step_ok; [lia|apply IH; lia|done].
Qed.

(** ** Publication order *)

Lemma finish_flight_publishes f g u h h' resp :
  finish_flight cfg f g u h = (h', resp) →
  (resp = NoContent ∧ lastPublishedGen h < lastPublishedGen h' ∧ lastPublishedGen h' = f_gen f ∧
   Topology (mx h') = g ∧
   spokes h' = match f_accepted f with Some a => <[ap_id a := ap_entry a]> (spokes h) | None => spokes h end) ∨
  (∃ r, resp = PushRejection (statusForRejectReason r) r ∧
     (h' = h ∨ h' = set_mx h (count_reject RejectReasonSizeBudgetExceeded (mx h)))).
Proof.
  unfold finish_flight, publishIfWinner.
  destruct (f_gen f <=? lastPublishedGen h) eqn:Hle; [intros [<- <-]%pair_equal_spec; eauto|].
  destruct (over_budget cfg g); [intros [<- <-]%pair_equal_spec; eauto|]. bprop.
  intros [<- <-]%pair_equal_spec. left. split; [done|]. unfold writeSnapshotAsync.
  destruct (f_accepted f) as [a|]; simpl; destruct (snapshotCh h) as [[|]|]; simpl; done.
Qed.

Lemma step_publication w w' :
  step cfg w w' →
  lastPublishedGen (hub w) ≤ lastPublishedGen (hub w') ∧
  (Topology (mx (hub w')) ≠ Topology (mx (hub w)) →
   lastPublishedGen (hub w) < lastPublishedGen (hub w')).
Proof.
  destruct 1; cbn [hub] in *; try (split; simpl; [lia|done]).
  - destruct counted; simpl; split; (lia || done).
  - unfold begin_push in H0. destruct (too_soon _ _ _); [done|]. injection H0 as <- _. simpl.
    split; [lia|done].
  - apply finish_flight_publishes in H0 as [(_ & ? & _)|(r & _ & [->| ->])]; simpl; split; (lia || done).
  - unfold evict in H1. injection H1 as <- _. simpl. split; [lia|done].
  - unfold begin_rebuild in H. injection H as <- _. simpl. split; [lia|done].
Qed.
End Preservation.

(** ** Requests one at a time

    With no other request in between, the hub is an aggregator: a registry of
    spokes, and a view that is the combined graph of the registry. *)

Section Sequential.
Context `{U : Unicode} (cfg : FederationConfig).

Inductive label :=
  | LPush (now : time) (p : SpokePayload) (resp : response)
  | LEvict (now : time)
  | LOther.

Inductive seq_step : Hub → label → Hub → Prop :=
| seq_refused (MR : MapRange) now req h resp counted :
    admit_push cfg (isLeader h) now req = inl (resp, counted) →
    seq_step h LOther (match counted with None => h | Some r => set_mx h (count_reject r (mx h)) end)
| seq_limited (MR : MapRange) now req p h resp :
    admit_push cfg (isLeader h) now req = inr p → begin_push cfg now p h = inl resp →
    seq_step h LOther h
| seq_push (MR : MapRange) now req p h h1 f g u h2 resp :
    admit_push cfg (isLeader h) now req = inr p → begin_push cfg now p h = inr (h1, f) →
    combines cfg (f_candidate f) g u → finish_flight cfg f g u h1 = (h2, resp) →
    seq_step h (LPush now p resp) h2
| seq_evict now h h1 h2 f ev g u h3 resp :
    evict cfg now h = (h1, ev) → ev ≠ ∅ → begin_rebuild h1 = (h2, f) →
    combines cfg (f_candidate f) g u → finish_flight cfg f g u h2 = (h3, resp) →
    seq_step h (LEvict now) h3
| seq_evict_none now h h1 :
    evict cfg now h = (h1, ∅) → seq_step h (LEvict now) h1
| seq_leader v h : seq_step h LOther (SetLeader v h)
| seq_epoch e h : seq_step h LOther (SetLeaseEpoch e h).

Inductive seq_run : nat → Hub → Prop :=
| seq_run_init h : initial h → seq_run 0 h
| seq_run_step n h l h' : seq_run n h → seq_step h l h' → seq_run (S n) h'.

(** The aggregator: what a push and an eviction do to the registry. *)
Inductive spec_step (reg : gmap string spokeEntry) : label → gmap string spokeEntry → Prop :=
| spec_accepted now p :
    spec_step reg (LPush now p NoContent) (<[SpokeID p := mkSpokeEntry p now]> reg)
| spec_rejected now p :
    spec_step reg (LPush now p (PushRejection StatusRequestEntityTooLarge
                                  RejectReasonSizeBudgetExceeded)) reg
| spec_evict now :
    spec_step reg (LEvict now) (filter (λ kv, silent cfg now kv.2 = false) reg)
| spec_other : spec_step reg LOther reg.

(** The view: what the metrics show once a spoke is live. *)
Definition view_ok (h : Hub) : Prop :=
  firstLive h = true → over_budget cfg (Topology (mx h)) = false ∧
    ∃ u, combines cfg (spokes h) (Topology (mx h)) u.

(** *** A smaller registry has a smaller graph *)

Lemma pushed_mono {A} (field : SpokePayload → list A) reg reg' x :
  reg ⊆ reg' → pushed field reg x → pushed field reg' x.
Proof. intros Hsub (id & en & Hl & Hx). exists id, en. split; [|done]. by eapply lookup_weaken. Qed.

Lemma source_mono reg reg' k : reg ⊆ reg' → source cfg reg k → source cfg reg' k.
Proof.
  intros Hsub. assert (∀ id, known reg id → known reg' id) as Hkn.
  { intros id (d & Hd & Hid). exists d. split; [|done]. by eapply pushed_mono. }
  assert (∀ k v, reported cfg reg k v → reported cfg reg' k v) as Hrep.
  { intros k' v (n & Hn & Hr). exists n. split; [|done]. by eapply pushed_mono. }
  destruct 1; [eapply source_pushed|eapply source_reverse|eapply source_matched|
    eapply source_configured|eapply source_configured_reverse]; eauto using pushed_mono.
Qed.

Lemma NoDup_keys_le {A B} (f : A → B) (l1 l2 : list A) :
  NoDup (f <$> l1) → (∀ x, x ∈ f <$> l1 → x ∈ f <$> l2) → zlength l1 ≤ zlength l2.
Proof.
  intros Hnd Hsub. unfold zlength. rewrite <-(length_fmap f l1), <-(length_fmap f l2).
  apply inj_le, submseteq_length, NoDup_submseteq; auto.
Qed.

Lemma combines_mono reg reg' g u g' u' :
  reg ⊆ reg' → combines cfg reg g u → combines cfg reg' g' u' →
  zlength (Edges g) ≤ zlength (Edges g') ∧ zlength (Devices g) ≤ zlength (Devices g').
Proof.
  intros Hsub (MR & clock & H1) (MR' & clock' & H2).
  pose proof (build_links MR (graph_reconcile (MR:=MR)) cfg clock reg) as (Hn & Hl & _).
  pose proof (build_links MR' (graph_reconcile (MR:=MR')) cfg clock' reg') as (_ & Hl' & _).
  pose proof (build_devices MR (graph_reconcile (MR:=MR)) cfg clock reg) as (Hdn & Hd & _).
  pose proof (build_devices MR' (graph_reconcile (MR:=MR')) cfg clock' reg') as (_ & Hd' & _).
  rewrite H1 in Hn, Hl, Hdn, Hd. rewrite H2 in Hl', Hd'. simpl in *. split.
  - apply (NoDup_keys_le Key); [done|]. intros k. rewrite Hl, Hl'.
    intros (o & Ho & Hk). exists o. split; [by eapply source_mono|done].
  - apply (NoDup_keys_le ID); [done|]. intros id. rewrite Hd, Hd'.
    intros (d & Hp & Hid). exists d. split; [|done]. by eapply pushed_mono.
Qed.

Lemma fits_mono reg reg' g u g' u' :
  reg ⊆ reg' → combines cfg reg g u → combines cfg reg' g' u' →
  over_budget cfg g' = false → over_budget cfg g = false.
Proof.
  intros Hsub H1 H2. destruct (combines_mono _ _ _ _ _ _ Hsub H1 H2) as [He Hd].
  unfold over_budget. rewrite !orb_false_iff, !andb_false_iff, !Z.ltb_ge. lia.
Qed.

(** *** Each step *)

Lemma finish_wins f g u h :
  lastPublishedGen h < f_gen f → over_budget cfg g = false →
  ∃ h', finish_flight cfg f g u h = (h', NoContent) ∧ Topology (mx h') = g ∧
    spokes h' = match f_accepted f with
                | Some a => <[ap_id a := ap_entry a]> (spokes h) | None => spokes h end ∧
    (firstLive h' = true ↔ firstLive h = true ∨ is_Some (f_accepted f)).
Proof.
  intros Hg Hb. unfold finish_flight, publishIfWinner.
  rewrite (proj2 (Z.leb_gt _ _) Hg), Hb. eexists. split; [done|]. unfold writeSnapshotAsync.
  destruct (f_accepted f) as [a|]; simpl; destruct (snapshotCh h) as [[|]|]; simpl;
    (split; [done|]; split; [done|]); split; eauto; intros [?|[? ?]]; done.
Qed.

(** What a sequential step must establish. *)
Definition seq_ok (n : nat) (h : Hub) : Prop :=
  hub_ok cfg h ∧ publishGen h ≤ Z.of_nat n ∧ view_ok h.

Lemma seq_push_ok n h now p h1 f g u h2 resp :
  Z.of_nat n < 2 ^ 64 - 1 → seq_ok n h → payload_ok p → SpokeID p ≠ "" →
  begin_push cfg now p h = inr (h1, f) → combines cfg (f_candidate f) g u →
  finish_flight cfg f g u h1 = (h2, resp) →
  seq_ok (S n) h2 ∧ spec_step (spokes h) (LPush now p resp) (spokes h2).
Proof.
  intros Hn (Hh & Hc & Hv) Hp Hid Hb Hcomb Hfin.
  assert (f_accepted f = Some (mkAcceptedPush (SpokeID p) (mkSpokeEntry p now)) ∧
    f_candidate f = <[SpokeID p := mkSpokeEntry p now]> (spokes h)) as [Hacc Hcand].
  { unfold begin_push in Hb. destruct (too_soon _ _ _); [done|]. by injection Hb as _ <-. }
  apply (begin_push_flight cfg) in Hb as (-> & Hg & Hf); [|done|lia|done|done].
  pose proof (finish_flight_gen cfg f g u (set_publishGen h (publishGen h + 1))) as Hgen.
  pose proof (finish_flight_ok cfg f g u (set_publishGen h (publishGen h + 1))
    (set_publishGen_ok cfg h (publishGen h + 1) Hh ltac:(lia)) Hf) as Hok.
  rewrite Hfin in Hgen, Hok. simpl in Hgen, Hok.
  assert (lastPublishedGen h < f_gen f) as Hwin by (pose proof (ho_gen _ _ Hh); lia).
  destruct (over_budget cfg g) eqn:Hbud.
  - unfold finish_flight, publishIfWinner in Hfin. simpl in Hfin.
    rewrite (proj2 (Z.leb_gt _ _) Hwin), Hbud in Hfin.
    apply pair_equal_spec in Hfin as [<- <-]. simpl. split; [|constructor].
    split_and!; [done|simpl; lia|done].
  - destruct (finish_wins f g u (set_publishGen h (publishGen h + 1)) Hwin Hbud)
      as (h'' & Heq & Ht & Hsp & _).
    rewrite Heq in Hfin. apply pair_equal_spec in Hfin as [<- <-].
    rewrite Hacc in Hsp. simpl in Hsp. rewrite Hsp. split; [|constructor].
    split_and!; [done|lia|]. intros _. rewrite Ht, Hsp, <-Hcand. eauto.
Qed.

Lemma evict_fields now h h1 ev :
  evict cfg now h = (h1, ev) →
  publishGen h1 = publishGen h ∧ firstLive h1 = firstLive h ∧
  Topology (mx h1) = Topology (mx h) ∧
  spokes h1 = filter (λ kv, silent cfg now kv.2 = false) (spokes h) ∧
  ev = dom (filter (λ kv, silent cfg now kv.2 = true) (spokes h)).
Proof. unfold evict. by intros [<- <-]%pair_equal_spec. Qed.

Lemma seq_evict_ok n now h h1 h2 f ev g u h3 resp :
  Z.of_nat n < 2 ^ 64 - 1 → seq_ok n h →
  evict cfg now h = (h1, ev) → ev ≠ ∅ → begin_rebuild h1 = (h2, f) →
  combines cfg (f_candidate f) g u → finish_flight cfg f g u h2 = (h3, resp) →
  seq_ok (S n) h3 ∧ spec_step (spokes h) (LEvict now) (spokes h3).
Proof.
  intros Hn (Hh & Hc & Hv) Hev Hne Hreb Hcomb Hfin.
  pose proof (evict_ok cfg now h Hh) as Hok1. rewrite Hev in Hok1. simpl in Hok1.
  destruct (evict_fields _ _ _ _ Hev) as (Hg1 & Hf1 & _ & Hs1 & Hev').
  assert (firstLive h = true) as Hlive.
  { apply (ho_first _ _ Hh). intros Hemp. apply Hne. rewrite Hev', Hemp.
    by rewrite map_filter_empty, dom_empty_L. }
  destruct (Hv Hlive) as [Hb0 [u0 Hcomb0]].
  assert (f_accepted f = None ∧ f_candidate f = spokes h1) as [Hacc Hcand].
  { unfold begin_rebuild in Hreb. by apply pair_equal_spec in Hreb as [_ <-]. }
  apply (begin_rebuild_flight cfg) in Hreb as (-> & Hg & Hf); [|done|lia].
  assert (over_budget cfg g = false) as Hbud.
  { eapply fits_mono; [|exact Hcomb|exact Hcomb0|done]. rewrite Hcand, Hs1. apply map_filter_subseteq. }
  pose proof (finish_flight_gen cfg f g u (set_publishGen h1 (publishGen h1 + 1))) as Hgen.
  pose proof (finish_flight_ok cfg f g u (set_publishGen h1 (publishGen h1 + 1))
    (set_publishGen_ok cfg h1 (publishGen h1 + 1) Hok1 ltac:(lia)) Hf) as Hok.
  rewrite Hfin in Hgen, Hok. simpl in Hgen, Hok.
  assert (lastPublishedGen h1 < f_gen f) as Hwin by (pose proof (ho_gen _ _ Hok1); lia).
  destruct (finish_wins f g u (set_publishGen h1 (publishGen h1 + 1)) Hwin Hbud)
    as (h'' & Heq & Ht & Hsp & _).
  rewrite Heq in Hfin. apply pair_equal_spec in Hfin as [<- <-].
  rewrite Hacc in Hsp. simpl in Hsp. rewrite Hsp, Hs1. split; [|constructor].
  split_and!; [done|lia|]. intros _. rewrite Ht, Hsp, <-Hcand. eauto.
Qed.

Lemma seq_evict_none_ok n now h h1 :
  seq_ok n h → evict cfg now h = (h1, ∅) →
  seq_ok (S n) h1 ∧ spec_step (spokes h) (LEvict now) (spokes h1).
Proof.
  intros (Hh & Hc & Hv) Hev. pose proof (evict_ok cfg now h Hh) as Hok1. rewrite Hev in Hok1.
  destruct (evict_fields _ _ _ _ Hev) as (Hg1 & Hf1 & Ht & Hs1 & Hev'). rewrite Hs1.
  split; [|constructor]. split_and!; [done|lia|]. unfold view_ok. rewrite Hf1, Ht, Hs1.
  assert (filter (λ kv, silent cfg now kv.2 = false) (spokes h) = spokes h) as ->; [|done].
  apply map_filter_id. intros id e He. simpl. destruct (silent cfg now e) eqn:Hsil; [|done].
  assert (id ∈ (∅ : gset string)) as Hin; [|set_solver]. rewrite Hev'. apply elem_of_dom.
  exists e. by apply map_lookup_filter_Some.
Qed.

Lemma seq_step_ok n h l h' :
  Z.of_nat n < 2 ^ 64 - 1 → seq_ok n h → seq_step h l h' →
  seq_ok (S n) h' ∧ spec_step (spokes h) l (spokes h').
Proof.
  intros Hn Hok Hs. destruct Hs; [| | |by eapply seq_evict_ok|by eapply seq_evict_none_ok| |].
  - destruct Hok as (Hh & Hc & Hv). split; [|destruct counted; constructor].
    destruct counted; (split_and!; [by destruct Hh|simpl; lia|done]).
  - destruct Hok as (Hh & Hc & Hv). split; [|constructor]. split_and!; [done|lia|done].
  - apply admit_push_ok in H as (_ & Hp & Hid & _). apply check_spoke_id_nonempty in Hid.
    by eapply seq_push_ok.
  - destruct Hok as (Hh & Hc & Hv). split; [|constructor]. split_and!; [by destruct Hh|simpl; lia|done].
  - destruct Hok as (Hh & Hc & Hv). split; [|constructor]. split_and!; [by destruct Hh|simpl; lia|done].
Qed.

Lemma seq_run_ok n h : Z.of_nat n < 2 ^ 64 → seq_run n h → seq_ok n h.
Proof.
  intros Hn Hr. induction Hr as [h Hi|n h l h' Hr IH Hs].
  - split_and!; [by apply initial_ok|destruct Hi as (? & ? & ? & [->| ->]); simpl; lia|].
    destruct Hi as (? & ? & ? & [->| ->]); done.
  - eapply seq_step_ok; [|apply IH; lia|done]. lia.
Qed.
End Sequential.

(** ** Properties *)

(** C1: whatever the interleaving of pushes, evictions, rebuilds, leader changes and
    snapshot writes (up to the 2^64 generations of the counter), the generations
    handed out are pairwise different and never exceed the counter, the published
    one never exceeds it either, every registered and every in-flight payload is
    well formed and registered under its own spoke ID, the liveness gauges exist
    for exactly the registered spokes and show their last push, a live hub is not
    stale, a graph published by the hub respects the size budget, and the snapshot
    queue holds at most one graph. *)
Theorem hub_invariants `{U : Unicode} (cfg : FederationConfig) (n : nat) (w : world) :
  Z.of_nat n < 2 ^ 64 → reach cfg n w → world_ok cfg n w.
Proof. apply reach_ok. Qed.

(** no step lowers the published generation, and the published graph changes
    only together with a strictly higher generation, so a slow build never
    overwrites the graph of a later one. *)
Theorem hub_publication_order `{U : Unicode} (cfg : FederationConfig) (w w' : world) :
  step cfg w w' →
  lastPublishedGen (hub w) ≤ lastPublishedGen (hub w') ∧
  (Topology (mx (hub w')) ≠ Topology (mx (hub w)) →
   lastPublishedGen (hub w) < lastPublishedGen (hub w')).
Proof. apply step_publication. Qed.

(** a push whose commit is rejected leaves no trace but the reject counter: the
    registry, the gauges, the published graph and its generation are as before,
    and the response carries the status of its reason. *)
Theorem hub_reject_changes_nothing (cfg : FederationConfig) (f : flight) (g : Graph) (u : Z)
    (h h' : Hub) (code : Z) (r : RejectReason) :
  finish_flight cfg f g u h = (h', PushRejection code r) →
  code = statusForRejectReason r ∧ spokes h' = spokes h ∧
  lastPublishedGen h' = lastPublishedGen h ∧ Topology (mx h') = Topology (mx h) ∧
  FederationSpokeUp (mx h') = FederationSpokeUp (mx h) ∧
  FederationSpokeLastPushUnix (mx h') = FederationSpokeLastPushUnix (mx h) ∧
  firstLive h' = firstLive h ∧ snapshotCh h' = snapshotCh h.
Proof.
  intros Hf. apply finish_flight_publishes in Hf as [(Hr & _)|(r' & Hr & [->| ->])]; [done| |];
    injection Hr as -> ->; done.
Qed.

(** *** What the handler promises before the lock *)

Definition spoke_id_ok (id : string) : Prop :=
  id ≠ "" ∧ zlen id ≤ 128 ∧
  ∀ r, r ∈ runes_of id → 97 ≤ r ≤ 122 ∨ 65 ≤ r ≤ 90 ∨ 48 ≤ r ≤ 57 ∨ r = 45 ∨ r = 46 ∨ r = 95.

Definition encoding_ok (enc : string) : Prop := enc = "" ∨ enc = "identity" ∨ enc = "gzip".

Definition cycle_time_ok (cfg : FederationConfig) (now cycleAt : time) : Prop :=
  cycleAt ≠ 0 ∧ cycleAt ≤ now + 300 * Second ∧ time_Sub now cycleAt ≤ SpokeTimeout cfg.

Definition counts_ok (p : SpokePayload) : Prop := zlength (sp_Devices p) ≤ 10000 ∧ zlength (sp_Edges p) ≤ 50000.

(** The requests that go on, each check of the handler in its order. *)
Record decodes (leader : bool) (req : request) (p : SpokePayload) : Prop := {
  dc_post : Method req = "POST";
  dc_leader : leader = true;
  dc_encoding : encoding_ok (ContentEncoding req);
  dc_body : Body req = Decoded p;
  dc_counts : counts_ok p
}.

Record admitted `{MR : MapRange} (cfg : FederationConfig) (leader : bool) (now : time) (req : request) (p : SpokePayload) : Prop := {
  ad_decodes : decodes leader req p;
  ad_payload : payload_ok p;
  ad_id : spoke_id_ok (SpokeID p);
  ad_cn : ∀ cn, PeerCN req = Some cn → cn = SpokeID p;
  ad_cycle : cycle_time_ok cfg now (CycleAt p)
}.

(** The refusals: the first check that fails gives the answer. *)
Inductive refused `{MR : MapRange} (cfg : FederationConfig) (leader : bool) (now : time) (req : request)
  : response → option RejectReason → Prop :=
  | refused_method : Method req ≠ "POST" → refused cfg leader now req (HttpError 405) None
  | refused_follower : Method req = "POST" → leader = false → refused cfg leader now req (HttpError 503) None
  | refused_encoding :
      Method req = "POST" → leader = true → ¬ encoding_ok (ContentEncoding req) → refused cfg leader now req (HttpError 415) None
  | refused_body_size :
      Method req = "POST" → leader = true → encoding_ok (ContentEncoding req) →
      Body req = WireTooLarge ∨ Body req = InflatedTooLarge → refused cfg leader now req (HttpError 413) None
  | refused_body :
      Method req = "POST" → leader = true → encoding_ok (ContentEncoding req) →
      Body req = BadGzip ∨ Body req = BadJSON → refused cfg leader now req (HttpError 400) None
  | refused_counts p :
      Method req = "POST" → leader = true → encoding_ok (ContentEncoding req) → Body req = Decoded p → ¬ counts_ok p →
      refused cfg leader now req (HttpError 413) None
  | refused_payload p r :
      decodes leader req p → ¬ payload_ok p → validateSpokePayload p = inl r →
      refused cfg leader now req (PushRejection 400 r) (Some r)
  | refused_id p :
      decodes leader req p → payload_ok p → ¬ spoke_id_ok (SpokeID p) → refused cfg leader now req (HttpError 400) None
  | refused_cn p cn :
      decodes leader req p → payload_ok p → spoke_id_ok (SpokeID p) → PeerCN req = Some cn → cn ≠ SpokeID p →
      refused cfg leader now req (HttpError 403) None
  | refused_cycle p :
      decodes leader req p → payload_ok p → spoke_id_ok (SpokeID p) → (∀ cn, PeerCN req = Some cn → cn = SpokeID p) →
      ¬ cycle_time_ok cfg now (CycleAt p) → refused cfg leader now req (HttpError 400) None.

Lemma check_spoke_id_spec id :
  (check_spoke_id id = inr tt ∧ spoke_id_ok id) ∨ (check_spoke_id id = inl (HttpError 400) ∧ ¬ spoke_id_ok id).
Proof.
  assert (forallb spoke_id_rune (runes_of id) = true ↔
    ∀ r, r ∈ runes_of id → 97 ≤ r ≤ 122 ∨ 65 ≤ r ≤ 90 ∨ 48 ≤ r ≤ 57 ∨ r = 45 ∨ r = 46 ∨ r = 95) as Hr.
  { rewrite forallb_forall. setoid_rewrite <- list_elem_of_In. apply forall_proper. intros r.
    apply Morphisms_Prop.iff_iff_iff_impl_morphism; [done|]. unfold spoke_id_rune, in_range.
    rewrite !orb_true_iff, !andb_true_iff, !Z.leb_le, !Z.eqb_eq. lia. }
  unfold check_spoke_id, spoke_id_ok. case_bool_decide as He; cbn [negb]; [right; split; [done|]; by intros []|].
  destruct (exceeds 128 id) eqn:Hx; [right; split; [done|]; intros (_ & Hl & _); apply exceeds_false in Hl; congruence|].
  apply exceeds_false in Hx. destruct (forallb _ _); cbn; [left|right]; (split; [done|]); [by rewrite <- Hr|].
  intros (_ & _ & Hn). apply Hr in Hn. done.
Qed.

Lemma check_cycle_at_spec cfg now cycleAt :
  (check_cycle_at cfg now cycleAt = inr tt ∧ cycle_time_ok cfg now cycleAt) ∨
  (check_cycle_at cfg now cycleAt = inl (HttpError 400) ∧ ¬ cycle_time_ok cfg now cycleAt).
Proof.
  unfold check_cycle_at, cycle_time_ok. change (5 * Minute) with (300 * Second).
  destruct (Z.eqb_spec cycleAt 0); cbn; [right; split; [done|]; tauto|].
  destruct (Z.ltb_spec (now + 300 * Second) cycleAt); cbn; [right; split; [done|]; lia|].
  destruct (Z.ltb_spec (SpokeTimeout cfg) (time_Sub now cycleAt)); cbn; [right|left]; (split; [done|]); lia.
Qed.

Lemma check_cn_spec cn id :
  (check_cn cn id = inr tt ∧ ∀ c, cn = Some c → c = id) ∨
  (check_cn cn id = inl (HttpError 403) ∧ ∃ c, cn = Some c ∧ c ≠ id).
Proof.
  destruct cn as [c|]; cbn; [|by left]. case_bool_decide as H; cbn; [right; eauto|left]. split; [done|].
  intros ? [= <-]. destruct (decide (c = id)); [done|by destruct H].
Qed.

Lemma decode_body_spec req :
  match decode_body req with
  | inr p => encoding_ok (ContentEncoding req) ∧ Body req = Decoded p
  | inl resp =>
      (resp = HttpError 415 ∧ ¬ encoding_ok (ContentEncoding req)) ∨
      (encoding_ok (ContentEncoding req) ∧
       ((resp = HttpError 413 ∧ (Body req = WireTooLarge ∨ Body req = InflatedTooLarge)) ∨
        (resp = HttpError 400 ∧ (Body req = BadGzip ∨ Body req = BadJSON))))
  end.
Proof.
  unfold decode_body, encoding_ok.
  assert (bool_decide (ContentEncoding req = "") || bool_decide (ContentEncoding req = "identity") || bool_decide (ContentEncoding req = "gzip") = true ↔
    ContentEncoding req = "" ∨ ContentEncoding req = "identity" ∨ ContentEncoding req = "gzip") as He
    by (rewrite !orb_true_iff, !bool_decide_eq_true; tauto).
  destruct (_ || _ || _).
  - apply proj1 in He. specialize (He eq_refl).
    destruct (Body req); cbn; rewrite ?andb_false_r; auto 10. rewrite andb_true_r. case_bool_decide; auto 10.
  - left. split; [done|]. intros Hok. by apply He in Hok.
Qed.

(** The answer of the handler is one of the two. *)
Lemma admit_push_spec `{MR : MapRange} cfg leader now req :
  match admit_push cfg leader now req with
  | inr p => admitted cfg leader now req p
  | inl (resp, counted) => refused cfg leader now req resp counted
  end.
Proof.
  unfold admit_push. case_bool_decide as Hm; cbn; [by apply refused_method|].
  destruct leader; cbn; [|by apply refused_follower]. pose proof (decode_body_spec req) as Hd.
  destruct (decode_body req) as [resp|p]; cbn.
  { destruct Hd as [[-> ?]|[? [[-> ?]|[-> ?]]]]; [by apply refused_encoding|by apply refused_body_size|by apply refused_body]. }
  destruct Hd as [He Hb]. 
  destruct (_ || _) eqn:Hsize.
  { apply (refused_counts _ _ _ _ p); try done. apply orb_true_iff in Hsize. rewrite !Z.ltb_lt in Hsize.
    unfold maxDevicesPerPush, maxEdgesPerPush in Hsize. unfold counts_ok. lia. }
  assert (decodes true req p) as Hdec.
  { apply orb_false_iff in Hsize as [H1%Z.ltb_ge H2%Z.ltb_ge]. by split. } clear Hsize.
  destruct (validateSpokePayload p) as [r|[]] eqn:Hv.
  { apply (refused_payload _ _ _ _ p); [done| |done]. intros Hok. apply validateSpokePayload_ok in Hok. congruence. }
  apply validateSpokePayload_ok in Hv. cbn.
  destruct (check_spoke_id_spec (SpokeID p)) as [[-> Hid]|[-> Hid]]; cbn; [|by apply (refused_id _ _ _ _ p)].
  destruct (check_cn_spec (PeerCN req) (SpokeID p)) as [[-> Hcn]|[-> (cn & Hcn & Hne)]]; cbn; [|by apply (refused_cn _ _ _ _ p cn)].
  destruct (check_cycle_at_spec cfg now (CycleAt p)) as [[-> Hc]|[-> Hc]]; cbn; [by split|by apply (refused_cycle _ _ _ _ p)].
Qed.

(** No two of them hold. *)
Lemma refused_not_admitted `{MR : MapRange} cfg leader now req resp counted p :
  refused cfg leader now req resp counted → ¬ admitted cfg leader now req p.
Proof.
  intros Hr [[H1 H2 H3 H4 H5] H6 H7 H8 H9]. destruct Hr as [| | |? ? ? Hb|? ? ? Hb|p' ? ? ? Hb|p' r [? ? ? Hb _]|p' [? ? ? Hb _]|p' cn [? ? ? Hb _]|p' [? ? ? Hb _]];
    try congruence; try (rewrite H4 in Hb; by destruct Hb as [[=]|[=]]); rewrite H4 in Hb; injection Hb as <-; try done.
  match goal with H : _ ≠ SpokeID p |- _ => by apply H, H8 end.
Qed.

Lemma refused_unique `{MR : MapRange} cfg leader now req r1 c1 r2 c2 :
  refused cfg leader now req r1 c1 → refused cfg leader now req r2 c2 → r1 = r2 ∧ c1 = c2.
Proof.
  intros H1 H2.
  destruct H1 as [| | |? ? ? Hb1|? ? ? Hb1|p1 ? ? ? Hb1|p1 x1 [? ? ? Hb1 ?]|p1 [? ? ? Hb1 ?]|p1 cn1 [? ? ? Hb1 ?]|p1 [? ? ? Hb1 ?]];
    destruct H2 as [| | |? ? ? Hb2|? ? ? Hb2|p2 ? ? ? Hb2|p2 x2 [? ? ? Hb2 ?]|p2 [? ? ? Hb2 ?]|p2 cn2 [? ? ? Hb2 ?]|p2 [? ? ? Hb2 ?]];
    try done; try congruence; try (rewrite Hb1 in Hb2; simplify_eq; done);
    try (destruct Hb1 as [Hb1|Hb1]; rewrite Hb1 in Hb2; simplify_eq; done);
    try (destruct Hb1 as [Hb1|Hb1], Hb2 as [Hb2|Hb2]; congruence);
    try (destruct Hb2 as [Hb2|Hb2]; rewrite Hb1 in Hb2; simplify_eq; done);
    rewrite Hb1 in Hb2; simplify_eq; try done;
    try match goal with H : ∀ cn, _ = Some cn → _, H' : PeerCN req = Some _ |- _ => by apply H in H' end.
  split; congruence.
Qed.

(** C36: which pushes the handler takes.  One goes on exactly when it is a POST to a leader
    with an accepted encoding, its body decodes to a well-formed payload of at most 10000
    devices and 50000 edges, its spoke ID has 1 to 128 letters, digits, dashes, underscores and
    dots and is the common name of the client certificate when there is one, and its cycle
    time is set, at most five minutes ahead and not older than the spoke timeout.  Every other
    request is refused with the answer of the first check that fails: 405 for the method, 503
    when not leading, 415 for the encoding, 413 or 400 for the body, 413 for the counts, a
    rejection with 400 and the counted reason for the payload, 400 for the spoke ID, 403 for
    the common name and 400 for the cycle time. *)
Theorem hub_admission (MR : MapRange) (cfg : FederationConfig) (leader : bool) (now : time) (req : request) :
  (∀ p, admit_push cfg leader now req = inr p ↔ admitted cfg leader now req p) ∧
  (∀ resp counted, admit_push cfg leader now req = inl (resp, counted) ↔ refused cfg leader now req resp counted).
Proof.
  pose proof (admit_push_spec cfg leader now req) as H. destruct (admit_push cfg leader now req) as [[resp counted]|p].
  - split.
    + intros p. split; [done|]. by intros Hp%(refused_not_admitted _ _ _ _ resp counted).
    + intros resp' counted'. split; [by intros [= <- <-]|]. intros Hr. by destruct (refused_unique _ _ _ _ _ _ _ _ H Hr) as [-> ->].
  - split.
    + intros p'. split; [by intros [= <-]|]. intros [[_ _ _ Hb' _] _ _ _ _]. destruct H as [[_ _ _ Hb _] _ _ _ _].
      rewrite Hb in Hb'. by injection Hb' as ->.
    + intros resp counted. split; [done|]. intros Hr. by apply (refused_not_admitted _ _ _ _ _ _ p) in Hr.
Qed.

(** C3: with requests handled one at a time the hub implements the aggregator.  A
    push registers its spoke or is refused for size (never as stale), an eviction
    removes exactly the silent spokes, and once a spoke is live the published
    graph is the combined graph of the registry; in particular the rebuild after
    an eviction is never refused. *)
Theorem hub_sequential_refinement `{U : Unicode} (cfg : FederationConfig) (n : nat) (h : Hub) :
  Z.of_nat n < 2 ^ 64 - 1 → seq_run cfg n h →
  (firstLive h = true → ∃ u, combines cfg (spokes h) (Topology (mx h)) u) ∧
  (∀ l h', seq_step cfg h l h' → spec_step cfg (spokes h) l (spokes h')).
Proof.
  intros Hn Hr. pose proof (seq_run_ok cfg n h ltac:(lia) Hr) as Hok. split.
  - intros Hl. destruct Hok as (_ & _ & Hv). by destruct (Hv Hl).
  - intros l h' Hs. by eapply (seq_step_ok cfg n).
Qed.

(** ** Witnesses and interleavings *)

Definition hub_cfg : FederationConfig := mkFederationConfig (180 * Second) [] (30 * Second) 100 10 false.

Definition push_of (sid : string) (d : string) : request :=
  mkRequest "POST" "" (Decoded (payload_of sid (1000 * Second) [plain_device d] [])) (Some sid).

Definition entry_of (sid d : string) (at_ : time) : spokeEntry :=
  mkSpokeEntry (payload_of sid (1000 * Second) [plain_device d] []) at_.

Definition noon : time := 1010 * Second.

Definition flight_of (gen : Z) (reg : gmap string spokeEntry) (sid d : string) : flight :=
  mkFlight gen (<[sid := entry_of sid d noon]> reg) (Some (mkAcceptedPush sid (entry_of sid d noon))).

Definition graph_of (ds : list string) : Graph := mkGraph (plain_device <$> ds) [] [].

Lemma combines_devices sid d :
  combines (U:=unicode_table) hub_cfg {[sid := entry_of sid d noon]} (graph_of [d]) 0.
Proof.
  exists range_std, (λ _, 0). unfold buildCombinedGraph.
  assert (collect (MR:=range_std) {[sid := entry_of sid d noon]} =
    mkCollected {[d]} [plain_device d] []) as ->.
  { rewrite collect_spec. unfold entries, device_list, entries, spokeKeys, range_map, range_std.
    rewrite map_to_list_singleton. cbn. rewrite lookup_singleton_eq. cbn.
    f_equal; set_solver. }
  assert (oosIndex (U:=unicode_table) (MR:=range_std) hub_cfg {[sid := entry_of sid d noon]} = ∅) as ->.
  { unfold oosIndex, range_map, range_std. by rewrite map_to_list_singleton. }
  vm_compute. reflexivity.
Qed.

(** The worlds of the two-push interleaving. *)
Definition after_first : Hub :=
  (finish_flight hub_cfg (flight_of 1 ∅ "dc1" "a") (graph_of ["a"]) 0
     (set_publishGen (NewHub "") 2)).1.
Definition after_second : Hub :=
  (finish_flight hub_cfg (flight_of 2 ∅ "dc2" "b") (graph_of ["b"]) 0 after_first).1.

Lemma interleaved_reach :
  reach (U:=unicode_table) hub_cfg 4 (mkWorld after_second [] 0).
Proof.
  assert (reach (U:=unicode_table) hub_cfg 1
    (mkWorld (set_publishGen (NewHub "") 1) [flight_of 1 ∅ "dc1" "a"] 0)) as R1.
  { eapply reach_step.
    - apply reach_init. exists "", (mkGraph [] [] []), false. left. reflexivity.
    - eapply (step_begin hub_cfg range_std noon (push_of "dc1" "a")); vm_compute; reflexivity. }
  assert (reach (U:=unicode_table) hub_cfg 2 (mkWorld (set_publishGen (NewHub "") 2)
    [flight_of 2 ∅ "dc2" "b"; flight_of 1 ∅ "dc1" "a"] 0)) as R2.
  { eapply reach_step; [exact R1|].
    eapply (step_begin hub_cfg range_std noon (push_of "dc2" "b")); vm_compute; reflexivity. }
  assert (reach (U:=unicode_table) hub_cfg 3 (mkWorld after_first [flight_of 2 ∅ "dc2" "b"] 0)) as R3.
  { eapply reach_step; [exact R2|].
    apply (step_finish hub_cfg (flight_of 1 ∅ "dc1" "a") [flight_of 2 ∅ "dc2" "b"] [] _ _
      (graph_of ["a"]) 0 _ NoContent); [apply combines_devices|]. vm_compute. reflexivity. }
  eapply reach_step; [exact R3|].
  apply (step_finish hub_cfg (flight_of 2 ∅ "dc2" "b") [] [] _ _ (graph_of ["b"]) 0 _ NoContent);
    [apply combines_devices|]. vm_compute. reflexivity.
Qed.

(** two overlapping pushes can lose one: each is built from a registry without
    the other, both are answered 204, and the graph that stays published lacks
    the devices of the first although its spoke is registered and live. *)
Theorem hub_overlapping_pushes_lose_one :
  ∃ n w, reach (U:=unicode_table) hub_cfg n w ∧ flights w = [] ∧ rebuilds w = 0%nat ∧
    (∃ e d, spokes (hub w) !! "dc1" = Some e ∧ "dc1" ∈ FederationSpokeUp (mx (hub w)) ∧
       d ∈ sp_Devices (payload e) ∧ ID d ∉ ID <$> Devices (Topology (mx (hub w)))).
Proof.
  exists 4%nat, (mkWorld after_second [] 0). split; [apply interleaved_reach|]. do 2 (split; [done|]).
  exists (entry_of "dc1" "a" noon), (plain_device "a"). split; [vm_compute; reflexivity|].
  split; [apply (bool_decide_unpack _); vm_compute; exact I|].
  split; [apply list_elem_of_here|]. apply (bool_decide_unpack _). vm_compute. exact I.
Qed.

(** the rate limit does not hold between overlapping pushes of one spoke: the
    registry is written at the commit, so a second push that arrives before the
    commit of the first passes [min_push_interval], at any distance in time. *)
Theorem hub_overlapping_pushes_pass_rate_limit (cfg : FederationConfig) (now1 now2 : time)
    (p1 p2 : SpokePayload) (h h1 : Hub) (f1 : flight) :
  spokes h !! SpokeID p1 = None → SpokeID p2 = SpokeID p1 →
  begin_push cfg now1 p1 h = inr (h1, f1) →
  ∃ h2 f2, begin_push cfg now2 p2 h1 = inr (h2, f2).
Proof.
  intros Hn Hid Hb. unfold begin_push in *. rewrite Hn in Hb. simpl in Hb.
  apply (f_equal (λ r, match r with inl _ => h | inr (x, _) => x end)) in Hb. simpl in Hb. subst h1.
  rewrite Hid. simpl. rewrite Hn. simpl. eauto.
Qed.

Lemma hub_overlapping_pushes_pass_rate_limit_witness :
  ∃ h2 f2, begin_push hub_cfg (noon + 1) (payload_of "dc1" (1000 * Second) [plain_device "a"] [])
    (set_publishGen (NewHub "") 1) = inr (h2, f2).
Proof.
  eapply (hub_overlapping_pushes_pass_rate_limit hub_cfg noon (noon + 1)
    (payload_of "dc1" (1000 * Second) [plain_device "a"] []) _ (NewHub ""));
    vm_compute; reflexivity.
Defined.

Lemma hub_invariants_witness : world_ok hub_cfg 4 (mkWorld after_second [] 0).
Proof.
  apply (hub_invariants (U:=unicode_table) hub_cfg 4); [lia|apply interleaved_reach].
Defined.

Lemma hub_publication_order_witness : lastPublishedGen after_first < lastPublishedGen after_second.
Proof.
  refine (proj2 (hub_publication_order (U:=unicode_table) hub_cfg
    (mkWorld after_first [flight_of 2 ∅ "dc2" "b"] 0) (mkWorld after_second [] 0) _) _).
  - apply (step_finish hub_cfg (flight_of 2 ∅ "dc2" "b") [] [] _ _ (graph_of ["b"]) 0 _ NoContent);
      [apply combines_devices|]. vm_compute. reflexivity.
  - vm_compute. discriminate.
Defined.

Lemma hub_reject_changes_nothing_witness :
  finish_flight hub_cfg (flight_of 1 ∅ "dc1" "a") (graph_of ["a"]) 0 after_second =
    (after_second, PushRejection StatusConflict RejectReasonStaleGeneration) ∧
  spokes after_second = spokes after_second.
Proof.
  assert (finish_flight hub_cfg (flight_of 1 ∅ "dc1" "a") (graph_of ["a"]) 0 after_second =
    (after_second, PushRejection StatusConflict RejectReasonStaleGeneration)) as Hf
    by (vm_compute; reflexivity).
  split; [exact Hf|]. exact (proj1 (proj2 (hub_reject_changes_nothing _ _ _ _ _ _ _ _ Hf))).
Defined.

Lemma hub_admission_witness :
  admitted (MR:=range_std) hub_cfg true noon (push_of "dc1" "a") (payload_of "dc1" (1000 * Second) [plain_device "a"] []) ∧
  refused (MR:=range_std) hub_cfg false noon (push_of "dc1" "a") (HttpError 503) None.
Proof.
  split; [apply (proj1 (hub_admission range_std hub_cfg true noon (push_of "dc1" "a")))
         |apply (proj2 (hub_admission range_std hub_cfg false noon (push_of "dc1" "a")))]; vm_compute; reflexivity.
Defined.

Lemma hub_sequential_refinement_witness :
  let h := (finish_flight hub_cfg (flight_of 1 ∅ "dc1" "a") (graph_of ["a"]) 0
              (set_publishGen (NewHub "") 1)).1 in
  firstLive h = true ∧ ∃ u, combines (U:=unicode_table) hub_cfg (spokes h) (Topology (mx h)) u.
Proof.
  split; [vm_compute; reflexivity|].
  refine (proj1 (hub_sequential_refinement (U:=unicode_table) hub_cfg 1 _ _ _) _); [lia| |reflexivity].
  eapply seq_run_step.
  - apply seq_run_init. exists "", (mkGraph [] [] []), false. left. reflexivity.
  - apply (seq_push hub_cfg range_std noon (push_of "dc1" "a")
      (payload_of "dc1" (1000 * Second) [plain_device "a"] []) (NewHub "")
      (set_publishGen (NewHub "") 1) (flight_of 1 ∅ "dc1" "a") (graph_of ["a"]) 0 _ NoContent);
      [vm_compute; reflexivity|vm_compute; reflexivity|apply combines_devices|vm_compute; reflexivity].
Defined.
