(* ===== verification/Snapshot.v ===== *)
(** * internal/snapshot

    The persisted graph: the field caps of the loader, loading with quarantine of
    unreadable files, and the atomic, fenced write.

    The file system is a map from paths to contents; every operation on it may
    fail, as [faults] says, and a write reports every state it goes through, which
    is what a crash can leave behind ([SharedSnapshot] cuts it at its system calls).
    encoding/json is a parameter ([Codec]). *)

From Stdlib Require Import ZArith Lia Ascii.
From S2P Require Import Prelude GoText Discovery Limits HubValidate.
Open Scope Z_scope.

Definition CurrentVersion : Z := 3.
Definition maxShortFieldBytes : Z := 256.
Definition maxProtoBytes : Z := 64.
Definition maxValidationErrors : nat := 100.

Record File := mkFile {
  Version : Z;
  WrittenAt : time;
  sf_Devices : list Device;
  sf_Edges : list Edge;
  sf_OutOfScope : list OutOfScopeNeighbour;
  CredentialCache : gmap string string;
  UnconfirmedAges : gmap string Z;
  Holder : string;
  LeaseEpoch : Z
}.

#[export] Instance File_eq_dec : EqDecision File.
Proof. solve_decision. Defined.

(** ** Field caps *)

(** One message of the loader: the slice, the index, the field, its cap and its
    length; or the note that more errors were omitted. *)
Inductive field_error :=
  | TooLong (slice : string) (i : nat) (field : string) (cap n : Z)
  | Omitted.

#[export] Instance field_error_eq_dec : EqDecision field_error.
Proof. solve_decision. Defined.

Section Fields.
Context `{MR : MapRange}.

Definition full (errs : list field_error) : bool := (maxValidationErrors <=? length errs)%nat.

Definition addErr (errs : list field_error) (e : field_error) : list field_error :=
  if full errs then errs else errs ++ [e].

Definition check_field (slice : string) (i : nat) (errs : list field_error)
    (f : string * Z * string) : list field_error :=
  let '(name, cap, v) := f in
  if exceeds cap v then addErr errs (TooLong slice i name cap (zlen v)) else errs.

(** The loop over a label or metadata map. *)
Fixpoint check_map (slice : string) (i : nat) (name : string) (errs : list field_error)
    (kvs : list (string * string)) : list field_error :=
  match kvs with
  | [] => errs
  | (k, v) :: kvs' =>
      if full errs then errs
      else
        let errs := check_field slice i errs (name +:+ " key", MaxLabelKeyBytes, k) in
        let errs := check_field slice i errs (name +:+ " value", MaxLabelValueBytes, v) in
        check_map slice i name errs kvs'
  end.

Definition device_fields (d : Device) : list (string * Z * string) :=
  [("id", MaxDeviceIDBytes, ID d); ("vendor", maxShortFieldBytes, Vendor d);
   ("model", maxShortFieldBytes, Model d); ("os_version", maxShortFieldBytes, OSVersion d);
   ("site", maxShortFieldBytes, Site d)].

Definition edge_fields (e : Edge) : list (string * Z * string) :=
  [("src_device", MaxDeviceIDBytes, SrcDevice e); ("dst_device", MaxDeviceIDBytes, DstDevice e);
   ("src_port", MaxPortNameBytes, SrcPort e); ("dst_port", MaxPortNameBytes, DstPort e);
   ("discovery_proto", maxProtoBytes, DiscoveryProto e); ("link_kind", maxProtoBytes, LinkKind e)].

Definition oos_fields (n : OutOfScopeNeighbour) : list (string * Z * string) :=
  [("reporting_device", MaxDeviceIDBytes, ReportingDevice n);
   ("reporting_port", MaxPortNameBytes, ReportingPort n);
   ("neighbour_hint", MaxDeviceIDBytes, NeighbourHint n); ("proto", maxProtoBytes, Proto n)].

Fixpoint check_devices (i : nat) (errs : list field_error) (ds : list Device) : list field_error :=
  match ds with
  | [] => errs
  | d :: ds' =>
      if full errs then errs
      else
        let errs := fold_left (check_field "device" i) (device_fields d) errs in
        check_devices (S i) (check_map "device" i "labels" errs (range_map 0 (Labels d))) ds'
  end.

Fixpoint check_edges (i : nat) (errs : list field_error) (es : list Edge) : list field_error :=
  match es with
  | [] => errs
  | e :: es' =>
      if full errs then errs
      else
        let errs := fold_left (check_field "edge" i) (edge_fields e) errs in
        check_edges (S i) (check_map "edge" i "metadata" errs (range_map 1 (Metadata e))) es'
  end.

Fixpoint check_oos (i : nat) (errs : list field_error) (ns : list OutOfScopeNeighbour)
  : list field_error :=
  match ns with
  | [] => errs
  | n :: ns' =>
      if full errs then errs
      else check_oos (S i) (fold_left (check_field "out_of_scope" i) (oos_fields n) errs) ns'
  end.

(** The joined errors; the empty list is [nil]. *)
Definition validateSnapshotFields (f : File) : list field_error :=
  let errs := check_devices 0 [] (sf_Devices f) in
  let errs := check_edges 0 errs (sf_Edges f) in
  let errs := check_oos 0 errs (sf_OutOfScope f) in
  if full errs then errs ++ [Omitted] else errs.

(** *** The reference: every violation, in order *)

Definition violation (slice : string) (i : nat) (f : string * Z * string) : list field_error :=
  let '(name, cap, v) := f in
  if exceeds cap v then [TooLong slice i name cap (zlen v)] else [].

Definition map_fields (name : string) (kv : string * string) : list (string * Z * string) :=
  [(name +:+ " key", MaxLabelKeyBytes, kv.1); (name +:+ " value", MaxLabelValueBytes, kv.2)].

Definition device_checks (d : Device) : list (string * Z * string) :=
  device_fields d ++ (range_map 0 (Labels d) ≫= map_fields "labels").
Definition edge_checks (e : Edge) : list (string * Z * string) :=
  edge_fields e ++ (range_map 1 (Metadata e) ≫= map_fields "metadata").

Fixpoint violations {A} (slice : string) (fields : A → list (string * Z * string)) (i : nat)
    (l : list A) : list field_error :=
  match l with
  | [] => []
  | x :: l' => (fields x ≫= violation slice i) ++ violations slice fields (S i) l'
  end.

Definition all_violations (f : File) : list field_error :=
  violations "device" device_checks 0 (sf_Devices f) ++
  violations "edge" edge_checks 0 (sf_Edges f) ++
  violations "out_of_scope" oos_fields 0 (sf_OutOfScope f).

(** *** The capped accumulation *)

Definition capped (errs vs : list field_error) : list field_error :=
  take maxValidationErrors (errs ++ vs).

Definition short (errs : list field_error) : Prop := (length errs ≤ maxValidationErrors)%nat.

Lemma capped_short errs vs : short (capped errs vs).
Proof. unfold capped, short. rewrite length_take. lia. Qed.

Lemma capped_nil errs : short errs → capped errs [] = errs.
Proof. unfold capped, short. intros H. rewrite app_nil_r. apply take_ge. lia. Qed.

Lemma capped_app errs vs ws : capped (capped errs vs) ws = capped errs (vs ++ ws).
Proof.
  unfold capped. rewrite (app_assoc errs vs ws).
  destruct (decide (length (errs ++ vs) ≤ maxValidationErrors)%nat) as [Hle|Hgt].
  - by rewrite (take_ge (errs ++ vs)) by lia.
  - rewrite (take_app_le (take maxValidationErrors (errs ++ vs)) ws) by (rewrite length_take; lia).
    rewrite take_take, Nat.min_id. by rewrite (take_app_le (errs ++ vs) ws) by lia.
Qed.

Lemma capped_full errs vs : short errs → full errs = true → capped errs vs = errs.
Proof.
  unfold capped, short, full. intros Hs Hf%Nat.leb_le.
  rewrite take_app_le by lia. apply take_ge. lia.
Qed.

Lemma addErr_capped errs e : short errs → addErr errs e = capped errs [e].
Proof.
  intros Hs. unfold addErr. destruct (full errs) eqn:Hf; [by rewrite capped_full|].
  unfold capped. apply Nat.leb_gt in Hf. rewrite take_ge; [done|]. rewrite length_app. simpl. lia.
Qed.

Lemma check_field_capped slice i errs f :
  short errs → check_field slice i errs f = capped errs (violation slice i f).
Proof.
  intros Hs. destruct f as [[name cap] v]. unfold check_field, violation.
  destruct (exceeds cap v); [by apply addErr_capped|by rewrite capped_nil].
Qed.

Lemma check_fields_capped slice i fs errs :
  short errs → fold_left (check_field slice i) fs errs = capped errs (fs ≫= violation slice i).
Proof.
  revert errs. induction fs as [|f fs IH]; intros errs Hs; cbn [fold_left].
  { by rewrite capped_nil. }
  rewrite check_field_capped by done. rewrite IH by apply capped_short. by rewrite capped_app.
Qed.

Lemma check_map_capped slice i name kvs errs :
  short errs →
  check_map slice i name errs kvs =
  capped errs ((kvs ≫= map_fields name) ≫= violation slice i).
Proof.
  revert errs. induction kvs as [|[k v] kvs IH]; intros errs Hs; cbn [check_map].
  { by rewrite capped_nil. }
  destruct (full errs) eqn:Hf; [by rewrite capped_full|]. cbv zeta.
  rewrite (check_field_capped slice i errs) by done.
  rewrite check_field_capped, IH by apply capped_short.
  by rewrite !capped_app.
Qed.

Lemma bind_app_list {A B} (g : A → list B) l1 l2 : (l1 ++ l2) ≫= g = (l1 ≫= g) ++ (l2 ≫= g).
Proof. apply bind_app. Qed.

Lemma check_devices_capped i ds errs :
  short errs → check_devices i errs ds = capped errs (violations "device" device_checks i ds).
Proof.
  revert i errs. induction ds as [|d ds IH]; intros i errs Hs; cbn [check_devices violations].
  { by rewrite capped_nil. }
  destruct (full errs) eqn:Hf; [by rewrite capped_full|]. cbv zeta.
  rewrite check_fields_capped by done. rewrite check_map_capped, IH by apply capped_short.
  rewrite !capped_app. unfold device_checks. by rewrite bind_app_list, <-app_assoc.
Qed.

Lemma check_edges_capped i es errs :
  short errs → check_edges i errs es = capped errs (violations "edge" edge_checks i es).
Proof.
  revert i errs. induction es as [|e es IH]; intros i errs Hs; cbn [check_edges violations].
  { by rewrite capped_nil. }
  destruct (full errs) eqn:Hf; [by rewrite capped_full|]. cbv zeta.
  rewrite check_fields_capped by done. rewrite check_map_capped, IH by apply capped_short.
  rewrite !capped_app. unfold edge_checks. by rewrite bind_app_list, <-app_assoc.
Qed.

Lemma check_oos_capped i ns errs :
  short errs → check_oos i errs ns = capped errs (violations "out_of_scope" oos_fields i ns).
Proof.
  revert i errs. induction ns as [|n ns IH]; intros i errs Hs; cbn [check_oos violations].
  { by rewrite capped_nil. }
  destruct (full errs) eqn:Hf; [by rewrite capped_full|].
  rewrite check_fields_capped by done. rewrite IH by apply capped_short. by rewrite capped_app.
Qed.

Lemma validateSnapshotFields_eq f :
  validateSnapshotFields f =
  if (maxValidationErrors <=? length (all_violations f))%nat
  then take maxValidationErrors (all_violations f) ++ [Omitted] else all_violations f.
Proof.
  unfold validateSnapshotFields. cbv zeta.
  rewrite check_devices_capped by (unfold short; simpl; lia).
  rewrite check_edges_capped, check_oos_capped by apply capped_short.
  rewrite !capped_app. fold (all_violations f). unfold capped, full. rewrite app_nil_l.
  rewrite length_take.
  destruct (maxValidationErrors <=? length (all_violations f))%nat eqn:Hle.
  - apply Nat.leb_le in Hle. rewrite (proj2 (Nat.leb_le _ _)) by lia. done.
  - apply Nat.leb_gt in Hle. rewrite (proj2 (Nat.leb_gt _ _)) by lia. apply take_ge. lia.
Qed.
End Fields.

(** ** The file system *)

Abbreviation FS := (gmap string string) (only parsing).

(** The operations of the operating system that fail during one call. *)
Record faults := mkFaults {
  read_fails : bool;
  open_fails : string → bool;
  bad_write_fails : bool;
  bad_close_fails : bool;
  remove_fails : string → bool;
  mkdir_fails : bool;
  temp_fails : bool;
  tmp_write_fails : bool;
  sync_fails : bool;
  tmp_close_fails : bool;
  rename_fails : bool
}.

Definition no_faults : faults :=
  mkFaults false (λ _, false) false false (λ _, false) false false false false false false.

(** The strings of a file. *)
Definition file_text (f : File) : list string :=
  (sf_Devices f ≫= device_text) ++ (sf_Edges f ≫= edge_text) ++ (sf_OutOfScope f ≫= oos_text) ++
  map_text (CredentialCache f) ++ (map_to_list (UnconfirmedAges f)).*1 ++ [Holder f].

Definition utf8_file (f : File) : bool := forallb ValidString (file_text f).

(** encoding/json on [File].  What was encoded decodes: the numbers and times as they were,
    and the strings if they are valid UTF-8; in others each invalid byte is replaced by
    U+FFFD, so the file that is read is another one. *)
Class Codec := {
  marshal : File → option string;
  unmarshal : string → option File;
  unmarshal_marshal : ∀ f b, marshal f = Some b →
    ∃ f', unmarshal b = Some f' ∧ Version f' = Version f ∧ WrittenAt f' = WrittenAt f ∧ LeaseEpoch f' = LeaseEpoch f ∧
      (utf8_file f = true → f' = f)
}.

(** [os.Remove]. *)
Definition os_Remove (ft : faults) (fs : FS) (path : string) : FS * bool :=
  if remove_fails ft path || bool_decide (fs !! path = None) then (fs, false)
  else (delete path fs, true).

(** ** Quarantine *)

Definition bad_name (path : string) (i : nat) : string :=
  if (i =? 0)%nat then path +:+ ".bad" else path +:+ ".bad." +:+ Itoa (Z.of_nat i).

Definition maxAttempts : nat := 100.

(** The attempts from [i] on; [fuel] of them are left. *)
Fixpoint quarantine_from (ft : faults) (path contents : string) (i fuel : nat) (fs : FS) : FS * bool :=
  match fuel with
  | O => os_Remove ft fs path
  | S fuel' =>
      let dst := bad_name path i in
      if bool_decide (is_Some (fs !! dst)) then quarantine_from ft path contents (S i) fuel' fs
      else if open_fails ft dst then (fs, false)
      else if bad_write_fails ft || bad_close_fails ft
      then ((os_Remove ft (<[dst := ""]> fs) dst).1, false)
      else os_Remove ft (<[dst := contents]> fs) path
  end.

Definition quarantine (ft : faults) (fs : FS) (path contents : string) : FS * bool :=
  quarantine_from ft path contents 0 maxAttempts fs.

(** ** Load *)

Inductive load_error :=
  | ErrRead
  | ErrParse
  | ErrVersionMismatch
  | ErrValidate (errs : list field_error).

Inductive load_result :=
  | NoFile
  | Loaded (f : File)
  | LoadFailed (e : load_error).

Section LoadWrite.
Context `{MR : MapRange} `{C : Codec}.

Definition Load (ft : faults) (fs : FS) (path : string) : FS * load_result :=
  if read_fails ft then (fs, LoadFailed ErrRead)
  else match fs !! path with
       | None => (fs, NoFile)
       | Some b =>
           match unmarshal b with
           | None => ((quarantine ft fs path b).1, LoadFailed ErrParse)
           | Some f =>
               if negb (Version f =? CurrentVersion)
               then ((quarantine ft fs path b).1, LoadFailed ErrVersionMismatch)
               else match validateSnapshotFields f with
                    | [] => (fs, Loaded f)
                    | errs => (fs, LoadFailed (ErrValidate errs))
                    end
           end
       end.

(** ** Write *)

Inductive write_error :=
  | ErrStaleEpoch
  | ErrMarshal
  | ErrMkdir
  | ErrTemp
  | ErrTmpWrite
  | ErrSync
  | ErrTmpClose
  | ErrRename.

Definition stamp (now : time) (f : File) : File :=
  mkFile (if Version f =? 0 then CurrentVersion else Version f)
    (if WrittenAt f =? 0 then now else WrittenAt f)
    (sf_Devices f) (sf_Edges f) (sf_OutOfScope f) (CredentialCache f) (UnconfirmedAges f)
    (Holder f) (LeaseEpoch f).

(** The fence: reads the existing file, unless the writer is unfenced. *)
Definition fence (ft : faults) (fs : FS) (path : string) (f : File) : FS * bool :=
  if 0 <? LeaseEpoch f then
    match Load ft fs path with
    | (fs', Loaded existing) => (fs', LeaseEpoch f <? LeaseEpoch existing)
    | (fs', _) => (fs', false)
    end
  else (fs, false).

(** Every state of the file system the call goes through, the last one, and the
    error.  [tmp] is the name [os.CreateTemp] picks and [part] what a failing
    write leaves in it. *)
Definition Write (ft : faults) (now : time) (tmp part : string) (fs : FS) (path : string) (f : File)
  : list FS * FS * option write_error :=
  let '(fs0, stale) := fence ft fs path f in
  if stale then ([fs0], fs0, Some ErrStaleEpoch)
  else match marshal (stamp now f) with
  | None => ([fs0], fs0, Some ErrMarshal)
  | Some b =>
      if mkdir_fails ft then ([fs0], fs0, Some ErrMkdir)
      else if temp_fails ft then ([fs0], fs0, Some ErrTemp)
      else
        let fs1 := <[tmp := ""]> fs0 in
        if tmp_write_fails ft then
          let fs2 := <[tmp := part]> fs1 in
          let fs3 := (os_Remove ft fs2 tmp).1 in
          ([fs0; fs1; fs2; fs3], fs3, Some ErrTmpWrite)
        else
          let fs2 := <[tmp := b]> fs1 in
          let undone := (os_Remove ft fs2 tmp).1 in
          if sync_fails ft then ([fs0; fs1; fs2; undone], undone, Some ErrSync)
          else if tmp_close_fails ft then ([fs0; fs1; fs2; undone], undone, Some ErrTmpClose)
          else if rename_fails ft then ([fs0; fs1; fs2; undone], undone, Some ErrRename)
          else
            let fs3 := <[path := b]> (delete tmp fs2) in
            ([fs0; fs1; fs2; fs3], fs3, None)
  end.

(** *** Lemmas *)

Lemma os_Remove_other ft fs p q : p ≠ q → (os_Remove ft fs p).1 !! q = fs !! q.
Proof. intros Hne. unfold os_Remove. destruct (_ || _); simpl; [done|]. by rewrite lookup_delete_ne. Qed.

Lemma os_Remove_cases ft fs p q :
  (os_Remove ft fs p).1 !! q = fs !! q ∨ (p = q ∧ (os_Remove ft fs p).1 !! q = None).
Proof.
  unfold os_Remove. destruct (_ || _); simpl; [auto|].
  destruct (decide (p = q)) as [->|]; [right; by rewrite lookup_delete_eq|left; by rewrite lookup_delete_ne].
Qed.

Lemma bad_name_ne path i : bad_name path i ≠ path.
Proof.
  unfold bad_name. intros Heq. apply (f_equal slen) in Heq.
  destruct (i =? 0)%nat; rewrite ?slen_app in Heq; simpl in Heq; lia.
Qed.

(** The load of an intact file leaves the file system alone. *)
Lemma Load_loaded ft fs path f : (Load ft fs path).2 = Loaded f → (Load ft fs path).1 = fs.
Proof.
  unfold Load. destruct (read_fails ft); [done|]. destruct (fs !! path) as [b|]; [|done].
  destruct (unmarshal b) as [f'|]; [|done]. destruct (negb _); [done|].
  by destruct (validateSnapshotFields f').
Qed.

Lemma fence_intact ft fs path f :
  LeaseEpoch f ≤ 0 ∨ (Load ft fs path).1 = fs → (fence ft fs path f).1 = fs.
Proof.
  intros H. unfold fence. destruct (0 <? LeaseEpoch f) eqn:Hpos; [|done]. bprop.
  destruct H as [H|H]; [lia|]. destruct (Load ft fs path) as [fs' r]. simpl in *. subst.
  by destruct r.
Qed.

(** A state that differs from [fs0] in the temporary file only. *)
Definition keeps (fs0 : FS) (tmp : string) (s : FS) : Prop := ∀ q, q ≠ tmp → s !! q = fs0 !! q.

Lemma keeps_refl fs0 tmp : keeps fs0 tmp fs0.
Proof. by intros q. Qed.
Lemma keeps_insert fs0 tmp v s : keeps fs0 tmp s → keeps fs0 tmp (<[tmp := v]> s).
Proof. intros Hk q Hq. by rewrite lookup_insert_ne, Hk. Qed.
Lemma keeps_remove fs0 tmp ft s : keeps fs0 tmp s → keeps fs0 tmp (os_Remove ft s tmp).1.
Proof. intros Hk q Hq. by rewrite os_Remove_other, Hk. Qed.

(** What a call does after the fence. *)
Definition write_shape (fs0 : FS) (tmp path : string) (f : File) (now : time)
    (r : list FS * FS * option write_error) : Prop :=
  let '(trace, final, err) := r in
  match err with
  | Some _ => Forall (keeps fs0 tmp) trace ∧ final ∈ trace
  | None => ∃ b init, marshal (stamp now f) = Some b ∧ trace = init ++ [final] ∧
      Forall (keeps fs0 tmp) init ∧ final !! path = Some b ∧
      ∀ q, q ≠ path → q ≠ tmp → final !! q = fs0 !! q
  end.

Lemma Write_shape ft now tmp part fs path f :
  tmp ≠ path →
  write_shape (fence ft fs path f).1 tmp path f now (Write ft now tmp part fs path f).
Proof.
  intros Hne. unfold Write. destruct (fence ft fs path f) as [fs0 stale]. cbn [fst].
  assert (∀ trace final e, Forall (keeps fs0 tmp) trace → final ∈ trace →
    write_shape fs0 tmp path f now (trace, final, Some e)) as Herr by done.
  pose proof (keeps_refl fs0 tmp) as H0.
  pose proof (λ v, keeps_insert fs0 tmp v _ H0) as H1.
  pose proof (λ v w, keeps_insert fs0 tmp w _ (H1 v)) as H2.
  pose proof (λ v w, keeps_remove fs0 tmp ft _ (H2 v w)) as H3.
  destruct stale; [apply Herr; [by constructor|set_solver]|].
  destruct (marshal (stamp now f)) as [b|] eqn:Hm; [|apply Herr; [by constructor|set_solver]].
  destruct (mkdir_fails ft); [apply Herr; [by constructor|set_solver]|].
  destruct (temp_fails ft); [apply Herr; [by constructor|set_solver]|]. cbv zeta.
  assert (∀ a b c d : FS, d ∈ [a; b; c; d]) as Hlast by set_solver.
  destruct (tmp_write_fails ft); [apply Herr; [by repeat constructor|apply Hlast]|].
  destruct (sync_fails ft); [apply Herr; [by repeat constructor|apply Hlast]|].
  destruct (tmp_close_fails ft); [apply Herr; [by repeat constructor|apply Hlast]|].
  destruct (rename_fails ft); [apply Herr; [by repeat constructor|apply Hlast]|].
  exists b, [fs0; <[tmp:=""]> fs0; <[tmp:=b]> (<[tmp:=""]> fs0)].
  split; [done|]. split; [done|]. split; [by repeat constructor|].
  split; [by rewrite lookup_insert_eq|]. intros q Hq Hq'.
  by rewrite lookup_insert_ne, lookup_delete_ne, !lookup_insert_ne by done.
Qed.

(** *** Quarantine *)

Lemma quarantine_from_spec ft path contents i fuel fs :
  fs !! path = Some contents →
  let '(fs', _) := quarantine_from ft path contents i fuel fs in
  (∀ q, q ≠ path → is_Some (fs !! q) → fs' !! q = fs !! q) ∧
  (fs' !! path = Some contents ∨
   (∃ j, (i ≤ j < i + fuel)%nat ∧ fs !! bad_name path j = None ∧
      fs' !! bad_name path j = Some contents) ∨
   (∀ j, (i ≤ j < i + fuel)%nat → is_Some (fs !! bad_name path j))).
Proof.
  intros Hpath. revert i. induction fuel as [|fuel IH]; intros i; cbn [quarantine_from].
  { destruct (os_Remove ft fs path) as [fs' ok] eqn:Hr.
    pose proof (λ q, os_Remove_other ft fs path q) as Ho. rewrite Hr in Ho. simpl in Ho.
    split; [intros q Hq _; by apply Ho|]. right; right. lia. }
  cbv zeta. case_bool_decide as Hex.
  { specialize (IH (S i)). destruct (quarantine_from ft path contents (S i) fuel fs) as [fs' ok].
    destruct IH as [Hq Hc]. split; [done|].
    destruct Hc as [?|[(j & Hj & H1 & H2)|Hall]]; [by left|right; left; exists j; split_and!; auto; lia|].
    right; right. intros j Hj. destruct (decide (j = i)) as [->|]; [done|]. apply Hall. lia. }
  apply eq_None_not_Some in Hex. pose proof (bad_name_ne path i) as Hne.
  destruct (open_fails ft _); [auto|]. destruct (_ || _).
  { split.
    - intros q Hq Hs. simpl. rewrite os_Remove_other, lookup_insert_ne;
        [done|intros <-; rewrite Hex in Hs; by destruct Hs..].
    - left. simpl. by rewrite os_Remove_other, lookup_insert_ne. }
  destruct (os_Remove ft (<[bad_name path i := contents]> fs) path) as [fs' ok] eqn:Hr.
  pose proof (λ q, os_Remove_other ft (<[bad_name path i := contents]> fs) path q) as Ho.
  rewrite Hr in Ho. simpl in Ho. split.
  - intros q Hq Hs. rewrite Ho by done. rewrite lookup_insert_ne; [done|].
    intros <-. rewrite Hex in Hs. by destruct Hs.
  - right; left. exists i. split; [lia|]. split; [done|].
    by rewrite Ho, lookup_insert_eq.
Qed.
End LoadWrite.

(** ** Caps *)

Definition within (f : string * Z * string) : Prop := zlen f.2 ≤ f.1.2.

Section Caps.
Context `{MR : MapRange}.

Lemma violation_nil slice i f : violation slice i f = [] ↔ within f.
Proof.
  destruct f as [[name cap] v]. unfold violation, within. simpl. rewrite <-exceeds_false.
  by destruct (exceeds cap v).
Qed.

Lemma violations_nil {A} slice (fields : A → list (string * Z * string)) i l :
  violations slice fields i l = [] ↔ ∀ x, x ∈ l → Forall within (fields x).
Proof.
  revert i. induction l as [|x l IH]; intros i; cbn [violations]; [set_solver|].
  assert ((fields x ≫= violation slice i) = [] ↔ Forall within (fields x)) as Hx.
  { induction (fields x) as [|f fs IHf]; [by split; constructor|]. csimpl.
    by rewrite app_nil, Forall_cons, violation_nil, IHf. }
  rewrite app_nil, Hx, IH. set_solver.
Qed.

Lemma validateSnapshotFields_nil f :
  validateSnapshotFields f = [] ↔
  (∀ d, d ∈ sf_Devices f → Forall within (device_checks d)) ∧
  (∀ e, e ∈ sf_Edges f → Forall within (edge_checks e)) ∧
  (∀ n, n ∈ sf_OutOfScope f → Forall within (oos_fields n)).
Proof.
  rewrite validateSnapshotFields_eq, <-(violations_nil "device" device_checks 0),
    <-(violations_nil "edge" edge_checks 0), <-(violations_nil "out_of_scope" oos_fields 0).
  trans (all_violations f = []); [|unfold all_violations; by rewrite !app_nil].
  destruct (_ <=? _)%nat eqn:Hle; [|done]. apply Nat.leb_le in Hle. split.
  - by intros [_ ?]%app_nil.
  - intros Hn. rewrite Hn in Hle. unfold maxValidationErrors in Hle. simpl in Hle. lia.
Qed.

Lemma map_checks_within site name (m : gmap string string) :
  Forall within (range_map site m ≫= map_fields name) ↔
  ∀ k v, m !! k = Some v → zlen k ≤ MaxLabelKeyBytes ∧ zlen v ≤ MaxLabelValueBytes.
Proof.
  rewrite Forall_forall. split.
  - intros H k v Hkv%(elem_of_range site). split.
    + apply (H (name +:+ " key", MaxLabelKeyBytes, k)). apply list_elem_of_bind. exists (k, v). split; [left|done].
    + apply (H (name +:+ " value", MaxLabelValueBytes, v)). apply list_elem_of_bind. exists (k, v). split; [right; left|done].
  - intros Hm f ([k v] & Hf & Hin%elem_of_range)%list_elem_of_bind.
    destruct (Hm k v Hin) as [Hk Hv]. unfold map_fields in Hf. simpl in Hf.
    apply elem_of_cons in Hf as [->|Hf%list_elem_of_singleton]; [done|]. by subst f.
Qed.
End Caps.

(** The file that holds the devices and edges of one payload, as the hub writes it. *)
Definition file_of (p : SpokePayload) : File :=
  mkFile CurrentVersion 1 (sp_Devices p) (sp_Edges p) [] ∅ ∅ "" 0.

(** ** Properties *)

(** What the loader asks of the strings of a device, an edge and a neighbour. *)
Definition labels_short (m : gmap string string) : Prop := ∀ k v, m !! k = Some v → zlen k ≤ 256 ∧ zlen v ≤ 4096.

Definition device_short (d : Device) : Prop :=
  zlen (ID d) ≤ 256 ∧ zlen (Vendor d) ≤ 256 ∧ zlen (Model d) ≤ 256 ∧ zlen (OSVersion d) ≤ 256 ∧ zlen (Site d) ≤ 256 ∧
  labels_short (Labels d).

Definition edge_short (e : Edge) : Prop :=
  zlen (SrcDevice e) ≤ 256 ∧ zlen (DstDevice e) ≤ 256 ∧ zlen (SrcPort e) ≤ 256 ∧ zlen (DstPort e) ≤ 256 ∧
  zlen (DiscoveryProto e) ≤ 64 ∧ zlen (LinkKind e) ≤ 64 ∧ labels_short (Metadata e).

Definition oos_short (n : OutOfScopeNeighbour) : Prop :=
  zlen (ReportingDevice n) ≤ 256 ∧ zlen (ReportingPort n) ≤ 256 ∧ zlen (NeighbourHint n) ≤ 256 ∧ zlen (Proto n) ≤ 64.

(** C10: the loader's validation with its early exits is the list of all fields over their
    caps, cut at a hundred.  Below a hundred violations all of them are listed, in file
    order; from a hundred on the first hundred and a note that more were omitted; and
    nothing is reported exactly when the names of devices and ports and the inventory strings
    have at most 256 bytes, protocols and link kinds 64, label keys 256 and label values
    4096. *)
Theorem snapshot_validation_reference (MR : MapRange) (f : File) :
  validateSnapshotFields f =
    (if (100 <=? length (all_violations f))%nat then take 100 (all_violations f) ++ [Omitted] else all_violations f) ∧
  (validateSnapshotFields f = [] ↔
    (∀ d, d ∈ sf_Devices f → device_short d) ∧
    (∀ e, e ∈ sf_Edges f → edge_short e) ∧
    (∀ n, n ∈ sf_OutOfScope f → oos_short n)).
Proof.
  split; [apply validateSnapshotFields_eq|]. rewrite validateSnapshotFields_nil.
  assert (∀ d, Forall within (device_checks d) ↔ device_short d) as Hd.
  { intros d. unfold device_checks, device_fields, device_short. rewrite Forall_app, map_checks_within, !Forall_cons. unfold within, labels_short.
    cbn. rewrite Forall_nil. tauto. }
  assert (∀ e, Forall within (edge_checks e) ↔ edge_short e) as He.
  { intros e. unfold edge_checks, edge_fields, edge_short. rewrite Forall_app, map_checks_within, !Forall_cons. unfold within, labels_short.
    cbn. rewrite Forall_nil. tauto. }
  assert (∀ n, Forall within (oos_fields n) ↔ oos_short n) as Hn.
  { intros n. unfold oos_fields, oos_short. rewrite !Forall_cons. unfold within. cbn. rewrite Forall_nil. tauto. }
  setoid_rewrite Hd. setoid_rewrite He. by setoid_rewrite Hn.
Qed.

(** a write whose fence found the file readable, or had none to read, is atomic under every
    combination of failures and at every point a crash can stop it: the file at
    the path is the old one or the complete new document, no other file but the
    temporary one changes, an error leaves the old file, and success means the new
    document is in place. *)
Theorem snapshot_write_atomic (MR : MapRange) (C : Codec) (ft : faults) (now : time)
    (tmp part path : string) (fs : FS) (f : File) :
  tmp ≠ path → LeaseEpoch f ≤ 0 ∨ (Load ft fs path).1 = fs →
  let '(trace, final, err) := Write ft now tmp part fs path f in
  (∀ s, s ∈ trace → s !! path = fs !! path ∨
     ∃ b, marshal (stamp now f) = Some b ∧ s !! path = Some b) ∧
  (∀ s q, s ∈ trace → q ≠ path → q ≠ tmp → s !! q = fs !! q) ∧
  (err ≠ None → final !! path = fs !! path) ∧
  (err = None → ∃ b, marshal (stamp now f) = Some b ∧ final !! path = Some b).
Proof.
  intros Hne Hf. pose proof (Write_shape ft now tmp part fs path f Hne) as Hs.
  rewrite fence_intact in Hs by done. unfold write_shape in Hs.
  destruct (Write ft now tmp part fs path f) as [[trace final] [e|]].
  - destruct Hs as [Hk Hin]. rewrite Forall_forall in Hk. split_and!; [| | |done].
    + intros s Hs. left. by apply Hk.
    + intros s q Hs Hq Hq'. by apply Hk.
    + intros _. by apply Hk.
  - destruct Hs as (b & init & Hm & -> & Hk & Hp & Ho). rewrite Forall_forall in Hk.
    split_and!; [| |done|eauto].
    + intros s [Hs|Hs%list_elem_of_singleton]%elem_of_app; [left; by apply Hk|subst; eauto].
    + intros s q [Hs|Hs%list_elem_of_singleton]%elem_of_app Hq Hq'; [by apply Hk|subst; auto].
Qed.

(** what was written is what is loaded: after a successful write of a file whose
    version is unset or current, whose strings are valid UTF-8 and within their caps, a load
    returns that file with its version and time filled in and touches nothing. *)
Theorem snapshot_roundtrip (MR : MapRange) (C : Codec) (ft : faults) (now : time)
    (tmp part path : string) (fs final : FS) (trace : list FS) (f : File) :
  tmp ≠ path → Version f = 0 ∨ Version f = CurrentVersion →
  validateSnapshotFields f = [] → utf8_file f = true →
  Write ft now tmp part fs path f = (trace, final, None) →
  Load no_faults final path = (final, Loaded (stamp now f)).
Proof.
  intros Hne Hv Hval Hutf Hw. pose proof (Write_shape ft now tmp part fs path f Hne) as Hs.
  rewrite Hw in Hs. destruct Hs as (b & init & Hm & _ & _ & Hp & _).
  destruct (unmarshal_marshal _ _ Hm) as (f' & Hu & _ & _ & _ & Hf'). rewrite Hf' in Hu by exact Hutf.
  unfold Load. simpl. rewrite Hp, Hu.
  assert (Version (stamp now f) = CurrentVersion) as Hver.
  { unfold stamp. simpl. destruct (Version f =? 0) eqn:Hz; [done|]. bprop. by destruct Hv. }
  rewrite Hver, Z.eqb_refl. simpl.
  assert (validateSnapshotFields (stamp now f) = validateSnapshotFields f) as -> by done.
  by rewrite Hval.
Qed.

(** the fence keeps a stale leader out: a fenced write against a readable file of
    a higher epoch is refused and changes nothing, so across fenced writes the epoch
    of a readable snapshot never goes down. *)
Theorem snapshot_fence_monotone (MR : MapRange) (C : Codec) (ft : faults) (now : time)
    (tmp part path : string) (fs : FS) (f existing : File) :
  tmp ≠ path → 0 < LeaseEpoch f → (Load ft fs path).2 = Loaded existing →
  let '(trace, final, err) := Write ft now tmp part fs path f in
  (LeaseEpoch f < LeaseEpoch existing → trace = [fs] ∧ final = fs ∧ err = Some ErrStaleEpoch) ∧
  (∀ ft' g, (Load ft' final path).2 = Loaded g → LeaseEpoch existing ≤ LeaseEpoch g).
Proof.
  intros Hne He Hl. pose proof (Load_loaded ft fs path existing Hl) as Hfs.
  assert (fence ft fs path f = (fs, LeaseEpoch f <? LeaseEpoch existing)) as Hfence.
  { unfold fence. rewrite (proj2 (Z.ltb_lt _ _) He). destruct (Load ft fs path) as [fs' r].
    simpl in *. by subst. }
  assert (∃ b, fs !! path = Some b ∧ unmarshal b = Some existing) as (b & Hb & Hu).
  { unfold Load in Hl. destruct (read_fails ft); [done|]. destruct (fs !! path) as [b|]; [|done].
    exists b. split; [done|]. destruct (unmarshal b) as [f'|]; [|done]. destruct (negb _); [done|].
    destruct (validateSnapshotFields f'); [|done]. by injection Hl as <-. }
  assert (∀ ft' s g b', s !! path = Some b' → (Load ft' s path).2 = Loaded g → unmarshal b' = Some g)
    as Hread.
  { intros ft' s g b' Hb'. unfold Load. destruct (read_fails ft'); [done|]. rewrite Hb'.
    destruct (unmarshal b') as [g'|]; [|done]. destruct (negb _); [done|].
    destruct (validateSnapshotFields g'); [|done]. by intros [= ->]. }
  pose proof (Write_shape ft now tmp part fs path f Hne) as Hs. rewrite Hfence in Hs. simpl in Hs.
  destruct (LeaseEpoch f <? LeaseEpoch existing) eqn:Hlt.
  - unfold Write. rewrite Hfence. split; [done|]. intros ft' g Hg.
    pose proof (Hread ft' fs g b Hb Hg). assert (g = existing) as -> by congruence. lia.
  - bprop. destruct (Write ft now tmp part fs path f) as [[trace final] [e|]].
    + split; [lia|]. destruct Hs as [Hk Hin]. rewrite Forall_forall in Hk. intros ft' g Hg.
      assert (final !! path = Some b) as Hfb by (rewrite (Hk final Hin) by done; done).
      pose proof (Hread ft' final g b Hfb Hg). assert (g = existing) as -> by congruence. lia.
    + split; [lia|]. destruct Hs as (b' & init & Hm & _ & _ & Hp & _). intros ft' g Hg.
      pose proof (Hread ft' final g b' Hp Hg) as Hg'.
      destruct (unmarshal_marshal _ _ Hm) as (f' & Hu' & _ & _ & He' & _). rewrite Hu' in Hg'. injection Hg' as <-.
      rewrite He'. simpl. lia.
Qed.

(** quarantine loses nothing while a slot is free: the unreadable document is
    still at the path or complete under a quarantine name that was free, and no
    file that existed, earlier quarantined ones included, is touched. *)
Theorem snapshot_quarantine_keeps_data (ft : faults) (path contents : string) (fs : FS) :
  fs !! path = Some contents →
  let '(fs', _) := quarantine ft fs path contents in
  (∀ q, q ≠ path → is_Some (fs !! q) → fs' !! q = fs !! q) ∧
  ((∃ j, (j < maxAttempts)%nat ∧ fs !! bad_name path j = None) →
   fs' !! path = Some contents ∨
   ∃ j, (j < maxAttempts)%nat ∧ fs !! bad_name path j = None ∧ fs' !! bad_name path j = Some contents).
Proof.
  intros Hp. pose proof (quarantine_from_spec ft path contents 0 maxAttempts fs Hp) as Hq.
  unfold quarantine. destruct (quarantine_from _ _ _ _ _ _) as [fs' ok].
  destruct Hq as [Hkeep Hcase]. split; [done|]. intros (j & Hj & Hn).
  destruct Hcase as [?|[(i & Hi & H1 & H2)|Hall]]; [by left|right; exists i; split_and!; auto; lia|].
  specialize (Hall j ltac:(lia)). rewrite Hn in Hall. by destruct Hall.
Qed.

(** a push the hub accepts fits the snapshot loader as far as the shared caps go:
    if moreover the inventory fields are within 256 bytes and the protocol and kind
    of the edges within 64, the loader accepts a file with its devices and edges. *)
Theorem accepted_push_is_loadable (MR : MapRange) (p : SpokePayload) :
  payload_ok p →
  (∀ d, d ∈ sp_Devices p →
     Forall (λ s, zlen s ≤ maxShortFieldBytes) [Vendor d; Model d; OSVersion d; Site d]) →
  (∀ e, e ∈ sp_Edges p → zlen (DiscoveryProto e) ≤ maxProtoBytes ∧ zlen (LinkKind e) ≤ maxProtoBytes) →
  validateSnapshotFields (file_of p) = [].
Proof.
  intros [Hd _ He _] Hinv Hproto. apply validateSnapshotFields_nil. simpl. split_and!.
  - intros d Hin. rewrite Forall_forall in Hd. destruct (Hd d Hin) as [[_ [Hid _]] _ Hlab].
    specialize (Hinv d Hin). rewrite !Forall_cons in Hinv. destruct Hinv as (? & ? & ? & ? & _).
    apply Forall_app. split; [repeat constructor; done|]. apply map_checks_within.
    intros k v Hkv. destruct (Hlab k v Hkv) as [[Hk _] [Hv _]]. done.
  - intros e Hin. rewrite Forall_forall in He. destruct (He e Hin) as [_ _ Hf Hmeta].
    destruct (Hproto e Hin) as [Hp Hk]. rewrite !Forall_cons in Hf.
    destruct Hf as ([? _] & [? _] & [? _] & [? _] & _).
    apply Forall_app. split; [repeat constructor; done|]. apply map_checks_within.
    intros k v Hkv. destruct (Hmeta k v Hkv) as (_ & [Hk' _] & [Hv _]). done.
  - set_solver.
Qed.

(** ** Witnesses

    A codec with a small table of documents. *)

Fixpoint repeat_a (n : nat) : string :=
  match n with O => "" | S n' => String "a"%char (repeat_a n') end.

Definition epoch_file (epoch : Z) (ds : list Device) : File :=
  mkFile CurrentVersion 7 ds [] [] ∅ ∅ "hub-0" epoch.

(** A device whose vendor has 300 bytes. *)
Definition verbose_device : Device := mkDevice "core1" (repeat_a 300) "" "" "" 0 ∅.

Definition documents : list (string * File) :=
  [("one", epoch_file 1 [plain_device "core1"]); ("two", epoch_file 2 [plain_device "core1"]);
   ("verbose", epoch_file 2 [verbose_device])].

Definition table_marshal (f : File) : option string :=
  fst <$> find_first (λ d, bool_decide (d.2 = f)) documents.
Definition table_unmarshal (b : string) : option File :=
  snd <$> find_first (λ d, bool_decide (d.1 = b)) documents.

#[refine] Definition table_codec : Codec := {|
  marshal := table_marshal;
  unmarshal := table_unmarshal
|}.
Proof.
  intros f b. unfold table_marshal. intros (d & Hd & ->)%fmap_Some.
  apply find_first_Some in Hd as (pre & post & Heq & Hf & _). bprop. subst f.
  assert (d ∈ documents) as Hin by (rewrite Heq; set_solver).
  clear Heq. unfold documents in Hin. rewrite !elem_of_cons in Hin.
  destruct Hin as [->|[->|[->|Hin]]]; [eexists; split; [vm_compute; reflexivity|by split_and!]..|set_solver].
Defined.

Definition disk : FS := {["snap.json" := "two"]}.

Lemma snapshot_write_atomic_witness :
  ∃ trace final, Write (MR:=range_std) (C:=table_codec) no_faults 9 "t" "" ∅ "snap.json"
      (epoch_file 2 [plain_device "core1"]) = (trace, final, None) ∧
    ∃ b, marshal (Codec:=table_codec) (stamp 9 (epoch_file 2 [plain_device "core1"])) = Some b ∧
         final !! "snap.json" = Some b.
Proof.
  pose proof (snapshot_write_atomic range_std table_codec no_faults 9 "t" "" "snap.json" ∅
    (epoch_file 2 [plain_device "core1"])) as H.
  assert ((Write (MR:=range_std) (C:=table_codec) no_faults 9 "t" "" ∅ "snap.json"
    (epoch_file 2 [plain_device "core1"])).2 = None) as Hn by (vm_compute; reflexivity).
  destruct (Write (MR:=range_std) (C:=table_codec) no_faults 9 "t" "" ∅ "snap.json"
    (epoch_file 2 [plain_device "core1"])) as [[trace final] err] eqn:Hw.
  change (err = None) in Hn. subst err.
  exists trace, final. split; [reflexivity|].
  apply H; [discriminate|right; vm_compute; reflexivity|reflexivity].
Defined.

Lemma snapshot_roundtrip_witness :
  ∃ trace final, Write (MR:=range_std) (C:=table_codec) no_faults 9 "t" "" ∅ "snap.json"
      (epoch_file 2 [plain_device "core1"]) = (trace, final, None) ∧
    Load (MR:=range_std) (C:=table_codec) no_faults final "snap.json" =
      (final, Loaded (stamp 9 (epoch_file 2 [plain_device "core1"]))).
Proof.
  assert ((Write (MR:=range_std) (C:=table_codec) no_faults 9 "t" "" ∅ "snap.json"
    (epoch_file 2 [plain_device "core1"])).2 = None) as Hn by (vm_compute; reflexivity).
  destruct (Write (MR:=range_std) (C:=table_codec) no_faults 9 "t" "" ∅ "snap.json"
    (epoch_file 2 [plain_device "core1"])) as [[trace final] err] eqn:Hw.
  change (err = None) in Hn. subst err.
  exists trace, final. split; [reflexivity|].
  eapply (snapshot_roundtrip range_std table_codec no_faults 9 "t" "" "snap.json" ∅);
    [discriminate|right; reflexivity|vm_compute; reflexivity|vm_compute; reflexivity|exact Hw].
Defined.

Lemma snapshot_fence_monotone_witness :
  Write (MR:=range_std) (C:=table_codec) no_faults 9 "t" "" disk "snap.json"
    (epoch_file 1 [plain_device "core1"]) = ([disk], disk, Some ErrStaleEpoch).
Proof.
  pose proof (snapshot_fence_monotone range_std table_codec no_faults 9 "t" "" "snap.json" disk
    (epoch_file 1 [plain_device "core1"]) (epoch_file 2 [plain_device "core1"])) as H.
  destruct (Write (MR:=range_std) (C:=table_codec) no_faults 9 "t" "" disk "snap.json"
    (epoch_file 1 [plain_device "core1"])) as [[trace final] err].
  destruct (proj1 (H ltac:(discriminate) ltac:(reflexivity) ltac:(vm_compute; reflexivity)))
    as (-> & -> & ->); reflexivity.
Defined.

Definition broken_disk : FS := {["snap.json" := "{"; "snap.json.bad" := "old"]}.

Lemma snapshot_quarantine_keeps_data_witness :
  let fs' := (quarantine no_faults broken_disk "snap.json" "{").1 in
  fs' !! "snap.json.bad" = broken_disk !! "snap.json.bad" ∧
  fs' !! "snap.json.bad.1" = Some "{" ∧ fs' !! "snap.json" = None.
Proof.
  assert (broken_disk !! "snap.json" = Some "{") as Hb by (vm_compute; reflexivity).
  pose proof (snapshot_quarantine_keeps_data no_faults "snap.json" "{" broken_disk Hb) as H.
  split; [|split; vm_compute; reflexivity].
  destruct (quarantine no_faults broken_disk "snap.json" "{") as [fs' ok].
  apply (proj1 H); [discriminate|exists "old"; vm_compute; reflexivity].
Defined.

Lemma accepted_push_is_loadable_witness :
  validateSnapshotFields (MR:=range_std) (file_of (payload_of "dc1" 1 [plain_device "core1"] [])) = [].
Proof.
  apply (accepted_push_is_loadable range_std).
  - apply (validateSpokePayload_ok (MR:=range_std)). vm_compute. reflexivity.
  - intros d Hd. apply list_elem_of_singleton in Hd. subst d. vm_compute.
    repeat constructor; discriminate.
  - intros e He. apply not_elem_of_nil in He. destruct He.
Defined.

(** the caps of the push validator and of the snapshot loader differ.  A push with
    a vendor of 300 bytes is accepted; a snapshot that holds its device is refused by
    the loader; and, since the fence treats that as no file, a writer with a lower
    epoch overwrites it. *)
Theorem accepted_push_defeats_snapshot :
  validateSpokePayload (MR:=range_std) (payload_of "dc1" 1 [verbose_device] []) = inr tt ∧
  validateSnapshotFields (MR:=range_std) (epoch_file 2 [verbose_device]) =
    [TooLong "device" 0 "vendor" maxShortFieldBytes 300] ∧
  (Write (MR:=range_std) (C:=table_codec) no_faults 9 "t" "" {["snap.json" := "verbose"]} "snap.json"
     (epoch_file 1 [plain_device "core1"])).2 = None.
Proof. split_and!; vm_compute; reflexivity. Qed.
