(* ===== verification/Pdu.v ===== *)
(** * internal/discovery/snmp: decoding what devices report

    pdu.go, scope.go and outcome.go: values of SNMP variables, OID suffixes, the
    interface and ARP tables, the sanitising of names, and the scope filter.  The
    BulkWalk itself (gosnmp) is not part of the model: a walk is the list of
    variables it returned.  The text forms of addresses (package net) are a
    parameter, [NetText]. *)

From Stdlib Require Import ZArith Lia Ascii.
From S2P Require Import Prelude GoText Sanitize Discovery Limits HubValidate.
Open Scope Z_scope.

(** ** package net *)

(** A [net.IP] is a slice of bytes; an [IPNet] an address and a mask. *)
Abbreviation IP := (list Z) (only parsing).

Record IPNet := mkIPNet { n_IP : list Z; n_Mask : list Z }.

#[export] Instance IPNet_eq_dec : EqDecision IPNet.
Proof. solve_decision. Defined.

Definition To4 (ip : IP) : option IP :=
  if bool_decide (length ip = 4%nat) then Some ip
  else if bool_decide (length ip = 16%nat) && bool_decide (take 10 ip = repeat 0 10)
          && bool_decide (take 2 (drop 10 ip) = [255; 255])
  then Some (drop 12 ip) else None.

Definition networkNumberAndMask (n : IPNet) : option (list Z * list Z) :=
  let ip := match To4 (n_IP n) with
            | Some x => Some x
            | None => if bool_decide (length (n_IP n) = 16%nat) then Some (n_IP n) else None
            end in
  match ip with
  | None => None
  | Some ip =>
      match length (n_Mask n) with
      | 4%nat => if bool_decide (length ip = 4%nat) then Some (ip, n_Mask n) else None
      | 16%nat => if bool_decide (length ip = 4%nat) then Some (ip, drop 12 (n_Mask n))
                  else Some (ip, n_Mask n)
      | _ => None
      end
  end.

Fixpoint masked_eq (nn m ip : list Z) : bool :=
  match nn, m, ip with
  | a :: nn', k :: m', b :: ip' => (Z.land a k =? Z.land b k) && masked_eq nn' m' ip'
  | _, _, _ => true
  end.

(** [IPNet.Contains]. *)
Definition Contains (n : IPNet) (ip : IP) : bool :=
  match networkNumberAndMask n with
  | None => bool_decide (default ip (To4 ip) = [])
  | Some (nn, m) =>
      let ip := default ip (To4 ip) in
      bool_decide (length ip = length nn) && masked_eq nn m ip
  end.

(** [(IPMask).Size]: the leading ones and the width; (0, 0) for a mask that is not
    ones followed by zeroes. *)
Fixpoint byte_ones (fuel : nat) (v : Z) : option Z :=
  match fuel with
  | O => Some 0
  | S fuel' =>
      if Z.testbit v (Z.of_nat fuel') then Z.succ <$> byte_ones fuel' (Z.clearbit v (Z.of_nat fuel'))
      else if v =? 0 then Some 0 else None
  end.

Fixpoint mask_ones (m : list Z) : option Z :=
  match m with
  | [] => Some 0
  | v :: m' =>
      if v =? 255 then Z.add 8 <$> mask_ones m'
      else match byte_ones 8 v with
           | Some n => if forallb (Z.eqb 0) m' then Some n else None
           | None => None
           end
  end.

Definition mask_Size (m : list Z) : Z * Z :=
  match mask_ones m with
  | Some n => (n, 8 * Z.of_nat (length m))
  | None => (0, 0)
  end.

(** The text forms of package net. *)
Class NetText := {
  ParseIP : string → option (list Z);
  IP_String : list Z → string;
  ParseCIDR : string → option IPNet;
  ParseMAC : string → option string;
  HardwareAddr_String : string → string
}.

(** ** SNMP variables *)

Inductive pdu_value :=
  | VInt (z : Z)
  | VInt32 (z : Z)
  | VInt64 (z : Z)
  | VUint (z : Z)
  | VUint32 (z : Z)
  | VUint64 (z : Z)
  | VString (s : string)
  | VBytes (s : string)
  | VOther.

Record SnmpPDU := mkPDU { pdu_Name : string; pdu_Value : pdu_value }.

(** The values the Go types can hold. *)
Definition value_wf (v : pdu_value) : Prop :=
  match v with
  | VInt z | VInt64 z => MinInt ≤ z ≤ MaxInt
  | VInt32 z => - 2 ^ 31 ≤ z < 2 ^ 31
  | VUint z | VUint64 z => 0 ≤ z < 2 ^ 64
  | VUint32 z => 0 ≤ z < 2 ^ 32
  | _ => True
  end.

Definition PDUString (p : SnmpPDU) : string :=
  match pdu_Value p with
  | VString s => TrimRight "000"%char s
  | VBytes s => TrimRight "000"%char s
  | _ => ""
  end.

Definition PDUIntStrict (p : SnmpPDU) : option Z :=
  match pdu_Value p with
  | VInt z => Some z
  | VInt32 z => Some z
  | VInt64 z => if (z <? MinInt) || (MaxInt <? z) then None else Some z
  | VUint z => if MaxInt <? z then None else Some z
  | VUint32 z => if MaxInt <? z then None else Some z
  | VUint64 z => if MaxInt <? z then None else Some z
  | _ => None
  end.

Definition PDUInt (p : SnmpPDU) : Z := default 0 (PDUIntStrict p).

Definition PDUBytes (p : SnmpPDU) : option string :=
  match pdu_Value p with
  | VBytes s => Some s
  | VString s => Some s
  | _ => None
  end.

Fixpoint bytes_of (s : string) : list Z :=
  match s with
  | EmptyString => []
  | String c s' => byte_val c :: bytes_of s'
  end.

Definition PDUIPv4 `{NetText} (p : SnmpPDU) : option IP :=
  match pdu_Value p with
  | VString s => ParseIP s ≫= To4
  | VBytes s => if bool_decide (slen s = 4%nat) then Some (bytes_of s) else None
  | _ => None
  end.

(** ** OID suffixes *)

Definition TrimOIDPrefix (s prefix : string) : option string :=
  if HasPrefix s prefix then
    let rest := sdrop (slen prefix) s in
    if bool_decide (rest = "") then None else Some rest
  else None.

(** The value, the rest and the success flag are one option here; on the failing
    last component the Go code returns the zero of [Atoi]. *)
Definition SplitOIDComponent (s : string) : option (Z * string) :=
  match IndexByte s "."%char with
  | None => (λ v, (v, "")) <$> Atoi s
  | Some i => (λ v, (v, sdrop (S i) s)) <$> Atoi (stake i s)
  end.

(** ** Scope *)

Definition IPInNets (ip : IP) (nets : list IPNet) : bool := existsb (λ n, Contains n ip) nets.

Definition is_OutOfScope (ip : IP) (allowedNets : list IPNet) : bool :=
  negb (bool_decide (allowedNets = [])) && negb (IPInNets ip allowedNets).

Definition IsCatchAll (nets : list IPNet) : bool :=
  existsb (λ n, let '(ones, bits) := mask_Size (n_Mask n) in (ones =? 0) && negb (bits =? 0)) nets.

Definition NewOutOfScopeNeighbour (proto reportingDevice reportingPort hint : string) (now : time)
  : OutOfScopeNeighbour :=
  mkOOS reportingDevice reportingPort hint proto now now.

Definition ParseCIDRs `{NetText} (cidrs : list string) : list IPNet := omap ParseCIDR cidrs.

(** The error is the first malformed entry. *)
Fixpoint ParseCIDRsStrict `{NetText} (cidrs : list string) : string + list IPNet :=
  match cidrs with
  | [] => inr []
  | s :: cidrs' =>
      match ParseCIDR s with
      | None => inl s
      | Some n => do nets <- ParseCIDRsStrict cidrs'; inr (n :: nets)
      end
  end.

(** ** Names *)

Definition SanitisePortName (s : string) : string :=
  TruncateAtRuneBoundary (strip_control s) 255.

Definition NormaliseName `{U : Unicode} (s : string) : string :=
  TruncateAtRuneBoundary (ToLower (TrimSpace (strip_control s))) 255.

(** ** Tables *)

Record DecodeStats := mkDecodeStats {
  TotalRows : Z;
  ValidRows : Z;
  InvalidRows : Z;
  DecodeFailures : Z;
  TrimFailures : Z;
  Samples : list string
}.

Definition maxSamples : nat := 5.

Definition appendDecodeSample (samples : list string) (sample : string) : list string :=
  if (maxSamples <=? length samples)%nat then samples else samples ++ [sample].

Definition type_name (v : pdu_value) : string :=
  match v with
  | VInt _ => "int" | VInt32 _ => "int32" | VInt64 _ => "int64" | VUint _ => "uint"
  | VUint32 _ => "uint32" | VUint64 _ => "uint64" | VString _ => "string"
  | VBytes _ => "[]uint8" | VOther => "<nil>"
  end.

Record int_walk := mkIntWalk {
  iw_result : gmap string Z;
  iw_decode : Z;
  iw_trim : Z;
  iw_samples : list string
}.

Definition int_row (prefix : string) (st : int_walk) (p : SnmpPDU) : int_walk :=
  match TrimOIDPrefix (pdu_Name p) prefix with
  | None =>
      mkIntWalk (iw_result st) (iw_decode st) (iw_trim st + 1)
        (appendDecodeSample (iw_samples st) ("trim:" +:+ pdu_Name p))
  | Some key =>
      match PDUIntStrict p with
      | None =>
          mkIntWalk (iw_result st) (iw_decode st + 1) (iw_trim st)
            (appendDecodeSample (iw_samples st)
               ("decode:" +:+ key +:+ ":" +:+ type_name (pdu_Value p)))
      | Some v => mkIntWalk (<[key := v]> (iw_result st)) (iw_decode st) (iw_trim st) (iw_samples st)
      end
  end.

Record DecodeIssue := mkDecodeIssue {
  di_Module : string;
  di_OID : string;
  di_Reason : string;
  di_Count : Z
}.

(** [WalkToIntMapStrict] on the variables of a successful walk: the map, the
    statistics and the issues that are reported.  [InvalidRatio] is the quotient
    of two fields and is compared without being computed, in
    [EvaluateRequiredTablePolicy]. *)
Definition WalkToIntMapStrict (module oid : string) (pdus : list SnmpPDU)
  : gmap string Z * DecodeStats * list DecodeIssue :=
  let prefix := "." +:+ oid +:+ "." in
  let st := fold_left (int_row prefix) pdus (mkIntWalk ∅ 0 0 []) in
  let stats := mkDecodeStats (Z.of_nat (length pdus)) (Z.of_nat (size (iw_result st)))
                 (iw_decode st + iw_trim st) (iw_decode st) (iw_trim st) (iw_samples st) in
  let issues :=
    if bool_decide (module = "") then []
    else (if 0 <? iw_decode st then [mkDecodeIssue module oid "invalid_type" (iw_decode st)] else [])
         ++ (if 0 <? iw_trim st then [mkDecodeIssue module oid "invalid_oid" (iw_trim st)] else []) in
  (iw_result st, stats, issues).

(** The policy of a required table; the ratio is [pol_num / pol_den], and a
    negative one switches the check off. *)
Record RequiredTablePolicy := mkPolicy {
  MinValidRows : Z;
  pol_num : Z;
  pol_den : Z
}.

Inductive TableVerdict :=
  | TableOK
  | TableDegraded
  | TableHardFail (reason : string).

Definition ratio_exceeded (stats : DecodeStats) (pol : RequiredTablePolicy) : bool :=
  (0 <? TotalRows stats) && (pol_num pol * TotalRows stats <? InvalidRows stats * pol_den pol).

Definition EvaluateRequiredTablePolicy (stats : DecodeStats) (pol : RequiredTablePolicy)
  : TableVerdict :=
  if ValidRows stats <? MinValidRows pol then TableHardFail "required_table_no_valid_rows"
  else if (0 <=? pol_num pol) && ratio_exceeded stats pol
  then TableHardFail "required_table_invalid_ratio_exceeded"
  else if 0 <? InvalidRows stats then TableDegraded
  else TableOK.

(** [walkIntIndexedStrings]. *)
Definition name_row (prefix : string) (names : gmap Z string) (p : SnmpPDU) : gmap Z string :=
  match TrimOIDPrefix (pdu_Name p) prefix with
  | None => names
  | Some idxStr =>
      match Atoi idxStr with
      | None => names
      | Some idx => <[idx := SanitisePortName (PDUString p)]> names
      end
  end.

Definition walkIntIndexedStrings (oid : string) (pdus : list SnmpPDU) : gmap Z string :=
  fold_left (name_row ("." +:+ oid +:+ ".")) pdus ∅.

(** [WalkARPTable]: MAC text to IP text. *)
Definition arp_row `{NetText} (prefix : string) (m : gmap string string) (p : SnmpPDU)
  : gmap string string :=
  match TrimOIDPrefix (pdu_Name p) prefix with
  | None => m
  | Some suffix =>
      match IndexByte suffix "."%char with
      | None => m
      | Some dot =>
          match ParseIP (sdrop (S dot) suffix) with
          | None => m
          | Some ip =>
              match PDUBytes p with
              | Some mac =>
                  if bool_decide (slen mac = 6%nat)
                  then <[HardwareAddr_String mac := IP_String ip]> m else m
              | None => m
              end
          end
      end
  end.

Definition WalkARPTable `{NetText} (oid : string) (pdus : list SnmpPDU) : gmap string string :=
  fold_left (arp_row ("." +:+ oid +:+ ".")) pdus ∅.

(** ** Walker outcomes *)

Definition OutcomeEdges : string := "edges".
Definition OutcomeMIBUnimplemented : string := "mib_unimplemented".
Definition OutcomeNoNeighbours : string := "no_neighbours".
Definition OutcomeWalkerDrift : string := "walker_drift".
Definition OutcomeError : string := "error".

Definition ClassifyNeighbourOutcome (edgeCount : Z) (hadPDUs decoded : bool) : string :=
  if 0 <? edgeCount then OutcomeEdges
  else if negb hadPDUs then OutcomeMIBUnimplemented
  else if decoded then OutcomeNoNeighbours
  else OutcomeWalkerDrift.

(** ** Lemmas on text *)

Lemma ValidString_app a b :
  ValidString a = true → ValidString (a +:+ b) = ValidString b.
Proof.
  intros Ha. pattern a. apply valid_ind; [by rewrite sapp_nil_l| |done].
  intros r c t Hc _ IH. by rewrite sapp_assoc, (ValidString_rune _ _ _ Hc).
Qed.

Lemma ValidString_sconcat l : Forall (λ s, ValidString s = true) l → ValidString (sconcat l) = true.
Proof. induction 1 as [|s l Hs _ IH]; [done|]. cbn [sconcat]. by rewrite ValidString_app. Qed.

Lemma rune_code_Valid b r : rune_code b = Some r → ValidString b = true.
Proof. intros Hb. by rewrite <-(sapp_nil_r b), (ValidString_rune _ _ _ Hb). Qed.

(** Every rune has a well-formed encoding. *)
Lemma encode_rune_Valid r : ValidString (encode_rune r) = true.
Proof.
  unfold encode_rune. destruct (_ || _) eqn:Hbad; [done|]. unfold in_range in Hbad. bprop.
  destruct (r <? 128) eqn:L1; bprop.
  { apply (rune_code_Valid _ r). simpl. rewrite byte_val_chr by lia.
    by rewrite (proj2 (Z.ltb_lt _ _)). }
  assert (0 ≤ r mod 64 < 64) by (apply Z.mod_pos_bound; lia).
  assert (0 ≤ (r / 64) mod 64 < 64) by (apply Z.mod_pos_bound; lia).
  assert (0 ≤ (r / 4096) mod 64 < 64) by (apply Z.mod_pos_bound; lia).
  assert (∀ z lo hi, lo ≤ z ≤ hi → in_range lo hi z = true) as Hin.
  { intros z lo hi [? ?]. unfold in_range. by rewrite !(proj2 (Z.leb_le _ _)). }
  assert (∀ z, 0 ≤ z < 64 → is_cont (128 + z) = true) as Hcont
    by (intros; unfold is_cont; apply Hin; lia).
  destruct (r <? 2048) eqn:L2; bprop.
  { assert (2 ≤ r / 64 < 32) by (split; [apply Z.div_le_lower_bound|apply Z.div_lt_upper_bound]; lia).
    eapply rune_code_Valid. simpl. rewrite !byte_val_chr by lia. unfold seq2.
    rewrite Hin, Hcont by lia. done. }
  destruct (r <? 65536) eqn:L3; bprop.
  { assert (0 ≤ r / 4096 < 16) by (split; [apply Z.div_pos|apply Z.div_lt_upper_bound]; lia).
    assert (r / 64 = 64 * (r / 4096) + (r / 64) mod 64) as Hd.
    { assert (r / 4096 = r / 64 / 64) as -> by (rewrite Z.div_div by lia; done).
      apply Z.div_mod. lia. }
    assert (r = 64 * (r / 64) + r mod 64) as Hr by (apply Z.div_mod; lia).
    eapply rune_code_Valid. cbn [rune_code]. cbv zeta. rewrite !byte_val_chr by lia.
    match goal with |- (if ?c then _ else _) = _ => assert (c = true) as ->; [|reflexivity] end.
    unfold seq3. rewrite Hin, (Hcont (r mod 64)) by lia. rewrite andb_true_r, andb_true_l.
    destruct (224 + r / 4096 =? 224) eqn:E0; bprop; [apply Hin; lia|].
    destruct (224 + r / 4096 =? 237) eqn:E1; bprop; [apply Hin; lia|]. apply Hcont. lia. }
  assert (0 ≤ r / 262144 ≤ 4) by (split; [apply Z.div_pos|apply Z.lt_succ_r, Z.div_lt_upper_bound]; lia).
  assert (r / 4096 = 64 * (r / 262144) + (r / 4096) mod 64) as Hd.
  { assert (r / 262144 = r / 4096 / 64) as -> by (rewrite Z.div_div by lia; done).
    apply Z.div_mod. lia. }
  assert (r = 4096 * (r / 4096) + r mod 4096) as Hr by (apply Z.div_mod; lia).
  assert (0 ≤ r mod 4096 < 4096) by (apply Z.mod_pos_bound; lia).
  eapply rune_code_Valid. cbn [rune_code]. cbv zeta. rewrite !byte_val_chr by lia.
  match goal with |- (if ?c then _ else _) = _ => assert (c = true) as ->; [|reflexivity] end.
  unfold seq4. rewrite Hin, (Hcont (r mod 64)), (Hcont ((r / 64) mod 64)) by lia.
  rewrite !andb_true_r, andb_true_l.
  destruct (240 + r / 262144 =? 240) eqn:E0; bprop; [apply Hin; lia|].
  destruct (240 + r / 262144 =? 244) eqn:E1; bprop; [apply Hin; lia|]. apply Hcont. lia.
Qed.

Lemma strings_Map_Valid f s : ValidString (strings_Map f s) = true.
Proof.
  apply ValidString_sconcat. apply Forall_fmap. eapply Forall_impl; [apply (chunks_wf s)|].
  intros [r b|c] Hw; simpl in *.
  - destruct (f r) as [r'|]; [|done]. destruct (r' =? r); [by eapply rune_code_Valid|].
    apply encode_rune_Valid.
  - destruct (f RuneError); [apply encode_rune_Valid|done].
Qed.

Lemma TrimSpace_Valid s : ValidString s = true → ValidString (TrimSpace s) = true.
Proof.
  intros Hv. assert (∀ l, Forall chunk_wf l → forallb chunk_ok l = true →
    Forall (λ s, ValidString s = true) (chunk_bytes <$> l)) as Hok.
  { intros l Hw Hl. apply Forall_fmap. rewrite forallb_elem in Hl. apply Forall_forall.
    intros [r b|c] Hin; [|by specialize (Hl _ Hin)]. rewrite Forall_forall in Hw.
    simpl. eapply rune_code_Valid, (Hw _ Hin). }
  assert (∀ l, drop_space l `suffix_of` l) as Hsuf.
  { induction l as [|k l IH]; simpl; [done|]. destruct (IsSpace _); [|done]. by apply suffix_cons_r. }
  assert (∀ k, k ∈ reverse (drop_space (reverse (drop_space (chunks s)))) → k ∈ chunks s) as Hin.
  { intros k. rewrite elem_of_reverse. intros Hk.
    destruct (Hsuf (reverse (drop_space (chunks s)))) as [l1 H1].
    destruct (Hsuf (chunks s)) as [l2 H2]. rewrite H2. apply elem_of_app. right.
    apply elem_of_reverse. rewrite H1. apply elem_of_app. by right. }
  unfold TrimSpace. apply ValidString_sconcat, Hok.
  - apply Forall_forall. intros k Hk%Hin. pose proof (chunks_wf s) as Hw.
    rewrite Forall_forall in Hw. by apply Hw.
  - unfold ValidString in Hv. rewrite forallb_elem in Hv. apply forallb_elem. auto.
Qed.

Lemma control_free_prefix a b : control_free (a +:+ b) → control_free a.
Proof.
  intros H r Hr. specialize (H r Hr). rewrite has_byte_app in H. by apply orb_false_iff in H as [? _].
Qed.

Lemma control_free_app a b : control_free a → control_free b → control_free (a +:+ b).
Proof. intros Ha Hb r Hr. rewrite has_byte_app, (Ha r Hr), (Hb r Hr). done. Qed.

Lemma control_free_sconcat l : Forall control_free l → control_free (sconcat l).
Proof.
  induction 1 as [|s l Hs _ IH]; [by intros r|]. cbn [sconcat]. by apply control_free_app.
Qed.

(** One rune that is not an ASCII control has no control byte. *)
Lemma control_free_rune b r :
  rune_code b = Some r → ¬ (r < 32 ∨ r = 127) → control_free b.
Proof.
  intros Hb Hr. apply control_free_runes. unfold runes_of.
  rewrite <-(sapp_nil_r b), (chunks_app_rune _ _ _ Hb). simpl. constructor; [|constructor].
  apply orb_false_iff. rewrite Z.ltb_ge, Z.eqb_neq. simpl. lia.
Qed.

Lemma control_free_encode r : ¬ (0 ≤ r < 32 ∨ r = 127) → control_free (encode_rune r).
Proof.
  intros Hr. intros c Hc. unfold encode_rune.
  assert (byte_val (chr c) = c) as Hcc by (apply byte_val_chr; lia).
  assert (∀ z, 128 ≤ z < 256 → Ascii.eqb (chr z) (chr c) = false) as Hhi.
  { intros z Hz. apply Ascii.eqb_neq. intros Heq.
    rewrite <-(byte_val_chr z) in Hz by lia. rewrite Heq, Hcc in Hz. lia. }
  destruct (_ || _) eqn:Hbad; [cbn [has_byte]; by rewrite !Hhi by lia|].
  unfold in_range in Hbad. bprop. destruct (r <? 128) eqn:L1; bprop.
  { cbn [has_byte]. rewrite orb_false_r. apply Ascii.eqb_neq. intros Heq.
    assert (byte_val (chr r) = byte_val (chr c)) as He by by rewrite Heq.
    rewrite Hcc, byte_val_chr in He by lia. lia. }
  assert (0 ≤ r mod 64 < 64) by (apply Z.mod_pos_bound; lia).
  assert (0 ≤ (r / 64) mod 64 < 64) by (apply Z.mod_pos_bound; lia).
  assert (0 ≤ (r / 4096) mod 64 < 64) by (apply Z.mod_pos_bound; lia).
  assert (0 ≤ r / 262144 ≤ 4) by (split; [apply Z.div_pos|apply Z.lt_succ_r, Z.div_lt_upper_bound]; lia).
  destruct (r <? 2048) eqn:L2; bprop.
  { assert (0 ≤ r / 64 < 32) by (split; [apply Z.div_pos|apply Z.div_lt_upper_bound]; lia).
    cbn [has_byte]. by rewrite !Hhi by lia. }
  destruct (r <? 65536) eqn:L3; bprop.
  { assert (0 ≤ r / 4096 < 16) by (split; [apply Z.div_pos|apply Z.div_lt_upper_bound]; lia).
    cbn [has_byte]. by rewrite !Hhi by lia. }
  cbn [has_byte]. by rewrite !Hhi by lia.
Qed.

Lemma strings_Map_control_free f s :
  (∀ r, r ∈ runes_of s → match f r with None => True | Some r' => ¬ (r' < 32 ∨ r' = 127) end) →
  control_free (strings_Map f s).
Proof.
  intros Hf. apply control_free_sconcat, Forall_fmap, Forall_forall. intros k Hk. simpl.
  pose proof (chunks_wf s) as Hw. rewrite Forall_forall in Hw. specialize (Hw k Hk).
  assert (chunk_rune k ∈ runes_of s) as Hr by (apply list_elem_of_fmap; eauto).
  specialize (Hf _ Hr). destruct k as [r b|c]; simpl in *.
  - destruct (f r) as [r'|]; [|by intros ? ?]. destruct (r' =? r) eqn:E; bprop.
    + subst. by eapply control_free_rune.
    + apply control_free_encode. lia.
  - destruct (f RuneError) as [r'|]; [|by intros ? ?]. apply control_free_encode. lia.
Qed.

Lemma runes_nonneg s r : r ∈ runes_of s → 0 ≤ r.
Proof.
  intros (k & -> & Hk)%list_elem_of_fmap. pose proof (chunks_wf s) as Hw.
  rewrite Forall_forall in Hw. specialize (Hw k Hk). destruct k as [r0 b|c]; simpl in *; [|done].
  apply rune_code_range in Hw. lia.
Qed.

Lemma strip_control_control_free s : control_free (strip_control s).
Proof.
  apply strings_Map_control_free. intros r Hr. apply runes_nonneg in Hr.
  destruct (IsControl r) eqn:Hc; [done|]. unfold IsControl, in_range in Hc.
  bprop. destruct (0 <=? r) eqn:?, (r <=? 31) eqn:?, (127 <=? r) eqn:?, (r <=? 159) eqn:?; bprop; simpl in *; lia.
Qed.

Lemma truncate_text_ok s cap m :
  0 ≤ m ≤ cap → ValidString s = true → control_free s → text_ok cap (TruncateAtRuneBoundary s m).
Proof.
  intros Hm Hv Hc. split; [|split].
  - unfold zlen. pose proof (truncate_length s m). lia.
  - by apply truncate_valid.
  - destruct (truncate_prefix s m) as [t Ht]. rewrite Ht in Hc. by eapply control_free_prefix.
Qed.

(** ** Lemmas on numbers *)

Lemma digit_val_pretty (d : N) : (d < 10)%N → digit_val (pretty_N_char d) = Some (Z.of_N d).
Proof.
  intros Hd. destruct d as [|p]; [done|].
  do 4 (destruct p as [p|p|]; try done; try lia).
Qed.

Lemma parse_pretty_go (n : N) s : parse_digits 0 (pretty_N_go n s) = parse_digits (Z.of_N n) s.
Proof.
  revert s. induction (N.lt_wf_0 n) as [n _ IH]. intros s.
  destruct (decide (n = 0)%N) as [->|Hn]; [by rewrite pretty_N_go_0|].
  rewrite pretty_N_go_step by lia.
  rewrite IH by (apply N.div_lt; lia). cbn [parse_digits].
  rewrite digit_val_pretty by (apply N.mod_lt; lia). f_equal.
  rewrite N2Z.inj_div, N2Z.inj_mod by lia. rewrite (Z.div_mod (Z.of_N n) 10) at 3 by lia. simpl. lia.
Qed.

Lemma parse_pretty_N (n : N) : parse_digits 0 (pretty n) = Some (Z.of_N n).
Proof.
  unfold pretty, pretty_N. destruct (decide (n = 0)%N) as [->|]; [done|]. apply parse_pretty_go.
Qed.

Lemma parse_digits_no_byte c acc s v :
  parse_digits acc s = Some v → digit_val c = None → has_byte c s = false.
Proof.
  revert acc. induction s as [|b s IH]; intros acc; [done|]. cbn [parse_digits has_byte].
  destruct (digit_val b) as [d|] eqn:Hd; [|done]. intros Hp Hc.
  apply orb_false_iff. split; [|eauto]. apply Ascii.eqb_neq. intros ->. congruence.
Qed.

Lemma Atoi_digits s v :
  parse_digits 0 s = Some v → s ≠ "" → MinInt ≤ v ≤ MaxInt → Atoi s = Some v.
Proof.
  intros Hp Hne Hv. unfold Atoi. destruct s as [|c s]; [done|].
  assert (in_range MinInt MaxInt v = true) as Hr
    by (unfold in_range; apply andb_true_iff; rewrite !Z.leb_le; lia).
  destruct (Ascii.eqb_spec c "-"%char) as [->|_]; [done|].
  destruct (Ascii.eqb_spec c "+"%char) as [->|_]; [done|].
  rewrite Hp. cbn. by rewrite Hr.
Qed.

Lemma pretty_N_nonempty (n : N) : pretty n ≠ "".
Proof.
  intros Heq. pose proof (parse_pretty_N n) as Hp. rewrite Heq in Hp. simpl in Hp.
  injection Hp as Hp. assert (n = 0%N) as -> by lia. done.
Qed.

Lemma Atoi_Itoa z : MinInt ≤ z ≤ MaxInt → Atoi (Itoa z) = Some z.
Proof.
  intros Hz. unfold Itoa. destruct z as [|p|p]; [done| |].
  - change (pretty (Z.pos p)) with (pretty (N.pos p)).
    apply Atoi_digits; [apply (parse_pretty_N (N.pos p))|apply pretty_N_nonempty|done].
  - change (pretty (Z.neg p)) with (String "-"%char (pretty (N.pos p))).
    unfold Atoi. pose proof (pretty_N_nonempty (N.pos p)) as Hne.
    pose proof (parse_pretty_N (N.pos p)) as Hp.
    destruct (pretty (N.pos p)) as [|c s]; [done|]. cbn [Ascii.eqb Bool.eqb].
    rewrite Hp. cbn. unfold in_range.
    by rewrite (proj2 (Z.leb_le _ _)), (proj2 (Z.leb_le _ _)) by lia.
Qed.

Lemma Itoa_no_dot z : has_byte "."%char (Itoa z) = false.
Proof.
  unfold Itoa. destruct z as [|p|p]; [done| |].
  - change (pretty (Z.pos p)) with (pretty (N.pos p)).
    by eapply parse_digits_no_byte; [apply parse_pretty_N|].
  - change (pretty (Z.neg p)) with (String "-"%char (pretty (N.pos p))). cbn [has_byte].
    rewrite (parse_digits_no_byte "."%char _ _ _ (parse_pretty_N (N.pos p))) by done. done.
Qed.

Lemma IndexByte_app c a b : has_byte c a = false → IndexByte (a +:+ String c b) c = Some (slen a).
Proof.
  induction a as [|d a IH]; cbn [has_byte]; intros Ha.
  - rewrite sapp_nil_l. cbn [IndexByte]. by rewrite Ascii.eqb_refl.
  - apply orb_false_iff in Ha as [Hd Ha]. rewrite sapp_cons. cbn [IndexByte]. rewrite Hd, IH by done. done.
Qed.

Lemma sdrop_app_S c a b : sdrop (S (slen a)) (a +:+ String c b) = b.
Proof. induction a as [|d a IH]; [done|]. exact IH. Qed.

(** ** Lemmas on table walks *)

(** A row that decodes. *)
Definition good_row (prefix : string) (p : SnmpPDU) : option (string * Z) :=
  match TrimOIDPrefix (pdu_Name p) prefix, PDUIntStrict p with
  | Some key, Some v => Some (key, v)
  | _, _ => None
  end.

Definition good_rows (prefix : string) (rows : list SnmpPDU) : list (string * Z) :=
  omap (good_row prefix) rows.

Record walk_inv (prefix : string) (rows : list SnmpPDU) (st : int_walk) : Prop := {
  wi_sound : ∀ k v, iw_result st !! k = Some v → (k, v) ∈ good_rows prefix rows;
  wi_total : ∀ k, k ∈ (good_rows prefix rows).*1 → is_Some (iw_result st !! k);
  wi_count : iw_decode st + iw_trim st + Z.of_nat (length (good_rows prefix rows))
             = Z.of_nat (length rows);
  wi_nonneg : 0 ≤ iw_decode st ∧ 0 ≤ iw_trim st;
  wi_size : (size (iw_result st) ≤ length (good_rows prefix rows))%nat;
  wi_samples : (length (iw_samples st) ≤ maxSamples)%nat
}.

Lemma appendDecodeSample_le l x :
  (length l ≤ maxSamples)%nat → (length (appendDecodeSample l x) ≤ maxSamples)%nat.
Proof.
  intros Hl. unfold appendDecodeSample. destruct (_ <=? _)%nat eqn:E; [done|].
  apply Nat.leb_gt in E. rewrite length_app. simpl. lia.
Qed.

Lemma int_walk_inv prefix rows :
  walk_inv prefix rows (fold_left (int_row prefix) rows (mkIntWalk ∅ 0 0 [])).
Proof.
  apply (fold_left_prefix_inv (walk_inv prefix)).
  { split; simpl; [by intros k v; rewrite lookup_empty|by intros k Hk%elem_of_nil|done|done| |lia].
    by rewrite map_size_empty. }
  intros pre p st [Hs Ht Hc Hn Hsz Hsm]. unfold int_row.
  assert (good_rows prefix (pre ++ [p]) =
    good_rows prefix pre ++ match good_row prefix p with Some x => [x] | None => [] end) as Hg.
  { unfold good_rows. rewrite omap_app. csimpl. by destruct (good_row prefix p). }
  unfold good_row in Hg. assert (length (pre ++ [p]) = S (length pre)) as Hlen
    by (rewrite length_app; simpl; lia).
  destruct (TrimOIDPrefix (pdu_Name p) prefix) as [key|];
    [destruct (PDUIntStrict p) as [v|]|].
  - split; cbn [iw_result iw_decode iw_trim iw_samples]; rewrite ?Hg, ?Hlen, ?fmap_app.
    + intros k w [[<- <-]|[Hne Hl]]%lookup_insert_Some; set_solver.
    + intros k. rewrite elem_of_app. simpl. rewrite list_elem_of_singleton.
      destruct (decide (k = key)) as [->|Hne]; [rewrite lookup_insert_eq; eauto|].
      rewrite lookup_insert_ne by done. naive_solver.
    + rewrite length_app. simpl. lia.
    + done.
    + rewrite length_app. simpl. rewrite map_size_insert. destruct (iw_result st !! key); simpl; lia.
    + done.
  - rewrite app_nil_r in Hg. split; cbn [iw_result iw_decode iw_trim iw_samples]; rewrite ?Hg, ?Hlen; try done.
    + simpl. lia.
    + lia.
    + by apply appendDecodeSample_le.
  - rewrite app_nil_r in Hg. split; cbn [iw_result iw_decode iw_trim iw_samples]; rewrite ?Hg, ?Hlen; try done.
    + simpl. lia.
    + lia.
    + by apply appendDecodeSample_le.
Qed.

(** An IPv4 address in its sixteen-byte form. *)
Definition v4_in_v6 (ip : list Z) : list Z := repeat 0 10 ++ [255; 255] ++ ip.

Lemma To4_mapped ip : length ip = 4%nat → To4 (v4_in_v6 ip) = Some ip ∧ To4 ip = Some ip.
Proof.
  intros Hl. unfold To4. rewrite (bool_decide_eq_true_2 (length ip = 4%nat)) by done.
  split; [|done]. unfold v4_in_v6. rewrite !length_app, Hl.
  rewrite bool_decide_eq_false_2 by (simpl; lia). simpl. by rewrite drop_0.
Qed.

Definition numeric (v : pdu_value) : option Z :=
  match v with
  | VInt z | VInt32 z | VInt64 z | VUint z | VUint32 z | VUint64 z => Some z
  | _ => None
  end.

(** ** Properties *)

(** whatever bytes a device reports, the sanitised port name is accepted by the
    hub: at most 256 bytes, well-formed UTF-8, no control byte. *)
Theorem sanitised_port_passes_hub (s : string) :
  text_ok MaxPortNameBytes (SanitisePortName s) ∧ validateLabelValue (SanitisePortName s) = inr tt.
Proof.
  assert (text_ok MaxPortNameBytes (SanitisePortName s)) as Hok.
  { apply truncate_text_ok; [unfold MaxPortNameBytes; lia|apply strings_Map_Valid|
      apply strip_control_control_free]. }
  split; [done|]. apply text_ok_label in Hok as (_ & _ & ?); [done|apply MaxPortNameBytes_le].
Qed.

(** a normalised device name is accepted by the hub as a device ID, unless it is
    empty, for every lower-casing that does not turn a printable character into an
    ASCII control. *)
Theorem normalised_name_passes_hub `{U : Unicode} (s : string) :
  (∀ r, 128 ≤ r → ¬ (unicode_lower r < 32 ∨ unicode_lower r = 127)) →
  text_ok MaxDeviceIDBytes (NormaliseName s).
Proof.
  intros HU. apply truncate_text_ok; [unfold MaxDeviceIDBytes; lia|apply strings_Map_Valid|].
  apply strings_Map_control_free. intros r Hr. unfold unicode_ToLower.
  assert (control_free (TrimSpace (strip_control s))) as Hc.
  { apply control_free_sconcat, Forall_fmap, Forall_forall. intros k Hk.
    assert (∀ l, drop_space l `suffix_of` l) as Hsuf.
    { induction l as [|k' l IH]; simpl; [done|]. destruct (IsSpace _); [|done].
      by apply suffix_cons_r. }
    assert (k ∈ chunks (strip_control s)) as Hin.
    { rewrite elem_of_reverse in Hk.
      destruct (Hsuf (reverse (drop_space (chunks (strip_control s))))) as [l1 H1].
      destruct (Hsuf (chunks (strip_control s))) as [l2 H2]. rewrite H2. apply elem_of_app. right.
      apply elem_of_reverse. rewrite H1. apply elem_of_app. by right. }
    pose proof (strip_control_control_free s) as Hs. intros r' Hr'. specialize (Hs r' Hr').
    rewrite <-(chunks_bytes (strip_control s)) in Hs.
    apply list_elem_of_split in Hin as (l1 & l2 & Heq). rewrite Heq in Hs.
    rewrite fmap_app, fmap_cons, sconcat_app in Hs. cbn [sconcat] in Hs.
    rewrite !has_byte_app in Hs. simpl. by apply orb_false_iff in Hs as [_ [? _]%orb_false_iff]. }
  rewrite control_free_runes, Forall_forall in Hc. specialize (Hc r Hr). bprop.
  destruct (r <? 128) eqn:L; bprop; [|by apply HU]. unfold in_range.
  destruct ((65 <=? r) && (r <=? 90)) eqn:E; bprop; lia.
Qed.

(** strict integer decoding is exact: it succeeds on precisely the numeric values
    that an [int] can hold, with that value, and never wraps. *)
Theorem pdu_int_exact (p : SnmpPDU) (z : Z) :
  value_wf (pdu_Value p) →
  PDUIntStrict p = Some z ↔ numeric (pdu_Value p) = Some z ∧ MinInt ≤ z ≤ MaxInt.
Proof.
  unfold PDUIntStrict, value_wf. intros Hw.
  destruct (pdu_Value p); simpl in *; try (split; [done|by intros [? _]]);
    try (split; [intros [= <-]; split; [done|unfold MinInt, MaxInt in *; lia]|by intros [[= ->] _]]).
  - destruct (_ || _) eqn:E; bprop; [split; [done|]|split; [intros [= <-]; done|by intros [? _]]].
    intros [[= ->] ?]. destruct E; bprop; lia.
  - destruct (_ <? _) eqn:E; bprop; [split; [done|intros [[= ->] ?]; lia]|].
    split; [intros [= <-]; split; [done|unfold MinInt in *; lia]|by intros [? _]].
  - destruct (_ <? _) eqn:E; bprop; [split; [done|intros [[= ->] ?]; lia]|].
    split; [intros [= <-]; split; [done|unfold MinInt in *; lia]|by intros [? _]].
  - destruct (_ <? _) eqn:E; bprop; [split; [done|intros [[= ->] ?]; lia]|].
    split; [intros [= <-]; split; [done|unfold MinInt in *; lia]|by intros [? _]].
Qed.

(** OID components read back as they are written: a component followed by a dot
    and the rest splits into its value and that rest, a last component into its
    value and nothing. *)
Theorem oid_component_roundtrip (v : Z) (rest : string) :
  MinInt ≤ v ≤ MaxInt →
  SplitOIDComponent (Itoa v +:+ String "."%char rest) = Some (v, rest) ∧
  SplitOIDComponent (Itoa v) = Some (v, "").
Proof.
  intros Hv. pose proof (Itoa_no_dot v) as Hd. unfold SplitOIDComponent. split.
  - by rewrite IndexByte_app, stake_app, sdrop_app_S, Atoi_Itoa.
  - rewrite (proj2 (IndexByte_None _ _)), Atoi_Itoa by done. done.
Qed.

(** the accounting of a table walk is exact: every row is either decoded or
    counted once as invalid, the map holds decoded rows only and one for every
    decoded key, at most five samples are kept, and the reported issues add up to
    the invalid rows. *)
Theorem int_table_accounting (module oid : string) (pdus : list SnmpPDU) :
  module ≠ "" →
  let '(m, stats, issues) := WalkToIntMapStrict module oid pdus in
  let goods := good_rows ("." +:+ oid +:+ ".") pdus in
  TotalRows stats = Z.of_nat (length pdus) ∧
  InvalidRows stats + Z.of_nat (length goods) = TotalRows stats ∧
  ValidRows stats ≤ Z.of_nat (length goods) ∧
  (∀ k v, m !! k = Some v → (k, v) ∈ goods) ∧ (∀ k, k ∈ goods.*1 → is_Some (m !! k)) ∧
  (length (Samples stats) ≤ maxSamples)%nat ∧
  fold_right Z.add 0 (di_Count <$> issues) = InvalidRows stats.
Proof.
  intros Hm. unfold WalkToIntMapStrict. cbv zeta. rewrite bool_decide_eq_false_2 by done.
  destruct (int_walk_inv ("." +:+ oid +:+ ".") pdus) as [Hs Ht Hc Hn Hsz Hsm].
  set (st := fold_left _ _ _) in *. cbn [TotalRows InvalidRows ValidRows Samples].
  split_and!; [done|lia|lia|done|done|done|].
  destruct (0 <? iw_decode st) eqn:E1, (0 <? iw_trim st) eqn:E2; bprop; simpl; lia.
Qed.

(** the scope filter treats the two forms of an IPv4 address alike, and with no
    network configured nothing is out of scope. *)
Theorem scope_form_independent (ip : list Z) (nets : list IPNet) :
  length ip = 4%nat →
  is_OutOfScope (v4_in_v6 ip) nets = is_OutOfScope ip nets ∧ is_OutOfScope ip [] = false ∧
  (nets ≠ [] → is_OutOfScope ip nets = true ↔ ∀ n, n ∈ nets → Contains n ip = false).
Proof.
  intros Hl. destruct (To4_mapped ip Hl) as [H1 H2].
  assert (∀ n, Contains n (v4_in_v6 ip) = Contains n ip) as Hc
    by (intros n; unfold Contains; by rewrite H1, H2).
  split; [|split; [done|]].
  - unfold is_OutOfScope, IPInNets. do 2 f_equal. clear -Hc. induction nets as [|n l IH]; simpl; [done|].
    by rewrite Hc, IH.
  - intros Hne. unfold is_OutOfScope. rewrite bool_decide_eq_false_2 by done. simpl.
    rewrite negb_true_iff. unfold IPInNets. rewrite <-not_true_iff_false, existsb_elem. split.
    + intros Hn n Hin. destruct (Contains n ip) eqn:E; [|done]. destruct Hn. eauto.
    + intros Hn (n & Hin & E). rewrite Hn in E; done.
Qed.

(** ** Witnesses *)

Lemma normalised_name_passes_hub_witness :
  NormaliseName (U:=unicode_table) " Core-SW1.Example " = "core-sw1.example" ∧
  text_ok MaxDeviceIDBytes (NormaliseName (U:=unicode_table) " Core-SW1.Example ").
Proof.
  split; [vm_compute; reflexivity|]. apply (normalised_name_passes_hub (U:=unicode_table)).
  intros r Hr. unfold unicode_lower, unicode_table, in_range.
  repeat (match goal with |- context [if ?b then _ else _] => destruct b eqn:? end); lia.
Defined.

Lemma pdu_int_exact_witness :
  PDUIntStrict (mkPDU "x" (VUint64 (2 ^ 63 - 1))) = Some MaxInt ∧
  PDUIntStrict (mkPDU "x" (VUint64 (2 ^ 63))) = None.
Proof.
  split; [|vm_compute; reflexivity].
  apply (pdu_int_exact (mkPDU "x" (VUint64 (2 ^ 63 - 1))) MaxInt); [vm_compute; split; congruence|].
  split; [vm_compute; reflexivity|vm_compute; split; discriminate].
Defined.

Lemma oid_component_roundtrip_witness : SplitOIDComponent "12.7.3" = Some (12, "7.3").
Proof. exact (proj1 (oid_component_roundtrip 12 "7.3" ltac:(vm_compute; split; discriminate))). Defined.

Lemma int_table_accounting_witness :
  let '(m, stats, issues) := WalkToIntMapStrict "lldp" "1.2"
    [mkPDU ".1.2.5" (VInt 7); mkPDU ".1.2.6" (VString "x"); mkPDU ".9" (VInt 1)] in
  m !! "5" = Some 7 ∧ fold_right Z.add 0 (di_Count <$> issues) = InvalidRows stats.
Proof.
  pose proof (int_table_accounting "lldp" "1.2"
    [mkPDU ".1.2.5" (VInt 7); mkPDU ".1.2.6" (VString "x"); mkPDU ".9" (VInt 1)]
    ltac:(discriminate)) as H.
  split; [vm_compute; reflexivity|]. apply H.
Defined.

Lemma scope_form_independent_witness :
  is_OutOfScope (v4_in_v6 [10; 1; 2; 3]) [mkIPNet [10; 0; 0; 0] [255; 0; 0; 0]] = false.
Proof.
  rewrite (proj1 (scope_form_independent [10; 1; 2; 3] [mkIPNet [10; 0; 0; 0] [255; 0; 0; 0]] eq_refl)).
  vm_compute. reflexivity.
Defined.
