(* ===== verification/NetAddr.v ===== *)
(** * Package net: the text forms of addresses

    An executable model of what the program uses of Go's package net for text:
    [ParseIP], [IP.String], [ParseCIDR], [ParseMAC], [HardwareAddr.String].  It is the
    instance [go_net] of the interface [NetText]; theorems about the program hold for
    every implementation of the interface, or for those that satisfy [NetTextLaws],
    which [go_net] does. *)

From Stdlib Require Import ZArith Lia Ascii.
From S2P Require Import Prelude GoText Limits HubValidate Pdu.
Open Scope Z_scope.

(** ** Digits *)

(** [hex.EncodeToString]. *)
Definition hex_digit (z : Z) : ascii := if z <? 10 then chr (48 + z) else chr (87 + z).

Definition hex_byte (z : Z) : string := String (hex_digit (z / 16)) (String (hex_digit (z mod 16)) "").

Fixpoint hex_encode (s : string) : string :=
  match s with
  | EmptyString => ""
  | String c s' => hex_byte (byte_val c) +:+ hex_encode s'
  end.

Definition hex_val (c : ascii) : option Z :=
  let z := byte_val c in
  if in_range 48 57 z then Some (z - 48)
  else if in_range 97 102 z then Some (z - 87)
  else if in_range 65 70 z then Some (z - 55)
  else None.

Fixpoint all_digits (s : string) : bool :=
  match s with
  | EmptyString => true
  | String c s' => in_range 48 57 (byte_val c) && all_digits s'
  end.

(** ** Addresses from text *)

(** One decimal field of a dotted address: no leading zero, at most 255. *)
Definition v4_field (s : string) : option Z :=
  match s with
  | EmptyString => None
  | String c s' =>
      if (byte_val c =? 48) && negb (bool_decide (s' = "")) then None
      else match parse_digits 0 s with
           | Some v => if v <=? 255 then Some v else None
           | None => None
           end
  end.

Definition parseIPv4 (s : string) : option (list Z) :=
  match v4_field <$> strings_Split "."%char s with
  | [Some a; Some b; Some c; Some d] => Some [a; b; c; d]
  | _ => None
  end.

(** The hex digits in front of [s]: how many (five at most are read), their value
    and the rest. *)
Fixpoint hex_group (fuel : nat) (acc : Z) (s : string) : nat * Z * string :=
  match fuel, s with
  | S fuel', String c s' =>
      match hex_val c with
      | Some d => let '(n, v, r) := hex_group fuel' (acc * 16 + d) s' in (S n, v, r)
      | None => (0%nat, acc, s)
      end
  | _, _ => (0%nat, acc, s)
  end.

(** The loop of parseIPv6, eight groups at most: the bytes so far, where the ellipsis
    is, and what is left of the text.  Each round adds two bytes, or four at the end. *)
Fixpoint v6_loop (rounds : nat) (ip : list Z) (ellipsis : option nat) (s : string)
  : option (list Z * option nat * string) :=
  match rounds with
  | O => Some (ip, ellipsis, s)
  | S rounds' =>
      let '(off, acc, r) := hex_group 5 0 s in
      if bool_decide (off = 0%nat) || bool_decide (off = 5%nat) then None
      else match r with
      | EmptyString => Some (ip ++ [acc / 256; acc mod 256], ellipsis, "")
      | String c r' =>
          if Ascii.eqb c "." then
            if (match ellipsis with None => negb (bool_decide (length ip = 12%nat)) | Some _ => false end)
            then None
            else if (16 <? Z.of_nat (length ip) + 4) then None
            else (λ f, (ip ++ f, ellipsis, "")) <$> parseIPv4 s
          else if negb (Ascii.eqb c ":") then None
          else
            let ip := ip ++ [acc / 256; acc mod 256] in
            match r' with
            | EmptyString => None
            | String c2 r2 =>
                if Ascii.eqb c2 ":" then
                  match ellipsis with
                  | Some _ => None
                  | None => if bool_decide (r2 = "") then Some (ip, Some (length ip), "")
                            else v6_loop rounds' ip (Some (length ip)) r2
                  end
                else v6_loop rounds' ip ellipsis r'
            end
      end
  end.

Definition v6_finish (r : list Z * option nat * string) : option (list Z) :=
  let '(ip, ellipsis, s) := r in
  if negb (bool_decide (s = "")) then None
  else if (length ip <? 16)%nat then
    match ellipsis with
    | None => None
    | Some e => Some (take e ip ++ repeat 0 (16 - length ip) ++ drop e ip)
    end
  else match ellipsis with None => Some ip | Some _ => None end.

Definition parseIPv6 (s : string) : option (list Z) :=
  if HasPrefix s "::" then
    let s := sdrop 2 s in
    if bool_decide (s = "") then Some (repeat 0 16)
    else v6_loop 8 [] (Some 0%nat) s ≫= v6_finish
  else v6_loop 8 [] None s ≫= v6_finish.

(** [netip.ParseAddr] without zones: the first of '.', ':' and '%' decides. *)
Fixpoint addr_kind (s : string) : option ascii :=
  match s with
  | EmptyString => None
  | String c s' =>
      if Ascii.eqb c "." || Ascii.eqb c ":" || Ascii.eqb c "%" then Some c else addr_kind s'
  end.

Definition ParseAddr (s : string) : option (list Z) :=
  match addr_kind s with
  | Some c =>
      if Ascii.eqb c "." then parseIPv4 s
      else if Ascii.eqb c ":" then if has_byte "%"%char s then None else parseIPv6 s
      else None
  | None => None
  end.

Definition v4InV6Prefix : list Z := repeat 0 10 ++ [255; 255].

Definition As16 (ip : list Z) : list Z :=
  if bool_decide (length ip = 4%nat) then v4InV6Prefix ++ ip else ip.

Definition go_ParseIP (s : string) : option (list Z) := As16 <$> ParseAddr s.

(** [CIDRMask] and [IP.Mask]. *)
Fixpoint CIDRMask (bytes : nat) (ones : Z) : list Z :=
  match bytes with
  | O => []
  | S bytes' =>
      (if 8 <=? ones then 255 else if ones <=? 0 then 0 else 256 - 2 ^ (8 - ones))
      :: CIDRMask bytes' (ones - 8)
  end.

Fixpoint and_bytes (ip m : list Z) : list Z :=
  match ip, m with
  | a :: ip', k :: m' => Z.land a k :: and_bytes ip' m'
  | _, _ => []
  end.

Definition go_ParseCIDR (s : string) : option IPNet :=
  match IndexByte s "/"%char with
  | None => None
  | Some i =>
      match ParseAddr (stake i s) with
      | None => None
      | Some ip =>
          let mask := sdrop (S i) s in
          if bool_decide (mask = "") then None
          else match parse_digits 0 mask with
          | None => None
          | Some n =>
              if 8 * Z.of_nat (length ip) <? n then None
              else let m := CIDRMask (length ip) n in Some (mkIPNet (and_bytes ip m) m)
          end
      end
  end.

(** ** Text from addresses *)

Definition dotted (ip : list Z) : string := strings_Join (Itoa <$> ip) ".".

Fixpoint u16s (ip : list Z) : list Z :=
  match ip with
  | a :: b :: ip' => a * 256 + b :: u16s ip'
  | _ => []
  end.

(** The number of zero groups in front. *)
Fixpoint zero_run (l : list Z) : nat :=
  match l with
  | z :: l' => if z =? 0 then S (zero_run l') else 0%nat
  | [] => 0%nat
  end.

(** The first longest run of at least two zero groups: its start and length. *)
Fixpoint longest_run (i : nat) (l : list Z) (best : nat * nat) : nat * nat :=
  match l with
  | [] => best
  | _ :: l' =>
      let n := zero_run l in
      longest_run (S i) l' (if (2 <=? n)%nat && (best.2 <? n)%nat then (i, n) else best)
  end.

Definition hex_u16 (z : Z) : string :=
  let d k := hex_digit (z / 16 ^ k mod 16) in
  if z <? 16 then String (d 0) ""
  else if z <? 256 then String (d 1) (String (d 0) "")
  else if z <? 4096 then String (d 2) (String (d 1) (String (d 0) ""))
  else String (d 3) (String (d 2) (String (d 1) (String (d 0) ""))).

Definition v6_string (ip : list Z) : string :=
  let g := u16s ip in
  let '(start, n) := longest_run 0 g (0%nat, 0%nat) in
  if bool_decide (n = 0%nat) then strings_Join (hex_u16 <$> g) ":"
  else strings_Join (hex_u16 <$> take start g) ":" +:+ "::" +:+
       strings_Join (hex_u16 <$> drop (start + n) g) ":".

Definition go_IP_String (ip : list Z) : string :=
  if bool_decide (ip = []) then "<nil>"
  else if negb (bool_decide (length ip = 4%nat)) && negb (bool_decide (length ip = 16%nat))
  then "?" +:+ sconcat (hex_byte <$> ip)
  else match To4 ip with
       | Some ip4 => dotted ip4
       | None => v6_string ip
       end.

(** ** Hardware addresses *)

(** [xtoi2]: two hex digits, then the separator or the end. *)
Definition xtoi2 (s : string) (e : ascii) : option ascii :=
  match s with
  | String a (String b r) =>
      if match r with String c _ => negb (Ascii.eqb c e) | EmptyString => false end then None
      else match hex_val a, hex_val b with
           | Some x, Some y => Some (chr (16 * x + y))
           | _, _ => None
           end
  | _ => None
  end.

Fixpoint mac_pairs (n : nat) (sep : ascii) (s : string) : option string :=
  match n with
  | O => Some ""
  | S n' =>
      match xtoi2 s sep with
      | Some b => String b <$> mac_pairs n' sep (sdrop 3 s)
      | None => None
      end
  end.

Fixpoint mac_quads (n : nat) (s : string) : option string :=
  match n with
  | O => Some ""
  | S n' =>
      match xtoi2 (stake 2 s) "000"%char, xtoi2 (sdrop 2 s) "."%char with
      | Some a, Some b => (λ r, String a (String b r)) <$> mac_quads n' (sdrop 5 s)
      | _, _ => None
      end
  end.

Definition mac_size (n : nat) : bool := bool_decide (n ∈ [6%nat; 8%nat; 20%nat]).

Definition go_ParseMAC (s : string) : option string :=
  let len := slen s in
  if (len <? 14)%nat then None
  else
    let c2 := default "000"%char (snth 2 s) in
    if Ascii.eqb c2 ":" || Ascii.eqb c2 "-" then
      if negb ((len + 1) mod 3 =? 0)%nat || negb (mac_size ((len + 1) / 3)%nat) then None
      else mac_pairs ((len + 1) / 3)%nat c2 s
    else if Ascii.eqb (default "000"%char (snth 4 s)) "." then
      if negb ((len + 1) mod 5 =? 0)%nat || negb (mac_size (2 * (len + 1) / 5)%nat) then None
      else mac_quads ((len + 1) / 5)%nat s
    else None.

Definition go_HardwareAddr_String (s : string) : string :=
  strings_Join ((λ z, hex_byte z) <$> bytes_of s) ":".

Definition go_net : NetText := {|
  ParseIP := go_ParseIP;
  IP_String := go_IP_String;
  ParseCIDR := go_ParseCIDR;
  ParseMAC := go_ParseMAC;
  HardwareAddr_String := go_HardwareAddr_String
|}.

(** ** Test vectors *)

Example parse_ip_vectors :
  (go_ParseIP <$> ["10.0.0.1"; "010.0.0.1"; "1.2.3"; "::1"; "2001:db8::2"; "::ffff:1.2.3.4"; "1::2::3"]) =
  [Some (v4InV6Prefix ++ [10; 0; 0; 1]); None; None; Some (repeat 0 15 ++ [1]);
   Some ([32; 1; 13; 184] ++ repeat 0 11 ++ [2]); Some (v4InV6Prefix ++ [1; 2; 3; 4]); None].
Proof. vm_compute. reflexivity. Qed.

Example ip_string_vectors :
  (go_IP_String <$> [[10; 0; 0; 1]; v4InV6Prefix ++ [1; 2; 3; 4]; repeat 0 15 ++ [1]; repeat 0 16;
                     [32; 1; 13; 184; 0; 0; 0; 1; 0; 0; 0; 0; 0; 0; 0; 2]; []; [1; 2]]) =
  ["10.0.0.1"; "1.2.3.4"; "::1"; "::"; "2001:db8:0:1::2"; "<nil>"; "?0102"].
Proof. vm_compute. reflexivity. Qed.

Example mac_vectors :
  go_ParseMAC "00:1a:2B:3c:4d:5e" = go_ParseMAC "001a.2b3c.4d5e" ∧
  go_HardwareAddr_String <$> go_ParseMAC "00-1A-2b-3c-4d-5e" = Some "00:1a:2b:3c:4d:5e" ∧
  go_ParseMAC "00:1a:2b:3c:4d" = None.
Proof. vm_compute. done. Qed.

(** ** Printable text *)

Definition printable (s : string) : bool := all_bytes (λ c, in_range 32 126 (byte_val c)) s.

Lemma printable_app a b : printable (a +:+ b) = printable a && printable b.
Proof.
  induction a as [|c a IH]; [done|]. rewrite sapp_cons. unfold printable in *. cbn [all_bytes].
  by rewrite IH, andb_assoc.
Qed.

Lemma printable_text s : printable s = true → ValidString s = true ∧ control_free s.
Proof.
  rewrite control_free_runes. induction s as [|c s IH]; [done|].
  unfold printable. cbn [all_bytes]. intros [Hc Hs]%andb_true_iff.
  destruct (IH Hs) as [Hv Hf]. unfold in_range in Hc. bprop.
  rewrite runes_of_ascii by lia. split.
  - unfold ValidString in *. cbn [chunks]. cbv zeta. rewrite (proj2 (Z.ltb_lt _ _)) by lia. done.
  - constructor; [|done]. apply orb_false_iff. split; [apply Z.ltb_ge|apply Z.eqb_neq]; lia.
Qed.

Lemma printable_ok cap s : printable s = true → zlen s <= cap → text_ok cap s.
Proof. intros Hp Hl. destruct (printable_text _ Hp). done. Qed.

Lemma hex_digit_printable z : 0 ≤ z < 16 → in_range 32 126 (byte_val (hex_digit z)) = true.
Proof.
  intros Hz. unfold hex_digit, in_range. destruct (z <? 10) eqn:E; bprop;
    rewrite byte_val_chr by lia; apply andb_true_iff; split; apply Z.leb_le; lia.
Qed.

Lemma hex_byte_printable z : 0 ≤ z < 256 → printable (hex_byte z) = true.
Proof.
  intros Hz. unfold hex_byte, printable. cbn [all_bytes].
  rewrite !hex_digit_printable; [done|apply Z.mod_pos_bound; lia|].
  split; [apply Z.div_pos; lia|apply Z.div_lt_upper_bound; lia].
Qed.

Lemma hex_encode_printable s : printable (hex_encode s) = true.
Proof.
  induction s as [|c s IH]; [done|]. cbn [hex_encode].
  by rewrite printable_app, IH, hex_byte_printable by apply byte_val_range.
Qed.

Lemma hex_u16_printable z : printable (hex_u16 z) = true.
Proof.
  assert (∀ k, in_range 32 126 (byte_val (hex_digit (z / 16 ^ k mod 16))) = true) as Hd
    by (intros; apply hex_digit_printable, Z.mod_pos_bound; lia).
  unfold hex_u16, printable. repeat destruct (_ <? _); cbn [all_bytes]; by rewrite !Hd.
Qed.

Lemma digits_printable acc s v : parse_digits acc s = Some v → printable s = true.
Proof.
  revert acc. induction s as [|c s IH]; intros acc; [done|]. unfold printable. cbn [parse_digits all_bytes].
  destruct (digit_val c) as [d|] eqn:Hd; [|done]. intros Hp. apply andb_true_iff. split; [|by eapply IH].
  unfold digit_val, in_range in *. destruct (_ && _) eqn:E in Hd; [|done]. bprop.
  apply andb_true_iff. rewrite !Z.leb_le. lia.
Qed.

Lemma Itoa_printable z : printable (Itoa z) = true.
Proof.
  unfold Itoa. destruct z as [|p|p]; [done| |].
  - apply (digits_printable 0 _ (Z.pos p)), (parse_pretty_N (N.pos p)).
  - change (pretty (Z.neg p)) with (String "-"%char (pretty (N.pos p))).
    unfold printable. cbn [all_bytes]. apply andb_true_iff. split; [done|].
    apply (digits_printable 0 _ (Z.pos p)), (parse_pretty_N (N.pos p)).
Qed.

Lemma join_printable l sep :
  printable sep = true → Forall (λ s, printable s = true) l → printable (strings_Join l sep) = true.
Proof.
  intros Hsep. induction 1 as [|s l Hs Hl IH]; [done|]. destruct l as [|t l]; [done|].
  change (strings_Join (s :: t :: l) sep) with (s +:+ sep +:+ strings_Join (t :: l) sep).
  by rewrite !printable_app, Hs, Hsep, IH.
Qed.

Lemma join_length l sep n :
  Forall (λ s, (slen s ≤ n)%nat) l → (slen (strings_Join l sep) ≤ length l * (n + slen sep))%nat.
Proof.
  induction 1 as [|s l Hs Hl IH]; [done|]. destruct l as [|t l]; [simpl; lia|].
  change (strings_Join (s :: t :: l) sep) with (s +:+ sep +:+ strings_Join (t :: l) sep).
  rewrite !slen_app. cbn [length] in *. lia.
Qed.

(** A fact about all octets, by evaluation. *)
Lemma all_octets (P : Z → bool) z :
  forallb (λ n, P (Z.of_nat n)) (seq 0 256) = true → 0 ≤ z < 256 → P z = true.
Proof.
  rewrite forallb_elem. intros HP Hz. rewrite <-(Z2Nat.id z) by lia. apply HP, elem_of_seq. lia.
Qed.

Lemma octet_field z : 0 ≤ z < 256 → v4_field (Itoa z) = Some z.
Proof.
  intros Hz.
  pose proof (all_octets (λ z, bool_decide (v4_field (Itoa z) = Some z)) z eq_refl Hz) as Hd.
  by apply bool_decide_eq_true in Hd.
Qed.

Lemma octet_length z : 0 ≤ z < 256 → (slen (Itoa z) ≤ 3)%nat.
Proof.
  intros Hz. apply Nat.leb_le. by apply (all_octets (λ z, slen (Itoa z) <=? 3)%nat).
Qed.

Definition is_addr (ip : list Z) : Prop :=
  (length ip = 4%nat ∨ length ip = 16%nat) ∧ Forall (λ b, 0 ≤ b < 256) ip.

Lemma To4_sub ip ip4 : To4 ip = Some ip4 → is_addr ip → length ip4 = 4%nat ∧ Forall (λ b, 0 ≤ b < 256) ip4.
Proof.
  unfold To4. intros Ht [Hl Hb]. case_bool_decide; [by injection Ht as <-|].
  destruct (_ && _ && _) eqn:E; [|done]. injection Ht as <-. bprop.
  rewrite length_drop. split; [lia|]. by apply Forall_drop.
Qed.

Lemma go_IP_String_text ip : is_addr ip → go_IP_String ip ≠ "" ∧ text_ok MaxPortNameBytes (go_IP_String ip).
Proof.
  intros Ha. pose proof Ha as [Hl Hb]. unfold go_IP_String.
  rewrite bool_decide_eq_false_2 by (intros ->; naive_solver).
  replace (negb _ && negb _) with false
    by (destruct Hl as [-> | ->]; done).
  cut (printable (match To4 ip with Some ip4 => dotted ip4 | None => v6_string ip end) = true ∧
       (0 < slen (match To4 ip with Some ip4 => dotted ip4 | None => v6_string ip end) ≤ 256)%nat).
  { generalize (match To4 ip with Some ip4 => dotted ip4 | None => v6_string ip end). intros t [Hp Hlen].
    split; [intros ->; simpl in Hlen; lia|]. destruct (printable_text _ Hp). split; [|done].
    unfold zlen, MaxPortNameBytes. lia. }
  destruct (To4 ip) as [ip4|] eqn:H4.
  - apply To4_sub in H4 as [Hl4 Hb4]; [|done]. unfold dotted. split; [|split].
    + apply join_printable; [done|]. apply Forall_fmap, Forall_true. intros. apply Itoa_printable.
    + destruct ip4 as [|a [|b ip4]]; [done|done|]. cbn [fmap list_fmap strings_Join].
      rewrite !slen_app. simpl. lia.
    + etrans; [apply (join_length _ _ 3)|rewrite length_fmap, Hl4; simpl; lia].
      apply Forall_fmap. eapply Forall_impl; [exact Hb4|]. intros. by apply octet_length.
  - unfold v6_string. pose proof (hex_u16_printable) as Hp.
    assert (∀ l, Forall (λ s, printable s = true) (hex_u16 <$> l)) as Hall
      by (intros; apply Forall_fmap, Forall_true; intros; apply Hp).
    assert (∀ l, Forall (λ s, (slen s ≤ 4)%nat) (hex_u16 <$> l)) as Hlens.
    { intros. apply Forall_fmap, Forall_true. intros z. unfold hex_u16; simpl.
      repeat destruct (_ <? _); simpl; lia. }
    assert (length ip = 16%nat) as Hl16.
    { destruct Hl as [Hl|]; [|done]. unfold To4 in H4. by rewrite bool_decide_eq_true_2 in H4. }
    assert (length (u16s ip) = 8%nat) as Hg.
    { do 17 (destruct ip as [|? ip]; [done|]). done. }
    destruct (longest_run _ _ _) as [st n]. case_bool_decide.
    + split; [by apply join_printable|]. split.
      * destruct (u16s ip) as [|a [|b g]]; [done|done|]. cbn [fmap list_fmap strings_Join].
        rewrite !slen_app. simpl. lia.
      * etrans; [by apply (join_length _ _ 4)|]. rewrite length_fmap, Hg. simpl. lia.
    + split; [|split].
      * rewrite !printable_app. by rewrite !join_printable.
      * rewrite !slen_app. simpl. lia.
      * rewrite !slen_app.
        pose proof (join_length _ ":" 4 (Hlens (take st (u16s ip)))) as H1.
        pose proof (join_length _ ":" 4 (Hlens (drop (st + n) (u16s ip)))) as H2.
        rewrite length_fmap in H1, H2. rewrite length_take in H1. rewrite length_drop in H2.
        rewrite Hg in H1, H2. simpl in *. lia.
Qed.

Lemma go_HardwareAddr_text m :
  slen m = 6%nat → go_HardwareAddr_String m ≠ "" ∧ text_ok MaxPortNameBytes (go_HardwareAddr_String m).
Proof.
  intros Hm.
  assert (Forall (λ z, 0 ≤ z < 256) (bytes_of m)) as Hb.
  { clear Hm. induction m; constructor; [apply byte_val_range|done]. }
  do 6 (destruct m as [|? m]; [done|]). destruct m; [|done]. clear Hm.
  unfold go_HardwareAddr_String. cbn [bytes_of] in *. split; [done|].
  assert (printable (strings_Join (hex_byte <$> [byte_val a; byte_val a0; byte_val a1; byte_val a2; byte_val a3; byte_val a4]) ":") = true) as Hp.
  { apply join_printable; [done|]. apply Forall_fmap. eapply Forall_impl; [exact Hb|].
    intros. by apply hex_byte_printable. }
  destruct (printable_text _ Hp). split; [|done]. done.
Qed.

(** ** The laws a client may use *)

Class NetTextLaws (N : NetText) : Prop := {
  ntl_ip : ∀ ip, is_addr ip → IP_String ip ≠ "" ∧ text_ok MaxPortNameBytes (IP_String ip);
  ntl_mac : ∀ m, slen m = 6%nat →
    HardwareAddr_String m ≠ "" ∧ text_ok MaxPortNameBytes (HardwareAddr_String m);
  ntl_v4 : ∀ ip, is_addr ip → length ip = 4%nat → ParseIP (IP_String ip) ≫= To4 = Some ip;
  ntl_parse : ∀ s ip, ParseIP s = Some ip → is_addr ip
}.

Lemma split_app c p r :
  has_byte c p = false → strings_Split c (p +:+ String c r) = p :: strings_Split c r.
Proof.
  induction p as [|b p IH]; simpl; [by rewrite Ascii.eqb_refl|].
  intros [Hb Hp]%orb_false_iff. by rewrite Hb, IH.
Qed.

Lemma split_single c p : has_byte c p = false → strings_Split c p = [p].
Proof.
  induction p as [|b p IH]; simpl; [done|]. intros [Hb Hp]%orb_false_iff. by rewrite Hb, IH.
Qed.

(** Joining and splitting again, when no piece has the separator. *)
Lemma split_join c l :
  l ≠ [] → Forall (λ s, has_byte c s = false) l → strings_Split c (strings_Join l (String c "")) = l.
Proof.
  intros Hne. induction 1 as [|s l Hs Hl IH]; [done|]. destruct l as [|t l].
  - by apply split_single.
  - change (strings_Join (s :: t :: l) (String c "")) with
      (s +:+ String c (strings_Join (t :: l) (String c ""))).
    by rewrite split_app, IH.
Qed.

Lemma addr_kind_digits acc s v r :
  parse_digits acc s = Some v → addr_kind (s +:+ r) = addr_kind r.
Proof.
  revert acc. induction s as [|c s IH]; intros acc; [done|]. cbn [parse_digits].
  destruct (digit_val c) as [d|] eqn:Hd; [|done]. intros Hp. rewrite sapp_cons. cbn [addr_kind].
  rewrite (IH _ Hp). destruct (_ || _) eqn:E; [|done]. exfalso.
  apply orb_true_iff in E as [[->%Ascii.eqb_eq| ->%Ascii.eqb_eq]%orb_true_iff| ->%Ascii.eqb_eq]; done.
Qed.

Lemma Itoa_digits z : 0 ≤ z → parse_digits 0 (Itoa z) = Some z.
Proof.
  intros Hz. unfold Itoa. destruct z as [|p|p]; [done| |lia]. apply (parse_pretty_N (N.pos p)).
Qed.

Lemma parse_dotted a b c d :
  Forall (λ z, 0 ≤ z < 256) [a; b; c; d] → ParseAddr (dotted [a; b; c; d]) = Some [a; b; c; d].
Proof.
  intros Hf. unfold ParseAddr. assert (addr_kind (dotted [a; b; c; d]) = Some "."%char) as ->.
  { unfold dotted. cbn [fmap list_fmap strings_Join]. inversion Hf as [|? ? [Ha _]]; subst.
    by rewrite (addr_kind_digits 0 _ a) by by apply Itoa_digits. }
  rewrite Ascii.eqb_refl. unfold parseIPv4, dotted. rewrite split_join; [|done|].
  - cbn [fmap list_fmap]. repeat match goal with H : Forall _ (_ :: _) |- _ => inversion H; clear H; subst end.
    by rewrite !octet_field.
  - apply Forall_fmap, Forall_true. intros. apply Itoa_no_dot.
Qed.

Lemma v4_field_range s v : v4_field s = Some v → 0 ≤ v < 256.
Proof.
  unfold v4_field. destruct s as [|c s]; [done|]. destruct (_ && _); [done|].
  destruct (parse_digits 0 (String c s)) as [z|] eqn:Hp; [|done]. destruct (z <=? 255) eqn:E; [|done].
  intros [= <-]. bprop. split; [|lia]. revert Hp. generalize (String c s).
  assert (∀ t acc w, 0 ≤ acc → parse_digits acc t = Some w → 0 ≤ w) as Hpos.
  { induction t as [|c' t IH]; cbn [parse_digits]; intros acc w Hacc; [naive_solver|].
    destruct (digit_val c') as [d|] eqn:Hd; [|done]. apply IH.
    unfold digit_val, in_range in Hd. destruct (_ && _) eqn:E2 in Hd; [|done]. bprop. naive_solver lia. }
  intros t Ht. by apply (Hpos t 0).
Qed.

Lemma parseIPv4_addr s ip : parseIPv4 s = Some ip → length ip = 4%nat ∧ Forall (λ b, 0 ≤ b < 256) ip.
Proof.
  unfold parseIPv4. destruct (v4_field <$> strings_Split "."%char s) as [|[a|] [|[b|] [|[c|] [|[d|] [|]]]]] eqn:E; try done.
  intros [= <-]. split; [done|].
  assert (∀ v, Some v ∈ v4_field <$> strings_Split "."%char s → 0 ≤ v < 256) as Hr.
  { intros v (t & Hv & _)%list_elem_of_fmap. symmetry in Hv. by eapply v4_field_range. }
  rewrite E in Hr. repeat constructor; apply Hr; set_solver.
Qed.

(** A group of [n] hex digits is below 16^n. *)
Lemma hex_group_range fuel acc s n v r :
  hex_group fuel acc s = (n, v, r) → 0 ≤ acc → 0 ≤ v < (acc + 1) * 16 ^ Z.of_nat n.
Proof.
  revert acc s n v r. induction fuel as [|fuel IH]; intros acc s n v r; simpl.
  { destruct s; intros [= <- <- <-]; simpl; lia. }
  destruct s as [|c s]; [intros [= <- <- <-]; simpl; lia|].
  destruct (hex_val c) as [d|] eqn:Hd; [|intros [= <- <- <-]; simpl; lia].
  assert (0 ≤ d < 16) as Hd16.
  { unfold hex_val, in_range in Hd. repeat (destruct (_ && _) eqn:? in Hd; [bprop; naive_solver lia|]). done. }
  destruct (hex_group fuel (acc * 16 + d) s) as [[n' v'] r'] eqn:Hg. intros [= <- <- <-] Hacc.
  apply IH in Hg; [|lia]. rewrite Nat2Z.inj_succ, Z.pow_succ_r by lia.
  assert (0 < 16 ^ Z.of_nat n') by (apply Z.pow_pos_nonneg; lia). nia.
Qed.

Lemma hex_group_short fuel acc s n v r : hex_group fuel acc s = (n, v, r) → (n ≤ fuel)%nat.
Proof.
  revert acc s n v r. induction fuel as [|fuel IH]; intros acc s n v r; simpl.
  { destruct s; intros [= <- <- <-]; lia. }
  destruct s as [|c s]; [intros [= <- <- <-]; lia|].
  destruct (hex_val c) as [d|]; [|intros [= <- <- <-]; lia].
  destruct (hex_group fuel (acc * 16 + d) s) as [[n' v'] r'] eqn:Hg. intros [= <- <- <-].
  apply IH in Hg. lia.
Qed.

Lemma v6_loop_bytes rounds ip e s ip' e' s' :
  (length ip + 2 * rounds ≤ 16)%nat → Forall (λ b, 0 ≤ b < 256) ip →
  v6_loop rounds ip e s = Some (ip', e', s') →
  (length ip' ≤ 16)%nat ∧ Forall (λ b, 0 ≤ b < 256) ip'.
Proof.
  revert ip e s. induction rounds as [|rounds IH]; intros ip e s Hl Hb; cbn [v6_loop].
  { intros [= <- <- <-]. split; [lia|done]. }
  destruct (hex_group 5 0 s) as [[off acc] r] eqn:Hg.
  destruct (_ || _) eqn:Hoff; [done|]. bprop.
  assert (Forall (λ b, 0 ≤ b < 256) (ip ++ [acc / 256; acc mod 256])) as Hb2.
  { pose proof (hex_group_short _ _ _ _ _ _ Hg). apply hex_group_range in Hg; [|lia].
    assert (acc < 65536).
    { eapply Z.lt_le_trans; [apply Hg|]. rewrite Z.add_0_l, Z.mul_1_l. change 65536 with (16 ^ 4).
      apply Z.pow_le_mono_r; lia. }
    apply Forall_app. split; [done|]. repeat constructor.
    - apply Z.div_pos; lia. - apply Z.div_lt_upper_bound; lia.
    - apply Z.mod_pos_bound. lia. - apply Z.mod_pos_bound. lia. }
  assert ((length (ip ++ [(acc / 256)%Z; (acc mod 256)%Z]) + 2 * rounds ≤ 16)%nat) as Hl2
    by (rewrite length_app; simpl; lia).
  destruct r as [|c r']; [intros [= <- <- <-]; split; [lia|done]|].
  destruct (Ascii.eqb c "."%char).
  { destruct (match e with None => _ | Some _ => _ end); [done|].
    destruct (16 <? _) eqn:H16; [done|]. bprop.
    destruct (parseIPv4 s) as [f|] eqn:Hf; [|done]. intros [= <- <- <-].
    apply parseIPv4_addr in Hf as [Hlf Hbf]. rewrite length_app. split; [lia|]. by apply Forall_app. }
  destruct (negb (Ascii.eqb c ":"%char)); [done|].
  destruct r' as [|c2 r2]; [done|]. destruct (Ascii.eqb c2 ":"%char); [|by apply IH].
  destruct e as [|]; [done|]. case_bool_decide; [|by apply IH].
  intros [= <- <- <-]. split; [lia|done].
Qed.

Lemma v6_finish_addr r ip :
  v6_finish r = Some ip → (length r.1.1 ≤ 16)%nat → Forall (λ b, 0 ≤ b < 256) r.1.1 → is_addr ip.
Proof.
  destruct r as [[bs e] s]. unfold v6_finish. simpl. intros Hf Hl Hb. destruct (negb _); [done|].
  destruct (length bs <? 16)%nat eqn:E; [apply Nat.ltb_lt in E|apply Nat.ltb_ge in E].
  - destruct e as [e|]; [|done]. injection Hf as <-. split.
    + right. rewrite !length_app, repeat_length, length_take, length_drop. lia.
    + rewrite !Forall_app. split_and!; [by apply Forall_take| |by apply Forall_drop].
      apply Forall_forall. intros b ->%list_elem_of_In%repeat_spec. lia.
  - destruct e; [done|]. injection Hf as <-. split; [right; lia|done].
Qed.

Lemma go_ParseIP_addr s ip : go_ParseIP s = Some ip → is_addr ip.
Proof.
  unfold go_ParseIP. destruct (ParseAddr s) as [x|] eqn:Hx; [|done]. intros [= <-].
  assert (is_addr x) as Hax.
  { unfold ParseAddr in Hx. destruct (addr_kind s) as [c|]; [|done].
    destruct (Ascii.eqb c "."%char).
    { apply parseIPv4_addr in Hx as [? ?]. split; auto. }
    destruct (Ascii.eqb c ":"%char); [|done]. destruct (has_byte _ _); [done|].
    unfold parseIPv6 in Hx. destruct (HasPrefix s "::").
    - case_bool_decide.
      + injection Hx as <-. split; [by right|]. by repeat constructor.
      + apply bind_Some in Hx as ([[bs e] s'] & Hlp & Hf).
        apply v6_loop_bytes in Hlp as [? ?]; [|simpl; lia|constructor]. by eapply v6_finish_addr.
    - apply bind_Some in Hx as ([[bs e] s'] & Hlp & Hf).
      apply v6_loop_bytes in Hlp as [? ?]; [|simpl; lia|constructor]. by eapply v6_finish_addr. }
  destruct Hax as [Hl Hb]. unfold As16. case_bool_decide as H4; [|by split].
  split; [right; rewrite length_app, H4; done|]. apply Forall_app. split; [by repeat constructor|done].
Qed.

#[export] Instance go_net_laws : NetTextLaws go_net.
Proof.
  split.
  - apply go_IP_String_text.
  - apply go_HardwareAddr_text.
  - intros ip [_ Hb] Hl. do 4 (destruct ip as [|? ip]; [done|]). destruct ip; [|done].
    cbn [ParseIP IP_String go_net]. unfold go_ParseIP.
    replace (go_IP_String [z; z0; z1; z2]) with (dotted [z; z0; z1; z2]) by done.
    by rewrite parse_dotted.
  - apply go_ParseIP_addr.
Qed.
