(* ===== verification/Walker.v ===== *)
(** * internal/discovery: what the protocol walkers share

    Each walker (packages lldp, cdp, fdb, ospf, isis, bgp, mpls) acquires an SNMP
    session, reads a few tables with snmputil.BulkWalk, groups the variables of a
    table by the row index of their OID, turns each row into an edge, an
    out-of-scope neighbour or nothing, and reports what it saw.

    The session is a function from the root OID of a table to the outcome of its
    BulkWalk (the transport itself is in [Transport], the pool in [SessionPool]).
    What a walker reports to the metrics, the decode-issue reporter and the log
    limiter is a list of events, in order, next to its result: [W] is the monad of
    such computations. *)

From Stdlib Require Import ZArith Lia Ascii.
From S2P Require Import Prelude GoText Sanitize Discovery Limits HubValidate Pdu NetAddr.
Open Scope Z_scope.

(** ** Errors and events *)

(** What the callers ask of an error: the reason of a PolicyError in its chain, and
    whether a context deadline, a cancellation or a [net.Error] is in it. *)
Record walk_error := mkWalkError {
  we_policy : option string;
  we_deadline : bool;
  we_canceled : bool;
  we_net : bool
}.

#[export] Instance walk_error_eq_dec : EqDecision walk_error.
Proof. solve_decision. Defined.

#[export] Instance DecodeIssue_eq_dec : EqDecision DecodeIssue.
Proof. solve_decision. Defined.

Definition PolicyError (reason : string) : walk_error := mkWalkError (Some reason) false false false.

Inductive walk_event :=
  | EvDecodeIssue (i : DecodeIssue)
  | EvProtocolOutcome (walker outcome : string)
  | EvBGPOutcome (walker outcome : string)
  | EvDegraded (module reason : string)
  | EvWarn (key : option string)
  | EvPanic (site : string)
  | EvRelease (err : option walk_error).

#[export] Instance walk_event_eq_dec : EqDecision walk_event.
Proof. solve_decision. Defined.

(** [ReportDecodeIssue]. *)
Definition ReportDecodeIssue (module oid reason : string) (count : Z) : walk_event :=
  EvDecodeIssue (mkDecodeIssue module oid reason count).

(** ** The monad of a walk *)

Definition W (A : Type) : Type := list walk_event * (walk_error + A).

Definition W_ret {A} (a : A) : W A := ([], inr a).
Definition W_fail {A} (e : walk_error) : W A := ([], inl e).
Definition W_emit (ev : list walk_event) : W unit := (ev, inr tt).

Definition W_bind {A B} (m : W A) (f : A → W B) : W B :=
  match m with
  | (ev, inl e) => (ev, inl e)
  | (ev, inr a) => let '(ev', r) := f a in (ev ++ ev', r)
  end.

(** The events recorded before the early return of a failing step. *)
Definition on_error {A} (ev : list walk_event) (m : W A) : W A :=
  match m with
  | (ev', inl e) => (ev' ++ ev, inl e)
  | _ => m
  end.

Declare Scope walk_scope.
Delimit Scope walk_scope with walk.
Notation "'let!' x := m 'in' k" := (W_bind m (λ x, k))
  (at level 200, x pattern, m at level 100, k at level 200) : walk_scope.
Open Scope walk_scope.

(** An error that the caller keeps and goes on with. *)
Definition W_try {A} (m : W A) : W (walk_error + A) := (m.1, inr m.2).

Definition W_events {A} (m : W A) : list walk_event := m.1.
Definition W_value {A} (m : W A) : walk_error + A := m.2.

Lemma W_bind_inr {A B} (m : W A) (f : A → W B) ev b :
  W_bind m f = (ev, inr b) ↔
  ∃ ev1 a ev2, m = (ev1, inr a) ∧ f a = (ev2, inr b) ∧ ev = ev1 ++ ev2.
Proof.
  destruct m as [ev1 [e|a]]; simpl.
  - split; [done|]. intros (? & ? & ? & ? & ? & ?). congruence.
  - destruct (f a) as [ev2 r] eqn:Hf. split.
    + intros [= <- ->]. by exists ev1, a, ev2.
    + intros (? & ? & ? & [= <- <-] & Hf' & ->). rewrite Hf in Hf'. by injection Hf' as [= <- ->].
Qed.

Lemma W_value_bind {A B} (m : W A) (f : A → W B) b :
  W_value (W_bind m f) = inr b ↔ ∃ a, W_value m = inr a ∧ W_value (f a) = inr b.
Proof.
  unfold W_value. destruct m as [ev1 [e|a]]; simpl.
  - split; [done|]. by intros (? & ? & ?).
  - destruct (f a) as [ev2 r] eqn:Hf. simpl. split.
    + intros ->. exists a. by rewrite Hf.
    + intros (? & [= <-] & Hf'). by rewrite Hf in Hf'.
Qed.

Lemma W_value_on_error {A} ev (m : W A) : W_value (on_error ev m) = W_value m.
Proof. by destruct m as [ev' [e|a]]. Qed.

(** ** Sessions *)

Definition session : Type := string → walk_error + list SnmpPDU.

Definition BulkWalk (s : session) (rootOID : string) : W (list SnmpPDU) := ([], s rootOID).

(** [client, release, err := snmputil.Acquire(p)] with the deferred
    [release(retErr)]: [failed] is what is recorded when no session is to be had. *)
Definition with_session {A} (failed : list walk_event) (acquired : walk_error + session)
    (body : session → W A) : W A :=
  match acquired with
  | inl e => (failed, inl e)
  | inr s =>
      let '(ev, r) := body s in
      (ev ++ [EvRelease (match r with inl e => Some e | inr _ => None end)], r)
  end.

Lemma with_session_value {A} failed acq (body : session → W A) a :
  W_value (with_session failed acq body) = inr a ↔ ∃ s, acq = inr s ∧ W_value (body s) = inr a.
Proof.
  unfold W_value. destruct acq as [e|s]; simpl.
  - split; [done|]. by intros (? & ? & ?).
  - destruct (body s) as [ev r] eqn:Hb. simpl. split.
    + intros ->. exists s. by rewrite Hb.
    + intros (? & [= <-] & Hb'). by rewrite Hb in Hb'.
Qed.

(** Strict decoding of an integer column, its issues as events. *)
Definition WalkIntMap (s : session) (module oid : string) : W (gmap string Z * DecodeStats) :=
  let! pdus := BulkWalk s oid in
  let '(m, stats, issues) := WalkToIntMapStrict module oid pdus in
  (EvDecodeIssue <$> issues, inr (m, stats)).

Lemma WalkIntMap_ok s module oid pdus :
  s oid = inr pdus →
  WalkIntMap s module oid =
  (EvDecodeIssue <$> (WalkToIntMapStrict module oid pdus).2, inr (WalkToIntMapStrict module oid pdus).1).
Proof. intros Hs. unfold WalkIntMap, BulkWalk. rewrite Hs. cbn [W_bind]. by destruct (WalkToIntMapStrict _ _ _) as [[m st] iss]. Qed.

Definition oidIfNameTable : string := "1.3.6.1.2.1.31.1.1.1.1".
Definition OIDIfDescr : string := "1.3.6.1.2.1.2.2.1.2".

Definition WalkIfNames (s : session) : W (gmap Z string) :=
  let! pdus := BulkWalk s oidIfNameTable in W_ret (walkIntIndexedStrings oidIfNameTable pdus).

Definition WalkIfDescr (s : session) : W (gmap Z string) :=
  let! pdus := BulkWalk s OIDIfDescr in W_ret (walkIntIndexedStrings OIDIfDescr pdus).

(** [WalkIfNamesWithFallback] over a session.  When both walks succeed without a
    name the source returns a nil map, which reads as the empty one. *)
Definition WalkIfNamesWithFallback (s : session) : W (gmap Z string) :=
  match WalkIfNames s with
  | (_, inr names) =>
      if bool_decide (names = ∅) then
        match WalkIfDescr s with
        | (_, inr descr) => W_ret (if bool_decide (descr = ∅) then ∅ else descr)
        | (_, inl descrErr) => W_fail descrErr
        end
      else W_ret names
  | (_, inl err) =>
      match WalkIfDescr s with
      | (_, inr descr) => if bool_decide (descr = ∅) then W_fail err else W_ret descr
      | (_, inl _) => W_fail err
      end
  end.

(** ** Tables of rows

    [rows[key]] is created by the first variable that names the row and changed by
    the later ones; [row p] says which row a variable belongs to and what it does to
    it, and what is reported. *)

Definition upsert `{Countable K} {R} (k : K) (d : R) (f : R → R) (m : gmap K R) : gmap K R :=
  <[k := f (default d (m !! k))]> m.

Section Table.
Context {K R : Type} `{Countable K} (d : R).
Context (row : SnmpPDU → option (K * (R → R)) * list walk_event).

Definition table_step (m : gmap K R) (p : SnmpPDU) : gmap K R :=
  match (row p).1 with
  | Some (k, f) => upsert k d f m
  | None => m
  end.

Definition scan_table (pdus : list SnmpPDU) : W (gmap K R) :=
  (pdus ≫= λ p, (row p).2, inr (fold_left table_step pdus ∅)).

(** The rows are those some variable names. *)
Lemma scan_rows_from m pdus k :
  is_Some (fold_left table_step pdus m !! k) ↔
  is_Some (m !! k) ∨ ∃ p f, p ∈ pdus ∧ (row p).1 = Some (k, f).
Proof.
  revert m. induction pdus as [|p pdus IH]; intros m; simpl.
  - split; [by left|]. intros [?|(? & ? & ?%elem_of_nil & _)]; done.
  - rewrite IH. unfold table_step, upsert. destruct (row p).1 as [[k' f]|] eqn:Hr.
    + destruct (decide (k' = k)) as [->|Hne].
      * rewrite lookup_insert_eq. split; [|by left]. intros _. right.
        exists p, f. split; [by left|done].
      * rewrite lookup_insert_ne by done. split.
        -- intros [?|(q & g & Hq & ?)]; [by left|]. right. exists q, g. split; [by right|done].
        -- intros [?|(q & g & Hq & Hg)]; [by left|]. apply elem_of_cons in Hq as [->|Hq]; [congruence|].
           right. eauto.
    + split.
      * intros [?|(q & g & Hq & ?)]; [by left|]. right. exists q, g. split; [by right|done].
      * intros [?|(q & g & Hq & Hg)]; [by left|]. apply elem_of_cons in Hq as [->|Hq]; [congruence|].
        right. eauto.
Qed.

Lemma scan_rows pdus k :
  is_Some (fold_left table_step pdus ∅ !! k) ↔ ∃ p f, p ∈ pdus ∧ (row p).1 = Some (k, f).
Proof. rewrite scan_rows_from, lookup_empty, is_Some_alt. naive_solver. Qed.

(** What every row has: kept by each variable. *)
Lemma scan_inv (P : R → Prop) pdus k r :
  P d → (∀ p k f r, (row p).1 = Some (k, f) → P r → P (f r)) →
  fold_left table_step pdus ∅ !! k = Some r → P r.
Proof.
  intros Hd Hstep. revert k r.
  apply (fold_left_inv (λ m, ∀ k r, m !! k = Some r → P r)).
  - intros k r. by rewrite lookup_empty.
  - intros m p _ IH k r. unfold table_step, upsert. destruct (row p).1 as [[k' f]|] eqn:Hr; [|by apply IH].
    intros [[<- <-]|[_ ?]]%lookup_insert_Some; [|by eapply IH].
    eapply Hstep; [done|]. destruct (m !! k') eqn:Hm; [by eapply IH|done].
Qed.

(** A field of a row holds what the last variable that sets it says. *)
Section Field.
Context {F : Type} (get : R → F) (sets : SnmpPDU → option (K * F)).
Hypothesis Hsets : ∀ p,
  match (row p).1 with
  | None => sets p = None
  | Some (k, f) =>
      (sets p = None ∧ ∀ r, get (f r) = get r) ∨ (∃ v, sets p = Some (k, v) ∧ ∀ r, get (f r) = v)
  end.

Definition set_at (k : K) (p : SnmpPDU) : option F :=
  match sets p with
  | Some (k', v) => if decide (k' = k) then Some v else None
  | None => None
  end.

Lemma scan_field_from m pdus k :
  get (default d (fold_left table_step pdus m !! k)) =
  default (get (default d (m !! k))) (last (omap (set_at k) pdus)).
Proof.
  revert m. induction pdus as [|p pdus IH]; intros m; [done|].
  cbn [fold_left omap list_omap]. rewrite IH. specialize (Hsets p). unfold table_step, set_at, upsert.
  destruct (row p).1 as [[k' f]|].
  - destruct Hsets as [[-> Hg]|(v & -> & Hg)].
    + f_equal. destruct (decide (k' = k)) as [->|Hne].
      * rewrite lookup_insert_eq. simpl. by rewrite Hg.
      * by rewrite lookup_insert_ne.
    + destruct (decide (k' = k)) as [->|Hne].
      * rewrite lookup_insert_eq. simpl. rewrite Hg, last_cons. by destruct (last _).
      * by rewrite lookup_insert_ne.
  - by rewrite Hsets.
Qed.

Lemma scan_field pdus k :
  get (default d (fold_left table_step pdus ∅ !! k)) = default (get d) (last (omap (set_at k) pdus)).
Proof. rewrite scan_field_from. by rewrite lookup_empty. Qed.
End Field.
End Table.

(** The map of an integer column: the last row that decodes, for every key. *)
Lemma int_map_last module oid pdus k :
  (WalkToIntMapStrict module oid pdus).1.1 !! k = last (omap (set_at (good_row ("." +:+ oid +:+ ".")) k) pdus).
Proof.
  unfold WalkToIntMapStrict. cbn [fst]. induction pdus as [|p pdus IH] using rev_ind; [done|].
  rewrite fold_left_app, omap_app, last_app. set (before := last (omap _ pdus)) in *.
  cbn [fold_left omap list_omap]. unfold set_at, good_row, int_row.
  destruct (TrimOIDPrefix _ _) as [key|]; [|exact IH].
  destruct (PDUIntStrict p) as [v|]; [|exact IH]. cbn [iw_result].
  destruct (decide (key = k)) as [->|Hne]; [by rewrite lookup_insert_eq|]. rewrite lookup_insert_ne by done. exact IH.
Qed.

(** ** From rows to edges *)

(** The outcome of the body of a [buildEdges] loop for one row: rejected by the
    decoder, decoded but of no use, out of scope, or an edge. *)
Inductive row_out :=
  | RowRejected
  | RowSkipped
  | RowOOS (n : OutOfScopeNeighbour)
  | RowEdge (e : Edge).

Definition out_edge (o : row_out) : option Edge := match o with RowEdge e => Some e | _ => None end.
Definition out_oos (o : row_out) : option OutOfScopeNeighbour :=
  match o with RowOOS n => Some n | _ => None end.
Definition out_decoded (o : row_out) : bool := match o with RowRejected => false | _ => true end.

(** The three accumulators of the loop. *)
Definition collect_rows (outs : list row_out) : list Edge * list OutOfScopeNeighbour * bool :=
  (omap out_edge outs, omap out_oos outs, existsb out_decoded outs).

Lemma elem_of_out_edges e (outs : list row_out) : e ∈ omap out_edge outs ↔ RowEdge e ∈ outs.
Proof.
  rewrite list_elem_of_omap. split.
  - intros ([] & Ho & He); naive_solver.
  - intros Ho. by exists (RowEdge e).
Qed.

Lemma elem_of_out_oos n (outs : list row_out) : n ∈ omap out_oos outs ↔ RowOOS n ∈ outs.
Proof.
  rewrite list_elem_of_omap. split.
  - intros ([] & Ho & He); naive_solver.
  - intros Ho. by exists (RowOOS n).
Qed.

(** ** Addresses (package net) *)

(** [IP.Equal]. *)
Definition IP_Equal (ip x : list Z) : bool :=
  if bool_decide (length ip = length x) then bool_decide (ip = x)
  else if bool_decide (length ip = 4%nat) && bool_decide (length x = 16%nat)
  then bool_decide (x = v4InV6Prefix ++ ip)
  else if bool_decide (length ip = 16%nat) && bool_decide (length x = 4%nat)
  then bool_decide (ip = v4InV6Prefix ++ x)
  else false.

Definition IPv4zero : list Z := v4InV6Prefix ++ repeat 0 4.
Definition IPv6unspecified : list Z := repeat 0 16.
Definition IPv6loopback : list Z := repeat 0 15 ++ [1].

Definition IsUnspecified (ip : list Z) : bool := IP_Equal ip IPv4zero || IP_Equal ip IPv6unspecified.

Definition IsLoopback (ip : list Z) : bool :=
  match To4 ip with
  | Some (a :: _) => a =? 127
  | Some [] => false
  | None => IP_Equal ip IPv6loopback
  end.

Definition IsLinkLocalUnicast (ip : list Z) : bool :=
  match To4 ip with
  | Some (a :: b :: _) => (a =? 169) && (b =? 254)
  | Some _ => false
  | None =>
      match ip with
      | a :: b :: _ => bool_decide (length ip = 16%nat) && (a =? 254) && (Z.land b 192 =? 128)
      | _ => false
      end
  end.

(** Decimal octets: [strconv.Atoi] and the range check. *)
Fixpoint octets (parts : list string) : option (list Z) :=
  match parts with
  | [] => Some []
  | p :: parts' =>
      match Atoi p with
      | Some v => if (v <? 0) || (255 <? v) then None else cons v <$> octets parts'
      | None => None
      end
  end.

(** ** What a walker promises about its output

    [proto], [rank], [conf], [adj] and [kind] are the constants of the walker's
    edge literal. *)

Record edge_form := mkForm {
  ef_proto : string;
  ef_rank : Z;
  ef_conf : string;
  ef_adj : string;
  ef_kind : string
}.

Record walked_edge (f : edge_form) (local : string) (now : time) (e : Edge) : Prop := {
  wke_src : SrcDevice e = local;
  wke_proto : DiscoveryProto e = ef_proto f;
  wke_direction : Direction e = DirectionUnidirectional;
  wke_conf : Confidence e = ef_conf f;
  wke_adj : Adjacency e = ef_adj f;
  wke_rank : PrecedenceRank e = ef_rank f;
  wke_kind : LinkKind e = ef_kind f;
  wke_at : ObservedAt e = now
}.

Record walked_oos (proto local : string) (now : time) (n : OutOfScopeNeighbour) : Prop := {
  wko_src : ReportingDevice n = local;
  wko_proto : Proto n = proto;
  wko_first : FirstSeen n = now;
  wko_last : LastSeen n = now
}.

Definition walked (f : edge_form) (local : string) (now : time)
    (r : list Edge * list OutOfScopeNeighbour) : Prop :=
  Forall (walked_edge f local now) r.1 ∧ Forall (walked_oos (ef_proto f) local now) r.2.

(** A row's outcome has the form of the walker. *)
Definition out_walked (f : edge_form) (local : string) (now : time) (o : row_out) : Prop :=
  match o with
  | RowEdge e => walked_edge f local now e
  | RowOOS n => walked_oos (ef_proto f) local now n
  | _ => True
  end.

Lemma collect_walked f local now outs :
  Forall (out_walked f local now) outs → walked f local now (collect_rows outs).1.
Proof.
  intros Ho. rewrite Forall_forall in Ho. split; apply Forall_forall; simpl.
  - intros e He%elem_of_out_edges. by apply Ho in He.
  - intros n Hn%elem_of_out_oos. by apply Ho in Hn.
Qed.

(** An IPv4 address read from a variable has four octets. *)
Lemma bytes_of_octets s : length (bytes_of s) = slen s ∧ Forall (λ b, 0 ≤ b < 256) (bytes_of s).
Proof.
  induction s as [|c s [IH1 IH2]]; [done|]. split; [simpl; by rewrite IH1|].
  constructor; [apply byte_val_range|done].
Qed.

Lemma PDUIPv4_addr `{N : NetText} `{!NetTextLaws N} p ip : PDUIPv4 p = Some ip → is_addr ip ∧ length ip = 4%nat.
Proof.
  unfold PDUIPv4. destruct (pdu_Value p) as [| | | | | |s|s|]; try done.
  - intros (x & Hx & H4)%bind_Some. apply ntl_parse in Hx.
    destruct (To4_sub _ _ H4 Hx) as [Hl Hb]. split; [split; auto|done].
  - case_bool_decide as Hl; [|done]. intros [= <-]. destruct (bytes_of_octets s) as [Hb1 Hb2].
    rewrite Hb1. split; [split; [left; by rewrite Hb1|done]|done].
Qed.

(** Octet strings, to write sample variables with. *)
Fixpoint octet_string (l : list Z) : string :=
  match l with
  | [] => ""
  | z :: l' => String (chr z) (octet_string l')
  end.

(** A device that answers some tables and has no other. *)
Definition answers (tables : list (string * list SnmpPDU)) : session := λ oid,
  inr (default [] (list_to_map (M := gmap string (list SnmpPDU)) tables !! oid)).

(** ** Text that the walkers build *)

Lemma pretty_go_length (n : N) (k : nat) s :
  (n < 10 ^ N.of_nat k)%N → (slen (pretty_N_go n s) ≤ k + slen s)%nat.
Proof.
  revert n s. induction k as [|k IH]; intros n s Hn.
  { assert (n = 0%N) as -> by (simpl in Hn; lia). by rewrite pretty_N_go_0. }
  destruct (decide (n = 0)%N) as [->|Hn0]; [rewrite pretty_N_go_0; lia|].
  rewrite pretty_N_go_step by lia. etrans; [apply IH|simpl; lia].
  rewrite Nat2N.inj_succ, N.pow_succ_r' in Hn. apply N.Div0.div_lt_upper_bound. lia.
Qed.

Lemma Itoa_length z : MinInt ≤ z ≤ MaxInt → (slen (Itoa z) ≤ 20)%nat.
Proof.
  intros Hz. unfold Itoa.
  assert (∀ p, Z.pos p ≤ 9223372036854775808 → (slen (pretty (N.pos p)) ≤ 19)%nat) as Hp.
  { intros p Hp. unfold pretty, pretty_N. rewrite decide_False by done.
    etrans; [apply (pretty_go_length _ 19)|simpl; lia]. apply N2Z.inj_lt. simpl. lia. }
  unfold MinInt, MaxInt in Hz. destruct z as [|p|p]; [simpl; lia| |].
  - change (pretty (Z.pos p)) with (pretty (N.pos p)). etrans; [apply Hp|]; lia.
  - change (pretty (Z.neg p)) with (String "-"%char (pretty (N.pos p))).
    simpl. apply le_n_S. apply Hp. lia.
Qed.

(** A label made of a printable prefix and a number. *)
Lemma numbered_ok prefix z :
  printable prefix = true → (slen prefix ≤ 200)%nat → MinInt ≤ z ≤ MaxInt →
  text_ok MaxPortNameBytes (prefix +:+ Itoa z).
Proof.
  intros Hp Hl Hz. pose proof (Itoa_length z Hz).
  assert (printable (prefix +:+ Itoa z) = true) as Ht by (by rewrite printable_app, Hp, Itoa_printable).
  destruct (printable_text _ Ht). split; [|done].
  unfold zlen, MaxPortNameBytes. rewrite slen_app. lia.
Qed.

Lemma parse_digits_Atoi s z : Atoi s = Some z → MinInt ≤ z ≤ MaxInt.
Proof.
  unfold Atoi. destruct s as [|c s]; [done|].
  assert (∀ (o : option Z) (f : Z → Z), (o ≫= λ v, if in_range MinInt MaxInt (f v) then Some (f v) else None) = Some z →
            MinInt ≤ z ≤ MaxInt) as Hc.
  { intros o f (v & _ & Hv)%bind_Some. unfold in_range in Hv. destruct (_ && _) eqn:E; [|done].
    injection Hv as <-. bprop. lia. }
  repeat destruct (Ascii.eqb _ _); try (destruct s; [done|]); 
    first [by apply (Hc _ Z.opp)|by apply (Hc _ id)].
Qed.

Lemma SplitOIDComponent_range s z r : SplitOIDComponent s = Some (z, r) → MinInt ≤ z ≤ MaxInt.
Proof.
  unfold SplitOIDComponent. destruct (IndexByte _ _); intros (v & Hv & [= -> _])%fmap_Some;
    by eapply parse_digits_Atoi.
Qed.

(** The names of the interfaces are sanitised where they are read. *)
Lemma walkIntIndexedStrings_ok oid pdus k v :
  walkIntIndexedStrings oid pdus !! k = Some v → text_ok MaxPortNameBytes v.
Proof.
  unfold walkIntIndexedStrings. revert k v.
  apply (fold_left_inv (λ m, ∀ k v, m !! k = Some v → text_ok MaxPortNameBytes v)).
  - intros k v. by rewrite lookup_empty.
  - intros m p _ IH k v. unfold name_row. destruct (TrimOIDPrefix _ _); [|by apply IH].
    destruct (Atoi _) as [i|]; [|by apply IH]. intros [[<- <-]|[_ ?]]%lookup_insert_Some; [|by eapply IH].
    apply sanitised_port_passes_hub.
Qed.

Lemma WalkIfNamesWithFallback_ok s names k v :
  W_value (WalkIfNamesWithFallback s) = inr names → names !! k = Some v → text_ok MaxPortNameBytes v.
Proof.
  assert (∀ oid, ∀ ev m, (let! pdus := BulkWalk s oid in W_ret (walkIntIndexedStrings oid pdus)) = (ev, inr m) →
            m !! k = Some v → text_ok MaxPortNameBytes v) as Hw.
  { intros oid ev m (? & pdus & ? & _ & [= _ <-] & _)%W_bind_inr. apply walkIntIndexedStrings_ok. }
  unfold WalkIfNamesWithFallback, W_value.
  destruct (WalkIfNames s) as [ev1 [err|m1]] eqn:H1, (WalkIfDescr s) as [ev2 [err2|m2]] eqn:H2;
    repeat case_bool_decide; intros [= <-]; try (by rewrite lookup_empty);
    first [by apply (Hw _ _ _ H1)|by apply (Hw _ _ _ H2)].
Qed.

(** ** Values of a Go session *)

(** Every variable holds a value of its Go type. *)
Definition session_wf (s : session) : Prop :=
  ∀ oid pdus, s oid = inr pdus → Forall (λ p, value_wf (pdu_Value p)) pdus.

Lemma PDUInt_range p : value_wf (pdu_Value p) → MinInt ≤ PDUInt p ≤ MaxInt.
Proof.
  unfold value_wf, PDUInt, PDUIntStrict, MinInt, MaxInt.
  destruct (pdu_Value p); intros Hz; try destruct (_ <? _) eqn:E; try destruct (_ || _) eqn:E'; bprop; simpl; lia.
Qed.
