(* ===== verification/Ospf.v ===== *)
(** * internal/discovery/ospf: adjacencies of the OSPF neighbour table

    ospf.go: the rows of ospfNbrTable, the state filter, the scope filter. *)

From Stdlib Require Import ZArith Lia Ascii.
From S2P Require Import Prelude GoText Discovery Pdu NetAddr Walker.
Open Scope Z_scope.

Definition oidOspfNbrTable : string := "1.3.6.1.2.1.14.10".
Definition ospf_precedenceRank : Z := 6.
Definition colNbrIPAddr : Z := 1.
Definition colNbrState : Z := 6.
Definition stateTwoWay : Z := 4.
Definition stateFull : Z := 8.
Definition walkerOSPF : string := "ospf".
Definition ospf_prefix : string := ".1.3.6.1.2.1.14.10.1.".

Record nbrRow := mkNbrRow { nbrIP : option (list Z); nbr_state : Z }.

Definition ospf_form : edge_form :=
  mkForm DiscoveryProtocolOSPF ospf_precedenceRank ConfidenceMedium AdjacencyDirect LinkKindIP.

(** The column and the row key "ip0.ip1.ip2.ip3.addressLessIndex" of an OID. *)
Definition parseNbrOID (oid prefix : string) : option (Z * string) :=
  if negb (HasPrefix oid prefix) then None
  else
    let rest := sdrop (slen prefix) oid in
    match IndexByte rest "."%char with
    | None => None
    | Some dotIdx =>
        match Atoi (stake dotIdx rest) with
        | None => None
        | Some col =>
            let key := sdrop (S dotIdx) rest in
            if negb (bool_decide (count_byte "."%char key = 4%nat)) then None
            else
              let parts := SplitN "."%char 5 key in
              match octets (take 4 parts) with
              | None => None
              | Some _ =>
                  match parts !! 4%nat ≫= Atoi with
                  | None => None
                  | Some _ => Some (col, key)
                  end
              end
        end
    end.

Section Ospf.
Context `{N : NetText} `{R : MapRange}.

Definition ospf_issue (reason : string) : walk_event :=
  ReportDecodeIssue walkerOSPF oidOspfNbrTable reason 1.

Definition ospf_row (p : SnmpPDU) : option (string * (nbrRow → nbrRow)) * list walk_event :=
  match parseNbrOID (pdu_Name p) ospf_prefix with
  | None => (None, [ospf_issue "oid_suffix_malformed"])
  | Some (col, key) =>
      if col =? colNbrIPAddr then
        let ip := PDUIPv4 p in
        (Some (key, λ row, mkNbrRow ip (nbr_state row)),
         match ip with None => [ospf_issue "nbr_ip_undecodable"] | Some _ => [] end)
      else if col =? colNbrState then
        match PDUIntStrict p with
        | None => (Some (key, id), [ospf_issue "nbr_state_undecodable"])
        | Some s => (Some (key, λ row, mkNbrRow (nbrIP row) s), [])
        end
      else (Some (key, id), [])
  end.

Definition walkOspfNbrTable (s : session) : W (gmap string nbrRow * bool) :=
  let! pdus := BulkWalk s oidOspfNbrTable in
  let! rows := scan_table (mkNbrRow None 0) ospf_row pdus in
  W_ret (rows, negb (bool_decide (pdus = []))).

Definition ospf_edge (localDevice : string) (ip : list Z) (now : time) : Edge :=
  mkEdge localDevice "" (IP_String ip) "" DiscoveryProtocolOSPF DirectionUnidirectional
    ConfidenceMedium AdjacencyDirect ospf_precedenceRank LinkKindIP now ∅.

(** The body of the loop of [buildEdges]. *)
Definition ospf_out (localDevice : string) (allowedNets : list IPNet) (now : time) (row : nbrRow) : row_out :=
  match nbrIP row with
  | None => RowRejected
  | Some ip =>
      if IsUnspecified ip || IsLinkLocalUnicast ip || IsLoopback ip then RowRejected
      else if negb (nbr_state row =? stateFull) && negb (nbr_state row =? stateTwoWay) then RowSkipped
      else if is_OutOfScope ip allowedNets
      then RowOOS (NewOutOfScopeNeighbour "ospf" localDevice "" (IP_String ip) now)
      else RowEdge (ospf_edge localDevice ip now)
  end.

Definition ospf_buildEdges (localDevice : string) (rows : gmap string nbrRow) (allowedNets : list IPNet)
    (now : time) : list Edge * list OutOfScopeNeighbour * bool :=
  collect_rows ((λ kr, ospf_out localDevice allowedNets now kr.2) <$> range_map 0 rows).

Definition ospf_Walk (acquired : walk_error + session) (localDevice : string)
    (allowedNets : list IPNet) (now : time) : W (list Edge * list OutOfScopeNeighbour) :=
  let failed := [EvProtocolOutcome walkerOSPF OutcomeError] in
  with_session failed acquired (λ s,
    let! (rows, hadPDUs) := on_error failed (walkOspfNbrTable s) in
    let '(edges, oos, decoded) := ospf_buildEdges localDevice rows allowedNets now in
    let! _ := W_emit [EvProtocolOutcome walkerOSPF
                        (ClassifyNeighbourOutcome (Z.of_nat (length edges)) hadPDUs decoded)] in
    W_ret (edges, oos)).

(** ** What the table says *)

(** What a variable says of the state and of the address of a neighbour. *)
Definition says_state (p : SnmpPDU) : option (string * Z) :=
  '(col, key) ← parseNbrOID (pdu_Name p) ospf_prefix;
  if col =? colNbrState then pair key <$> PDUIntStrict p else None.

Definition says_ip (p : SnmpPDU) : option (string * option (list Z)) :=
  '(col, key) ← parseNbrOID (pdu_Name p) ospf_prefix;
  if col =? colNbrIPAddr then Some (key, PDUIPv4 p) else None.

(** The state and the address of the neighbour [key]: those of the last variable that
    carries them. *)
Definition table_state (pdus : list SnmpPDU) (key : string) : Z :=
  default 0 (last (omap (set_at says_state key) pdus)).

Definition table_ip (pdus : list SnmpPDU) (key : string) : option (list Z) :=
  default None (last (omap (set_at says_ip key) pdus)).

Definition usable (ip : list Z) : Prop :=
  IsUnspecified ip = false ∧ IsLinkLocalUnicast ip = false ∧ IsLoopback ip = false.

Lemma ospf_rows pdus :
  let rows := fold_left (table_step (mkNbrRow None 0) ospf_row) pdus ∅ in
  ∀ key, default (mkNbrRow None 0) (rows !! key) = mkNbrRow (table_ip pdus key) (table_state pdus key).
Proof.
  intros rows key.
  assert (nbr_state (default (mkNbrRow None 0) (rows !! key)) = table_state pdus key) as Hs.
  { refine (scan_field (mkNbrRow None 0) ospf_row nbr_state says_state _ pdus key). intros p. unfold ospf_row, says_state.
    destruct (parseNbrOID _ _) as [[col k]|]; [|done]. simpl.
    destruct (col =? colNbrIPAddr) eqn:E1; simpl.
    { bprop. subst col. left. by split. }
    destruct (col =? colNbrState); [|by left].
    destruct (PDUIntStrict p) as [z|]; [right; by exists z|by left]. }
  assert (nbrIP (default (mkNbrRow None 0) (rows !! key)) = table_ip pdus key) as Hi.
  { refine (scan_field (mkNbrRow None 0) ospf_row nbrIP says_ip _ pdus key). intros p. unfold ospf_row, says_ip.
    destruct (parseNbrOID _ _) as [[col k]|]; [|done]. simpl.
    destruct (col =? colNbrIPAddr) eqn:E1; simpl; [right; eauto|].
    destruct (col =? colNbrState); [|by left].
    destruct (PDUIntStrict p) as [z|]; by left. }
  destruct (default _ _). simpl in *. congruence.
Qed.

Lemma ospf_out_edge local nets now row e :
  ospf_out local nets now row = RowEdge e ↔
  ∃ ip, nbrIP row = Some ip ∧ usable ip ∧ (nbr_state row = stateFull ∨ nbr_state row = stateTwoWay) ∧
    is_OutOfScope ip nets = false ∧ e = ospf_edge local ip now.
Proof.
  unfold ospf_out, usable. destruct (nbrIP row) as [ip|]; [|naive_solver].
  destruct (IsUnspecified ip) eqn:E1, (IsLinkLocalUnicast ip) eqn:E2, (IsLoopback ip) eqn:E3; simpl;
    try naive_solver congruence.
  destruct (nbr_state row =? stateFull) eqn:E4, (nbr_state row =? stateTwoWay) eqn:E5; simpl; bprop;
    destruct (is_OutOfScope ip nets) eqn:E6; naive_solver congruence.
Qed.

Lemma ospf_out_walked local nets now row : out_walked ospf_form local now (ospf_out local nets now row).
Proof. unfold ospf_out. destruct (nbrIP row) as [ip|]; [|done]. by split_ifs. Qed.

Lemma ospf_value acquired local nets now es oos :
  W_value (ospf_Walk acquired local nets now) = inr (es, oos) →
  ∃ s pdus, acquired = inr s ∧ s oidOspfNbrTable = inr pdus ∧
    (es, oos) = (ospf_buildEdges local (fold_left (table_step (mkNbrRow None 0) ospf_row) pdus ∅) nets now).1.
Proof.
  intros (s & -> & Hb)%with_session_value.
  apply W_value_bind in Hb as ([rows hadPDUs] & Ht & Hb). rewrite W_value_on_error in Ht.
  apply W_value_bind in Ht as (pdus & Hs & Ht). apply W_value_bind in Ht as (rows' & [= <-] & [= <- <-]).
  exists s, pdus. split; [done|]. split; [done|].
  destruct (ospf_buildEdges _ _ _ _) as [[es' oos'] dec]. by injection Hb as <- <-.
Qed.
End Ospf.

(** ** Properties *)

(** OSPF edges are exactly the active adjacencies of the device's table. Take the
    last value the table gives for the state and for the address of each neighbour key:
    a successful walk yields an edge to an address if and only if some neighbour has
    that address, is in state full or twoWay, is neither unspecified, link-local nor
    loopback, and is in scope. *)
Theorem ospf_edges_exact `{NetText} `{MapRange} (s : session) (pdus : list SnmpPDU)
    (local : string) (nets : list IPNet) (now : time) :
  s oidOspfNbrTable = inr pdus →
  ∃ es oos, W_value (ospf_Walk (inr s) local nets now) = inr (es, oos) ∧
    ∀ e, e ∈ es ↔ ∃ key ip,
      table_ip pdus key = Some ip ∧ table_state pdus key ∈ [stateFull; stateTwoWay] ∧
      usable ip ∧ is_OutOfScope ip nets = false ∧ e = ospf_edge local ip now.
Proof.
  intros Hs. unfold ospf_Walk. cbn [with_session]. unfold walkOspfNbrTable, BulkWalk. rewrite Hs. simpl.
  set (rows := fold_left _ pdus ∅). eexists _, _. split; [reflexivity|].
  intros e. rewrite elem_of_out_edges, list_elem_of_fmap. split.
  - intros ([key row] & He & Hr%elem_of_range). symmetry in He.
    apply ospf_out_edge in He as (ip & Hip & Hu & Hst & Ho & ->).
    pose proof (ospf_rows pdus key) as Hk. fold rows in Hk. rewrite Hr in Hk. simpl in Hk. subst row.
    exists key, ip. repeat split; try done; [|apply Hu..]. simpl in Hst.
    destruct Hst as [->| ->]; [by left|right; by left].
  - intros (key & ip & Hip & Hst & Hu & Ho & ->).
    pose proof (ospf_rows pdus key) as Hk. fold rows in Hk.
    destruct (rows !! key) as [row|] eqn:Hr; simpl in Hk.
    + exists (key, row). split; [|by apply elem_of_range]. symmetry. apply ospf_out_edge.
      subst row. exists ip. simpl. repeat split; try done; try apply Hu.
      apply elem_of_cons in Hst as [?|[?|[]%elem_of_nil]%elem_of_cons]; auto.
    + rewrite Hip in Hk. congruence.
Qed.

(** A device with one full and one failed adjacency. *)
Definition sample_nbrs : list SnmpPDU :=
  [mkPDU ".1.3.6.1.2.1.14.10.1.1.10.0.0.2.0" (VBytes (octet_string [10; 0; 0; 2]));
   mkPDU ".1.3.6.1.2.1.14.10.1.6.10.0.0.2.0" (VInt 8);
   mkPDU ".1.3.6.1.2.1.14.10.1.1.10.0.0.3.0" (VBytes (octet_string [10; 0; 0; 3]));
   mkPDU ".1.3.6.1.2.1.14.10.1.6.10.0.0.3.0" (VInt 1)].

Definition sample_ospf : session := answers [(oidOspfNbrTable, sample_nbrs)].

Lemma ospf_edges_exact_witness :
  ∃ es oos, W_value (ospf_Walk (N := go_net) (R := range_std) (inr sample_ospf) "r1" [] 7) = inr (es, oos) ∧
    ospf_edge (N := go_net) "r1" [10; 0; 0; 2] 7 ∈ es.
Proof.
  destruct (ospf_edges_exact (H := go_net) (H0 := range_std) sample_ospf sample_nbrs "r1" [] 7 eq_refl)
    as (es & oos & Hv & He).
  exists es, oos. split; [done|]. apply He. exists "10.0.0.2.0", [10; 0; 0; 2].
  assert (table_ip (N := go_net) sample_nbrs "10.0.0.2.0" = Some [10; 0; 0; 2]) as -> by (vm_compute; reflexivity).
  assert (table_state sample_nbrs "10.0.0.2.0" = stateFull) as -> by (vm_compute; reflexivity).
  split; [reflexivity|]. split; [apply list_elem_of_here|]. unfold usable.
  split_and!; vm_compute; reflexivity.
Defined.

(** The row key accepts a negative addressLessIndex, which the comment of
    [parseNbrOID] says is non-negative. *)
Example negative_addressLessIndex :
  parseNbrOID ".1.3.6.1.2.1.14.10.1.6.10.0.0.2.-5" ospf_prefix = Some (6, "10.0.0.2.-5").
Proof. vm_compute. reflexivity. Qed.
