(* ===== verification/Cdp.v ===== *)
(** * internal/discovery/cdp: neighbours of the CDP cache

    cdp.go: the rows of cdpCacheTable, the port names of IF-MIB, the scope filter. *)

From Stdlib Require Import ZArith Lia Ascii.
From S2P Require Import Prelude GoText Sanitize Discovery Limits HubValidate Pdu NetAddr Walker.
Open Scope Z_scope.

Definition oidCDPCacheTable : string := "1.3.6.1.4.1.9.9.23.1.2.1".
Definition cdp_precedenceRank : Z := 3.
Definition walkerCDP : string := "cdp".
Definition colAddressType : Z := 3.
Definition colAddress : Z := 4.
Definition colDeviceID : Z := 6.
Definition colDevicePort : Z := 7.

Record cacheEntry := mkCacheEntry {
  addrType : Z;
  addr : option string;
  deviceID : string;
  devPort : string
}.

Definition no_entry : cacheEntry := mkCacheEntry 0 None "" "".

Definition cdp_form : edge_form :=
  mkForm DiscoveryProtocolCDP cdp_precedenceRank ConfidenceHigh AdjacencyDirect LinkKindEthernet.

Section Cdp.
Context `{U : Unicode} `{N : NetText} `{R : MapRange}.

Definition cdp_issue (reason : string) : walk_event := ReportDecodeIssue walkerCDP oidCDPCacheTable reason 1.

(** The column and the row "ifIndex.neighIndex" of an OID, both indices positive. *)
Definition cdp_index (suffix : string) : option (Z * (Z * Z)) :=
  match SplitOIDComponent suffix with
  | None => None
  | Some (col, rest) =>
      match SplitOIDComponent rest with
      | None => None
      | Some (ifIdx, neighStr) =>
          if ifIdx <=? 0 then None
          else match Atoi neighStr with
               | None => None
               | Some neighIdx => if neighIdx <=? 0 then None else Some (col, (ifIdx, neighIdx))
               end
      end
  end.

Definition cdp_row (p : SnmpPDU) : option ((Z * Z) * (cacheEntry → cacheEntry)) * list walk_event :=
  match TrimOIDPrefix (pdu_Name p) ("." +:+ oidCDPCacheTable +:+ ".1.") with
  | None => (None, [])
  | Some suffix =>
      match cdp_index suffix with
      | None => (None, [cdp_issue "index_unparseable"])
      | Some (col, k) =>
          (Some (k, λ e,
             if col =? colAddressType then mkCacheEntry (PDUInt p) (addr e) (deviceID e) (devPort e)
             else if col =? colAddress then mkCacheEntry (addrType e) (PDUBytes p) (deviceID e) (devPort e)
             else if col =? colDeviceID
             then mkCacheEntry (addrType e) (addr e) (NormaliseName (PDUString p)) (devPort e)
             else if col =? colDevicePort
             then mkCacheEntry (addrType e) (addr e) (deviceID e) (SanitisePortName (PDUString p))
             else e), [])
      end
  end.

Definition walkCacheTable (s : session) : W (gmap (Z * Z) cacheEntry * bool) :=
  let! pdus := BulkWalk s oidCDPCacheTable in
  let! entries := scan_table no_entry cdp_row pdus in
  W_ret (entries, negb (bool_decide (pdus = []))).

Definition cdpNeighborIP (e : cacheEntry) : option (list Z) :=
  let a := default "" (addr e) in
  if (addrType e =? 1) && bool_decide (slen a = 4%nat) then Some (bytes_of a)
  else if (addrType e =? 20) && bool_decide (slen a = 16%nat) then Some (bytes_of a)
  else None.

Definition cdp_localPort (ifNames : gmap Z string) (ifIndex : Z) : string :=
  let localPort := default "" (ifNames !! ifIndex) in
  if bool_decide (localPort = "") then "if" +:+ Itoa ifIndex else localPort.

(** The body of the loop of [buildEdges]. *)
Definition cdp_out (localDevice : string) (ifNames : gmap Z string) (allowedNets : list IPNet) (now : time)
    (ke : (Z * Z) * cacheEntry) : row_out * list walk_event :=
  let '(k, e) := ke in
  if bool_decide (deviceID e = "") || bool_decide (devPort e = "")
  then (RowRejected, [cdp_issue "empty_device_id"])
  else
    let localPort := cdp_localPort ifNames k.1 in
    match cdpNeighborIP e with
    | None =>
        if negb (bool_decide (allowedNets = [])) && negb (IsCatchAll allowedNets)
        then (RowSkipped, [])
        else (RowEdge (mkEdge localDevice localPort (deviceID e) (devPort e) DiscoveryProtocolCDP
                DirectionUnidirectional ConfidenceHigh AdjacencyDirect cdp_precedenceRank
                LinkKindEthernet now ∅), [])
    | Some remIP =>
        if is_OutOfScope remIP allowedNets
        then (RowOOS (NewOutOfScopeNeighbour DiscoveryProtocolCDP localDevice localPort (deviceID e) now), [])
        else (RowEdge (mkEdge localDevice localPort (deviceID e) (devPort e) DiscoveryProtocolCDP
                DirectionUnidirectional ConfidenceHigh AdjacencyDirect cdp_precedenceRank
                LinkKindEthernet now ∅), [])
    end.

Definition cdp_buildEdges (localDevice : string) (ifNames : gmap Z string)
    (entries : gmap (Z * Z) cacheEntry) (allowedNets : list IPNet) (now : time)
  : W (list Edge * list OutOfScopeNeighbour * bool) :=
  let outs := cdp_out localDevice ifNames allowedNets now <$> range_map 0 entries in
  (outs ≫= snd, inr (collect_rows outs.*1)).

Definition cdp_Walk (acquired : walk_error + session) (localDevice : string)
    (allowedNets : list IPNet) (now : time) : W (list Edge * list OutOfScopeNeighbour) :=
  let failed := [EvProtocolOutcome walkerCDP OutcomeError] in
  with_session failed acquired (λ s,
    let! ifNames := on_error failed (WalkIfNamesWithFallback s) in
    let! (entries, hadPDUs) := on_error failed (walkCacheTable s) in
    let! (edges, oos, decoded) := cdp_buildEdges localDevice ifNames entries allowedNets now in
    let! _ := W_emit [EvProtocolOutcome walkerCDP
                        (ClassifyNeighbourOutcome (Z.of_nat (length edges)) hadPDUs decoded)] in
    W_ret (edges, oos)).

(** ** Lemmas *)

Lemma cdp_out_walked local names nets now ke : out_walked cdp_form local now (cdp_out local names nets now ke).1.
Proof.
  destruct ke as [k e]. unfold cdp_out. destruct (_ || _); [done|].
  destruct (cdpNeighborIP e); [destruct (is_OutOfScope _ _)|destruct (_ && _)]; done.
Qed.

(** What the hub asks of the strings of an entry. *)
Definition entry_texts (e : cacheEntry) : Prop :=
  text_ok MaxPortNameBytes (deviceID e) ∧ text_ok MaxPortNameBytes (devPort e).

Definition lower_ok : Prop := ∀ r, 128 ≤ r → ¬ (unicode_lower r < 32 ∨ unicode_lower r = 127).

Lemma cdp_entries_text pdus k e :
  lower_ok → fold_left (table_step no_entry cdp_row) pdus ∅ !! k = Some e → entry_texts e.
Proof.
  intros HU. apply scan_inv; [by repeat split|].
  intros p k' f r. unfold cdp_row. destruct (TrimOIDPrefix _ _); [|done].
  destruct (cdp_index _) as [[col k'']|]; [|done]. intros [= <- <-] [Hd Hp].
  pose proof (normalised_name_passes_hub (PDUString p) HU) as Hn.
  destruct (sanitised_port_passes_hub (PDUString p)) as [Hs _].
  unfold entry_texts. split_ifs.
Qed.

Lemma cdp_value acquired local nets now es oos :
  W_value (cdp_Walk acquired local nets now) = inr (es, oos) →
  ∃ s pdus names, acquired = inr s ∧ s oidCDPCacheTable = inr pdus ∧
    W_value (WalkIfNamesWithFallback s) = inr names ∧
    let outs := cdp_out local names nets now <$>
                  range_map 0 (fold_left (table_step no_entry cdp_row) pdus ∅) in
    es = omap out_edge outs.*1 ∧ oos = omap out_oos outs.*1.
Proof.
  intros (s & -> & Hb)%with_session_value.
  apply W_value_bind in Hb as (names & Hn & Hb). rewrite W_value_on_error in Hn.
  apply W_value_bind in Hb as ([entries hadPDUs] & Ht & Hb). rewrite W_value_on_error in Ht.
  apply W_value_bind in Ht as (pdus & Hs & Ht). apply W_value_bind in Ht as (rows' & [= <-] & [= <- <-]).
  apply W_value_bind in Hb as ([[es' oos'] dec] & [= <- <- <-] & Hb). injection Hb as <- <-.
  by exists s, pdus, names.
Qed.

Lemma cdp_index_range suffix col k : cdp_index suffix = Some (col, k) → MinInt ≤ k.1 ≤ MaxInt.
Proof.
  unfold cdp_index. destruct (SplitOIDComponent suffix) as [[c rest]|]; [|done].
  destruct (SplitOIDComponent rest) as [[i n]|] eqn:Hs; [|done]. destruct (i <=? 0); [done|].
  destruct (Atoi n) as [j|]; [|done]. destruct (j <=? 0); [done|]. intros [= <- <-].
  by eapply SplitOIDComponent_range.
Qed.

Lemma cdp_localPort_ok names i :
  (∀ v, names !! i = Some v → text_ok MaxPortNameBytes v) → MinInt ≤ i ≤ MaxInt →
  cdp_localPort names i ≠ "" ∧ text_ok MaxPortNameBytes (cdp_localPort names i).
Proof.
  intros Hn Hi. unfold cdp_localPort. case_bool_decide as He.
  - split; [done|]. apply numbered_ok; [done|simpl; lia|done].
  - split; [done|]. destruct (names !! i) as [v|]; [by apply Hn|done].
Qed.

(** What the hub asks of a CDP edge. *)
Lemma cdp_edge_ok acquired local nets now es oos e :
  lower_ok → local ≠ "" → text_ok MaxPortNameBytes local →
  W_value (cdp_Walk acquired local nets now) = inr (es, oos) →
  e ∈ es → DstDevice e ≠ local → edge_ok e.
Proof.
  intros HU Hl0 Hl (s & pdus & names & -> & _ & Hn & -> & _)%cdp_value He Hself.
  apply elem_of_out_edges in He. apply list_elem_of_fmap in He as ([o ev] & Heo & He).
  simpl in Heo. subst o.
  apply list_elem_of_fmap in He as ([k c] & Ho & Hk%elem_of_range).
  pose proof (cdp_entries_text _ _ _ HU Hk) as [Hd Hp].
  assert (MinInt ≤ k.1 ≤ MaxInt) as Hr.
  { destruct (proj1 (scan_rows no_entry cdp_row pdus k) ltac:(by rewrite Hk)) as (p & f & _ & Hrow).
    unfold cdp_row in Hrow. destruct (TrimOIDPrefix _ _); [|done].
    destruct (cdp_index _) as [[col k']|] eqn:Hi; [|done]. injection Hrow as -> _. by eapply cdp_index_range. }
  destruct (cdp_localPort_ok names k.1) as [Hp0 Hpt]; [|done|].
  { intros v Hv. by eapply WalkIfNamesWithFallback_ok. }
  assert (e = mkEdge local (cdp_localPort names k.1) (deviceID c) (devPort c) DiscoveryProtocolCDP
                DirectionUnidirectional ConfidenceHigh AdjacencyDirect cdp_precedenceRank
                LinkKindEthernet now ∅ ∧ deviceID c ≠ "") as [-> Hd0].
  { unfold cdp_out in Ho. destruct (_ || _) eqn:E in Ho; [done|]. bprop.
    destruct (cdpNeighborIP c); [destruct (is_OutOfScope _ _) in Ho|destruct (_ && _) in Ho];
      by simplify_eq. }
  simpl in Hself. split; simpl; [done|done| |].
  - repeat (constructor; [first [done|by apply printable_ok]|]). constructor.
  - intros k' v. by rewrite lookup_empty.
Qed.
End Cdp.
