(* ===== verification/Lldp.v ===== *)
(** * internal/discovery/lldp: neighbours of the LLDP remote table

    lldp.go: lldpLocPortTable and lldpRemTable, the combined subtype/ID columns, the
    IEEE 802.1AB gates of [buildEdges], the scope filter.  A nil byte slice and an
    empty one are not told apart by the code, so an absent ID is the empty string. *)

From Stdlib Require Import ZArith Lia Ascii.
From S2P Require Import Prelude GoText Sanitize Discovery Limits HubValidate Pdu NetAddr Walker.
Open Scope Z_scope.

Definition oidLocPortTable : string := "1.0.8802.1.1.2.1.3.7".
Definition oidRemTable : string := "1.0.8802.1.1.2.1.4.1".
Definition lldp_precedenceRank : Z := 2.
Definition walkerLLDP : string := "lldp".

Definition portSubtypeMACAddress : Z := 3.
Definition portSubtypeNetworkAddress : Z := 4.
Definition chassisSubtypeMACAddress : Z := 4.
Definition chassisSubtypeNetworkAddress : Z := 5.

Definition colLocPortIDSubtype : Z := 2.
Definition colLocPortID : Z := 3.
Definition colLocPortDesc : Z := 4.
Definition colRemChassisIDSubtype : Z := 4.
Definition colRemChassisID : Z := 5.
Definition colRemPortIDSubtype : Z := 6.
Definition colRemPortID : Z := 7.
Definition colRemPortDesc : Z := 8.
Definition colRemSysName : Z := 9.

Record locPort := mkLocPort { lp_idSubtype : Z; lp_id : string; lp_desc : string }.

Record remEntry := mkRemEntry {
  chassisSubtype : Z;
  chassisID : string;
  portSubtype : Z;
  portID : string;
  portDesc : string;
  sysName : string
}.

Definition no_port : locPort := mkLocPort 0 "" "".
Definition no_rem : remEntry := mkRemEntry 0 "" 0 "" "" "".

Definition lldp_form : edge_form :=
  mkForm DiscoveryProtocolLLDP lldp_precedenceRank ConfidenceHigh AdjacencyDirect LinkKindEthernet.

(** ** Identifiers *)

(** [raw[0]]. *)
Definition first_byte (raw : string) : Z :=
  match raw with String c _ => byte_val c | EmptyString => 0 end.

Definition extractChassisIP (subtype : Z) (raw : string) : option (list Z) :=
  if negb (subtype =? chassisSubtypeNetworkAddress) || (slen raw <? 2)%nat then None
  else if first_byte raw =? 1 then
    if bool_decide (slen raw = 5%nat) then Some (bytes_of (sdrop 1 raw)) else None
  else if first_byte raw =? 2 then
    if bool_decide (slen raw = 17%nat) then Some (bytes_of (sdrop 1 raw)) else None
  else None.

Section Lldp.
Context `{U : Unicode} `{N : NetText} `{R : MapRange}.

Definition fmtMAC (b : string) : string :=
  if negb (bool_decide (slen b = 6%nat)) then hex_encode b else HardwareAddr_String b.

Definition fmtNetAddr (raw : string) : string :=
  match extractChassisIP chassisSubtypeNetworkAddress raw with
  | Some ip => IP_String ip
  | None => hex_encode raw
  end.

Definition decode_text (raw : string) : string :=
  let s := TrimRight "000"%char raw in
  if negb (ValidString s) then hex_encode raw else s.

Definition decodePortID (subtype : Z) (raw : string) : string :=
  if bool_decide (raw = "") then ""
  else if subtype =? portSubtypeMACAddress then fmtMAC raw
  else if subtype =? portSubtypeNetworkAddress then fmtNetAddr raw
  else decode_text raw.

Definition decodeChassisID (subtype : Z) (raw : string) : string :=
  if bool_decide (raw = "") then ""
  else if subtype =? chassisSubtypeMACAddress then fmtMAC raw
  else if subtype =? chassisSubtypeNetworkAddress then fmtNetAddr raw
  else decode_text raw.

Definition resolveLocalPort (portNum : Z) (locPorts : gmap Z locPort) : string :=
  match locPorts !! portNum with
  | None => Itoa portNum
  | Some lp =>
      let s := decodePortID (lp_idSubtype lp) (lp_id lp) in
      if bool_decide (s ≠ "") then s
      else if bool_decide (lp_desc lp ≠ "") then lp_desc lp
      else Itoa portNum
  end.

Definition resolveRemDevice (rem : remEntry) : string :=
  if bool_decide (sysName rem ≠ "") then sysName rem
  else decodeChassisID (chassisSubtype rem) (chassisID rem).

(** ** Tables *)

Definition locport_row (p : SnmpPDU) : option (Z * (locPort → locPort)) * list walk_event :=
  match TrimOIDPrefix (pdu_Name p) ".1.0.8802.1.1.2.1.3.7.1." with
  | None => (None, [])
  | Some suffix =>
      match SplitOIDComponent suffix with
      | None => (None, [])
      | Some (col, rest) =>
          match Atoi rest with
          | None => (None, [])
          | Some portNum =>
              if col =? colLocPortIDSubtype then
                match PDUIntStrict p with
                | None => (None, [ReportDecodeIssue walkerLLDP oidLocPortTable "port_subtype_undecodable" 1])
                | Some s => (Some (portNum, λ lp, mkLocPort s (lp_id lp) (lp_desc lp)), [])
                end
              else if col =? colLocPortID then
                (Some (portNum, λ lp, mkLocPort (lp_idSubtype lp) (default "" (PDUBytes p)) (lp_desc lp)), [])
              else if col =? colLocPortDesc then
                (Some (portNum, λ lp, mkLocPort (lp_idSubtype lp) (lp_id lp) (PDUString p)), [])
              else (Some (portNum, id), [])
          end
      end
  end.

Definition walkLocPorts (s : session) : W (gmap Z locPort) :=
  let! pdus := BulkWalk s oidLocPortTable in scan_table no_port locport_row pdus.

(** The column and the row (portNum, remIndex) of a suffix
    "col.timeMark.portNum.remIndex". *)
Definition rem_index (suffix : string) : option (Z * (Z * Z)) :=
  match SplitOIDComponent suffix with
  | None => None
  | Some (col, rest) =>
      match SplitOIDComponent rest with
      | None => None
      | Some (_, rest) =>
          match SplitOIDComponent rest with
          | None => None
          | Some (portNum, remStr) => (λ remIndex, (col, (portNum, remIndex))) <$> Atoi remStr
          end
      end
  end.

Definition rem_row (p : SnmpPDU) : option ((Z * Z) * (remEntry → remEntry)) * list walk_event :=
  match TrimOIDPrefix (pdu_Name p) ".1.0.8802.1.1.2.1.4.1.1." ≫= rem_index with
  | None => (None, [])
  | Some (col, k) =>
      (Some (k, λ e,
         if col =? colRemChassisIDSubtype
         then mkRemEntry (PDUInt p) (chassisID e) (portSubtype e) (portID e) (portDesc e) (sysName e)
         else if col =? colRemChassisID
         then mkRemEntry (chassisSubtype e) (default "" (PDUBytes p)) (portSubtype e) (portID e) (portDesc e) (sysName e)
         else if col =? colRemPortIDSubtype
         then mkRemEntry (chassisSubtype e) (chassisID e) (PDUInt p) (portID e) (portDesc e) (sysName e)
         else if col =? colRemPortID
         then mkRemEntry (chassisSubtype e) (chassisID e) (portSubtype e) (default "" (PDUBytes p)) (portDesc e) (sysName e)
         else if col =? colRemPortDesc
         then mkRemEntry (chassisSubtype e) (chassisID e) (portSubtype e) (portID e) (PDUString p) (sysName e)
         else if col =? colRemSysName
         then mkRemEntry (chassisSubtype e) (chassisID e) (portSubtype e) (portID e) (portDesc e)
                (NormaliseName (PDUString p))
         else e), [])
  end.

Definition walkRemEntries (s : session) : W (gmap (Z * Z) remEntry * bool) :=
  let! pdus := BulkWalk s oidRemTable in
  let! entries := scan_table no_rem rem_row pdus in
  W_ret (entries, negb (bool_decide (pdus = []))).

(** ** Edges *)

(** The encoding gates: the reason a row is counted under, if it fails one. *)
Definition rem_gate (rem : remEntry) : option string :=
  let cs := chassisSubtype rem in
  let ps := portSubtype rem in
  let cid := chassisID rem in
  if (cs <? 1) || (7 <? cs) then Some "chassis_subtype_invalid"
  else if (ps <? 1) || (7 <? ps) then Some "port_subtype_invalid"
  else if (cs =? chassisSubtypeMACAddress) && negb (bool_decide (slen cid = 6%nat))
  then Some "chassis_mac_bad_length"
  else if (cs =? chassisSubtypeNetworkAddress) && bool_decide (slen cid = 0%nat)
  then Some "chassis_addr_malformed"
  else if (cs =? chassisSubtypeNetworkAddress) &&
          ((slen cid <? 2)%nat
           || ((first_byte cid =? 1) && negb (bool_decide (slen cid = 5%nat)))
           || ((first_byte cid =? 2) && negb (bool_decide (slen cid = 17%nat)))
           || (negb (first_byte cid =? 1) && negb (first_byte cid =? 2)))
  then Some "chassis_addr_malformed"
  else if (ps =? portSubtypeMACAddress) && negb (bool_decide (slen (portID rem) = 6%nat))
  then Some "port_mac_bad_length"
  else None.

Definition lldp_metadata (rem : remEntry) : gmap string string :=
  if (chassisSubtype rem =? chassisSubtypeMACAddress) && bool_decide (sysName rem ≠ "")
  then {[MetadataKeyPeerChassisMac := fmtMAC (chassisID rem)]} else ∅.

Definition lldp_remPort (rem : remEntry) : string :=
  let remPort := decodePortID (portSubtype rem) (portID rem) in
  SanitisePortName (if bool_decide (remPort = "") then portDesc rem else remPort).

(** The body of the loop of [buildEdges]. *)
Definition lldp_out (localDevice : string) (locPorts : gmap Z locPort) (allowedNets : list IPNet)
    (now : time) (kr : (Z * Z) * remEntry) : row_out * list walk_event :=
  let '(k, rem) := kr in
  match rem_gate rem with
  | Some reason => (RowRejected, [ReportDecodeIssue walkerLLDP oidRemTable reason 1])
  | None =>
      if bool_decide (chassisID rem = "") || bool_decide (portID rem = "") then (RowRejected, [])
      else
        let localPort := SanitisePortName (resolveLocalPort k.1 locPorts) in
        let remDevice := resolveRemDevice rem in
        let remPort := lldp_remPort rem in
        let edge := mkEdge localDevice localPort remDevice remPort DiscoveryProtocolLLDP
                      DirectionUnidirectional ConfidenceHigh AdjacencyDirect lldp_precedenceRank
                      LinkKindEthernet now (lldp_metadata rem) in
        if bool_decide (remDevice = "") || bool_decide (remPort = "") then (RowSkipped, [])
        else match extractChassisIP (chassisSubtype rem) (chassisID rem) with
        | Some remIP =>
            if IsUnspecified remIP then (RowSkipped, [])
            else if is_OutOfScope remIP allowedNets
            then (RowOOS (NewOutOfScopeNeighbour DiscoveryProtocolLLDP localDevice localPort remDevice now), [])
            else (RowEdge edge, [])
        | None =>
            if negb (bool_decide (allowedNets = [])) && negb (IsCatchAll allowedNets)
            then (RowSkipped, [])
            else (RowEdge edge, [])
        end
  end.

Definition lldp_buildEdges (localDevice : string) (locPorts : gmap Z locPort)
    (remEntries : gmap (Z * Z) remEntry) (allowedNets : list IPNet) (now : time)
  : W (list Edge * list OutOfScopeNeighbour * bool) :=
  let outs := lldp_out localDevice locPorts allowedNets now <$> range_map 0 remEntries in
  (outs ≫= snd, inr (collect_rows outs.*1)).

Definition lldp_Walk (acquired : walk_error + session) (localDevice : string)
    (allowedNets : list IPNet) (now : time) : W (list Edge * list OutOfScopeNeighbour) :=
  let failed := [EvProtocolOutcome walkerLLDP OutcomeError] in
  with_session failed acquired (λ s,
    let! locPorts := on_error failed (walkLocPorts s) in
    let! (remEntries, hadPDUs) := on_error failed (walkRemEntries s) in
    let! (edges, oos, decoded) := lldp_buildEdges localDevice locPorts remEntries allowedNets now in
    let! _ := W_emit [EvProtocolOutcome walkerLLDP
                        (ClassifyNeighbourOutcome (Z.of_nat (length edges)) hadPDUs decoded)] in
    W_ret (edges, oos)).

(** ** Lemmas *)

Lemma lldp_value acquired local nets now es oos :
  W_value (lldp_Walk acquired local nets now) = inr (es, oos) →
  ∃ s lpdus pdus, acquired = inr s ∧ s oidLocPortTable = inr lpdus ∧ s oidRemTable = inr pdus ∧
    let outs := lldp_out local (fold_left (table_step no_port locport_row) lpdus ∅) nets now <$>
                  range_map 0 (fold_left (table_step no_rem rem_row) pdus ∅) in
    es = omap out_edge outs.*1 ∧ oos = omap out_oos outs.*1.
Proof.
  intros (s & -> & Hb)%with_session_value.
  apply W_value_bind in Hb as (ports & Hn & Hb). rewrite W_value_on_error in Hn.
  apply W_value_bind in Hn as (lpdus & Hls & [= <-]).
  apply W_value_bind in Hb as ([entries hadPDUs] & Ht & Hb). rewrite W_value_on_error in Ht.
  apply W_value_bind in Ht as (pdus & Hs & Ht). apply W_value_bind in Ht as (rows' & [= <-] & [= <- <-]).
  apply W_value_bind in Hb as ([[es' oos'] dec] & [= <- <- <-] & Hb). injection Hb as <- <-.
  by exists s, lpdus, pdus.
Qed.

Lemma lldp_out_walked local ports nets now kr : out_walked lldp_form local now (lldp_out local ports nets now kr).1.
Proof.
  destruct kr as [k rem]. unfold lldp_out. destruct (rem_gate rem); [done|].
  destruct (_ || _); [done|]. cbv zeta. destruct (_ || _); [done|].
  destruct (extractChassisIP _ _).
  - destruct (IsUnspecified _); [done|]. by destruct (is_OutOfScope _ _).
  - by destruct (_ && _).
Qed.

(** What IEEE 802.1AB asks of the identifiers of a row. *)
Record well_encoded (rem : remEntry) : Prop := {
  wen_chassis : 1 ≤ chassisSubtype rem ≤ 7;
  wen_port : 1 ≤ portSubtype rem ≤ 7;
  wen_mac : chassisSubtype rem = chassisSubtypeMACAddress → slen (chassisID rem) = 6%nat;
  wen_addr : chassisSubtype rem = chassisSubtypeNetworkAddress →
    is_Some (extractChassisIP chassisSubtypeNetworkAddress (chassisID rem));
  wen_portmac : portSubtype rem = portSubtypeMACAddress → slen (portID rem) = 6%nat
}.

Lemma extract_iff raw :
  is_Some (extractChassisIP chassisSubtypeNetworkAddress raw) ↔
  (first_byte raw = 1 ∧ slen raw = 5%nat) ∨ (first_byte raw = 2 ∧ slen raw = 17%nat).
Proof.
  unfold extractChassisIP. rewrite Z.eqb_refl. simpl.
  destruct (slen raw <? 2)%nat eqn:E; [apply Nat.ltb_lt in E|apply Nat.ltb_ge in E].
  { split; [by intros [? ?]|lia]. }
  destruct (first_byte raw =? 1) eqn:E1; bprop.
  { case_bool_decide; split; try (by intros [? ?]); try lia; eauto. }
  destruct (first_byte raw =? 2) eqn:E2; bprop.
  { case_bool_decide; split; try (by intros [? ?]); try lia; eauto. }
  split; [by intros [? ?]|lia].
Qed.

Lemma rem_gate_iff rem : rem_gate rem = None ↔ well_encoded rem.
Proof.
  unfold rem_gate. pose proof (extract_iff (chassisID rem)) as Hex. split.
  - destruct (_ || _) eqn:E1; [done|]. destruct (_ || _) eqn:E2 in |- *; [done|].
    destruct (_ && _) eqn:E3 in |- *; [done|]. destruct (_ && _) eqn:E4 in |- *; [done|].
    destruct (_ && _) eqn:E5 in |- *; [done|]. destruct (_ && _) eqn:E6 in |- *; [done|].
    intros _. bprop. split; [lia|lia| | |].
    + intros Hc. rewrite Hc in E3. simpl in E3. destruct E3 as [|E3]; [done|]. by bprop.
    + intros Hc. apply Hex. rewrite Hc in E5. simpl in E5. destruct E5 as [|E5]; [done|].
      apply orb_false_iff in E5 as [[[G1 G2]%orb_false_iff G3]%orb_false_iff G4].
      apply Nat.ltb_ge in G1.
      destruct (first_byte (chassisID rem) =? 1) eqn:F1, (first_byte (chassisID rem) =? 2) eqn:F2;
        simpl in *; bprop; try lia; auto.
    + intros Hc. rewrite Hc in E6. simpl in E6. destruct E6 as [|E6]; [done|]. by bprop.
  - intros [Hc Hp Hm Ha Hpm].
    rewrite (proj2 (Z.ltb_ge _ _)), (proj2 (Z.ltb_ge 7 _)) by lia.
    rewrite (proj2 (Z.ltb_ge (portSubtype rem) _)), (proj2 (Z.ltb_ge 7 _)) by lia. simpl.
    destruct (chassisSubtype rem =? chassisSubtypeMACAddress) eqn:E1; bprop.
    + rewrite bool_decide_eq_true_2 by auto. rewrite E1. simpl.
      destruct (portSubtype rem =? portSubtypeMACAddress) eqn:E2; bprop; [|done].
      by rewrite bool_decide_eq_true_2 by auto.
    + simpl. destruct (chassisSubtype rem =? chassisSubtypeNetworkAddress) eqn:E3; bprop; simpl.
      * apply Ha, Hex in E3.
        assert ((slen (chassisID rem) <? 2)%nat = false) as -> by (apply Nat.ltb_ge; lia).
        rewrite bool_decide_eq_false_2 by lia.
        assert (((first_byte (chassisID rem) =? 1) && negb (bool_decide (slen (chassisID rem) = 5%nat))) = false) as ->.
        { destruct E3 as [[-> ->]|[-> ->]]; done. }
        assert (((first_byte (chassisID rem) =? 2) && negb (bool_decide (slen (chassisID rem) = 17%nat))) = false) as ->.
        { destruct E3 as [[-> ->]|[-> ->]]; done. }
        assert ((negb (first_byte (chassisID rem) =? 1) && negb (first_byte (chassisID rem) =? 2)) = false) as ->.
        { destruct E3 as [[-> _]|[-> _]]; done. }
        simpl. destruct (portSubtype rem =? portSubtypeMACAddress) eqn:E2; bprop; [|done].
        by rewrite bool_decide_eq_true_2 by auto.
      * destruct (portSubtype rem =? portSubtypeMACAddress) eqn:E2; bprop; [|done].
        by rewrite bool_decide_eq_true_2 by auto.
Qed.

(** A neighbour the scope filter lets through: a network-address chassis ID that is in
    scope, or any other ID when no filter is active. *)
Definition lldp_in_scope (nets : list IPNet) (rem : remEntry) : Prop :=
  match extractChassisIP (chassisSubtype rem) (chassisID rem) with
  | Some ip => IsUnspecified ip = false ∧ is_OutOfScope ip nets = false
  | None => nets = [] ∨ IsCatchAll nets = true
  end.

Definition lldp_edge (local : string) (ports : gmap Z locPort) (now : time) (k : Z * Z) (rem : remEntry) : Edge :=
  mkEdge local (SanitisePortName (resolveLocalPort k.1 ports)) (resolveRemDevice rem) (lldp_remPort rem)
    DiscoveryProtocolLLDP DirectionUnidirectional ConfidenceHigh AdjacencyDirect lldp_precedenceRank
    LinkKindEthernet now (lldp_metadata rem).

(** When a row becomes an edge. *)
Lemma lldp_out_edge local ports nets now k rem e :
  (lldp_out local ports nets now (k, rem)).1 = RowEdge e ↔
  well_encoded rem ∧ chassisID rem ≠ "" ∧ portID rem ≠ "" ∧
  resolveRemDevice rem ≠ "" ∧ lldp_remPort rem ≠ "" ∧ lldp_in_scope nets rem ∧
  e = lldp_edge local ports now k rem.
Proof.
  unfold lldp_out, lldp_in_scope. rewrite <-rem_gate_iff. destruct (rem_gate rem); [by split; [|intros [? _]]|].
  destruct (bool_decide (chassisID rem = "") || bool_decide (portID rem = "")) eqn:E0; bprop.
  { split; [done|]. intros (_ & ? & ? & _). destruct E0; by bprop. }
  cbv zeta. destruct (bool_decide (resolveRemDevice rem = "") || bool_decide (lldp_remPort rem = "")) eqn:E; bprop.
  { split; [done|]. intros (_ & _ & _ & ? & ? & _). destruct E; by bprop. }
  fold (lldp_edge local ports now k rem).
  destruct (extractChassisIP (chassisSubtype rem) (chassisID rem)) as [ip|].
  - destruct (IsUnspecified ip) eqn:E1; [by split; [|intros (_ & _ & _ & _ & _ & [? _] & _)]|].
    destruct (is_OutOfScope ip nets) eqn:E2; [by split; [|intros (_ & _ & _ & _ & _ & [_ ?] & _)]|].
    split; [by intros [= <-]|by intros (_ & _ & _ & _ & _ & _ & ->)].
  - destruct (negb (bool_decide (nets = [])) && negb (IsCatchAll nets)) eqn:E1; bprop.
    { split; [done|]. intros (_ & _ & _ & _ & _ & [?|?] & _); congruence. }
    assert (nets = [] ∨ IsCatchAll nets = true) by (destruct E1; bprop; auto).
    split; [by intros [= <-]|by intros (_ & _ & _ & _ & _ & _ & ->)].
Qed.

(** What the hub asks of an LLDP edge, but for the two fields that are not checked. *)
Lemma lldp_edge_ok `{!NetTextLaws N} acquired local nets now es oos e :
  local ≠ "" → text_ok MaxPortNameBytes local →
  W_value (lldp_Walk acquired local nets now) = inr (es, oos) → e ∈ es →
  SrcPort e ≠ "" → text_ok MaxPortNameBytes (DstDevice e) → DstDevice e ≠ local → edge_ok e.
Proof.
  intros Hl0 Hl (s & lpdus & pdus & -> & _ & _ & -> & _)%lldp_value He Hsp Hdd Hself.
  apply elem_of_out_edges, list_elem_of_fmap in He as ([o ev] & Heo & He).
  apply list_elem_of_fmap in He as ([k rem] & Ho & _). simpl in Heo. subst o.
  apply (f_equal fst) in Ho. simpl in Ho. symmetry in Ho.
  apply lldp_out_edge in Ho as (Hw & _ & _ & Hd & Hp & _ & ->). simpl in *. split; simpl; [done|done| |].
  - assert (∀ t, text_ok MaxPortNameBytes (SanitisePortName t)) as Hs
      by (intros; apply sanitised_port_passes_hub).
    repeat (constructor; [first [done|apply Hs|by apply printable_ok]|]). constructor.
  - unfold lldp_metadata. intros k' v. destruct (_ && _) eqn:E; [|by rewrite lookup_empty].
    intros [<- <-]%lookup_singleton_Some. bprop.
    assert (slen (chassisID rem) = 6%nat) as Hm by (destruct Hw; auto).
    unfold fmtMAC. rewrite bool_decide_eq_true_2 by done. simpl.
    destruct (ntl_mac _ Hm) as [_ (Hl1 & Hl2 & Hl3)].
    split; [done|]. split; [by apply printable_ok|]. split; [|done].
    unfold MaxPortNameBytes, MaxLabelValueBytes in *. lia.
Qed.
End Lldp.

(** ** Properties *)

(** C19: LLDP edges are exactly the usable rows of the remote table. A successful walk
    yields an edge for a row if and only if its chassis and port IDs are encoded as IEEE
    802.1AB says (subtypes 1 to 7, MACs of 6 bytes, network addresses of family 1 with 4
    or family 2 with 16 octets), are not empty, name a device and a port, and the scope
    filter lets the neighbour through: with an active filter only neighbours with a
    network-address chassis ID inside the allow-list. *)
Theorem lldp_edges_exact `{Unicode} `{NetText} `{MapRange} (s : session) (lpdus pdus : list SnmpPDU)
    (local : string) (nets : list IPNet) (now : time) :
  s oidLocPortTable = inr lpdus → s oidRemTable = inr pdus →
  let ports := fold_left (table_step no_port locport_row) lpdus ∅ in
  ∃ es oos, W_value (lldp_Walk (inr s) local nets now) = inr (es, oos) ∧
    ∀ e, e ∈ es ↔ ∃ k rem,
      fold_left (table_step no_rem rem_row) pdus ∅ !! k = Some rem ∧
      well_encoded rem ∧ chassisID rem ≠ "" ∧ portID rem ≠ "" ∧
      resolveRemDevice rem ≠ "" ∧ lldp_remPort rem ≠ "" ∧ lldp_in_scope nets rem ∧
      e = lldp_edge local ports now k rem.
Proof.
  intros Hl Hr ports. unfold lldp_Walk. cbn [with_session].
  unfold walkLocPorts, walkRemEntries, BulkWalk. rewrite Hl, Hr.
  eexists _, _. split; [reflexivity|]. intros e. rewrite elem_of_out_edges, list_elem_of_fmap. split.
  - intros ([o ev] & Ho & He). apply list_elem_of_fmap in He as ([k rem] & He & Hk%elem_of_range).
    exists k, rem. split; [done|]. apply (f_equal fst) in He. rewrite <-Ho in He.
    symmetry in He. by apply lldp_out_edge in He.
  - intros (k & rem & Hk & Hrow). eapply lldp_out_edge in Hrow.
    exists (lldp_out local ports nets now (k, rem)). split; [by rewrite Hrow|].
    apply list_elem_of_fmap. exists (k, rem). split; [done|]. by apply elem_of_range.
Qed.

(** A switch port with a MAC chassis ID and a name. *)
Definition rem_oid (col : string) : string := ".1.0.8802.1.1.2.1.4.1.1." +:+ col +:+ ".0.3.1".

Definition sample_rem (subtype : Z) (chassis : string) (name : string) : list SnmpPDU :=
  [mkPDU (rem_oid "4") (VInt subtype); mkPDU (rem_oid "5") (VBytes chassis);
   mkPDU (rem_oid "6") (VInt 5); mkPDU (rem_oid "7") (VString "Gi0/1"); mkPDU (rem_oid "9") (VString name)].

Definition sample_lldp (rem : list SnmpPDU) : session :=
  answers [(oidLocPortTable, [mkPDU ".1.0.8802.1.1.2.1.3.7.1.4.3" (VString "Gi0/3")]); (oidRemTable, rem)].

Lemma lldp_edges_exact_witness :
  ∃ es oos, W_value (lldp_Walk (U := unicode_table) (N := go_net) (R := range_std)
      (inr (sample_lldp (sample_rem 4 (octet_string [0; 26; 43; 60; 77; 94]) "Core"))) "sw1" [] 7) = inr (es, oos) ∧
    es ≠ [].
Proof.
  set (pdus := sample_rem 4 (octet_string [0; 26; 43; 60; 77; 94]) "Core").
  destruct (lldp_edges_exact (H := unicode_table) (H0 := go_net) (H1 := range_std)
    (sample_lldp pdus) _ pdus "sw1" [] 7 eq_refl eq_refl) as (es & oos & Hv & He).
  exists es, oos. split; [done|]. clear Hv. intros ->.
  assert (fold_left (table_step no_rem (rem_row (U := unicode_table))) pdus ∅ !! (3, 1) =
    Some (mkRemEntry 4 (octet_string [0; 26; 43; 60; 77; 94]) 5 "Gi0/1" "" "core")) as Hrow
    by (vm_compute; reflexivity).
  refine (not_elem_of_nil _ (proj2 (He _) _)). exists (3, 1). eexists. split; [exact Hrow|].
  split; [apply rem_gate_iff; vm_compute; reflexivity|].
  split_and!; try (vm_compute; discriminate); [left; reflexivity|reflexivity].
Defined.

(** a device can keep its spoke from publishing. A chassis ID of subtype local(7) is
    copied into the neighbour's name without the sanitising that names and ports get:
    one with a control byte makes an edge the hub refuses, and with it the whole push. *)
Theorem lldp_chassis_id_defeats_push :
  ∃ e, W_value (lldp_Walk (U := unicode_table) (N := go_net) (R := range_std)
         (inr (sample_lldp (sample_rem 7 (octet_string [97; 10; 98]) ""))) "sw1" [] 7) = inr ([e], []) ∧
    (∀ p, e ∈ sp_Edges p → validateSpokePayload (MR := range_std) p ≠ inr tt).
Proof.
  eexists. split; [vm_compute; reflexivity|].
  intros p He Hp. apply validateSpokePayload_ok in Hp as [_ _ Hes _].
  rewrite Forall_forall in Hes. apply Hes in He as [_ _ Hf _].
  rewrite Forall_forall in Hf. destruct (Hf (octet_string [97; 10; 98])) as (_ & _ & Hc).
  { do 2 right. by left. }
  specialize (Hc 10 ltac:(lia)). discriminate Hc.
Qed.
