(* ===== verification/Credentials.v ===== *)
(** * internal/credentials

    The resolver of credential profiles: resolution by address, the cache of
    winning profiles with its time to live, and the token bucket that bounds the
    rate of trials.  The one floating-point computation of the package, the number
    of tokens that accrued, is a parameter ([TrialFloat]) with the accuracy the
    bound needs. *)

From Stdlib Require Import ZArith Lia.
From S2P Require Import Prelude GoText Discovery Pdu.
Open Scope Z_scope.

(** ** Configuration *)

Record CredentialProfile := mkProfile {
  p_Name : string;
  p_Type : string;
  p_CommunityEnv : string;
  p_UsernameEnv : string;
  p_AuthProtocol : string;
  p_AuthKeyEnv : string;
  p_PrivProtocol : string;
  p_PrivKeyEnv : string;
  p_Retries : Z;
  p_ContextName : string
}.

Record CredentialAssignment := mkAssignment {
  a_IP : string;
  a_CIDR : string;
  a_Profiles : list string
}.

Record CredentialsConfig := mkCredentialsConfig {
  Profiles : list CredentialProfile;
  Assignments : list CredentialAssignment;
  FallbackOrder : list string;
  TrialRatePerSecond : Z
}.

(** ** The token bucket *)

(** [int(elapsed.Seconds() * float64(rate))]: rounding may lift the product to the
    next integer, no further. *)
Class TrialFloat := {
  float_tokens : duration → Z → Z;
  float_tokens_bound : ∀ elapsed rate, 0 < elapsed → 0 < rate → elapsed * rate ≤ MaxInt →
    0 ≤ float_tokens elapsed rate ∧ (float_tokens elapsed rate - 1) * Second < elapsed * rate
}.

(** Exact arithmetic is one such function. *)
#[refine] Definition exact_float : TrialFloat := {|
  float_tokens elapsed rate := elapsed * rate / Second
|}.
Proof.
  intros elapsed rate He Hr _. assert (0 < Second) by done. split; [apply Z.div_pos; nia|].
  pose proof (Z.mul_div_le (elapsed * rate) Second ltac:(lia)). nia.
Defined.

Record tokenBucket := mkBucket {
  b_rate : Z;
  b_tokens : Z;
  b_lastRefill : time
}.

Definition newTokenBucket (rate : Z) (now : time) : tokenBucket :=
  let rate := if rate <? 1 then 1 else rate in
  let rate := if 1000000 <? rate then 1000000 else rate in
  mkBucket rate rate now.

Lemma newTokenBucket_rate rate now :
  1 ≤ b_rate (newTokenBucket rate now) ≤ 1000000 ∧
  (1 ≤ rate ≤ 1000000 → b_rate (newTokenBucket rate now) = rate).
Proof.
  unfold newTokenBucket. cbv zeta. cbn [b_rate].
  destruct (rate <? 1) eqn:H1; bprop; [cbn; lia|]. destruct (1000000 <? rate) eqn:H2; bprop; lia.
Qed.


Section Bucket.
Context `{F : TrialFloat}.

Definition refillLocked (now : time) (b : tokenBucket) : tokenBucket :=
  let elapsed := time_Sub now (b_lastRefill b) in
  if elapsed <=? 0 then b
  else
    let add := float_tokens elapsed (b_rate b) in
    if add <=? 0 then b
    else
      let tokens := b_tokens b + add in
      mkBucket (b_rate b) (if b_rate b <? tokens then b_rate b else tokens)
        (b_lastRefill b + Z.quot (wrap64 (add * Second)) (b_rate b)).

(** One iteration of [acquire], up to the unlock. *)
Definition try_acquire (now : time) (b : tokenBucket) : tokenBucket * bool :=
  let b := refillLocked now b in
  if 0 <? b_tokens b then (mkBucket (b_rate b) (b_tokens b - 1) (b_lastRefill b), true)
  else (b, false).

Definition interval (b : tokenBucket) : duration := Z.quot Second (b_rate b).

(** [acquire] with the clock readings of its iterations; after a failed attempt
    the flag says whether the context is cancelled before the timer fires. *)
Inductive acquired := Acquired | Cancelled | Waiting.

Fixpoint acquire (its : list (time * bool)) (b : tokenBucket) : tokenBucket * acquired :=
  match its with
  | [] => (b, Waiting)
  | (now, cancelled) :: its' =>
      let '(b', ok) := try_acquire now b in
      if ok then (b', Acquired)
      else if cancelled then (b', Cancelled)
      else acquire its' b'
  end.

(** The attempts of all callers in the order of the lock. *)
Fixpoint run_attempts (nows : list time) (b : tokenBucket) : tokenBucket * Z :=
  match nows with
  | [] => (b, 0)
  | now :: nows' =>
      let '(b', ok) := try_acquire now b in
      let '(bf, n) := run_attempts nows' b' in
      (bf, n + if ok then 1 else 0)
  end.

(** [S] tokens were added since [t0], no faster than the rate. *)
Record bucket_inv (t0 tmax : time) (b : tokenBucket) (S a : Z) : Prop := {
  bi_rate : 1 ≤ b_rate b ≤ 1000000;
  bi_tokens : 0 ≤ b_tokens b ≤ b_rate b;
  bi_start : t0 ≤ b_lastRefill b;
  bi_added : 0 ≤ S ∧ S * (Second - b_rate b) ≤ b_rate b * (b_lastRefill b - t0);
  bi_spent : b_tokens b + a ≤ b_rate b + S;
  bi_now : b_rate b * b_lastRefill b ≤ b_rate b * tmax + Second
}.

Lemma refill_inv t0 tmax b S a now :
  bucket_inv t0 tmax b S a → now ≤ tmax → (tmax - t0) * b_rate b + Second ≤ MaxInt →
  ∃ S', bucket_inv t0 tmax (refillLocked now b) S' a ∧ b_rate (refillLocked now b) = b_rate b.
Proof.
  intros [Hr Ht Hs [HS0 HS] Ha Hn] Hnow Hof. unfold refillLocked.
  assert (Second = 1000000000) as HSec by done.
  assert (now - b_lastRefill b ≤ MaxInt) by (unfold MaxInt in *; nia).
  destruct (time_Sub now (b_lastRefill b) <=? 0) eqn:E1; [by exists S|]. bprop.
  rewrite time_Sub_exact in * by (unfold time_Sub, MinInt, MaxInt in *; lia).
  assert ((now - b_lastRefill b) * b_rate b ≤ (tmax - t0) * b_rate b) by nia.
  destruct (float_tokens_bound (now - b_lastRefill b) (b_rate b)) as [Hx0 Hx]; [lia..|].
  set (x := float_tokens (now - b_lastRefill b) (b_rate b)) in *.
  destruct (x <=? 0) eqn:E2; [by exists S|]. bprop.
  rewrite wrap64_small by nia.
  set (adv := Z.quot (x * Second) (b_rate b)).
  assert (b_rate b * adv ≤ x * Second < b_rate b * adv + b_rate b) as [Hadv1 Hadv2].
  { unfold adv. rewrite Z.quot_div_nonneg by nia.
    pose proof (Z.mul_div_le (x * Second) (b_rate b) ltac:(lia)).
    pose proof (Z.mul_succ_div_gt (x * Second) (b_rate b) ltac:(lia)). nia. }
  assert (0 ≤ adv) by (unfold adv; apply Z.quot_pos; nia).
  exists (S + x). split; [|done]. split; cbn [b_rate b_tokens b_lastRefill].
  - done.
  - destruct (_ <? _) eqn:E3; bprop; lia.
  - lia.
  - split; [lia|]. nia.
  - destruct (_ <? _) eqn:E3; bprop; lia.
  - nia.
Qed.

Lemma attempts_inv t0 tmax b S a nows :
  bucket_inv t0 tmax b S a → Forall (λ now, now ≤ tmax) nows →
  (tmax - t0) * b_rate b + Second ≤ MaxInt →
  ∃ S', bucket_inv t0 tmax (run_attempts nows b).1 S' (a + (run_attempts nows b).2) ∧
        b_rate (run_attempts nows b).1 = b_rate b.
Proof.
  intros Hb Hall. revert b S a Hb. induction Hall as [|now nows Hnow Hall IH]; intros b S a Hb Hof.
  { exists S. simpl. by rewrite Z.add_0_r. }
  destruct (refill_inv _ _ _ _ _ now Hb Hnow Hof) as (S1 & Hb1 & Hr1).
  cbn [run_attempts]. unfold try_acquire. destruct (0 <? b_tokens (refillLocked now b)) eqn:E; bprop.
  - destruct (IH (mkBucket (b_rate (refillLocked now b)) (b_tokens (refillLocked now b) - 1)
      (b_lastRefill (refillLocked now b))) S1 (a + 1)) as (S2 & Hb2 & Hr2).
    + destruct Hb1 as [? ? ? ? ? ?]. split; simpl; try done; lia.
    + simpl. by rewrite Hr1.
    + simpl in Hr2. destruct (run_attempts nows _) as [bf n]. simpl in *.
      exists S2. split; [|congruence]. replace (a + (n + 1)) with (a + 1 + n) by lia. done.
  - destruct (IH (refillLocked now b) S1 a Hb1) as (S2 & Hb2 & Hr2); [by rewrite Hr1|].
    destruct (run_attempts nows _) as [bf n]. simpl in *. rewrite Z.add_0_r.
    exists S2. split; [done|congruence].
Qed.
End Bucket.

(** ** The resolver *)

Definition cacheTTL : duration := 2 * Hour.

Record cacheEntry := mkCacheEntry { ce_profile : string; ce_cachedAt : time }.

Record cidrAssignment := mkCidr {
  ca_net : IPNet;
  ca_prefixLen : Z;
  ca_profiles : list string
}.

Record Resolver := mkResolver {
  r_profiles : gmap string CredentialProfile;
  r_exact : gmap string (list string);
  r_cidrs : list cidrAssignment;
  r_fallback : list string;
  r_limiter : tokenBucket;
  r_cache : gmap string cacheEntry
}.

Definition set_cache (r : Resolver) (c : gmap string cacheEntry) : Resolver :=
  mkResolver (r_profiles r) (r_exact r) (r_cidrs r) (r_fallback r) (r_limiter r) c.

Section Resolve.
Context `{N : NetText}.

(** The loop over the assignments: exact addresses and networks. *)
Fixpoint assign (l : list CredentialAssignment) (ex : gmap string (list string))
    (cs : list cidrAssignment) : string + (gmap string (list string) * list cidrAssignment) :=
  match l with
  | [] => inr (ex, cs)
  | a :: l' =>
      if bool_decide (a_IP a ≠ "") then assign l' (<[a_IP a := a_Profiles a]> ex) cs
      else if bool_decide (a_CIDR a ≠ "") then
        match ParseCIDR (a_CIDR a) with
        | None => inl (a_CIDR a)
        | Some n => assign l' ex (cs ++ [mkCidr n (mask_Size (n_Mask n)).1 (a_Profiles a)])
        end
      else assign l' ex cs
  end.

Definition New (c : CredentialsConfig) (now : time) : string + Resolver :=
  do (ex, cs) <- assign (Assignments c) ∅ [];
  inr (mkResolver
         (fold_left (λ m p, <[p_Name p := p]> m) (Profiles c) ∅)
         ex (sort_by (longer ca_prefixLen) cs) (FallbackOrder c)
         (newTokenBucket (TrialRatePerSecond c) now) ∅).

Definition Resolve (r : Resolver) (ip : list Z) : list string :=
  match r_exact r !! IP_String ip with
  | Some ps => ps
  | None =>
      match find_first (λ a, Contains (ca_net a) ip) (r_cidrs r) with
      | Some a => ca_profiles a
      | None => r_fallback r
      end
  end.

Definition Profile (r : Resolver) (name : string) : option CredentialProfile := r_profiles r !! name.

(** ** The cache *)

Definition RecordSuccess (id profile : string) (now : time) (r : Resolver) : Resolver :=
  set_cache r (<[id := mkCacheEntry profile now]> (r_cache r)).

Definition RecordFailure (id : string) (r : Resolver) : Resolver :=
  set_cache r (delete id (r_cache r)).

Definition expired_at (now : time) (e : cacheEntry) : bool := cacheTTL <? time_Sub now (ce_cachedAt e).

(** [CachedProfile] reads under the read lock and evicts under the write lock;
    another goroutine may run in between. *)
Definition cached_read (id : string) (now : time) (r : Resolver) : option string * bool :=
  match r_cache r !! id with
  | None => (None, false)
  | Some e => if expired_at now e then (None, true) else (Some (ce_profile e), false)
  end.

Definition cached_evict (id : string) (now : time) (r : Resolver) : Resolver :=
  match r_cache r !! id with
  | Some e => if expired_at now e then set_cache r (delete id (r_cache r)) else r
  | None => r
  end.

Definition CachedProfile (id : string) (now1 now2 : time) (r : Resolver) : Resolver * option string :=
  let '(res, stale) := cached_read id now1 r in
  ((if stale then cached_evict id now2 r else r), res).

Definition LoadCache (cache : gmap string string) (now : time) (r : Resolver) : Resolver :=
  set_cache r ((λ p, mkCacheEntry p now) <$> cache).

(** The clock is read once per entry. *)
Definition SnapshotCache (now : string → time) (r : Resolver) : gmap string string :=
  ce_profile <$> filter (λ kv, time_Sub (now kv.1) (ce_cachedAt kv.2) ≤ cacheTTL) (r_cache r).

(** *** Lemmas *)

(** The configured networks: what an assignment without an address names. *)
Definition assigned_net (a : CredentialAssignment) (n : IPNet) : Prop :=
  a_IP a = "" ∧ a_CIDR a ≠ "" ∧ ParseCIDR (a_CIDR a) = Some n.

Definition cidr_of (a : CredentialAssignment) (n : IPNet) : cidrAssignment :=
  mkCidr n (mask_Size (n_Mask n)).1 (a_Profiles a).

Lemma assign_cidrs l ex cs ex' cs' :
  assign l ex cs = inr (ex', cs') →
  ∀ c, c ∈ cs' ↔ c ∈ cs ∨ ∃ a n, a ∈ l ∧ assigned_net a n ∧ c = cidr_of a n.
Proof.
  revert ex cs. induction l as [|a l IH]; intros ex cs; cbn [assign].
  { intros [= -> ->] c. split; [auto|]. intros [?|(a & n & Ha & _)]; [done|set_solver]. }
  setoid_rewrite elem_of_cons. unfold assigned_net in *. case_bool_decide as Hip.
  { intros H c. rewrite (IH _ _ H). naive_solver. }
  case_bool_decide as Hc.
  - destruct (ParseCIDR (a_CIDR a)) as [n|] eqn:Hp; [|done].
    intros H c. rewrite (IH _ _ H), elem_of_app, list_elem_of_singleton. split.
    + intros [[?| ->]|(a' & n' & ? & ? & ?)]; [by left|right|right; eauto 6].
      exists a, n. auto.
    + intros [?|(a' & n' & [->|?] & Hn & ->)]; [auto| |right; eauto].
      destruct Hn as (_ & _ & Hn). left; right. by simplify_eq.
  - intros H c. rewrite (IH _ _ H). naive_solver.
Qed.

Definition names_ip (s : string) (a : CredentialAssignment) : Prop := a_IP a ≠ "" ∧ a_IP a = s.

#[global] Instance names_ip_dec s a : Decision (names_ip s a).
Proof. unfold names_ip. apply _. Defined.

(** The last assignment of an address holds. *)
Lemma assign_exact l ex cs ex' cs' s :
  assign l ex cs = inr (ex', cs') →
  ex' !! s = match last (filter (names_ip s) l) with
             | Some a => Some (a_Profiles a)
             | None => ex !! s
             end.
Proof.
  revert ex cs. induction l as [|a l IH]; intros ex cs; cbn [assign]; [by intros [= -> ->]|].
  assert (∀ b, match last (a :: filter (names_ip s) l) with Some a => Some (a_Profiles a) | None => b end
    = match last (filter (names_ip s) l) with Some a => Some (a_Profiles a) | None => Some (a_Profiles a) end)
    as Hlast by (intros b; rewrite last_cons; by destruct (last _)).
  rewrite filter_cons. case_bool_decide as Hip.
  - intros ->%IH. case_decide as Hd; [rewrite Hlast|].
    + destruct Hd as [_ <-]. by rewrite lookup_insert_eq.
    + rewrite lookup_insert_ne; [done|]. intros <-. by apply Hd.
  - rewrite decide_False by (unfold names_ip; naive_solver).
    case_bool_decide; [destruct (ParseCIDR _); [|done]|]; apply IH.
Qed.

(** The networks of a resolver, in the order [Resolve] tries them. *)
Lemma New_cidrs c now r ip :
  New c now = inr r →
  match find_first (λ a, Contains (ca_net a) ip) (r_cidrs r) with
  | Some x => ∃ a n, a ∈ Assignments c ∧ assigned_net a n ∧ Contains n ip = true ∧ x = cidr_of a n ∧
      ∀ a' n', a' ∈ Assignments c → assigned_net a' n' → Contains n' ip = true →
        (mask_Size (n_Mask n')).1 ≤ (mask_Size (n_Mask n)).1
  | None => ∀ a n, a ∈ Assignments c → assigned_net a n → Contains n ip = false
  end.
Proof.
  unfold New. destruct (assign (Assignments c) ∅ []) as [|[ex cs]] eqn:Has; [done|].
  intros [= <-]. cbn [r_cidrs]. pose proof (assign_cidrs _ _ _ _ _ Has) as Hcs.
  destruct (find_first _ _) as [x|] eqn:Hf.
  - apply first_match_longest in Hf as (Hx & Hin & Hmax). apply Hcs in Hin as [?|(a & n & Ha & Hn & ->)]; [set_solver|].
    exists a, n. split_and!; [done..|]. intros a' n' Ha' Hn' Hc.
    apply (Hmax (cidr_of a' n')); [|done]. apply Hcs. right; eauto 6.
  - apply find_first_None in Hf. rewrite Forall_forall in Hf. intros a n Ha Hn.
    apply (Hf (cidr_of a n)), elem_of_sort_by, Hcs. right; eauto 6.
Qed.
End Resolve.

(** ** The cache as a log of recorded outcomes *)

(** The critical sections of the cache.  A lookup that finds an expired entry
    contributes an [OpEvict] at some later point. *)
Inductive cache_op :=
| OpSuccess (id profile : string) (now : time)
| OpFailure (id : string)
| OpEvict (id : string) (now : time)
| OpLoad (cache : gmap string string) (now : time).

Definition cache_step (r : Resolver) (o : cache_op) : Resolver :=
  match o with
  | OpSuccess id p now => RecordSuccess id p now r
  | OpFailure id => RecordFailure id r
  | OpEvict id now => cached_evict id now r
  | OpLoad m now => LoadCache m now r
  end.

(** What the log says of a device, evictions ignored. *)
Definition recorded_step (id : string) (o : cache_op) (prev : option cacheEntry) : option cacheEntry :=
  match o with
  | OpSuccess i p now => if bool_decide (i = id) then Some (mkCacheEntry p now) else prev
  | OpFailure i => if bool_decide (i = id) then None else prev
  | OpEvict _ _ => prev
  | OpLoad m now => (λ p, mkCacheEntry p now) <$> m !! id
  end.

Definition recorded (id : string) (ops : list cache_op) : option cacheEntry :=
  fold_left (λ e o, recorded_step id o e) ops None.

Definition evict_before (tmax : time) (o : cache_op) : Prop :=
  match o with OpEvict _ now => now ≤ tmax | _ => True end.

Lemma expired_mono e t1 t2 : t1 ≤ t2 → expired_at t1 e = true → expired_at t2 e = true.
Proof.
  unfold expired_at, cacheTTL. intros Ht H. bprop. apply Z.ltb_lt. unfold time_Sub in *. lia.
Qed.

(** The cache differs from the log only in entries that expired. *)
Lemma cache_agrees r ops tmax id :
  r_cache r = ∅ → Forall (evict_before tmax) ops →
  r_cache (fold_left cache_step ops r) !! id = recorded id ops ∨
  r_cache (fold_left cache_step ops r) !! id = None ∧
    ∃ e, recorded id ops = Some e ∧ expired_at tmax e = true.
Proof.
  intros H0. unfold recorded. induction ops as [|o ops IH] using rev_ind; intros Hall.
  { left. simpl. by rewrite H0. }
  apply Forall_app in Hall as [Hall [Ho _]%Forall_cons].
  rewrite !fold_left_app. cbn [fold_left]. set (r' := fold_left cache_step ops r) in *.
  set (e' := fold_left _ ops None) in *. specialize (IH Hall).
  destruct o as [i p now|i|i now|m now];
    cbn [cache_step recorded_step RecordSuccess RecordFailure LoadCache set_cache r_cache].
  - case_bool_decide as Hi; [left; by rewrite Hi, lookup_insert_eq|by rewrite lookup_insert_ne].
  - case_bool_decide as Hi; [left; by rewrite Hi, lookup_delete_eq|by rewrite lookup_delete_ne].
  - unfold cached_evict. destruct (r_cache r' !! i) as [e|] eqn:Hl; [|done].
    destruct (expired_at now e) eqn:He; [|done]. cbn [set_cache r_cache].
    destruct (decide (i = id)) as [->|]; [|by rewrite lookup_delete_ne].
    right. rewrite lookup_delete_eq. split; [done|]. exists e.
    destruct IH as [IH|[? _]]; [|congruence]. split; [congruence|]. by eapply expired_mono.
  - left. by rewrite lookup_fmap.
Qed.

(** ** Properties *)

(** The trial limiter bounds the rate of credential trials. Whatever the
    callers do, the number [a] of attempts that the bucket grants up to the time
    [tmax] exceeds the burst [r] by at most [r] per second since the start, up to
    the truncation of the refill interval: [(a - r) * (Second - r)] is at most
    [r * (tmax - t0) + Second].  [r] is the configured rate, kept between one and a
    million; the horizon is short enough that the refill product fits in an
    [int64]. *)
Theorem trial_rate_bound `{TrialFloat} rate t0 tmax nows :
  let r := b_rate (newTokenBucket rate t0) in
  let a := (run_attempts nows (newTokenBucket rate t0)).2 in
  t0 ≤ tmax → (tmax - t0) * r + Second ≤ MaxInt → Forall (λ now, now ≤ tmax) nows →
  1 ≤ r ≤ 1000000 ∧ (1 ≤ rate ≤ 1000000 → r = rate) ∧
  (a - r) * (Second - r) ≤ r * (tmax - t0) + Second.
Proof.
  intros r a Ht Hof Hall.
  destruct (newTokenBucket_rate rate t0) as [Hr Heq].
  split; [done|]. split; [done|].
  destruct (attempts_inv t0 tmax (newTokenBucket rate t0) 0 0 nows) as (S & [_ Htok _ [HS0 HS] Hsp Hnow] & Hrr);
    [|done..|].
  - assert (b_tokens (newTokenBucket rate t0) = r) as Htk by done.
    assert (b_lastRefill (newTokenBucket rate t0) = t0) as Hlr by done.
    assert (Second = 1000000000) by done. split; rewrite ?Htk, ?Hlr; fold r; try nia.
  - fold a in Hsp. fold r in Hrr. rewrite Hrr in *. assert (Second = 1000000000) by done. nia.
Qed.

(** With a rate of 2 per second, of ten attempts in the first second three at most
    pass. *)
Lemma trial_rate_bound_witness :
  let nows := (λ k, k * 100000000) <$> [0; 1; 2; 3; 4; 5; 6; 7; 8; 9] in
  Forall (λ now, now ≤ Second) nows ∧
  (@run_attempts exact_float nows (newTokenBucket 2 0)).2 = 3 ∧
  (3 - 2) * (Second - 2) ≤ 2 * (Second - 0) + Second.
Proof.
  intros nows. assert (Forall (λ now, now ≤ Second) nows) as Hall.
  { apply (bool_decide_unpack _); vm_compute; exact I. }
  split; [exact Hall|]. split; [vm_compute; reflexivity|].
  exact (proj2 (proj2 (@trial_rate_bound exact_float 2 0 Second nows ltac:(done) ltac:(done) Hall))).
Defined.

(** The order of credential resolution. A resolver built from a configuration
    answers for an address with the last assignment of exactly that address; else
    with an assignment whose network contains the address and has the longest
    prefix of all that do; else, when no network contains it, with the fallback
    order. *)
Theorem resolve_order `{NetText} c now r ip :
  New c now = inr r →
  match last (filter (names_ip (IP_String ip)) (Assignments c)) with
  | Some a => Resolve r ip = a_Profiles a
  | None =>
      (∃ a n, a ∈ Assignments c ∧ assigned_net a n ∧ Contains n ip = true ∧
         Resolve r ip = a_Profiles a ∧
         ∀ a' n', a' ∈ Assignments c → assigned_net a' n' → Contains n' ip = true →
           (mask_Size (n_Mask n')).1 ≤ (mask_Size (n_Mask n)).1) ∨
      (∀ a n, a ∈ Assignments c → assigned_net a n → Contains n ip = false) ∧
      Resolve r ip = FallbackOrder c
  end.
Proof.
  intros Hnew. pose proof (New_cidrs _ _ _ ip Hnew) as Hc. unfold Resolve, New in *.
  destruct (assign (Assignments c) ∅ []) as [|[ex cs]] eqn:Has; [done|].
  injection Hnew as <-. cbn [r_exact r_cidrs r_fallback] in *.
  rewrite (assign_exact _ _ _ _ _ (IP_String ip) Has), lookup_empty.
  destruct (last _); [done|]. destruct (find_first _ _) as [x|]; [left|by right].
  destruct Hc as (a & n & ? & ? & ? & -> & ?). by exists a, n.
Qed.

(** The credential cache and its time to live. Take any interleaving of
    recorded successes, recorded failures, snapshot loads and evictions of expired
    entries. A lookup at a time not before those evictions returns the profile of
    the last outcome recorded for the device when that is a success (or a loaded
    entry) at most two hours old, and nothing otherwise: evictions are never
    visible, and an expired or failed profile is never reused. *)
Theorem cached_profile_ttl r ops id now :
  r_cache r = ∅ → Forall (evict_before now) ops →
  (cached_read id now (fold_left cache_step ops r)).1 =
    match recorded id ops with
    | Some e => if time_Sub now (ce_cachedAt e) <=? cacheTTL then Some (ce_profile e) else None
    | None => None
    end.
Proof.
  intros H0 Hall. unfold cached_read.
  assert (∀ e, (time_Sub now (ce_cachedAt e) <=? cacheTTL) = negb (expired_at now e)) as Hneg.
  { intros e. unfold expired_at. by rewrite Z.leb_antisym. }
  destruct (cache_agrees r ops now id H0 Hall) as [->|(-> & e & -> & He)].
  - destruct (recorded id ops) as [e|]; [|done]. rewrite Hneg. by destruct (expired_at now e).
  - by rewrite Hneg, He.
Qed.

(** Two networks and their text, to evaluate the resolver with. *)
Definition sample_net : NetText := {|
  ParseIP s := if bool_decide (s = "10.0.0.1") then Some [10; 0; 0; 1] else None;
  IP_String ip := if bool_decide (ip = [10; 0; 0; 1]) then "10.0.0.1" else "other";
  ParseCIDR s :=
    if bool_decide (s = "10.0.0.0/8") then Some (mkIPNet [10; 0; 0; 0] [255; 0; 0; 0])
    else if bool_decide (s = "10.1.0.0/16") then Some (mkIPNet [10; 1; 0; 0] [255; 255; 0; 0])
    else None;
  ParseMAC _ := None;
  HardwareAddr_String s := s
|}.

Definition sample_credentials : CredentialsConfig :=
  mkCredentialsConfig [mkProfile "a" "snmp_v2c" "E" "" "" "" "" "" 1 ""]
    [mkAssignment "" "10.0.0.0/8" ["wide"]; mkAssignment "" "10.1.0.0/16" ["narrow"];
     mkAssignment "10.0.0.1" "" ["exact"]] ["fallback"] 5.

Definition sample_resolver : Resolver :=
  match @New sample_net sample_credentials 0 with
  | inr r => r
  | inl _ => mkResolver ∅ ∅ [] [] (newTokenBucket 1 0) ∅
  end.

(** The narrow network wins over the wide one, and the exact address over both. *)
Lemma resolve_order_witness :
  @New sample_net sample_credentials 0 = inr sample_resolver ∧
  @Resolve sample_net sample_resolver [10; 0; 0; 1] = ["exact"] ∧
  @Resolve sample_net sample_resolver [10; 1; 0; 1] = ["narrow"] ∧
  @Resolve sample_net sample_resolver [11; 1; 0; 1] = ["fallback"].
Proof.
  assert (@New sample_net sample_credentials 0 = inr sample_resolver) as H by (vm_compute; reflexivity).
  split; [exact H|]. split; [exact (@resolve_order sample_net _ _ _ [10; 0; 0; 1] H)|].
  split; vm_compute; reflexivity.
Defined.

(** A success two hours and a nanosecond old is gone, evicted or not. *)
Lemma cached_profile_ttl_witness :
  let ops := [OpSuccess "d" "p" 0; OpEvict "d" (cacheTTL + 1)] in
  Forall (evict_before (cacheTTL + 1)) ops ∧
  (cached_read "d" (cacheTTL + 1) (fold_left cache_step ops sample_resolver)).1 = None ∧
  (cached_read "d" cacheTTL (fold_left cache_step (take 1 ops) sample_resolver)).1 = Some "p".
Proof.
  intros ops. assert (r_cache sample_resolver = ∅) as H0 by (vm_compute; reflexivity).
  assert (Forall (evict_before (cacheTTL + 1)) ops) as Hall
    by (constructor; [exact I|constructor; [apply Z.le_refl|constructor]]).
  split; [exact Hall|]. split.
  - rewrite (cached_profile_ttl sample_resolver ops "d" (cacheTTL + 1) H0 Hall). vm_compute. reflexivity.
  - rewrite (cached_profile_ttl sample_resolver (take 1 ops) "d" cacheTTL H0); [vm_compute; reflexivity|].
    constructor; [exact I|constructor].
Defined.
