(* ===== verification/LogLimit.v ===== *)
(** * internal/loglimit

    The suppressor of repeated warnings: one last-emission time per key, a
    cooldown, and the eviction of the oldest entry when the table is full.  The
    wrapped logger is not part of the model; a call answers whether it emits. *)

From Stdlib Require Import ZArith Lia.
From S2P Require Import Prelude GoText Discovery.
Open Scope Z_scope.

Definition DefaultCooldown : duration := Hour.
Definition DefaultMaxKeys : Z := 4096.

(** An entry holds only its last-emission time. *)
Record Limiter := mkLimiter {
  l_cooldown : duration;
  l_maxKeys : Z;
  l_seen : gmap string time
}.

Definition NewWithClock (cooldown : duration) : Limiter :=
  mkLimiter (if cooldown <=? 0 then DefaultCooldown else cooldown) DefaultMaxKeys ∅.

Definition set_seen (l : Limiter) (m : gmap string time) : Limiter :=
  mkLimiter (l_cooldown l) (l_maxKeys l) m.

Definition Len (l : option Limiter) : Z :=
  match l with None => 0 | Some l => Z.of_nat (size (l_seen l)) end.

Section Limit.
Context `{R : MapRange}.

(** The loop of [evictOldestLocked]: no candidate yet, or the oldest so far. *)
Definition oldest_step (o : option (string * time)) (kv : string * time) : option (string * time) :=
  match o with
  | None => Some kv
  | Some (_, t) => if kv.2 <? t then Some kv else o
  end.

Definition oldest (m : gmap string time) : option (string * time) :=
  fold_left oldest_step (range_map 0 m) None.

Definition evictOldestLocked (m : gmap string time) : gmap string time :=
  match oldest m with
  | None => m
  | Some (k, _) => delete k m
  end.

Definition warnEvery (key : string) (cooldown : duration) (now : time) (l : Limiter) : Limiter * bool :=
  match l_seen l !! key with
  | Some lastEmit =>
      if cooldown <=? time_Sub now lastEmit then (set_seen l (<[key := now]> (l_seen l)), true)
      else (l, false)
  | None =>
      let m := if l_maxKeys l <=? Z.of_nat (size (l_seen l)) then evictOldestLocked (l_seen l)
               else l_seen l in
      (set_seen l (<[key := now]> m), true)
  end.

(** A nil limiter passes everything through. *)
Definition Warn (key : string) (now : time) (l : option Limiter) : option Limiter * bool :=
  match l with
  | None => (None, true)
  | Some l => let '(l', ok) := warnEvery key (l_cooldown l) now l in (Some l', ok)
  end.

Definition WarnEvery (key : string) (cooldown : duration) (now : time) (l : option Limiter) :
    option Limiter * bool :=
  match l with
  | None => (None, true)
  | Some l =>
      let cooldown := if cooldown <=? 0 then l_cooldown l else cooldown in
      let '(l', ok) := warnEvery key cooldown now l in (Some l', ok)
  end.

(** ** Calls in the order of the lock, with the log of what was emitted *)

(** A call of [Warn] carries no cooldown of its own. *)
Record call := mkCall { c_key : string; c_cooldown : option duration; c_now : time }.

Definition do_call (c : call) (l : Limiter) : option Limiter * bool :=
  match c_cooldown c with
  | None => Warn (c_key c) (c_now c) (Some l)
  | Some d => WarnEvery (c_key c) d (c_now c) (Some l)
  end.

Definition window (c : call) (l : Limiter) : duration :=
  match c_cooldown c with
  | Some d => if d <=? 0 then l_cooldown l else d
  | None => l_cooldown l
  end.

Lemma do_call_eq c l :
  do_call c l = (Some (warnEvery (c_key c) (window c l) (c_now c) l).1,
                 (warnEvery (c_key c) (window c l) (c_now c) l).2).
Proof.
  unfold do_call, window, Warn, WarnEvery. destruct (c_cooldown c) as [d|]; cbv zeta;
    by destruct (warnEvery _ _ _ _).
Qed.

(** The newest emission is the head of the log. *)
Definition call_step (s : Limiter * list (string * time)) (c : call) : Limiter * list (string * time) :=
  let '(l', ok) := do_call c s.1 in
  (default s.1 l', if ok then (c_key c, c_now c) :: s.2 else s.2).

Definition run_calls (calls : list call) (l : Limiter) : Limiter * list (string * time) :=
  fold_left call_step calls (l, []).

Definition last_emit (key : string) (log : list (string * time)) : option time :=
  snd <$> find_first (λ e, bool_decide (e.1 = key)) log.

(** At least [n] other keys were emitted at [t] or later. *)
Definition crowded (n : Z) (key : string) (t : time) (log : list (string * time)) : Prop :=
  ∃ ks : gset string, Z.of_nat (size ks) = n ∧ key ∉ ks ∧
    ∀ k, k ∈ ks → ∃ t', (k, t') ∈ log ∧ t ≤ t'.

Fixpoint monotone (calls : list call) : Prop :=
  match calls with
  | [] => True
  | c :: calls' => Forall (λ c', c_now c ≤ c_now c') calls' ∧ monotone calls'
  end.

(** *** Lemmas *)

(** The candidate of the loop is an oldest of the entries visited. *)
Definition oldest_of (pre : list (string * time)) (o : option (string * time)) : Prop :=
  match o with
  | None => pre = []
  | Some kt => kt ∈ pre ∧ ∀ kt', kt' ∈ pre → kt.2 ≤ kt'.2
  end.

Lemma oldest_step_inv pre kv o : oldest_of pre o → oldest_of (pre ++ [kv]) (oldest_step o kv).
Proof.
  destruct o as [[k t]|]; cbn.
  - intros [Hb Hle]. destruct (kv.2 <? t) eqn:E; bprop;
      (split; [set_solver|]); intros x [Hx| ->%list_elem_of_singleton]%elem_of_app;
      try specialize (Hle x Hx); simpl in *; lia.
  - intros ->. split; [set_solver|]. by intros x ->%list_elem_of_singleton.
Qed.

Lemma oldest_spec m :
  match oldest m with
  | None => m = ∅
  | Some (k, t) => m !! k = Some t ∧ ∀ k' t', m !! k' = Some t' → t ≤ t'
  end.
Proof.
  pose proof (fold_left_prefix_inv oldest_of oldest_step (range_map 0 m) None eq_refl
    oldest_step_inv) as H. unfold oldest. destruct (fold_left _ _ _) as [[k t]|]; cbn in H.
  - destruct H as [Hkt Hmin]. split; [by apply (elem_of_range 0)|].
    intros k' t' Hk'. apply (Hmin (k', t')). by apply elem_of_range.
  - apply map_empty. intros k. destruct (m !! k) as [t|] eqn:Hk; [|done].
    apply (elem_of_range 0) in Hk. rewrite H in Hk. set_solver.
Qed.

(** The table against the log: entries are last emissions, and a key is missing
    only when it was never emitted or the table overflowed since. *)
Record limiter_inv (l : Limiter) (log : list (string * time)) : Prop := {
  li_size : Z.of_nat (size (l_seen l)) ≤ l_maxKeys l;
  li_entry : ∀ k t, l_seen l !! k = Some t → last_emit k log = Some t;
  li_missing : ∀ k t, last_emit k log = Some t → l_seen l !! k = None →
    crowded (l_maxKeys l) k t log
}.

Lemma last_emit_cons k e log :
  last_emit k (e :: log) = if bool_decide (e.1 = k) then Some e.2 else last_emit k log.
Proof. unfold last_emit. simpl. by case_bool_decide. Qed.

Lemma last_emit_elem k t log : last_emit k log = Some t → (k, t) ∈ log.
Proof.
  induction log as [|[k' t'] log IH]; [done|]. rewrite last_emit_cons. cbn.
  case_bool_decide; [intros [= ->]; subst; constructor|]. intros ?. constructor. auto.
Qed.

Lemma crowded_cons n k t e log : crowded n k t log → crowded n k t (e :: log).
Proof.
  intros (ks & Hs & Hk & Hall). exists ks. split; [done|]. split; [done|].
  intros k' (t' & ? & ?)%Hall. exists t'. split; [by constructor|done].
Qed.

(** An entry written over a present key, or into a table that is not full. *)
Lemma emit_inv l log key now :
  limiter_inv l log → l_seen l !! key ≠ None ∨ Z.of_nat (size (l_seen l)) < l_maxKeys l →
  limiter_inv (set_seen l (<[key := now]> (l_seen l))) ((key, now) :: log).
Proof.
  intros [Hsz He Hm] Hfit. split; cbn [set_seen l_seen l_maxKeys].
  - rewrite map_size_insert. destruct (l_seen l !! key); cbn; [done|]. destruct Hfit; [done|lia].
  - intros k t. rewrite last_emit_cons. cbn [fst snd]. case_bool_decide as Hk; subst.
    + rewrite lookup_insert_eq. by intros [= ->].
    + rewrite lookup_insert_ne by done. apply He.
  - intros k t. rewrite last_emit_cons. cbn [fst snd]. case_bool_decide as Hk; subst.
    + by rewrite lookup_insert_eq.
    + rewrite lookup_insert_ne by done. intros. apply crowded_cons; auto.
Qed.

(** Evicting from a full table to make room for a new key. *)
Lemma evict_inv l log key now :
  limiter_inv l log → 1 ≤ l_maxKeys l → l_seen l !! key = None →
  l_maxKeys l ≤ Z.of_nat (size (l_seen l)) → Forall (λ e, e.2 ≤ now) log →
  limiter_inv (set_seen l (<[key := now]> (evictOldestLocked (l_seen l)))) ((key, now) :: log).
Proof.
  intros [Hsz He Hm] Hmax Hnew Hfull Hnow. unfold evictOldestLocked.
  pose proof (oldest_spec (l_seen l)) as Ho. destruct (oldest (l_seen l)) as [[ko to]|];
    [|rewrite Ho, map_size_empty in Hfull; lia]. destruct Ho as [Hko Hmin].
  assert (key ≠ ko) as Hne by congruence.
  assert (Z.of_nat (size (delete ko (l_seen l))) = l_maxKeys l - 1) as Hds.
  { rewrite map_size_delete, Hko. destruct (size (l_seen l)) eqn:E; [|lia]. lia. }
  split; cbn [set_seen l_seen l_maxKeys].
  - rewrite map_size_insert_None by (rewrite lookup_delete_ne; auto). lia.
  - intros k t. rewrite last_emit_cons. cbn [fst snd]. case_bool_decide as Hk; subst.
    + rewrite lookup_insert_eq. by intros [= ->].
    + rewrite lookup_insert_ne by done. intros [_ ?]%lookup_delete_Some. auto.
  - intros k t. rewrite last_emit_cons. cbn [fst snd]. case_bool_decide as Hk; subst.
    + by rewrite lookup_insert_eq.
    + rewrite lookup_insert_ne by done. intros Hl.
      destruct (decide (k = ko)) as [->|Hk'];
        [intros _|rewrite lookup_delete_ne by done; intros ?; apply crowded_cons; auto].
      rewrite (He _ _ Hko) in Hl. injection Hl as <-.
      assert (key ∉ dom (delete ko (l_seen l))).
      { rewrite not_elem_of_dom, lookup_delete_ne; done. }
      exists ({[key]} ∪ dom (delete ko (l_seen l))). split; [|split].
      * rewrite size_union, size_singleton, size_dom by set_solver. lia.
      * set_solver.
      * intros k [->%elem_of_singleton|Hd]%elem_of_union.
        { exists now. split; [constructor|]. rewrite Forall_forall in Hnow.
          apply (Hnow (ko, to)), last_emit_elem, He, Hko. }
        apply elem_of_dom in Hd as [t' [_ Ht']%lookup_delete_Some].
        exists t'. split; [|by eapply Hmin]. constructor. by apply last_emit_elem, He.
Qed.

Lemma monotone_snoc calls c :
  monotone (calls ++ [c]) → monotone calls ∧ Forall (λ c', c_now c' ≤ c_now c) calls.
Proof.
  induction calls as [|c' calls IH]; [done|]. intros [[H [Hc _]%Forall_cons]%Forall_app [? ?]%IH].
  split; [split|]; auto.
Qed.

Lemma warnEvery_maxKeys key d now l : l_maxKeys (warnEvery key d now l).1 = l_maxKeys l.
Proof. unfold warnEvery. destruct (l_seen l !! key); [destruct (_ <=? _)|]; done. Qed.

Lemma warnEvery_inv l log key d now :
  limiter_inv l log → 1 ≤ l_maxKeys l → Forall (λ e, e.2 ≤ now) log →
  limiter_inv (warnEvery key d now l).1
    (if (warnEvery key d now l).2 then (key, now) :: log else log).
Proof.
  intros Hl Hmax Hnow. unfold warnEvery. destruct (l_seen l !! key) as [t|] eqn:Hk.
  - destruct (_ <=? _); [|done]. apply emit_inv; [done|left; congruence].
  - cbv zeta. destruct (_ <=? _) eqn:E; bprop; [by apply evict_inv|apply emit_inv; auto].
Qed.

Lemma run_calls_inv calls l :
  monotone calls → 1 ≤ l_maxKeys l → l_seen l = ∅ →
  limiter_inv (run_calls calls l).1 (run_calls calls l).2 ∧
  l_maxKeys (run_calls calls l).1 = l_maxKeys l ∧
  ∀ t, Forall (λ c, c_now c ≤ t) calls → Forall (λ e, e.2 ≤ t) (run_calls calls l).2.
Proof.
  intros Hmono Hmax H0. unfold run_calls. induction calls as [|c calls IH] using rev_ind.
  { cbn. split; [|auto]. split; rewrite ?H0, ?map_size_empty; [lia|done|done]. }
  rewrite fold_left_app. cbn [fold_left]. destruct IH as (IH1 & IH2 & IH3).
  { by apply monotone_snoc in Hmono as [? _]. }
  set (s := fold_left call_step calls (l, [])) in *. unfold call_step. rewrite do_call_eq. cbn.
  assert (Forall (λ c', c_now c' ≤ c_now c) calls) as Hle.
  { by apply monotone_snoc in Hmono as [_ ?]. }
  split; [apply warnEvery_inv; [done|lia|auto]|]. rewrite warnEvery_maxKeys. split; [done|].
  intros t [Ht [Hc _]%Forall_cons]%Forall_app. destruct (warnEvery _ _ _ _).2; auto.
Qed.
End Limit.

(** ** Properties *)

(** The contract of the log limiter. After any calls, in an order whose clock
    readings do not decrease, consider one more call and the log of what was
    emitted. The first occurrence of a key is emitted, and so is one whose cooldown
    has elapsed since the last emission of the key; within the cooldown it is
    suppressed, unless the table overflowed: then at least [maxKeys] (4096) other
    keys were emitted since. The table never holds more than [maxKeys] keys. *)
Theorem loglimit_contract `{MapRange} cooldown calls c :
  monotone (calls ++ [c]) →
  let l := (run_calls calls (NewWithClock cooldown)).1 in
  let log := (run_calls calls (NewWithClock cooldown)).2 in
  let emitted := (do_call c l).2 in
  Len (Some l) ≤ DefaultMaxKeys ∧
  match last_emit (c_key c) log with
  | None => emitted = true
  | Some t =>
      (window c l ≤ time_Sub (c_now c) t → emitted = true) ∧
      (time_Sub (c_now c) t < window c l →
       emitted = false ∨ crowded DefaultMaxKeys (c_key c) t log)
  end.
Proof.
  intros Hmono l log emitted.
  destruct (run_calls_inv calls (NewWithClock cooldown)) as ([Hsz He Hm] & Hmax & _); [|done|done|].
  { by apply monotone_snoc in Hmono as [? _]. }
  fold l in Hsz, He, Hm, Hmax. fold log in He, Hm. rewrite Hmax in *.
  split; [done|]. unfold emitted. rewrite do_call_eq. cbn [snd]. unfold warnEvery.
  destruct (l_seen l !! c_key c) as [t|] eqn:Hk.
  - rewrite (He _ _ Hk). destruct (_ <=? _) eqn:E; bprop; cbn; split; auto; lia.
  - destruct (last_emit (c_key c) log) as [t|] eqn:Ht; [|done]. cbn. eauto.
Qed.

(** A second warning of a key within the hour is suppressed, one an hour later is
    emitted. *)
Lemma loglimit_contract_witness :
  let c := mkCall "k" None in
  let l := (run_calls (R := range_std) [c 0] (NewWithClock 0)).1 in
  monotone ([c 0] ++ [c Hour]) ∧
  (do_call (R := range_std) (c (Hour - 1)) l).2 = false ∧
  (do_call (R := range_std) (c Hour) l).2 = true.
Proof.
  intros c l. assert (monotone ([c 0] ++ [c Hour])) as Hm.
  { split; [constructor; [vm_compute; discriminate|constructor]|split; [constructor|exact I]]. }
  split; [exact Hm|]. split; [vm_compute; reflexivity|].
  exact (proj1 (proj2 (@loglimit_contract range_std 0 [c 0] (c Hour) Hm)) ltac:(vm_compute; discriminate)).
Defined.
