(* ===== verification/Synthesize.v ===== *)
(** * internal/app/helpers.go

    What a cycle does with the raw observations before the reconciliation: the
    deduplication of devices and out-of-scope neighbours, the degraded reasons, and
    [SynthesizeEdges], which resolves addresses and MACs to device names. *)

From Stdlib Require Import ZArith Lia Ascii.
From S2P Require Import Prelude GoText Discovery Pdu.
Open Scope Z_scope.

(** ** Deduplication *)

Definition oosKey (n : OutOfScopeNeighbour) : string * string * string :=
  (ReportingDevice n, ReportingPort n, NeighbourHint n).

Definition DeduplicateOOS (oos : list OutOfScopeNeighbour) : list OutOfScopeNeighbour :=
  dedup_by oosKey oos.

Definition DeduplicateDevices (devices : list Device) : list Device := dedup_by ID devices.

Definition set_FirstSeen (n : OutOfScopeNeighbour) (t : time) : OutOfScopeNeighbour :=
  mkOOS (ReportingDevice n) (ReportingPort n) (NeighbourHint n) (Proto n) t (LastSeen n).

Definition MergeOOSFirstSeen (newOOS prevOOS : list OutOfScopeNeighbour) : list OutOfScopeNeighbour :=
  let prevFirstSeen := fold_left (λ m n, <[oosKey n := FirstSeen n]> m) prevOOS ∅ in
  (λ n, match (prevFirstSeen : gmap _ time) !! oosKey n with
        | Some t => set_FirstSeen n t
        | None => n
        end) <$> newOOS.

(** ** Degraded reasons *)

Definition edge_reasons (e : Edge) : list string :=
  if bool_decide (Metadata e !! MetadataKeyDegraded = Some "true") then
    (λ r, let r := TrimSpace r in if bool_decide (r = "") then "unknown" else r)
      <$> strings_Split ","%char (default "" (Metadata e !! MetadataKeyDegradedReason))
  else [].

Section Synthesize.
Context `{R : MapRange} `{N : NetText}.

Definition CollectDegradedReasons (edges : list Edge) : list string :=
  let unique : gmap string bool :=
    fold_left (λ m r, <[r := true]> m) (edges ≫= edge_reasons) ∅ in
  (range_map 0 unique).*1.

(** ** Endpoint resolution *)

Definition canonical_mac (s : string) : option string := HardwareAddr_String <$> ParseMAC s.

Definition is_ip (s : string) : bool := bool_decide (is_Some (ParseIP s)).
Definition is_mac (s : string) : bool := bool_decide (is_Some (ParseMAC s)).

(** What an LLDP observation says about a chassis MAC. *)
Definition lldp_identity (e : Edge) : option (string * string) :=
  if bool_decide (DiscoveryProto e = DiscoveryProtocolLLDP) && bool_decide (DstDevice e ≠ "") then
    match Metadata e !! MetadataKeyPeerChassisMac with
    | Some mac =>
        match canonical_mac mac with
        | Some hw => if is_ip (DstDevice e) || is_mac (DstDevice e) then None
                     else Some (hw, DstDevice e)
        | None => None
        end
    | None => None
    end
  else None.

(** The first device that claims a key keeps it. *)
Definition keep_first (m : gmap string string) (kv : string * string) : gmap string string :=
  match m !! kv.1 with
  | Some _ => m
  | None => <[kv.1 := kv.2]> m
  end.

Definition lldp_macs (rawEdges : list Edge) : gmap string string :=
  fold_left keep_first (omap lldp_identity rawEdges) ∅.

Definition arp_step (ipToID : gmap string string) (m : gmap string string) (kv : string * string)
  : gmap string string :=
  match canonical_mac kv.1 with
  | None => m
  | Some hw =>
      match m !! hw, ipToID !! kv.2 with
      | None, Some id => <[hw := id]> m
      | _, _ => m
      end
  end.

Definition macToID (rawEdges : list Edge) (ipToID arpMACToIP : gmap string string) : gmap string string :=
  fold_left (arp_step ipToID) (range_map 1 arpMACToIP) (lldp_macs rawEdges).

(** One edge of [ResolveEdgeDstDevices]; [None] when it is suppressed. *)
Definition resolve_edge (ipToID macs : gmap string string) (e : Edge) : option Edge :=
  if is_ip (DstDevice e) then
    Some (match ipToID !! DstDevice e with Some id => set_DstDevice e id | None => e end)
  else
    match canonical_mac (DstDevice e) with
    | Some hw =>
        match macs !! hw with
        | Some id => Some (set_DstDevice e id)
        | None => if bool_decide (DiscoveryProto e ≠ DiscoveryProtocolFDB) then Some e else None
        end
    | None => Some e
    end.

(** The result and the increments of the suppression counter. *)
Definition ResolveEdgeDstDevices (edges : list Edge) (ipToID macs : gmap string string) : list Edge * Z :=
  fold_left (λ '(res, n) e,
    match resolve_edge ipToID macs e with
    | Some e' => (res ++ [e'], n)
    | None => (res, n + 1)
    end) edges ([], 0).

Definition epKey (e : Edge) : string * string * string := (SrcDevice e, SrcPort e, DstDevice e).

Definition lldp_ports (edges : list Edge) : gmap (string * string * string) string :=
  fold_left (λ m e,
    if bool_decide (DiscoveryProto e = DiscoveryProtocolLLDP) && bool_decide (DstPort e ≠ "")
    then <[epKey e := DstPort e]> m else m) edges ∅.

Definition backfill (ports : gmap (string * string * string) string) (e : Edge) : Edge :=
  if bool_decide (DiscoveryProto e = DiscoveryProtocolFDB) && bool_decide (DstPort e = "") then
    match ports !! epKey e with Some p => set_DstPort e p | None => e end
  else e.

Definition SynthesizeEdges (rawEdges : list Edge) (ipToID arpMACToIP : gmap string string) : list Edge * Z :=
  let '(edges, n) := ResolveEdgeDstDevices rawEdges ipToID (macToID rawEdges ipToID arpMACToIP) in
  (backfill (lldp_ports edges) <$> edges, n).

(** ** Lemmas *)

Lemma ResolveEdgeDstDevices_eq edges ipToID macs :
  ResolveEdgeDstDevices edges ipToID macs =
    (omap (resolve_edge ipToID macs) edges,
     Z.of_nat (length edges) - Z.of_nat (length (omap (resolve_edge ipToID macs) edges))).
Proof.
  unfold ResolveEdgeDstDevices.
  apply (fold_left_prefix_inv (λ pre r, r = (omap (resolve_edge ipToID macs) pre,
     Z.of_nat (length pre) - Z.of_nat (length (omap (resolve_edge ipToID macs) pre))))); [done|].
  intros pre e _ ->. rewrite omap_app, !length_app. cbn.
  destruct (resolve_edge ipToID macs e) as [e'|]; cbn; rewrite ?app_nil_r; f_equal; lia.
Qed.

Lemma keep_first_lookup l m k :
  fold_left keep_first l m !! k =
    match m !! k with
    | Some v => Some v
    | None => snd <$> find_first (λ kv, bool_decide (kv.1 = k)) l
    end.
Proof.
  revert m. induction l as [|[k' v] l IH]; intros m; cbn; [by destruct (m !! k)|].
  rewrite IH. unfold keep_first. cbn. case_bool_decide as Hk; [subst|].
  - destruct (m !! k) as [v'|] eqn:Hm; [by rewrite Hm|by rewrite lookup_insert_eq].
  - destruct (m !! k') as [v'|] eqn:Hm; [done|by rewrite lookup_insert_ne].
Qed.

Lemma arp_step_keeps ipToID m kv k v : m !! k = Some v → arp_step ipToID m kv !! k = Some v.
Proof.
  intros Hk. unfold arp_step. destruct (canonical_mac kv.1) as [hw|]; [|done].
  destruct (m !! hw) eqn:Hm; [done|]. destruct (ipToID !! kv.2); [|done].
  rewrite lookup_insert_ne; [done|]. congruence.
Qed.

(** What the ARP loop adds: the device of some entry with that MAC. *)
Lemma arp_loop_lookup ipToID l m k :
  match m !! k with
  | Some v => fold_left (arp_step ipToID) l m !! k = Some v
  | None =>
      match fold_left (arp_step ipToID) l m !! k with
      | Some id => ∃ mac ip, (mac, ip) ∈ l ∧ canonical_mac mac = Some k ∧ ipToID !! ip = Some id
      | None => ∀ mac ip, (mac, ip) ∈ l → canonical_mac mac = Some k → ipToID !! ip = None
      end
  end.
Proof.
  revert m. induction l as [|[mac ip] l IH]; intros m; [cbn; by destruct (m !! k); [|set_solver]|].
  cbn [fold_left]. specialize (IH (arp_step ipToID m (mac, ip))).
  destruct (m !! k) as [v|] eqn:Hm; [by rewrite (arp_step_keeps _ _ _ _ _ Hm) in IH|].
  unfold arp_step in *. cbn [fst snd] in *.
  destruct (canonical_mac mac) as [hw|] eqn:Hc.
  2:{ rewrite Hm in IH. destruct (fold_left _ _ _ !! k); [destruct_ex|]; set_solver. }
  destruct (decide (hw = k)) as [->|Hne].
  - rewrite Hm in *. destruct (ipToID !! ip) as [id|] eqn:Hi.
    + rewrite lookup_insert_eq in IH. rewrite IH. exists mac, ip. set_solver.
    + rewrite Hm in IH. destruct (fold_left _ _ _ !! k); [destruct_ex|]; set_solver.
  - assert ((match m !! hw with Some _ => m | None =>
        match ipToID !! ip with Some id => <[hw := id]> m | None => m end end) !! k = None) as Hk.
    { destruct (m !! hw); [done|]. destruct (ipToID !! ip); [by rewrite lookup_insert_ne|done]. }
    destruct (m !! hw), (ipToID !! ip); rewrite Hk in IH;
      (destruct (fold_left _ _ _ !! k); [destruct_ex|]; set_solver).
Qed.

(** The name an endpoint is published under. *)
Definition endpoint_name (ipToID macs : gmap string string) (s : string) : string :=
  if is_ip s then default s (ipToID !! s)
  else match canonical_mac s with
       | Some hw => default s (macs !! hw)
       | None => s
       end.

(** An entry of a switch's forwarding table whose MAC no device claims. *)
Definition unresolved_host (macs : gmap string string) (e : Edge) : Prop :=
  DiscoveryProto e = DiscoveryProtocolFDB ∧ is_ip (DstDevice e) = false ∧
  match canonical_mac (DstDevice e) with Some hw => macs !! hw = None | None => False end.

#[global] Instance unresolved_host_dec macs e : Decision (unresolved_host macs e).
Proof. unfold unresolved_host. destruct (canonical_mac (DstDevice e)); apply _. Defined.

Lemma set_DstDevice_same e : set_DstDevice e (DstDevice e) = e.
Proof. by destruct e. Qed.

Lemma resolve_edge_eq ipToID macs e :
  resolve_edge ipToID macs e =
    if decide (unresolved_host macs e) then None
    else Some (set_DstDevice e (endpoint_name ipToID macs (DstDevice e))).
Proof.
  unfold resolve_edge, endpoint_name. destruct (decide (unresolved_host macs e)) as [Hu|Hu].
  - destruct Hu as (Hp & -> & Hm). destruct (canonical_mac (DstDevice e)) as [hw|]; [|done].
    rewrite Hm, bool_decide_eq_false_2 by naive_solver. done.
  - unfold unresolved_host in Hu. destruct (is_ip (DstDevice e)).
    { destruct (ipToID !! DstDevice e); [done|]. cbn. by rewrite set_DstDevice_same. }
    destruct (canonical_mac (DstDevice e)) as [hw|]; [|by rewrite set_DstDevice_same].
    destruct (macs !! hw); cbn; [done|]. rewrite set_DstDevice_same, bool_decide_eq_true_2; naive_solver.
Qed.

Lemma omap_resolve ipToID macs (l : list Edge) :
  omap (resolve_edge ipToID macs) l =
    (λ e, set_DstDevice e (endpoint_name ipToID macs (DstDevice e)))
      <$> filter (λ e, ¬ unresolved_host macs e) l.
Proof.
  induction l as [|e l IH]; [done|]. rewrite filter_cons. cbn [omap list_omap].
  fold (omap (resolve_edge ipToID macs) l). rewrite IH, resolve_edge_eq.
  destruct (decide (unresolved_host macs e)), (decide (¬ unresolved_host macs e)); tauto || done.
Qed.

(** A port of the index was reported by an LLDP edge with those endpoints. *)
Lemma lldp_ports_Some l k p :
  lldp_ports l !! k = Some p →
  ∃ e, e ∈ l ∧ DiscoveryProto e = DiscoveryProtocolLLDP ∧ epKey e = k ∧ DstPort e = p ∧ p ≠ "".
Proof.
  unfold lldp_ports. revert p.
  apply (fold_left_inv (λ m : gmap (string * string * string) string, ∀ p, m !! k = Some p →
    ∃ e, e ∈ l ∧ DiscoveryProto e = DiscoveryProtocolLLDP ∧ epKey e = k ∧ DstPort e = p ∧ p ≠ ""));
    [done|].
  intros m e He IH p. destruct (_ && _) eqn:Hb; [|apply IH]. bprop.
  destruct (decide (epKey e = k)) as [<-|]; [|rewrite lookup_insert_ne by done; apply IH].
  rewrite lookup_insert_eq. intros [= <-]. exists e. auto.
Qed.

(** The published form [e'] of the raw observation [e]. *)
Definition published_as (ipToID macs : gmap string string) (raw : list Edge) (e e' : Edge) : Prop :=
  ∃ p, e' = set_endpoints e (SrcDevice e) (SrcPort e) (endpoint_name ipToID macs (DstDevice e)) p ∧
    (p = DstPort e ∨
     p ≠ "" ∧ DiscoveryProto e = DiscoveryProtocolFDB ∧ DstPort e = "" ∧
     ∃ l, l ∈ raw ∧ DiscoveryProto l = DiscoveryProtocolLLDP ∧ DstPort l = p ∧
       SrcDevice l = SrcDevice e ∧ SrcPort l = SrcPort e ∧
       endpoint_name ipToID macs (DstDevice l) = endpoint_name ipToID macs (DstDevice e)).

Lemma backfill_published ipToID macs raw e :
  let res := omap (resolve_edge ipToID macs) raw in
  published_as ipToID macs raw e
    (backfill (lldp_ports res) (set_DstDevice e (endpoint_name ipToID macs (DstDevice e)))).
Proof.
  intros res. unfold published_as, backfill. destruct (_ && _) eqn:Hb;
    [|exists (DstPort e); split; [done|by left]]. bprop. cbn in *.
  destruct (lldp_ports res !! _) as [p|] eqn:Hp; [|exists (DstPort e); split; [done|by left]].
  exists p. split; [done|]. right. apply lldp_ports_Some in Hp as (l' & Hl & Hproto & Hk & Hport & Hne).
  unfold res in Hl. rewrite omap_resolve in Hl.
  apply list_elem_of_fmap in Hl as (l & -> & [_ Hl]%list_elem_of_filter).
  split_and!; [done..|]. exists l. unfold epKey in Hk. cbn in *. injection Hk as H1 H2 H3.
  split_and!; congruence || done.
Qed.
End Synthesize.

(** The result does not depend on the iteration order when no two ARP entries are
    spellings of one MAC. *)
Definition arp_unique `{NetText} (arp : gmap string string) : Prop :=
  ∀ m1 m2 ip1 ip2 hw, arp !! m1 = Some ip1 → arp !! m2 = Some ip2 →
    canonical_mac m1 = Some hw → canonical_mac m2 = Some hw → ip1 = ip2.

Lemma macToID_lookup `{R : MapRange} `{NetText} raw ipToID arp k :
  match snd <$> find_first (λ kv, bool_decide (kv.1 = k)) (omap lldp_identity raw) with
  | Some d => macToID raw ipToID arp !! k = Some d
  | None =>
      match macToID raw ipToID arp !! k with
      | Some id => ∃ mac ip, arp !! mac = Some ip ∧ canonical_mac mac = Some k ∧ ipToID !! ip = Some id
      | None => ∀ mac ip, arp !! mac = Some ip → canonical_mac mac = Some k → ipToID !! ip = None
      end
  end.
Proof.
  pose proof (arp_loop_lookup ipToID (range_map 1 arp) (lldp_macs raw) k) as Ha.
  unfold lldp_macs in Ha at 1. rewrite keep_first_lookup, lookup_empty in Ha. unfold macToID.
  destruct (snd <$> _); [done|]. destruct (fold_left _ _ _ !! k).
  - destruct Ha as (mac & ip & Hin%elem_of_range & ?). eauto.
  - intros mac ip Hin. eapply Ha, elem_of_range, Hin.
Qed.

Lemma macToID_range (R1 R2 : MapRange) `{NetText} raw ipToID arp :
  arp_unique arp → macToID (R := R1) raw ipToID arp = macToID (R := R2) raw ipToID arp.
Proof.
  intros Hu. apply map_eq. intros k.
  pose proof (macToID_lookup (R := R1) raw ipToID arp k) as H1.
  pose proof (macToID_lookup (R := R2) raw ipToID arp k) as H2.
  destruct (snd <$> _) as [d|]; [congruence|].
  destruct (macToID (R := R1) raw ipToID arp !! k) as [i1|],
    (macToID (R := R2) raw ipToID arp !! k) as [i2|]; try done.
  - destruct H1 as (m1 & p1 & ? & ? & Hi1), H2 as (m2 & p2 & ? & ? & Hi2).
    rewrite (Hu m1 m2 p1 p2 k) in Hi1 by done. congruence.
  - destruct H1 as (m1 & p1 & Ha & Hc & Hi1). rewrite (H2 _ _ Ha Hc) in Hi1. done.
  - destruct H2 as (m1 & p1 & Ha & Hc & Hi1). rewrite (H1 _ _ Ha Hc) in Hi1. done.
Qed.

Lemma SynthesizeEdges_range (R1 R2 : MapRange) `{NetText} raw ipToID arp :
  arp_unique arp → SynthesizeEdges (R := R1) raw ipToID arp = SynthesizeEdges (R := R2) raw ipToID arp.
Proof. intros Hu. unfold SynthesizeEdges. by rewrite (macToID_range R1 R2). Qed.

Lemma prev_first_seen prev k :
  fold_left (λ m n, <[oosKey n := FirstSeen n]> m) prev (∅ : gmap _ time) !! k =
    FirstSeen <$> last (filter (λ n, oosKey n = k) prev).
Proof.
  induction prev as [|n prev IH] using rev_ind; [done|].
  rewrite fold_left_app, filter_app, filter_cons. cbn [fold_left]. case_decide as Hk; subst.
  - rewrite lookup_insert_eq, filter_nil, last_snoc. done.
  - rewrite lookup_insert_ne by done. by rewrite filter_nil, app_nil_r.
Qed.

(** ** Properties *)

(** Endpoint resolution. Every raw observation is published, in order, with the
    name of its far end, except the forwarding-table entries whose MAC no device
    claims, which are counted. A MAC belongs to the first device that advertises it
    over LLDP; else to a device whose management address an ARP entry gives for it.
    Nothing else of an observation changes, but that a forwarding-table entry
    without a far port takes the port an LLDP observation of the same link
    reports. *)
Theorem synthesize_resolution `{R : MapRange} `{NetText} raw ipToID arp :
  let macs := macToID raw ipToID arp in
  let out := SynthesizeEdges raw ipToID arp in
  Forall2 (published_as ipToID macs raw) (filter (λ e, ¬ unresolved_host macs e) raw) out.1 ∧
  out.2 = Z.of_nat (length (filter (unresolved_host macs) raw)) ∧
  ∀ hw, match snd <$> find_first (λ kv, bool_decide (kv.1 = hw)) (omap lldp_identity raw) with
        | Some d => macs !! hw = Some d
        | None =>
            match macs !! hw with
            | Some id => ∃ mac ip, arp !! mac = Some ip ∧ canonical_mac mac = Some hw ∧
                                   ipToID !! ip = Some id
            | None => ∀ mac ip, arp !! mac = Some ip → canonical_mac mac = Some hw →
                                ipToID !! ip = None
            end
        end.
Proof.
  intros macs out. unfold out, SynthesizeEdges. rewrite ResolveEdgeDstDevices_eq. fold macs. cbn [fst snd].
  split; [|split; [|intros hw; apply macToID_lookup]].
  - rewrite (omap_resolve ipToID macs raw) at 2. rewrite <-list_fmap_compose.
    apply Forall2_fmap_r, Forall_Forall2_diag, Forall_forall. intros e _. apply backfill_published.
  - rewrite omap_resolve, length_fmap.
    assert (∀ l, length l = length (filter (unresolved_host macs) l) +
      length (filter (λ e, ¬ unresolved_host macs e) l))%nat as Hlen; [|specialize (Hlen raw); lia].
    induction l as [|e l IH]; [done|]. rewrite !filter_cons. repeat case_decide; cbn; tauto || lia.
Qed.

(** First sightings survive the cycles. The out-of-scope list of a cycle keeps
    its entries, their order and every field but the first sighting, and an entry
    the previous cycle published (under a key it holds once) keeps that first
    sighting; a new one keeps its own. *)
Theorem first_seen_kept newOOS prevOOS :
  NoDup (oosKey <$> prevOOS) →
  Forall2 (λ n n', ∃ t, n' = set_FirstSeen n t ∧
      (∀ o, o ∈ prevOOS → oosKey o = oosKey n → t = FirstSeen o) ∧
      ((∀ o, o ∈ prevOOS → oosKey o ≠ oosKey n) → t = FirstSeen n))
    newOOS (MergeOOSFirstSeen newOOS prevOOS).
Proof.
  intros Hnd. unfold MergeOOSFirstSeen. apply Forall2_fmap_r, Forall_Forall2_diag, Forall_forall.
  intros n _. unfold compose. cbv beta zeta. rewrite prev_first_seen. destruct (last _) as [o|] eqn:Hl; cbn.
  - apply last_Some_elem_of, list_elem_of_filter in Hl as [Hk Ho]. exists (FirstSeen o).
    split; [done|]. split; [|intros Hno; by destruct (Hno o)].
    intros o' Ho' Hk'. by rewrite (NoDup_fmap_elem oosKey prevOOS o o') by congruence.
  - exists (FirstSeen n). split; [by destruct n|]. split; [|done]. intros o Ho Hk.
    apply last_None in Hl. assert (o ∈ filter (λ o, oosKey o = oosKey n) prevOOS) as Hin
      by by apply list_elem_of_filter. rewrite Hl in Hin. set_solver.
Qed.

Definition oos_at (first : time) : OutOfScopeNeighbour := mkOOS "d" "p" "n" "lldp" first 9.

Lemma first_seen_kept_witness :
  NoDup (oosKey <$> [oos_at 3]) ∧ MergeOOSFirstSeen [oos_at 8] [oos_at 3] = [oos_at 3].
Proof.
  assert (NoDup (oosKey <$> [oos_at 3])) as Hnd by (apply (bool_decide_unpack _); vm_compute; exact I).
  split; [exact Hnd|].
  pose proof (first_seen_kept [oos_at 8] [oos_at 3] Hnd) as H.
  vm_compute. reflexivity.
Defined.
