(* ===== verification/Probe.v ===== *)
(** * internal/app/probe.go and internal/discovery/snmp/zeroize.go

    The credential candidates of a device, the trial of each, and the overwriting
    of secret bytes.  Secrets are Go byte slices shared between copies of a
    [Params]: the model keeps them in a heap of buffers and a slice is the number
    of its buffer, so that a [Zeroize] through one copy is seen through all. *)

From Stdlib Require Import ZArith Lia Ascii.
From S2P Require Import Prelude GoText Discovery Pdu Credentials.
Open Scope Z_scope.

(** ** Buffers *)

Abbreviation heap := (list (list Z)) (only parsing).

Definition string_bytes (s : string) : list Z := Z.of_N ∘ N_of_ascii <$> String.list_ascii_of_string s.

(** A fresh slice. *)
Definition alloc (b : list Z) (h : heap) : heap * nat := (h ++ [b], length h).

Definition zeros (b : list Z) : list Z := replicate (length b) 0.

Definition zeroBytes (p : option nat) (h : heap) : heap :=
  match p with
  | Some i => match h !! i with Some b => <[i := zeros b]> h | None => h end
  | None => h
  end.

Record Params := mkParams {
  prm_IP : list Z;
  Port : Z;
  Timeout : duration;
  Community : option nat;
  V3 : bool;
  Username : string;
  AuthProto : string;
  AuthKey : option nat;
  PrivProto : string;
  PrivKey : option nat;
  ContextName : string;
  Retries : Z
}.

Definition Zeroize (p : Params) (h : heap) : heap * Params :=
  (zeroBytes (PrivKey p) (zeroBytes (AuthKey p) (zeroBytes (Community p) h)),
   mkParams (prm_IP p) (Port p) (Timeout p) None (V3 p) (Username p) (AuthProto p) None (PrivProto p) None
     (ContextName p) (Retries p)).

(** ** Candidates *)

Definition ProfileTypeSNMPv2c : string := "snmp_v2c".
Definition ProfileTypeSNMPv3 : string := "snmp_v3".

Section Probe.
(** [os.Getenv]. *)
Context (Getenv : string → string).
Context `{N : NetText}.

(** The error is the message; the parameters built so far stay in the heap. *)
Definition ProfileToParams (ip : list Z) (port : Z) (timeout : duration) (p : CredentialProfile) (h : heap)
  : heap * (string + Params) :=
  if bool_decide (p_Type p = ProfileTypeSNMPv2c) then
    let community := Getenv (p_CommunityEnv p) in
    if bool_decide (community = "") then (h, inl "env is empty")
    else
      let '(h, c) := alloc (string_bytes community) h in
      (h, inr (mkParams ip port timeout (Some c) false "" "" None "" None (p_ContextName p) (p_Retries p)))
  else if bool_decide (p_Type p = ProfileTypeSNMPv3) then
    let username := Getenv (p_UsernameEnv p) in
    if bool_decide (username = "") then (h, inl "env is empty")
    else
      let authKey := Getenv (p_AuthKeyEnv p) in
      if bool_decide (p_AuthKeyEnv p ≠ "") && bool_decide (authKey = "")
      then (h, inl "env is empty or unset")
      else
        let '(h, a) := alloc (string_bytes authKey) h in
        let privKey := Getenv (p_PrivKeyEnv p) in
        if bool_decide (p_PrivKeyEnv p ≠ "") && bool_decide (privKey = "")
        then (h, inl "env is empty or unset")
        else
          let '(h, k) := alloc (string_bytes privKey) h in
          (h, inr (mkParams ip port timeout None true username (p_AuthProtocol p) (Some a)
                     (p_PrivProtocol p) (Some k) (p_ContextName p) (p_Retries p)))
  else (h, inl "unknown profile type").

Record CredentialCandidate := mkCandidate { cand_Params : Params; cand_Profile : string }.

Record probeConfig := mkProbeConfig {
  pc_Profiles : list CredentialProfile;
  pc_CommunityEnv : string;
  pc_TimeoutPerDevice : duration
}.

Definition effective_port (port : Z) : Z := let p := port mod 65536 in if p =? 0 then 161 else p.

(** One profile of the resolver's list. *)
Definition candidate_step (r : Resolver) (ip : list Z) (port : Z) (timeout : duration)
    (st : heap * gset string * list CredentialCandidate) (name : string)
  : heap * gset string * list CredentialCandidate :=
  let '(h, seen, cs) := st in
  if bool_decide (name ∈ seen) then st
  else match Profile r name with
       | None => st
       | Some p =>
           match ProfileToParams ip port timeout p h with
           | (h, inl _) => (h, seen, cs)
           | (h, inr params) => (h, {[name]} ∪ seen, cs ++ [mkCandidate params name])
           end
       end.

(** The clock readings are those of the cache lookup. *)
Definition CredentialCandidates (cfg : probeConfig) (r : Resolver) (ip : list Z) (tport : Z)
    (now1 now2 : time) (h : heap) : heap * Resolver * list CredentialCandidate :=
  let port := effective_port tport in
  let timeout := pc_TimeoutPerDevice cfg in
  let '(r, cached) := CachedProfile (IP_String ip) now1 now2 r in
  let st := match cached with
            | Some name => candidate_step r ip port timeout (h, ∅, []) name
            | None => (h, ∅, [])
            end in
  match pc_Profiles cfg with
  | [] =>
      let '(h, _, cs) := st in
      let community := Getenv (pc_CommunityEnv cfg) in
      if bool_decide (community = "") then (h, r, cs)
      else
        let '(h, c) := alloc (string_bytes community) h in
        (h, r, cs ++ [mkCandidate (mkParams ip port timeout (Some c) false "" "" None "" None "" 0) ""])
  | _ =>
      let '(h, _, cs) := fold_left (candidate_step r ip port timeout) (Resolve r ip) st in
      (h, r, cs)
  end.

(** ** Trials *)

(** What the surroundings do in one iteration: the limiter may fail (a cancelled
    context), the system walk answers, and the context may be done after it. *)
Inductive probe_err := DeadlineExceeded | Canceled | WalkError (msg : string) | NoCandidates.

Record trial := mkTrial {
  tr_acquire : option probe_err;
  tr_walk : probe_err + Device;
  tr_ctxErr : option probe_err
}.

Fixpoint zeroizeFrom (cs : list CredentialCandidate) (h : heap) : heap :=
  match cs with
  | [] => h
  | c :: cs' => zeroizeFrom cs' (Zeroize (cand_Params c) h).1
  end.

Record trials_out := mkTrials {
  to_heap : heap;
  to_result : probe_err + (Device * Params * string);
  to_record_failure : bool
}.

(** The loop over the candidates, from the [i]-th on. *)
Fixpoint try_candidates (env : nat → trial) (i : nat) (cs : list CredentialCandidate)
    (lastErr : probe_err) (allTimedOut : bool) (h : heap) : trials_out :=
  match cs with
  | [] => mkTrials h (inl lastErr) (negb allTimedOut)
  | c :: cs' =>
      match tr_acquire (env i) with
      | Some err => mkTrials (zeroizeFrom cs h) (inl err) false
      | None =>
          match tr_walk (env i) with
          | inr dev => mkTrials (zeroizeFrom cs' h) (inr (dev, cand_Params c, cand_Profile c)) false
          | inl err =>
              let h := (Zeroize (cand_Params c) h).1 in
              match tr_ctxErr (env i) with
              | Some cerr => mkTrials (zeroizeFrom cs' h) (inl cerr) false
              | None =>
                  try_candidates env (S i) cs' err
                    (match err with DeadlineExceeded => allTimedOut | _ => false end) h
              end
          end
      end
  end.

Definition WalkSystemWithCredentials (cfg : probeConfig) (r : Resolver) (ip : list Z) (tport : Z)
    (now1 now2 : time) (env : nat → trial) (h : heap)
  : heap * Resolver * (probe_err + (Device * Params * string)) :=
  let '(h, r, cs) := CredentialCandidates cfg r ip tport now1 now2 h in
  match cs with
  | [] => (h, r, inl NoCandidates)
  | _ =>
      let out := try_candidates env 0 cs NoCandidates true h in
      (to_heap out,
       (if to_record_failure out then RecordFailure (IP_String ip) r else r),
       to_result out)
  end.
End Probe.

(** ** Lemmas *)

Definition bufs (p : Params) : list nat :=
  option_list (Community p) ++ option_list (AuthKey p) ++ option_list (PrivKey p).

Definition all_bufs (cs : list CredentialCandidate) : list nat := cs ≫= (λ c, bufs (cand_Params c)).

Lemma zeros_idemp b : zeros (zeros b) = zeros b.
Proof. unfold zeros. by rewrite length_replicate. Qed.

Lemma zeroBytes_lookup p h j :
  zeroBytes p h !! j = if bool_decide (j ∈ option_list p) then zeros <$> h !! j else h !! j.
Proof.
  destruct p as [i|]; cbn; [|by case_bool_decide; [set_solver|]].
  case_bool_decide as Hj.
  - apply list_elem_of_singleton in Hj as ->. destruct (h !! i) as [b|] eqn:Hi; [|by rewrite Hi].
    rewrite list_lookup_insert_eq; [done|]. by eapply lookup_lt_Some.
  - assert (i ≠ j) by set_solver. destruct (h !! i); [by rewrite list_lookup_insert_ne|done].
Qed.

(** Wiping the buffers [l] of a heap. *)
Definition wiped (l : list nat) (h h' : heap) : Prop :=
  ∀ j, h' !! j = if bool_decide (j ∈ l) then zeros <$> h !! j else h !! j.

Lemma wiped_nil h : wiped [] h h.
Proof. intros j. by case_bool_decide; [set_solver|]. Qed.

Lemma wiped_app l1 l2 h1 h2 h3 : wiped l1 h1 h2 → wiped l2 h2 h3 → wiped (l1 ++ l2) h1 h3.
Proof.
  intros H1 H2 j. rewrite H2, H1. repeat case_bool_decide; try set_solver; try done.
  rewrite <-option_fmap_compose. apply option_fmap_ext. intros b. cbn. apply zeros_idemp.
Qed.

Lemma Zeroize_wiped p h : wiped (bufs p) h (Zeroize p h).1.
Proof.
  unfold bufs. eapply wiped_app; [|eapply wiped_app]; intros j; apply zeroBytes_lookup.
Qed.

Lemma zeroizeFrom_wiped cs h : wiped (all_bufs cs) h (zeroizeFrom cs h).
Proof.
  revert h. induction cs as [|c cs IH]; intros h; cbn; [apply wiped_nil|].
  eapply wiped_app; [apply Zeroize_wiped|apply IH].
Qed.

Lemma wiped_elem l1 l2 h h' : (∀ j, j ∈ l1 ↔ j ∈ l2) → wiped l1 h h' → wiped l2 h h'.
Proof. intros Hl H j. rewrite H. by rewrite (bool_decide_ext _ _ (Hl j)). Qed.

(** A trial that lets the loop go on to the next candidate. *)
Definition goes_on (t : trial) : Prop :=
  tr_acquire t = None ∧ (∃ e, tr_walk t = inl e) ∧ tr_ctxErr t = None.

(** How the trials end, after the candidates [pre] have failed one after the other
    and the loop went on: no candidate is left, or the next one wins, or the limiter
    or the context stops the probe. *)
Definition trials_end (env : nat → trial) (i : nat) (a0 : bool) (pre post : list CredentialCandidate)
    (h : heap) (out : trials_out) : Prop :=
  (∀ k, (k < length pre)%nat → goes_on (env (i + k)%nat)) ∧
  match post with
  | [] =>
      (∃ e, to_result out = inl e) ∧ wiped (all_bufs pre) h (to_heap out) ∧
      (to_record_failure out = true ↔ a0 = false ∨
         ∃ k, (k < length pre)%nat ∧ tr_walk (env (i + k)%nat) ≠ inl DeadlineExceeded)
  | c :: post' =>
      to_record_failure out = false ∧
      match tr_acquire (env (i + length pre)%nat), tr_walk (env (i + length pre)%nat) with
      | None, inr dev =>
          to_result out = inr (dev, cand_Params c, cand_Profile c) ∧
          wiped (all_bufs (pre ++ post')) h (to_heap out)
      | _, _ =>
          ¬ goes_on (env (i + length pre)%nat) ∧
          (∃ e, to_result out = inl e) ∧ wiped (all_bufs (pre ++ c :: post')) h (to_heap out)
      end
  end.

Lemma trials_end_cons env i a0 a1 c pre post h h1 out e :
  goes_on (env i) → tr_walk (env i) = inl e →
  a1 = match e with DeadlineExceeded => a0 | _ => false end →
  wiped (bufs (cand_Params c)) h h1 →
  trials_end env (S i) a1 pre post h1 out → trials_end env i a0 (c :: pre) post h out.
Proof.
  intros Hgo Hw Ha Hwipe [Hpre Hpost]. split.
  { intros [|k] Hk; [by rewrite Nat.add_0_r|]. rewrite <-Nat.add_succ_comm. apply Hpre. cbn in Hk. lia. }
  cbn [length]. rewrite <-Nat.add_succ_comm.
  assert (∀ l, wiped (all_bufs l) h1 (to_heap out) → wiped (all_bufs (c :: l)) h (to_heap out)) as Hw'.
  { intros l Hl. by eapply wiped_app. }
  destruct post as [|c' post'].
  - destruct Hpost as (He & Hwp & Hrf). split; [done|]. split; [auto|]. rewrite Hrf, Ha. split.
    + intros [H|(k & Hk & Hne)].
      * destruct e; [by left|right; exists 0%nat; rewrite Nat.add_0_r, Hw; split; [lia|done]..].
      * right. exists (S k). rewrite <-Nat.add_succ_comm. split; [lia|done].
    + intros [->|([|k] & Hk & Hne)]; [left; by destruct e| |].
      * left. rewrite Nat.add_0_r, Hw in Hne. by destruct e.
      * right. exists k. rewrite Nat.add_succ_comm. split; [lia|done].
  - destruct Hpost as [Hrf Hpost]. split; [done|].
    revert Hpost. destruct (tr_acquire _); [|destruct (tr_walk (env (S i + length pre)%nat))].
    1,2: intros (? & ? & ?); split_and!; [done..|by apply Hw'].
    intros [? ?]. split; [done|by apply Hw'].
Qed.

Lemma try_candidates_spec env i cs e0 a0 h :
  ∃ pre post, cs = pre ++ post ∧ trials_end env i a0 pre post h (try_candidates env i cs e0 a0 h).
Proof.
  revert i e0 a0 h. induction cs as [|c cs IH]; intros i e0 a0 h.
  { exists [], []. split; [done|]. split; [cbn; lia|]. cbn. split; [eauto|].
    split; [apply wiped_nil|]. destruct a0; cbn; [|naive_solver].
    split; [done|]. intros [|(k & ? & _)]; [done|lia]. }
  cbn [try_candidates]. destruct (tr_acquire (env i)) as [e|] eqn:Ha;
    [|destruct (tr_walk (env i)) as [e|dev] eqn:Hw; [destruct (tr_ctxErr (env i)) as [e'|] eqn:Hc|]].
  1,2,4: exists [], (c :: cs); (split; [done|]); (split; [cbn; lia|]); cbn [length app to_record_failure];
    rewrite ?Nat.add_0_r, ?Ha, ?Hw; (split; [done|]); cbn [to_result to_heap].
  - split; [unfold goes_on; rewrite Ha; naive_solver|]. split; [eauto|apply (zeroizeFrom_wiped (c :: cs))].
  - split; [unfold goes_on; rewrite Hc; naive_solver|]. split; [eauto|].
    eapply wiped_app; [apply Zeroize_wiped|apply zeroizeFrom_wiped].
  - split; [done|apply zeroizeFrom_wiped].
  - destruct (IH (S i) e (match e with DeadlineExceeded => a0 | _ => false end)
      (Zeroize (cand_Params c) h).1) as (pre & post & -> & Hend).
    exists (c :: pre), post. split; [done|].
    eapply trials_end_cons; [|done|reflexivity|apply Zeroize_wiped|exact Hend].
    split; [done|]. split; [eauto|done].
Qed.

(** *** The candidates *)

Section Candidates.
Context (Getenv : string → string) `{N : NetText}.

(** The secrets a profile names are set. *)
Definition profile_usable (p : CredentialProfile) : bool :=
  if bool_decide (p_Type p = ProfileTypeSNMPv2c) then bool_decide (Getenv (p_CommunityEnv p) ≠ "")
  else if bool_decide (p_Type p = ProfileTypeSNMPv3) then
    bool_decide (Getenv (p_UsernameEnv p) ≠ "") &&
    (bool_decide (p_AuthKeyEnv p = "") || bool_decide (Getenv (p_AuthKeyEnv p) ≠ "")) &&
    (bool_decide (p_PrivKeyEnv p = "") || bool_decide (Getenv (p_PrivKeyEnv p) ≠ ""))
  else false.

Definition usable (r : Resolver) (name : string) : bool :=
  match Profile r name with Some p => profile_usable p | None => false end.

Lemma key_missing (e k : string) :
  bool_decide (e ≠ "") && bool_decide (k = "") = negb (bool_decide (e = "") || bool_decide (k ≠ "")).
Proof. by repeat case_bool_decide. Qed.

(** The parameters of a profile point to fresh buffers. *)
Lemma ProfileToParams_spec ip port timeout p h :
  ∃ ext, (ProfileToParams Getenv ip port timeout p h).1 = h ++ ext ∧
    match (ProfileToParams Getenv ip port timeout p h).2 with
    | inl _ => profile_usable p = false
    | inr params => profile_usable p = true ∧ bufs params = seq (length h) (length ext)
    end.
Proof.
  unfold ProfileToParams, profile_usable, alloc. case_bool_decide as Ht; [|case_bool_decide as Ht3].
  - case_bool_decide as Hc; [exists []; by rewrite app_nil_r, bool_decide_eq_false_2 by naive_solver|].
    eexists. split; [reflexivity|]. by rewrite bool_decide_eq_true_2.
  - case_bool_decide as Hu; [exists []; by rewrite app_nil_r, bool_decide_eq_false_2 by naive_solver|].
    rewrite (bool_decide_eq_true_2 (Getenv (p_UsernameEnv p) ≠ "")) by done.
    rewrite !key_missing. cbn [andb].
    destruct (bool_decide (p_AuthKeyEnv p = "") || _); cbn [negb andb];
      [|exists []; by rewrite app_nil_r].
    destruct (bool_decide (p_PrivKeyEnv p = "") || _); cbn [negb fst snd];
      [eexists [_; _]; rewrite <-app_assoc|eexists [_]; done].
    split; [reflexivity|]. split; [done|]. cbn. by rewrite length_app, Nat.add_1_r.
  - exists []. by rewrite app_nil_r.
Qed.

(** Candidates built on top of [h0] own pairwise different new buffers. *)
Record fresh_bufs (h0 h : heap) (cs : list CredentialCandidate) : Prop := {
  fb_ext : ∃ ext, h = h0 ++ ext;
  fb_NoDup : NoDup (all_bufs cs);
  fb_range : ∀ j, j ∈ all_bufs cs → (length h0 ≤ j < length h)%nat
}.

Lemma fresh_bufs_more h0 h cs ext : fresh_bufs h0 h cs → fresh_bufs h0 (h ++ ext) cs.
Proof.
  intros [[e ->] Hn Hr]. split; [exists (e ++ ext); by rewrite app_assoc|done|].
  intros j Hj. specialize (Hr j Hj). rewrite length_app. lia.
Qed.

Lemma fresh_bufs_snoc h0 h cs ext params name :
  fresh_bufs h0 h cs → bufs params = seq (length h) (length ext) →
  fresh_bufs h0 (h ++ ext) (cs ++ [mkCandidate params name]).
Proof.
  intros Hf Hb. pose proof (fresh_bufs_more h0 h cs ext Hf) as [He _ _]. destruct Hf as [[e Hh] Hn Hr].
  assert (all_bufs (cs ++ [mkCandidate params name]) = all_bufs cs ++ seq (length h) (length ext)) as Hall.
  { unfold all_bufs. rewrite bind_app. cbn. by rewrite app_nil_r, Hb. }
  split; [done| |]; rewrite Hall.
  - apply NoDup_app. split; [done|]. split; [|apply NoDup_seq].
    intros j Hj Hs%elem_of_seq. apply Hr in Hj. lia.
  - intros j. rewrite elem_of_app, elem_of_seq, length_app. intros [Hj%Hr|Hj]; [lia|].
    subst h. rewrite length_app in *. lia.
Qed.

Lemma candidate_step_spec r ip port timeout h0 h seen cs name :
  fresh_bufs h0 h cs →
  let st := candidate_step Getenv r ip port timeout (h, seen, cs) name in
  fresh_bufs h0 st.1.1 st.2 ∧
  if usable r name && negb (bool_decide (name ∈ seen))
  then st.1.2 = {[name]} ∪ seen ∧ cand_Profile <$> st.2 = (cand_Profile <$> cs) ++ [name]
  else st.1.2 = seen ∧ st.2 = cs.
Proof.
  intros Hf. unfold candidate_step, usable. case_bool_decide; [by rewrite andb_false_r|].
  rewrite andb_true_r. destruct (Profile r name) as [p|]; [|done].
  destruct (ProfileToParams_spec ip port timeout p h) as (ext & Hh & Hres).
  destruct (ProfileToParams Getenv ip port timeout p h) as [h' [e|params]]; cbn in *; subst h'.
  - rewrite Hres. split; [by apply fresh_bufs_more|done].
  - destruct Hres as [-> Hb]. split; [by apply fresh_bufs_snoc|]. by rewrite fmap_app.
Qed.

Lemma candidate_loop r ip port timeout h0 names h seen cs :
  fresh_bufs h0 h cs →
  let st := fold_left (candidate_step Getenv r ip port timeout) names (h, seen, cs) in
  fresh_bufs h0 st.1.1 st.2 ∧
  cand_Profile <$> st.2 =
    (cand_Profile <$> cs) ++ dedup_from id seen (filter (λ n, usable r n = true) names).
Proof.
  revert h seen cs. induction names as [|name names IH]; intros h seen cs Hf.
  { cbn. split; [done|]. by rewrite app_nil_r. }
  destruct (candidate_step_spec r ip port timeout h0 h seen cs name Hf) as [Hf1 Hst].
  cbn [fold_left]. destruct (candidate_step Getenv r ip port timeout (h, seen, cs) name) as [[h1 seen1] cs1].
  cbn [fst snd] in *. destruct (IH h1 seen1 cs1 Hf1) as [Hf2 Hn2]. split; [done|]. rewrite Hn2.
  rewrite filter_cons. destruct (usable r name) eqn:Hu; cbn [andb] in Hst.
  - rewrite decide_True by done. cbn [dedup_from id]. case_bool_decide; cbn [negb] in Hst; destruct Hst as [-> Hc].
    + by rewrite Hc.
    + by rewrite Hc, <-app_assoc.
  - rewrite decide_False by done. by destruct Hst as [-> ->].
Qed.

Lemma fresh_bufs_nil h : fresh_bufs h h [].
Proof. split; [exists []; by rewrite app_nil_r|constructor|set_solver]. Qed.

Lemma CredentialCandidates_fresh cfg r ip tport now1 now2 h :
  let '(h1, _, cs) := CredentialCandidates Getenv cfg r ip tport now1 now2 h in fresh_bufs h h1 cs.
Proof.
  unfold CredentialCandidates. destruct (CachedProfile (IP_String ip) now1 now2 r) as [r1 cached].
  set (st := match cached with Some _ => _ | None => _ end).
  assert (fresh_bufs h st.1.1 st.2) as Hst.
  { subst st. destruct cached as [name|]; [|apply fresh_bufs_nil].
    apply candidate_step_spec, fresh_bufs_nil. }
  destruct st as [[h1 seen] cs]. cbn in Hst. destruct (pc_Profiles cfg) as [|p ps].
  - case_bool_decide; [done|]. unfold alloc.
    by apply (fresh_bufs_snoc h h1 cs [string_bytes (Getenv (pc_CommunityEnv cfg))]).
  - destruct (candidate_loop r1 ip (effective_port tport) (pc_TimeoutPerDevice cfg) h (Resolve r1 ip)
      h1 seen cs Hst) as [Hf _]. by destruct (fold_left _ _ _) as [[h2 seen2] cs2].
Qed.
End Candidates.

(** *** The trials of all candidates *)

Lemma goes_on_stop env (pre1 pre2 post1 post2 : list CredentialCandidate) w1 w2 :
  pre1 ++ w1 :: post1 = pre2 ++ w2 :: post2 →
  (∀ k, (k < length pre1)%nat → goes_on (env k)) → (∀ k, (k < length pre2)%nat → goes_on (env k)) →
  ¬ goes_on (env (length pre1)) → ¬ goes_on (env (length pre2)) →
  pre1 = pre2 ∧ w1 = w2 ∧ post1 = post2.
Proof.
  intros Heq H1 H2 Hn1 Hn2. assert (length pre1 = length pre2) as Hlen.
  { destruct (Nat.lt_trichotomy (length pre1) (length pre2)) as [Hl|[Hl|Hl]]; [|done|].
    - by apply H2 in Hl.
    - by apply H1 in Hl. }
  apply app_inj_1 in Heq as [-> Heq]; [|done]. by injection Heq as -> ->.
Qed.

Lemma wins_not_on t dev : tr_walk t = inr dev → ¬ goes_on t.
Proof. intros Hw (_ & [e He] & _). congruence. Qed.

(** The result of the loop and the failures it records. *)
Lemma trials_result env cs e0 h :
  let out := try_candidates env 0 cs e0 true h in
  (∀ dev p name, to_result out = inr (dev, p, name) ↔ ∃ pre w post, cs = pre ++ w :: post ∧
     p = cand_Params w ∧ name = cand_Profile w ∧
     (∀ k, (k < length pre)%nat → goes_on (env k)) ∧
     tr_acquire (env (length pre)) = None ∧ tr_walk (env (length pre)) = inr dev) ∧
  (to_record_failure out = true ↔ (∀ k, (k < length cs)%nat → goes_on (env k)) ∧
     ∃ k, (k < length cs)%nat ∧ tr_walk (env k) ≠ inl DeadlineExceeded).
Proof.
  destruct (try_candidates_spec env 0 cs e0 true h) as (pre & post & -> & Hpre & Hend).
  cbv zeta. set (out := try_candidates _ _ _ _ _ _) in *. cbn in Hpre.
  destruct post as [|w post].
  { rewrite app_nil_r in *. destruct Hend as ([e ->] & _ & Hrf). split; [|naive_solver].
    intros dev p name. split; [done|]. intros (pre' & w & post' & -> & _ & _ & _ & _ & Hw).
    exfalso. eapply wins_not_on; [exact Hw|]. apply Hpre. rewrite length_app. cbn. lia. }
  destruct Hend as [Hrf Hend]. cbn [Nat.add] in Hend.
  assert (¬ goes_on (env (length pre))) as Hstop.
  { destruct (tr_acquire (env (length pre))) eqn:Ha; [by destruct Hend as [? _]|].
    destruct (tr_walk (env (length pre))) eqn:Hw; [by destruct Hend as [? _]|]. by eapply wins_not_on. }
  split.
  - intros dev p name. split.
    + intros Hr. destruct (tr_acquire (env (length pre))) eqn:Ha; [destruct Hend as (_ & [e He] & _); congruence|].
      destruct (tr_walk (env (length pre))) as [e|d] eqn:Hw; [destruct Hend as (_ & [e' He] & _); congruence|].
      destruct Hend as [Hr' _]. rewrite Hr in Hr'. injection Hr' as -> -> ->. exists pre, w, post. auto 6.
    + intros (pre' & w' & post' & Heq & -> & -> & Hpre' & Ha & Hw).
      destruct (goes_on_stop env pre pre' post post' w w') as (-> & -> & ->);
        [done..|by eapply wins_not_on|]. rewrite Ha, Hw in Hend. by destruct Hend as [-> _].
  - rewrite Hrf. split; [done|]. intros [Hall _]. destruct Hstop. apply Hall. rewrite length_app. cbn. lia.
Qed.

Lemma CachedProfile_keeps id now1 now2 r :
  let '(r1, res) := CachedProfile id now1 now2 r in
  res = (cached_read id now1 r).1 ∧ r_profiles r1 = r_profiles r ∧ r_exact r1 = r_exact r ∧
  r_cidrs r1 = r_cidrs r ∧ r_fallback r1 = r_fallback r.
Proof.
  unfold CachedProfile. destruct (cached_read id now1 r) as [res stale]. destruct stale; [|done].
  unfold cached_evict. destruct (r_cache r !! id) as [e|]; [destruct (expired_at now2 e)|]; done.
Qed.

Lemma candidate_names (Getenv : string → string) `{NetText} cfg r ip tport now1 now2 h0 :
  let '(_, _, cs) := CredentialCandidates Getenv cfg r ip tport now1 now2 h0 in
  pc_Profiles cfg ≠ [] → cand_Profile <$> cs = dedup_by id (filter (λ n, usable Getenv r n = true)
     (option_list (cached_read (IP_String ip) now1 r).1 ++ Resolve r ip)).
Proof.
  unfold CredentialCandidates. pose proof (CachedProfile_keeps (IP_String ip) now1 now2 r) as Hk.
  destruct (CachedProfile (IP_String ip) now1 now2 r) as [r1 cached].
  destruct Hk as (-> & Hp & He & Hc & Hfb).
  assert (Resolve r1 ip = Resolve r ip) as HR by (unfold Resolve; by rewrite He, Hc, Hfb).
  assert (∀ n, usable Getenv r1 n = usable Getenv r n) as HU by (intros n; unfold usable, Profile; by rewrite Hp).
  set (cached := (cached_read (IP_String ip) now1 r).1).
  pose proof (candidate_loop Getenv r1 ip (effective_port tport) (pc_TimeoutPerDevice cfg) h0
    (option_list cached ++ Resolve r1 ip) h0 ∅ [] (fresh_bufs_nil h0)) as [_ Hl].
  rewrite fold_left_app in Hl.
  assert (fold_left (candidate_step Getenv r1 ip (effective_port tport) (pc_TimeoutPerDevice cfg))
    (option_list cached) (h0, ∅, []) = match cached with
      | Some name => candidate_step Getenv r1 ip (effective_port tport) (pc_TimeoutPerDevice cfg) (h0, ∅, []) name
      | None => (h0, ∅, []) end) as Hc1 by by destruct cached.
  rewrite Hc1 in Hl. destruct (pc_Profiles cfg) as [|p ps].
  { destruct (match cached with Some _ => _ | None => _ end) as [[h1 s1] cs1].
    case_bool_decide; [done|]. by destruct (alloc _ _). }
  destruct (fold_left _ (Resolve r1 ip) _) as [[h2 s2] cs2]. intros _. cbn [snd] in Hl. rewrite Hl, HR. cbn [app fmap list_fmap].
  unfold dedup_by. f_equal. apply list_filter_iff. intros n. by rewrite HU.
Qed.

(** ** Properties *)

Lemma wiped_at l h h' j : wiped l h h' → j ∈ l → h' !! j = zeros <$> h !! j.
Proof. intros H Hj. by rewrite H, bool_decide_eq_true_2. Qed.

Lemma wiped_out l h h' j : wiped l h h' → j ∉ l → h' !! j = h !! j.
Proof. intros H Hj. by rewrite H, bool_decide_eq_false_2. Qed.

Lemma all_bufs_elem cs c j : c ∈ cs → j ∈ bufs (cand_Params c) → j ∈ all_bufs cs.
Proof. intros Hc Hj. apply list_elem_of_bind. eauto. Qed.

Lemma all_bufs_app l1 l2 : all_bufs (l1 ++ l2) = all_bufs l1 ++ all_bufs l2.
Proof. apply bind_app. Qed.

Lemma winner_disjoint pre w post j :
  NoDup (all_bufs (pre ++ w :: post)) → j ∈ bufs (cand_Params w) → j ∉ all_bufs (pre ++ post).
Proof.
  rewrite !all_bufs_app. change (all_bufs (w :: post)) with (bufs (cand_Params w) ++ all_bufs post).
  rewrite elem_of_app. intros (_ & Hd1 & (_ & Hd2 & _)%NoDup_app)%NoDup_app Hj [Hp|Hp]; [|by apply (Hd2 j)].
  apply (Hd1 j); [done|]. apply elem_of_app. by left.
Qed.

(** C22: Secrets are overwritten on every path of a credential probe. Whatever the
    limiter, the device and the context do, when [WalkSystemWithCredentials] returns
    an error the secret buffers of all candidates hold zeros; when it returns a
    device the buffers of the winner are intact, those of all other candidates hold
    zeros, and the caller's [Zeroize] of the returned copy clears the winner's as
    well. Buffers the probe did not create are not touched. *)
Theorem probe_secrets_wiped (Getenv : string → string) `{NetText} cfg r ip tport now1 now2 env h0 :
  let '(h1, _, cs) := CredentialCandidates Getenv cfg r ip tport now1 now2 h0 in
  let '(h2, _, res) := WalkSystemWithCredentials Getenv cfg r ip tport now1 now2 env h0 in
  (∀ j, (j < length h0)%nat → h2 !! j = h0 !! j) ∧
  match res with
  | inl _ => ∀ c j, c ∈ cs → j ∈ bufs (cand_Params c) → h2 !! j = zeros <$> h1 !! j
  | inr (_, p, name) => ∃ w, w ∈ cs ∧ p = cand_Params w ∧ name = cand_Profile w ∧
      (∀ j, j ∈ bufs p → h2 !! j = h1 !! j) ∧
      (∀ c j, c ∈ cs → j ∈ bufs (cand_Params c) → j ∉ bufs p → h2 !! j = zeros <$> h1 !! j) ∧
      (∀ c j, c ∈ cs → j ∈ bufs (cand_Params c) → (Zeroize p h2).1 !! j = zeros <$> h1 !! j)
  end.
Proof.
  pose proof (CredentialCandidates_fresh Getenv cfg r ip tport now1 now2 h0) as Hf.
  unfold WalkSystemWithCredentials.
  destruct (CredentialCandidates Getenv cfg r ip tport now1 now2 h0) as [[h1 r1] cs].
  destruct Hf as [[ext Hext] Hnd Hrange].
  assert (∀ j, (j < length h0)%nat → h1 !! j = h0 !! j ∧ j ∉ all_bufs cs) as Hold.
  { intros j Hj. split; [by rewrite Hext, lookup_app_l|]. intros Hb%Hrange. lia. }
  destruct cs as [|c0 cs0] eqn:Hcs.
  { split; [intros j Hj; by apply Hold|]. set_solver. }
  rewrite <-Hcs in *. clear c0 cs0 Hcs.
  destruct (try_candidates_spec env 0 cs NoCandidates true h1) as (pre & post & -> & _ & Hend).
  destruct (try_candidates _ _ _ _ _ _) as [h2 res rf]. cbn [to_heap to_result to_record_failure] in *.
  assert (∀ l e, wiped (all_bufs l) h1 h2 → l ≡ₚ pre ++ post → res = inl e →
    (∀ j, (j < length h0)%nat → h2 !! j = h0 !! j) ∧
    match res with inl _ => ∀ c j, c ∈ pre ++ post → j ∈ bufs (cand_Params c) → h2 !! j = zeros <$> h1 !! j
    | inr _ => False end) as Herr.
  { intros l e Hw Hl ->. split.
    - intros j Hj. destruct (Hold j Hj) as [<- Hj']. eapply wiped_out; [done|].
      unfold all_bufs. by rewrite Hl.
    - intros c j Hc Hj. eapply wiped_at; [done|]. eapply all_bufs_elem; [|done]. by rewrite Hl. }
  destruct post as [|w post].
  { destruct Hend as ([e ->] & Hw & _). apply (Herr pre e); auto. by rewrite app_nil_r. }
  destruct Hend as [_ Hend].
  destruct (tr_acquire _); [|destruct (tr_walk (env (0 + length pre)%nat)) as [|dev]].
  1,2: destruct Hend as (_ & [e ->] & Hw); by apply (Herr (pre ++ w :: post) e).
  destruct Hend as [-> Hw]. clear Herr.
  pose proof (λ j, winner_disjoint pre w post j Hnd) as Hwin.
  assert (∀ c j, c ∈ pre ++ w :: post → j ∈ bufs (cand_Params c) → j ∉ bufs (cand_Params w) →
    h2 !! j = zeros <$> h1 !! j) as Hlose.
  { intros c j Hc Hj Hn. eapply wiped_at; [done|]. apply (all_bufs_elem _ c); [|done].
    apply elem_of_app in Hc as [Hc|[->|Hc]%elem_of_cons]; [set_solver|done|set_solver]. }
  split.
  { intros j Hj. destruct (Hold j Hj) as [<- Hj']. eapply wiped_out; [done|].
    intros Hb. apply Hj'. rewrite all_bufs_app in *. cbn. set_solver. }
  exists w. split; [set_solver|]. split; [done|]. split; [done|]. split; [|split; [done|]].
  - intros j Hj. eapply wiped_out; [done|]. by apply Hwin.
  - intros c j Hc Hj. pose proof (Zeroize_wiped (cand_Params w) h2) as Hz.
    destruct (decide (j ∈ bufs (cand_Params w))) as [Hin|Hin].
    + rewrite (wiped_at _ _ _ _ Hz Hin). f_equal. eapply wiped_out; [done|]. by apply Hwin.
    + rewrite (wiped_out _ _ _ _ Hz Hin). eauto.
Qed.

(** The credential trials of a device. With profiles configured, the
    candidates are the cached profile, when its entry is fresh, and then the
    resolver's list, without repetitions and without the profiles whose secrets are
    not set. The probe succeeds with the first candidate that answers, provided the
    limiter granted every trial up to it and the context was alive after every
    failure before it. The cached profile of the device is forgotten when all
    candidates were tried and failed and some failure was not a timeout, and in no
    other case. *)
Theorem credential_trials (Getenv : string → string) `{NetText} cfg r ip tport now1 now2 env h0 :
  let '(h1, r1, cs) := CredentialCandidates Getenv cfg r ip tport now1 now2 h0 in
  let '(h2, r2, res) := WalkSystemWithCredentials Getenv cfg r ip tport now1 now2 env h0 in
  (pc_Profiles cfg ≠ [] →
   cand_Profile <$> cs =
     dedup_by id (filter (λ n, usable Getenv r n = true)
       (option_list (cached_read (IP_String ip) now1 r).1 ++ Resolve r ip))) ∧
  (∀ dev p name, res = inr (dev, p, name) ↔ ∃ pre w post, cs = pre ++ w :: post ∧
     p = cand_Params w ∧ name = cand_Profile w ∧
     (∀ k, (k < length pre)%nat → goes_on (env k)) ∧
     tr_acquire (env (length pre)) = None ∧ tr_walk (env (length pre)) = inr dev) ∧
  ∃ forget, r2 = (if forget : bool then RecordFailure (IP_String ip) r1 else r1) ∧
    (forget = true ↔ (∀ k, (k < length cs)%nat → goes_on (env k)) ∧
       ∃ k, (k < length cs)%nat ∧ tr_walk (env k) ≠ inl DeadlineExceeded).
Proof.
  assert (let '(_, _, cs) := CredentialCandidates Getenv cfg r ip tport now1 now2 h0 in
    pc_Profiles cfg ≠ [] → cand_Profile <$> cs = dedup_by id (filter (λ n, usable Getenv r n = true)
       (option_list (cached_read (IP_String ip) now1 r).1 ++ Resolve r ip))) as Hnames
    by apply candidate_names.
  unfold WalkSystemWithCredentials.
  destruct (CredentialCandidates Getenv cfg r ip tport now1 now2 h0) as [[h1 r1] cs].
  destruct cs as [|c0 cs0] eqn:Hcs.
  { split; [done|]. split; [|exists false; split; [done|]; split; [done|intros (_ & k & Hk & _); cbn in Hk; lia]].
    intros dev p name. split; [done|]. intros (pre & w & post & Hx & _). by destruct pre. }
  rewrite <-Hcs in *. clear c0 cs0 Hcs. split; [done|].
  pose proof (trials_result env cs NoCandidates h1) as [Hres Hforget]. split; [done|].
  eexists. split; [reflexivity|]. done.
Qed.

(** A profile that turns out unusable after its first secret was read is dropped
    without being overwritten: the key stays in the heap although no candidate
    holds it. *)
Definition half_profile : CredentialProfile :=
  mkProfile "v3" ProfileTypeSNMPv3 "" "USER" "SHA" "AUTH" "AES" "PRIV" 1 "".

Definition half_env (v : string) : string :=
  if bool_decide (v = "USER") then "u" else if bool_decide (v = "AUTH") then "k" else "".

Definition half_resolver : Resolver :=
  mkResolver {["v3" := half_profile]} ∅ [] ["v3"] (newTokenBucket 1 0) ∅.

Example dropped_profile_keeps_key :
  let '(h, _, res) := WalkSystemWithCredentials (N := sample_net) half_env
    (mkProbeConfig [half_profile] "" 0) half_resolver [10; 0; 0; 1] 0 0 0
    (λ _, mkTrial None (inl Canceled) None) [] in
  res = inl NoCandidates ∧ h = [[107]].
Proof. vm_compute. split; reflexivity. Qed.
