(* ===== verification/Transport.v ===== *)
(** * internal/discovery/snmp/snmp.go: the SNMP transport

    [BulkWalk] with its fallback, rate limiter and recovered panics, the walk of the
    system group, the vendor of a sysObjectID, and the parameters a session is opened
    with.  What gosnmp and the context do during a call is an argument: each blocking
    step returns, panics, or is overtaken by the context. *)

From Stdlib Require Import ZArith Lia Ascii.
From S2P Require Import Prelude GoText Sanitize Discovery Limits HubValidate Pdu NetAddr Walker Probe.
Open Scope Z_scope.

(** ** BulkWalk *)

(** What the [select] on a transport goroutine sees: its result, its panic, or the end
    of the context first (the goroutine is then waited for, and may still panic). *)
Inductive call_out :=
  | Returned (r : walk_error + list SnmpPDU)
  | Panicked
  | CtxDone (err : walk_error) (panicked : bool).

Record bulk_env := mkBulkEnv {
  be_ctxErr : option walk_error;
  be_limiter : option (walk_error + duration);
  be_observer : bool;
  be_bulk : call_out;
  be_ctxErr2 : option walk_error;
  be_walk : call_out
}.

Inductive transport_event :=
  | TePanic (site : string)
  | TeRateWait (d : duration)
  | TeInterrupt.

(** The error [reportWalkPanic] returns. *)
Definition walk_panic : walk_error := mkWalkError None false false false.

Definition panic_events (b : bool) : list transport_event := if b then [TePanic "snmp_walk"] else [].

Definition fallback_walk (e : bulk_env) : list transport_event * (walk_error + list SnmpPDU) :=
  match be_ctxErr2 e with
  | Some err => ([], inl err)
  | None =>
      match be_walk e with
      | Returned r => ([], r)
      | Panicked => (panic_events true, inl walk_panic)
      | CtxDone err b => (TeInterrupt :: panic_events b, inl err)
      end
  end.

Definition snmp_BulkWalk (e : bulk_env) : list transport_event * (walk_error + list SnmpPDU) :=
  match be_ctxErr e with
  | Some err => ([], inl err)
  | None =>
      let wait :=
        match be_limiter e with
        | None => inr []
        | Some (inl err) => inl err
        | Some (inr d) => inr (if be_observer e then [TeRateWait d] else [])
        end in
      match wait with
      | inl err => ([], inl err)
      | inr ev =>
          match be_bulk e with
          | Returned (inr pdus) => (ev, inr pdus)
          | Returned (inl _) => let '(ev', r) := fallback_walk e in (ev ++ ev', r)
          | Panicked => let '(ev', r) := fallback_walk e in (ev ++ panic_events true ++ ev', r)
          | CtxDone err b => (ev ++ TeInterrupt :: panic_events b, inl err)
          end
      end
  end.

(** ** Vendors *)

Definition enterprisePrefixes : list (string * string) :=
  [("1.3.6.1.4.1.9.", "cisco"); ("1.3.6.1.4.1.11.", "hp"); ("1.3.6.1.4.1.14988.", "mikrotik");
   ("1.3.6.1.4.1.2636.", "juniper"); ("1.3.6.1.4.1.12356.", "fortinet"); ("1.3.6.1.4.1.8072.", "net-snmp");
   ("1.3.6.1.4.1.890.", "zyxel"); ("1.3.6.1.4.1.6527.", "nokia"); ("1.3.6.1.4.1.25506.", "huawei");
   ("1.3.6.1.4.1.2011.", "huawei"); ("1.3.6.1.4.1.4526.", "netgear"); ("1.3.6.1.4.1.1916.", "extreme");
   ("1.3.6.1.4.1.1991.", "brocade"); ("1.3.6.1.4.1.1872.", "alteon"); ("1.3.6.1.4.1.3375.", "f5");
   ("1.3.6.1.4.1.25461.", "paloalto"); ("1.3.6.1.4.1.30065.", "arista"); ("1.3.6.1.4.1.40310.", "cumulus");
   ("1.3.6.1.4.1.6876.", "vmware"); ("1.3.6.1.4.1.20301.", "ubiquiti"); ("1.3.6.1.4.1.41112.", "ubiquiti");
   ("1.3.6.1.4.1.674.", "dell"); ("1.3.6.1.4.1.6486.", "alcatel-lucent"); ("1.3.6.1.4.1.3076.", "altiga");
   ("1.3.6.1.4.1.232.", "hpe"); ("1.3.6.1.4.1.236.", "samsung"); ("1.3.6.1.4.1.3417.", "bluecoat");
   ("1.3.6.1.4.1.5624.", "enterasys"); ("1.3.6.1.4.1.18928.", "aerohive"); ("1.3.6.1.4.1.14179.", "cisco-wlc");
   ("1.3.6.1.4.1.45.", "baynetworks")].

(** [strings.TrimPrefix]. *)
Definition TrimPrefix (s p : string) : string := if HasPrefix s p then sdrop (slen p) s else s.

Definition vendor_in (table : list (string * string)) (oid : string) : string :=
  if bool_decide (oid = "") then "unknown"
  else
    let oid := TrimPrefix oid "." in
    default "unknown" (snd <$> find_first (λ e, HasPrefix oid e.1) table).

Definition VendorFromObjectID (oid : string) : string := vendor_in enterprisePrefixes oid.

(** ** The system description *)

Definition is_digit (c : ascii) : bool := in_range 48 57 (byte_val c).
Definition digit_or_dot (c : ascii) : bool := is_digit c || Ascii.eqb c ".".

Fixpoint span (p : ascii → bool) (s : string) : string * string :=
  match s with
  | EmptyString => ("", "")
  | String c s' => if p c then let '(a, b) := span p s' in (String c a, b) else ("", s)
  end.

(** The match of [\d+\.\d+[\.\d]*] that starts here. *)
Definition version_at (s : string) : option string :=
  let '(d, r) := span is_digit s in
  if bool_decide (d = "") then None
  else match r with
       | String c r' =>
           if Ascii.eqb c "." then
             if bool_decide ((span is_digit r').1 = "") then None
             else Some (d +:+ String c (span digit_or_dot r').1)
           else None
       | EmptyString => None
       end.

(** [sysDescrVersionRe.FindString]: the leftmost match. *)
Fixpoint find_version (s : string) : option string :=
  match version_at s with
  | Some v => Some v
  | None => match s with String _ s' => find_version s' | EmptyString => None end
  end.

Definition normalizeSysDescr (s : string) : string :=
  match find_version s with
  | Some m => m
  | None => TruncateAtRuneBoundary s 64
  end.

(** ** The system group *)

Definition oidSysDescr : string := "1.3.6.1.2.1.1.1.0".
Definition oidSysObjectID : string := "1.3.6.1.2.1.1.2.0".
Definition oidSysUpTime : string := "1.3.6.1.2.1.1.3.0".
Definition oidSysName : string := "1.3.6.1.2.1.1.5.0".
Definition systemWalkAnomalyEmptySysName : string := "empty_sysname".
Definition systemWalkAnomalyUnknownVendor : string := "unknown_vendor".

Definition Millisecond : duration := 1000000.

Definition pduOID (p : SnmpPDU) : string :=
  match pdu_Value p with VString s => s | _ => "" end.

Inductive get_out :=
  | GetReturned (r : walk_error + list SnmpPDU)
  | GetPanicked
  | GetCtxDone (err : walk_error) (panicked : bool).

Section System.
Context `{U : Unicode} `{N : NetText}.

Definition system_var (st : Device * bool) (p : SnmpPDU) : Device * bool :=
  let '(d, gotSysName) := st in
  if bool_decide (pdu_Name p = "." +:+ oidSysName) then
    let s := NormaliseName (PDUString p) in
    if bool_decide (s ≠ "")
    then (mkDevice s (Vendor d) (Model d) (OSVersion d) (Site d) (Uptime d) (Labels d), true)
    else st
  else if bool_decide (pdu_Name p = "." +:+ oidSysDescr) then
    (mkDevice (ID d) (Vendor d) (Model d) (normalizeSysDescr (PDUString p)) (Site d) (Uptime d) (Labels d),
     gotSysName)
  else if bool_decide (pdu_Name p = "." +:+ oidSysObjectID) then
    (mkDevice (ID d) (VendorFromObjectID (pduOID p)) (Model d) (OSVersion d) (Site d) (Uptime d) (Labels d),
     gotSysName)
  else if bool_decide (pdu_Name p = "." +:+ oidSysUpTime) then
    match PDUIntStrict p with
    | Some ticks =>
        if 0 <=? ticks
        then (mkDevice (ID d) (Vendor d) (Model d) (OSVersion d) (Site d)
                (wrap64 (ticks * 10 * Millisecond)) (Labels d), gotSysName)
        else st
    | None => st
    end
  else st.

(** [Walk]: the device, and the anomalies and panics that are reported. *)
Definition system_Walk (ip : list Z) (opened : option walk_error) (get : get_out)
  : list string * list transport_event * (walk_error + Device) :=
  match opened with
  | Some err => ([], [], inl err)
  | None =>
      match get with
      | GetCtxDone err b => ([], TeInterrupt :: panic_events b, inl err)
      | GetPanicked => ([], panic_events true, inl walk_panic)
      | GetReturned (inl err) => ([], [], inl err)
      | GetReturned (inr vars) =>
          let '(d, gotSysName) :=
            fold_left system_var vars (mkDevice (IP_String ip) "unknown" "" "" "" 0 ∅, false) in
          ((if gotSysName then [] else [systemWalkAnomalyEmptySysName])
           ++ (if bool_decide (Vendor d = "unknown") then [systemWalkAnomalyUnknownVendor] else []),
           [], inr d)
      end
  end.
End System.

(** ** Opening a session *)

Inductive SnmpVersion := Version2c | Version3.
Inductive AuthProtocol := NoAuth | AuthMD5 | AuthSHA | AuthSHA256 | AuthSHA384 | AuthSHA512.
Inductive PrivProtocol := NoPriv | PrivDES | PrivAES | PrivAES192 | PrivAES256.
Inductive MsgFlags := NoAuthNoPriv | AuthNoPriv | AuthPriv.

Record usm := mkUsm {
  UserName : string;
  AuthenticationProtocol : AuthProtocol;
  AuthenticationPassphrase : list Z;
  PrivacyProtocol : PrivProtocol;
  PrivacyPassphrase : list Z
}.

Record GoSNMP := mkGoSNMP {
  Target : string;
  g_Port : Z;
  g_Timeout : duration;
  g_Retries : Z;
  g_Version : SnmpVersion;
  g_MsgFlags : MsgFlags;
  g_Usm : option usm;
  g_ContextName : string;
  g_Community : list Z
}.

Definition parseAuthProto (s : string) : AuthProtocol :=
  if bool_decide (s = "") then NoAuth
  else if bool_decide (s = "MD5") then AuthMD5
  else if bool_decide (s = "SHA-256") then AuthSHA256
  else if bool_decide (s = "SHA-384") then AuthSHA384
  else if bool_decide (s = "SHA-512") then AuthSHA512
  else AuthSHA.

Definition parsePrivProto (s : string) : PrivProtocol :=
  if bool_decide (s = "") then NoPriv
  else if bool_decide (s = "DES") then PrivDES
  else if bool_decide (s = "AES-192") then PrivAES192
  else if bool_decide (s = "AES-256") then PrivAES256
  else PrivAES.

Definition authPrivMsgFlags (auth : AuthProtocol) (priv : PrivProtocol) : MsgFlags :=
  match auth, priv with
  | NoAuth, _ => NoAuthNoPriv
  | _, NoPriv => AuthNoPriv
  | _, _ => AuthPriv
  end.

(** The bytes a slice holds; a nil slice has none. *)
Definition slice_bytes (p : option nat) (h : list (list Z)) : list Z :=
  default [] (p ≫= λ i, h !! i).

Definition buildClient `{NetText} (p : Params) (h : list (list Z)) : GoSNMP :=
  let port := if Port p =? 0 then 161 else Port p in
  let timeout := if Timeout p =? 0 then 10 * Second else Timeout p in
  let retries := if Retries p =? 0 then 1 else Retries p in
  if V3 p then
    let auth := parseAuthProto (AuthProto p) in
    let priv := parsePrivProto (PrivProto p) in
    mkGoSNMP (IP_String (prm_IP p)) port timeout retries Version3 (authPrivMsgFlags auth priv)
      (Some (mkUsm (Username p) auth (slice_bytes (AuthKey p) h) priv (slice_bytes (PrivKey p) h)))
      (ContextName p) []
  else
    mkGoSNMP (IP_String (prm_IP p)) port timeout retries Version2c NoAuthNoPriv None ""
      (slice_bytes (Community p) h).

(** ** Lemmas *)

(** No enterprise prefix is a prefix of another. *)
Lemma enterprise_apart :
  forallb (λ e, forallb (λ f, bool_decide (e = f) || negb (HasPrefix e.1 f.1)) enterprisePrefixes)
    enterprisePrefixes = true.
Proof. vm_compute. reflexivity. Qed.

Lemma enterprise_unique oid e f :
  e ∈ enterprisePrefixes → f ∈ enterprisePrefixes →
  HasPrefix oid e.1 = true → HasPrefix oid f.1 = true → e = f.
Proof.
  intros He Hf Hpe Hpf. pose proof enterprise_apart as Ha. rewrite forallb_elem in Ha.
  pose proof (Ha e He) as H1. pose proof (Ha f Hf) as H2. rewrite forallb_elem in H1, H2.
  specialize (H1 f Hf). specialize (H2 e He).
  apply orb_true_iff in H1 as [H1|H1]; [by bprop|]. apply orb_true_iff in H2 as [H2|H2]; [by bprop|].
  destruct (HasPrefix_both oid e.1 f.1 Hpe Hpf) as [H|H]; rewrite H in *; done.
Qed.

(** A prefix of a string of bytes that satisfy [p], and the rest. *)
Lemma span_app p s : (span p s).1 +:+ (span p s).2 = s.
Proof.
  induction s as [|c s IH]; [done|]. cbn [span]. destruct (p c); [|done].
  destruct (span p s) as [a b]. simpl in *. by rewrite sapp_cons, IH.
Qed.

Lemma span_all p s : all_bytes p (span p s).1 = true.
Proof.
  induction s as [|c s IH]; [done|]. cbn [span]. destruct (p c) eqn:Hc; [|done].
  destruct (span p s) as [a b]. simpl in *. by rewrite Hc, IH.
Qed.

Lemma all_bytes_app p a b : all_bytes p (a +:+ b) = all_bytes p a && all_bytes p b.
Proof. induction a as [|c a IH]; [done|]. rewrite sapp_cons. cbn [all_bytes]. by rewrite IH, andb_assoc. Qed.

Lemma all_bytes_impl (p q : ascii → bool) s :
  (∀ c, p c = true → q c = true) → all_bytes p s = true → all_bytes q s = true.
Proof.
  intros Hpq. induction s as [|c s IH]; [done|]. cbn [all_bytes].
  intros [? ?]%andb_true_iff. apply andb_true_iff. auto.
Qed.

Lemma version_at_digits s v : version_at s = Some v → all_bytes digit_or_dot v = true.
Proof.
  unfold version_at. pose proof (span_all is_digit s) as Hd. destruct (span is_digit s) as [d r].
  case_bool_decide; [done|]. destruct r as [|c r]; [done|].
  destruct (Ascii.eqb_spec c "."%char) as [->|]; [|done]. case_bool_decide; [done|]. intros [= <-].
  rewrite all_bytes_app. cbn [all_bytes]. rewrite span_all. simpl in Hd.
  rewrite (all_bytes_impl is_digit digit_or_dot d); [done| |done].
  intros c Hc. unfold digit_or_dot. by rewrite Hc.
Qed.

Lemma find_version_digits s v : find_version s = Some v → all_bytes digit_or_dot v = true.
Proof.
  induction s as [|c s IH]; cbn [find_version]; [done|].
  destruct (version_at (String c s)) as [w|] eqn:Hv; [intros [= <-]; by eapply version_at_digits|done].
Qed.

(** ** Properties *)

(** the vendor of a device does not depend on the order of the table of enterprise
    prefixes: no prefix is a prefix of another, so at most one entry matches. *)
Theorem vendor_table_order_irrelevant (table : list (string * string)) (oid : string) :
  table ≡ₚ enterprisePrefixes → vendor_in table oid = VendorFromObjectID oid.
Proof.
  intros Hp. unfold VendorFromObjectID, vendor_in. case_bool_decide; [done|]. f_equal.
  set (t := TrimPrefix oid "."). f_equal.
  destruct (find_first (λ e, HasPrefix t e.1) table) as [e|] eqn:H1,
    (find_first (λ e, HasPrefix t e.1) enterprisePrefixes) as [f|] eqn:H2; [| | |done].
  - f_equal. apply find_first_Some in H1 as (? & ? & H1 & He & _), H2 as (? & ? & H2 & Hf & _).
    apply (enterprise_unique t); [rewrite <-Hp, H1|rewrite H2| |]; set_solver.
  - apply find_first_Some in H1 as (? & ? & H1 & He & _). apply find_first_None in H2.
    rewrite Forall_forall in H2. specialize (H2 e). rewrite <-Hp, H1 in H2. rewrite H2 in He; set_solver.
  - apply find_first_Some in H2 as (? & ? & H2 & Hf & _). apply find_first_None in H1.
    rewrite Forall_forall in H1. specialize (H1 f). rewrite Hp, H2 in H1. rewrite H1 in Hf; set_solver.
Qed.

Lemma vendor_table_order_irrelevant_witness :
  vendor_in (reverse enterprisePrefixes) ".1.3.6.1.4.1.6486.1" = "alcatel-lucent".
Proof.
  rewrite (vendor_table_order_irrelevant (reverse enterprisePrefixes)); [vm_compute; reflexivity|].
  apply reverse_Permutation.
Defined.

(** ** The device of the system group *)

Section SystemSpec.
Context `{U : Unicode} `{N : NetText}.

(** What a variable says of the name and of the vendor. *)
Definition says_name (p : SnmpPDU) : option string :=
  if bool_decide (pdu_Name p = "." +:+ oidSysName) then
    let s := NormaliseName (PDUString p) in if bool_decide (s ≠ "") then Some s else None
  else None.

Definition says_vendor (p : SnmpPDU) : option string :=
  if bool_decide (pdu_Name p = "." +:+ oidSysObjectID) then Some (VendorFromObjectID (pduOID p)) else None.

Definition says_descr (p : SnmpPDU) : option string :=
  if bool_decide (pdu_Name p = "." +:+ oidSysDescr) then Some (PDUString p) else None.

Lemma system_vars vars d got :
  let '(d', got') := fold_left system_var vars (d, got) in
  ID d' = default (ID d) (last (omap says_name vars)) ∧
  got' = got || bool_decide (is_Some (last (omap says_name vars))) ∧
  Vendor d' = default (Vendor d) (last (omap says_vendor vars)) ∧
  OSVersion d' = default (OSVersion d) (normalizeSysDescr <$> last (omap says_descr vars)).
Proof.
  revert d got. induction vars as [|p vars IH]; intros d got.
  { simpl. split; [done|]. split; [|done]. by rewrite orb_false_r. }
  cbn [fold_left]. destruct (system_var (d, got) p) as [d1 got1] eqn:Hv. specialize (IH d1 got1).
  destruct (fold_left system_var vars (d1, got1)) as [d' got'].
  destruct IH as (-> & -> & -> & ->). cbn [omap list_omap].
  unfold system_var in Hv.
  assert (says_name p = if bool_decide (pdu_Name p = "." +:+ oidSysName) then
            if bool_decide (NormaliseName (PDUString p) ≠ "") then Some (NormaliseName (PDUString p)) else None
            else None) as -> by done.
  assert (says_vendor p = if bool_decide (pdu_Name p = "." +:+ oidSysObjectID)
            then Some (VendorFromObjectID (pduOID p)) else None) as -> by done.
  assert (says_descr p = if bool_decide (pdu_Name p = "." +:+ oidSysDescr)
            then Some (PDUString p) else None) as -> by done.
  assert (∀ a b, a ≠ b → pdu_Name p = a → bool_decide (pdu_Name p = b) = false) as Hother.
  { intros a b Hab Ha. apply bool_decide_eq_false. congruence. }
  destruct (bool_decide (pdu_Name p = "." +:+ oidSysName)) eqn:E1.
  { bprop. rewrite (Hother ("." +:+ oidSysName) ("." +:+ oidSysObjectID) ltac:(discriminate) E1),
      (Hother ("." +:+ oidSysName) ("." +:+ oidSysDescr) ltac:(discriminate) E1).
    destruct (bool_decide (NormaliseName (PDUString p) ≠ "")); injection Hv as <- <-; [|done].
    simpl. rewrite !last_cons. destruct (last (omap says_name vars)); simpl; by rewrite ?orb_true_r. }
  destruct (bool_decide (pdu_Name p = "." +:+ oidSysDescr)) eqn:E2.
  { bprop. rewrite (Hother ("." +:+ oidSysDescr) ("." +:+ oidSysObjectID) ltac:(discriminate) E2).
    injection Hv as <- <-. cbn [ID Vendor OSVersion]. rewrite last_cons. by destruct (last (omap says_descr vars)). }
  destruct (bool_decide (pdu_Name p = "." +:+ oidSysObjectID)) eqn:E3.
  { injection Hv as <- <-. cbn [ID Vendor OSVersion]. rewrite last_cons. by destruct (last (omap says_vendor vars)). }
  destruct (bool_decide (pdu_Name p = "." +:+ oidSysUpTime)); [|by injection Hv as <- <-].
  destruct (PDUIntStrict p) as [t|]; [|by injection Hv as <- <-].
  destruct (0 <=? t); by injection Hv as <- <-.
Qed.

Lemma last_elem {A} (l : list A) x : last l = Some x → x ∈ l.
Proof. intros (l' & ->)%last_Some. apply elem_of_app. right. by left. Qed.

Lemma vendor_known oid : VendorFromObjectID oid ∈ "unknown" :: enterprisePrefixes.*2.
Proof.
  unfold VendorFromObjectID, vendor_in. case_bool_decide; [by left|].
  destruct (find_first _ _) as [e|] eqn:He; [|by left]. right.
  apply find_first_Some in He as (pre & post & Hl & _). apply list_elem_of_fmap. exists e. split; [done|].
  rewrite Hl. apply elem_of_app. right. by left.
Qed.
End SystemSpec.

(** The device record of a system walk. Its ID is the last usable sysName the device
    reported, else the management address, and is always accepted by the hub; the
    fallback and an unresolved vendor are each reported exactly when they happen; the
    vendor is one of the known ones; the OS version is a version token of digits and
    dots, or at most 64 bytes of the description. *)
Theorem system_walk_device `{Unicode} (N : NetText) `{!NetTextLaws N} (ip : list Z) (vars : list SnmpPDU) :
  (∀ r, 128 ≤ r → ¬ (unicode_lower r < 32 ∨ unicode_lower r = 127)) → is_addr ip →
  ∃ an d, system_Walk ip None (GetReturned (inr vars)) = (an, [], inr d) ∧
    ID d = default (IP_String ip) (last (omap says_name vars)) ∧
    ID d ≠ "" ∧ text_ok MaxDeviceIDBytes (ID d) ∧
    (systemWalkAnomalyEmptySysName ∈ an ↔ omap says_name vars = []) ∧
    (systemWalkAnomalyUnknownVendor ∈ an ↔ Vendor d = "unknown") ∧
    Vendor d ∈ "unknown" :: enterprisePrefixes.*2 ∧
    (all_bytes digit_or_dot (OSVersion d) = true ∨ (slen (OSVersion d) ≤ 64)%nat).
Proof.
  intros HU Ha. unfold system_Walk.
  pose proof (system_vars vars (mkDevice (IP_String ip) "unknown" "" "" "" 0 ∅) false) as Hv.
  destruct (fold_left _ _ _) as [d got]. destruct Hv as (HI & -> & HV & HO). simpl in HI, HV, HO.
  eexists _, d. split; [reflexivity|]. split; [done|].
  assert (ID d ≠ "" ∧ text_ok MaxDeviceIDBytes (ID d)) as [Hne Ht].
  { rewrite HI. destruct (last (omap says_name vars)) as [s|] eqn:Hl; simpl; [|by apply ntl_ip].
    apply last_elem, list_elem_of_omap in Hl as (p & _ & Hp). unfold says_name in Hp.
    case_bool_decide; [|done]. case_bool_decide; [|done]. injection Hp as <-.
    split; [done|]. by apply normalised_name_passes_hub. }
  split; [done|]. split; [done|]. split; [|split; [|split]].
  - destruct (omap says_name vars) as [|s l] eqn:Hn.
    + simpl. split; [done|]. intros _. by left.
    + split; [|done]. rewrite last_cons. assert (is_Some (match last l with Some y => Some y | None => Some s end))
        by (destruct (last l); eauto). rewrite bool_decide_eq_true_2 by done.
      simpl. intros Hin. destruct (bool_decide (Vendor d = "unknown")); [|by apply elem_of_nil in Hin].
      by apply list_elem_of_singleton in Hin.
  - split; [|intros ->; apply elem_of_app; right; by left].
    intros [Hin|Hin]%elem_of_app.
    + destruct (false || _); [by apply elem_of_nil in Hin|by apply list_elem_of_singleton in Hin].
    + case_bool_decide; [done|by apply elem_of_nil in Hin].
  - rewrite HV. destruct (last (omap says_vendor vars)) as [v|] eqn:Hl; simpl; [|by left].
    apply last_elem, list_elem_of_omap in Hl as (p & _ & Hp). unfold says_vendor in Hp.
    case_bool_decide; [|done]. injection Hp as <-. apply vendor_known.
  - rewrite HO. destruct (last (omap says_descr vars)) as [s|]; simpl; [|right; lia].
    unfold normalizeSysDescr. destruct (find_version s) as [v|] eqn:Hf; [left; by eapply find_version_digits|].
    right. pose proof (truncate_length s 64). lia.
Qed.

Lemma system_walk_device_witness :
  ∃ an d, system_Walk (U := unicode_table) (N := go_net) [10; 0; 0; 1] None
      (GetReturned (inr [mkPDU ("." +:+ oidSysDescr) (VString "Cisco IOS 15.2(4)")])) = (an, [], inr d) ∧
    ID d = "10.0.0.1" ∧ systemWalkAnomalyEmptySysName ∈ an.
Proof.
  destruct (system_walk_device (H := unicode_table) go_net [10; 0; 0; 1]
    [mkPDU ("." +:+ oidSysDescr) (VString "Cisco IOS 15.2(4)")]) as (an & d & Hw & Hid & _ & _ & He & _).
  - intros r Hr. unfold unicode_lower, unicode_table, in_range.
    repeat (match goal with |- context [if ?b then _ else _] => destruct b eqn:? end); lia.
  - split; [by left|]. repeat constructor; lia.
  - exists an, d. split; [exact Hw|]. split; [rewrite Hid; vm_compute; reflexivity|].
    apply He. vm_compute. reflexivity.
Defined.

(** the description of a device is not sanitised. One without a version number that
    has a line break in its first 64 bytes becomes an OS version the hub refuses, and the
    spoke that polls the device cannot push any more. *)
Theorem sysdescr_defeats_push :
  ∃ d, system_Walk (U := unicode_table) (N := go_net) [10; 0; 0; 1] None
         (GetReturned (inr [mkPDU ("." +:+ oidSysDescr) (VBytes (octet_string [65; 13; 10; 66]))])) =
       ([systemWalkAnomalyEmptySysName; systemWalkAnomalyUnknownVendor], [], inr d) ∧
    (∀ p, d ∈ sp_Devices p → validateSpokePayload (MR := range_std) p ≠ inr tt).
Proof.
  eexists. split; [vm_compute; reflexivity|].
  intros p Hd Hp. apply validateSpokePayload_ok in Hp as [Hds _ _ _].
  rewrite Forall_forall in Hds. apply Hds in Hd as [_ Hf _].
  rewrite Forall_forall in Hf. destruct (Hf (octet_string [65; 13; 10; 66])) as (_ & _ & Hc).
  { do 2 right. by left. }
  specialize (Hc 10 ltac:(lia)). discriminate Hc.
Qed.

(** Privacy without authentication: the session is opened without either. *)
Lemma priv_without_auth `{NetText} p h :
  V3 p = true → AuthProto p = "" → g_MsgFlags (buildClient p h) = NoAuthNoPriv.
Proof. intros Hv Ha. unfold buildClient. by rewrite Hv, Ha. Qed.

(** No number of retries means one: zero cannot be asked for. *)
Example zero_retries_means_one :
  g_Retries (buildClient (H := go_net) (mkParams [10; 0; 0; 1] 0 0 None false "" "" None "" None "" 0) []) = 1.
Proof. reflexivity. Qed.

(** the outcome of a BulkWalk. It yields the variables of the bulk walk, or those of
    the plain walk when the bulk walk failed or panicked; nothing is sent when the
    context has ended or the rate limiter gives up; a panic of either goroutine is
    reported and becomes an error of the walk. *)
Theorem bulkwalk_outcome (e : bulk_env) (pdus : list SnmpPDU) :
  (snmp_BulkWalk e).2 = inr pdus ↔
  be_ctxErr e = None ∧ (∀ err, be_limiter e ≠ Some (inl err)) ∧
  (be_bulk e = Returned (inr pdus) ∨
   ((be_bulk e = Panicked ∨ ∃ err, be_bulk e = Returned (inl err)) ∧
    be_ctxErr2 e = None ∧ be_walk e = Returned (inr pdus))).
Proof.
  unfold snmp_BulkWalk, fallback_walk.
  destruct (be_ctxErr e); [naive_solver|]. destruct (be_limiter e) as [[err|d]|]; [naive_solver| |];
    destruct (be_bulk e) as [[err2|r]| |]; destruct (be_ctxErr2 e); destruct (be_walk e) as [[|]| |]; naive_solver.
Qed.
