(* ===== verification/Bgp.v ===== *)
(** * internal/discovery/bgp: BGP peers

    bgp.go, bgp_v2.go and bgp_vendor.go: the decoders of the vendors' row indices, the
    walk of a vendor table and of the RFC 4273 table, the edges of the established
    peers, and the choice between the tables with the outcomes it records. *)

From Stdlib Require Import ZArith Lia Ascii.
From S2P Require Import Prelude GoText Discovery Limits HubValidate Pdu NetAddr Walker Transport.
Open Scope Z_scope.

Definition walkerVendorCisco : string := "vendor_cisco".
Definition walkerVendorArista : string := "vendor_arista".
Definition walkerVendorJuniper : string := "vendor_juniper".
Definition walkerVendorNokia : string := "vendor_nokia".
Definition walkerRFC4273 : string := "rfc4273".

Definition outcomeEdges : string := "edges".
Definition outcomeMIBUnimplemented : string := "mib_unimplemented".
Definition outcomeNoPeers : string := "no_peers".
Definition outcomeMalformedIndex : string := "malformed_index".
Definition outcomeWalkerDrift : string := "walker_drift".
Definition outcomeError : string := "error".

Definition oidBgpPeerTable : string := "1.3.6.1.2.1.15.3".
Definition bgp_precedenceRank : Z := 7.
Definition colBgpPeerState : Z := 2.
Definition colBgpPeerRemoteAddr : Z := 7.
Definition colBgpPeerRemoteAs : Z := 9.
Definition bgpStateEstablished : Z := 6.
Definition metaKeyRemoteAs : string := "bgp.remote_as".

Definition bgp_form : edge_form :=
  mkForm DiscoveryProtocolBGP bgp_precedenceRank ConfidenceLow AdjacencyUnknown LinkKindIP.

(** ** Row indices (bgp_v2.go) *)

Definition inetAddrTypeIPv4 : Z := 1.
Definition inetAddrTypeIPv6 : Z := 2.

(** The loop of [splitOIDParts]; [cur] is s[start:i]. *)
Fixpoint oid_parts_from (cur s : string) : option (list Z) :=
  let component := if bool_decide (cur = "") then None else Atoi cur in
  match s with
  | "" => (λ n, [n]) <$> component
  | String c s' =>
      if Ascii.eqb c "." then n ← component; cons n <$> oid_parts_from "" s'
      else oid_parts_from (cur +:+ String c "") s'
  end.

Definition splitOIDParts (s : string) : option (list Z) :=
  if bool_decide (s = "") then Some [] else oid_parts_from "" s.

(** The loop over [want] sub-identifiers, each an octet. *)
Fixpoint read_octets (want : nat) (parts : list Z) : option (list Z) :=
  match want, parts with
  | O, _ => Some []
  | S want', b :: parts' =>
      if (b <? 0) || (255 <? b) then None else cons b <$> read_octets want' parts'
  | S _, [] => None
  end.

Definition inet_want (addrType : Z) : option Z :=
  if addrType =? inetAddrTypeIPv4 then Some 4
  else if addrType =? inetAddrTypeIPv6 then Some 16
  else None.

Definition readInetAddrAt (parts : list Z) (pos : Z) : option (list Z * Z) :=
  if (pos <? 0) || (Z.of_nat (length parts) <? pos + 2) then None
  else
    addrType ← parts !! Z.to_nat pos;
    addrLen ← parts !! Z.to_nat (pos + 1);
    let pos := pos + 2 in
    want ← inet_want addrType;
    if negb (addrLen =? want) then None
    else if Z.of_nat (length parts) <? pos + want then None
    else (λ ip, (ip, pos + want)) <$> read_octets (Z.to_nat want) (drop (Z.to_nat pos) parts).

Definition readInetAddrImplicitAt (parts : list Z) (pos : Z) : option (list Z * Z) :=
  if (pos <? 0) || (Z.of_nat (length parts) <=? pos) then None
  else
    addrType ← parts !! Z.to_nat pos;
    let pos := pos + 1 in
    want ← inet_want addrType;
    if Z.of_nat (length parts) <? pos + want then None
    else (λ ip, (ip, pos + want)) <$> read_octets (Z.to_nat want) (drop (Z.to_nat pos) parts).

Definition truncateForLog (s : string) (max : Z) : string :=
  if zlen s <=? max then s
  else
    let cut := sconcat (chunk_bytes <$> take (Z.to_nat max) (chunks s)) in
    if bool_decide (length (chunks s) ≤ Z.to_nat max)%nat || bool_decide (cut = "") then s
    else cut +:+ "...".

(** ** Vendor tables (bgp_vendor.go) *)

Definition decodeCiscoCbgpPeer2Index (suffix : string) : option (list Z) :=
  parts ← splitOIDParts suffix;
  fst <$> readInetAddrAt parts 0.

Definition decodeAristaBgp4v2Index (suffix : string) : option (list Z) :=
  parts ← splitOIDParts suffix;
  if Z.of_nat (length parts) <? 1 then None else fst <$> readInetAddrAt parts 1.

Definition decodeNokiaTBgpPeerNgIndex (suffix : string) : option (list Z) :=
  parts ← splitOIDParts suffix;
  if Z.of_nat (length parts) <? 1 then None else fst <$> readInetAddrAt parts 1.

Definition decodeJuniperJnxBgpM2Index (suffix : string) : option (list Z) :=
  parts ← splitOIDParts suffix;
  if Z.of_nat (length parts) <? 1 then None
  else
    '(_, pos) ← readInetAddrImplicitAt parts 1;
    fst <$> readInetAddrImplicitAt parts pos.

Record vendorTableSpec := mkSpec {
  vt_name : string;
  vt_root : string;
  vt_colState : Z;
  vt_colRemoteAs : Z;
  vt_decodeIndex : string → option (list Z);
  vt_verified : bool
}.

Definition ciscoCbgpPeer2Spec : vendorTableSpec :=
  mkSpec "cisco-cbgpPeer2Table" "1.3.6.1.4.1.9.9.187.1.2.5" 3 11 decodeCiscoCbgpPeer2Index true.
Definition aristaBgp4v2Spec : vendorTableSpec :=
  mkSpec "arista-bgp4v2" "1.3.6.1.4.1.30065.4.1.1.2" 13 10 decodeAristaBgp4v2Index true.
Definition juniperJnxBgpM2PeerSpec : vendorTableSpec :=
  mkSpec "juniper-jnxBgpM2PeerTable" "1.3.6.1.4.1.2636.5.1.1.2.1.1" 2 13 decodeJuniperJnxBgpM2Index true.
Definition nokiaTBgpPeerSpec : vendorTableSpec :=
  mkSpec "nokia-tBgpPeerNgTable" "1.3.6.1.4.1.6527.3.1.2.14.4.7" 59 66 decodeNokiaTBgpPeerNgIndex true.

Definition vendorSpecFor (vendor : string) : option vendorTableSpec :=
  if bool_decide (vendor = "cisco") then Some ciscoCbgpPeer2Spec
  else if bool_decide (vendor = "arista") then Some aristaBgp4v2Spec
  else if bool_decide (vendor = "juniper") then Some juniperJnxBgpM2PeerSpec
  else if bool_decide (vendor = "nokia") || bool_decide (vendor = "alcatel-lucent")
  then Some nokiaTBgpPeerSpec
  else None.

Definition vendorWalkerLabel (specName : string) : string :=
  if bool_decide (specName = vt_name ciscoCbgpPeer2Spec) then walkerVendorCisco
  else if bool_decide (specName = vt_name aristaBgp4v2Spec) then walkerVendorArista
  else if bool_decide (specName = vt_name juniperJnxBgpM2PeerSpec) then walkerVendorJuniper
  else if bool_decide (specName = vt_name nokiaTBgpPeerSpec) then walkerVendorNokia
  else "vendor_unknown".

(** ** Peers *)

Record bgpPeer := mkBgpPeer { bp_state : Z; bp_remoteIP : option (list Z); bp_remoteAs : Z }.
Record vendorPeer := mkVendorPeer { vp_state : Z; vp_remoteAs : Z; vp_peerIP : list Z }.
Record peerRecord := mkPeerRecord {
  pr_key : string;
  pr_ip : option (list Z);
  pr_state : Z;
  pr_remoteAs : Z
}.

(** What the walk reads of snmputil.Params. *)
Record bgp_params := mkBgpParams {
  bp_IP : list Z;
  bp_UseBGPV2MIB : bool;
  bp_Vendor : string;
  bp_limited : bool   (* WarnLimiter is not nil *)
}.

(** The outcome of client.Get for sysObjectID: the variables with whether their Type
    is ObjectIdentifier, or none for an error or a nil packet. *)
Definition oid_get : Type := option (list (bool * SnmpPDU)).

Definition snmpSysObjectIDVendor (get : oid_get) : string :=
  match get with
  | Some ((true, v) :: _) =>
      match pdu_Value v with
      | VString s => VendorFromObjectID s
      | _ => "unknown"
      end
  | _ => "unknown"
  end.

Definition resolveVendor (p : bgp_params) (get : oid_get) : string :=
  if bool_decide (bp_Vendor p ≠ "") then bp_Vendor p else snmpSysObjectIDVendor get.

Section Bgp.
Context `{N : NetText} `{R : MapRange}.

Definition bgp_prefix : string := ".1.3.6.1.2.1.15.3.1.".

(** One variable of bgpPeerTable. *)
Definition bgp_row (p : SnmpPDU) : option (string * (bgpPeer → bgpPeer)) * list walk_event :=
  match TrimOIDPrefix (pdu_Name p) bgp_prefix ≫= SplitOIDComponent with
  | None => (None, [])
  | Some (col, ipKey) =>
      if bool_decide (ipKey = "") then (None, [])
      else if col =? colBgpPeerState then
        match PDUIntStrict p with
        | None => (Some (ipKey, id), [ReportDecodeIssue "bgp" oidBgpPeerTable "peer_state_undecodable" 1])
        | Some s => (Some (ipKey, λ r, mkBgpPeer s (bp_remoteIP r) (bp_remoteAs r)), [])
        end
      else if col =? colBgpPeerRemoteAddr
      then (Some (ipKey, λ r, mkBgpPeer (bp_state r) (PDUIPv4 p) (bp_remoteAs r)), [])
      else if col =? colBgpPeerRemoteAs
      then (Some (ipKey, λ r, mkBgpPeer (bp_state r) (bp_remoteIP r) (PDUInt p)), [])
      else (Some (ipKey, id), [])
  end.

Definition walkBgpPeerTable (s : session) : W (gmap string bgpPeer * bool) :=
  let! pdus := BulkWalk s oidBgpPeerTable in
  let! peers := scan_table (mkBgpPeer 0 None 0) bgp_row pdus in
  W_ret (peers, negb (bool_decide (pdus = []))).

Definition bgp_edge (localDevice : string) (ip : list Z) (remoteAs : Z) (now : time) : Edge :=
  mkEdge localDevice "" (IP_String ip) "" DiscoveryProtocolBGP DirectionUnidirectional
    ConfidenceLow AdjacencyUnknown bgp_precedenceRank LinkKindIP now
    (if 0 <? remoteAs then {[ metaKeyRemoteAs := Itoa remoteAs ]} else ∅).

(** The body of the loop of [buildPeerEdges]. *)
Definition peer_out (localDevice : string) (allowedNets : list IPNet) (now : time) (peer : peerRecord) : row_out :=
  if negb (pr_state peer =? bgpStateEstablished) then RowSkipped
  else match pr_ip peer with
       | None => RowSkipped
       | Some ip =>
           if IsUnspecified ip || IsLinkLocalUnicast ip then RowSkipped
           else if is_OutOfScope ip allowedNets
           then RowOOS (NewOutOfScopeNeighbour "bgp" localDevice "" (IP_String ip) now)
           else RowEdge (bgp_edge localDevice ip (pr_remoteAs peer) now)
       end.

Definition buildPeerEdges (localDevice : string) (peers : list peerRecord) (allowedNets : list IPNet)
    (now : time) : list Edge * list OutOfScopeNeighbour :=
  (collect_rows (peer_out localDevice allowedNets now <$> peers)).1.

Definition bgp_buildEdges (localDevice : string) (peers : gmap string bgpPeer) (allowedNets : list IPNet)
    (now : time) : list Edge * list OutOfScopeNeighbour :=
  buildPeerEdges localDevice
    ((λ kp, mkPeerRecord kp.1 (bp_remoteIP kp.2) (bp_state kp.2) (bp_remoteAs kp.2)) <$> range_map 0 peers)
    allowedNets now.

Definition buildVendorEdges (localDevice : string) (peers : gmap string vendorPeer) (allowedNets : list IPNet)
    (now : time) : list Edge * list OutOfScopeNeighbour :=
  buildPeerEdges localDevice
    ((λ kp, mkPeerRecord kp.1 (Some (vp_peerIP kp.2)) (vp_state kp.2) (vp_remoteAs kp.2)) <$> range_map 1 peers)
    allowedNets now.

(** The variables of the loop of [walkVendorPeerTable]. *)
Record vendor_scan := mkVendorScan {
  vs_peers : gmap string vendorPeer;
  vs_failed : gset string;
  vs_events : list walk_event
}.

Definition vendor_column (spec : vendorTableSpec) (col : Z) (p : SnmpPDU) (peer : vendorPeer) : vendorPeer :=
  if col =? vt_colState spec then mkVendorPeer (PDUInt p) (vp_remoteAs peer) (vp_peerIP peer)
  else if col =? vt_colRemoteAs spec then mkVendorPeer (vp_state peer) (PDUInt p) (vp_peerIP peer)
  else peer.

Definition vendor_step (spec : vendorTableSpec) (st : vendor_scan) (p : SnmpPDU) : vendor_scan :=
  match TrimOIDPrefix (pdu_Name p) ("." +:+ vt_root spec +:+ ".1.") ≫= SplitOIDComponent with
  | None => st
  | Some (col, rest) =>
      if bool_decide (rest = "") then st
      else match vs_peers st !! rest with
           | Some peer => mkVendorScan (<[rest := vendor_column spec col p peer]> (vs_peers st))
                            (vs_failed st) (vs_events st)
           | None =>
               match vt_decodeIndex spec rest with
               | None => mkVendorScan (vs_peers st) ({[ rest ]} ∪ vs_failed st)
                           (vs_events st ++ [EvBGPOutcome (vendorWalkerLabel (vt_name spec)) outcomeMalformedIndex])
               | Some peerIP =>
                   mkVendorScan (<[rest := vendor_column spec col p (mkVendorPeer 0 0 peerIP)]> (vs_peers st))
                     (vs_failed st) (vs_events st)
               end
           end
  end.

(** The peers, hadPDUs, allRowsMalformed and ok. *)
Definition walkVendorPeerTable (spec : vendorTableSpec) (s : session)
  : W (gmap string vendorPeer * bool * bool * bool) :=
  let! pdus := BulkWalk s (vt_root spec) in
  if bool_decide (pdus = []) then W_ret (∅, false, false, false)
  else
    let st := fold_left (vendor_step spec) pdus (mkVendorScan ∅ ∅ []) in
    let! _ := W_emit (vs_events st) in
    if bool_decide (vs_peers st = ∅)
    then W_ret (∅, true, negb (bool_decide (vs_failed st = ∅)), false)
    else W_ret (vs_peers st, true, false, true).

(** None when the table gave no peer row ([ok] is false). *)
Definition walkAndBuildVendorEdges (spec : vendorTableSpec) (s : session) (localDevice : string)
    (allowedNets : list IPNet) (now : time) : W (option (list Edge * list OutOfScopeNeighbour)) :=
  let walker := vendorWalkerLabel (vt_name spec) in
  let! (peers, hadPDUs, allRowsMalformed, ok) :=
    on_error [EvBGPOutcome walker outcomeError] (walkVendorPeerTable spec s) in
  if negb ok then
    let! _ := W_emit [EvBGPOutcome walker
      (if negb hadPDUs then outcomeMIBUnimplemented
       else if allRowsMalformed then outcomeWalkerDrift else outcomeNoPeers)] in
    W_ret None
  else
    let '(edges, oos) := buildVendorEdges localDevice peers allowedNets now in
    let! _ := W_emit [EvBGPOutcome walker
      (if 0 <? Z.of_nat (length edges) then outcomeEdges else outcomeNoPeers)] in
    W_ret (Some (edges, oos)).

(** Step 2 of [Walk]: the RFC 4273 table, with the vendor error kept for the log. *)
Definition rfc_stage (p : bgp_params) (s : session) (vendorErr : option (vendorTableSpec * walk_error))
    (localDevice : string) (allowedNets : list IPNet) (now : time)
  : W (list Edge * list OutOfScopeNeighbour) :=
  let! (peers, hadPDUs) := on_error [EvBGPOutcome walkerRFC4273 outcomeError] (walkBgpPeerTable s) in
  let '(edges, oos) := bgp_buildEdges localDevice peers allowedNets now in
  let! _ := W_emit [EvBGPOutcome walkerRFC4273
    (if 0 <? Z.of_nat (length edges) then outcomeEdges
     else if hadPDUs then outcomeNoPeers else outcomeMIBUnimplemented)] in
  let! _ := W_emit
    (match vendorErr with
     | Some (spec, _) =>
         let key := "bgp_vendor_walk_fallback|" +:+ IP_String (bp_IP p) +:+ "|" +:+ vt_name spec in
         [EvWarn (if bp_limited p then Some key else None)]
     | None => []
     end) in
  W_ret (edges, oos).

Definition bgp_spec (p : bgp_params) (get : oid_get) : option vendorTableSpec :=
  if bp_UseBGPV2MIB p then vendorSpecFor (resolveVendor p get) else None.

Definition bgp_Walk (p : bgp_params) (acquired : walk_error + session) (get : oid_get) (localDevice : string)
    (allowedNets : list IPNet) (now : time) : W (list Edge * list OutOfScopeNeighbour) :=
  with_session [] acquired (λ s,
    match bgp_spec p get with
    | Some spec =>
        let! r := W_try (walkAndBuildVendorEdges spec s localDevice allowedNets now) in
        match r with
        | inl err => rfc_stage p s (Some (spec, err)) localDevice allowedNets now
        | inr (Some res) => W_ret res
        | inr None => rfc_stage p s None localDevice allowedNets now
        end
    | None => rfc_stage p s None localDevice allowedNets now
    end).
End Bgp.

(** ** Lemmas on the row indices *)

Lemma oid_parts_component cur s r :
  has_byte "."%char s = false → oid_parts_from cur (s +:+ r) = oid_parts_from (cur +:+ s) r.
Proof.
  revert cur. induction s as [|c s IH]; intros cur; [by rewrite sapp_nil_r|].
  simpl. intros [Hc Hs]%orb_false_iff. rewrite Hc, IH by done. by rewrite sapp_assoc.
Qed.

Lemma Itoa_nonempty z : Itoa z ≠ "".
Proof.
  unfold Itoa. destruct z as [|p|p]; [done| |done]. apply (pretty_N_nonempty (N.pos p)).
Qed.

Definition is_int (z : Z) : Prop := MinInt ≤ z ≤ MaxInt.

Lemma oid_parts_dotted z l :
  is_int z → Forall is_int l → oid_parts_from "" (dotted (z :: l)) = Some (z :: l).
Proof.
  intros Hz Hl. revert z Hz. induction Hl as [|y l Hy Hl IH]; intros z Hz; unfold dotted; cbn [fmap list_fmap strings_Join].
  - rewrite <- (sapp_nil_r (Itoa z)) at 1. rewrite oid_parts_component by apply Itoa_no_dot.
    cbn [oid_parts_from]. rewrite sapp_nil_l, bool_decide_eq_false_2 by apply Itoa_nonempty. by rewrite Atoi_Itoa.
  - rewrite oid_parts_component by apply Itoa_no_dot. rewrite sapp_cons. cbn [oid_parts_from].
    rewrite !sapp_nil_l, bool_decide_eq_false_2, Ascii.eqb_refl, Atoi_Itoa by (done || apply Itoa_nonempty).
    cbn [mbind option_bind]. specialize (IH y Hy). unfold dotted in IH.
    cbn [fmap list_fmap strings_Join] in IH. by rewrite IH.
Qed.

Lemma splitOIDParts_dotted l : Forall is_int l → splitOIDParts (dotted l) = Some l.
Proof.
  intros Hl. unfold splitOIDParts. destruct Hl as [|z l Hz Hl]; [done|].
  rewrite bool_decide_eq_false_2; [by apply oid_parts_dotted|].
  unfold dotted. cbn [fmap list_fmap strings_Join]. pose proof (Itoa_nonempty z).
  destruct (Itoa z); [done|]. destruct (Itoa <$> l); done.
Qed.

Lemma read_octets_app ip rest :
  Forall (λ b, 0 ≤ b < 256) ip → read_octets (length ip) (ip ++ rest) = Some ip.
Proof.
  induction 1 as [|b ip Hb Hip IH]; [done|]. simpl.
  replace (b <? 0) with false by lia. replace (255 <? b) with false by lia. simpl. by rewrite IH.
Qed.

Lemma read_octets_sound n l ip :
  read_octets n l = Some ip → length ip = n ∧ Forall (λ b, 0 ≤ b < 256) ip ∧ ∃ rest, l = ip ++ rest.
Proof.
  revert l ip. induction n as [|n IH]; intros l ip; simpl.
  { intros [= <-]. by eauto. }
  destruct l as [|b l]; [done|]. destruct (_ || _) eqn:E; [done|].
  intros (ip' & Hr & ->)%fmap_Some. apply IH in Hr as (<- & Hf & rest & ->). bprop.
  split; [done|]. split; [constructor; [lia|done]|]. by exists rest.
Qed.

(** The index encodings of RFC 4001: with and without the length. *)
Definition inet_type (ip : list Z) : Z := if bool_decide (length ip = 4%nat) then 1 else 2.
Definition inet_index (ip : list Z) : list Z := inet_type ip :: Z.of_nat (length ip) :: ip.
Definition inet_implicit (ip : list Z) : list Z := inet_type ip :: ip.

Lemma inet_want_type ip : is_addr ip → inet_want (inet_type ip) = Some (Z.of_nat (length ip)).
Proof. intros [[H|H] _]; unfold inet_type; rewrite H; reflexivity. Qed.

Lemma is_addr_int ip : is_addr ip → Forall is_int ip.
Proof. intros [_ Hf]. eapply Forall_impl; [exact Hf|]. unfold is_int, MinInt, MaxInt. simpl. intros. lia. Qed.

Lemma inet_index_int ip : is_addr ip → Forall is_int (inet_index ip).
Proof.
  intros Ha. unfold inet_index. repeat constructor; [..|by apply is_addr_int];
    unfold inet_type, is_int, MinInt, MaxInt; destruct Ha as [[->| ->] _]; simpl; lia.
Qed.

Lemma inet_implicit_int ip : is_addr ip → Forall is_int (inet_implicit ip).
Proof. intros Ha%inet_index_int. inversion Ha as [|? ? ? Hl]; subst. inversion Hl; subst. by constructor. Qed.

Lemma readInetAddrAt_index pre ip rest :
  is_addr ip →
  readInetAddrAt (pre ++ inet_index ip ++ rest) (Z.of_nat (length pre)) =
  Some (ip, Z.of_nat (length pre) + 2 + Z.of_nat (length ip)).
Proof.
  intros Ha. unfold readInetAddrAt, inet_index. rewrite !length_app. simpl length.
  destruct (_ || _) eqn:E; [apply orb_true_iff in E as [E|E]; bprop; lia|clear E].
  rewrite <- !app_comm_cons, Nat2Z.id, (list_lookup_middle _ _ _ (length pre) eq_refl). cbn [mbind option_bind].
  replace (Z.to_nat (Z.of_nat (length pre) + 1)) with (length pre + 1)%nat by lia.
  rewrite lookup_app_r by lia. replace (length pre + 1 - length pre)%nat with 1%nat by lia. simpl.
  rewrite inet_want_type by done. cbn [mbind option_bind]. rewrite Z.eqb_refl. cbn [negb].
  destruct (_ <? _) eqn:E; [bprop; lia|clear E].
  replace (Z.to_nat (Z.of_nat (length pre) + 2)) with (length pre + 2)%nat by lia.
  rewrite drop_app_ge by lia. replace (length pre + 2 - length pre)%nat with 2%nat by lia.
  simpl. rewrite Nat2Z.id, drop_0, read_octets_app by apply Ha. done.
Qed.

Lemma readInetAddrImplicitAt_index pre ip rest :
  is_addr ip →
  readInetAddrImplicitAt (pre ++ inet_implicit ip ++ rest) (Z.of_nat (length pre)) =
  Some (ip, Z.of_nat (length (pre ++ inet_implicit ip))).
Proof.
  intros Ha. unfold readInetAddrImplicitAt, inet_implicit. rewrite !length_app. simpl length.
  destruct (_ || _) eqn:E; [apply orb_true_iff in E as [E|E]; bprop; lia|clear E].
  rewrite <- !app_comm_cons, Nat2Z.id, (list_lookup_middle _ _ _ (length pre) eq_refl). cbn [mbind option_bind].
  rewrite inet_want_type by done. cbn [mbind option_bind].
  destruct (_ <? _) eqn:E; [bprop; lia|clear E].
  replace (Z.to_nat (Z.of_nat (length pre) + 1)) with (length pre + 1)%nat by lia.
  rewrite drop_app_ge by lia. replace (length pre + 1 - length pre)%nat with 1%nat by lia.
  simpl. rewrite Nat2Z.id, drop_0, read_octets_app by apply Ha. simpl. do 2 f_equal. lia.
Qed.

Lemma inet_want_cases t w : inet_want t = Some w → w = 4 ∨ w = 16.
Proof. unfold inet_want. split_ifs; intros [= <-]; auto. Qed.

Lemma octets_addr w l ip : w = 4 ∨ w = 16 → read_octets (Z.to_nat w) l = Some ip → is_addr ip.
Proof. intros Hw (Hl & Hf & _)%read_octets_sound. split; [|done]. destruct Hw as [-> | ->]; auto. Qed.

Lemma readInetAddrAt_addr parts pos ip pos' : readInetAddrAt parts pos = Some (ip, pos') → is_addr ip.
Proof.
  unfold readInetAddrAt. destruct (_ || _); [done|].
  intros (t & _ & (len & _ & (w & Hw%inet_want_cases & H)%bind_Some)%bind_Some)%bind_Some.
  destruct (negb _); [done|]. destruct (_ <? _); [done|].
  apply fmap_Some in H as (ip' & Hr & [= -> _]). by eapply octets_addr.
Qed.

Lemma readInetAddrImplicitAt_addr parts pos ip pos' :
  readInetAddrImplicitAt parts pos = Some (ip, pos') → is_addr ip.
Proof.
  unfold readInetAddrImplicitAt. destruct (_ || _); [done|].
  intros (t & _ & (w & Hw%inet_want_cases & H)%bind_Some)%bind_Some.
  destruct (_ <? _); [done|].
  apply fmap_Some in H as (ip' & Hr & [= -> _]). by eapply octets_addr.
Qed.

(** Whatever the index, a decoded peer is an IPv4 or IPv6 address. *)
Lemma vendor_index_addr vendor spec key ip :
  vendorSpecFor vendor = Some spec → vt_decodeIndex spec key = Some ip → is_addr ip.
Proof.
  unfold vendorSpecFor. intros Hs Hd.
  destruct (bool_decide _); [|destruct (bool_decide _); [|destruct (bool_decide _); [|destruct (_ || _); [|done]]]];
    injection Hs as <-; simpl in Hd; apply bind_Some in Hd as (parts & _ & Hd);
    try (destruct (_ <? _); [done|]).
  3: apply bind_Some in Hd as ([? pos] & _ & Hd).
  all: apply fmap_Some in Hd as ([ip' ?] & Hr & ->);
    first [by eapply readInetAddrAt_addr|by eapply readInetAddrImplicitAt_addr].
Qed.

(** ** What the tables say *)

Section Tables.
Context `{N : NetText} `{R : MapRange}.

(** The column and the row of a variable of the vendor table. *)
Definition vendor_cell (spec : vendorTableSpec) (p : SnmpPDU) : option (Z * string) :=
  '(col, rest) ← TrimOIDPrefix (pdu_Name p) ("." +:+ vt_root spec +:+ ".1.") ≫= SplitOIDComponent;
  if bool_decide (rest = "") then None else Some (col, rest).

(** A variable names a row whose index decodes, or one whose index does not. *)
Definition names_peer (spec : vendorTableSpec) (p : SnmpPDU) : bool :=
  bool_decide (is_Some ('(_, key) ← vendor_cell spec p; vt_decodeIndex spec key)).

Definition names_malformed (spec : vendorTableSpec) (p : SnmpPDU) : bool :=
  match vendor_cell spec p with
  | Some (_, key) => bool_decide (vt_decodeIndex spec key = None)
  | None => false
  end.

Definition vendor_says (spec : vendorTableSpec) (col : Z) (p : SnmpPDU) : option (string * Z) :=
  '(c, key) ← vendor_cell spec p;
  _ ← vt_decodeIndex spec key;
  if c =? col then Some (key, PDUInt p) else None.

(** The last value the table gives for a column of a row. *)
Definition vendor_value (spec : vendorTableSpec) (col : Z) (pdus : list SnmpPDU) (key : string) : Z :=
  default 0 (last (omap (set_at (vendor_says spec col) key) pdus)).

Definition rfc_cell (p : SnmpPDU) : option (Z * string) :=
  '(col, key) ← TrimOIDPrefix (pdu_Name p) bgp_prefix ≫= SplitOIDComponent;
  if bool_decide (key = "") then None else Some (col, key).

Definition rfc_says {F} (col : Z) (decode : SnmpPDU → option F) (p : SnmpPDU) : option (string * F) :=
  '(c, key) ← rfc_cell p;
  if c =? col then pair key <$> decode p else None.

Definition rfc_value {F} (col : Z) (decode : SnmpPDU → option F) (d : F) (pdus : list SnmpPDU) (key : string) : F :=
  default d (last (omap (set_at (rfc_says col decode) key) pdus)).

(** The vendor table in use: the device's vendor has one, it answers, and at least one
    of its rows has an index that decodes. *)
Definition vendor_source (p : bgp_params) (get : oid_get) (s : session) : option (vendorTableSpec * list SnmpPDU) :=
  spec ← bgp_spec p get;
  match s (vt_root spec) with
  | inr pdus => if existsb (names_peer spec) pdus then Some (spec, pdus) else None
  | inl _ => None
  end.

(** [peer_of p get s ip state as]: the table in use lists the peer [ip]. *)
Inductive peer_of (p : bgp_params) (get : oid_get) (s : session) : list Z → Z → Z → Prop :=
  | peer_vendor spec pdus key ip :
      vendor_source p get s = Some (spec, pdus) → vt_decodeIndex spec key = Some ip →
      peer_of p get s ip (vendor_value spec (vt_colState spec) pdus key)
        (vendor_value spec (vt_colRemoteAs spec) pdus key)
  | peer_rfc pdus key ip :
      vendor_source p get s = None → s oidBgpPeerTable = inr pdus →
      rfc_value colBgpPeerRemoteAddr (λ p, Some (PDUIPv4 p)) None pdus key = Some ip →
      peer_of p get s ip (rfc_value colBgpPeerState PDUIntStrict 0 pdus key)
        (rfc_value colBgpPeerRemoteAs (λ p, Some (PDUInt p)) 0 pdus key).

(** ** Lemmas *)

Lemma peer_out_edge local nets now r e :
  peer_out local nets now r = RowEdge e ↔
  ∃ ip, pr_ip r = Some ip ∧ pr_state r = bgpStateEstablished ∧ IsUnspecified ip = false ∧
    IsLinkLocalUnicast ip = false ∧ is_OutOfScope ip nets = false ∧ e = bgp_edge local ip (pr_remoteAs r) now.
Proof.
  unfold peer_out. destruct (Z.eqb_spec (pr_state r) bgpStateEstablished) as [E|E]; simpl; [|naive_solver].
  destruct (pr_ip r) as [ip|]; [|naive_solver].
  destruct (IsUnspecified ip) eqn:E1, (IsLinkLocalUnicast ip) eqn:E2; simpl; try naive_solver congruence.
  destruct (is_OutOfScope ip nets) eqn:E3; naive_solver congruence.
Qed.

Lemma peer_out_walked local nets now r : out_walked bgp_form local now (peer_out local nets now r).
Proof.
  unfold peer_out. destruct (negb _); [done|]. destruct (pr_ip r); [|done]. by split_ifs.
Qed.

Definition no_peer : vendorPeer := mkVendorPeer 0 0 [].

(** The vendor table as a table of rows. *)
Definition vendor_row (spec : vendorTableSpec) (p : SnmpPDU)
  : option (string * (vendorPeer → vendorPeer)) * list walk_event :=
  match vendor_cell spec p with
  | None => (None, [])
  | Some (col, key) =>
      match vt_decodeIndex spec key with
      | None => (None, [EvBGPOutcome (vendorWalkerLabel (vt_name spec)) outcomeMalformedIndex])
      | Some ip => (Some (key, λ r, vendor_column spec col p (mkVendorPeer (vp_state r) (vp_remoteAs r) ip)), [])
      end
  end.

Lemma vendor_column_ip spec col p r : vp_peerIP (vendor_column spec col p r) = vp_peerIP r.
Proof. unfold vendor_column. by split_ifs. Qed.

Record scan_rel (spec : vendorTableSpec) (pdus : list SnmpPDU) (st : vendor_scan) : Prop := {
  sr_peers : vs_peers st = fold_left (table_step no_peer (vendor_row spec)) pdus ∅;
  sr_ips : ∀ k r, vs_peers st !! k = Some r → vt_decodeIndex spec k = Some (vp_peerIP r);
  sr_events : vs_events st = pdus ≫= λ p, (vendor_row spec p).2;
  sr_failed : vs_failed st = ∅ ↔ existsb (names_malformed spec) pdus = false
}.

Lemma scan_rel_step spec pdus st p :
  scan_rel spec pdus st → scan_rel spec (pdus ++ [p]) (vendor_step spec st p).
Proof.
  intros [Hp Hi He Hf].
  assert (vendor_step spec st p = match vendor_cell spec p with
    | None => st
    | Some (col, key) =>
        match vs_peers st !! key with
        | Some peer => mkVendorScan (<[key := vendor_column spec col p peer]> (vs_peers st)) (vs_failed st) (vs_events st)
        | None => match vt_decodeIndex spec key with
            | None => mkVendorScan (vs_peers st) ({[ key ]} ∪ vs_failed st)
                        (vs_events st ++ [EvBGPOutcome (vendorWalkerLabel (vt_name spec)) outcomeMalformedIndex])
            | Some ip => mkVendorScan (<[key := vendor_column spec col p (mkVendorPeer 0 0 ip)]> (vs_peers st))
                        (vs_failed st) (vs_events st)
            end
        end end) as ->.
  { unfold vendor_step, vendor_cell. destruct (_ ≫= SplitOIDComponent) as [[col key]|]; [|done]. simpl.
    by case_bool_decide. }
  assert (fold_left (table_step no_peer (vendor_row spec)) (pdus ++ [p]) ∅ =
    table_step no_peer (vendor_row spec) (vs_peers st) p) as Hfold by (rewrite fold_left_app, Hp; done).
  assert (((pdus ++ [p]) ≫= λ p, (vendor_row spec p).2) = vs_events st ++ (vendor_row spec p).2) as Hev.
  { rewrite bind_app, He. simpl. by rewrite app_nil_r. }
  assert (existsb (names_malformed spec) (pdus ++ [p]) =
    existsb (names_malformed spec) pdus || names_malformed spec p) as Hm.
  { rewrite existsb_app. simpl. by rewrite orb_false_r. }
  unfold table_step, upsert in Hfold. unfold names_malformed in Hm at 3. unfold vendor_row in Hfold, Hev at 2.
  destruct (vendor_cell spec p) as [[col key]|]; simpl in Hfold, Hev.
  2: { rewrite app_nil_r in Hev. rewrite orb_false_r in Hm. by constructor; rewrite ?Hfold, ?Hev, ?Hm. }
  destruct (vs_peers st !! key) as [peer|] eqn:Hk.
  - pose proof (Hi _ _ Hk) as Hd. rewrite Hd in Hfold, Hev, Hm. simpl in Hfold, Hev, Hm.
    rewrite app_nil_r in Hev. rewrite orb_false_r in Hm. rewrite Hk in Hfold. simpl in Hfold.
    replace (mkVendorPeer (vp_state peer) (vp_remoteAs peer) (vp_peerIP peer)) with peer in Hfold by (by destruct peer).
    constructor; simpl; rewrite ?Hfold, ?Hev, ?Hm; try done.
    intros k r [[<- <-]|[_ Hr]]%lookup_insert_Some; [by rewrite vendor_column_ip|by apply Hi].
  - destruct (vt_decodeIndex spec key) as [ip|] eqn:Hd; simpl in Hfold, Hev, Hm.
    + rewrite app_nil_r in Hev. rewrite orb_false_r in Hm. rewrite Hk in Hfold. simpl in Hfold.
      constructor; simpl; rewrite ?Hfold, ?Hev, ?Hm; try done.
      intros k r [[<- <-]|[_ Hr]]%lookup_insert_Some; [by rewrite vendor_column_ip|by apply Hi].
    + rewrite orb_true_r in Hm. constructor; simpl; rewrite ?Hfold, ?Hev, ?Hm; try done. set_solver.
Qed.

Lemma vendor_scan_rel spec pdus : scan_rel spec pdus (fold_left (vendor_step spec) pdus (mkVendorScan ∅ ∅ [])).
Proof.
  induction pdus as [|p pdus IH] using rev_ind; [by constructor|].
  rewrite fold_left_app. by apply scan_rel_step.
Qed.

Lemma spec_columns vendor spec : vendorSpecFor vendor = Some spec → vt_colState spec ≠ vt_colRemoteAs spec.
Proof.
  unfold vendorSpecFor.
  destruct (bool_decide _); [|destruct (bool_decide _); [|destruct (bool_decide _); [|destruct (_ || _); [|done]]]];
    by intros [= <-].
Qed.

(** A row of the vendor table holds the last state and AS number it was given. *)
Lemma vendor_rows spec pdus key r :
  vt_colState spec ≠ vt_colRemoteAs spec →
  fold_left (table_step no_peer (vendor_row spec)) pdus ∅ !! key = Some r →
  vp_state r = vendor_value spec (vt_colState spec) pdus key ∧
  vp_remoteAs r = vendor_value spec (vt_colRemoteAs spec) pdus key.
Proof.
  intros Hne Hr. set (rows := fold_left _ pdus ∅) in Hr.
  replace r with (default no_peer (rows !! key)) by (by rewrite Hr). subst rows. split.
  - refine (scan_field no_peer (vendor_row spec) vp_state (vendor_says spec (vt_colState spec)) _ pdus key).
    intros p. unfold vendor_row, vendor_says, vendor_column.
    destruct (vendor_cell spec p) as [[col k]|]; [|done]. simpl.
    destruct (vt_decodeIndex spec k); [|done]. simpl.
    destruct (col =? vt_colState spec); [right; eauto|]. left. split; [done|]. intros r'. by split_ifs.
  - refine (scan_field no_peer (vendor_row spec) vp_remoteAs (vendor_says spec (vt_colRemoteAs spec)) _ pdus key).
    intros p. unfold vendor_row, vendor_says, vendor_column.
    destruct (vendor_cell spec p) as [[col k]|]; [|done]. simpl.
    destruct (vt_decodeIndex spec k); [|done]. simpl.
    destruct (col =? vt_colState spec) eqn:E1.
    + bprop. subst col. rewrite (proj2 (Z.eqb_neq _ _) Hne). by left.
    + destruct (col =? vt_colRemoteAs spec); [right; eauto|by left].
Qed.

Lemma bgp_rows pdus key :
  default (mkBgpPeer 0 None 0) (fold_left (table_step (mkBgpPeer 0 None 0) bgp_row) pdus ∅ !! key) =
  mkBgpPeer (rfc_value colBgpPeerState PDUIntStrict 0 pdus key)
    (rfc_value colBgpPeerRemoteAddr (λ p, Some (PDUIPv4 p)) None pdus key)
    (rfc_value colBgpPeerRemoteAs (λ p, Some (PDUInt p)) 0 pdus key).
Proof.
  set (row := default _ _).
  assert (bp_state row = rfc_value colBgpPeerState PDUIntStrict 0 pdus key ∧
    bp_remoteIP row = rfc_value colBgpPeerRemoteAddr (λ p, Some (PDUIPv4 p)) None pdus key ∧
    bp_remoteAs row = rfc_value colBgpPeerRemoteAs (λ p, Some (PDUInt p)) 0 pdus key) as (<- & <- & <-);
    [|by destruct row].
  split_and!;
    [refine (scan_field _ bgp_row bp_state (rfc_says colBgpPeerState PDUIntStrict) _ pdus key)
    |refine (scan_field _ bgp_row bp_remoteIP (rfc_says colBgpPeerRemoteAddr (λ p, Some (PDUIPv4 p))) _ pdus key)
    |refine (scan_field _ bgp_row bp_remoteAs (rfc_says colBgpPeerRemoteAs (λ p, Some (PDUInt p))) _ pdus key)];
    intros p; unfold bgp_row, rfc_says, rfc_cell;
    (destruct (_ ≫= SplitOIDComponent) as [[col k]|]; [|done]); simpl; (case_bool_decide; [done|]);
    cbn [mbind option_bind];
    repeat (match goal with |- context [col =? ?c] => destruct (Z.eqb_spec col c) as [->|] end);
    try done; try (destruct (PDUIntStrict p)); try (by left); right; eauto.
Qed.

Lemma scan_peers_empty spec pdus :
  fold_left (table_step no_peer (vendor_row spec)) pdus ∅ = ∅ ↔ existsb (names_peer spec) pdus = false.
Proof.
  assert (∀ p, names_peer spec p = true ↔ ∃ k f, (vendor_row spec p).1 = Some (k, f)) as Hn.
  { intros p. unfold names_peer, vendor_row. rewrite bool_decide_eq_true.
    destruct (vendor_cell spec p) as [[col k]|]; simpl; [|by split; [intros []|intros (? & ? & ?)]].
    destruct (vt_decodeIndex spec k); simpl; split; eauto; [by intros []|by intros (? & ? & ?)]. }
  split.
  - intros He. apply not_true_is_false. intros (p & Hp & (k & f & Hr)%Hn)%existsb_elem.
    assert (is_Some (fold_left (table_step no_peer (vendor_row spec)) pdus ∅ !! k)) as [? Hx].
    { apply scan_rows. eauto. }
    by rewrite He, lookup_empty in Hx.
  - intros He. apply map_empty. intros k. apply eq_None_not_Some. intros (p & f & Hp & Hr)%scan_rows.
    assert (existsb (names_peer spec) pdus = true) as Ht; [|congruence].
    apply existsb_elem. exists p. split; [done|]. apply Hn. eauto.
Qed.

(** The bucket of a vendor walk. *)
Definition vendor_bucket (spec : vendorTableSpec) (s : session) (local : string) (nets : list IPNet)
    (now : time) : string :=
  match s (vt_root spec) with
  | inl _ => outcomeError
  | inr [] => outcomeMIBUnimplemented
  | inr pdus =>
      if existsb (names_peer spec) pdus then
        if bool_decide ((buildVendorEdges local
             (fold_left (table_step no_peer (vendor_row spec)) pdus ∅) nets now).1 = [])
        then outcomeNoPeers else outcomeEdges
      else if existsb (names_malformed spec) pdus then outcomeWalkerDrift else outcomeNoPeers
  end.

Definition malformed_events (spec : vendorTableSpec) (s : session) : list walk_event :=
  match s (vt_root spec) with
  | inl _ => []
  | inr pdus => pdus ≫= λ p, (vendor_row spec p).2
  end.

Lemma length_pos_bool {A} (l : list A) (x y : string) :
  (if 0 <? Z.of_nat (length l) then x else y) = (if bool_decide (l = []) then y else x).
Proof. by destruct l. Qed.

(** A vendor walk: its value and what it records. *)
Lemma vendor_walk spec s local nets now :
  walkAndBuildVendorEdges spec s local nets now =
  (malformed_events spec s ++ [EvBGPOutcome (vendorWalkerLabel (vt_name spec)) (vendor_bucket spec s local nets now)],
   match s (vt_root spec) with
   | inl err => inl err
   | inr pdus => inr (if existsb (names_peer spec) pdus
                      then Some (buildVendorEdges local (fold_left (table_step no_peer (vendor_row spec)) pdus ∅) nets now)
                      else None)
   end).
Proof.
  unfold walkAndBuildVendorEdges, walkVendorPeerTable, BulkWalk, malformed_events, vendor_bucket.
  destruct (s (vt_root spec)) as [err|pdus]; [done|].
  destruct (decide (pdus = [])) as [->|Hne]; [done|].
  cbn [W_bind]. rewrite bool_decide_eq_false_2 by done.
  destruct (vendor_scan_rel spec pdus) as [Hp _ He Hf]. set (st := fold_left _ pdus _) in *.
  rewrite He, Hp. clearbody st. clear He.
  destruct (existsb (names_peer spec) pdus) eqn:Hx.
  - rewrite bool_decide_eq_false_2.
    2: { intros Hem%scan_peers_empty. congruence. }
    cbn [W_bind W_emit W_ret on_error negb app]. destruct (buildVendorEdges _ _ _ _) as [es oos].
    cbn [W_bind W_emit W_ret fst]. rewrite !app_nil_r, length_pos_bool. by destruct pdus.
  - rewrite bool_decide_eq_true_2 by by apply scan_peers_empty.
    simpl. rewrite !app_nil_r. destruct pdus as [|p pdus]; [done|].
    destruct (existsb (names_malformed spec) (p :: pdus)) eqn:Hb.
    + rewrite bool_decide_eq_false_2; [done|]. intros Hem%Hf. congruence.
    + rewrite bool_decide_eq_true_2; [done|by apply Hf].
Qed.
Lemma bgp_spec_columns p get spec : bgp_spec p get = Some spec → vt_colState spec ≠ vt_colRemoteAs spec.
Proof. unfold bgp_spec. destruct (bp_UseBGPV2MIB p); [|done]. apply spec_columns. Qed.

Lemma vendor_source_Some p get s spec pdus :
  vendor_source p get s = Some (spec, pdus) →
  bgp_spec p get = Some spec ∧ s (vt_root spec) = inr pdus ∧ existsb (names_peer spec) pdus = true.
Proof.
  unfold vendor_source. intros (spec' & Hsp & Hv)%bind_Some.
  destruct (s (vt_root spec')) as [|pdus'] eqn:Hs; [done|]. destruct (existsb _ pdus') eqn:Hx; [|done].
  by injection Hv as <- <-.
Qed.

(** The edges of the vendor table in use. *)
Lemma vendor_edges_exact p get s spec pdus local nets now es oos :
  vendor_source p get s = Some (spec, pdus) →
  buildVendorEdges local (fold_left (table_step no_peer (vendor_row spec)) pdus ∅) nets now = (es, oos) →
  ∀ e, e ∈ es ↔ ∃ ip remoteAs, peer_of p get s ip bgpStateEstablished remoteAs ∧
      IsUnspecified ip = false ∧ IsLinkLocalUnicast ip = false ∧ is_OutOfScope ip nets = false ∧
      e = bgp_edge local ip remoteAs now.
Proof.
  intros Hv Hb e. destruct (vendor_source_Some _ _ _ _ _ Hv) as (Hsp%bgp_spec_columns & _ & _).
  destruct (vendor_scan_rel spec pdus) as [Hp Hi _ _]. rewrite Hp in Hi. set (rows := fold_left _ pdus ∅) in *.
  injection Hb as <- <-. rewrite elem_of_out_edges, list_elem_of_fmap. split.
  - intros (r & He & ([key row] & -> & Hr%elem_of_range)%list_elem_of_fmap). symmetry in He.
    apply peer_out_edge in He as (ip & [= <-] & Hst & Hu & Hl & Ho & ->).
    destruct (vendor_rows spec pdus key row Hsp Hr) as [Hs Ha]. simpl in Hst.
    eexists _, _. split; [|by eauto]. simpl. rewrite <- Hst, Hs, Ha. econstructor; [done|]. by apply Hi.
  - intros (ip & ras & Hpo & Hu & Hl & Ho & ->).
    inversion Hpo as [spec' pdus' key ip' Hv' Hd Hip Hst Has|]; subst; [|congruence].
    rewrite Hv in Hv'. injection Hv' as <- <-.
    destruct (rows !! key) as [row|] eqn:Hr.
    + destruct (vendor_rows spec pdus key row Hsp Hr) as [Hs Ha].
      eexists. split; [|apply list_elem_of_fmap; exists (key, row); split; [done|by apply elem_of_range]].
      symmetry. apply peer_out_edge. exists ip. simpl. rewrite Hs, Ha, Hst.
      apply Hi in Hr. split_and!; try done. congruence.
    + exfalso. assert (vendor_value spec (vt_colState spec) pdus key = 0) as Hz; [|by rewrite Hz in Hst].
      unfold vendor_value. destruct (last _) as [v|] eqn:Hla; [|done]. exfalso.
      apply last_Some_elem_of, list_elem_of_omap in Hla as (q & Hq & Hset).
      assert (is_Some (rows !! key)) as [? ?]; [|congruence]. apply scan_rows. exists q.
      unfold set_at, vendor_says in Hset. unfold vendor_row.
      destruct (vendor_cell spec q) as [[c k]|]; [|done]. simpl in Hset.
      destruct (vt_decodeIndex spec k); [|done]. simpl in Hset. destruct (c =? _); [|done].
      destruct (decide (k = key)) as [->|]; [|done]. eexists. by split.
Qed.

(** The edges of the RFC 4273 table. *)
Lemma rfc_stage_exact p get s verr pdus local nets now :
  vendor_source p get s = None → s oidBgpPeerTable = inr pdus →
  ∃ es oos, W_value (rfc_stage p s verr local nets now) = inr (es, oos) ∧
    ∀ e, e ∈ es ↔ ∃ ip remoteAs, peer_of p get s ip bgpStateEstablished remoteAs ∧
      IsUnspecified ip = false ∧ IsLinkLocalUnicast ip = false ∧ is_OutOfScope ip nets = false ∧
      e = bgp_edge local ip remoteAs now.
Proof.
  intros Hn Hs. unfold rfc_stage, walkBgpPeerTable, BulkWalk. rewrite Hs. cbn [W_bind scan_table W_ret on_error].
  set (rows := fold_left _ pdus ∅). destruct (bgp_buildEdges local rows nets now) as [es oos] eqn:Hb.
  exists es, oos. split; [done|]. injection Hb as <- <-. intros e. rewrite elem_of_out_edges, list_elem_of_fmap.
  pose proof (bgp_rows pdus) as Hrows. fold rows in Hrows. split.
  - intros (r & He & ([key row] & -> & Hr%elem_of_range)%list_elem_of_fmap). symmetry in He.
    apply peer_out_edge in He as (ip & Hip & Hst & Hu & Hl & Ho & ->).
    specialize (Hrows key). rewrite Hr in Hrows. simpl in Hrows, Hip, Hst. subst row. simpl in *.
    eexists _, _. split; [|by eauto]. rewrite <- Hst. by econstructor.
  - intros (ip & ras & Hpo & Hu & Hl & Ho & ->).
    inversion Hpo as [|pdus' key ip' Hn' Hs' Hip Hip' Hst Has]; subst; [congruence|].
    rewrite Hs in Hs'. injection Hs' as <-. specialize (Hrows key).
    destruct (rows !! key) as [row|] eqn:Hr; simpl in Hrows.
    + eexists. split; [|apply list_elem_of_fmap; exists (key, row); split; [done|by apply elem_of_range]].
      symmetry. apply peer_out_edge. exists ip. subst row. by split_and!.
    + congruence.
Qed.
(** ** Outcomes *)

(** The outcomes that end a walker's run; malformed_index counts variables. *)
Definition terminal (ev : walk_event) : option (string * string) :=
  match ev with
  | EvBGPOutcome walker outcome => if bool_decide (outcome = outcomeMalformedIndex) then None else Some (walker, outcome)
  | _ => None
  end.

Definition rfc_bucket (s : session) (local : string) (nets : list IPNet) (now : time) : string :=
  match s oidBgpPeerTable with
  | inl _ => outcomeError
  | inr pdus =>
      if bool_decide ((bgp_buildEdges local (fold_left (table_step (mkBgpPeer 0 None 0) bgp_row) pdus ∅) nets now).1 = [])
      then if bool_decide (pdus = []) then outcomeMIBUnimplemented else outcomeNoPeers
      else outcomeEdges
  end.

Lemma terminal_malformed spec s : omap terminal (malformed_events spec s) = [].
Proof.
  unfold malformed_events. destruct (s (vt_root spec)) as [|pdus]; [done|].
  induction pdus as [|p pdus IH]; [done|]. rewrite bind_cons, omap_app, IH, app_nil_r.
  unfold vendor_row. destruct (vendor_cell spec p) as [[col key]|]; [|done]. by destruct (vt_decodeIndex spec key).
Qed.

Lemma terminal_bgp_rows pdus : omap terminal (pdus ≫= λ p, (bgp_row p).2) = [].
Proof.
  induction pdus as [|p pdus IH]; [done|]. rewrite bind_cons, omap_app, IH, app_nil_r.
  unfold bgp_row. destruct (_ ≫= SplitOIDComponent) as [[col key]|]; [|done].
  case_bool_decide; [done|]. repeat destruct (col =? _); try done. by destruct (PDUIntStrict p).
Qed.

Lemma rfc_stage_terminal p s verr local nets now :
  omap terminal (W_events (rfc_stage p s verr local nets now)) = [(walkerRFC4273, rfc_bucket s local nets now)] ∧
  (W_value (rfc_stage p s verr local nets now) =
   match s oidBgpPeerTable with
   | inl err => inl err
   | inr pdus => inr (bgp_buildEdges local (fold_left (table_step (mkBgpPeer 0 None 0) bgp_row) pdus ∅) nets now)
   end).
Proof.
  unfold rfc_stage, walkBgpPeerTable, BulkWalk, rfc_bucket, W_events, W_value.
  destruct (s oidBgpPeerTable) as [err|pdus]; [done|]. cbn [W_bind scan_table W_ret on_error].
  destruct (bgp_buildEdges _ _ _ _) as [es oos]. cbn [W_bind W_emit W_ret fst snd]. split; [|done].
  rewrite !app_nil_r, app_nil_l, !omap_app, terminal_bgp_rows, length_pos_bool.
  destruct verr as [[sp err]|]; destruct (bool_decide (es = [])), (bool_decide (pdus = [])); reflexivity.
Qed.

Definition walkers_run (p : bgp_params) (get : oid_get) (s : session) : list string :=
  match bgp_spec p get with Some spec => [vendorWalkerLabel (vt_name spec)] | None => [] end ++
  match vendor_source p get s with Some _ => [] | None => [walkerRFC4273] end.

Lemma bgp_Walk_terminal p get s local nets now :
  omap terminal (W_events (bgp_Walk p (inr s) get local nets now)) =
  match bgp_spec p get with
  | Some spec => [(vendorWalkerLabel (vt_name spec), vendor_bucket spec s local nets now)]
  | None => [] end ++
  match vendor_source p get s with Some _ => [] | None => [(walkerRFC4273, rfc_bucket s local nets now)] end.
Proof.
  unfold bgp_Walk. cbn [with_session]. destruct (bgp_spec p get) as [spec|] eqn:Hsp.
  2: { unfold vendor_source. rewrite Hsp. simpl.
       destruct (rfc_stage_terminal p s None local nets now) as [He _].
       destruct (rfc_stage _ _ _ _ _ _) as [ev r]. unfold W_events in *. simpl in *. rewrite omap_app, He. done. }
  rewrite vendor_walk. unfold vendor_source. rewrite Hsp. cbn [mbind option_bind].
  cbn [W_try fst snd W_bind].
  assert (∀ b, omap terminal [EvBGPOutcome (vendorWalkerLabel (vt_name spec)) b] =
    if bool_decide (b = outcomeMalformedIndex) then [] else [(vendorWalkerLabel (vt_name spec), b)]) as Hone.
  { intros b. simpl. by case_bool_decide. }
  assert (vendor_bucket spec s local nets now ≠ outcomeMalformedIndex) as Hnm.
  { unfold vendor_bucket. destruct (s (vt_root spec)) as [|[|q pdus]]; [done..|]. by split_ifs. }
  destruct (s (vt_root spec)) as [err|pdus]; [|destruct (existsb _ pdus)].
  2: { destruct (buildVendorEdges _ _ _ _) as [es oos]. unfold W_events. cbn [W_ret fst].
       rewrite app_nil_r, !omap_app, terminal_malformed, Hone, bool_decide_eq_false_2 by done. done. }
  all: match goal with |- context [rfc_stage _ _ ?v _ _ _] =>
         let H := fresh in pose proof (rfc_stage_terminal p s v local nets now) as [H _];
         destruct (rfc_stage _ _ v _ _ _) as [ev r]; unfold W_events in *; cbn [fst] in *;
         rewrite !omap_app, terminal_malformed, Hone, bool_decide_eq_false_2, H by done; done
       end.
Qed.
Lemma buildPeerEdges_walked local peers nets now : walked bgp_form local now (buildPeerEdges local peers nets now).
Proof.
  apply collect_walked, Forall_forall. intros o (r & -> & _)%list_elem_of_fmap. apply peer_out_walked.
Qed.

Lemma bgp_walked p acquired get local nets now r :
  W_value (bgp_Walk p acquired get local nets now) = inr r → walked bgp_form local now r.
Proof.
  intros (s & -> & Hv)%with_session_value.
  assert (∀ verr, W_value (rfc_stage p s verr local nets now) = inr r → walked bgp_form local now r) as Hrfc.
  { intros verr. destruct (rfc_stage_terminal p s verr local nets now) as [_ ->].
    destruct (s oidBgpPeerTable); [done|]. intros [= <-]. apply buildPeerEdges_walked. }
  destruct (bgp_spec p get) as [spec|]; [|by eapply Hrfc].
  apply W_value_bind in Hv as (x & Hx & Hv). rewrite vendor_walk in Hx. injection Hx as <-.
  destruct (s (vt_root spec)); [by eapply Hrfc|]. destruct (existsb _ _); [|by eapply Hrfc].
  injection Hv as <-. apply buildPeerEdges_walked.
Qed.
Lemma vendor_label_rfc vendor spec : vendorSpecFor vendor = Some spec → vendorWalkerLabel (vt_name spec) ≠ walkerRFC4273.
Proof.
  unfold vendorSpecFor.
  destruct (bool_decide _); [|destruct (bool_decide _); [|destruct (bool_decide _); [|destruct (_ || _); [|done]]]];
    by intros [= <-].
Qed.

Lemma bgp_Walk_value p get s local nets now :
  W_value (bgp_Walk p (inr s) get local nets now) =
  match vendor_source p get s with
  | Some (spec, pdus) => inr (buildVendorEdges local (fold_left (table_step no_peer (vendor_row spec)) pdus ∅) nets now)
  | None =>
      match s oidBgpPeerTable with
      | inl err => inl err
      | inr pdus => inr (bgp_buildEdges local (fold_left (table_step (mkBgpPeer 0 None 0) bgp_row) pdus ∅) nets now)
      end
  end.
Proof.
  unfold bgp_Walk. cbn [with_session].
  assert (∀ verr (ev0 : list walk_event), W_value (let '(ev, r) := (let '(ev', r) := rfc_stage p s verr local nets now in (ev0 ++ ev', r)) in
    (ev ++ [EvRelease match r with inl e => Some e | inr _ => None end], r)) =
    W_value (rfc_stage p s verr local nets now)) as Hr by (intros; by destruct (rfc_stage _ _ _ _ _ _)).
  unfold vendor_source. destruct (bgp_spec p get) as [spec|]; cbn [mbind option_bind].
  - rewrite vendor_walk. cbn [W_try fst snd W_bind].
    destruct (s (vt_root spec)) as [err|pdus]; [|destruct (existsb _ pdus)].
    2: { by destruct (buildVendorEdges _ _ _ _). }
    all: rewrite Hr; by apply rfc_stage_terminal.
  - destruct (rfc_stage_terminal p s None local nets now) as [_ <-]. by destruct (rfc_stage _ _ _ _ _ _).
Qed.

Lemma bgp_edges_outcome p get s local nets now :
  outcomeEdges ∈ (match bgp_spec p get with
     | Some spec => [(vendorWalkerLabel (vt_name spec), vendor_bucket spec s local nets now)]
     | None => [] end).*2 ++
    (match vendor_source p get s with Some _ => [] | None => [(walkerRFC4273, rfc_bucket s local nets now)] end).*2 ↔
  ∃ e es oos, W_value (bgp_Walk p (inr s) get local nets now) = inr (e :: es, oos).
Proof.
  rewrite bgp_Walk_value.
  assert (∀ (r : list Edge * list OutOfScopeNeighbour), r.1 ≠ [] ↔
    ∃ e es oos, @inr walk_error _ r = inr (e :: es, oos)) as Hne.
  { intros [[|e es] oos]; simpl; split; try done; [by intros (? & ? & ? & ?)|eauto]. }
  destruct (vendor_source p get s) as [[spec pdus]|] eqn:Hv.
  - destruct (vendor_source_Some _ _ _ _ _ Hv) as (-> & Hs & Hx). simpl. rewrite <- Hne.
    unfold vendor_bucket. rewrite Hs, Hx. destruct pdus as [|q pdus]; [done|].
    rewrite list_elem_of_singleton. by case_bool_decide.
  - assert (outcomeEdges ∉ (match bgp_spec p get with
       | Some spec => [(vendorWalkerLabel (vt_name spec), vendor_bucket spec s local nets now)]
       | None => [] end).*2) as Hno.
    { destruct (bgp_spec p get) as [spec|] eqn:Hsp; [|apply not_elem_of_nil].
      unfold vendor_source in Hv. rewrite Hsp in Hv. simpl in Hv. simpl. rewrite list_elem_of_singleton.
      unfold vendor_bucket. destruct (s (vt_root spec)) as [|[|q pdus]]; [done..|].
      destruct (existsb (names_peer spec) _); [done|]. by destruct (existsb _ _). }
    rewrite elem_of_app. simpl. rewrite list_elem_of_singleton. unfold rfc_bucket.
    destruct (s oidBgpPeerTable) as [err|pdus].
    + split; [by intros [?|?]|by intros (? & ? & ? & ?)].
    + rewrite <- Hne. destruct (bool_decide_reflect ((bgp_buildEdges local
        (fold_left (table_step (mkBgpPeer 0 None 0) bgp_row) pdus ∅) nets now).1 = [])) as [E|E].
      * split; [|done]. intros [?|Hc]; [done|]. by case_bool_decide.
      * split; [done|]. intros _. by right.
Qed.

Lemma bgp_drift_outcome p get s local nets now :
  outcomeWalkerDrift ∈ (match bgp_spec p get with
     | Some spec => [(vendorWalkerLabel (vt_name spec), vendor_bucket spec s local nets now)]
     | None => [] end).*2 ++
    (match vendor_source p get s with Some _ => [] | None => [(walkerRFC4273, rfc_bucket s local nets now)] end).*2 ↔
  ∃ spec pdus, bgp_spec p get = Some spec ∧ s (vt_root spec) = inr pdus ∧
     existsb (names_peer spec) pdus = false ∧ existsb (names_malformed spec) pdus = true.
Proof.
  assert (outcomeWalkerDrift ∉ (match vendor_source p get s with Some _ => []
    | None => [(walkerRFC4273, rfc_bucket s local nets now)] end).*2) as Hno.
  { destruct (vendor_source p get s); [apply not_elem_of_nil|]. simpl. rewrite list_elem_of_singleton.
    unfold rfc_bucket. destruct (s oidBgpPeerTable); [done|]. by split_ifs. }
  rewrite elem_of_app. split.
  - intros [Hin|?]; [|done]. destruct (bgp_spec p get) as [spec|]; [|by apply not_elem_of_nil in Hin].
    apply list_elem_of_singleton in Hin. exists spec. unfold vendor_bucket in Hin.
    destruct (s (vt_root spec)) as [|pdus]; [done|]. exists pdus. destruct pdus as [|q pdus]; [done|].
    destruct (existsb (names_peer spec) (q :: pdus)); [by case_bool_decide|].
    by destruct (existsb (names_malformed spec) (q :: pdus)).
  - intros (spec & pdus & -> & Hs & Hp & Hm). left. apply list_elem_of_singleton.
    unfold vendor_bucket. rewrite Hs, Hp, Hm. by destruct pdus.
Qed.
End Tables.

(** ** Properties *)

(** the row index decoders invert the vendors' encodings. Whatever follows the
    address, the Cisco decoder reads it from type, length and octets; the Arista and
    Nokia decoders skip the instance in front; the Juniper decoder skips the instance and
    the local address, both without lengths, and reads the remote one. *)
Theorem vendor_index_roundtrip (inst : Z) (local ip rest : list Z) :
  is_int inst → is_addr local → is_addr ip → Forall is_int rest →
  decodeCiscoCbgpPeer2Index (dotted (inet_index ip ++ rest)) = Some ip ∧
  decodeAristaBgp4v2Index (dotted (inst :: inet_index ip ++ rest)) = Some ip ∧
  decodeNokiaTBgpPeerNgIndex (dotted (inst :: inet_index ip ++ rest)) = Some ip ∧
  decodeJuniperJnxBgpM2Index (dotted (inst :: inet_implicit local ++ inet_implicit ip ++ rest)) = Some ip.
Proof.
  intros Hi Hl Ha Hr.
  assert (Forall is_int (inet_index ip ++ rest)) as H1 by (apply Forall_app; split; [by apply inet_index_int|done]).
  assert (Forall is_int (inst :: inet_implicit local ++ inet_implicit ip ++ rest)) as H2.
  { constructor; [done|]. rewrite !Forall_app. by auto using inet_implicit_int. }
  unfold decodeCiscoCbgpPeer2Index, decodeAristaBgp4v2Index, decodeNokiaTBgpPeerNgIndex, decodeJuniperJnxBgpM2Index.
  rewrite !splitOIDParts_dotted by (done || by constructor). cbn [mbind option_bind].
  pose proof (readInetAddrAt_index [] ip rest Ha) as E1. rewrite app_nil_l in E1.
  change (Z.of_nat (length [])) with 0 in E1. rewrite E1.
  pose proof (readInetAddrAt_index [inst] ip rest Ha) as E2. change ([inst] ++ ?l) with (inst :: l) in E2.
  change (Z.of_nat (length [inst])) with 1 in E2. rewrite E2.
  pose proof (readInetAddrImplicitAt_index [inst] local (inet_implicit ip ++ rest) Hl) as E3.
  pose proof (readInetAddrImplicitAt_index ([inst] ++ inet_implicit local) ip rest Ha) as E4.
  change ([inst] ++ ?l ++ ?m) with (inst :: l ++ m) in E3. change (Z.of_nat (length [inst])) with 1 in E3. rewrite E3.
  rewrite <- app_assoc in E4. change ([inst] ++ ?l ++ ?m) with (inst :: l ++ m) in E4. cbn [mbind option_bind]. rewrite E4.
  assert (∀ (l : list Z), (Z.of_nat (length (inst :: l)) <? 1) = false) as Hlen.
  { intros l. cbn [length]. apply Z.ltb_ge. lia. }
  by rewrite !Hlen.
Qed.

(** C18: BGP edges are exactly the established peers of the table in use. The vendor's
    table is in use when it is enabled, the vendor has one, it answers and one of its row
    indices decodes; otherwise the RFC 4273 table is. A walk whose table in use answers
    succeeds, and yields an edge if and only if that table lists a peer, by the last
    value it gives of each column, in state established, whose address is neither
    unspecified nor link-local and is in scope. *)
Theorem bgp_edges_exact `{NetText} `{MapRange} (p : bgp_params) (get : oid_get) (s : session) (local : string)
    (nets : list IPNet) (now : time) :
  (vendor_source p get s = None → ∃ pdus, s oidBgpPeerTable = inr pdus) →
  ∃ es oos, W_value (bgp_Walk p (inr s) get local nets now) = inr (es, oos) ∧
    ∀ e, e ∈ es ↔ ∃ ip remoteAs,
      peer_of p get s ip bgpStateEstablished remoteAs ∧
      IsUnspecified ip = false ∧ IsLinkLocalUnicast ip = false ∧ is_OutOfScope ip nets = false ∧
      e = bgp_edge local ip remoteAs now.
Proof.
  intros Hok.
  assert (vendor_source p get s = None → ∀ verr,
    ∃ es oos, W_value (rfc_stage p s verr local nets now) = inr (es, oos) ∧
    ∀ e, e ∈ es ↔ ∃ ip remoteAs, peer_of p get s ip bgpStateEstablished remoteAs ∧
      IsUnspecified ip = false ∧ IsLinkLocalUnicast ip = false ∧ is_OutOfScope ip nets = false ∧
      e = bgp_edge local ip remoteAs now) as Hrfc.
  { intros Hn verr. destruct (Hok Hn) as [pdus Hs]. by eapply rfc_stage_exact. }
  unfold bgp_Walk. cbn [with_session].
  destruct (vendor_source p get s) as [[spec pdus]|] eqn:Hv; [|specialize (Hrfc eq_refl)].
  - destruct (vendor_source_Some _ _ _ _ _ Hv) as (Hsp & Hs & Hx). rewrite Hsp.
    pose proof (vendor_walk spec s local nets now) as Hw. rewrite Hs, Hx in Hw.
    rewrite Hw. cbn [W_try fst snd W_bind W_ret]. destruct (buildVendorEdges _ _ _ _) as [es oos] eqn:Hb.
    exists es, oos. split; [done|]. by eapply vendor_edges_exact.
  - destruct (bgp_spec p get) as [spec|] eqn:Hsp.
    + rewrite vendor_walk. cbn [W_try fst snd W_bind].
      unfold vendor_source in Hv. rewrite Hsp in Hv. simpl in Hv.
      destruct (s (vt_root spec)) as [err|pdus]; [|destruct (existsb _ _); [done|]];
        match goal with |- context [rfc_stage p s ?v local nets now] => destruct (Hrfc v) as (es & oos & He & Hi) end;
        exists es, oos; (split; [|done]); destruct (rfc_stage _ _ _ _ _ _) as [ev r]; simpl in He; by subst r.
    + destruct (Hrfc None) as (es & oos & He & Hi). exists es, oos. split; [|done].
      destruct (rfc_stage _ _ _ _ _ _) as [ev r]. simpl in He. by subst r.
Qed.

(** A Cisco device with an established IPv6 peer, and one with an IPv4 peer of the RFC
    table. *)
Definition cisco_params : bgp_params := mkBgpParams [10; 0; 0; 1] true "cisco" true.

Definition cisco_peer (state : Z) : list SnmpPDU :=
  [mkPDU ".1.3.6.1.4.1.9.9.187.1.2.5.1.3.1.4.10.0.0.2" (VInt state);
   mkPDU ".1.3.6.1.4.1.9.9.187.1.2.5.1.11.1.4.10.0.0.2" (VInt 65001)].

Definition sample_bgp (state : Z) : session := answers [(vt_root ciscoCbgpPeer2Spec, cisco_peer state)].

Lemma sample_source state :
  vendor_source cisco_params None (sample_bgp state) = Some (ciscoCbgpPeer2Spec, cisco_peer state).
Proof.
  unfold vendor_source. change (bgp_spec cisco_params None) with (Some ciscoCbgpPeer2Spec). cbn [mbind option_bind].
  assert (sample_bgp state (vt_root ciscoCbgpPeer2Spec) = inr (cisco_peer state)) as -> by (vm_compute; reflexivity).
  assert (existsb (names_peer ciscoCbgpPeer2Spec) (cisco_peer state) = true) as -> by (vm_compute; reflexivity).
  reflexivity.
Qed.

Lemma sample_peer :
  peer_of (N := go_net) cisco_params None (sample_bgp 6) [10; 0; 0; 2] bgpStateEstablished 65001.
Proof.
  pose proof (peer_vendor (N := go_net) cisco_params None (sample_bgp 6) ciscoCbgpPeer2Spec (cisco_peer 6)
    "1.4.10.0.0.2" [10; 0; 0; 2] (sample_source 6)) as Hp.
  assert (vendor_value ciscoCbgpPeer2Spec (vt_colState ciscoCbgpPeer2Spec) (cisco_peer 6) "1.4.10.0.0.2" = 6) as E1
    by (vm_compute; reflexivity).
  assert (vendor_value ciscoCbgpPeer2Spec (vt_colRemoteAs ciscoCbgpPeer2Spec) (cisco_peer 6) "1.4.10.0.0.2" = 65001) as E2
    by (vm_compute; reflexivity).
  rewrite E1, E2 in Hp. apply Hp. vm_compute. reflexivity.
Qed.

Lemma vendor_index_roundtrip_witness :
  decodeJuniperJnxBgpM2Index "0.1.192.0.2.1.1.192.0.2.2" = Some [192; 0; 2; 2] ∧
  decodeCiscoCbgpPeer2Index "1.4.192.0.2.2" = Some [192; 0; 2; 2].
Proof.
  destruct (vendor_index_roundtrip 0 [192; 0; 2; 1] [192; 0; 2; 2] []) as (H1 & _ & _ & H2).
  - unfold is_int, MinInt, MaxInt. lia.
  - split; [by left|]. repeat constructor; lia.
  - split; [by left|]. repeat constructor; lia.
  - constructor.
  - split; [exact H2|exact H1].
Defined.

Lemma bgp_edges_exact_witness :
  ∃ es oos, W_value (bgp_Walk (N := go_net) (R := range_std) cisco_params (inr (sample_bgp 6)) None "r1" [] 7) =
      inr (es, oos) ∧ bgp_edge (N := go_net) "r1" [10; 0; 0; 2] 65001 7 ∈ es.
Proof.
  destruct (bgp_edges_exact (H := go_net) (H0 := range_std) cisco_params None (sample_bgp 6) "r1" [] 7)
    as (es & oos & Hv & He).
  - intros Hn. exists []. vm_compute. reflexivity.
  - exists es, oos. split; [exact Hv|]. apply He. exists [10; 0; 0; 2], 65001.
    split; [|split_and!; vm_compute; reflexivity].
    apply sample_peer.
Defined.

(** one outcome per BGP walker run. The walkers that run are the vendor's, when the
    device has one and it is enabled, and then RFC 4273's, unless the vendor table is in
    use; each records exactly one of the outcomes other than malformed_index. One of them
    is "edges" exactly when the walk yields an edge; the vendor's is "walker_drift"
    exactly when its table answers with rows of which no index decodes. *)
Theorem bgp_one_outcome `{NetText} `{MapRange} (p : bgp_params) (get : oid_get) (s : session) (local : string)
    (nets : list IPNet) (now : time) :
  let walk := bgp_Walk p (inr s) get local nets now in
  let outcomes := omap terminal (W_events walk) in
  outcomes.*1 = walkers_run p get s ∧ NoDup (walkers_run p get s) ∧
  (outcomeEdges ∈ outcomes.*2 ↔ ∃ e es oos, W_value walk = inr (e :: es, oos)) ∧
  (outcomeWalkerDrift ∈ outcomes.*2 ↔ ∃ spec pdus, bgp_spec p get = Some spec ∧ s (vt_root spec) = inr pdus ∧
     existsb (names_peer spec) pdus = false ∧ existsb (names_malformed spec) pdus = true).
Proof.
  intros walk outcomes. subst outcomes walk. rewrite bgp_Walk_terminal. unfold walkers_run.
  rewrite fmap_app, fmap_app.
  assert (∀ spec, bgp_spec p get = Some spec → vendorWalkerLabel (vt_name spec) ≠ walkerRFC4273) as Hlab.
  { intros spec. unfold bgp_spec. destruct (bp_UseBGPV2MIB p); [|done]. apply vendor_label_rfc. }
  split; [by destruct (bgp_spec p get), (vendor_source p get s)|]. split.
  { destruct (bgp_spec p get) as [spec|]; [specialize (Hlab spec eq_refl)|]; destruct (vendor_source p get s);
      simpl; repeat constructor; set_solver. }
  split; [by apply bgp_edges_outcome|by apply bgp_drift_outcome].
Qed.

(** an established session is reported as "no_peers". With a scope configured, a
    device whose only BGP session is up but leads out of scope records the outcome that
    is documented as "every session is down", although the neighbour is reported as out
    of scope. *)
Theorem established_peer_reported_down :
  let nets := [mkIPNet [192; 168; 0; 0] [255; 255; 0; 0]] in
  let walk := bgp_Walk (N := go_net) (R := range_std) cisco_params (inr (sample_bgp 6)) None "r1" nets 7 in
  peer_of (N := go_net) cisco_params None (sample_bgp 6) [10; 0; 0; 2] bgpStateEstablished 65001 ∧
  omap terminal (W_events walk) = [(walkerVendorCisco, outcomeNoPeers)] ∧
  W_value walk = inr ([], [mkOOS "r1" "" "10.0.0.2" "bgp" 7 7]).
Proof.
  split; [|split; vm_compute; reflexivity].
  apply sample_peer.
Qed.

(** A vendor table decodes an undecodable state to 0, without a decode issue. *)
Example vendor_state_lenient :
  W_events (bgp_Walk (N := go_net) (R := range_std) cisco_params
    (inr (answers [(vt_root ciscoCbgpPeer2Spec,
      [mkPDU ".1.3.6.1.4.1.9.9.187.1.2.5.1.3.1.4.10.0.0.2" (VString "up")])])) None "r1" [] 7) =
  [EvBGPOutcome walkerVendorCisco outcomeNoPeers; EvRelease None].
Proof. vm_compute. reflexivity. Qed.
