(* ===== verification/Mpls.v ===== *)
(** * internal/discovery/mpls: MPLS-TE tunnels

    mpls.go: the tunnels of mplsTunnelTable that are up, with their admin status. *)

From Stdlib Require Import ZArith Lia Ascii.
From S2P Require Import Prelude GoText Discovery Limits HubValidate Pdu NetAddr Walker Transport.
Open Scope Z_scope.

Definition oidMplsTunnelOperStatus : string := "1.3.6.1.2.1.10.166.3.2.2.1.17".
Definition oidMplsTunnelAdminStatus : string := "1.3.6.1.2.1.10.166.3.2.2.1.13".
Definition mplsTunnelOperUp : Z := 1.
Definition metaKeyAdminStatus : string := "mpls_te.admin_status".
Definition mpls_precedenceRank : Z := 8.

(** MinValidRows 0 and MaxInvalidRatio 0.50, the policy of IS-IS and MPLS-TE. *)
Definition half_policy : RequiredTablePolicy := mkPolicy 0 1 2.

(** A table with no more than half of its variables undecodable is no hard failure. *)
Lemma half_policy_soft module oid pdus :
  InvalidRows (WalkToIntMapStrict module oid pdus).1.2 * 2 ≤ Z.of_nat (length pdus) →
  ∀ r, EvaluateRequiredTablePolicy (WalkToIntMapStrict module oid pdus).1.2 half_policy ≠ TableHardFail r.
Proof.
  unfold WalkToIntMapStrict, EvaluateRequiredTablePolicy, ratio_exceeded, half_policy.
  cbn [fst snd InvalidRows TotalRows ValidRows MinValidRows pol_num pol_den].
  intros Hinv r. rewrite (proj2 (Z.ltb_ge _ _)) by lia. rewrite (proj2 (Z.ltb_ge (1 * _) _)) by lia.
  rewrite andb_false_r. simpl. by split_ifs.
Qed.

Definition mpls_form : edge_form :=
  mkForm DiscoveryProtocolMPLSTE mpls_precedenceRank ConfidenceMedium AdjacencyUnknown LinkKindMPLSTE.

Definition mplsAdminStatusString (v : Z) : string :=
  if v =? 1 then "up" else if v =? 2 then "down" else if v =? 3 then "testing" else "unknown".

Definition parseIPFromParts (parts : list string) : option (list Z) :=
  if negb (bool_decide (length parts = 4%nat)) then None else octets parts.

Definition parseTunnelSuffix (suffix : string) : option (Z * list Z) :=
  let parts := strings_Split "."%char (TrimPrefix suffix ".") in
  if negb (bool_decide (length parts = 10%nat)) then None
  else
    p0 ← parts !! 0%nat;
    idx ← Atoi p0;
    if idx <=? 0 then None
    else (λ ip, (idx, ip)) <$> parseIPFromParts (take 4 (drop 6 parts)).

Section Mpls.
Context `{N : NetText} `{R : MapRange}.

Definition mpls_port (tunnelIdx : Z) : string := "te-tunnel" +:+ Itoa tunnelIdx.

Definition mpls_metadata (adminStatus : Z) (degradedReason : string) : gmap string string :=
  let metadata := {[ metaKeyAdminStatus := mplsAdminStatusString adminStatus ]} in
  if bool_decide (degradedReason ≠ "")
  then <[MetadataKeyDegradedReason := degradedReason]> (<[MetadataKeyDegraded := "true"]> metadata)
  else metadata.

Definition mpls_edge (localDevice : string) (tunnelIdx : Z) (egressIP : list Z) (metadata : gmap string string)
    (now : time) : Edge :=
  mkEdge localDevice (mpls_port tunnelIdx) (IP_String egressIP) "" DiscoveryProtocolMPLSTE
    DirectionUnidirectional ConfidenceMedium AdjacencyUnknown mpls_precedenceRank LinkKindMPLSTE now metadata.

(** The body of the loop over the tunnels. *)
Definition mpls_out (localDevice : string) (adminStatuses : gmap string Z) (degradedReason : string)
    (allowedNets : list IPNet) (now : time) (t : string * Z) : row_out :=
  let '(suffix, operStatus) := t in
  if negb (operStatus =? mplsTunnelOperUp) then RowSkipped
  else match parseTunnelSuffix suffix with
       | None => RowSkipped
       | Some (tunnelIdx, egressIP) =>
           if IsUnspecified egressIP || IsLinkLocalUnicast egressIP then RowSkipped
           else if is_OutOfScope egressIP allowedNets
           then RowOOS (NewOutOfScopeNeighbour "mpls_te" localDevice (mpls_port tunnelIdx) (IP_String egressIP) now)
           else RowEdge (mpls_edge localDevice tunnelIdx egressIP
                  (mpls_metadata (default 0 (adminStatuses !! suffix)) degradedReason) now)
       end.

(** The optional walk of the admin status: the map and the reasons it adds. *)
Definition mpls_admin (admin : walk_error + (gmap string Z * DecodeStats)) : gmap string Z * list string :=
  match admin with
  | inl _ => (∅, ["missing_admin_status_walk"])
  | inr (m, stats) => (m, if 0 <? InvalidRows stats then ["invalid_admin_status_decode"] else [])
  end.

Definition mpls_Walk (acquired : walk_error + session) (localDevice : string)
    (allowedNets : list IPNet) (now : time) : W (list Edge * list OutOfScopeNeighbour) :=
  with_session [] acquired (λ s,
    let! (operStatuses, operStats) := WalkIntMap s "mpls_te" oidMplsTunnelOperStatus in
    match EvaluateRequiredTablePolicy operStats half_policy with
    | TableHardFail reason => W_fail (PolicyError reason)
    | verdict =>
        let! admin := W_try (WalkIntMap s "mpls_te" oidMplsTunnelAdminStatus) in
        let '(adminStatuses, adminReasons) := mpls_admin admin in
        let operReasons := match verdict with TableDegraded => ["required_table_partial_decode"] | _ => [] end in
        let degradedReason := JoinReasonCodes (operReasons ++ adminReasons) in
        W_ret (collect_rows (mpls_out localDevice adminStatuses degradedReason allowedNets now
                 <$> range_map 0 operStatuses)).1
    end).

(** ** Lemmas *)

Lemma mpls_out_walked local admin reason nets now t :
  out_walked mpls_form local now (mpls_out local admin reason nets now t).
Proof.
  destruct t as [suffix st]. unfold mpls_out. destruct (negb _); [done|].
  destruct (parseTunnelSuffix suffix) as [[idx ip]|]; [|done]. by split_ifs.
Qed.

Lemma mpls_walked acquired local nets now r :
  W_value (mpls_Walk acquired local nets now) = inr r → walked mpls_form local now r.
Proof.
  intros (s & -> & Hv)%with_session_value. apply W_value_bind in Hv as ([m st] & _ & Hv).
  destruct (EvaluateRequiredTablePolicy st half_policy); [| |done];
    apply W_value_bind in Hv as (a & _ & Hv); destruct (mpls_admin a) as [ma ra]; injection Hv as <-;
    apply collect_walked, Forall_forall; intros o (t & -> & _)%list_elem_of_fmap; apply mpls_out_walked.
Qed.

Lemma mpls_out_edge local admin reason nets now suffix st e :
  mpls_out local admin reason nets now (suffix, st) = RowEdge e ↔
  ∃ idx ip, st = mplsTunnelOperUp ∧ parseTunnelSuffix suffix = Some (idx, ip) ∧ IsUnspecified ip = false ∧
    IsLinkLocalUnicast ip = false ∧ is_OutOfScope ip nets = false ∧
    e = mpls_edge local idx ip (mpls_metadata (default 0 (admin !! suffix)) reason) now.
Proof.
  unfold mpls_out. destruct (Z.eqb_spec st mplsTunnelOperUp) as [E|E]; simpl; [|naive_solver].
  destruct (parseTunnelSuffix suffix) as [[idx ip]|]; [|naive_solver].
  destruct (IsUnspecified ip) eqn:E1, (IsLinkLocalUnicast ip) eqn:E2; simpl; try naive_solver congruence.
  destruct (is_OutOfScope ip nets) eqn:E3; naive_solver congruence.
Qed.

Lemma mpls_admin_last s ma ra :
  mpls_admin (WalkIntMap s "mpls_te" oidMplsTunnelAdminStatus).2 = (ma, ra) →
  ∀ apdus, s oidMplsTunnelAdminStatus = inr apdus →
  ∀ k, ma !! k = last (omap (set_at (good_row ("." +:+ oidMplsTunnelAdminStatus +:+ ".")) k) apdus).
Proof.
  intros Ha apdus Hs k. rewrite <- (int_map_last "mpls_te").
  rewrite (WalkIntMap_ok _ _ _ _ Hs) in Ha.
  destruct (WalkToIntMapStrict _ _ apdus) as [[m st] issues]. cbn [fst snd mpls_admin] in Ha. by injection Ha as <- <-.
Qed.

Lemma mpls_rows_exact (m : gmap string Z) (oper : string → option Z) local admin reason nets now e :
  (∀ k st, m !! k = Some st ↔ oper k = Some st) →
  e ∈ (collect_rows (mpls_out local admin reason nets now <$> range_map 0 m)).1.1 ↔
  ∃ k idx ip, oper k = Some mplsTunnelOperUp ∧ parseTunnelSuffix k = Some (idx, ip) ∧ IsUnspecified ip = false ∧
    IsLinkLocalUnicast ip = false ∧ is_OutOfScope ip nets = false ∧
    e = mpls_edge local idx ip (mpls_metadata (default 0 (admin !! k)) reason) now.
Proof.
  intros Hm. simpl. rewrite elem_of_out_edges, list_elem_of_fmap. split.
  - intros ([k st] & He & Hk%elem_of_range). symmetry in He.
    apply mpls_out_edge in He as (idx & ip & -> & ?). exists k, idx, ip. split; [by apply Hm|done].
  - intros (k & idx & ip & Hk & ?). exists (k, mplsTunnelOperUp). split; [|apply elem_of_range; by apply Hm].
    symmetry. apply mpls_out_edge. exists idx, ip. by split.
Qed.
End Mpls.

Lemma octets_sound parts ip : octets parts = Some ip → length ip = length parts ∧ Forall (λ b, 0 ≤ b < 256) ip.
Proof.
  revert ip. induction parts as [|p parts IH]; intros ip; cbn [octets]; [by intros [= <-]|].
  destruct (Atoi p) as [v|]; [|done]. destruct (_ || _) eqn:E; [done|].
  intros (ip' & Hip & ->)%fmap_Some. apply IH in Hip as [Hl Hf]. bprop. split; [simpl; by rewrite Hl|]. constructor; [lia|done].
Qed.

Lemma parseTunnelSuffix_sound suffix idx ip : parseTunnelSuffix suffix = Some (idx, ip) → 0 < idx ≤ MaxInt ∧ is_addr ip.
Proof.
  unfold parseTunnelSuffix. destruct (negb _); [done|].
  intros (p0 & _ & (i & Hi & H)%bind_Some)%bind_Some. destruct (i <=? 0) eqn:E; [done|].
  apply fmap_Some in H as (ip' & Hp & [= -> ->]). bprop. split; [apply parse_digits_Atoi in Hi; lia|].
  unfold parseIPFromParts in Hp. destruct (negb _) eqn:El; [done|]. bprop.
  apply octets_sound in Hp as [Hl Hf]. split; [left; congruence|done].
Qed.

(** The tunnel of an index: tunnel, instance, ingress and egress. *)
Lemma octets_Itoa ip : Forall (λ b, 0 ≤ b < 256) ip → octets (Itoa <$> ip) = Some ip.
Proof.
  induction 1 as [|b ip Hb Hip IH]; [done|]. cbn [fmap list_fmap octets].
  rewrite Atoi_Itoa by (unfold MinInt, MaxInt; lia).
  destruct (_ || _) eqn:E; [apply orb_true_iff in E as [E|E]; bprop; lia|]. by rewrite IH.
Qed.

Lemma Itoa_dotless l : Forall (λ s, has_byte "."%char s = false) (Itoa <$> l).
Proof. apply Forall_forall. intros s (z & -> & _)%list_elem_of_fmap. apply Itoa_no_dot. Qed.

Lemma dotted_prefix z l : 0 ≤ z → HasPrefix (dotted (z :: l)) "." = false.
Proof.
  intros Hz. assert (∃ c s d, dotted (z :: l) = String c s ∧ digit_val c = Some d) as (c & s & d & -> & Hd).
  { unfold dotted. cbn [fmap list_fmap]. pose proof (Itoa_digits z Hz) as Hp. destruct (Itoa z) as [|c s] eqn:Hi.
    - exfalso. revert Hi. unfold Itoa. destruct z; [done|apply (pretty_N_nonempty (N.pos p))|lia].
    - simpl in Hp. destruct (digit_val c) as [d|] eqn:Hd; [|done].
      destruct (Itoa <$> l) as [|t ts]; eexists _, _, d; split; try done; reflexivity. }
  cbn [HasPrefix]. destruct (Ascii.eqb_spec c "."%char) as [->|]; [done|]. by destruct (Ascii.eqb_spec "."%char c).
Qed.

(** a tunnel's row index is read back. A positive tunnel index, an instance and two
    IPv4 addresses, as the agent encodes them with or without a leading dot, give the
    tunnel index and the egress address. *)
Theorem tunnel_suffix_roundtrip (idx inst : Z) (ingress egress : list Z) :
  0 < idx ≤ MaxInt → length ingress = 4%nat → length egress = 4%nat → Forall (λ b, 0 ≤ b < 256) egress →
  let suffix := dotted (idx :: inst :: ingress ++ egress) in
  parseTunnelSuffix suffix = Some (idx, egress) ∧ parseTunnelSuffix ("." +:+ suffix) = Some (idx, egress).
Proof.
  intros Hidx Hin Heg Ho. cbv zeta.
  assert (parseTunnelSuffix (dotted (idx :: inst :: ingress ++ egress)) = Some (idx, egress)) as Hp.
  { unfold parseTunnelSuffix, TrimPrefix. rewrite dotted_prefix by lia. unfold dotted.
    rewrite split_join; [|done|apply Itoa_dotless]. rewrite bool_decide_eq_true_2.
    2: { rewrite length_fmap. cbn [length]. rewrite length_app. lia. }
    cbn [negb fmap list_fmap]. change (list_fmap _ _ Itoa (ingress ++ egress)) with (Itoa <$> (ingress ++ egress)).
    cbn [lookup list_lookup mbind option_bind]. rewrite Atoi_Itoa by (unfold MinInt; lia). cbn [mbind option_bind].
    destruct (idx <=? 0) eqn:E; [bprop; lia|]. cbn [drop]. rewrite fmap_app.
    rewrite drop_app_length' by (rewrite length_fmap; lia). rewrite take_ge by (rewrite length_fmap; lia).
    unfold parseIPFromParts. rewrite length_fmap, bool_decide_eq_true_2 by done. cbn [negb].
    by rewrite octets_Itoa. }
  split; [done|]. unfold parseTunnelSuffix at 1, TrimPrefix. rewrite HasPrefix_app, sdrop_app.
  unfold parseTunnelSuffix, TrimPrefix in Hp. rewrite dotted_prefix in Hp by lia. exact Hp.
Qed.

(** MPLS-TE edges are exactly the tunnels that are up. When the operational status
    table answers with no more than half of its variables undecodable, the walk succeeds
    whatever the admin status walk does, and yields an edge if and only if the last
    decodable status of some tunnel index is up and its egress is an in-scope address
    that is neither unspecified nor link-local; the admin status is that of the same
    index, 0 when it is not to be had. *)
Theorem mpls_edges_exact `{NetText} `{MapRange} (s : session) (pdus : list SnmpPDU) (local : string)
    (nets : list IPNet) (now : time) :
  s oidMplsTunnelOperStatus = inr pdus →
  InvalidRows (WalkToIntMapStrict "mpls_te" oidMplsTunnelOperStatus pdus).1.2 * 2 ≤ Z.of_nat (length pdus) →
  let oper k := last (omap (set_at (good_row ("." +:+ oidMplsTunnelOperStatus +:+ ".")) k) pdus) in
  ∃ es oos (admin : gmap string Z) (reason : string), W_value (mpls_Walk (inr s) local nets now) = inr (es, oos) ∧
    (∀ apdus, s oidMplsTunnelAdminStatus = inr apdus →
       ∀ k, admin !! k = last (omap (set_at (good_row ("." +:+ oidMplsTunnelAdminStatus +:+ ".")) k) apdus)) ∧
    ∀ e, e ∈ es ↔ ∃ k idx ip,
      oper k = Some mplsTunnelOperUp ∧ parseTunnelSuffix k = Some (idx, ip) ∧ IsUnspecified ip = false ∧
      IsLinkLocalUnicast ip = false ∧ is_OutOfScope ip nets = false ∧
      e = mpls_edge local idx ip (mpls_metadata (default 0 (admin !! k)) reason) now.
Proof.
  intros Hs Hinv oper. unfold mpls_Walk. cbn [with_session]. rewrite (WalkIntMap_ok _ _ _ _ Hs).
  pose proof (int_map_last "mpls_te" oidMplsTunnelOperStatus pdus) as Hlast.
  destruct (WalkToIntMapStrict "mpls_te" oidMplsTunnelOperStatus pdus) as [[m stats] issues] eqn:Hw. cbn [fst snd] in *.
  assert (∀ k st, m !! k = Some st ↔ oper k = Some st) as Hm by (intros; by rewrite Hlast).
  assert (∀ r, EvaluateRequiredTablePolicy stats half_policy ≠ TableHardFail r) as Hsoft.
  { pose proof (half_policy_soft "mpls_te" oidMplsTunnelOperStatus pdus) as Hsoft. rewrite Hw in Hsoft.
    by apply Hsoft. }
  cbn [W_bind].
  destruct (EvaluateRequiredTablePolicy stats half_policy) as [| |r] eqn:Hv; [..|by destruct (Hsoft r)];
    cbn [W_try W_bind fst snd];
    destruct (mpls_admin (WalkIntMap s "mpls_te" oidMplsTunnelAdminStatus).2) as [ma ra] eqn:Ha;
    (eexists _, _, ma, _; split; [reflexivity|]; split;
     [by eapply mpls_admin_last|intros e; by apply mpls_rows_exact]).
Qed.

(** ** Witnesses *)

Definition sample_tunnels : list SnmpPDU :=
  [mkPDU "." (VInt 1);
   mkPDU ".1.3.6.1.2.1.10.166.3.2.2.1.17.7.0.10.0.0.1.10.0.0.9" (VInt 1);
   mkPDU ".1.3.6.1.2.1.10.166.3.2.2.1.17.8.0.10.0.0.1.10.0.0.8" (VInt 2)].

Definition sample_mpls : session := λ oid,
  if bool_decide (oid = oidMplsTunnelOperStatus) then inr sample_tunnels else inl (mkWalkError None true false false).

Lemma tunnel_suffix_roundtrip_witness : parseTunnelSuffix ".7.0.10.0.0.1.10.0.0.9" = Some (7, [10; 0; 0; 9]).
Proof.
  destruct (tunnel_suffix_roundtrip 7 0 [10; 0; 0; 1] [10; 0; 0; 9]) as [_ H].
  - unfold MaxInt. lia.
  - reflexivity.
  - reflexivity.
  - repeat constructor; lia.
  - exact H.
Defined.

Lemma mpls_edges_exact_witness :
  ∃ es oos, W_value (mpls_Walk (N := go_net) (R := range_std) (inr sample_mpls) "r1" [] 7) = inr (es, oos) ∧
    ∃ metadata, mpls_edge (N := go_net) "r1" 7 [10; 0; 0; 9] metadata 7 ∈ es.
Proof.
  destruct (mpls_edges_exact (H := go_net) (H0 := range_std) sample_mpls sample_tunnels "r1" [] 7)
    as (es & oos & admin & reason & Hv & _ & He).
  - vm_compute. reflexivity.
  - vm_compute. discriminate.
  - exists es, oos. split; [exact Hv|]. eexists. apply He. exists "7.0.10.0.0.1.10.0.0.9", 7, [10; 0; 0; 9].
    split; [vm_compute; reflexivity|]. split; [vm_compute; reflexivity|].
    split; [vm_compute; reflexivity|]. split; [vm_compute; reflexivity|]. split; [vm_compute; reflexivity|].
    reflexivity.
Defined.
