(* ===== verification/Isis.v ===== *)
(** * internal/discovery/isis: IS-IS adjacencies

    isis.go: the adjacencies that are up, joined with their addresses and the names of
    their circuits' interfaces. *)

From Stdlib Require Import ZArith Lia Ascii.
From S2P Require Import Prelude GoText Discovery Limits HubValidate Pdu NetAddr Walker Transport Mpls.
Open Scope Z_scope.

Definition oidISISAdjState : string := "1.3.6.1.2.1.138.1.6.1.1.2".
Definition oidISISAdjIPAddr : string := "1.3.6.1.2.1.138.1.6.2.1.2".
Definition oidISISCircIfIndex : string := "1.3.6.1.2.1.138.1.4.1.1.3".
Definition isis_precedenceRank : Z := 5.
Definition isisAdjStateUp : Z := 3.

Definition DegradedReasonMissingSrcPortMapping : string := "missing_srcport_mapping".
Definition DegradedReasonRequiredTablePartialDecode : string := "required_table_partial_decode".
Definition DegradedReasonUnsupportedIPVersion : string := "unsupported_ip_version".

Definition isis_form : edge_form :=
  mkForm DiscoveryProtocolISIS isis_precedenceRank ConfidenceMedium AdjacencyDirect LinkKindIP.

Section Isis.
Context `{N : NetText}.

(** The states and whether the table was partly undecodable. *)
Definition walkAdjStates (s : session) : W (gmap string Z * bool) :=
  let! (states, stats) := WalkIntMap s "isis" oidISISAdjState in
  match EvaluateRequiredTablePolicy stats half_policy with
  | TableHardFail reason => W_fail (PolicyError reason)
  | TableDegraded => W_ret (states, true)
  | TableOK => W_ret (states, false)
  end.

(** The interface names by circuit, and the degraded reason. *)
Definition walkCircuitIfNames (s : session) : W (gmap string string * string) :=
  let! (circIfIndex, stats) := WalkIntMap s "isis" oidISISCircIfIndex in
  let! ifNames := WalkIfDescr s in
  W_ret (omap (λ ifIdx, ifNames !! ifIdx) circIfIndex,
         if 0 <? InvalidRows stats then DegradedReasonMissingSrcPortMapping else "").

Inductive adj_index := AdjIPv6 | AdjIPv4 (adjKey : string) | AdjOther.

(** What the index of an isisISAdjIPAddr row says. *)
Definition adj_index_of (suffix : string) : adj_index :=
  let parts := strings_Split "."%char suffix in
  let n := length parts in
  if bool_decide (18 < n)%nat && bool_decide (parts !! (n - 18)%nat = Some "2")
     && bool_decide (parts !! (n - 18 + 1)%nat = Some "16")
  then AdjIPv6
  else if bool_decide (n ≤ 6)%nat || negb (bool_decide (parts !! (n - 6)%nat = Some "1"))
          || negb (bool_decide (parts !! (n - 6 + 1)%nat = Some "4"))
  then AdjOther
  else AdjIPv4 (strings_Join (take (n - 6) parts) ".").

Definition isisMetadata (degradedReason : string) : gmap string string :=
  if bool_decide (degradedReason = "") then ∅
  else <[MetadataKeyDegraded := "true"]> {[ MetadataKeyDegradedReason := degradedReason ]}.

(** The first two components of an adjacency key; empty when there are fewer. *)
Definition circuit_key (adjKey : string) : string :=
  match SplitN "."%char 3 adjKey with
  | a :: b :: _ => a +:+ "." +:+ b
  | _ => ""
  end.

Definition isis_edge (localDevice ifName : string) (ip : list Z) (reason : string) (now : time) : Edge :=
  mkEdge localDevice ifName (IP_String ip) "" DiscoveryProtocolISIS DirectionUnidirectional
    ConfidenceMedium AdjacencyDirect isis_precedenceRank LinkKindIP now (isisMetadata reason).

(** The body of the loop of [walkAdjIPAddrs] for the IPv4 row of an adjacency. *)
Definition adj_out (localDevice : string) (states : gmap string Z) (circIfNames : gmap string string)
    (degradedReason : string) (allowedNets : list IPNet) (now : time) (adjKey : string) (p : SnmpPDU) : row_out :=
  if negb (bool_decide (states !! adjKey = Some isisAdjStateUp)) then RowSkipped
  else match PDUIPv4 p with
       | None => RowSkipped
       | Some ip =>
           if IsUnspecified ip || IsLinkLocalUnicast ip then RowSkipped
           else
             let circKey := circuit_key adjKey in
             let ifName := default "" (circIfNames !! circKey) in
             let edgeDegradedReason :=
               if bool_decide (degradedReason = "") && (bool_decide (circKey = "") || bool_decide (ifName = ""))
               then DegradedReasonMissingSrcPortMapping else degradedReason in
             if is_OutOfScope ip allowedNets
             then RowOOS (NewOutOfScopeNeighbour "isis" localDevice ifName (IP_String ip) now)
             else RowEdge (isis_edge localDevice ifName ip edgeDegradedReason now)
       end.

Definition isis_out (localDevice : string) (states : gmap string Z) (circIfNames : gmap string string)
    (degradedReason : string) (allowedNets : list IPNet) (now : time) (p : SnmpPDU) : row_out :=
  match TrimOIDPrefix (pdu_Name p) ("." +:+ oidISISAdjIPAddr +:+ ".") with
  | None => RowSkipped
  | Some suffix =>
      match adj_index_of suffix with
      | AdjIPv4 adjKey => adj_out localDevice states circIfNames degradedReason allowedNets now adjKey p
      | _ => RowSkipped
      end
  end.

Definition is_ipv6_row (p : SnmpPDU) : bool :=
  match TrimOIDPrefix (pdu_Name p) ("." +:+ oidISISAdjIPAddr +:+ ".") with
  | Some suffix => match adj_index_of suffix with AdjIPv6 => true | _ => false end
  | None => false
  end.

Definition walkAdjIPAddrs (s : session) (localDevice : string) (states : gmap string Z)
    (circIfNames : gmap string string) (degradedReason : string) (allowedNets : list IPNet) (now : time)
  : W (list Edge * list OutOfScopeNeighbour * bool) :=
  let! pdus := BulkWalk s oidISISAdjIPAddr in
  W_ret ((collect_rows (isis_out localDevice states circIfNames degradedReason allowedNets now <$> pdus)).1,
         existsb is_ipv6_row pdus).

(** The names of the circuits and the reasons, when there are adjacencies. *)
Definition isis_circuits (s : session) (states : gmap string Z) : W (gmap string string * list string) :=
  if bool_decide (states = ∅) then W_ret (∅, [])
  else
    let! r := W_try (walkCircuitIfNames s) in
    match r with
    | inl _ => W_ret (∅, [DegradedReasonMissingSrcPortMapping])
    | inr (names, reason) => W_ret (names, if bool_decide (reason ≠ "") then [reason] else [])
    end.

Definition isis_Walk (acquired : walk_error + session) (localDevice : string)
    (allowedNets : list IPNet) (now : time) : W (list Edge * list OutOfScopeNeighbour) :=
  with_session [] acquired (λ s,
    let! (states, stateDegraded) := walkAdjStates s in
    let! (circIfNames, circReasons) := isis_circuits s states in
    let degradedReasons := (if stateDegraded then [DegradedReasonRequiredTablePartialDecode] else []) ++ circReasons in
    let! (edges, oos, sawIPv6) :=
      walkAdjIPAddrs s localDevice states circIfNames (JoinReasonCodes degradedReasons) allowedNets now in
    let! _ := W_emit (if sawIPv6 then [EvDegraded "isis" DegradedReasonUnsupportedIPVersion] else []) in
    W_ret (edges, oos)).

(** ** Lemmas *)

(** An adjacency with a usable address that is in scope. *)
Definition active (states : gmap string Z) (nets : list IPNet) (p : SnmpPDU) (key : string) (ip : list Z) : Prop :=
  (∃ suffix, TrimOIDPrefix (pdu_Name p) ("." +:+ oidISISAdjIPAddr +:+ ".") = Some suffix ∧
     adj_index_of suffix = AdjIPv4 key) ∧
  states !! key = Some isisAdjStateUp ∧ PDUIPv4 p = Some ip ∧ IsUnspecified ip = false ∧
  IsLinkLocalUnicast ip = false ∧ is_OutOfScope ip nets = false.

Lemma isis_out_edge local states names reason nets now p e :
  isis_out local states names reason nets now p = RowEdge e ↔
  ∃ key ip, active states nets p key ip ∧
    let port := default "" (names !! circuit_key key) in
    e = isis_edge local port ip
      (if bool_decide (reason = "") && (bool_decide (circuit_key key = "") || bool_decide (port = ""))
       then DegradedReasonMissingSrcPortMapping else reason) now.
Proof.
  unfold isis_out, active.
  destruct (TrimOIDPrefix _ _) as [suffix|]; [|split; [done|]; by intros (? & ? & ((? & ? & ?) & _) & _)].
  destruct (adj_index_of suffix) as [|key|] eqn:Hi;
    [split; [done|]; intros (? & ? & ((? & [= <-] & ?) & _) & _); congruence| |
     split; [done|]; intros (? & ? & ((? & [= <-] & ?) & _) & _); congruence].
  assert (∀ k, (∃ suffix0, Some suffix = Some suffix0 ∧ adj_index_of suffix0 = AdjIPv4 k) ↔ k = key) as Hk.
  { intros k. split; [|intros ->; by exists suffix]. intros (? & [= <-] & ?). congruence. }
  setoid_rewrite Hk. clear Hk Hi.
  unfold adj_out. destruct (bool_decide_reflect (states !! key = Some isisAdjStateUp)) as [Hs|Hs]; simpl; [|naive_solver].
  destruct (PDUIPv4 p) as [ip|]; [|naive_solver].
  destruct (IsUnspecified ip) eqn:E1, (IsLinkLocalUnicast ip) eqn:E2; simpl; try naive_solver congruence.
  destruct (is_OutOfScope ip nets) eqn:E3; naive_solver congruence.
Qed.

Lemma isis_out_walked local states names reason nets now p :
  out_walked isis_form local now (isis_out local states names reason nets now p).
Proof.
  unfold isis_out. destruct (TrimOIDPrefix _ _); [|done]. destruct (adj_index_of _); try done.
  unfold adj_out. destruct (negb _); [done|]. destruct (PDUIPv4 p); [|done]. by split_ifs.
Qed.

Lemma isis_value acquired local nets now es oos :
  W_value (isis_Walk acquired local nets now) = inr (es, oos) →
  ∃ s states names reason pdus, acquired = inr s ∧ s oidISISAdjIPAddr = inr pdus ∧
    (es, oos) = (collect_rows (isis_out local states names reason nets now <$> pdus)).1.
Proof.
  intros (s & -> & Hv)%with_session_value. apply W_value_bind in Hv as ([states sd] & _ & Hv).
  apply W_value_bind in Hv as ([names reasons] & _ & Hv). apply W_value_bind in Hv as ([[es' oos'] v6] & Hi & Hv).
  apply W_value_bind in Hi as (pdus & Hp & Hi). apply W_value_bind in Hv as (? & _ & Hv).
  injection Hv as <- <-. injection Hi as Hi1 Hi2 _. eexists s, states, names, _, pdus. split; [done|]. split; [done|].
  by rewrite <- Hi1, <- Hi2.
Qed.

Lemma isis_walked acquired local nets now r :
  W_value (isis_Walk acquired local nets now) = inr r → walked isis_form local now r.
Proof.
  destruct r as [es oos]. intros (s & states & names & reason & pdus & _ & _ & ->)%isis_value.
  apply collect_walked, Forall_forall. intros o (p & -> & _)%list_elem_of_fmap. apply isis_out_walked.
Qed.

(** The rows of a walk whose tables answer. *)
Lemma isis_rows_exact s states names reason local nets now pdus :
  s oidISISAdjIPAddr = inr pdus →
  ∃ es oos, walkAdjIPAddrs s local states names reason nets now = ([], inr (es, oos, existsb is_ipv6_row pdus)) ∧
    (∀ e, e ∈ es → ∃ p key ip port r, p ∈ pdus ∧ active states nets p key ip ∧
       e = isis_edge local port ip r now ∧ (port = "" → r ≠ "")) ∧
    (∀ p key ip, p ∈ pdus → active states nets p key ip → ∃ port r, isis_edge local port ip r now ∈ es).
Proof.
  intros Hs. unfold walkAdjIPAddrs, BulkWalk. rewrite Hs. cbn [W_bind W_ret].
  eexists _, _. split; [reflexivity|]. split.
  - intros e (p & He & Hp)%elem_of_out_edges%list_elem_of_fmap. symmetry in He.
    apply isis_out_edge in He as (key & ip & Ha & ->). cbv zeta.
    eexists p, key, ip, _, _. split; [done|]. split; [done|]. split; [reflexivity|].
    intros ->. rewrite (bool_decide_eq_true_2 ("" = "")), orb_true_r, andb_true_r by done. by case_bool_decide.
  - intros p key ip Hp Ha. eexists _, _. apply elem_of_out_edges, list_elem_of_fmap.
    exists p. split; [|done]. symmetry. apply isis_out_edge. exists key, ip. split; [done|]. reflexivity.
Qed.

Lemma isis_circuits_ok s states :
  ∃ ev names reasons, isis_circuits s states = (ev, inr (names, reasons)) ∧
    Forall (λ e, ∃ i, e = EvDecodeIssue i) ev.
Proof.
  unfold isis_circuits. case_bool_decide; [eexists _, _, _; split; [reflexivity|constructor]|].
  assert (Forall (λ e, ∃ i, e = EvDecodeIssue i) (walkCircuitIfNames s).1) as Hev.
  { unfold walkCircuitIfNames, WalkIntMap, WalkIfDescr, BulkWalk. destruct (s oidISISCircIfIndex) as [|pdus]; [constructor|].
    cbn [W_bind]. destruct (WalkToIntMapStrict _ _ _) as [[m st] issues]. cbn [app].
    assert (Forall (λ e, ∃ i, e = EvDecodeIssue i) (EvDecodeIssue <$> issues)) as Hf.
    { apply Forall_forall. intros e (i & -> & _)%list_elem_of_fmap. eauto. }
    destruct (s OIDIfDescr); simpl; by rewrite ?app_nil_r. }
  unfold W_try, W_bind. destruct (walkCircuitIfNames s) as [ev [err|[names reason]]]; simpl in *;
    eexists _, _, _; (split; [reflexivity|by rewrite app_nil_r]).
Qed.

Lemma walkAdjStates_ok s spdus :
  s oidISISAdjState = inr spdus →
  InvalidRows (WalkToIntMapStrict "isis" oidISISAdjState spdus).1.2 * 2 ≤ Z.of_nat (length spdus) →
  ∃ ev sd, walkAdjStates s = (ev, inr ((WalkToIntMapStrict "isis" oidISISAdjState spdus).1.1, sd)) ∧
    Forall (λ e, ∃ i, e = EvDecodeIssue i) ev.
Proof.
  intros Hs Hinv. unfold walkAdjStates. rewrite (WalkIntMap_ok _ _ _ _ Hs).
  pose proof (half_policy_soft "isis" oidISISAdjState spdus Hinv) as Hsoft.
  destruct (WalkToIntMapStrict _ _ _) as [[m st] issues]. cbn [fst snd W_bind] in *.
  assert (Forall (λ e, ∃ i, e = EvDecodeIssue i) (EvDecodeIssue <$> issues)) as Hf.
  { apply Forall_forall. intros e (i & -> & _)%list_elem_of_fmap. eauto. }
  destruct (EvaluateRequiredTablePolicy st half_policy) as [| |r]; [..|by destruct (Hsoft r)];
    cbn [W_ret]; rewrite app_nil_r; eauto.
Qed.
End Isis.

(** IS-IS edges are exactly the adjacencies that are up. When the state table answers
    with at most half of its variables undecodable and the address table answers, the
    walk succeeds, whatever becomes of the circuit and interface tables. Every edge comes
    from an IPv4 row of an adjacency whose last decodable state is up and whose address
    is usable and in scope, and every such row gives an edge; an edge without a source
    port is marked degraded; skipped IPv6 rows are reported once. *)
Theorem isis_edges_exact `{NetText} (s : session) (spdus ipdus : list SnmpPDU) (local : string)
    (nets : list IPNet) (now : time) :
  s oidISISAdjState = inr spdus → s oidISISAdjIPAddr = inr ipdus →
  InvalidRows (WalkToIntMapStrict "isis" oidISISAdjState spdus).1.2 * 2 ≤ Z.of_nat (length spdus) →
  let states := (WalkToIntMapStrict "isis" oidISISAdjState spdus).1.1 in
  (∀ k, states !! k = last (omap (set_at (good_row ("." +:+ oidISISAdjState +:+ ".")) k) spdus)) ∧
  ∃ es oos, W_value (isis_Walk (inr s) local nets now) = inr (es, oos) ∧
    (∀ e, e ∈ es → ∃ p key ip, p ∈ ipdus ∧ active states nets p key ip ∧ DstDevice e = IP_String ip) ∧
    (∀ p key ip, p ∈ ipdus → active states nets p key ip → ∃ port r, isis_edge local port ip r now ∈ es) ∧
    (∀ e, e ∈ es → SrcPort e = "" → Metadata e !! MetadataKeyDegraded = Some "true") ∧
    (EvDegraded "isis" DegradedReasonUnsupportedIPVersion ∈ W_events (isis_Walk (inr s) local nets now) ↔
     existsb is_ipv6_row ipdus = true).
Proof.
  intros Hs Hi Hinv states. split; [intros k; apply int_map_last|].
  destruct (walkAdjStates_ok s spdus Hs Hinv) as (ev1 & sd & Hst & Hev1). fold states in Hst.
  destruct (isis_circuits_ok s states) as (ev2 & names & reasons & Hc & Hev2).
  set (reason := JoinReasonCodes ((if sd then [DegradedReasonRequiredTablePartialDecode] else []) ++ reasons)).
  destruct (isis_rows_exact s states names reason local nets now ipdus Hi) as (es & oos & Hr & Hsound & Hcomplete).
  assert (isis_Walk (inr s) local nets now =
    (ev1 ++ ev2 ++ (if existsb is_ipv6_row ipdus then [EvDegraded "isis" DegradedReasonUnsupportedIPVersion] else [])
       ++ [EvRelease None], inr (es, oos))) as Hw.
  { unfold isis_Walk. cbn [with_session]. rewrite Hst. cbn [W_bind]. rewrite Hc. cbn [W_bind]. fold reason. rewrite Hr.
    cbn [W_bind W_emit W_ret app]. by rewrite !app_nil_r, <- !app_assoc. }
  exists es, oos. rewrite Hw. split; [done|]. split; [|split; [done|split]].
  - intros e (p & key & ip & port & r & Hp & Ha & -> & _)%Hsound. by exists p, key, ip.
  - intros e (p & key & ip & port & r & Hp & Ha & -> & Hr')%Hsound. simpl. intros Hport.
    unfold isisMetadata. rewrite bool_decide_eq_false_2 by auto. by rewrite lookup_insert_eq.
  - assert (∀ ev, Forall (λ e, ∃ i, e = EvDecodeIssue i) ev →
      EvDegraded "isis" DegradedReasonUnsupportedIPVersion ∉ ev) as Hno.
    { intros ev Hf Hin. rewrite Forall_forall in Hf. by destruct (Hf _ Hin). }
    unfold W_events. cbn [fst]. rewrite !elem_of_app. split.
    + intros [?|[?|[Hin|Hin]]]; [by destruct (Hno ev1)|by destruct (Hno ev2)| |by apply list_elem_of_singleton in Hin].
      destruct (existsb is_ipv6_row ipdus); [done|by apply elem_of_nil in Hin].
    + intros ->. right. right. left. by left.
Qed.

(** ** Witness *)

Definition sample_adj_states : list SnmpPDU := [mkPDU ".1.3.6.1.2.1.138.1.6.1.1.2.1.4.9" (VInt 3)].
Definition sample_adj_addrs : list SnmpPDU :=
  [mkPDU ".1.3.6.1.2.1.138.1.6.2.1.2.1.4.9.1.4.10.0.0.2" (VBytes (octet_string [10; 0; 0; 2]))].

(** The circuit and interface tables do not answer. *)
Definition sample_isis : session := λ oid,
  if bool_decide (oid = oidISISAdjState) then inr sample_adj_states
  else if bool_decide (oid = oidISISAdjIPAddr) then inr sample_adj_addrs
  else inl (mkWalkError None true false false).

Lemma isis_edges_exact_witness :
  ∃ es oos, W_value (isis_Walk (N := go_net) (inr sample_isis) "r1" [] 7) = inr (es, oos) ∧
    ∃ port r, isis_edge (N := go_net) "r1" port [10; 0; 0; 2] r 7 ∈ es.
Proof.
  destruct (isis_edges_exact (H := go_net) sample_isis sample_adj_states sample_adj_addrs "r1" [] 7)
    as (_ & es & oos & Hv & _ & Hc & _).
  - vm_compute. reflexivity.
  - vm_compute. reflexivity.
  - vm_compute. discriminate.
  - exists es, oos. split; [exact Hv|].
    apply (Hc (mkPDU ".1.3.6.1.2.1.138.1.6.2.1.2.1.4.9.1.4.10.0.0.2" (VBytes (octet_string [10; 0; 0; 2]))) "1.4.9").
    + apply list_elem_of_here.
    + split; [exists "1.4.9.1.4.10.0.0.2"; split; vm_compute; reflexivity|].
      split; [vm_compute; reflexivity|]. split; [vm_compute; reflexivity|]. split; [vm_compute; reflexivity|].
      split; vm_compute; reflexivity.
Defined.
