(* ===== verification/Fdb.v ===== *)
(** * internal/discovery/fdb: the bridge forwarding database

    fdb.go and vlan_community.go: the forwarding entries of BRIDGE-MIB, Q-BRIDGE-MIB and
    the per-VLAN tables behind community@vlan, the bridge ports and their spanning-tree
    states, and the edges of the ports with exactly one learned address.

    The per-VLAN sessions are opened by goroutines that share nothing but the slots of
    the result slice: what becomes of each is an argument ([vlan_out], by community), and
    the order of the events of different VLANs carries no meaning. *)

From Stdlib Require Import ZArith Lia Ascii.
From S2P Require Import Prelude GoText Discovery Limits HubValidate Pdu NetAddr Walker.
Open Scope Z_scope.

Definition oidFdbTable : string := "1.3.6.1.2.1.17.4.3".
Definition oidBasePortTable : string := "1.3.6.1.2.1.17.1.4".
Definition oidStpPortTable : string := "1.3.6.1.2.1.17.2.15".
Definition oidQBridgeFdbTable : string := "1.3.6.1.2.1.17.7.1.2.2".
Definition oidVlanCurrentTable : string := "1.3.6.1.2.1.17.7.1.4.2".
Definition fdb_precedenceRank : Z := 4.
Definition fdbStatusLearned : Z := 3.
Definition stpStateForwarding : Z := 5.
Definition colFdbAddress : Z := 1.
Definition colFdbPort : Z := 2.
Definition colFdbStatus : Z := 3.
Definition walkerFDB : string := "fdb".
Definition reasonQBridgeWalkFailed : string := "qbridge_walk_failed".
Definition reasonVLANWalkFailed : string := "vlan_walk_failed".
Definition colQBridgePort : Z := 2.
Definition colQBridgeStatus : Z := 3.
Definition colBasePortIfIndex : Z := 2.
Definition colStpPortState : Z := 3.

Record fdbEntry := mkFdbEntry {
  fdb_mac : option string;
  fdb_port : Z;
  fdb_status : Z
}.

Definition no_fdb : fdbEntry := mkFdbEntry None 0 0.

Definition fdb_form : edge_form :=
  mkForm DiscoveryProtocolFDB fdb_precedenceRank ConfidenceMedium AdjacencyDirect LinkKindEthernet.

Definition fdb_issue (oid reason : string) : walk_event := ReportDecodeIssue walkerFDB oid reason 1.

(** ** Forwarding entries *)

(** [if p := snmputil.PDUInt(pdu); p > 0 { e.port = p }]. *)
Definition set_port (p : SnmpPDU) (e : fdbEntry) : fdbEntry :=
  if 0 <? PDUInt p then mkFdbEntry (fdb_mac e) (PDUInt p) (fdb_status e) else e.

(** One variable of dot1dTpFdbTable. *)
Definition fdb_row (p : SnmpPDU) : option (string * (fdbEntry → fdbEntry)) * list walk_event :=
  match TrimOIDPrefix (pdu_Name p) ".1.3.6.1.2.1.17.4.3.1." ≫= SplitOIDComponent with
  | None => (None, [])
  | Some (col, macKey) =>
      if bool_decide (macKey = "") then (None, [])
      else if col =? colFdbAddress
      then (Some (macKey, λ e, mkFdbEntry (PDUBytes p) (fdb_port e) (fdb_status e)), [])
      else if col =? colFdbPort then (Some (macKey, set_port p), [])
      else if col =? colFdbStatus then
        match PDUIntStrict p with
        | None => (Some (macKey, id), [fdb_issue oidFdbTable "status_undecodable"])
        | Some s => (Some (macKey, λ e, mkFdbEntry (fdb_mac e) (fdb_port e) s), [])
        end
      else (Some (macKey, id), [])
  end.

(** The entries after the table, and whether it had any variable. *)
Definition walkFdbTableInto (s : session) (entries : gmap string fdbEntry) : W (gmap string fdbEntry * bool) :=
  let! pdus := BulkWalk s oidFdbTable in
  let! _ := W_emit (pdus ≫= λ p, (fdb_row p).2) in
  W_ret (fold_left (table_step no_fdb fdb_row) pdus entries, negb (bool_decide (pdus = []))).

Definition walkFdbTable (s : session) : W (gmap string fdbEntry * bool) := walkFdbTableInto s ∅.

Definition parseQBridgeIndex (rest : string) : option (string * string) :=
  let parts := strings_Split "."%char rest in
  if bool_decide (length parts < 7)%nat then None
  else
    let macParts := drop (length parts - 6) parts in
    (λ mac, (strings_Join macParts ".", octet_string mac)) <$> octets macParts.

(** [if e.mac == nil { e.mac = macBytes }]. *)
Definition set_mac (mac : string) (e : fdbEntry) : fdbEntry :=
  mkFdbEntry (match fdb_mac e with None => Some mac | Some m => Some m end) (fdb_port e) (fdb_status e).

(** One variable of dot1qTpFdbTable. *)
Definition qbridge_row (p : SnmpPDU) : option (string * (fdbEntry → fdbEntry)) * list walk_event :=
  match TrimOIDPrefix (pdu_Name p) ".1.3.6.1.2.1.17.7.1.2.2.1." ≫= SplitOIDComponent with
  | None => (None, [])
  | Some (col, rest) =>
      if bool_decide (rest = "") then (None, [])
      else if negb (col =? colQBridgePort) && negb (col =? colQBridgeStatus) then (None, [])
      else match parseQBridgeIndex rest with
           | None => (None, [])
           | Some (macKey, mac) =>
               if col =? colQBridgePort then (Some (macKey, λ e, set_mac mac (set_port p e)), [])
               else match PDUIntStrict p with
                    | None => (Some (macKey, id), [fdb_issue oidQBridgeFdbTable "status_undecodable"])
                    | Some s => (Some (macKey, λ e, set_mac mac (mkFdbEntry (fdb_mac e) (fdb_port e) s)), [])
                    end
           end
  end.

Definition walkQBridgeFdbTable (s : session) (entries : gmap string fdbEntry) : W (gmap string fdbEntry) :=
  let! pdus := BulkWalk s oidQBridgeFdbTable in
  let! _ := W_emit (pdus ≫= λ p, (qbridge_row p).2) in
  W_ret (fold_left (table_step no_fdb qbridge_row) pdus entries).

(** ** Bridge ports *)

(** The column and the port number of a variable of a table indexed by port. *)
Definition port_cell (prefix : string) (col : Z) (p : SnmpPDU) : option Z :=
  '(c, portStr) ← TrimOIDPrefix (pdu_Name p) prefix ≫= SplitOIDComponent;
  if c =? col then Atoi portStr else None.

Definition base_port_row (p : SnmpPDU) : option (Z * (Z → Z)) * list walk_event :=
  match port_cell ".1.3.6.1.2.1.17.1.4.1." colBasePortIfIndex p with
  | None => (None, [])
  | Some portNum =>
      if portNum <=? 0 then (None, [fdb_issue oidBasePortTable "bridge_port_index_invalid"])
      else (Some (portNum, λ _, PDUInt p), [])
  end.

Definition walkBasePortTable (s : session) : W (gmap Z Z) :=
  let! pdus := BulkWalk s oidBasePortTable in
  scan_table 0 base_port_row pdus.

Definition stp_row (p : SnmpPDU) : option (Z * (Z → Z)) * list walk_event :=
  match port_cell ".1.3.6.1.2.1.17.2.15.1." colStpPortState p with
  | None => (None, [])
  | Some portNum => (Some (portNum, λ _, PDUInt p), [])
  end.

Definition walkStpPortStates (s : session) : W (gmap Z Z) :=
  let! pdus := BulkWalk s oidStpPortTable in
  scan_table 0 stp_row pdus.

(** ** Edges *)

Definition isSpecialMAC (mac : string) : bool :=
  let bytes := bytes_of mac in
  negb (Z.land (default 0 (bytes !! 0%nat)) 1 =? 0) || forallb (λ b, b =? 0) bytes.

(** A valid address on a valid bridge port. *)
Definition fdb_decoded (e : fdbEntry) : bool :=
  bool_decide (slen (default "" (fdb_mac e)) = 6%nat) && negb (fdb_port e <=? 0).

(** The port and the address of an entry that counts. *)
Definition fdb_usable (stpStates : gmap Z Z) (e : fdbEntry) : option (Z * string) :=
  let mac := default "" (fdb_mac e) in
  if negb (fdb_decoded e) then None
  else if negb (fdb_status e =? fdbStatusLearned) then None
  else if isSpecialMAC mac then None
  else match stpStates !! fdb_port e with
       | Some state => if negb (state =? stpStateForwarding) then None else Some (fdb_port e, mac)
       | None => Some (fdb_port e, mac)
       end.

Definition add_mac (m : gmap Z (list string)) (pm : Z * string) : gmap Z (list string) :=
  <[pm.1 := default [] (m !! pm.1) ++ [pm.2]]> m.

Section Fdb.
Context `{N : NetText} `{R : MapRange}.

Definition fdb_port_name (ifNames : gmap Z string) (ifIdx : Z) : string :=
  let localPort := default "" (ifNames !! ifIdx) in
  if bool_decide (localPort = "") then "if" +:+ Itoa ifIdx else localPort.

Definition fdb_edge (localDevice localPort mac : string) (now : time) : Edge :=
  mkEdge localDevice localPort (HardwareAddr_String mac) "" DiscoveryProtocolFDB DirectionUnidirectional
    ConfidenceMedium AdjacencyDirect fdb_precedenceRank LinkKindEthernet now ∅.

(** The body of the loop over the ports. *)
Definition fdb_out (localDevice : string) (bridgePorts : gmap Z Z) (ifNames : gmap Z string) (now : time)
    (pm : Z * list string) : row_out * list walk_event :=
  let '(bridgePort, macs) := pm in
  match bridgePorts !! bridgePort with
  | None => (RowSkipped, [fdb_issue oidBasePortTable "ifindex_unmapped"])
  | Some ifIdx =>
      match macs with
      | [mac] => (RowEdge (fdb_edge localDevice (fdb_port_name ifNames ifIdx) mac now), [])
      | _ => (RowSkipped, [])
      end
  end.

Definition portMACs (entries : gmap string fdbEntry) (stpStates : gmap Z Z) : gmap Z (list string) :=
  fold_left add_mac (omap (λ ke, fdb_usable stpStates ke.2) (range_map 0 entries)) ∅.

Definition fdb_buildEdges (localDevice : string) (entries : gmap string fdbEntry) (bridgePorts : gmap Z Z)
    (ifNames : gmap Z string) (stpStates : gmap Z Z) (now : time) : W (list Edge * bool) :=
  let outs := fdb_out localDevice bridgePorts ifNames now <$> range_map 1 (portMACs entries stpStates) in
  (outs ≫= snd, inr (omap out_edge outs.*1, existsb (λ ke, fdb_decoded ke.2) (range_map 0 entries))).

(** ** VLANs *)

Definition vlan_cell (p : SnmpPDU) : option Z :=
  '(_, rest) ← TrimOIDPrefix (pdu_Name p) ".1.3.6.1.2.1.17.7.1.4.2.1." ≫= SplitOIDComponent;
  if bool_decide (rest = "") then None
  else
    '(_, vlanStr) ← SplitOIDComponent rest;
    if bool_decide (vlanStr = "") then None
    else
      vlanID ← Atoi vlanStr;
      if (vlanID <? 1) || (4094 <? vlanID) then None else Some vlanID.

Definition discoverVlanIDs (s : session) : list Z :=
  match s oidVlanCurrentTable with
  | inl _ => []
  | inr pdus =>
      let seen : gmap Z unit := fold_left (λ m p, match vlan_cell p with Some v => <[v := tt]> m | None => m end) pdus ∅ in
      sort_by Z.leb (range_map 2 seen).*1
  end.

(** What becomes of the goroutine of a VLAN. *)
Inductive vlan_out :=
  | VlanCancelled
  | VlanOpenFailed
  | VlanPanicked (before : list walk_event)
  | VlanOpened (s : session).

Definition vlan_walk (o : vlan_out) : list walk_event * gmap string fdbEntry :=
  match o with
  | VlanCancelled => ([], ∅)
  | VlanOpenFailed => ([EvDegraded walkerFDB reasonVLANWalkFailed], ∅)
  | VlanPanicked before => (before ++ [EvPanic "fdb_vlan_walk"], ∅)
  | VlanOpened s =>
      match walkFdbTableInto s ∅ with
      | (ev, inl _) => (ev ++ [EvDegraded walkerFDB reasonVLANWalkFailed], ∅)
      | (ev, inr (vlanEntries, _)) => (ev, vlanEntries)
      end
  end.

(** What the walk reads of snmputil.Params. *)
Record fdb_params := mkFdbParams {
  fp_IP : list Z;
  fp_V3 : bool;
  fp_Community : string;
  fp_MaxVlans : Z;
  fp_limited : bool
}.

Definition fdb_warn (p : fdb_params) (key : string) : walk_event :=
  EvWarn (if fp_limited p then Some (key +:+ IP_String (fp_IP p)) else None).

(** The VLANs that are walked, and the warning when there are more. *)
Definition vlans_walked (p : fdb_params) (s : session) (maxVlans : Z) : list walk_event * list Z :=
  let vlanIDs := discoverVlanIDs s in
  if maxVlans <? Z.of_nat (length vlanIDs)
  then ([fdb_warn p "fdb_vlan_truncated|"], take (Z.to_nat maxVlans) vlanIDs)
  else ([], vlanIDs).

Definition walkVlanCommunityFdbs (p : fdb_params) (s : session) (open : string → vlan_out)
    (entries : gmap string fdbEntry) (maxVlans : Z) : list walk_event * gmap string fdbEntry :=
  if fp_V3 p || bool_decide (fp_Community p = "") then ([], entries)
  else if has_byte "@"%char (fp_Community p) then ([fdb_warn p "fdb_community_at_sign|"], entries)
  else
    let '(ev, vlanIDs) := vlans_walked p s maxVlans in
    let results := (λ vlan, vlan_walk (open (fp_Community p +:+ "@" +:+ Itoa vlan))) <$> vlanIDs in
    (ev ++ (results ≫= fst), fold_left (λ m r, m ∪ r) results.*2 entries).

Definition fdb_Walk (p : fdb_params) (acquired : walk_error + session) (open : string → vlan_out)
    (localDevice : string) (now : time) : W (list Edge * list OutOfScopeNeighbour) :=
  let failed := [EvProtocolOutcome walkerFDB OutcomeError] in
  with_session failed acquired (λ s,
    let! (entries, hadFdbPDUs) := on_error failed (walkFdbTable s) in
    let bmibHadEntries := negb (bool_decide (entries = ∅)) in
    let! q := W_try (walkQBridgeFdbTable s entries) in
    let! entries :=
      match q with
      | inl _ => (if bmibHadEntries then [] else [EvDegraded walkerFDB reasonQBridgeWalkFailed], inr entries)
      | inr entries' => W_ret entries'
      end in
    let maxVlans := if fp_MaxVlans p <=? 0 then 100 else fp_MaxVlans p in
    let '(vlanEvents, entries) := walkVlanCommunityFdbs p s open entries maxVlans in
    let! _ := W_emit vlanEvents in
    let hadFdbPDUs := hadFdbPDUs || negb (bool_decide (entries = ∅)) in
    let! bridgePorts := on_error failed (walkBasePortTable s) in
    let! stpStates := on_error failed (walkStpPortStates s) in
    let! ifNames := on_error failed (WalkIfNamesWithFallback s) in
    let! (edges, decoded) := fdb_buildEdges localDevice entries bridgePorts ifNames stpStates now in
    let! _ := W_emit [EvProtocolOutcome walkerFDB
                        (ClassifyNeighbourOutcome (Z.of_nat (length edges)) hadFdbPDUs decoded)] in
    W_ret (edges, [])).
End Fdb.

(** ** Lemmas on the edges *)

Section FdbLemmas.
Context `{N : NetText} `{R : MapRange}.

Lemma omap_singleton {A B} (f : A → option B) (l : list A) (y : B) :
  NoDup l →
  omap f l = [y] ↔ ∃ x, x ∈ l ∧ f x = Some y ∧ ∀ x', x' ∈ l → is_Some (f x') → x' = x.
Proof.
  induction 1 as [|a l Ha Hl IH]; [split; [done|by intros (? & ?%elem_of_nil & _)]|].
  change (omap f (a :: l)) with (match f a with Some b => b :: omap f l | None => omap f l end).
  destruct (f a) as [b|] eqn:Hf.
  - split.
    + intros [= -> Hnil]. exists a. split; [by left|]. split; [done|].
      intros x' [->|Hx]%elem_of_cons [z Hz]; [done|]. exfalso.
      assert (z ∈ omap f l) as Hin by (apply list_elem_of_omap; eauto). rewrite Hnil in Hin. by apply elem_of_nil in Hin.
    + intros (x & Hx & Hy & Hu). assert (a = x) as <- by (apply Hu; [by left|by rewrite Hf]).
      rewrite Hf in Hy. injection Hy as ->. f_equal. destruct (omap f l) as [|z t] eqn:Ho; [done|].
      exfalso. assert (z ∈ omap f l) as (x' & Hx' & Hz)%list_elem_of_omap by (rewrite Ho; by left).
      assert (x' = a) as -> by (apply Hu; [by right|by rewrite Hz]). done.
  - rewrite IH. split.
    + intros (x & Hx & Hy & Hu). exists x. split; [by right|]. split; [done|].
      intros x' [->|Hx']%elem_of_cons Hz; [rewrite Hf in Hz; by destruct Hz|by apply Hu].
    + intros (x & Hx & Hy & Hu). apply elem_of_cons in Hx as [->|Hx]; [congruence|].
      exists x. split; [done|]. split; [done|]. intros x' Hx' Hz. apply Hu; [by right|done].
Qed.

Definition on_port (stp : gmap Z Z) (port : Z) (ke : string * fdbEntry) : option string :=
  match fdb_usable stp ke.2 with
  | Some (q, mac) => if decide (q = port) then Some mac else None
  | None => None
  end.

Lemma add_mac_lookup {A} (f : A → option (Z * string)) l (m : gmap Z (list string)) port :
  let macs := omap (λ a, match f a with Some (q, mac) => if decide (q = port) then Some mac else None | None => None end) l in
  fold_left add_mac (omap f l) m !! port =
  match macs with [] => m !! port | _ => Some (default [] (m !! port) ++ macs) end.
Proof.
  set (g := λ a, match f a with Some (q, mac) => _ | None => None end). cbv zeta.
  revert m. induction l as [|a l IH]; intros m; [done|].
  change (omap f (a :: l)) with (match f a with Some b => b :: omap f l | None => omap f l end).
  change (omap g (a :: l)) with (match g a with Some b => b :: omap g l | None => omap g l end).
  pose proof (eq_refl (g a)) as Hg. unfold g at 2 in Hg.
  destruct (f a) as [[q mac]|]; rewrite Hg; [|apply IH]. cbn [fold_left]. rewrite IH. unfold add_mac. cbn [fst snd].
  set (rest := omap g l). clearbody rest. destruct (decide (q = port)) as [->|Hne].
  - rewrite lookup_insert_eq. simpl. destruct rest as [|r rest]; [done|]. by rewrite <- app_assoc.
  - by rewrite lookup_insert_ne.
Qed.

Lemma portMACs_lookup entries stp port :
  portMACs entries stp !! port =
  match omap (on_port stp port) (range_map 0 entries) with [] => None | macs => Some macs end.
Proof.
  unfold portMACs. rewrite (add_mac_lookup (λ ke, fdb_usable stp ke.2)). by destruct (omap _ _).
Qed.

(** What an entry must be to count for [port], in terms of its columns: six bytes of
    address, whose group bit is clear and which are not all zero; the status learned(3); and
    a port whose spanning-tree state is forwarding(5) if there is one. *)
Record counts (stp : gmap Z Z) (e : fdbEntry) (port : Z) (mac : string) : Prop := {
  ct_mac : fdb_mac e = Some mac;
  ct_length : slen mac = 6%nat;
  ct_group : ∃ first rest, bytes_of mac = first :: rest ∧ Z.testbit first 0 = false;
  ct_nonzero : ∃ b, b ∈ bytes_of mac ∧ b ≠ 0;
  ct_port : fdb_port e = port ∧ 0 < port;
  ct_learned : fdb_status e = 3;
  ct_forwarding : ∀ state, stp !! port = Some state → state = 5
}.

Lemma length_bytes_of s : length (bytes_of s) = slen s.
Proof. induction s as [|c s IH]; [done|]. cbn. by rewrite IH. Qed.

Lemma land_one b : Z.land b 1 = 0 ↔ Z.testbit b 0 = false.
Proof. change 1 with (Z.ones 1). rewrite Z.land_ones by done. rewrite Z.bit0_odd. change (2 ^ 1) with 2. rewrite Zmod_odd. by destruct (Z.odd b). Qed.

Lemma isSpecialMAC_false mac :
  slen mac = 6%nat →
  isSpecialMAC mac = false ↔
  (∃ first rest, bytes_of mac = first :: rest ∧ Z.testbit first 0 = false) ∧ ∃ b, b ∈ bytes_of mac ∧ b ≠ 0.
Proof.
  intros Hl. unfold isSpecialMAC. rewrite <- length_bytes_of in Hl. destruct (bytes_of mac) as [|first rest] eqn:Hb; [done|].
  cbn [lookup list_lookup default]. rewrite orb_false_iff, negb_false_iff, Z.eqb_eq.
  assert (forallb (λ b, b =? 0) (first :: rest) = false ↔ ∃ b, b ∈ first :: rest ∧ b ≠ 0) as Hz.
  { rewrite <- not_true_iff_false, forallb_elem. split.
    - intros Hn. destruct (list_exist_dec (λ b, b ≠ 0) (first :: rest)) as [?|Hno]; [intros b; apply _|done|].
      exfalso. apply Hn. intros b Hin. apply Z.eqb_eq. destruct (decide (b = 0)); [done|]. exfalso. apply Hno. eauto.
    - intros (b & Hin & Hne) Hall. specialize (Hall b Hin). by apply Z.eqb_eq in Hall. }
  rewrite Hz. change (default 0 (Some first)) with first. rewrite land_one. split; [|naive_solver].
  intros [Hg Hex]. split; [by exists first, rest|done].
Qed.

Lemma fdb_usable_counts stp e port mac : fdb_usable stp e = Some (port, mac) ↔ counts stp e port mac.
Proof.
  unfold fdb_usable, fdb_decoded, fdbStatusLearned, stpStateForwarding. split.
  - destruct (fdb_mac e) as [m|] eqn:Hm; [|done]. change (default "" (Some m)) with m. intros H.
    destruct (bool_decide _ && _) eqn:Hd; [|done]. cbn [negb] in H. bprop.
    destruct (fdb_status e =? 3) eqn:Hs; [|done]. cbn [negb] in H. bprop.
    destruct (isSpecialMAC m) eqn:Hsp; [done|]. apply isSpecialMAC_false in Hsp as [Hg Hn]; [|done].
    assert (fdb_port e = port ∧ m = mac ∧ ∀ state, stp !! port = Some state → state = 5) as (<- & <- & Hf).
    { destruct (stp !! fdb_port e) as [st|] eqn:Hst; [destruct (st =? 5) eqn:H5; [|done]; bprop|]; injection H as <- <-;
        split_and!; try done; intros state; rewrite Hst; congruence. }
    by split.
  - intros [Hm Hl Hg Hn [<- Hp] Hs Hf]. rewrite Hm. change (default "" (Some mac)) with mac. rewrite bool_decide_eq_true_2 by done.
    rewrite (proj2 (Z.leb_gt _ _)) by lia. cbn [andb negb]. rewrite Hs. cbn [negb Z.eqb Pos.eqb].
    rewrite (proj2 (isSpecialMAC_false mac Hl)) by done. destruct (stp !! fdb_port e) as [st|]; [|done].
    by rewrite (Hf st eq_refl).
Qed.

(** The only entry that counts on a bridge port. *)
Definition sole_entry (entries : gmap string fdbEntry) (stp : gmap Z Z) (port : Z) (k mac : string) : Prop :=
  (∃ e, entries !! k = Some e ∧ counts stp e port mac) ∧
  ∀ k' e' mac', entries !! k' = Some e' → counts stp e' port mac' → k' = k.

Lemma portMACs_sole entries stp port mac :
  portMACs entries stp !! port = Some [mac] ↔ ∃ k, sole_entry entries stp port k mac.
Proof.
  assert (NoDup (range_map 0 entries)) as Hnd by (eapply NoDup_fmap_1, range_NoDup).
  rewrite portMACs_lookup. trans (omap (on_port stp port) (range_map 0 entries) = [mac]).
  { destruct (omap _ _) as [|m [|]]; naive_solver. }
  rewrite omap_singleton by done. unfold on_port, sole_entry. setoid_rewrite <- fdb_usable_counts. split.
  - intros ([k e] & Hk%elem_of_range & Hu & Hall). exists k. cbn [snd] in Hu.
    destruct (fdb_usable stp e) as [[q m]|] eqn:He; [|done]. destruct (decide (q = port)) as [->|]; [|done].
    injection Hu as ->. split; [by exists e|]. intros k' e' mac' Hk' He'.
    assert ((k', e') = (k, e)) as [= -> ->]; [|done]. apply Hall; [by apply elem_of_range|].
    cbn [snd]. rewrite He'. by rewrite decide_True.
  - intros (k & (e & Hk & He) & Hall). exists (k, e). split; [by apply elem_of_range|]. cbn [snd].
    rewrite He, decide_True by done. split; [done|]. intros [k' e'] Hk'%elem_of_range [m Hm]. cbn [snd] in Hm.
    destruct (fdb_usable stp e') as [[q m']|] eqn:He'; [|done]. destruct (decide (q = port)) as [->|]; [|done].
    assert (k' = k) as -> by (by eapply Hall). congruence.
Qed.

Lemma fdb_out_walked local ports names now pm : out_walked fdb_form local now (fdb_out local ports names now pm).1.
Proof. destruct pm as [port macs]. unfold fdb_out. destruct (ports !! port); [|done]. by destruct macs as [|? []]. Qed.

Lemma fdb_outs_length local ports names now l :
  let outs := fdb_out local ports names now <$> l in
  (length (omap out_edge outs.*1) + length (outs ≫= snd) ≤ length l)%nat.
Proof.
  cbv zeta. induction l as [|[port macs] l IH]; [done|]. rewrite !fmap_cons, bind_cons, length_app.
  assert ((match out_edge (fdb_out local ports names now (port, macs)).1 with Some _ => 1 | None => 0 end +
    length (fdb_out local ports names now (port, macs)).2 ≤ 1)%nat) as Hone.
  { unfold fdb_out. destruct (ports !! port); [destruct macs as [|mac [|]]|]; simpl; lia. }
  destruct (fdb_out local ports names now (port, macs)) as [o ev]. cbn [fst snd length] in *.
  set (outs := fdb_out local ports names now <$> l) in *.
  change (omap out_edge (o :: outs.*1)) with
    (match out_edge o with Some b => b :: omap out_edge outs.*1 | None => omap out_edge outs.*1 end).
  destruct (out_edge o); cbn [length] in *; lia.
Qed.

Lemma fdb_edges_spec local entries ports names stp now e :
  e ∈ omap out_edge (fdb_out local ports names now <$> range_map 1 (portMACs entries stp)).*1 ↔
  ∃ port k mac ifIdx, sole_entry entries stp port k mac ∧ ports !! port = Some ifIdx ∧
    e = fdb_edge local (fdb_port_name names ifIdx) mac now.
Proof.
  rewrite elem_of_out_edges, list_elem_of_fmap. split.
  - intros (o & He & ([port macs] & -> & Hp%elem_of_range)%list_elem_of_fmap). unfold fdb_out in He.
    destruct (ports !! port) as [ifIdx|] eqn:Hi; [|done]. destruct macs as [|mac [|]]; try done. injection He as ->.
    apply portMACs_sole in Hp as [k Hk]. by exists port, k, mac, ifIdx.
  - intros (port & k & mac & ifIdx & Hk & Hi & ->).
    exists (fdb_out local ports names now (port, [mac])). unfold fdb_out at 1. rewrite Hi. split; [done|].
    apply list_elem_of_fmap. exists (port, [mac]). split; [done|]. apply elem_of_range, portMACs_sole. eauto.
Qed.

Lemma fdb_edge_literal local names ifIdx mac now e :
  e = fdb_edge local (fdb_port_name names ifIdx) mac now ↔
  ∃ name, (names !! ifIdx = Some name ∧ name ≠ "" ∨
           (names !! ifIdx = None ∨ names !! ifIdx = Some "") ∧ name = "if" +:+ Itoa ifIdx) ∧
    e = mkEdge local name (HardwareAddr_String mac) "" DiscoveryProtocolFDB DirectionUnidirectional
          ConfidenceMedium AdjacencyDirect 4 LinkKindEthernet now ∅.
Proof.
  unfold fdb_edge, fdb_port_name. destruct (names !! ifIdx) as [name|].
  - change (default "" (Some name)) with name. case_bool_decide as Hn; split.
    + intros ->. eexists. split; [|reflexivity]. right. split; [right; by rewrite Hn|done].
    + by intros (n & [[[= ->] ?]|[_ ->]] & ->).
    + intros ->. eexists. split; [|reflexivity]. by left.
    + by intros (n & [[[= ->] ?]|[[?|[= ->]] _]] & ->).
  - rewrite bool_decide_eq_true_2 by done. split.
    + intros ->. eexists. split; [|reflexivity]. right. by split; [left|].
    + by intros (n & [[? _]|[_ ->]] & ->).
Qed.

Lemma fdb_decoded_literal e : fdb_decoded e = true ↔ slen (default "" (fdb_mac e)) = 6%nat ∧ 0 < fdb_port e.
Proof. unfold fdb_decoded. rewrite andb_true_iff, bool_decide_eq_true, negb_true_iff, Z.leb_gt. done. Qed.

Lemma fdb_value p acquired open local now es oos :
  W_value (fdb_Walk p acquired open local now) = inr (es, oos) →
  oos = [] ∧ ∃ s entries ports names stp, acquired = inr s ∧ W_value (WalkIfNamesWithFallback s) = inr names ∧
    W_value (walkBasePortTable s) = inr ports ∧
    es = omap out_edge (fdb_out local ports names now <$> range_map 1 (portMACs entries stp)).*1.
Proof.
  intros (s & -> & Hv)%with_session_value.
  apply W_value_bind in Hv as ([e0 had] & _ & Hv). apply W_value_bind in Hv as (q & _ & Hv).
  apply W_value_bind in Hv as (e1 & _ & Hv). cbv zeta in Hv.
  destruct (walkVlanCommunityFdbs _ _ _ _ _) as [vev e2].
  apply W_value_bind in Hv as (? & _ & Hv). apply W_value_bind in Hv as (ports & Hp & Hv).
  apply W_value_bind in Hv as (stp & Hs & Hv). apply W_value_bind in Hv as (names & Hn & Hv).
  apply W_value_bind in Hv as ([es' dec] & He & Hv). apply W_value_bind in Hv as (? & _ & Hv).
  rewrite W_value_on_error in Hp. rewrite W_value_on_error in Hn. injection Hv as <- <-. injection He as He _.
  split; [done|]. exists s, e2, ports, names, stp. by rewrite He.
Qed.

Lemma base_ports_int s ports port ifIdx :
  session_wf s → W_value (walkBasePortTable s) = inr ports → ports !! port = Some ifIdx → MinInt ≤ ifIdx ≤ MaxInt.
Proof.
  intros Hwf (pdus & Hs & Ht)%W_value_bind Hp. injection Ht as <-. pose proof (Hwf _ _ Hs) as Hall. revert port ifIdx Hp.
  apply (fold_left_inv (λ m : gmap Z Z, ∀ port ifIdx, m !! port = Some ifIdx → MinInt ≤ ifIdx ≤ MaxInt)).
  - intros port ifIdx. by rewrite lookup_empty.
  - intros m p Hin IH port ifIdx. unfold table_step, base_port_row, upsert.
    destruct (port_cell _ _ p) as [q|]; [|apply IH]. destruct (q <=? 0); [apply IH|]. cbn [fst].
    intros [[<- <-]|[_ ?]]%lookup_insert_Some; [|by eapply IH].
    rewrite Forall_forall in Hall. by apply PDUInt_range, Hall.
Qed.

Lemma fdb_walked p acquired open local now r :
  W_value (fdb_Walk p acquired open local now) = inr r → walked fdb_form local now r.
Proof.
  destruct r as [es oos]. intros (-> & s & entries & ports & names & stp & _ & _ & _ & ->)%fdb_value.
  split; [|constructor]. simpl. apply Forall_forall. intros e He%elem_of_out_edges.
  apply list_elem_of_fmap in He as (o & He & (pm & -> & _)%list_elem_of_fmap).
  pose proof (fdb_out_walked local ports names now pm) as Hw. by rewrite <- He in Hw.
Qed.

(** ** Lemmas on the VLANs *)

Lemma fold_union_lookup (rs : list (gmap string fdbEntry)) m k :
  fold_left (λ m r, m ∪ r) rs m !! k =
  match m !! k with Some e => Some e | None => head (omap (λ r, r !! k) rs) end.
Proof.
  revert m. induction rs as [|r rs IH]; intros m; [simpl; by destruct (m !! k)|].
  cbn [fold_left]. change (omap (λ r, r !! k) (r :: rs)) with
    (match r !! k with Some b => b :: omap (λ r, r !! k) rs | None => omap (λ r, r !! k) rs end).
  rewrite IH, lookup_union. destruct (m !! k) as [e|], (r !! k) as [e'|]; done.
Qed.

Lemma omap_fmap_lookup {A} (f : A → gmap string fdbEntry) (l : list A) k :
  omap (λ r, r !! k) (f <$> l) = omap (λ a, f a !! k) l.
Proof. induction l as [|a l IH]; [done|]. csimpl. by rewrite IH. Qed.

Definition vlan_seen (pdus : list SnmpPDU) : gmap Z unit :=
  fold_left (λ m p, match vlan_cell p with Some v => <[v := tt]> m | None => m end) pdus ∅.

Lemma vlan_seen_elem pdus v : is_Some (vlan_seen pdus !! v) ↔ ∃ p, p ∈ pdus ∧ vlan_cell p = Some v.
Proof.
  unfold vlan_seen. induction pdus as [|p pdus IH] using rev_ind.
  { simpl. rewrite lookup_empty. split; [by intros []|by intros (? & ?%elem_of_nil & _)]. }
  rewrite fold_left_app. cbn [fold_left].
  setoid_rewrite elem_of_app. setoid_rewrite list_elem_of_singleton.
  destruct (vlan_cell p) as [w|] eqn:Hc.
  - destruct (decide (w = v)) as [->|Hne]; [rewrite lookup_insert_eq; split; eauto|].
    rewrite lookup_insert_ne, IH by done. naive_solver.
  - rewrite IH. naive_solver.
Qed.

Lemma discoverVlanIDs_spec s pdus :
  s oidVlanCurrentTable = inr pdus →
  StronglySorted Z.lt (discoverVlanIDs s) ∧ ∀ v, v ∈ discoverVlanIDs s ↔ ∃ p, p ∈ pdus ∧ vlan_cell p = Some v.
Proof.
  intros Hs. unfold discoverVlanIDs. rewrite Hs. fold (vlan_seen pdus). set (ids := sort_by _ _).
  assert (∀ v, v ∈ ids ↔ ∃ p, p ∈ pdus ∧ vlan_cell p = Some v) as Hin.
  { intros v. unfold ids. rewrite elem_of_sort_by, <- vlan_seen_elem, list_elem_of_fmap. split.
    - intros ([w u] & -> & Hw%elem_of_range). eauto.
    - intros [u Hu]. exists (v, u). split; [done|]. by apply elem_of_range. }
  split; [|done].
  assert (NoDup ids) as Hnd by (unfold ids; rewrite sort_by_Permutation; apply range_NoDup).
  assert (StronglySorted (Rle Z.leb) ids) as Hss.
  { apply sort_by_StronglySorted; intros; rewrite ?Z.leb_le in *; lia. }
  clear Hin. induction Hss as [|v l Hl IH Hall]; constructor.
  - apply IH. by apply NoDup_cons in Hnd as [_ ?].
  - apply NoDup_cons in Hnd as [Hv _]. rewrite Forall_forall in Hall |- *. intros w Hw.
    specialize (Hall w Hw). unfold Rle in Hall. apply Z.leb_le in Hall.
    assert (v ≠ w) by (intros ->; done). lia.
Qed.

Lemma vlan_cell_range p v : vlan_cell p = Some v → 1 ≤ v ≤ 4094.
Proof.
  unfold vlan_cell. intros ([c r] & _ & H)%bind_Some. destruct (bool_decide _); [done|].
  apply bind_Some in H as ([t w] & _ & H). destruct (bool_decide _); [done|].
  apply bind_Some in H as (x & _ & H). destruct (_ || _) eqn:E; [done|]. injection H as <-. bprop. lia.
Qed.
End FdbLemmas.

(** ** Properties *)

(** C20: FDB edges are exactly the ports with one learned address. From the entries, the
    bridge ports, the interface names and the spanning-tree states, whatever the order of
    the maps: there is an edge if and only if some bridge port that maps to an interface
    has exactly one entry that counts (a six-byte address, learned, neither zero nor
    multicast, on a port not known to be other than forwarding); the edge is from the name
    of that interface, or its index, to the address.  No bridge port gives two edges, and a
    port without an interface is reported once. *)
Theorem fdb_edges_exact `{NetText} `{MapRange} (local : string) (entries : gmap string fdbEntry)
    (ports : gmap Z Z) (names : gmap Z string) (stp : gmap Z Z) (now : time) :
  ∃ ev es decoded, fdb_buildEdges local entries ports names stp now = (ev, inr (es, decoded)) ∧
    (∀ e, e ∈ es ↔ ∃ port k mac ifIdx, sole_entry entries stp port k mac ∧ ports !! port = Some ifIdx ∧
       ∃ name, (names !! ifIdx = Some name ∧ name ≠ "" ∨
                (names !! ifIdx = None ∨ names !! ifIdx = Some "") ∧ name = "if" +:+ Itoa ifIdx) ∧
         e = mkEdge local name (HardwareAddr_String mac) "" DiscoveryProtocolFDB DirectionUnidirectional
               ConfidenceMedium AdjacencyDirect 4 LinkKindEthernet now ∅) ∧
    (decoded = true ↔ ∃ k e, entries !! k = Some e ∧ slen (default "" (fdb_mac e)) = 6%nat ∧ 0 < fdb_port e) ∧
    (length es + length ev ≤ size (portMACs entries stp))%nat.
Proof.
  unfold fdb_buildEdges. eexists _, _, _. split; [reflexivity|]. split; [|split].
  - intros e. rewrite fdb_edges_spec. do 4 (f_equiv; intros ?). do 2 f_equiv. apply fdb_edge_literal.
  - rewrite existsb_elem. setoid_rewrite <- fdb_decoded_literal. split.
    + intros ([k e] & Hk%elem_of_range & Hd). eauto.
    + intros (k & e & Hk & Hd). exists (k, e). split; [by apply elem_of_range|done].
  - rewrite <- (length_map_to_list (portMACs entries stp)), <- (range_map_perm 1 (portMACs entries stp)).
    apply fdb_outs_length.
Qed.

(** the per-VLAN walk adds entries and never replaces one. With a v2c community that
    has no '@', the VLANs walked are the smallest of those the device lists, between 1
    and 4094, in order, at most maxVlans; the entries found before stay; a new key has
    the entry of the first of these VLANs that has it; a VLAN whose session does not
    open, whose walk fails or whose goroutine panics contributes nothing. *)
Theorem vlan_walk_adds `{NetText} `{MapRange} (p : fdb_params) (s : session) (pdus : list SnmpPDU)
    (open : string → vlan_out) (entries : gmap string fdbEntry) (maxVlans : Z) :
  fp_V3 p = false → fp_Community p ≠ "" → has_byte "@"%char (fp_Community p) = false →
  0 < maxVlans → s oidVlanCurrentTable = inr pdus →
  let ids := (vlans_walked p s maxVlans).2 in
  let of_vlan v := (vlan_walk (open (fp_Community p +:+ "@" +:+ Itoa v))).2 in
  let merged := (walkVlanCommunityFdbs p s open entries maxVlans).2 in
  StronglySorted Z.lt ids ∧ Z.of_nat (length ids) ≤ maxVlans ∧
  (∀ v, v ∈ ids → 1 ≤ v ≤ 4094 ∧ ∃ q, q ∈ pdus ∧ vlan_cell q = Some v) ∧
  (∀ q v, q ∈ pdus → vlan_cell q = Some v → v ∉ ids → Z.of_nat (length ids) = maxVlans ∧ ∀ w, w ∈ ids → w < v) ∧
  (∀ k, merged !! k = match entries !! k with Some e => Some e | None => head (omap (λ v, of_vlan v !! k) ids) end).
Proof.
  intros HV HC Hat Hmax Hs ids of_vlan merged.
  destruct (discoverVlanIDs_spec s pdus Hs) as [Hsort Hin].
  assert (∃ rest, discoverVlanIDs s = ids ++ rest ∧ (rest ≠ [] → Z.of_nat (length ids) = maxVlans) ∧
    Z.of_nat (length ids) ≤ maxVlans) as (rest & Hsplit & Hfull & Hlen).
  { unfold ids, vlans_walked. destruct (_ <? _) eqn:E; bprop; cbn [snd].
    - exists (drop (Z.to_nat maxVlans) (discoverVlanIDs s)). rewrite take_drop, length_take. split; [done|]. split; lia.
    - exists []. rewrite app_nil_r. split; [done|]. split; [done|lia]. }
  rewrite Hsplit in Hsort. pose proof (StronglySorted_app_1_l _ _ _ Hsort) as Hs1.
  split; [done|]. split; [done|]. split; [|split].
  - intros v Hv. assert (v ∈ discoverVlanIDs s) as (q & Hq & Hc)%Hin by (rewrite Hsplit; by apply elem_of_app; left).
    split; [by eapply vlan_cell_range|eauto].
  - intros q v Hq Hc Hv. assert (v ∈ discoverVlanIDs s) as Hd by (apply Hin; eauto).
    rewrite Hsplit in Hd. apply elem_of_app in Hd as [?|Hr]; [done|].
    split; [apply Hfull; by destruct rest; [apply elem_of_nil in Hr|]|].
    intros w Hw. by eapply (StronglySorted_app_1_elem_of Z.lt).
  - intros k. unfold merged, walkVlanCommunityFdbs. rewrite HV, Hat, bool_decide_eq_false_2 by done. cbn [orb].
    destruct (vlans_walked p s maxVlans) as [ev l].
    cbn [snd]. rewrite fold_union_lookup. destruct (entries !! k); [done|].
    rewrite <- list_fmap_compose, omap_fmap_lookup. reflexivity.
Qed.

(** What the hub asks of an FDB edge. *)
Lemma fdb_edge_ok `{N : NetText} `{!NetTextLaws N} `{MapRange} p acquired open local now es oos e :
  (∀ s, acquired = inr s → session_wf s) → local ≠ "" → text_ok MaxPortNameBytes local →
  W_value (fdb_Walk p acquired open local now) = inr (es, oos) → e ∈ es → DstDevice e ≠ local → edge_ok e.
Proof.
  intros Hwf Hl0 Hl (_ & s & entries & ports & names & stp & -> & Hn & Hp & ->)%fdb_value He Hself.
  apply fdb_edges_spec in He as (port & k & mac & ifIdx & [(en & _ & Hu) _] & Hi & ->).
  pose proof (ct_length _ _ _ _ Hu) as Hm.
  assert (MinInt ≤ ifIdx ≤ MaxInt) as Hr by (by eapply base_ports_int; [apply Hwf| |]).
  destruct (ntl_mac mac Hm) as [Hm0 Hmt]. simpl in Hself.
  assert (fdb_port_name names ifIdx ≠ "" ∧ text_ok MaxPortNameBytes (fdb_port_name names ifIdx)) as [Hp0 Hpt].
  { unfold fdb_port_name. case_bool_decide as Hd.
    - split; [done|]. apply numbered_ok; [done|simpl; lia|done].
    - split; [done|]. destruct (names !! ifIdx) as [v|] eqn:Hv; [|done]. by eapply WalkIfNamesWithFallback_ok. }
  split; simpl; [done|done| |].
  - repeat (constructor; [first [done|by apply printable_ok]|]). constructor.
  - intros k' v. by rewrite lookup_empty.
Qed.

(** ** Witnesses *)

Definition sample_vlans : list SnmpPDU :=
  [mkPDU ".1.3.6.1.2.1.17.7.1.4.2.1.3.0.20" (VInt 1); mkPDU ".1.3.6.1.2.1.17.7.1.4.2.1.3.0.10" (VInt 1)].

Definition sample_switch : session := answers [(oidVlanCurrentTable, sample_vlans)].

(** VLAN 10 has an address on port 3; the session of VLAN 20 does not open. *)
Definition sample_open (community : string) : vlan_out :=
  if bool_decide (community = "public@10") then
    VlanOpened (answers [(oidFdbTable, [mkPDU ".1.3.6.1.2.1.17.4.3.1.2.0.1.2.3.4.5" (VInt 3)])])
  else VlanOpenFailed.

Lemma vlan_walk_adds_witness :
  (walkVlanCommunityFdbs (N := go_net) (R := range_std) (mkFdbParams [10; 0; 0; 1] false "public" 100 true)
     sample_switch sample_open ∅ 100).2 !! "0.1.2.3.4.5" = Some (mkFdbEntry None 3 0).
Proof.
  destruct (vlan_walk_adds (H := go_net) (H0 := range_std) (mkFdbParams [10; 0; 0; 1] false "public" 100 true)
    sample_switch sample_vlans sample_open ∅ 100) as (_ & _ & _ & _ & Hk).
  - reflexivity.
  - discriminate.
  - reflexivity.
  - reflexivity.
  - vm_compute. reflexivity.
  - rewrite Hk. vm_compute. reflexivity.
Defined.
