(* ===== verification/SessionPool.v ===== *)
(** * internal/discovery/snmp/pool.go: the pool of SNMP sessions

    Sessions are shared mutable objects: a session is a number, and the heap says
    whether its connection is open and whether it still holds credentials.  The critical
    sections of the pool's mutex are functions on the pool and the heap; [acquire] has
    two, with the dial between them.  [exec] runs one critical section of one caller, so
    a list of actions is an interleaving of the pool's users. *)

From Stdlib Require Import ZArith Lia Ascii.
From S2P Require Import Prelude GoText Discovery Walker.
Open Scope Z_scope.

Definition evictionReasonIdle : string := "idle".
Definition evictionReasonCredentialRotation : string := "credential_rotation".
Definition evictionReasonConnectionError : string := "connection_error".

(** The fields ip and profile. *)
Notation poolKey := (string * string)%type.

Notation session_id := nat.

Record poolEntry := mkPoolEntry {
  pe_session : session_id;
  pe_lastUsed : time;
  pe_inUse : bool
}.

(** The calls of the metrics sink. *)
Inductive pool_metric :=
  | RecordHit
  | RecordMiss
  | SetSize (n : Z)
  | RecordEviction (reason : string).

Record SessionPool := mkSessionPool {
  pl_sessions : gmap poolKey poolEntry;
  pl_maxIdle : duration;
  pl_closed : bool;
  pl_metrics : list pool_metric
}.

(** A gosnmp session: is the connection open, are the credentials there. *)
Record conn := mkConn { c_open : bool; c_creds : bool }.

Notation conn_heap := (gmap nat conn).

Definition record (m : pool_metric) (pl : SessionPool) : SessionPool :=
  mkSessionPool (pl_sessions pl) (pl_maxIdle pl) (pl_closed pl) (pl_metrics pl ++ [m]).

Definition set_sessions (m : gmap poolKey poolEntry) (pl : SessionPool) : SessionPool :=
  mkSessionPool m (pl_maxIdle pl) (pl_closed pl) (pl_metrics pl).

Definition setSizeLocked (pl : SessionPool) : SessionPool :=
  record (SetSize (Z.of_nat (size (pl_sessions pl)))) pl.

(** [client.Conn.Close()]. *)
Definition conn_Close (s : session_id) (h : conn_heap) : conn_heap := alter (λ c, mkConn false (c_creds c)) s h.

Definition clearSessionCredentials (s : session_id) (h : conn_heap) : conn_heap :=
  alter (λ c, mkConn (c_open c) false) s h.

Definition closeSession (s : session_id) (h : conn_heap) : conn_heap := clearSessionCredentials s (conn_Close s h).

Definition isConnectionError (err : option walk_error) : bool :=
  match err with
  | None => false
  | Some e => if we_canceled e || we_deadline e then false else we_net e
  end.

(** ** Acquire *)

(** What the first critical section of [acquire] decides. *)
Inductive lookup_out := LookupHit (s : session_id) | LookupTransient | LookupCold.

Definition acquire_lookup (key : poolKey) (now : time) (pl : SessionPool) : SessionPool * lookup_out :=
  if pl_closed pl then (pl, LookupTransient)
  else match pl_sessions pl !! key with
       | Some e =>
           if pe_inUse e then (pl, LookupTransient)
           else (record RecordHit (set_sessions (<[key := mkPoolEntry (pe_session e) now true]> (pl_sessions pl)) pl),
                 LookupHit (pe_session e))
       | None => (pl, LookupCold)
       end.

(** The session a caller gets, and whether its release goes to the pool. *)
Record checkout := mkCheckout { co_session : session_id; co_pooled : option poolKey }.

(** The second critical section, after a dial that opened [client]. *)
Definition acquire_store (key : poolKey) (now : time) (client : session_id) (pl : SessionPool) (h : conn_heap)
  : SessionPool * conn_heap * checkout :=
  if pl_closed pl then (record RecordMiss pl, h, mkCheckout client None)
  else match pl_sessions pl !! key with
       | Some existing =>
           if pe_inUse existing then (record RecordMiss pl, h, mkCheckout client None)
           else (record RecordHit (set_sessions (<[key := mkPoolEntry (pe_session existing) now true]> (pl_sessions pl)) pl),
                 conn_Close client h, mkCheckout (pe_session existing) (Some key))
       | None =>
           (record RecordMiss (setSizeLocked (set_sessions (<[key := mkPoolEntry client now true]> (pl_sessions pl)) pl)),
            h, mkCheckout client (Some key))
       end.

(** ** Release *)

Definition returnKey (key : poolKey) (now : time) (pl : SessionPool) : SessionPool :=
  match pl_sessions pl !! key with
  | Some e => set_sessions (<[key := mkPoolEntry (pe_session e) now false]> (pl_sessions pl)) pl
  | None => pl
  end.

Definition evictKey (key : poolKey) (pl : SessionPool) (h : conn_heap) : SessionPool * conn_heap :=
  match pl_sessions pl !! key with
  | None => (pl, h)
  | Some e =>
      (record (RecordEviction evictionReasonConnectionError)
         (setSizeLocked (set_sessions (delete key (pl_sessions pl)) pl)),
       closeSession (pe_session e) h)
  end.

Definition releaseFunc (key : poolKey) (walkErr : option walk_error) (now : time) (pl : SessionPool) (h : conn_heap)
  : SessionPool * conn_heap :=
  if isConnectionError walkErr then evictKey key pl h else (returnKey key now pl, h).

(** The release of a checkout: to the pool, or closing a transient session. *)
Definition release (co : checkout) (walkErr : option walk_error) (now : time) (pl : SessionPool) (h : conn_heap)
  : SessionPool * conn_heap :=
  match co_pooled co with
  | Some key => releaseFunc key walkErr now pl h
  | None => (pl, conn_Close (co_session co) h)
  end.

(** ** Removal *)

Section Removal.
Context `{R : MapRange}.

(** The loop [for k, e := range pl.sessions] that closes and deletes what [cond] selects
    and records the reason, if there is one. *)
Definition drop_step (cond : poolKey → poolEntry → bool) (reason : option string)
    (st : SessionPool * conn_heap) (ke : poolKey * poolEntry) : SessionPool * conn_heap :=
  let '(pl, h) := st in
  if cond ke.1 ke.2 then
    let pl := set_sessions (delete ke.1 (pl_sessions pl)) pl in
    (match reason with Some r => record (RecordEviction r) pl | None => pl end, closeSession (pe_session ke.2) h)
  else (pl, h).

Definition drop_sessions (cond : poolKey → poolEntry → bool) (reason : option string)
    (pl : SessionPool) (h : conn_heap) : SessionPool * conn_heap :=
  let '(pl, h) := fold_left (drop_step cond reason) (range_map 0 (pl_sessions pl)) (pl, h) in
  (setSizeLocked pl, h).

Definition InvalidateProfile (name : string) (pl : SessionPool) (h : conn_heap) : SessionPool * conn_heap :=
  drop_sessions (λ k _, bool_decide (k.2 = name)) (Some evictionReasonCredentialRotation) pl h.

Definition Evict (now : time) (pl : SessionPool) (h : conn_heap) : SessionPool * conn_heap :=
  if pl_maxIdle pl <=? 0 then (pl, h)
  else drop_sessions (λ _ e, negb (pe_inUse e) && (pe_lastUsed e <? now - pl_maxIdle pl))
         (Some evictionReasonIdle) pl h.

Definition pool_Close (pl : SessionPool) (h : conn_heap) : SessionPool * conn_heap :=
  if pl_closed pl then (pl, h)
  else drop_sessions (λ _ _, true) None
         (mkSessionPool (pl_sessions pl) (pl_maxIdle pl) true (pl_metrics pl)) h.

(** ** Interleavings *)

(** The callers: who dials for which key, who holds what. *)
Record pool_world := mkPoolWorld {
  w_pool : SessionPool;
  w_heap : conn_heap;
  w_next : session_id;
  w_dialing : gmap nat poolKey;
  w_held : gmap nat checkout
}.

Inductive pool_action :=
  | ActAcquire (c : nat) (key : poolKey) (now : time) (opened : bool)
  | ActStore (c : nat) (now : time) (opened : bool)
  | ActRelease (c : nat) (walkErr : option walk_error) (now : time)
  | ActEvict (now : time)
  | ActInvalidate (name : string)
  | ActClose.

(** [Open]: a new session, connected and with credentials, or an error. *)
Definition new_conn (h : conn_heap) (s : session_id) : conn_heap := <[s := mkConn true true]> h.

(** A caller holds at most one session and dials for at most one key; an action of a
    caller in another state changes nothing. *)
Definition exec (w : pool_world) (a : pool_action) : pool_world :=
  match a with
  | ActAcquire c key now opened =>
      match w_dialing w !! c, w_held w !! c with
      | None, None =>
          match acquire_lookup key now (w_pool w) with
          | (pl, LookupHit s) =>
              mkPoolWorld pl (w_heap w) (w_next w) (w_dialing w) (<[c := mkCheckout s (Some key)]> (w_held w))
          | (pl, LookupTransient) =>
              if opened
              then mkPoolWorld (record RecordMiss pl) (new_conn (w_heap w) (w_next w)) (S (w_next w)) (w_dialing w)
                     (<[c := mkCheckout (w_next w) None]> (w_held w))
              else mkPoolWorld (record RecordMiss pl) (w_heap w) (w_next w) (w_dialing w) (w_held w)
          | (pl, LookupCold) =>
              mkPoolWorld pl (w_heap w) (w_next w) (<[c := key]> (w_dialing w)) (w_held w)
          end
      | _, _ => w
      end
  | ActStore c now opened =>
      match w_dialing w !! c with
      | None => w
      | Some key =>
          if opened then
            let '(pl, h, co) := acquire_store key now (w_next w) (w_pool w) (new_conn (w_heap w) (w_next w)) in
            mkPoolWorld pl h (S (w_next w)) (delete c (w_dialing w)) (<[c := co]> (w_held w))
          else mkPoolWorld (record RecordMiss (w_pool w)) (w_heap w) (w_next w) (delete c (w_dialing w)) (w_held w)
      end
  | ActRelease c walkErr now =>
      match w_held w !! c with
      | None => w
      | Some co =>
          let '(pl, h) := release co walkErr now (w_pool w) (w_heap w) in
          mkPoolWorld pl h (w_next w) (w_dialing w) (delete c (w_held w))
      end
  | ActEvict now =>
      let '(pl, h) := Evict now (w_pool w) (w_heap w) in
      mkPoolWorld pl h (w_next w) (w_dialing w) (w_held w)
  | ActInvalidate name =>
      let '(pl, h) := InvalidateProfile name (w_pool w) (w_heap w) in
      mkPoolWorld pl h (w_next w) (w_dialing w) (w_held w)
  | ActClose =>
      let '(pl, h) := pool_Close (w_pool w) (w_heap w) in
      mkPoolWorld pl h (w_next w) (w_dialing w) (w_held w)
  end.

Definition NewSessionPool (maxIdle : duration) : SessionPool := mkSessionPool ∅ maxIdle false [].

Definition pool_init (maxIdle : duration) : pool_world := mkPoolWorld (NewSessionPool maxIdle) ∅ 0%nat ∅ ∅.

Definition run (maxIdle : duration) (acts : list pool_action) : pool_world :=
  fold_left exec acts (pool_init maxIdle).
End Removal.

(** ** Lemmas on removal *)

Section RemovalLemmas.
Context `{R : MapRange}.

Lemma closeSession_ne s t h : s ≠ t → closeSession s h !! t = h !! t.
Proof. intros Hne. unfold closeSession, clearSessionCredentials, conn_Close. by rewrite !lookup_alter_ne. Qed.

Lemma closeSession_eq s h c : h !! s = Some c → closeSession s h !! s = Some (mkConn false false).
Proof.
  intros Hc. unfold closeSession, clearSessionCredentials, conn_Close. rewrite !lookup_alter_eq, Hc. done.
Qed.

Lemma closeSession_closed s h : h !! s = Some (mkConn false false) → closeSession s h !! s = Some (mkConn false false).
Proof. apply closeSession_eq. Qed.

(** The number last published as the size. *)
Definition gauge (ms : list pool_metric) : Z :=
  default 0 (last (omap (λ m, match m with SetSize n => Some n | _ => None end) ms)).

Lemma gauge_app ms m :
  gauge (ms ++ [m]) = match m with SetSize n => n | _ => gauge ms end.
Proof. unfold gauge. rewrite omap_app, last_app. by destruct m. Qed.

Definition dropped (cond : poolKey → poolEntry → bool) (l : list (poolKey * poolEntry)) (k : poolKey) : Prop :=
  ∃ e, (k, e) ∈ l ∧ cond k e = true.

Lemma drop_fold cond reason l pl h pl' h' :
  fold_left (drop_step cond reason) l (pl, h) = (pl', h') →
  pl_closed pl' = pl_closed pl ∧ pl_maxIdle pl' = pl_maxIdle pl ∧ gauge (pl_metrics pl') = gauge (pl_metrics pl) ∧
  (∀ k, dropped cond l k → pl_sessions pl' !! k = None) ∧
  (∀ k, ¬ dropped cond l k → pl_sessions pl' !! k = pl_sessions pl !! k) ∧
  (∀ s, (∀ k e, (k, e) ∈ l → cond k e = true → pe_session e ≠ s) → h' !! s = h !! s) ∧
  (∀ k e, (k, e) ∈ l → cond k e = true → is_Some (h !! pe_session e) → h' !! pe_session e = Some (mkConn false false)).
Proof.
  revert pl h. induction l as [|[k0 e0] l IH]; intros pl h; cbn [fold_left].
  { intros [= <- <-]. split_and!; try done; [intros k (e & He%elem_of_nil & _); done|intros k e He%elem_of_nil; done]. }
  unfold drop_step at 2. cbn [fst snd]. destruct (cond k0 e0) eqn:Hc.
  - set (pl1 := match reason with Some r => _ | None => _ end). intros Hf.
    assert (pl_closed pl1 = pl_closed pl ∧ pl_maxIdle pl1 = pl_maxIdle pl ∧
      gauge (pl_metrics pl1) = gauge (pl_metrics pl) ∧ pl_sessions pl1 = delete k0 (pl_sessions pl)) as (H1 & H2 & H3 & H4).
    { unfold pl1. destruct reason; simpl; rewrite ?gauge_app; done. }
    clearbody pl1. destruct (IH _ _ Hf) as (E1 & E2 & E3 & E4 & E5 & E6 & E7).
    split_and!; try congruence.
    + intros k (e & [Heq|Hin]%elem_of_cons & Hk); [|apply E4; by exists e]. injection Heq as -> ->.
      destruct (decide (Exists (λ x, x.1 = k0 ∧ cond x.1 x.2 = true) l)) as [Hx|Hx].
      * apply E4. apply Exists_exists in Hx as ([k' e'] & Hin & <- & Hc'). by exists e'.
      * rewrite E5, H4; [by rewrite lookup_delete_eq|]. intros (e' & Hin & Hc'). apply Hx, Exists_exists. by exists (k0, e').
    + intros k Hk. rewrite E5, H4; [|intros (e & Hin & Hc'); apply Hk; exists e; split; [by right|done]].
      rewrite lookup_delete_ne; [done|]. intros ->. apply Hk. exists e0. split; [by left|done].
    + intros s Hs. rewrite E6; [|intros k e Hin; apply Hs; by right].
      apply closeSession_ne. apply (Hs k0); [by left|done].
    + intros k e [Heq|Hin]%elem_of_cons Hk Hsome.
      * injection Heq as -> ->. destruct Hsome as [c Hs].
        destruct (decide (Exists (λ x, pe_session x.2 = pe_session e0 ∧ cond x.1 x.2 = true) l)) as [Hx|Hx].
        -- apply Exists_exists in Hx as ([k' e'] & Hin & He & Hc'). simpl in He, Hc'. rewrite <- He.
           apply (E7 k'); [done|done|]. rewrite He, (closeSession_eq _ _ _ Hs). eauto.
        -- rewrite E6; [by eapply closeSession_eq|]. intros k' e' Hin Hc' He. apply Hx, Exists_exists. by exists (k', e').
      * apply (E7 k); [done|done|]. destruct (decide (pe_session e0 = pe_session e)) as [He|He].
        -- destruct Hsome as [c Hs]. rewrite He, (closeSession_eq _ _ _ Hs). eauto.
        -- by rewrite closeSession_ne.
  - intros Hf. destruct (IH _ _ Hf) as (E1 & E2 & E3 & E4 & E5 & E6 & E7). split_and!; try done.
    + intros k (e & [Heq|Hin]%elem_of_cons & Hk); [injection Heq as -> ->; congruence|]. apply E4. by exists e.
    + intros k Hk. apply E5. intros (e & Hin & Hc'). apply Hk. exists e. split; [by right|done].
    + intros s Hs. apply E6. intros k e Hin. apply Hs. by right.
    + intros k e [Heq|Hin]%elem_of_cons Hk; [injection Heq as -> ->; congruence|]. by apply (E7 k).
Qed.

(** What a removal leaves, and what it does to the sessions it removes. *)
Lemma drop_sessions_spec cond reason pl h pl' h' :
  drop_sessions cond reason pl h = (pl', h') →
  pl_closed pl' = pl_closed pl ∧ pl_maxIdle pl' = pl_maxIdle pl ∧
  gauge (pl_metrics pl') = Z.of_nat (size (pl_sessions pl')) ∧
  (∀ k e, pl_sessions pl' !! k = Some e ↔ pl_sessions pl !! k = Some e ∧ cond k e = false) ∧
  (∀ s, (∀ k e, pl_sessions pl !! k = Some e → cond k e = true → pe_session e ≠ s) → h' !! s = h !! s) ∧
  (∀ k e, pl_sessions pl !! k = Some e → cond k e = true → is_Some (h !! pe_session e) →
     h' !! pe_session e = Some (mkConn false false)).
Proof.
  unfold drop_sessions. destruct (fold_left _ _ _) as [pl1 h1] eqn:Hf. intros [= <- <-].
  destruct (drop_fold _ _ _ _ _ _ _ Hf) as (E1 & E2 & E3 & E4 & E5 & E6 & E7).
  setoid_rewrite elem_of_range in E6. setoid_rewrite elem_of_range in E7.
  unfold setSizeLocked, record. cbn [pl_closed pl_maxIdle pl_metrics pl_sessions]. rewrite gauge_app.
  split_and!; try done. intros k e. split.
  - intros He. destruct (pl_sessions pl !! k) as [e'|] eqn:Hk.
    + destruct (cond k e') eqn:Hc.
      * rewrite E4 in He; [done|]. exists e'. split; [by apply elem_of_range|done].
      * rewrite E5, Hk in He; [by injection He as ->|]. intros (e'' & Hin%elem_of_range & Hc'). congruence.
    + rewrite E5, Hk in He; [done|]. intros (e'' & Hin%elem_of_range & Hc'). congruence.
  - intros [Hk Hc]. rewrite E5; [done|]. intros (e'' & Hin%elem_of_range & Hc'). congruence.
Qed.
End RemovalLemmas.

(** ** The invariant *)

Section Invariant.
Context `{R : MapRange}.

Record pool_inv (w : pool_world) : Prop := {
  pi_heap : ∀ s c, w_heap w !! s = Some c → (s < w_next w)%nat;
  pi_held : ∀ c co, w_held w !! c = Some co → (co_session co < w_next w)%nat;
  pi_pool : ∀ k e, pl_sessions (w_pool w) !! k = Some e → w_heap w !! pe_session e = Some (mkConn true true);
  pi_keys : ∀ k1 k2 e1 e2, pl_sessions (w_pool w) !! k1 = Some e1 → pl_sessions (w_pool w) !! k2 = Some e2 →
    pe_session e1 = pe_session e2 → k1 = k2;
  pi_inuse : ∀ k e, pl_sessions (w_pool w) !! k = Some e →
    pe_inUse e = true ↔ ∃ c, w_held w !! c = Some (mkCheckout (pe_session e) (Some k));
  pi_pooled : ∀ c s k, w_held w !! c = Some (mkCheckout s (Some k)) → pl_closed (w_pool w) = false →
    ∃ e, pl_sessions (w_pool w) !! k = Some e ∧ pe_session e = s;
  pi_transient : ∀ c s k e, w_held w !! c = Some (mkCheckout s None) → pl_sessions (w_pool w) !! k = Some e →
    pe_session e ≠ s;
  pi_alias : ∀ c1 c2 co1 co2, w_held w !! c1 = Some co1 → w_held w !! c2 = Some co2 →
    co_session co1 = co_session co2 → c1 = c2;
  pi_closed : pl_closed (w_pool w) = true → pl_sessions (w_pool w) = ∅;
  pi_gauge : gauge (pl_metrics (w_pool w)) = Z.of_nat (size (pl_sessions (w_pool w)));
  pi_open : ∀ s c, w_heap w !! s = Some c → c_open c = true →
    (∃ k e, pl_sessions (w_pool w) !! k = Some e ∧ pe_session e = s) ∨ (∃ h, w_held w !! h = Some (mkCheckout s None))
}.

Lemma pool_inv_init maxIdle : pool_inv (pool_init maxIdle).
Proof. split; simpl; try (intros; by rewrite ?lookup_empty in *); done. Qed.

(** A record of a hit or a miss leaves the invariant alone. *)
Lemma pool_inv_record w m :
  (∀ n, m ≠ SetSize n) → pool_inv w →
  pool_inv (mkPoolWorld (record m (w_pool w)) (w_heap w) (w_next w) (w_dialing w) (w_held w)).
Proof.
  intros Hm [H1 H2 H3 H4 H5 H6 H7 H8 H9 H10 H11].
  split; cbn [w_pool w_heap w_next w_held record pl_sessions pl_closed pl_metrics]; try done.
  rewrite gauge_app. destruct m; try done. by destruct (Hm n).
Qed.

Lemma pool_inv_dialing w d :
  pool_inv w → pool_inv (mkPoolWorld (w_pool w) (w_heap w) (w_next w) d (w_held w)).
Proof. intros [H1 H2 H3 H4 H5 H6 H7 H8 H9 H10 H11]. by split. Qed.

(** Checking out an idle entry. *)
Lemma pool_inv_hit w c key e now :
  pool_inv w → w_held w !! c = None → pl_closed (w_pool w) = false →
  pl_sessions (w_pool w) !! key = Some e → pe_inUse e = false →
  pool_inv (mkPoolWorld
    (record RecordHit (set_sessions (<[key := mkPoolEntry (pe_session e) now true]> (pl_sessions (w_pool w))) (w_pool w)))
    (w_heap w) (w_next w) (w_dialing w) (<[c := mkCheckout (pe_session e) (Some key)]> (w_held w))).
Proof.
  intros [H1 H2 H3 H4 H5 H6 H7 H8 H9 H10 H11] Hc Hcl Hk Hi.
  assert (∀ c' co, w_held w !! c' = Some co → co_session co ≠ pe_session e) as Hfree.
  { intros c' [s [k'|]] Hco; simpl; intros ->.
    - destruct (H6 _ _ _ Hco Hcl) as (e' & Hk' & He'). assert (k' = key) as -> by (by eapply H4).
      assert (pe_inUse e = true) by (apply (H5 _ _ Hk); eauto). congruence.
    - by apply (H7 _ _ _ _ Hco Hk). }
  split; cbn [w_pool w_heap w_next w_held record set_sessions pl_sessions pl_closed pl_metrics]; try done.
  - intros c' co [[<- <-]|[_ Hco]]%lookup_insert_Some; [|by eapply H2]. simpl. eapply H1, H3. done.
  - intros k e' [[<- <-]|[_ He']]%lookup_insert_Some; [simpl; by eapply H3|by eapply H3].
  - intros k1 k2 e1 e2 [[<- <-]|[Hn1 He1]]%lookup_insert_Some [[<- <-]|[Hn2 He2]]%lookup_insert_Some; simpl; try done;
      intros Heq; by eapply H4.
  - intros k e' [[<- <-]|[Hn He']]%lookup_insert_Some; simpl.
    + split; [|done]. intros _. exists c. by rewrite lookup_insert_eq.
    + rewrite (H5 _ _ He'). split.
      * intros [c' Hc']. exists c'. rewrite lookup_insert_ne; [done|]. intros ->. congruence.
      * intros [c' [[<- Heq]|[_ Hc']]%lookup_insert_Some]; [|by exists c']. injection Heq as _ Hkk. done.
  - intros c' s k [[<- Heq]|[_ Hco]]%lookup_insert_Some _.
    + injection Heq as <- <-. rewrite lookup_insert_eq. eauto.
    + destruct (H6 _ _ _ Hco Hcl) as (e' & Hk' & He'). destruct (decide (k = key)) as [->|Hn].
      * exfalso. apply (Hfree _ _ Hco). simpl. congruence.
      * rewrite lookup_insert_ne by done. eauto.
  - intros c' s k e' [[<- Heq]|[_ Hco]]%lookup_insert_Some [[<- <-]|[_ He']]%lookup_insert_Some; try done.
    + by apply (H7 _ _ _ _ Hco Hk).
    + by eapply H7.
  - intros c1 c2 co1 co2 [[<- <-]|[_ Ho1]]%lookup_insert_Some [[<- <-]|[_ Ho2]]%lookup_insert_Some; simpl; try done.
    + intros Heq. by destruct (Hfree _ _ Ho2).
    + intros Heq. by destruct (Hfree _ _ Ho1).
    + by apply (H8 _ _ _ _ Ho1 Ho2).
  - intros Htrue. congruence.
  - rewrite gauge_app, H10, map_size_insert_Some by eauto. done.
  - intros s cn Hs Ho. destruct (H11 _ _ Hs Ho) as [(k & e' & Hk' & <-)|[c' Hc']].
    + left. destruct (decide (k = key)) as [->|Hn].
      * exists key. rewrite lookup_insert_eq. eexists. split; [done|]. simpl. congruence.
      * exists k, e'. by rewrite lookup_insert_ne.
    + right. exists c'. rewrite lookup_insert_ne; [done|]. intros ->. congruence.
Qed.

(** Handing out a new session that is not pooled. *)
Lemma pool_inv_transient w c :
  pool_inv w → w_held w !! c = None →
  pool_inv (mkPoolWorld (w_pool w) (new_conn (w_heap w) (w_next w)) (S (w_next w)) (w_dialing w)
              (<[c := mkCheckout (w_next w) None]> (w_held w))).
Proof.
  intros [H1 H2 H3 H4 H5 H6 H7 H8 H9 H10 H11] Hc. unfold new_conn.
  assert (∀ k e, pl_sessions (w_pool w) !! k = Some e → pe_session e ≠ w_next w) as Hp.
  { intros k e He%H3%H1. lia. }
  split; cbn [w_pool w_heap w_next w_held]; try done.
  - intros s cn [[<- _]|[_ Hs]]%lookup_insert_Some; [lia|]. apply H1 in Hs. lia.
  - intros c' co [[<- <-]|[_ Hco]]%lookup_insert_Some; [simpl; lia|]. apply H2 in Hco. lia.
  - intros k e He. rewrite lookup_insert_ne; [by apply (H3 k)|]. by apply not_eq_sym, (Hp k).
  - intros k e He. rewrite (H5 _ _ He). split.
    + intros [c' Hc']. exists c'. rewrite lookup_insert_ne; [done|]. intros ->. congruence.
    + intros [c' [[<- Heq]|[_ Hc']]%lookup_insert_Some]; [done|by exists c'].
  - intros c' s k [[<- Heq]|[_ Hco]]%lookup_insert_Some; [done|by eapply H6].
  - intros c' s k e [[<- Heq]|[_ Hco]]%lookup_insert_Some He; [injection Heq as <-; by eapply Hp|by eapply H7].
  - intros c1 c2 co1 co2 [[<- <-]|[_ Ho1]]%lookup_insert_Some [[<- <-]|[_ Ho2]]%lookup_insert_Some; simpl; try done.
    + intros Heq. apply H2 in Ho2. lia.
    + intros Heq. apply H2 in Ho1. lia.
    + by apply (H8 _ _ _ _ Ho1 Ho2).
  - intros s cn [[<- _]|[_ Hs]]%lookup_insert_Some Ho; [right; exists c; by rewrite lookup_insert_eq|].
    destruct (H11 _ _ Hs Ho) as [Hl|[c' Hc']]; [by left|]. right. exists c'. rewrite lookup_insert_ne; [done|].
    intros ->. congruence.
Qed.

(** Storing a new session under a cold key. *)
Lemma pool_inv_store w c key now :
  pool_inv w → w_held w !! c = None → pl_closed (w_pool w) = false → pl_sessions (w_pool w) !! key = None →
  pool_inv (mkPoolWorld
    (record RecordMiss (setSizeLocked (set_sessions (<[key := mkPoolEntry (w_next w) now true]> (pl_sessions (w_pool w))) (w_pool w))))
    (new_conn (w_heap w) (w_next w)) (S (w_next w)) (w_dialing w) (<[c := mkCheckout (w_next w) (Some key)]> (w_held w))).
Proof.
  intros [H1 H2 H3 H4 H5 H6 H7 H8 H9 H10 H11] Hc Hcl Hk. unfold new_conn.
  assert (∀ k e, pl_sessions (w_pool w) !! k = Some e → pe_session e ≠ w_next w) as Hp.
  { intros k e He%H3%H1. lia. }
  split; cbn [w_pool w_heap w_next w_held record setSizeLocked set_sessions pl_sessions pl_closed pl_metrics]; try done.
  - intros s cn [[<- _]|[_ Hs]]%lookup_insert_Some; [lia|]. apply H1 in Hs. lia.
  - intros c' co [[<- <-]|[_ Hco]]%lookup_insert_Some; [simpl; lia|]. apply H2 in Hco. lia.
  - intros k e [[<- <-]|[_ He]]%lookup_insert_Some; [by rewrite lookup_insert_eq|].
    rewrite lookup_insert_ne; [by apply (H3 k)|]. by apply not_eq_sym, (Hp k).
  - intros k1 k2 e1 e2 [[<- <-]|[Hn1 He1]]%lookup_insert_Some [[<- <-]|[Hn2 He2]]%lookup_insert_Some; simpl; try done.
    + intros Heq. by destruct (Hp _ _ He2).
    + intros Heq. by destruct (Hp _ _ He1).
    + intros Heq. by eapply H4.
  - intros k e [[<- <-]|[Hn He]]%lookup_insert_Some; simpl.
    + split; [|done]. intros _. exists c. by rewrite lookup_insert_eq.
    + rewrite (H5 _ _ He). split.
      * intros [c' Hc']. exists c'. rewrite lookup_insert_ne; [done|]. intros ->. congruence.
      * intros [c' [[<- Heq]|[_ Hc']]%lookup_insert_Some]; [|by exists c']. injection Heq as _ Hkk. done.
  - intros c' s k [[<- Heq]|[_ Hco]]%lookup_insert_Some _.
    + injection Heq as <- <-. rewrite lookup_insert_eq. eauto.
    + destruct (H6 _ _ _ Hco Hcl) as (e' & Hk' & He'). exists e'. rewrite lookup_insert_ne; [done|]. congruence.
  - intros c' s k e [[<- Heq]|[_ Hco]]%lookup_insert_Some [[<- <-]|[_ He]]%lookup_insert_Some; try done.
    + simpl. intros <-. apply H2 in Hco. simpl in Hco. lia.
    + by eapply H7.
  - intros c1 c2 co1 co2 [[<- <-]|[_ Ho1]]%lookup_insert_Some [[<- <-]|[_ Ho2]]%lookup_insert_Some; simpl; try done.
    + intros Heq. apply H2 in Ho2. lia.
    + intros Heq. apply H2 in Ho1. lia.
    + by apply (H8 _ _ _ _ Ho1 Ho2).
  - intros Htrue. congruence.
  - by rewrite !gauge_app.
  - intros s cn [[<- _]|[_ Hs]]%lookup_insert_Some Ho.
    + left. exists key. rewrite lookup_insert_eq. eauto.
    + destruct (H11 _ _ Hs Ho) as [(k & e & Hk' & He')|[c' Hc']].
      * left. exists k, e. rewrite lookup_insert_ne; [done|]. congruence.
      * right. exists c'. rewrite lookup_insert_ne; [done|]. intros ->. congruence.
Qed.

(** A session that was opened and closed again. *)
Lemma pool_inv_scrap w cr :
  pool_inv w →
  pool_inv (mkPoolWorld (w_pool w) (<[w_next w := mkConn false cr]> (w_heap w)) (S (w_next w)) (w_dialing w) (w_held w)).
Proof.
  intros [H1 H2 H3 H4 H5 H6 H7 H8 H9 H10 H11]. split; cbn [w_pool w_heap w_next w_held]; try done.
  - intros s cn [[<- _]|[_ Hs]]%lookup_insert_Some; [lia|]. apply H1 in Hs. lia.
  - intros c co Hco%H2. lia.
  - intros k e He. rewrite lookup_insert_ne; [by apply (H3 k)|]. apply H3, H1 in He. lia.
  - intros s cn [[<- <-]|[_ Hs]]%lookup_insert_Some Ho; [done|]. by eapply H11.
Qed.

(** Releasing a transient session closes it. *)
Lemma pool_inv_close_transient w c s :
  pool_inv w → w_held w !! c = Some (mkCheckout s None) →
  pool_inv (mkPoolWorld (w_pool w) (conn_Close s (w_heap w)) (w_next w) (w_dialing w) (delete c (w_held w))).
Proof.
  intros [H1 H2 H3 H4 H5 H6 H7 H8 H9 H10 H11] Hc. unfold conn_Close.
  split; cbn [w_pool w_heap w_next w_held]; try done.
  - intros t cn Ht. destruct (decide (s = t)) as [->|Hn]; [|rewrite lookup_alter_ne in Ht by done; by eapply H1].
    by apply H2 in Hc.
  - intros c' co [_ Hco]%lookup_delete_Some. by eapply H2.
  - intros k e He. rewrite lookup_alter_ne; [by apply (H3 k)|]. by apply not_eq_sym, (H7 c s k).
  - intros k e He. rewrite (H5 _ _ He). split.
    + intros [c' Hc']. exists c'. rewrite lookup_delete_ne; [done|]. intros ->. congruence.
    + intros [c' [_ Hc']%lookup_delete_Some]. by exists c'.
  - intros c' t k [_ Hco]%lookup_delete_Some. by eapply H6.
  - intros c' t k e [_ Hco]%lookup_delete_Some. by eapply H7.
  - intros c1 c2 co1 co2 [_ Ho1]%lookup_delete_Some [_ Ho2]%lookup_delete_Some. by apply (H8 _ _ _ _ Ho1 Ho2).
  - intros t cn Ht Ho. destruct (decide (s = t)) as [->|Hn].
    { rewrite lookup_alter_eq in Ht. destruct (w_heap w !! t); [|done]. injection Ht as <-. done. }
    rewrite lookup_alter_ne in Ht by done. destruct (H11 _ _ Ht Ho) as [Hl|[c' Hc']]; [by left|]. right. exists c'.
    rewrite lookup_delete_ne; [done|]. intros ->. congruence.
Qed.

(** Once the pool is closed the release of a pooled session finds no entry. *)
Lemma pool_inv_drop_held w c s k :
  pool_inv w → w_held w !! c = Some (mkCheckout s (Some k)) → pl_sessions (w_pool w) !! k = None →
  pool_inv (mkPoolWorld (w_pool w) (w_heap w) (w_next w) (w_dialing w) (delete c (w_held w))).
Proof.
  intros [H1 H2 H3 H4 H5 H6 H7 H8 H9 H10 H11] Hc Hk.
  split; cbn [w_pool w_heap w_next w_held]; try done.
  - intros c' co [_ Hco]%lookup_delete_Some. by eapply H2.
  - intros k' e He. rewrite (H5 _ _ He). split.
    + intros [c' Hc']. exists c'. rewrite lookup_delete_ne; [done|]. intros ->. congruence.
    + intros [c' [_ Hc']%lookup_delete_Some]. by exists c'.
  - intros c' t k' [_ Hco]%lookup_delete_Some. by eapply H6.
  - intros c' t k' e [_ Hco]%lookup_delete_Some. by eapply H7.
  - intros c1 c2 co1 co2 [_ Ho1]%lookup_delete_Some [_ Ho2]%lookup_delete_Some. by apply (H8 _ _ _ _ Ho1 Ho2).
  - intros t cn Ht Ho. destruct (H11 _ _ Ht Ho) as [Hl|[c' Hc']]; [by left|]. right. exists c'.
    rewrite lookup_delete_ne; [done|]. intros ->. congruence.
Qed.

(** The release of a pooled session marks its entry idle. *)
Lemma pool_inv_return w c key e now :
  pool_inv w → w_held w !! c = Some (mkCheckout (pe_session e) (Some key)) → pl_sessions (w_pool w) !! key = Some e →
  pool_inv (mkPoolWorld
    (set_sessions (<[key := mkPoolEntry (pe_session e) now false]> (pl_sessions (w_pool w))) (w_pool w))
    (w_heap w) (w_next w) (w_dialing w) (delete c (w_held w))).
Proof.
  intros [H1 H2 H3 H4 H5 H6 H7 H8 H9 H10 H11] Hc Hk.
  split; cbn [w_pool w_heap w_next w_held set_sessions pl_sessions pl_closed pl_metrics]; try done.
  - intros c' co [_ Hco]%lookup_delete_Some. by eapply H2.
  - intros k e' [[<- <-]|[_ He']]%lookup_insert_Some; [simpl; by eapply H3|by eapply H3].
  - intros k1 k2 e1 e2 [[<- <-]|[Hn1 He1]]%lookup_insert_Some [[<- <-]|[Hn2 He2]]%lookup_insert_Some; simpl; try done;
      intros Heq; by eapply H4.
  - intros k e' [[<- <-]|[Hn He']]%lookup_insert_Some; simpl.
    + split; [done|]. intros [c' [Hn Hc']%lookup_delete_Some]. destruct Hn. by eapply H8.
    + rewrite (H5 _ _ He'). split.
      * intros [c' Hc']. exists c'. rewrite lookup_delete_ne; [done|]. intros ->. congruence.
      * intros [c' [_ Hc']%lookup_delete_Some]. by exists c'.
  - intros c' s k [_ Hco]%lookup_delete_Some Hcl. destruct (H6 _ _ _ Hco Hcl) as (e' & Hk' & He').
    destruct (decide (k = key)) as [->|Hn].
    + rewrite lookup_insert_eq. eexists. split; [done|]. simpl. congruence.
    + rewrite lookup_insert_ne by done. eauto.
  - intros c' s k e' [_ Hco]%lookup_delete_Some [[<- <-]|[_ He']]%lookup_insert_Some; [simpl|]; by eapply H7.
  - intros c1 c2 co1 co2 [_ Ho1]%lookup_delete_Some [_ Ho2]%lookup_delete_Some. by apply (H8 _ _ _ _ Ho1 Ho2).
  - intros Hcl%H9. rewrite Hcl, lookup_empty in Hk. done.
  - rewrite H10, map_size_insert_Some by eauto. done.
  - intros s cn Hs Ho. destruct (H11 _ _ Hs Ho) as [(k & e' & Hk' & <-)|[c' Hc']].
    + left. destruct (decide (k = key)) as [->|Hn].
      * exists key. rewrite lookup_insert_eq. eexists. split; [done|]. simpl. congruence.
      * exists k, e'. by rewrite lookup_insert_ne.
    + right. exists c'. rewrite lookup_delete_ne; [done|]. intros ->. congruence.
Qed.

(** Removing some entries: idle ones, or all of them when the pool closes. *)
Lemma pool_inv_remove w pl' h' cond held' :
  pool_inv w →
  (∀ k e, pl_sessions pl' !! k = Some e ↔ pl_sessions (w_pool w) !! k = Some e ∧ cond k e = false) →
  (∀ s, (∀ k e, pl_sessions (w_pool w) !! k = Some e → cond k e = true → pe_session e ≠ s) → h' !! s = w_heap w !! s) →
  (∀ k e, pl_sessions (w_pool w) !! k = Some e → cond k e = true → h' !! pe_session e = Some (mkConn false false)) →
  gauge (pl_metrics pl') = Z.of_nat (size (pl_sessions pl')) →
  (pl_closed pl' = true → pl_sessions pl' = ∅) → (pl_closed pl' = false → pl_closed (w_pool w) = false) →
  (∀ c co, held' !! c = Some co → w_held w !! c = Some co ∧
     ∀ k e, co_pooled co = Some k → pl_closed pl' = false → pl_sessions (w_pool w) !! k = Some e → cond k e = false) →
  (∀ c co, w_held w !! c = Some co → held' !! c = Some co ∨
     ∃ k e, co_pooled co = Some k ∧ pl_sessions (w_pool w) !! k = Some e ∧ cond k e = true) →
  pool_inv (mkPoolWorld pl' h' (w_next w) (w_dialing w) held').
Proof.
  intros [H1 H2 H3 H4 H5 H6 H7 H8 H9 H10 H11] Hs Hkeep Hdrop Hg Hc1 Hc2 Hh1 Hh2.
  assert (∀ s, w_heap w !! s = None → h' !! s = None) as Hnone.
  { intros s Hn. rewrite Hkeep; [done|]. intros k e He _ <-. rewrite (H3 _ _ He) in Hn. done. }
  split; cbn [w_pool w_heap w_next w_held]; try done.
  - intros s c Hsc. destruct (w_heap w !! s) as [c'|] eqn:Hw; [by eapply H1|]. rewrite Hnone in Hsc; done.
  - intros c co [Hco _]%Hh1. by eapply H2.
  - intros k e [He Hc]%Hs. rewrite Hkeep; [by eapply H3|]. intros k' e' He' Hc' Heq.
    assert (k' = k) as -> by (by eapply H4). congruence.
  - intros k1 k2 e1 e2 [He1 _]%Hs [He2 _]%Hs. by eapply H4.
  - intros k e [He Hc]%Hs. rewrite (H5 _ _ He). split.
    + intros [c Hco]. exists c. destruct (Hh2 _ _ Hco) as [?|(k' & e' & Hk' & He' & Hc')]; [done|].
      simpl in Hk'. injection Hk' as <-. congruence.
    + intros [c [Hco _]%Hh1]. by exists c.
  - intros c s k [Hco Hcond]%Hh1 Hcl. destruct (H6 _ _ _ Hco (Hc2 Hcl)) as (e & He & Hse). exists e. split; [|done].
    apply Hs. split; [done|]. by apply (Hcond k).
  - intros c s k e [Hco _]%Hh1 [He _]%Hs. by eapply H7.
  - intros c1 c2 co1 co2 [Ho1 _]%Hh1 [Ho2 _]%Hh1. by apply (H8 _ _ _ _ Ho1 Ho2).
  - intros s c Hsc Ho.
    assert (¬ ∃ k e, pl_sessions (w_pool w) !! k = Some e ∧ cond k e = true ∧ pe_session e = s) as Hnd.
    { intros (k & e & He & Hc & <-). rewrite (Hdrop _ _ He Hc) in Hsc. injection Hsc as <-. done. }
    rewrite Hkeep in Hsc by (intros k e He Hc Heq; apply Hnd; eauto).
    destruct (H11 _ _ Hsc Ho) as [(k & e & He & Hse)|[c' Hco]].
    + left. exists k, e. split; [|done]. apply Hs. split; [done|]. apply not_true_is_false. intros Hc. apply Hnd. eauto.
    + right. exists c'. destruct (Hh2 _ _ Hco) as [?|(k & e & Hk & _)]; [done|]. done.
Qed.

Definition rotates (a : pool_action) : bool := match a with ActInvalidate _ => true | _ => false end.

Lemma exec_acquire w c key now opened : pool_inv w → pool_inv (exec w (ActAcquire c key now opened)).
Proof.
  intros Hw. cbn [exec]. destruct (w_dialing w !! c); [done|]. destruct (w_held w !! c) eqn:Hc; [done|].
  assert (∀ b : bool, pool_inv (if b
    then mkPoolWorld (record RecordMiss (w_pool w)) (new_conn (w_heap w) (w_next w)) (S (w_next w)) (w_dialing w)
           (<[c := mkCheckout (w_next w) None]> (w_held w))
    else mkPoolWorld (record RecordMiss (w_pool w)) (w_heap w) (w_next w) (w_dialing w) (w_held w))) as Ht.
  { intros []; [|by apply pool_inv_record]. apply (pool_inv_transient (mkPoolWorld (record RecordMiss (w_pool w)) (w_heap w) (w_next w) (w_dialing w) (w_held w))); [|done].
    by apply pool_inv_record. }
  unfold acquire_lookup. destruct (pl_closed (w_pool w)) eqn:Hcl; [apply Ht|].
  destruct (pl_sessions (w_pool w) !! key) as [e|] eqn:Hk; [|by apply pool_inv_dialing].
  destruct (pe_inUse e) eqn:Hi; [apply Ht|]. by apply pool_inv_hit.
Qed.

Lemma exec_store w c now opened : w_held w !! c = None → pool_inv w → pool_inv (exec w (ActStore c now opened)).
Proof.
  intros Hc Hw. cbn [exec]. destruct (w_dialing w !! c) as [key|]; [|done].
  destruct opened; [|by apply (pool_inv_dialing (mkPoolWorld (record RecordMiss (w_pool w)) (w_heap w) (w_next w) (w_dialing w) (w_held w))),
    pool_inv_record].
  assert (pool_inv (mkPoolWorld (record RecordMiss (w_pool w)) (new_conn (w_heap w) (w_next w)) (S (w_next w)) (delete c (w_dialing w))
    (<[c := mkCheckout (w_next w) None]> (w_held w)))) as Ht.
  { refine (pool_inv_transient (mkPoolWorld (record RecordMiss (w_pool w)) (w_heap w) (w_next w) (delete c (w_dialing w)) (w_held w)) c _ _); [|done].
    by apply (pool_inv_dialing (mkPoolWorld (record RecordMiss (w_pool w)) (w_heap w) (w_next w) (w_dialing w) (w_held w))),
      pool_inv_record. }
  unfold acquire_store. destruct (pl_closed (w_pool w)) eqn:Hcl; [exact Ht|].
  destruct (pl_sessions (w_pool w) !! key) as [e|] eqn:Hk.
  - destruct (pe_inUse e) eqn:Hi; [exact Ht|].
    assert (conn_Close (w_next w) (new_conn (w_heap w) (w_next w)) = <[w_next w := mkConn false true]> (w_heap w)) as ->.
    { unfold conn_Close, new_conn. by rewrite alter_insert_eq. }
    refine (pool_inv_hit (mkPoolWorld (w_pool w) (<[w_next w := mkConn false true]> (w_heap w)) (S (w_next w))
      (delete c (w_dialing w)) (w_held w)) c key e now _ _ _ _ _); try done.
    refine (pool_inv_scrap (mkPoolWorld (w_pool w) (w_heap w) (w_next w) (delete c (w_dialing w)) (w_held w)) true _).
    by apply pool_inv_dialing.
  - refine (pool_inv_store (mkPoolWorld (w_pool w) (w_heap w) (w_next w) (delete c (w_dialing w)) (w_held w)) c key now _ _ _ _); try done.
    by apply pool_inv_dialing.
Qed.

Lemma exec_release w c err now : pool_inv w → pool_inv (exec w (ActRelease c err now)).
Proof.
  intros Hw. cbn [exec]. destruct (w_held w !! c) as [[s [key|]]|] eqn:Hc; [| |done].
  2: { by apply pool_inv_close_transient. }
  unfold release, releaseFunc. cbn [co_pooled co_session].
  destruct (pl_sessions (w_pool w) !! key) as [e|] eqn:Hk.
  2: { unfold evictKey, returnKey. rewrite Hk. destruct (isConnectionError err); by eapply pool_inv_drop_held. }
  assert (pe_session e = s) as <-.
  { destruct Hw as [_ _ _ _ _ H6 _ _ H9 _ _]. destruct (pl_closed (w_pool w)) eqn:Hcl.
    - rewrite (H9 eq_refl), lookup_empty in Hk. done.
    - destruct (H6 _ _ _ Hc eq_refl) as (e' & He' & <-). congruence. }
  destruct (isConnectionError err).
  - unfold evictKey. rewrite Hk. pose proof Hw as [H1 H2 H3 H4 H5 H6 H7 H8 H9 H10 H11].
    apply (pool_inv_remove w _ _ (λ k _, bool_decide (k = key))); try done.
    + intros k e'. cbn [record setSizeLocked set_sessions pl_sessions]. rewrite lookup_delete_Some, bool_decide_eq_false.
      naive_solver.
    + intros t Ht. apply closeSession_ne. apply (Ht key); [done|]. by apply bool_decide_eq_true.
    + intros k e' He' Hb. bprop. subst k. assert (e' = e) as -> by congruence. by eapply closeSession_eq, H3.
    + cbn [record setSizeLocked set_sessions pl_sessions pl_metrics]. by rewrite !gauge_app.
    + cbn [record setSizeLocked set_sessions pl_closed pl_sessions]. intros Hcl%H9. by rewrite Hcl, lookup_empty in Hk.
    + intros c' co [Hn Hco]%lookup_delete_Some. split; [done|]. intros k e' Hp _ He'. apply bool_decide_eq_false.
      intros ->. apply Hn. eapply (H8 c c'); [exact Hc|exact Hco|]. destruct co as [s' ko]. simpl in Hp |- *. subst ko.
      destruct (pl_closed (w_pool w)) eqn:Hcl; [rewrite (H9 eq_refl), lookup_empty in Hk; done|].
      destruct (H6 _ _ _ Hco eq_refl) as (e'' & He'' & <-). congruence.
    + intros c' co Hco. destruct (decide (c' = c)) as [->|Hn].
      * right. exists key, e. rewrite Hc in Hco. injection Hco as <-. split; [done|]. split; [done|].
        by apply bool_decide_eq_true.
      * left. by rewrite lookup_delete_ne.
  - unfold returnKey. rewrite Hk. by apply pool_inv_return.
Qed.

Lemma exec_evict w now : pool_inv w → pool_inv (exec w (ActEvict now)).
Proof.
  intros Hw. cbn [exec]. unfold Evict. destruct (pl_maxIdle (w_pool w) <=? 0); [by destruct w|].
  destruct (drop_sessions _ _ _ _) as [pl' h'] eqn:Hd.
  destruct (drop_sessions_spec _ _ _ _ _ _ Hd) as (E1 & E2 & E3 & E4 & E5 & E6).
  pose proof Hw as [H1 H2 H3 H4 H5 H6 H7 H8 H9 H10 H11].
  eapply (pool_inv_remove w); [done|exact E4|exact E5| |done| | |..].
  - intros k e He Hc. apply (E6 k); [done|done|]. rewrite (H3 _ _ He). eauto.
  - rewrite E1. intros Hcl%H9. apply map_empty. intros k. apply eq_None_not_Some. intros [e [He _]%E4].
    by rewrite Hcl, lookup_empty in He.
  - by rewrite E1.
  - intros c [s ko] Hco. split; [done|]. cbn [co_pooled]. intros k e -> Hcl He.
    rewrite E1 in Hcl. destruct (H6 _ _ _ Hco Hcl) as (e' & He' & <-). assert (e' = e) as -> by congruence.
    assert (pe_inUse e = true) as -> by (apply (H5 _ _ He); eauto). done.
  - intros c co Hco. by left.
Qed.

Lemma exec_close w : pool_inv w → pool_inv (exec w ActClose).
Proof.
  intros Hw. cbn [exec]. unfold pool_Close. destruct (pl_closed (w_pool w)) eqn:Hcl; [by destruct w|].
  destruct (drop_sessions _ _ _ _) as [pl' h'] eqn:Hd.
  destruct (drop_sessions_spec _ _ _ _ _ _ Hd) as (E1 & E2 & E3 & E4 & E5 & E6). cbn [pl_closed pl_sessions] in *.
  pose proof Hw as [H1 H2 H3 H4 H5 H6 H7 H8 H9 H10 H11].
  assert (pl_sessions pl' = ∅) as Hem.
  { apply map_empty. intros k. apply eq_None_not_Some. by intros [e [_ He]%E4]. }
  eapply (pool_inv_remove w); [done|exact E4|exact E5| |done|done|by rewrite E1|..].
  - intros k e He Hc. apply (E6 k); [done|done|]. rewrite (H3 _ _ He). eauto.
  - intros c co Hco. split; [done|]. intros k e _ Hf. rewrite E1 in Hf. done.
  - intros c co Hco. by left.
Qed.

(** A caller that dials holds nothing. *)
Definition busy_apart (w : pool_world) : Prop := ∀ c k, w_dialing w !! c = Some k → w_held w !! c = None.

Lemma exec_apart w a : busy_apart w → busy_apart (exec w a).
Proof.
  intros Hb. destruct a as [c key now opened|c now opened|c err now|now|name|]; cbn [exec].
  - destruct (w_dialing w !! c) eqn:Hd; [done|]. destruct (w_held w !! c) eqn:Hh; [done|].
    destruct (acquire_lookup key now (w_pool w)) as [pl [s| |]]; [| |].
    + intros c' k' Hc'. cbn [w_dialing w_held] in *. rewrite lookup_insert_ne; [by eapply Hb|]. intros ->. congruence.
    + destruct opened; [|done]. intros c' k' Hc'. cbn [w_dialing w_held] in *.
      rewrite lookup_insert_ne; [by eapply Hb|]. intros ->. congruence.
    + intros c' k'. cbn [w_dialing w_held]. intros [[<- _]|[_ Hc']]%lookup_insert_Some; [done|by eapply Hb].
  - destruct (w_dialing w !! c) as [key|] eqn:Hd; [|done].
    destruct opened; [destruct (acquire_store _ _ _ _ _) as [[pl h] co]|]; intros c' k'; cbn [w_dialing w_held];
      intros [Hn Hc']%lookup_delete_Some; rewrite ?lookup_insert_ne by done; by eapply Hb.
  - destruct (w_held w !! c); [|done]. destruct (release _ _ _ _ _) as [pl h]. intros c' k' Hc'. cbn [w_dialing w_held] in *.
    apply Hb in Hc'. rewrite lookup_delete_None. by right.
  - by destruct (Evict _ _ _).
  - by destruct (InvalidateProfile _ _ _).
  - by destruct (pool_Close _ _).
Qed.

Lemma run_inv maxIdle acts :
  Forall (λ a, rotates a = false) acts → pool_inv (run maxIdle acts) ∧ busy_apart (run maxIdle acts).
Proof.
  unfold run. induction acts as [|a acts IH] using rev_ind; [intros _; split; [apply pool_inv_init|by intros c k]|].
  intros [Hacts Ha]%Forall_app. destruct (IH Hacts) as [Hw Hb]. rewrite fold_left_app. cbn [fold_left].
  split; [|by apply exec_apart]. inversion Ha as [|? ? Hr _]; subst.
  destruct a; [by apply exec_acquire| |by apply exec_release|by apply exec_evict|done|by apply exec_close].
  destruct (w_dialing (fold_left exec acts (pool_init maxIdle)) !! c) as [key|] eqn:Hd; [|cbn [exec]; by rewrite Hd].
  apply exec_store; [by eapply Hb|done].
Qed.
End Invariant.

(** ** Properties *)

(** C13: the invariants of the session pool. In every interleaving of acquires (with their
    dials), releases, idle evictions and the shutdown, without a credential rotation: no
    session is held by two callers; a pooled session is connected and has its
    credentials, and is marked in use exactly while a caller holds it; no connection
    stays open without being pooled or held; nothing is pooled after the shutdown; the
    published size is the size of the pool. *)
Theorem pool_invariants `{MapRange} (maxIdle : duration) (acts : list pool_action) :
  Forall (λ a, rotates a = false) acts →
  let w := run maxIdle acts in
  let pool := pl_sessions (w_pool w) in
  (∀ c1 c2 co1 co2, w_held w !! c1 = Some co1 → w_held w !! c2 = Some co2 → c1 ≠ c2 →
     co_session co1 ≠ co_session co2) ∧
  (∀ k e, pool !! k = Some e → w_heap w !! pe_session e = Some (mkConn true true) ∧
     (pe_inUse e = true ↔ ∃ c, w_held w !! c = Some (mkCheckout (pe_session e) (Some k)))) ∧
  (∀ s c, w_heap w !! s = Some c → c_open c = true →
     (∃ k e, pool !! k = Some e ∧ pe_session e = s) ∨ (∃ h, w_held w !! h = Some (mkCheckout s None))) ∧
  (pl_closed (w_pool w) = true → pool = ∅) ∧
  gauge (pl_metrics (w_pool w)) = Z.of_nat (size pool).
Proof.
  intros Hacts w pool. destruct (run_inv maxIdle acts Hacts) as [[H1 H2 H3 H4 H5 H6 H7 H8 H9 H10 H11] _].
  split_and!; try done.
  - intros c1 c2 co1 co2 Ho1 Ho2 Hne Heq. by destruct (H8 _ _ _ _ Ho1 Ho2 Heq).
  - intros k e He. split; [by apply (H3 k)|by apply (H5 k)].
Qed.

(** a rotation during a walk breaks the exclusive use of sessions. The release of a
    session goes by key, not by session: when InvalidateProfile removes an entry in use
    and another caller dials the key anew, the first caller's release frees the second
    caller's session, which a third caller is then handed while the second still uses
    it. *)
Theorem rotation_aliases_session :
  let key := ("10.0.0.1", "core") in
  let acts :=
    [ActAcquire 1 key 1 true; ActStore 1 2 true; ActInvalidate "core";
     ActAcquire 2 key 3 true; ActStore 2 4 true; ActRelease 1 None 5; ActAcquire 3 key 6 true] in
  let w := run (R := range_std) 300 acts in
  ∃ co, w_held w !! 2%nat = Some co ∧ w_held w !! 3%nat = Some co.
Proof.
  cbv zeta. exists (mkCheckout 1 (Some ("10.0.0.1", "core"))).
  vm_compute. split; reflexivity.
Qed.

(** removal closes. A rotation removes exactly the sessions of the profile, and an
    eviction exactly the sessions that are idle for longer than maxIdle and not in use;
    every removed session has its connection closed and its credentials cleared, no
    other session changes, and the published size is updated. *)
Theorem removal_closes `{MapRange} (pl : SessionPool) (h : conn_heap) (name : string) (now : time) :
  (∀ k e, pl_sessions pl !! k = Some e → is_Some (h !! pe_session e)) → 0 < pl_maxIdle pl →
  ∀ (gone : poolKey → poolEntry → Prop) pl' h',
  ((pl', h') = InvalidateProfile name pl h ∧ gone = (λ k _, k.2 = name)) ∨
  ((pl', h') = Evict now pl h ∧ gone = (λ _ e, pe_inUse e = false ∧ pe_lastUsed e < now - pl_maxIdle pl)) →
  (∀ k e, pl_sessions pl' !! k = Some e ↔ pl_sessions pl !! k = Some e ∧ ¬ gone k e) ∧
  (∀ k e, pl_sessions pl !! k = Some e → gone k e → h' !! pe_session e = Some (mkConn false false)) ∧
  (∀ s, (∀ k e, pl_sessions pl !! k = Some e → gone k e → pe_session e ≠ s) → h' !! s = h !! s) ∧
  gauge (pl_metrics pl') = Z.of_nat (size (pl_sessions pl')).
Proof.
  intros Hheap Hidle gone pl' h' Hcase.
  assert (∃ cond reason, drop_sessions cond reason pl h = (pl', h') ∧ ∀ k e, cond k e = true ↔ gone k e)
    as (cond & reason & Hd & Hg).
  { destruct Hcase as [[Hd ->]|[Hd ->]].
    - eexists _, _. split; [symmetry; exact Hd|]. intros k e. apply bool_decide_eq_true.
    - unfold Evict in Hd. rewrite (proj2 (Z.leb_gt _ _) Hidle) in Hd. eexists _, _. split; [symmetry; exact Hd|].
      intros k e. simpl. by rewrite andb_true_iff, negb_true_iff, Z.ltb_lt. }
  destruct (drop_sessions_spec _ _ _ _ _ _ Hd) as (_ & _ & E3 & E4 & E5 & E6). split_and!; [| | |done].
  - intros k e. by rewrite E4, <- Hg, not_true_iff_false.
  - intros k e He Hgo. apply (E6 k); [done|by apply Hg|by eapply Hheap].
  - intros s Hs. apply E5. intros k e He Hc. apply (Hs k); [done|by apply Hg].
Qed.

(** ** Witnesses *)

Lemma pool_invariants_witness :
  w_held (run (R := range_std) 300
    [ActAcquire 1 ("10.0.0.1", "core") 1 true; ActStore 1 2 true; ActAcquire 2 ("10.0.0.1", "core") 3 true]) !! 2%nat =
    Some (mkCheckout 1 None).
Proof.
  destruct (pool_invariants (H := range_std) 300
    [ActAcquire 1 ("10.0.0.1", "core") 1 true; ActStore 1 2 true; ActAcquire 2 ("10.0.0.1", "core") 3 true]) as [Ha _].
  - repeat constructor.
  - vm_compute. reflexivity.
Defined.

Lemma removal_closes_witness :
  (InvalidateProfile (R := range_std) "core"
     (mkSessionPool {[ ("10.0.0.1", "core") := mkPoolEntry 0 5 true ]} 300 false []) {[ 0%nat := mkConn true true ]}).2 !! 0%nat
  = Some (mkConn false false).
Proof.
  set (pl := mkSessionPool {[ ("10.0.0.1", "core") := mkPoolEntry 0 5 true ]} 300 false []).
  set (h := {[ 0%nat := mkConn true true ]}).
  destruct (InvalidateProfile (R := range_std) "core" pl h) as [pl' h'] eqn:Hi.
  destruct (removal_closes (H := range_std) pl h "core" 0) with (gone := λ (k : poolKey) (_ : poolEntry), k.2 = "core")
    (pl' := pl') (h' := h') as (_ & Hc & _).
  - intros k e He. cbn [pl pl_sessions] in He. apply lookup_singleton_Some in He as [<- <-]. unfold h. rewrite lookup_singleton_eq. eauto.
  - reflexivity.
  - left. split; [symmetry; exact Hi|reflexivity].
  - apply (Hc ("10.0.0.1", "core") (mkPoolEntry 0 5 true)); [exact (lookup_singleton_eq _ _)|reflexivity].
Defined.
