(* ===== verification/Acquire.v ===== *)
(** * internal/discovery/snmp/snmp.go: opening and acquiring sessions, the context seams

    [Acquire] is how every walker gets its session: from the pool of SessionPool.v when
    one is configured, by a dial of its own otherwise.  A walker gives the session back
    with the error of its walk.  Sessions are numbered in the order they are opened, so
    the next number is the counter of opens.  The second part is the values the walk of a
    device finds in its context: the rate limiter and the reporters. *)

From Stdlib Require Import ZArith Lia.
From S2P Require Import Prelude GoText Discovery HubValidate Pdu Walker Transport SessionPool.
Open Scope Z_scope.

(** ** Sessions *)

(** [Params.Pool], the connections and [openCount]. *)
Record snmp_world := mkSnmpWorld {
  sw_pool : option SessionPool;
  sw_heap : conn_heap;
  sw_openCount : nat
}.

(** [Open]: [connect] is what [client.Connect] returned. *)
Definition Open (connect : option walk_error) (h : conn_heap) (n : nat)
  : conn_heap * nat * (walk_error + session_id) :=
  match connect with
  | Some err => (h, n, inl err)
  | None => (new_conn h n, S n, inr n)
  end.

(** [SessionPool.openTransient]. *)
Definition openTransient (connect : option walk_error) (pl : SessionPool) (h : conn_heap) (n : nat)
  : SessionPool * conn_heap * nat * (walk_error + checkout) :=
  let pl := record RecordMiss pl in
  let '(h, n, r) := Open connect h n in
  (pl, h, n, match r with inl err => inl err | inr s => inr (mkCheckout s None) end).

(** [SessionPool.acquire] with nobody else between its two critical sections. *)
Definition pool_acquire (key : poolKey) (now : time) (connect : option walk_error)
    (pl : SessionPool) (h : conn_heap) (n : nat)
  : SessionPool * conn_heap * nat * (walk_error + checkout) :=
  match acquire_lookup key now pl with
  | (pl, LookupHit s) => (pl, h, n, inr (mkCheckout s (Some key)))
  | (pl, LookupTransient) => openTransient connect pl h n
  | (pl, LookupCold) =>
      match Open connect h n with
      | (h, n, inl err) => (record RecordMiss pl, h, n, inl err)
      | (h, n, inr client) =>
          let '(pl, h, co) := acquire_store key now client pl h in (pl, h, n, inr co)
      end
  end.

Definition Acquire (key : poolKey) (now : time) (connect : option walk_error) (w : snmp_world)
  : snmp_world * (walk_error + checkout) :=
  match sw_pool w with
  | None =>
      match Open connect (sw_heap w) (sw_openCount w) with
      | (h, n, inl err) => (mkSnmpWorld None h n, inl err)
      | (h, n, inr s) => (mkSnmpWorld None h n, inr (mkCheckout s None))
      end
  | Some pl =>
      let '(pl, h, n, r) := pool_acquire key now connect pl (sw_heap w) (sw_openCount w) in
      (mkSnmpWorld (Some pl) h n, r)
  end.

(** The release func that [Acquire] returned with the session. *)
Definition Release (co : checkout) (walkErr : option walk_error) (now : time) (w : snmp_world) : snmp_world :=
  match sw_pool w with
  | None => mkSnmpWorld None (conn_Close (co_session co) (sw_heap w)) (sw_openCount w)
  | Some pl =>
      let '(pl, h) := release co walkErr now pl (sw_heap w) in mkSnmpWorld (Some pl) h (sw_openCount w)
  end.

(** One walker's use of a session: when it asks, how a dial would end, how its walk ends. *)
Record visit := mkVisit {
  v_start : time;
  v_connect : option walk_error;
  v_walk : option walk_error;
  v_end : time
}.

(** The connection the walk ran on, as the walk found it; [None] when there was none. *)
Definition visit_session (key : poolKey) (v : visit) (w : snmp_world) : snmp_world * option conn :=
  match Acquire key (v_start v) (v_connect v) w with
  | (w, inl _) => (w, None)
  | (w, inr co) => (Release co (v_walk v) (v_end v) w, sw_heap w !! co_session co)
  end.

(** The modules of one target, one after the other. *)
Fixpoint visit_all (key : poolKey) (vs : list visit) (w : snmp_world) : snmp_world * list (option conn) :=
  match vs with
  | [] => (w, [])
  | v :: vs =>
      let '(w, c) := visit_session key v w in
      let '(w, cs) := visit_all key vs w in (w, c :: cs)
  end.

(** ** The context of a device's walks *)

Section Seams.
(** The limiter and the callbacks: what they are is the caller's business. *)
Context {Limiter Callback : Type}.

Record walk_ctx := mkWalkCtx {
  cx_rateLimiter : option Limiter;
  cx_rateLimitWaitObserver : option Callback;
  cx_panicReporter : option Callback;
  cx_decodeIssueReporter : option Callback
}.

Definition ContextWithRateLimiter (ctx : walk_ctx) (l : option Limiter) : walk_ctx :=
  match l with
  | None => ctx
  | Some _ => mkWalkCtx l (cx_rateLimitWaitObserver ctx) (cx_panicReporter ctx) (cx_decodeIssueReporter ctx)
  end.

Definition ContextWithRateLimitWaitObserver (ctx : walk_ctx) (fn : option Callback) : walk_ctx :=
  match fn with
  | None => ctx
  | Some _ => mkWalkCtx (cx_rateLimiter ctx) fn (cx_panicReporter ctx) (cx_decodeIssueReporter ctx)
  end.

Definition ContextWithPanicReporter (ctx : walk_ctx) (fn : option Callback) : walk_ctx :=
  match fn with
  | None => ctx
  | Some _ => mkWalkCtx (cx_rateLimiter ctx) (cx_rateLimitWaitObserver ctx) fn (cx_decodeIssueReporter ctx)
  end.

Definition ContextWithDecodeIssueReporter (ctx : walk_ctx) (fn : option Callback) : walk_ctx :=
  match fn with
  | None => ctx
  | Some _ => mkWalkCtx (cx_rateLimiter ctx) (cx_rateLimitWaitObserver ctx) (cx_panicReporter ctx) fn
  end.

(** The context [probeTarget] walks a device with; [NewLimiter] is
    [rate.NewLimiter(rate.Limit(rps), rps)]. *)
Definition device_context (NewLimiter : Z → Limiter) (report_decode report_panic observe_wait : Callback)
    (perTargetPDURatePerSecond : Z) (ctx : walk_ctx) : walk_ctx :=
  let ctx := ContextWithDecodeIssueReporter ctx (Some report_decode) in
  let ctx := ContextWithPanicReporter ctx (Some report_panic) in
  if 0 <? perTargetPDURatePerSecond
  then ContextWithRateLimitWaitObserver
         (ContextWithRateLimiter ctx (Some (NewLimiter perTargetPDURatePerSecond))) (Some observe_wait)
  else ctx.

(** What [BulkWalk] takes from its context; the rest of its surroundings is [e].
    [wait] is what the limiter's Wait returns: an error, or the time it blocked. *)
Definition walk_in_context (wait : Limiter → walk_error + duration) (ctx : walk_ctx) (e : bulk_env)
  : list transport_event * (walk_error + list SnmpPDU) :=
  let '(ev, r) :=
    snmp_BulkWalk (mkBulkEnv (be_ctxErr e) (wait <$> cx_rateLimiter ctx) (bool_decide (is_Some (cx_rateLimitWaitObserver ctx)))
      (be_bulk e) (be_ctxErr2 e) (be_walk e)) in
  (List.filter (λ x, match x with TePanic _ => bool_decide (is_Some (cx_panicReporter ctx)) | _ => true end) ev, r).
End Seams.

(** [recordSystemWalkAnomaly]: the calls of the sink, none without a sink. *)
Definition recordSystemWalkAnomaly (sink : bool) (reason : string) : list string :=
  if sink then [reason] else [].

(** ** Reference: how many dials a sequence of visits takes *)

(** Is there a session for the key that can be handed out? *)
Definition cached (key : poolKey) (w : snmp_world) : bool :=
  match sw_pool w with
  | Some pl => bool_decide (is_Some (pl_sessions pl !! key))
  | None => false
  end.

(** Does the pool keep sessions? *)
Definition keeping (w : snmp_world) : bool :=
  match sw_pool w with Some pl => negb (pl_closed pl) | None => false end.

(** A visit that finds no session dials; a session survives the visit when it is kept
    and the walk did not end in a connection error. *)
Fixpoint dials (keep have : bool) (vs : list visit) : nat :=
  match vs with
  | [] => 0
  | v :: vs =>
      let survives := keep && negb (isConnectionError (v_walk v)) in
      if have then dials keep survives vs
      else match v_connect v with
           | Some _ => dials keep false vs
           | None => S (dials keep survives vs)
           end
  end.

(** Nobody else uses the key, and what the pool holds for it is a working session. *)
Record session_ready (key : poolKey) (w : snmp_world) : Prop := {
  sr_heap : ∀ s c, sw_heap w !! s = Some c → (s < sw_openCount w)%nat;
  sr_entry : ∀ pl e, sw_pool w = Some pl → pl_sessions pl !! key = Some e →
    pl_closed pl = false ∧ pe_inUse e = false ∧ sw_heap w !! pe_session e = Some (mkConn true true)
}.

(** Every session opened since [n] that is still open is the pool's session for the key. *)
Definition none_leaked (key : poolKey) (n : nat) (w : snmp_world) : Prop :=
  ∀ s c, sw_heap w !! s = Some c → (n ≤ s)%nat → c_open c = true →
    ∃ pl e, sw_pool w = Some pl ∧ pl_sessions pl !! key = Some e ∧ pe_session e = s.

(** What one visit does. *)
Definition visit_spec (key : poolKey) (v : visit) (w w' : snmp_world) (c : option conn) : Prop :=
  session_ready key w' ∧ keeping w' = keeping w ∧
  (sw_openCount w' = sw_openCount w + (if cached key w then 0 else if v_connect v then 0 else 1))%nat ∧
  cached key w' = (if cached key w || bool_decide (v_connect v = None)
                   then keeping w && negb (isConnectionError (v_walk v)) else false) ∧
  c = (if cached key w then Some (mkConn true true)
       else match v_connect v with Some _ => None | None => Some (mkConn true true) end) ∧
  (∀ n, (n ≤ sw_openCount w)%nat → none_leaked key n w → none_leaked key n w').

Lemma closed_not_open s h t c :
  closeSession s h !! t = Some c → c_open c = true → t ≠ s ∧ h !! t = Some c.
Proof.
  intros Ht Ho. destruct (decide (s = t)) as [->|Hne].
  - destruct (h !! t) as [c0|] eqn:Hc.
    + rewrite (closeSession_eq _ _ _ Hc) in Ht. injection Ht as <-. done.
    + unfold closeSession, clearSessionCredentials, conn_Close in Ht. by rewrite !lookup_alter_eq, Hc in Ht.
  - rewrite closeSession_ne in Ht by done. done.
Qed.

Lemma conn_closed_not_open s h t c :
  conn_Close s h !! t = Some c → c_open c = true → t ≠ s ∧ h !! t = Some c.
Proof.
  unfold conn_Close. intros Ht Ho. destruct (decide (s = t)) as [->|Hne].
  - rewrite lookup_alter_eq in Ht. destruct (h !! t); [|done]. injection Ht as <-. done.
  - rewrite lookup_alter_ne in Ht by done. done.
Qed.

Lemma conn_Close_bound s h (n : nat) :
  (∀ t c, h !! t = Some c → (t < n)%nat) → ∀ t c, conn_Close s h !! t = Some c → (t < n)%nat.
Proof.
  intros Hb t c. unfold conn_Close. destruct (decide (s = t)) as [->|Hne].
  - rewrite lookup_alter_eq. destruct (h !! t) eqn:E; [|done]. intros _. by eapply Hb.
  - rewrite lookup_alter_ne by done. apply Hb.
Qed.

Lemma closeSession_bound s h (n : nat) :
  (∀ t c, h !! t = Some c → (t < n)%nat) → ∀ t c, closeSession s h !! t = Some c → (t < n)%nat.
Proof.
  intros Hb t c. unfold closeSession, clearSessionCredentials. destruct (decide (s = t)) as [->|Hne].
  - rewrite lookup_alter_eq. destruct (conn_Close t h !! t) eqn:E; [|done]. intros _. by eapply conn_Close_bound.
  - rewrite lookup_alter_ne by done. by apply conn_Close_bound.
Qed.

Lemma new_conn_bound h (n : nat) :
  (∀ t c, h !! t = Some c → (t < n)%nat) → ∀ t c, new_conn h n !! t = Some c → (t < S n)%nat.
Proof.
  intros Hb t c. unfold new_conn. destruct (decide (n = t)) as [->|Hne]; [lia|].
  rewrite lookup_insert_ne by done. intros Hc%Hb. lia.
Qed.

(** A session opened for one visit and closed after it. *)
Lemma visit_transient key v h n opl opl' :
  v_connect v = None →
  (∀ t c, h !! t = Some c → (t < n)%nat) →
  (pl_sessions <$> opl') = (pl_sessions <$> opl) → (pl_closed <$> opl') = (pl_closed <$> opl) →
  cached key (mkSnmpWorld opl h n) = false →
  keeping (mkSnmpWorld opl h n) = false →
  visit_spec key v (mkSnmpWorld opl h n)
    (mkSnmpWorld opl' (conn_Close n (new_conn h n)) (S n)) (new_conn h n !! n).
Proof.
  intros Hc Hb Hs Hcl Hnot Hk. unfold visit_spec. rewrite Hnot, Hk, Hc.
  assert (∀ pl e, opl' = Some pl → pl_sessions pl !! key = Some e → False) as Hno.
  { intros pl e -> He. destruct opl as [pl0|]; [|done]. injection Hs as Hs. unfold cached in Hnot. simpl in Hnot.
    apply bool_decide_eq_false in Hnot. apply Hnot. rewrite <- Hs, He. eauto. }
  split_and!.
  - split; cbn [sw_heap sw_openCount sw_pool].
    + intros s c. apply conn_Close_bound. by apply new_conn_bound.
    + intros pl e Hp He. by destruct (Hno pl e Hp He).
  - unfold keeping in *. cbn [sw_pool] in *. destruct opl, opl'; try done. injection Hcl as ->. done.
  - cbn. lia.
  - rewrite andb_false_l. replace (if (false || _) then false else false) with false by (by destruct (_ || _)).
    unfold cached. cbn [sw_pool]. destruct opl' as [pl|]; [|done]. apply bool_decide_eq_false. intros [e He]. eauto.
  - by unfold new_conn; rewrite lookup_insert_eq.
  - intros m Hm Hl s c Hs' Hge Ho. cbn [sw_heap] in Hs'. destruct (conn_closed_not_open _ _ _ _ Hs' Ho) as [Hne Hs2].
    unfold new_conn in Hs2. rewrite lookup_insert_ne in Hs2 by done.
    destruct (Hl s c Hs2 Hge Ho) as (pl & e & Hp & He & _). cbn [sw_pool] in Hp. subst opl.
    destruct opl' as [pl'|]; [|done]. injection Hs as Hs. destruct (Hno pl' e eq_refl). by rewrite Hs.
Qed.

(** A visit that got no session leaves everything as it was. *)
Lemma visit_refused key v h n opl opl' :
  v_connect v ≠ None →
  (∀ t c, h !! t = Some c → (t < n)%nat) →
  (pl_sessions <$> opl') = (pl_sessions <$> opl) → (pl_closed <$> opl') = (pl_closed <$> opl) →
  cached key (mkSnmpWorld opl h n) = false →
  visit_spec key v (mkSnmpWorld opl h n) (mkSnmpWorld opl' h n) None.
Proof.
  intros Hc Hb Hs Hcl Hnot. unfold visit_spec. rewrite Hnot. rewrite bool_decide_eq_false_2 by done.
  destruct (v_connect v) as [err|]; [|done].
  assert (cached key (mkSnmpWorld opl' h n) = false) as Hnot'.
  { unfold cached in *. cbn [sw_pool] in *. destruct opl as [pl|], opl' as [pl'|]; try done.
    injection Hs as Hs. by rewrite Hs. }
  split_and!; try done.
  - split; [done|]. cbn [sw_pool]. intros pl e -> He. unfold cached in Hnot'. cbn [sw_pool] in Hnot'.
    apply bool_decide_eq_false in Hnot'. destruct Hnot'. eauto.
  - unfold keeping. cbn [sw_pool]. destruct opl, opl'; try done. injection Hcl as ->. done.
  - intros m Hm Hl s c Hs' Hge Ho. destruct (Hl s c Hs' Hge Ho) as (pl & e & Hp & He & Hse).
    cbn [sw_pool] in *. subst opl. destruct opl' as [pl'|]; [|done]. injection Hs as Hs. exists pl', e. by rewrite Hs.
Qed.

(** The release of the session the pool holds for the key. *)
Lemma release_spec key err now pl h n s lu :
  (∀ t c, h !! t = Some c → (t < n)%nat) →
  pl_closed pl = false → pl_sessions pl !! key = Some (mkPoolEntry s lu true) → h !! s = Some (mkConn true true) →
  let w' := Release (mkCheckout s (Some key)) err now (mkSnmpWorld (Some pl) h n) in
  session_ready key w' ∧ keeping w' = true ∧ sw_openCount w' = n ∧ cached key w' = negb (isConnectionError err) ∧
  (∀ t c, sw_heap w' !! t = Some c → c_open c = true → h !! t = Some c ∧ (t = s → cached key w' = true)) ∧
  (cached key w' = true → ∃ pl' e, sw_pool w' = Some pl' ∧ pl_sessions pl' !! key = Some e ∧ pe_session e = s).
Proof.
  intros Hb Hcl He Hs. cbv zeta. unfold Release, release, releaseFunc. cbn [sw_pool sw_heap sw_openCount co_pooled].
  destruct (isConnectionError err).
  - unfold evictKey. rewrite He. unfold cached, keeping. cbn [sw_pool sw_heap sw_openCount record setSizeLocked set_sessions
      pl_sessions pl_closed pe_session]. rewrite lookup_delete_eq, Hcl.
    rewrite (bool_decide_eq_false_2 (is_Some None)) by (intros [? ?]; done). split_and!; try done.
    + split; cbn [sw_heap sw_openCount sw_pool].
      * by apply closeSession_bound.
      * intros pl' e [= <-]. cbn. by rewrite lookup_delete_eq.
    + intros t c Ht Ho. destruct (closed_not_open _ _ _ _ Ht Ho). done.
  - unfold returnKey. rewrite He. unfold cached, keeping. cbn [sw_pool sw_heap sw_openCount set_sessions
      pl_sessions pl_closed pe_session]. rewrite lookup_insert_eq, Hcl.
    rewrite (bool_decide_eq_true_2 (is_Some _)) by eauto. split_and!; try done.
    + split; cbn [sw_heap sw_openCount sw_pool]; [done|].
      intros pl' e [= <-]. cbn. rewrite lookup_insert_eq. intros [= <-]. done.
    + intros _. eexists _, _. split; [done|]. cbn. by rewrite lookup_insert_eq.
Qed.

(** A visit that ends with the release of the pool's session for the key. *)
Lemma visit_pooled key v opl h n pl h' n' s lu :
  keeping (mkSnmpWorld opl h n) = true →
  (∀ t c, h' !! t = Some c → (t < n')%nat) →
  pl_closed pl = false → pl_sessions pl !! key = Some (mkPoolEntry s lu true) → h' !! s = Some (mkConn true true) →
  cached key (mkSnmpWorld opl h n) || bool_decide (v_connect v = None) = true →
  n' = (n + (if cached key (mkSnmpWorld opl h n) then 0 else if v_connect v then 0 else 1))%nat →
  (∀ t c, h' !! t = Some c → t ≠ s → h !! t = Some c) →
  (∀ e pl0, opl = Some pl0 → pl_sessions pl0 !! key = Some e → pe_session e = s) →
  visit_spec key v (mkSnmpWorld opl h n)
    (Release (mkCheckout s (Some key)) (v_walk v) (v_end v) (mkSnmpWorld (Some pl) h' n')) (h' !! s).
Proof.
  intros Hk Hb Hcl He Hs Hor Hn Hold Hsame.
  destruct (release_spec key (v_walk v) (v_end v) pl h' n' s lu Hb Hcl He Hs) as (H1 & H2 & H3 & H4 & H5 & H6).
  unfold visit_spec. rewrite Hor, Hk, andb_true_l. split_and!; try done.
  - rewrite H3. done.
  - rewrite Hs. destruct (cached key _); [done|]. cbn in Hor. apply bool_decide_eq_true in Hor. by rewrite Hor.
  - intros m Hm Hl t c Ht Hge Ho. destruct (H5 t c Ht Ho) as [Ht' Hts]. destruct (decide (t = s)) as [->|Hne].
    + apply H6. by apply Hts.
    + destruct (Hl t c (Hold t c Ht' Hne) Hge Ho) as (pl0 & e & Hp & He0 & <-). cbn [sw_pool] in Hp.
      destruct Hne. by eapply Hsame.
Qed.

Lemma visit_session_spec key v w w' c :
  session_ready key w → visit_session key v w = (w', c) → visit_spec key v w w' c.
Proof.
  destruct w as [opl h n]. intros [Hb He] Hv. cbn [sw_heap sw_openCount sw_pool] in *. revert Hv.
  unfold visit_session, Acquire. cbn [sw_pool sw_heap sw_openCount]. destruct opl as [pl|].
  - unfold pool_acquire, acquire_lookup. destruct (pl_closed pl) eqn:Hcl.
    + assert (pl_sessions pl !! key = None) as Hno.
      { destruct (pl_sessions pl !! key) as [e|] eqn:E; [|done]. destruct (He pl e eq_refl E) as [? _]. congruence. }
      assert (cached key (mkSnmpWorld (Some pl) h n) = false) as Hca.
      { unfold cached. cbn [sw_pool]. rewrite Hno. by apply bool_decide_eq_false_2; intros [? ?]. }
      unfold openTransient, Open. destruct (v_connect v) as [err|] eqn:Hconn; intros [= <- <-].
      * by apply visit_refused; rewrite ?Hconn.
      * unfold Release, release. cbn [sw_pool co_pooled sw_heap sw_openCount co_session].
        apply visit_transient; try done. unfold keeping. cbn [sw_pool]. by rewrite Hcl.
    + destruct (pl_sessions pl !! key) as [e|] eqn:Hkey.
      * destruct (He pl e eq_refl Hkey) as (_ & Hin & Hopen). rewrite Hin. intros [= <- <-].
        assert (cached key (mkSnmpWorld (Some pl) h n) = true) as Hca.
        { unfold cached. cbn [sw_pool]. rewrite Hkey. by apply bool_decide_eq_true_2; eauto. }
        eapply (visit_pooled _ _ _ _ _ _ _ _ (pe_session e) (v_start v)); try done.
        -- unfold keeping. cbn [sw_pool]. by rewrite Hcl.
        -- cbn. by rewrite lookup_insert_eq.
        -- by rewrite Hca.
        -- rewrite Hca. lia.
        -- intros e' pl0 [= <-]. rewrite Hkey. by intros [= <-].
      * assert (cached key (mkSnmpWorld (Some pl) h n) = false) as Hca.
        { unfold cached. cbn [sw_pool]. rewrite Hkey. by apply bool_decide_eq_false_2; intros [? ?]. }
        unfold Open. destruct (v_connect v) as [err|] eqn:Hconn.
        { intros [= <- <-]. by apply visit_refused; rewrite ?Hconn. }
        unfold acquire_store. rewrite Hcl, Hkey. intros [= <- <-].
        eapply (visit_pooled _ _ _ _ _ _ _ _ n (v_start v)); try done.
        -- unfold keeping. cbn [sw_pool]. by rewrite Hcl.
        -- by apply new_conn_bound.
        -- cbn. by rewrite lookup_insert_eq.
        -- unfold new_conn. by rewrite lookup_insert_eq.
        -- rewrite Hconn. by rewrite bool_decide_eq_true_2, orb_true_r.
        -- rewrite Hca, Hconn. lia.
        -- intros t c. unfold new_conn. intros Ht Hne. by rewrite lookup_insert_ne in Ht.
        -- intros e' pl0 [= <-]. by rewrite Hkey.
  - unfold Open. destruct (v_connect v) as [err|] eqn:Hconn; intros [= <- <-].
    + by apply visit_refused; rewrite ?Hconn.
    + unfold Release. cbn [sw_pool sw_heap sw_openCount co_session]. by apply visit_transient.
Qed.

(** What a sequence of visits does. *)
Lemma visit_all_spec key vs w w' cs :
  session_ready key w → visit_all key vs w = (w', cs) →
  session_ready key w' ∧ keeping w' = keeping w ∧
  (sw_openCount w' = sw_openCount w + dials (keeping w) (cached key w) vs)%nat ∧
  Forall2 (λ v c, match c with Some x => x = mkConn true true | None => is_Some (v_connect v) end) vs cs ∧
  (∀ n, (n ≤ sw_openCount w)%nat → none_leaked key n w → none_leaked key n w').
Proof.
  revert w w' cs. induction vs as [|v vs IH]; intros w w' cs Hr; cbn [visit_all dials].
  { intros [= <- <-]. split_and!; [done|done|lia|done|done]. }
  destruct (visit_session key v w) as [w1 c] eqn:Hv. destruct (visit_all key vs w1) as [w2 cs2] eqn:Hvs. intros [= <- <-].
  destruct (visit_session_spec _ _ _ _ _ Hr Hv) as (H1 & H2 & H3 & H4 & H5 & H6).
  destruct (IH _ _ _ H1 Hvs) as (I1 & I2 & I3 & I4 & I5). split_and!.
  - done.
  - congruence.
  - rewrite I3, H3, H2, H4. destruct (cached key w); [cbn [orb]; lia|]. cbn [orb].
    destruct (v_connect v) as [err|]; [rewrite bool_decide_eq_false_2 by done|rewrite bool_decide_eq_true_2 by done]; lia.
  - constructor; [|done]. rewrite H5. destruct (cached key w); [done|]. by destruct (v_connect v).
  - intros n Hn Hl. apply I5; [lia|]. by apply H6.
Qed.

(** Without a pool there never is one. *)
Lemma visit_all_unpooled key vs w w' cs : sw_pool w = None → visit_all key vs w = (w', cs) → sw_pool w' = None.
Proof.
  revert w w' cs. induction vs as [|v vs IH]; intros w w' cs Hw; cbn [visit_all]; [by intros [= <- _]|].
  unfold visit_session, Acquire. rewrite Hw. unfold Open.
  destruct (v_connect v); destruct (visit_all key vs _) as [w1 cs1] eqn:E; intros [= <- _]; by apply IH in E.
Qed.

(** ** Counting dials *)

Lemma dials_unkept vs : Forall (λ v, v_connect v = None) vs → dials false false vs = length vs.
Proof. induction 1 as [|v vs Hv _ IH]; cbn; [done|]. by rewrite Hv, IH. Qed.

Lemma dials_kept have vs :
  (dials true have vs ≤ (if have then 0 else 1) + length (filter (λ v, isConnectionError (v_walk v) = true) vs))%nat.
Proof.
  revert have. induction vs as [|v vs IH]; intros have; cbn [dials]; [destruct have; cbn; lia|].
  rewrite filter_cons. destruct (decide (isConnectionError (v_walk v) = true)) as [E|E].
  - rewrite E. cbn. specialize (IH false). cbn in IH. destruct have, (v_connect v); lia.
  - apply not_true_is_false in E. rewrite E. cbn. pose proof (IH true) as IHt. pose proof (IH false) as IHf. cbn in IHt, IHf.
    destruct have, (v_connect v); lia.
Qed.

(** ** The pool's two critical sections in a row *)

(** [pool_acquire] is what the interleaving model does when a caller's second critical
    section directly follows its first. *)
Lemma pool_acquire_exec `{MapRange} w c key now (connect : option walk_error) pl h n r :
  w_dialing w !! c = None → w_held w !! c = None →
  pool_acquire key now connect (w_pool w) (w_heap w) (w_next w) = (pl, h, n, r) →
  let ok := bool_decide (connect = None) in
  let w' := exec (exec w (ActAcquire c key now ok)) (ActStore c now ok) in
  w_pool w' = pl ∧ w_heap w' = h ∧ w_next w' = n ∧ w_dialing w' !! c = None ∧
  w_held w' !! c = match r with inl _ => None | inr co => Some co end.
Proof.
  intros Hd Hh. cbv zeta. unfold pool_acquire. cbn [exec]. rewrite Hd, Hh.
  destruct (acquire_lookup key now (w_pool w)) as [pl1 [s| |]] eqn:Hl.
  - intros [= <- <- <- <-]. cbn [w_dialing exec]. rewrite Hd. cbn. by rewrite lookup_insert_eq.
  - unfold openTransient, Open. destruct connect as [err|].
    + rewrite bool_decide_eq_false_2 by done. intros [= <- <- <- <-]. cbn [w_dialing exec]. by rewrite Hd.
    + rewrite bool_decide_eq_true_2 by done. intros [= <- <- <- <-]. cbn [w_dialing exec]. rewrite Hd. cbn.
      by rewrite lookup_insert_eq.
  - cbn [w_dialing w_pool w_heap w_next w_held]. rewrite lookup_insert_eq. unfold Open. destruct connect as [err|].
    + rewrite bool_decide_eq_false_2 by done. intros [= <- <- <- <-]. cbn. by rewrite lookup_delete_eq.
    + rewrite bool_decide_eq_true_2 by done.
      destruct (acquire_store key now (w_next w) pl1 (new_conn (w_heap w) (w_next w))) as [[pl2 h2] co].
      intros [= <- <- <- <-]. cbn. by rewrite lookup_delete_eq, lookup_insert_eq.
Qed.

(** ** Rate limiting *)

Definition rate_waits (ev : list transport_event) : list transport_event :=
  List.filter (λ x, match x with TeRateWait _ => true | _ => false end) ev.

(** However many requests the two walks of one [BulkWalk] send, the limiter is asked
    once, and its answer alone decides what the observer sees. *)
Lemma one_token_per_walk {L C} (wait : L → walk_error + duration) (ctx : @walk_ctx L C) e :
  rate_waits (walk_in_context wait ctx e).1 =
  match be_ctxErr e, cx_rateLimiter ctx with
  | None, Some l =>
      match wait l with
      | inr d => if bool_decide (is_Some (cx_rateLimitWaitObserver ctx)) then [TeRateWait d] else []
      | inl _ => []
      end
  | _, _ => []
  end.
Proof.
  unfold walk_in_context, snmp_BulkWalk, fallback_walk. cbn [be_ctxErr be_limiter be_observer be_bulk be_ctxErr2 be_walk].
  destruct (be_ctxErr e); [done|]. destruct (cx_rateLimiter ctx) as [l|]; cbn [fmap option_fmap option_map].
  - destruct (wait l); [done|]. destruct (bool_decide (is_Some (cx_rateLimitWaitObserver ctx)));
    destruct (bool_decide (is_Some (cx_panicReporter ctx)));
    destruct (be_bulk e) as [[?|?]| |? []]; cbn; try done;
    destruct (be_ctxErr2 e); cbn; try done; destruct (be_walk e) as [?| |? []]; done.
  - destruct (bool_decide (is_Some (cx_panicReporter ctx)));
    destruct (be_bulk e) as [[?|?]| |? []]; cbn; try done;
    destruct (be_ctxErr2 e); cbn; try done; destruct (be_walk e) as [?| |? []]; done.
Qed.

(** What a device's walks find in their context. *)
Lemma device_context_exact {L C} (NewLimiter : Z → L) (dec pan obs : C) rps (ctx : walk_ctx) :
  device_context NewLimiter dec pan obs rps ctx =
  mkWalkCtx (if 0 <? rps then Some (NewLimiter rps) else cx_rateLimiter ctx)
    (if 0 <? rps then Some obs else cx_rateLimitWaitObserver ctx) (Some pan) (Some dec).
Proof. unfold device_context. by destruct (0 <? rps). Qed.

(** ** Claims *)

(** C34: a target's modules, one after the other, get working sessions and leak none.
    Every walk that got a session found its connection open and its credentials in
    place, a walk goes without one exactly when its own dial failed, the sessions dialed
    are those the reference [dials] counts, and every session opened on the way is closed
    at the end unless it is the one the pool keeps for the key. *)
Theorem acquire_sessions (key : poolKey) (vs : list visit) (w w' : snmp_world) (cs : list (option conn))
  (Hready : session_ready key w) (Hrun : visit_all key vs w = (w', cs)) :
  (sw_openCount w' = sw_openCount w + dials (keeping w) (cached key w) vs)%nat ∧
  Forall2 (λ v c, match c with Some x => x = mkConn true true | None => is_Some (v_connect v) end) vs cs ∧
  (∀ s c, sw_heap w' !! s = Some c → (sw_openCount w ≤ s)%nat → c_open c = true →
     ∃ pl e, sw_pool w' = Some pl ∧ pl_sessions pl !! key = Some e ∧ pe_session e = s) ∧
  session_ready key w'.
Proof.
  destruct (visit_all_spec _ _ _ _ _ Hready Hrun) as (H1 & _ & H3 & H4 & H5). split_and!; try done.
  apply H5; [done|]. intros s c Hs Hge. apply (sr_heap _ _ Hready) in Hs. lia.
Qed.

(** what the pool saves.  When dials succeed, a run without a pool opens one session
    per walk and leaves none open; with a pool it opens one at most, and one more for each
    walk that ends in a connection error.  So a target with five modules or more and no
    connection error saves at least four dials of five. *)
Theorem pool_open_reduction (key : poolKey) (vs : list visit) (pl : SessionPool)
  (w1 w2 : snmp_world) (cs1 cs2 : list (option conn))
  (Hopen : pl_closed pl = false) (Hnew : pl_sessions pl = ∅) (Hdial : Forall (λ v, v_connect v = None) vs)
  (Hpooled : visit_all key vs (mkSnmpWorld (Some pl) ∅ 0) = (w1, cs1))
  (Hfresh : visit_all key vs (mkSnmpWorld None ∅ 0) = (w2, cs2)) :
  let errs := length (filter (λ v, isConnectionError (v_walk v) = true) vs) in
  sw_openCount w2 = length vs ∧ (∀ s c, sw_heap w2 !! s = Some c → c_open c = false) ∧
  (sw_openCount w1 ≤ 1 + errs)%nat ∧
  ((5 ≤ length vs)%nat → errs = 0%nat → (5 * sw_openCount w1 ≤ sw_openCount w2)%nat).
Proof.
  assert (session_ready key (mkSnmpWorld (Some pl) ∅ 0)) as R1.
  { split; cbn; [by intros ? ? ?%lookup_empty_Some|]. intros ? ? [= <-]. rewrite Hnew. by intros ?%lookup_empty_Some. }
  assert (session_ready key (mkSnmpWorld None ∅ 0)) as R2.
  { split; cbn; [by intros ? ? ?%lookup_empty_Some|done]. }
  destruct (visit_all_spec _ _ _ _ _ R1 Hpooled) as (_ & _ & A & _).
  destruct (visit_all_spec _ _ _ _ _ R2 Hfresh) as (_ & _ & B & _ & L).
  unfold keeping, cached in A, B. cbn [sw_pool sw_openCount] in A, B.
  rewrite Hopen, Hnew, lookup_empty in A. rewrite dials_unkept in B by done.
  pose proof (dials_kept false vs) as D. rewrite (bool_decide_eq_false_2 (is_Some None)) in A by (intros [? ?]; done).
  cbv zeta. cbn [negb] in A. cbv iota in D. split_and!; [lia| |lia|lia].
  intros s c Hs. destruct (c_open c) eqn:Ho; [|done].
  assert (sw_pool w2 = None) as Hn by (by eapply visit_all_unpooled; [|exact Hfresh]).
  destruct (L 0%nat ltac:(cbn; lia)) with (s := s) (c := c) as (pl2 & e & Hp & _); [|done|lia|done|congruence].
  intros t c' Ht. cbn [sw_heap] in Ht. by apply lookup_empty_Some in Ht.
Qed.

(** ** Witnesses *)

Definition wit_net : walk_error := mkWalkError None false false true.
Definition wit_visits : list visit :=
  [mkVisit 1 None None 2; mkVisit 3 None (Some wit_net) 4; mkVisit 5 None None 6; mkVisit 7 None None 8; mkVisit 9 None None 10].
Definition wit_key : poolKey := ("192.0.2.1", "ro").

(** One module without a session (its dial failed), one that breaks the session, and the
    pool dialing again for the next. *)
Lemma acquire_sessions_witness :
  let w := mkSnmpWorld (Some (NewSessionPool 60)) ∅ 0 in
  let vs := mkVisit 0 (Some wit_net) None 0 :: wit_visits in
  sw_openCount (visit_all wit_key vs w).1 = 2%nat ∧
  (visit_all wit_key vs w).2 = None :: repeat (Some (mkConn true true)) 5.
Proof.
  cbv zeta. set (w := mkSnmpWorld _ _ _). set (vs := _ :: _).
  destruct (acquire_sessions wit_key vs w _ _ ltac:(split; cbn; [by intros ? ? ?%lookup_empty_Some|
    intros ? ? [= <-]; cbn [NewSessionPool pl_sessions]; by intros ?%lookup_empty_Some]) (surjective_pairing _)) as (H & _).
  split; [rewrite H; reflexivity|vm_compute; reflexivity].
Defined.

Lemma pool_open_reduction_witness :
  let vs := repeat (mkVisit 1 None None 2) 9 in
  let pooled := visit_all wit_key vs (mkSnmpWorld (Some (NewSessionPool 60)) ∅ 0) in
  let fresh := visit_all wit_key vs (mkSnmpWorld None ∅ 0) in
  sw_openCount pooled.1 = 1%nat ∧ sw_openCount fresh.1 = 9%nat ∧
  (5 * sw_openCount pooled.1 ≤ sw_openCount fresh.1)%nat.
Proof.
  cbv zeta. set (vs := repeat _ _).
  destruct (pool_open_reduction wit_key vs (NewSessionPool 60) _ _ _ _ eq_refl eq_refl
    ltac:(repeat constructor) (surjective_pairing _) (surjective_pairing _)) as (H & _ & _ & H4).
  split; [vm_compute; reflexivity|]. split; [exact H|]. apply H4; [cbn; lia|reflexivity].
Defined.
