(* ===== verification/Evictor.v ===== *)
(** * internal/discovery/snmp/pool.go: the idle evictor

    The goroutine NewSessionPool starts: a ticker at half the idle limit, and an eviction on
    every tick until the pool stops.  Between its uses a session stays open with its
    credentials, so the time it may stay idle bounds how long credentials linger. *)

From Stdlib Require Import ZArith Lia.
From S2P Require Import Prelude GoText Discovery Walker SessionPool.
Open Scope Z_scope.

Definition Minute : duration := 60 * Second.

(** The ticker's interval. *)
Definition evict_tick (maxIdle : duration) : duration :=
  let tick := Z.quot maxIdle 2 in if tick <=? 0 then Minute else tick.

(** What the loop's select takes next. *)
Inductive evict_event := Stopped | Ticked (now : time).

Section Evictor.
Context `{R : MapRange}.

Fixpoint evictLoop (evs : list evict_event) (st : SessionPool * conn_heap) : SessionPool * conn_heap :=
  match evs with
  | [] => st
  | Stopped :: _ => st
  | Ticked now :: evs => evictLoop evs (Evict now st.1 st.2)
  end.

(** The first [n] ticks of a pool made at [start]. *)
Definition ticks (start : time) (tick : duration) (n : nat) : list evict_event :=
  (λ i : nat, Ticked (start + tick * (Z.of_nat i + 1))) <$> seq 0 n.

(** ** Lemmas *)

(** An idle session of the pool that no other key shares. *)
Record idle (key : poolKey) (e : poolEntry) (c : conn) (st : SessionPool * conn_heap) : Prop := {
  id_limit : 0 < pl_maxIdle st.1;
  id_entry : pl_sessions st.1 !! key = Some e;
  id_inUse : pe_inUse e = false;
  id_conn : st.2 !! pe_session e = Some c;
  id_alone : ∀ k e', pl_sessions st.1 !! k = Some e' → pe_session e' = pe_session e → k = key
}.

(** A session that is closed, wiped and in no entry. *)
Record gone (key : poolKey) (s : session_id) (st : SessionPool * conn_heap) : Prop := {
  go_entry : pl_sessions st.1 !! key = None;
  go_conn : st.2 !! s = Some (mkConn false false);
  go_alone : ∀ k e', pl_sessions st.1 !! k = Some e' → pe_session e' ≠ s
}.

Definition too_old (maxIdle now : Z) (e : poolEntry) : bool := negb (pe_inUse e) && (pe_lastUsed e <? now - maxIdle).

Lemma Evict_spec now pl h :
  0 < pl_maxIdle pl →
  let st' := Evict now pl h in
  pl_maxIdle st'.1 = pl_maxIdle pl ∧
  (∀ k e, pl_sessions st'.1 !! k = Some e ↔ pl_sessions pl !! k = Some e ∧ too_old (pl_maxIdle pl) now e = false) ∧
  (∀ s, (∀ k e, pl_sessions pl !! k = Some e → too_old (pl_maxIdle pl) now e = true → pe_session e ≠ s) → st'.2 !! s = h !! s) ∧
  (∀ k e, pl_sessions pl !! k = Some e → too_old (pl_maxIdle pl) now e = true → is_Some (h !! pe_session e) →
     st'.2 !! pe_session e = Some (mkConn false false)).
Proof.
  intros Hm. cbv zeta. unfold Evict. destruct (Z.leb_spec (pl_maxIdle pl) 0); [lia|].
  destruct (drop_sessions _ _ pl h) as [pl' h'] eqn:Hd. apply drop_sessions_spec in Hd as (_ & H2 & _ & H4 & H5 & H6). done.
Qed.

(** One tick: a session past the limit is closed and wiped, another is left alone. *)
Lemma Evict_idle key e c now st :
  idle key e c st →
  if pe_lastUsed e <? now - pl_maxIdle st.1 then gone key (pe_session e) (Evict now st.1 st.2)
  else idle key e c (Evict now st.1 st.2).
Proof.
  destruct st as [pl h]. intros [Hm He Hu Hc Ha]. cbn [fst snd] in *.
  destruct (Evict_spec now pl h Hm) as (E1 & E2 & E3 & E4).
  assert (too_old (pl_maxIdle pl) now e = (pe_lastUsed e <? now - pl_maxIdle pl)) as Ho by (unfold too_old; by rewrite Hu).
  destruct (pe_lastUsed e <? now - pl_maxIdle pl) eqn:Hl.
  - split.
    + destruct (pl_sessions (Evict now pl h).1 !! key) as [e'|] eqn:Hk; [|done].
      apply E2 in Hk as [Hk Hf]. congruence.
    + apply (E4 key); [done|done|]. rewrite Hc. eauto.
    + intros k e' [Hk Hf]%E2 Hs. rewrite (Ha _ _ Hk Hs) in Hk. congruence.
  - split; cbn [fst].
    + by rewrite E1.
    + apply E2. by rewrite Ho.
    + done.
    + rewrite E3; [done|]. intros k e' Hk Hf Hs. rewrite (Ha _ _ Hk Hs) in Hk. congruence.
    + intros k e' [Hk _]%E2. by apply Ha.
Qed.

Lemma Evict_gone key s now st : gone key s st → gone key s (Evict now st.1 st.2).
Proof.
  destruct st as [pl h]. intros [He Hc Ha]. cbn [fst snd] in *.
  destruct (Z.leb_spec (pl_maxIdle pl) 0) as [Hle|Hm].
  { unfold Evict. destruct (Z.leb_spec (pl_maxIdle pl) 0); [by split|lia]. }
  destruct (Evict_spec now pl h Hm) as (_ & E2 & E3 & _). split.
  - destruct (pl_sessions (Evict now pl h).1 !! key) as [e'|] eqn:Hk; [|done]. apply E2 in Hk as [Hk _]. congruence.
  - rewrite E3; [done|]. intros k e' Hk _. by eapply Ha.
  - intros k e' [Hk _]%E2. by eapply Ha.
Qed.

Lemma evictLoop_gone key s times st : gone key s st → gone key s (evictLoop (Ticked <$> times) st).
Proof. revert st. induction times as [|t times IH]; intros st Hg; [done|]. cbn. by apply IH, Evict_gone. Qed.

(** Ticks up to the limit keep the session, the first one past it closes it. *)
Lemma evictLoop_idle key e c times st :
  idle key e c st →
  if decide (Exists (λ now, pe_lastUsed e + pl_maxIdle st.1 < now) times)
  then gone key (pe_session e) (evictLoop (Ticked <$> times) st)
  else idle key e c (evictLoop (Ticked <$> times) st).
Proof.
  revert st. induction times as [|t times IH]; intros st Hi.
  { rewrite decide_False by (by intros ?%Exists_nil). done. }
  cbn [fmap list_fmap evictLoop]. pose proof (Evict_idle key e c t st Hi) as Hs.
  destruct (Z.ltb_spec (pe_lastUsed e) (t - pl_maxIdle st.1)) as [Hl|Hl].
  - rewrite decide_True by (left; lia). by apply evictLoop_gone.
  - specialize (IH _ Hs). assert (pl_maxIdle (Evict t st.1 st.2).1 = pl_maxIdle st.1) as Hm.
    { by destruct (Evict_spec t st.1 st.2 (id_limit _ _ _ _ Hi)). }
    rewrite Hm in IH. destruct (decide (Exists _ times)) as [Hx|Hx].
    + rewrite decide_True by (by right). done.
    + rewrite decide_False; [done|]. intros [Ht|Ht]%Exists_cons; [lia|done].
Qed.

(** ** Claims *)

(** no credential lingers in an idle session for longer than the idle limit and one
    tick.  As long as nobody uses it, a pooled session survives every tick up to its last
    use plus the limit, so it is there for a caller in time; and once the ticker of the
    pool has run for a limit and a tick after that use, its connection is closed, its
    credentials are cleared and the pool has no entry for it.  A stopped loop leaves all
    as it is. *)
Theorem idle_session_closed_in_time (key : poolKey) (e : poolEntry) (c : conn) (pl : SessionPool) (h : conn_heap)
    (start : time) (n : nat) (rest : list evict_event)
  (Hidle : idle key e c (pl, h)) (Hstart : start ≤ pe_lastUsed e) :
  let tick := evict_tick (pl_maxIdle pl) in
  let st := evictLoop (ticks start tick n) (pl, h) in
  0 < tick ∧
  (start + tick * Z.of_nat n ≤ pe_lastUsed e + pl_maxIdle pl →
     pl_sessions st.1 !! key = Some e ∧ st.2 !! pe_session e = Some c) ∧
  (pe_lastUsed e + pl_maxIdle pl + tick ≤ start + tick * Z.of_nat n →
     pl_sessions st.1 !! key = None ∧ st.2 !! pe_session e = Some (mkConn false false)) ∧
  evictLoop (Stopped :: rest) st = st.
Proof.
  cbv zeta. set (tick := evict_tick (pl_maxIdle pl)).
  assert (0 < tick) as Ht.
  { unfold tick, evict_tick. destruct (Z.leb_spec (Z.quot (pl_maxIdle pl) 2) 0); [done|lia]. }
  set (times := (λ i : nat, start + tick * (Z.of_nat i + 1)) <$> seq 0 n).
  assert (ticks start tick n = Ticked <$> times) as Hts by (unfold ticks, times; by rewrite <- list_fmap_compose).
  pose proof (evictLoop_idle key e c times (pl, h) Hidle) as Hl. rewrite <- Hts in Hl.
  cbn [fst] in Hl. split_and!; [done| | |done].
  - intros Hn. rewrite decide_False in Hl; [by destruct Hl|].
    intros (t & Hin & Hlt)%Exists_exists. apply list_elem_of_fmap in Hin as (i & -> & Hi%elem_of_seq). nia.
  - intros Hn. rewrite decide_True in Hl; [by destruct Hl|].
    apply Exists_exists. exists (start + tick * (Z.of_nat (n - 1) + 1)).
    assert (n ≠ 0%nat) as Hn0 by (intros ->; pose proof (id_limit _ _ _ _ Hidle); cbn in *; lia).
    split; [|nia]. apply list_elem_of_fmap. exists (n - 1)%nat. split; [done|]. apply elem_of_seq. lia.
Qed.
End Evictor.

(** The default limit of five intervals of a minute: closed within seven and a half. *)
Lemma idle_session_closed_in_time_witness :
  let e := mkPoolEntry 0 0 false in
  let pl := mkSessionPool {[("192.0.2.1", "ro") := e]} (5 * Minute) false [] in
  let h : conn_heap := {[0%nat := mkConn true true]} in
  let st := evictLoop (R := range_std) (ticks 0 (evict_tick (5 * Minute)) 3) (pl, h) in
  pl_sessions st.1 !! ("192.0.2.1", "ro") = None ∧ st.2 !! 0%nat = Some (mkConn false false).
Proof.
  intros e pl h st.
  assert (idle ("192.0.2.1", "ro") e (mkConn true true) (pl, h)) as Hi.
  { split; cbn [fst snd pl_maxIdle pl_sessions pl h]; [done|apply lookup_singleton_eq|done|apply (lookup_singleton_eq (M:=gmap nat))|].
    intros k e' [<- _]%lookup_singleton_Some. done. }
  destruct (idle_session_closed_in_time (R := range_std) ("192.0.2.1", "ro") e (mkConn true true) pl h 0 3 [] Hi
    ltac:(reflexivity || (cbn; lia))) as (_ & _ & H & _).
  exact (H ltac:(vm_compute; discriminate)).
Defined.
