(* ===== verification/DeviceWalk.v ===== *)
(** * The walk of one device

    internal/config/target_override.go, internal/app/device_walk.go and
    internal/app/probe_target.go: which modules run against an address, the union
    of what they report, and the probe of one configured target.  The walkers are
    function values of the source's [Module] record: here each is the answer it
    gives for a device.  Spans and log lines are not modelled. *)

From Stdlib Require Import ZArith Lia.
From S2P Require Import Prelude GoText Discovery Pdu Credentials Synthesize Probe Walker.
Open Scope Z_scope.

(** ** Per-target overrides *)

Record TargetOverride := mkTargetOverride { o_CIDR : string; o_Modules : list string }.

Record targetOverride := mkOverride {
  ov_net : IPNet;
  ov_prefixLen : Z;
  ov_modules : gset string
}.

Record ModulesConfig := mkModules {
  LLDP_Enabled : bool;
  CDP_Enabled : bool;
  FDB_Enabled : bool;
  OSPF_Enabled : bool;
  BGP_Enabled : bool;
  ISIS_Enabled : bool;
  MPLSTE_Enabled : bool;
  ARP_Enabled : bool
}.

Definition moduleGloballyEnabled (c : ModulesConfig) (m : string) : bool :=
  if bool_decide (m = "lldp") then LLDP_Enabled c
  else if bool_decide (m = "cdp") then CDP_Enabled c
  else if bool_decide (m = "fdb") then FDB_Enabled c
  else if bool_decide (m = "ospf") then OSPF_Enabled c
  else if bool_decide (m = "bgp") then BGP_Enabled c
  else if bool_decide (m = "isis") then ISIS_Enabled c
  else if bool_decide (m = "mpls_te") then MPLSTE_Enabled c
  else false.

Definition scopableModules : list string := ["lldp"; "cdp"; "fdb"; "ospf"; "bgp"; "isis"; "mpls_te"].

(** What [validateTargetOverrides] rejects, with the index of the override. *)
Inductive override_error :=
| BadCIDR (i : nat)
| DuplicateCIDR (i first : nat)
| NoModules (i : nat)
| UnknownModule (i : nat) (m : string)
| DuplicateModule (i : nat) (m : string)
| DisabledModule (i : nat) (m : string).

Section Overrides.
Context `{N : NetText}.
(** [IPNet.String], the canonical text of a network. *)
Context (IPNet_String : IPNet → string).

Definition parse_override (o : TargetOverride) : option targetOverride :=
  n ← ParseCIDR (o_CIDR o);
  Some (mkOverride n (mask_Size (n_Mask n)).1 (list_to_set (o_Modules o))).

Definition buildTargetOverrideResolver (overrides : list TargetOverride) : option (list targetOverride) :=
  match overrides with
  | [] => None
  | _ => Some (sort_by (longer ov_prefixLen) (omap parse_override overrides))
  end.

Fixpoint check_modules (c : ModulesConfig) (i : nat) (seenMod : gset string) (ms : list string)
  : override_error + unit :=
  match ms with
  | [] => inr tt
  | m :: ms' =>
      guard negb (bool_decide (m ∈ scopableModules)) else UnknownModule i m;
      guard bool_decide (m ∈ seenMod) else DuplicateModule i m;
      guard negb (moduleGloballyEnabled c m) else DisabledModule i m;
      check_modules c i ({[m]} ∪ seenMod) ms'
  end.

Fixpoint check_overrides (c : ModulesConfig) (i : nat) (seenCIDR : gmap string nat)
    (os : list TargetOverride) : override_error + unit :=
  match os with
  | [] => inr tt
  | o :: os' =>
      match ParseCIDR (o_CIDR o) with
      | None => inl (BadCIDR i)
      | Some n =>
          match seenCIDR !! IPNet_String n with
          | Some first => inl (DuplicateCIDR i first)
          | None =>
              guard bool_decide (o_Modules o = []) else NoModules i;
              do _ <- check_modules c i ∅ (o_Modules o);
              check_overrides c (S i) (<[IPNet_String n := i]> seenCIDR) os'
          end
      end
  end.

(** The resolver the configuration ends up with. *)
Definition validateTargetOverrides (c : ModulesConfig) (os : list TargetOverride)
  : override_error + option (list targetOverride) :=
  match os with
  | [] => inr None
  | _ => do _ <- check_overrides c 0 ∅ os; inr (buildTargetOverrideResolver os)
  end.

(** [None] when no override matches. *)
Definition ModulesForIP (r : option (list targetOverride)) (ip : list Z) : option (gset string) :=
  match r with
  | None => None
  | Some os => ov_modules <$> find_first (λ o, Contains (ov_net o) ip) os
  end.
End Overrides.

(** ** The module walk *)

Record Module := mkModule {
  m_Proto : string;
  m_Enabled : bool;
  m_Walk : string → walk_error + (list Edge * list OutOfScopeNeighbour)
}.

(** The walk functions of the seven packages. *)
Record Walkers := mkWalkers {
  lldp_Walk : string → walk_error + (list Edge * list OutOfScopeNeighbour);
  cdp_Walk : string → walk_error + (list Edge * list OutOfScopeNeighbour);
  fdb_Walk : string → walk_error + (list Edge * list OutOfScopeNeighbour);
  ospf_Walk : string → walk_error + (list Edge * list OutOfScopeNeighbour);
  bgp_Walk : string → walk_error + (list Edge * list OutOfScopeNeighbour);
  isis_Walk : string → walk_error + (list Edge * list OutOfScopeNeighbour);
  mpls_Walk : string → walk_error + (list Edge * list OutOfScopeNeighbour)
}.

Definition enabledModules (c : ModulesConfig) (w : Walkers) : list Module :=
  [mkModule "lldp" (LLDP_Enabled c) (lldp_Walk w);
   mkModule "cdp" (CDP_Enabled c) (cdp_Walk w);
   mkModule "fdb" (FDB_Enabled c) (fdb_Walk w);
   mkModule "ospf" (OSPF_Enabled c) (ospf_Walk w);
   mkModule "bgp" (BGP_Enabled c) (bgp_Walk w);
   mkModule "isis" (ISIS_Enabled c) (isis_Walk w);
   mkModule "mpls_te" (MPLSTE_Enabled c) (mpls_Walk w)].

(** The increments of the per-module counters. *)
Inductive walk_metric :=
| DiscoveryHardFailTotal (proto reason : string)
| SNMPWalksTotal (status reason : string)
| DiscoveryDegradedTotal (proto reason : string)
| CredentialTrialsTotal (status : string).

Definition ReasonNA : string := "n/a".

Definition set_Proto (p : string) (n : OutOfScopeNeighbour) : OutOfScopeNeighbour :=
  mkOOS (ReportingDevice n) (ReportingPort n) (NeighbourHint n) p (FirstSeen n) (LastSeen n).

Record walk_state := mkWalkState {
  ws_edges : list Edge;
  ws_oos : list OutOfScopeNeighbour;
  ws_status : gmap string Z;
  ws_metrics : list walk_metric
}.

Section WalkModules.
Context `{R : MapRange}.

Definition module_failed (proto : string) (e : walk_error) : list walk_metric :=
  let reason := match we_policy e with
                | Some r => if bool_decide (r ≠ "") then r else "module_walk_error"
                | None => "module_walk_error"
                end in
  [DiscoveryHardFailTotal proto reason;
   if we_deadline e then SNMPWalksTotal "timeout" ReasonNA else SNMPWalksTotal "error" "module_error"].

(** A status once set for a protocol stays, but a failure overwrites it. *)
Definition status_once (proto : string) (v : Z) (m : gmap string Z) : gmap string Z :=
  match m !! proto with
  | Some _ => m
  | None => <[proto := v]> m
  end.

Definition walk_module (metrics : bool) (devID : string) (st : walk_state) (md : Module) : walk_state :=
  let emit l := ws_metrics st ++ (if metrics then l else []) in
  match m_Walk md devID with
  | inl e =>
      mkWalkState (ws_edges st) (ws_oos st) (<[m_Proto md := 2]> (ws_status st))
        (emit (module_failed (m_Proto md) e))
  | inr (mEdges, mOOS) =>
      let degradedReasons := CollectDegradedReasons mEdges in
      mkWalkState (ws_edges st ++ mEdges) (ws_oos st ++ (set_Proto (m_Proto md) <$> mOOS))
        (status_once (m_Proto md) (if bool_decide (degradedReasons = []) then 0 else 1) (ws_status st))
        (emit (SNMPWalksTotal "ok" ReasonNA :: (DiscoveryDegradedTotal (m_Proto md) <$> degradedReasons)))
  end.

Definition module_runs (allowed : option (gset string)) (md : Module) : bool :=
  m_Enabled md && match allowed with Some s => bool_decide (m_Proto md ∈ s) | None => true end.

Definition walkModules (c : ModulesConfig) (w : Walkers) (ov : option (list targetOverride))
    (devID : string) (ip : list Z) (metrics : bool) : walk_state :=
  let allowed := ModulesForIP ov ip in
  fold_left (λ st md, if module_runs allowed md then walk_module metrics devID st md else st)
    (enabledModules c w) (mkWalkState [] [] ∅ []).
End WalkModules.

(** ** The probe of a target *)

Record TargetConfig := mkTarget {
  t_Host : string;
  t_Port : Z;
  t_Site : string;
  t_Labels : gmap string string
}.

Definition DiscoveryReasonDNSFailed : string := "dns_failed".
Definition DiscoveryReasonOutsideAllowList : string := "outside_allow_list".
Definition DiscoveryReasonTimeout : string := "timeout".
Definition DiscoveryReasonAuthFailed : string := "auth_failed".
Definition DiscoveryReasonBudgetExpired : string := "budget_expired".
Definition DiscoveryReasonPanic : string := "panic".

Record probeResult := mkProbeResult {
  targetIdx : Z;
  device : option Device;
  edges : list Edge;
  outOfScope : list OutOfScopeNeighbour;
  mgmtIP : string;
  moduleStatus : gmap string Z
}.

(** The surroundings of one probe: DNS, the clock, the limiter and the device's
    answers, the walkers, the ARP table (if its walk succeeds). *)
Record probe_env := mkProbeEnv {
  pe_LookupHost : string → option (list string);
  pe_now1 : time;
  pe_now2 : time;
  pe_now3 : time;
  pe_trials : nat → trial;
  pe_walkers : Walkers;
  pe_arp : option (gmap string string)
}.

Record probe_out := mkProbeOut {
  pr_heap : list (list Z);
  pr_resolver : Resolver;
  pr_metrics : list walk_metric;
  pr_result : string + (probeResult * gmap string string)
}.

Section ProbeTarget.
Context (Getenv : string → string) `{R : MapRange} `{N : NetText}.
Context (pcfg : probeConfig) (mods : ModulesConfig) (ov : option (list targetOverride))
  (allowedNets : list IPNet).

Definition decorate (t : TargetConfig) (d : Device) : Device :=
  mkDevice (ID d) (Vendor d) (Model d) (OSVersion d) (t_Site t) (Uptime d) (t_Labels t ∪ Labels d).

(** A nil [net.IP] is the empty list. *)
Definition resolve_host (e : probe_env) (host : string) : option (list Z) :=
  match ParseIP host with
  | Some ip => Some ip
  | None =>
      match pe_LookupHost e host with
      | Some (a :: _) => Some (default [] (ParseIP a))
      | _ => None
      end
  end.

Definition probeTarget (e : probe_env) (t : TargetConfig) (idx : Z) (r : Resolver) (h : list (list Z))
  : probe_out :=
  match resolve_host e (t_Host t) with
  | None => mkProbeOut h r [] (inl DiscoveryReasonDNSFailed)
  | Some ip =>
      if negb (bool_decide (allowedNets = [])) && negb (IPInNets ip allowedNets)
      then mkProbeOut h r [] (inl DiscoveryReasonOutsideAllowList)
      else
        match WalkSystemWithCredentials Getenv pcfg r ip (t_Port t) (pe_now1 e) (pe_now2 e) (pe_trials e) h with
        | (h, r, inl err) =>
            let failed := [DiscoveryHardFailTotal "system" "system_group_walk_error";
                           CredentialTrialsTotal "failed"] in
            match err with
            | DeadlineExceeded =>
                mkProbeOut h r (failed ++ [SNMPWalksTotal "timeout" ReasonNA]) (inl DiscoveryReasonTimeout)
            | _ =>
                mkProbeOut h r (failed ++ [SNMPWalksTotal "error" "auth_failed"])
                  (inl DiscoveryReasonAuthFailed)
            end
        | (h, r, inr (dev, params, profileName)) =>
            let r := RecordSuccess (IP_String ip) profileName (pe_now3 e) r in
            let dev := decorate t dev in
            let ws := walkModules mods (pe_walkers e) ov (ID dev) ip true in
            let arp := if ARP_Enabled mods then default ∅ (pe_arp e) else ∅ in
            mkProbeOut (Zeroize params h).1 r
              ([CredentialTrialsTotal "ok"; SNMPWalksTotal "ok" ReasonNA] ++ ws_metrics ws)
              (inr (mkProbeResult idx (Some dev) (ws_edges ws) (ws_oos ws) (IP_String ip) (ws_status ws), arp))
        end
  end.
End ProbeTarget.

(** ** Lemmas *)

Lemma check_modules_ok c i seen ms :
  check_modules c i seen ms = inr tt →
  ∀ m, m ∈ ms → m ∈ scopableModules ∧ moduleGloballyEnabled c m = true.
Proof.
  revert seen. induction ms as [|m ms IH]; intros seen; cbn [check_modules]; [set_solver|].
  intros H m' Hm'. rewrite !guard_ok in H. destruct H as (H1 & H2 & H3 & H4). bprop.
  apply elem_of_cons in Hm' as [->|Hm']; [done|by eapply IH].
Qed.

Lemma check_overrides_ok `{NetText} IPNet_String c i seen os :
  check_overrides IPNet_String c i seen os = inr tt →
  ∀ o, o ∈ os → is_Some (ParseCIDR (o_CIDR o)) ∧ o_Modules o ≠ [] ∧
    ∀ m, m ∈ o_Modules o → m ∈ scopableModules ∧ moduleGloballyEnabled c m = true.
Proof.
  revert i seen. induction os as [|o os IH]; intros i seen; cbn [check_overrides]; [set_solver|].
  destruct (ParseCIDR (o_CIDR o)) as [n|] eqn:Hn; [|done].
  destruct (seen !! IPNet_String n); [done|]. rewrite guard_ok, bind_ok.
  intros (H1 & H2 & H3) o' [->|Ho]%elem_of_cons; [|by eapply IH]. bprop.
  rewrite Hn. split_and!; [done..|]. by eapply check_modules_ok.
Qed.

Lemma enabledModules_Proto c w : m_Proto <$> enabledModules c w = scopableModules.
Proof. done. Qed.

Lemma enabledModules_Enabled c w md :
  md ∈ enabledModules c w → m_Enabled md = moduleGloballyEnabled c (m_Proto md).
Proof.
  unfold enabledModules. rewrite !elem_of_cons. intros Hm.
  repeat (destruct Hm as [->|Hm]; [done|]). set_solver.
Qed.

(** The override that applies to an address. *)
Lemma ModulesForIP_spec `{NetText} os ip :
  match ModulesForIP (buildTargetOverrideResolver os) ip with
  | Some s => ∃ o n, o ∈ os ∧ ParseCIDR (o_CIDR o) = Some n ∧ Contains n ip = true ∧
      s = list_to_set (o_Modules o) ∧
      ∀ o' n', o' ∈ os → ParseCIDR (o_CIDR o') = Some n' → Contains n' ip = true →
        (mask_Size (n_Mask n')).1 ≤ (mask_Size (n_Mask n)).1
  | None => ∀ o n, o ∈ os → ParseCIDR (o_CIDR o) = Some n → Contains n ip = false
  end.
Proof.
  assert (∀ x, x ∈ omap parse_override os ↔ ∃ o n, o ∈ os ∧ ParseCIDR (o_CIDR o) = Some n ∧
    x = mkOverride n (mask_Size (n_Mask n)).1 (list_to_set (o_Modules o))) as Hin.
  { intros x. rewrite list_elem_of_omap. unfold parse_override. split.
    - intros (o & Ho & Hx). destruct (ParseCIDR (o_CIDR o)) as [n|] eqn:Hn; [|done].
      cbn in Hx. injection Hx as <-. by exists o, n.
    - intros (o & n & Ho & Hn & ->). exists o. rewrite Hn. done. }
  unfold ModulesForIP, buildTargetOverrideResolver. destruct os as [|o0 os0] eqn:Hos; [set_solver|].
  rewrite <-Hos in *. clear Hos. destruct (find_first _ _) as [x|] eqn:Hf; cbn.
  - apply first_match_longest in Hf as (Hc & (o & n & Ho & Hn & ->)%Hin & Hmax).
    exists o, n. split_and!; [done..|]. intros o' n' Ho' Hn' Hc'.
    apply (Hmax (mkOverride n' (mask_Size (n_Mask n')).1 (list_to_set (o_Modules o')))); [|done].
    apply Hin. eauto.
  - apply find_first_None in Hf. rewrite Forall_forall in Hf. intros o n Ho Hn.
    apply (Hf (mkOverride n (mask_Size (n_Mask n)).1 (list_to_set (o_Modules o)))), elem_of_sort_by, Hin.
    eauto.
Qed.

Section WalkFacts.
Context `{R : MapRange} (metrics : bool) (devID : string).

Definition walk_edges (md : Module) : list Edge :=
  match m_Walk md devID with inr (es, _) => es | inl _ => [] end.

Definition walk_oos (md : Module) : list OutOfScopeNeighbour :=
  match m_Walk md devID with inr (_, os) => set_Proto (m_Proto md) <$> os | inl _ => [] end.

(** 2 for a failed walk, 1 for a degraded one, 0 otherwise. *)
Definition walk_status (md : Module) : Z :=
  match m_Walk md devID with
  | inl _ => 2
  | inr (es, _) => if existsb (λ e, bool_decide (Metadata e !! MetadataKeyDegraded = Some "true")) es then 1 else 0
  end.

Lemma split_not_nil c s : strings_Split c s ≠ [].
Proof.
  induction s as [|b s IH]; cbn; [done|]. destruct (Ascii.eqb b c); [done|].
  by destruct (strings_Split c s).
Qed.

Lemma fold_set_keys {A} (l : list string) (v : A) (m : gmap string A) k :
  is_Some (fold_left (λ m r, <[r := v]> m) l m !! k) ↔ k ∈ l ∨ is_Some (m !! k).
Proof.
  revert m. induction l as [|r l IH]; intros m; cbn [fold_left]; [set_solver|].
  rewrite IH, lookup_insert_is_Some, elem_of_cons. destruct (decide (r = k)); naive_solver.
Qed.

Lemma CollectDegradedReasons_elem es r :
  r ∈ CollectDegradedReasons es ↔ r ∈ es ≫= edge_reasons.
Proof.
  unfold CollectDegradedReasons. split.
  - intros ([k v] & -> & Hk%elem_of_range)%list_elem_of_fmap.
    assert (is_Some (fold_left (λ m r, <[r := true]> m) (es ≫= edge_reasons) (∅ : gmap string bool) !! k))
      as [H|[? H]]%fold_set_keys by eauto; [done|]. by rewrite lookup_empty in H.
  - intros Hr. assert (is_Some (fold_left (λ m r, <[r := true]> m) (es ≫= edge_reasons)
      (∅ : gmap string bool) !! r)) as [v Hv] by (apply fold_set_keys; auto).
    apply list_elem_of_fmap. exists (r, v). split; [done|]. by apply elem_of_range.
Qed.

(** A walk is degraded when one of its edges says so, with or without a reason. *)
Lemma degraded_iff es :
  CollectDegradedReasons es = [] ↔
  existsb (λ e, bool_decide (Metadata e !! MetadataKeyDegraded = Some "true")) es = false.
Proof.
  split.
  - intros Hnil. apply not_true_iff_false. intros (e & He & Hd)%existsb_elem.
    assert (∃ r, r ∈ edge_reasons e) as [r Hr].
    { unfold edge_reasons. rewrite Hd. destruct (strings_Split _ _) as [|x l] eqn:Hs;
        [by apply split_not_nil in Hs|]. eexists. apply list_elem_of_here. }
    assert (r ∈ CollectDegradedReasons es) as Hin
      by (apply CollectDegradedReasons_elem, list_elem_of_bind; eauto).
    rewrite Hnil in Hin. set_solver.
  - intros Hno. destruct (CollectDegradedReasons es) as [|r l] eqn:Hc; [done|].
    assert (r ∈ CollectDegradedReasons es) as Hr by (rewrite Hc; apply list_elem_of_here).
    apply CollectDegradedReasons_elem, list_elem_of_bind in Hr as (e & Hr & He).
    exfalso. apply not_true_iff_false in Hno. apply Hno, existsb_elem. exists e. split; [done|].
    unfold edge_reasons in Hr. destruct (bool_decide _); [done|set_solver].
Qed.

Lemma walk_loop allowed mods :
  NoDup (m_Proto <$> mods) →
  let st := fold_left (λ st md, if module_runs allowed md then walk_module metrics devID st md else st)
              mods (mkWalkState [] [] ∅ []) in
  let running := filter (λ md, module_runs allowed md = true) mods in
  ws_edges st = running ≫= walk_edges ∧ ws_oos st = running ≫= walk_oos ∧
  ws_status st = list_to_map ((λ md, (m_Proto md, walk_status md)) <$> running).
Proof.
  intros Hnd. cbv zeta. induction mods as [|md mods IH] using rev_ind; [done|].
  rewrite fmap_app in Hnd. apply NoDup_app in Hnd as (Hnd & Hnew & _). specialize (IH Hnd).
  rewrite fold_left_app, filter_app, filter_cons. cbn [fold_left].
  set (st := fold_left _ mods _) in *. set (running := filter _ mods) in *.
  destruct IH as (He & Ho & Hs). destruct (module_runs allowed md) eqn:Hrun;
    [rewrite decide_True by done|rewrite decide_False by done; by rewrite filter_nil, app_nil_r].
  rewrite filter_nil, !bind_app, fmap_app. cbn [fmap list_fmap mbind list_bind]. rewrite !app_nil_r.
  assert (m_Proto md ∉ ((λ md, (m_Proto md, walk_status md)) <$> running).*1) as Hfresh.
  { rewrite <-list_fmap_compose. intros (md' & Hp & [_ Hin]%list_elem_of_filter)%list_elem_of_fmap.
    cbn in Hp. apply (Hnew (m_Proto md)); [rewrite Hp; apply list_elem_of_fmap; eauto|set_solver]. }
  rewrite list_to_map_app, <-Hs. cbn [list_to_map foldr].
  assert (ws_status st !! m_Proto md = None) as Hnone by (rewrite Hs; by apply not_elem_of_list_to_map).
  assert (∀ v : Z, ws_status st ∪ <[m_Proto md := v]> ∅ = <[m_Proto md := v]> (ws_status st)) as Hu.
  { intros v. rewrite <-insert_union_r by done. by rewrite map_union_empty. }
  unfold walk_module, walk_edges, walk_oos, walk_status, status_once. rewrite Hu, Hnone.
  destruct (m_Walk md devID) as [e|[es os]]; cbn [ws_edges ws_oos ws_status].
  - rewrite !app_nil_r. done.
  - rewrite He, Ho. split; [done|]. split; [done|]. do 2 f_equal.
    destruct (existsb _ es) eqn:Hd; [rewrite bool_decide_eq_false_2|rewrite bool_decide_eq_true_2]; try done.
    + intros Hc%degraded_iff. congruence.
    + by apply degraded_iff.
Qed.
End WalkFacts.

(** ** Properties *)

(** Per-target module scoping. With a validated configuration, an address no
    override matches is walked by all globally enabled modules; otherwise by exactly
    the modules of an override whose network contains it and has the longest prefix
    of those that do, which is not empty: an override narrows the set and never
    widens it. *)
Theorem override_scope `{NetText} IPNet_String c os ov w ip :
  validateTargetOverrides IPNet_String c os = inr ov →
  let running := filter (λ md, module_runs (ModulesForIP ov ip) md = true) (enabledModules c w) in
  (∀ md, md ∈ running → m_Enabled md = true) ∧
  match ModulesForIP ov ip with
  | None => (∀ o n, o ∈ os → ParseCIDR (o_CIDR o) = Some n → Contains n ip = false) ∧
      ∀ m, m ∈ m_Proto <$> running ↔ m ∈ scopableModules ∧ moduleGloballyEnabled c m = true
  | Some s => ∃ o n, o ∈ os ∧ ParseCIDR (o_CIDR o) = Some n ∧ Contains n ip = true ∧
      (∀ o' n', o' ∈ os → ParseCIDR (o_CIDR o') = Some n' → Contains n' ip = true →
        (mask_Size (n_Mask n')).1 ≤ (mask_Size (n_Mask n)).1) ∧
      o_Modules o ≠ [] ∧ ∀ m, m ∈ m_Proto <$> running ↔ m ∈ o_Modules o
  end.
Proof.
  intros Hv running.
  assert (ov = buildTargetOverrideResolver os ∧ (∀ o, o ∈ os → o_Modules o ≠ [] ∧
    ∀ m, m ∈ o_Modules o → m ∈ scopableModules ∧ moduleGloballyEnabled c m = true)) as [Hov Hok].
  { unfold validateTargetOverrides in Hv. destruct os as [|o0 os0]; [injection Hv as <-; set_solver|].
    destruct (check_overrides _ _ _ _ _) as [|[]] eqn:Hc; [done|]. injection Hv as <-.
    split; [done|]. intros o Ho. by eapply check_overrides_ok in Ho as (_ & ? & ?). }
  assert (∀ m, m ∈ m_Proto <$> running ↔ m ∈ scopableModules ∧ moduleGloballyEnabled c m = true ∧
    match ModulesForIP ov ip with Some s => m ∈ s | None => True end) as Hrun.
  { intros m. rewrite list_elem_of_fmap. split.
    - intros (md & -> & [Hr Hin]%list_elem_of_filter). unfold module_runs in Hr. bprop. split; [rewrite <-(enabledModules_Proto c w); apply list_elem_of_fmap; eauto|].
      rewrite <-(enabledModules_Enabled c w) by done. split; [done|]. destruct (ModulesForIP ov ip); by bprop.
    - intros (Hm & He & Hs). rewrite <-(enabledModules_Proto c w) in Hm.
      apply list_elem_of_fmap in Hm as (md & -> & Hin). exists md. split; [done|].
      apply list_elem_of_filter. split; [|done]. unfold module_runs.
      rewrite (enabledModules_Enabled c w md Hin), He. cbn. destruct (ModulesForIP ov ip); [|done].
      by apply bool_decide_eq_true. }
  split. { intros md [Hr _]%list_elem_of_filter. unfold module_runs in Hr. by bprop. }
  pose proof (ModulesForIP_spec os ip) as Hspec. rewrite <-Hov in Hspec.
  destruct (ModulesForIP ov ip) as [s|]; [|split; [done|naive_solver]].
  destruct Hspec as (o & n & Ho & Hn & Hc & -> & Hmax). exists o, n.
  destruct (Hok o Ho) as [Hne Hall]. split_and!; [done..|]. intros m. rewrite Hrun, elem_of_list_to_set.
  naive_solver.
Qed.

(** The report of a device walk. The edges and out-of-scope neighbours are those
    of the modules that ran and succeeded, in module order, each neighbour tagged
    with its protocol; a failed module contributes nothing and does not stop the
    others. The status of a module is 2 when its walk failed, 1 when one of its edges
    is marked degraded, else 0, and a module that did not run has none. *)
Theorem walk_modules_report `{MapRange} c w ov devID ip metrics :
  let st := walkModules c w ov devID ip metrics in
  let running := filter (λ md, module_runs (ModulesForIP ov ip) md = true) (enabledModules c w) in
  ws_edges st = running ≫= walk_edges devID ∧
  ws_oos st = running ≫= walk_oos devID ∧
  ws_status st = list_to_map ((λ md, (m_Proto md, walk_status devID md)) <$> running).
Proof.
  apply walk_loop. rewrite enabledModules_Proto. apply (bool_decide_unpack _). vm_compute. exact I.
Qed.

(** LLDP and BGP enabled; BGP only where the override of 10.1.0.0/16 says so. *)
Definition sample_modules : ModulesConfig := mkModules true false false false true false false false.

Definition silent_walker (_ : string) : walk_error + (list Edge * list OutOfScopeNeighbour) := inr ([], []).

Definition silent_walkers : Walkers :=
  mkWalkers silent_walker silent_walker silent_walker silent_walker silent_walker silent_walker silent_walker.

Definition sample_overrides : list TargetOverride :=
  [mkTargetOverride "10.0.0.0/8" ["lldp"]; mkTargetOverride "10.1.0.0/16" ["bgp"]].

Lemma override_scope_witness :
  let ov := @buildTargetOverrideResolver sample_net sample_overrides in
  @validateTargetOverrides sample_net (λ n, if bool_decide (n_Mask n = [255; 0; 0; 0]) then "a" else "b")
    sample_modules sample_overrides = inr ov ∧
  (∃ s, ModulesForIP ov [10; 1; 2; 3] = Some s) ∧
  m_Proto <$> filter (λ md, module_runs (ModulesForIP ov [10; 1; 2; 3]) md = true)
    (enabledModules sample_modules silent_walkers) = ["bgp"].
Proof.
  intros ov.
  assert (@validateTargetOverrides sample_net (λ n, if bool_decide (n_Mask n = [255; 0; 0; 0]) then "a" else "b")
    sample_modules sample_overrides = inr ov) as Hv by (vm_compute; reflexivity).
  split; [exact Hv|].
  pose proof (@override_scope sample_net _ _ _ _ silent_walkers [10; 1; 2; 3] Hv) as [_ _].
  split; [eexists; vm_compute; reflexivity|vm_compute; reflexivity].
Defined.
