(* ===== verification/Reasons.v ===== *)
(** * internal/metrics: the closed label values

    The Valid methods of sub_reason.go and snapshot_drop_reason.go.  The comments ask
    that no other string reaches a label; for the counters of a probe this is proved
    here. *)

From Stdlib Require Import ZArith Lia.
From S2P Require Import Prelude GoText Discovery Pdu Walker Credentials Synthesize Probe DeviceWalk.
Open Scope Z_scope.

Definition DiscoveryFailReason_Valid (r : string) : bool :=
  bool_decide (r ∈ [ReasonNA; "unreachable"; DiscoveryReasonAuthFailed; DiscoveryReasonTimeout; "snmp_error"; "mib_unsupported";
                    DiscoveryReasonDNSFailed; DiscoveryReasonOutsideAllowList; "no_credentials"; DiscoveryReasonBudgetExpired;
                    DiscoveryReasonPanic]).

Definition WalkReason_Valid (r : string) : bool :=
  bool_decide (r ∈ [ReasonNA; "unreachable"; "auth_failed"; "snmp_error"; "mib_unsupported"; "decode_error"; "module_error"]).

Definition SnapshotDropReason_Valid (r : string) : bool := bool_decide (r ∈ ["queue_full"; "write_in_flight"]).

(** ** Lemmas *)

(** The rows of the two counters with closed labels; a walk that succeeded or timed out
    has no reason beside its status. *)
Definition labels_closed (m : walk_metric) : Prop :=
  match m with
  | SNMPWalksTotal status reason =>
      (status ∈ ["ok"; "timeout"] ∧ reason = ReasonNA) ∨
      (status = "error" ∧ WalkReason_Valid reason = true ∧ reason ≠ ReasonNA)
  | CredentialTrialsTotal status => status ∈ ["ok"; "failed"]
  | _ => True
  end.

Section Labels.
Context `{R : MapRange}.

Lemma walk_module_labels metrics devID st md :
  Forall labels_closed (ws_metrics st) → Forall labels_closed (ws_metrics (walk_module metrics devID st md)).
Proof.
  intros Hst. unfold walk_module.
  destruct (m_Walk md devID) as [e|[es os]]; cbn [ws_metrics]; apply Forall_app; (split; [done|]); (destruct metrics; [|apply Forall_nil_2]).
  - unfold module_failed. apply Forall_cons. split; [done|]. apply Forall_singleton.
    destruct (we_deadline e); cbn; [left; set_solver|right]. split_and!; done.
  - apply Forall_cons. split; [left; set_solver|]. by apply Forall_fmap, Forall_forall.
Qed.

Lemma walkModules_labels c w ov devID ip metrics : Forall labels_closed (ws_metrics (walkModules c w ov devID ip metrics)).
Proof.
  unfold walkModules. set (mds := enabledModules c w). clearbody mds.
  assert (∀ st, Forall labels_closed (ws_metrics st) →
    Forall labels_closed (ws_metrics (fold_left (λ st md, if module_runs (ModulesForIP ov ip) md then walk_module metrics devID st md else st) mds st)))
    as H; [|apply H; constructor].
  induction mds as [|md mds IH]; intros st Hst; [done|]. cbn [fold_left]. apply IH. destruct (module_runs _ md); [|done].
  by apply walk_module_labels.
Qed.
End Labels.

(** ** Properties *)

(** no free-form string reaches the labels of a probe.  Whatever DNS, the device, the
    limiter and the walkers do, a probe that fails names a declared reason, and every walk
    it counts is ok or a timeout without a reason, or an error with a declared one. *)
Theorem probe_labels_closed (Getenv : string → string) `{R : MapRange} `{N : NetText} pcfg mods ov nets e t idx r h :
  let out := probeTarget Getenv pcfg mods ov nets e t idx r h in
  (∀ reason, pr_result out = inl reason → DiscoveryFailReason_Valid reason = true ∧ reason ≠ ReasonNA) ∧
  Forall labels_closed (pr_metrics out).
Proof.
  unfold probeTarget. destruct (resolve_host e (t_Host t)) as [ip|]; [|split; [by intros ? [= <-]|constructor]].
  destruct (_ && _); [split; [by intros ? [= <-]|constructor]|].
  destruct (WalkSystemWithCredentials _ _ _ _ _ _ _ _ _) as [[h' r'] [err|[[dev params] name]]].
  - destruct err; cbn; (split; [by intros ? [= <-]|]);
      repeat (apply Forall_cons; split); try done; cbn; try set_solver; first [by left; set_solver|by right].
  - cbn. split; [done|]. apply Forall_cons. split; [cbn; set_solver|]. apply Forall_cons.
    split; [left; set_solver|]. apply walkModules_labels.
Qed.
