(* ===== verification/Walkers.v ===== *)
(** * The seven walkers together

    The walkers of discovery/lldp, cdp, fdb, ospf, bgp, isis and mpls as the modules
    that app/device_walk.go runs, what they all promise about their observations, and
    what the hub makes of observations without a port. *)

From Stdlib Require Import ZArith Lia Ascii.
From S2P Require Import Prelude GoText Discovery Limits HubValidate GraphKeys Reconcile Pdu NetAddr Walker.
From S2P Require Import Ospf Cdp Lldp Transport Bgp Mpls Isis Fdb DeviceWalk.
Open Scope Z_scope.

(** What one device gives its walkers: a session or an error for each, the answer to
    sysObjectID, the per-VLAN sessions and the clocks. *)
Record device_env := mkDeviceEnv {
  dv_acquire : string → walk_error + session;
  dv_get : oid_get;
  dv_open : string → vlan_out;
  dv_bgp : bgp_params;
  dv_fdb : fdb_params;
  dv_now : string → time
}.

Section Walkers.
Context `{U : Unicode} `{N : NetText} `{R : MapRange}.

(** [enabledModules]: the Walk of each package, with its results and without the events
    it records. *)
Definition walkers_of (d : device_env) (nets : list IPNet) : Walkers :=
  mkWalkers
    (λ local, W_value (Lldp.lldp_Walk (dv_acquire d "lldp") local nets (dv_now d "lldp")))
    (λ local, W_value (Cdp.cdp_Walk (dv_acquire d "cdp") local nets (dv_now d "cdp")))
    (λ local, W_value (Fdb.fdb_Walk (dv_fdb d) (dv_acquire d "fdb") (dv_open d) local (dv_now d "fdb")))
    (λ local, W_value (Ospf.ospf_Walk (dv_acquire d "ospf") local nets (dv_now d "ospf")))
    (λ local, W_value (Bgp.bgp_Walk (dv_bgp d) (dv_acquire d "bgp") (dv_get d) local nets (dv_now d "bgp")))
    (λ local, W_value (Isis.isis_Walk (dv_acquire d "isis") local nets (dv_now d "isis")))
    (λ local, W_value (Mpls.mpls_Walk (dv_acquire d "mpls_te") local nets (dv_now d "mpls_te"))).

(** ** What every walker promises *)

Lemma lldp_walked acquired local nets now r :
  W_value (Lldp.lldp_Walk acquired local nets now) = inr r → walked lldp_form local now r.
Proof.
  destruct r as [es oos]. intros (s & lpdus & pdus & _ & _ & _ & -> & ->)%lldp_value.
  apply (collect_walked _ _ _ (_.*1)), Forall_forall.
  intros o (x & -> & (kr & -> & _)%list_elem_of_fmap)%list_elem_of_fmap. apply lldp_out_walked.
Qed.

Lemma cdp_walked acquired local nets now r :
  W_value (Cdp.cdp_Walk acquired local nets now) = inr r → walked cdp_form local now r.
Proof.
  destruct r as [es oos]. intros (s & pdus & names & _ & _ & _ & -> & ->)%cdp_value.
  apply (collect_walked _ _ _ (_.*1)), Forall_forall.
  intros o (x & -> & (kr & -> & _)%list_elem_of_fmap)%list_elem_of_fmap. apply cdp_out_walked.
Qed.

Lemma ospf_walked acquired local nets now r :
  W_value (Ospf.ospf_Walk acquired local nets now) = inr r → walked ospf_form local now r.
Proof.
  destruct r as [es oos]. intros (s & pdus & _ & _ & ->)%ospf_value.
  apply collect_walked, Forall_forall. intros o (kr & -> & _)%list_elem_of_fmap. apply ospf_out_walked.
Qed.

(** The form of the edges of each module. *)
Definition form_of (proto : string) : option edge_form :=
  if bool_decide (proto = "lldp") then Some lldp_form
  else if bool_decide (proto = "cdp") then Some cdp_form
  else if bool_decide (proto = "fdb") then Some fdb_form
  else if bool_decide (proto = "ospf") then Some ospf_form
  else if bool_decide (proto = "bgp") then Some bgp_form
  else if bool_decide (proto = "isis") then Some isis_form
  else if bool_decide (proto = "mpls_te") then Some mpls_form
  else None.

(** The promise of a module: its successful walks have its form. *)
Definition module_walked (d : device_env) (md : Module) : Prop :=
  ∃ f, form_of (m_Proto md) = Some f ∧ ef_proto f = m_Proto md ∧
    ∀ local r, m_Walk md local = inr r → walked f local (dv_now d (m_Proto md)) r.

Lemma modules_walked d nets c md : md ∈ enabledModules c (walkers_of d nets) → module_walked d md.
Proof.
  unfold enabledModules. intros Hin.
  repeat (apply elem_of_cons in Hin as [->|Hin]); [..|by apply elem_of_nil in Hin];
    eexists; (split; [reflexivity|]; split; [reflexivity|]); intros local r;
    [apply lldp_walked|apply cdp_walked|apply fdb_walked|apply ospf_walked|apply bgp_walked
    |apply isis_walked|apply mpls_walked].
Qed.

Lemma form_typed proto f :
  form_of proto = Some f →
  (ef_proto f, ef_rank f) ∈ [("lldp", 2); ("cdp", 3); ("fdb", 4); ("isis", 5); ("ospf", 6); ("bgp", 7); ("mpls_te", 8)] ∧
  ef_conf f ∈ [ConfidenceHigh; ConfidenceMedium; ConfidenceLow] ∧ ef_adj f ∈ [AdjacencyDirect; AdjacencyUnknown] ∧
  ef_kind f ∈ [LinkKindEthernet; LinkKindIP; LinkKindMPLSTE].
Proof.
  unfold form_of. intros Hf.
  repeat (destruct (bool_decide _) in Hf; [injection Hf as <-; split_and!; by apply (bool_decide_unpack _)|]). done.
Qed.

Lemma enabledModules_protos c w : m_Proto <$> enabledModules c w = ["lldp"; "cdp"; "fdb"; "ospf"; "bgp"; "isis"; "mpls_te"].
Proof. reflexivity. Qed.
End Walkers.

(** ** Observations without a port *)

Section Portless.
Context `{U : Unicode} `{N : NetText} `{R : MapRange}.

Lemma NormalizePortName_nil : NormalizePortName "" = "".
Proof. reflexivity. Qed.

(** Neither endpoint names a port. *)
Definition portless (e : Edge) : Prop := SrcPort e = "" ∧ DstPort e = "".

Lemma ospf_portless acquired local nets now es oos :
  W_value (Ospf.ospf_Walk acquired local nets now) = inr (es, oos) → Forall portless es.
Proof.
  intros (s & pdus & _ & _ & [= -> _])%ospf_value. apply Forall_forall. intros e He%elem_of_out_edges.
  apply list_elem_of_fmap in He as (kr & He & _). symmetry in He.
  by apply ospf_out_edge in He as (ip & _ & _ & _ & _ & ->).
Qed.

Lemma buildPeerEdges_portless local peers nets now : Forall portless (buildPeerEdges local peers nets now).1.
Proof.
  apply Forall_forall. intros e He%elem_of_out_edges. apply list_elem_of_fmap in He as (r & He & _). symmetry in He.
  by apply peer_out_edge in He as (ip & _ & _ & _ & _ & _ & ->).
Qed.

Lemma bgp_portless p acquired get local nets now es oos :
  W_value (Bgp.bgp_Walk p acquired get local nets now) = inr (es, oos) → Forall portless es.
Proof.
  destruct acquired as [err|s]; [done|]. rewrite bgp_Walk_value.
  assert (∀ r, @inr walk_error _ r = inr (es, oos) → Forall portless r.1 → Forall portless es) as Hr.
  { intros r [= ->]. done. }
  destruct (vendor_source p get s) as [[spec pdus]|]; [|destruct (s oidBgpPeerTable); [done|]];
    intros Hv; (eapply Hr; [exact Hv|]); apply buildPeerEdges_portless.
Qed.

(** A link whose observation names no port is reconciled to an edge without a source
    port, which the hub refuses. *)
Lemma portless_rejected edges e p :
  e ∈ edges → keyable e = true → portless e → (∀ x, x ∈ (Reconcile edges).1 → x ∈ sp_Edges p) →
  validateSpokePayload p ≠ inr tt.
Proof.
  intros He Hk [Hs Hd] Hall Hp.
  assert (observations (normalizedGroupKey e) edges ≠ []) as (x & Hx)%link_total.
  { intros Hnil. assert (e ∈ observations (normalizedGroupKey e) edges) as Hin by (by apply list_elem_of_filter).
    rewrite Hnil in Hin. by apply elem_of_nil in Hin. }
  destruct (link_Key _ _ _ Hx) as [Hkey Hends].
  assert (x ∈ (Reconcile edges).1) as Hin%Hall by (apply elem_of_Reconcile; by rewrite Hkey).
  apply validateSpokePayload_ok in Hp as [_ _ Hes _]. rewrite Forall_forall in Hes.
  destruct (Hes x Hin) as [(_ & Hport & _) _ _ _]. apply Hport.
  apply keyable_spec in Hk as (_ & _ & Hne). unfold ends in Hends.
  destruct (normalizedGroupKey_cases e Hne) as [[_ Hg]|[_ Hg]]; rewrite Hg in Hends;
    rewrite ?Hs, ?Hd, NormalizePortName_nil in Hends; by injection Hends.
Qed.
End Portless.

(** ** Properties *)

(** C17: the observations of a device are well typed. Whatever the SNMP agent answers, every
    edge that the module walks of a device yield comes from an enabled module, names the
    device as its source, is unidirectional, carries the protocol, the confidence, the
    adjacency, the link kind and the precedence rank of that module (LLDP 2, CDP 3, FDB
    4, IS-IS 5, OSPF 6, BGP 7, MPLS-TE 8), and every out-of-scope neighbour is reported
    by the device under the protocol of an enabled module. *)
Theorem walk_results_typed `{Unicode} `{NetText} `{MapRange} (c : ModulesConfig) (d : device_env)
    (nets : list IPNet) (ov : option (list targetOverride)) (devID : string) (ip : list Z) (metrics : bool) :
  let st := walkModules c (walkers_of d nets) ov devID ip metrics in
  (∀ e, e ∈ ws_edges st → ∃ md f, md ∈ enabledModules c (walkers_of d nets) ∧ m_Enabled md = true ∧
     form_of (m_Proto md) = Some f ∧ walked_edge f devID (dv_now d (m_Proto md)) e ∧
     (DiscoveryProto e, PrecedenceRank e) ∈
       [("lldp", 2); ("cdp", 3); ("fdb", 4); ("isis", 5); ("ospf", 6); ("bgp", 7); ("mpls_te", 8)] ∧
     Confidence e ∈ [ConfidenceHigh; ConfidenceMedium; ConfidenceLow] ∧
     Adjacency e ∈ [AdjacencyDirect; AdjacencyUnknown] ∧
     LinkKind e ∈ [LinkKindEthernet; LinkKindIP; LinkKindMPLSTE]) ∧
  (∀ n, n ∈ ws_oos st → ReportingDevice n = devID ∧
     ∃ md, md ∈ enabledModules c (walkers_of d nets) ∧ m_Enabled md = true ∧ Proto n = m_Proto md).
Proof.
  cbv zeta. unfold walkModules. set (mods := enabledModules c (walkers_of d nets)).
  destruct (walk_loop metrics devID (ModulesForIP ov ip) mods) as (-> & -> & _).
  { unfold mods. rewrite enabledModules_protos. by apply (bool_decide_unpack _). }
  assert (∀ md, md ∈ filter (λ md, module_runs (ModulesForIP ov ip) md = true) mods →
    md ∈ mods ∧ m_Enabled md = true ∧ module_walked d md) as Hrun.
  { intros md [Hr Hin]%list_elem_of_filter. unfold module_runs in Hr. bprop. split; [done|]. split; [done|].
    by eapply modules_walked. }
  split.
  - intros e (md & He & (Hin & Hen & f & Hf & Hp & Hw)%Hrun)%list_elem_of_bind. exists md, f.
    split; [done|]. split; [done|]. split; [done|]. unfold walk_edges in He.
    destruct (m_Walk md devID) as [|[es os]] eqn:Hm; [by apply elem_of_nil in He|].
    destruct (Hw _ _ Hm) as [Hes _]. rewrite Forall_forall in Hes. pose proof (Hes e He) as Hwe. split; [done|].
    apply form_typed in Hf as (Ht1 & Ht2 & Ht3 & Ht4). destruct Hwe as [_ -> _ -> -> -> -> _]. by auto.
  - intros n (md & Hn & (Hin & Hen & f & Hf & Hp & Hw)%Hrun)%list_elem_of_bind. unfold walk_oos in Hn.
    destruct (m_Walk md devID) as [|[es os]] eqn:Hm; [by apply elem_of_nil in Hn|].
    destruct (Hw _ _ Hm) as [_ Hos]. rewrite Forall_forall in Hos.
    apply list_elem_of_fmap in Hn as (n' & -> & Hn'). destruct (Hos n' Hn') as [Hsrc _ _ _].
    split; [done|]. exists md. by split.
Qed.

(** one OSPF or BGP adjacency stops the pushes of a spoke. Edges of these two walkers
    name no port, and the hub requires a source port: as long as a walk sees an
    adjacency to a device of another name, no payload that carries the reconciled links
    passes the hub's validation, whatever else was observed. *)
Theorem l3_adjacency_blocks_push `{Unicode} `{NetText} `{MapRange} (d : device_env) (nets : list IPNet)
    (local : string) (es : list Edge) (oos : list OutOfScopeNeighbour) (e : Edge) (edges : list Edge)
    (p : SpokePayload) :
  DeviceWalk.ospf_Walk (walkers_of d nets) local = inr (es, oos) ∨
  DeviceWalk.bgp_Walk (walkers_of d nets) local = inr (es, oos) →
  e ∈ es → (∀ x, x ∈ es → x ∈ edges) → local ≠ "" → DstDevice e ≠ "" → DstDevice e ≠ local →
  (∀ x, x ∈ (Reconcile edges).1 → x ∈ sp_Edges p) →
  validateSpokePayload p ≠ inr tt.
Proof.
  intros Hw He Hsub Hl Hd Hne Hall.
  assert (portless e ∧ SrcDevice e = local) as [Hp Hsrc].
  { destruct Hw as [Hw|Hw]; cbn [walkers_of DeviceWalk.ospf_Walk DeviceWalk.bgp_Walk] in Hw.
    - pose proof (ospf_portless _ _ _ _ _ _ Hw) as Hp. apply ospf_walked in Hw as [Hw _].
      rewrite Forall_forall in Hp, Hw. split; [by apply Hp|]. apply (Hw e He).
    - pose proof (bgp_portless _ _ _ _ _ _ _ _ Hw) as Hp. apply bgp_walked in Hw as [Hw _].
      rewrite Forall_forall in Hp, Hw. split; [by apply Hp|]. apply (Hw e He). }
  eapply portless_rejected; [by apply Hsub| |done|done]. apply keyable_spec. by rewrite Hsrc.
Qed.

(** ** Witness *)

Definition ospf_device : device_env :=
  mkDeviceEnv (λ _, inr sample_ospf) None (λ _, VlanOpenFailed) cisco_params
    (mkFdbParams [10; 0; 0; 1] false "public" 0 true) (λ _, 7).

Definition ospf_edges : list Edge := [ospf_edge (N := go_net) "r1" [10; 0; 0; 2] 7].

Definition ospf_payload : SpokePayload :=
  mkSpokePayload "dc1" 7 [] (Reconcile (U := unicode_table) (MR := range_std) ospf_edges).1 [].

Lemma l3_adjacency_blocks_push_witness : validateSpokePayload (MR := range_std) ospf_payload ≠ inr tt.
Proof.
  apply (l3_adjacency_blocks_push (H := unicode_table) (H0 := go_net) (H1 := range_std) ospf_device [] "r1" ospf_edges []
    (ospf_edge (N := go_net) "r1" [10; 0; 0; 2] 7) ospf_edges ospf_payload).
  - left. vm_compute. reflexivity.
  - apply list_elem_of_here.
  - intros x Hx. exact Hx.
  - discriminate.
  - vm_compute. discriminate.
  - vm_compute. discriminate.
  - intros x Hx. exact Hx.
Defined.
