(* ===== verification/Config.v ===== *)
(** * internal/config: defaults and validation

    types.go, enums.go, defaults.go, validate.go and the part of config.go after the
    YAML decoder.  A configuration is the decoded struct; the file system and url.Parse
    are arguments.  An error is the field it is about. *)

From Stdlib Require Import ZArith Lia Ascii SpecFloat.
From S2P Require Import Prelude GoText Discovery HubMerge Pdu NetAddr Credentials Probe Transport DeviceWalk.
Open Scope Z_scope.

(** ** float64 *)

(** 0.8, 0.1, 1 and 0 in binary64. *)
Definition float_0_8 : spec_float := S754_finite false 7205759403792794 (-53).
Definition float_0_1 : spec_float := S754_finite false 7205759403792794 (-56).
Definition float_1 : spec_float := S754_finite false 4503599627370496 (-52).
Definition float_0 : spec_float := S754_zero false.

(** ** Types (types.go, enums.go) *)

Record ListenConfig := mkListen { l_Addr : string; l_WebConfigFile : string; l_DebugListenAddr : string }.

Record SessionPoolConfig := mkPoolConfig { spc_Enabled : bool; spc_MaxIdle : duration }.

Record DiscoveryConfig := mkDiscovery {
  d_Interval : duration;
  d_TimeoutPerDevice : duration;
  d_Parallelism : Z;
  d_CIDRAllowList : list string;
  d_UnconfirmedLinkTTLCycles : Z;
  d_CycleBudgetFraction : spec_float;
  d_TimeoutPerModule : duration;
  d_MaxGraphDevices : Z;
  d_MaxGraphEdges : Z;
  d_PerTargetPDURatePerSecond : Z;
  d_TargetOverrides : list TargetOverride;
  d_SessionPool : SessionPoolConfig;
  d_LivenessMaxStaleCycles : option Z
}.

Definition LivenessMaxStaleCyclesValue (d : DiscoveryConfig) : Z := default 0 (d_LivenessMaxStaleCycles d).

(** The toggles are [DeviceWalk.ModulesConfig]; these are the other fields of modules. *)
Record ModuleOptions := mkModuleOptions {
  mo_toggles : ModulesConfig;
  mo_SNMPEnabled : bool;
  mo_SNMPVersion : string;
  mo_CommunityEnv : string;
  mo_MaxVlans : Z;
  mo_DisableV2MIB : bool
}.

Record HubHAConfig := mkHA {
  ha_Enabled : bool;
  ha_LeaseName : string;
  ha_LeaseNamespace : string;
  ha_LeaseDuration : duration;
  ha_RenewDeadline : duration;
  ha_RetryPeriod : duration;
  ha_SnapshotShared : bool
}.

Record FederationHubConfig := mkHubConfig {
  h_ListenAddr : string;
  h_TLSCACert : string;
  h_TLSCert : string;
  h_TLSKey : string;
  h_MaxGraphEdges : Z;
  h_MaxGraphDevices : Z;
  h_LooseDeviceNameMatching : bool;
  h_MinPushInterval : duration;
  h_HA : HubHAConfig
}.

Record FederationSpokeConfig := mkSpokeConfig {
  s_SpokeID : string;
  s_HubURL : string;
  s_TLSCACert : string;
  s_TLSCert : string;
  s_TLSKey : string;
  s_Compression : string
}.

Record FederationSettings := mkFederation {
  f_Role : string;
  f_SpokeTimeout : duration;
  f_KnownInterDomainLinks : list InterDomainLink;
  f_Hub : FederationHubConfig;
  f_Spoke : FederationSpokeConfig
}.

Record OutputConfig := mkOutput {
  o_Enabled : bool;
  o_Endpoint : string;
  o_Timeout : duration;
  o_HeartbeatCycles : Z;
  o_Protocol : string;
  o_TracesEnabled : bool;
  o_SampleRate : option spec_float;
  o_YANGEnabled : bool;
  o_NetworkID : string
}.

Record Config := mkConfig {
  c_Listen : ListenConfig;
  c_Discovery : DiscoveryConfig;
  c_Modules : ModuleOptions;
  c_Credentials : CredentialsConfig;
  c_SnapshotPath : string;
  c_Federation : FederationSettings;
  c_Output : OutputConfig;
  c_Targets : list TargetConfig
}.

Definition RoleStandalone : string := "standalone".
Definition RoleUncoordinated : string := "uncoordinated".
Definition RoleSpoke : string := "spoke".
Definition RoleHub : string := "hub".
Definition OTLPProtocolHTTP : string := "http".
Definition OTLPProtocolGRPC : string := "grpc".
Definition SNMPVersionV2c : string := "v2c".
Definition SNMPVersionV3 : string := "v3".

(** ** Defaults (defaults.go) *)

Definition or_Z (d z : Z) : Z := if z =? 0 then d else z.
Definition or_string (d s : string) : string := if bool_decide (s = "") then d else s.

Definition discovery_defaults (d : DiscoveryConfig) : DiscoveryConfig :=
  let interval := or_Z (60 * Second) (d_Interval d) in
  mkDiscovery interval (or_Z (10 * Second) (d_TimeoutPerDevice d)) (or_Z 32 (d_Parallelism d))
    (d_CIDRAllowList d) (or_Z 3 (d_UnconfirmedLinkTTLCycles d))
    (if SFeqb (d_CycleBudgetFraction d) float_0 then float_0_8 else d_CycleBudgetFraction d)
    (d_TimeoutPerModule d) (d_MaxGraphDevices d) (d_MaxGraphEdges d) (d_PerTargetPDURatePerSecond d)
    (d_TargetOverrides d)
    (mkPoolConfig (spc_Enabled (d_SessionPool d)) (or_Z (wrap64 (5 * interval)) (spc_MaxIdle (d_SessionPool d))))
    (match d_LivenessMaxStaleCycles d with None => Some 3 | Some n => Some n end).

Definition profile_defaults (p : CredentialProfile) : CredentialProfile :=
  mkProfile (p_Name p) (p_Type p) (p_CommunityEnv p) (p_UsernameEnv p) (p_AuthProtocol p) (p_AuthKeyEnv p)
    (p_PrivProtocol p) (p_PrivKeyEnv p) (or_Z 1 (p_Retries p)) (p_ContextName p).

Definition ha_defaults (h : HubHAConfig) : HubHAConfig :=
  if ha_Enabled h then
    mkHA true (or_string "topology-exporter-hub" (ha_LeaseName h)) (ha_LeaseNamespace h)
      (or_Z (15 * Second) (ha_LeaseDuration h)) (or_Z (10 * Second) (ha_RenewDeadline h))
      (or_Z (2 * Second) (ha_RetryPeriod h)) (ha_SnapshotShared h)
  else h.

Definition federation_defaults (interval : duration) (f : FederationSettings) : FederationSettings :=
  let h := f_Hub f in
  let s := f_Spoke f in
  mkFederation (or_string RoleStandalone (f_Role f)) (or_Z (wrap64 (3 * interval)) (f_SpokeTimeout f))
    (f_KnownInterDomainLinks f)
    (mkHubConfig (or_string ":9101" (h_ListenAddr h)) (h_TLSCACert h) (h_TLSCert h) (h_TLSKey h)
       (h_MaxGraphEdges h) (h_MaxGraphDevices h) (h_LooseDeviceNameMatching h) (h_MinPushInterval h)
       (ha_defaults (h_HA h)))
    (mkSpokeConfig (s_SpokeID s) (s_HubURL s) (s_TLSCACert s) (s_TLSCert s) (s_TLSKey s)
       (or_string "gzip" (s_Compression s))).

Definition output_defaults (o : OutputConfig) : OutputConfig :=
  mkOutput (o_Enabled o) (o_Endpoint o) (or_Z (10 * Second) (o_Timeout o)) (or_Z 10 (o_HeartbeatCycles o))
    (or_string OTLPProtocolHTTP (o_Protocol o)) (o_TracesEnabled o)
    (match o_SampleRate o with None => Some float_0_1 | Some r => Some r end) (o_YANGEnabled o)
    (or_string "network-topology-exporter" (o_NetworkID o)).

Definition applyDefaults (c : Config) : Config :=
  let l := c_Listen c in
  let d := discovery_defaults (c_Discovery c) in
  let m := c_Modules c in
  let cr := c_Credentials c in
  mkConfig (mkListen (or_string ":9100" (l_Addr l)) (l_WebConfigFile l) (l_DebugListenAddr l)) d
    (mkModuleOptions (mo_toggles m) (mo_SNMPEnabled m) (or_string SNMPVersionV2c (mo_SNMPVersion m))
       (mo_CommunityEnv m) (or_Z 100 (mo_MaxVlans m)) (mo_DisableV2MIB m))
    (mkCredentialsConfig (profile_defaults <$> Profiles cr) (Assignments cr) (FallbackOrder cr)
       (or_Z 5 (TrialRatePerSecond cr)))
    (or_string "/var/lib/network-topology-exporter/snapshot.json" (c_SnapshotPath c))
    (federation_defaults (d_Interval d) (c_Federation c)) (output_defaults (c_Output c))
    ((λ t, mkTarget (t_Host t) (or_Z 161 (t_Port t)) (t_Site t) (t_Labels t)) <$> c_Targets c).

(** ** Validation (validate.go) *)

(** The simple upper-case mapping of the Unicode tables for runes past ASCII, and the
    scheme and host that url.Parse finds. *)
Class ConfigEnv := {
  unicode_upper : rune → rune;
  url_Parse : string → option (string * string);
  os_Stat : string → bool;
  IPNet_String : IPNet → string
}.

#[local] Notation check := (string + unit)%type.

Section Validate.
Context `{E : ConfigEnv} `{N : NetText} `{R : MapRange}.

Definition unicode_ToUpper (r : rune) : rune :=
  if r <? 128 then (if in_range 97 122 r then r - 32 else r) else unicode_upper r.

Definition ToUpper (s : string) : string := strings_Map (λ r, Some (unicode_ToUpper r)) s.

Definition validateListen (l : ListenConfig) : check :=
  guard negb (bool_decide (l_WebConfigFile l = "")) && negb (os_Stat (l_WebConfigFile l))
    else "listen.web_config_file";
  inr tt.

Definition validate_endpoint (schemes : list string) (endpoint : string) : check :=
  guard bool_decide (endpoint = "") else "endpoint is required";
  match url_Parse endpoint with
  | None => inl "invalid URL"
  | Some (scheme, host) =>
      guard negb (bool_decide (scheme ∈ schemes)) else "scheme";
      guard bool_decide (host = "") else "host is required";
      inr tt
  end.

Definition validateHTTPEndpoint : string → check := validate_endpoint ["http"; "https"].
Definition validateHTTPSEndpoint : string → check := validate_endpoint ["https"].

Definition cidrContainsAny (nets : list IPNet) (ip : list Z) : bool := existsb (λ n, Contains n ip) nets.

Definition validateScope (allow : list string) (targets : list TargetConfig) : check :=
  if bool_decide (targets = []) then inr tt
  else
    guard bool_decide (allow = []) else "discovery.scope.cidr_allow_list";
    match ParseCIDRsStrict allow with
    | inl _ => inl "discovery.scope.cidr_allow_list"
    | inr nets =>
        check_all (λ t, match ParseIP (t_Host t) with
                        | None => inr tt
                        | Some ip => if cidrContainsAny nets ip then inr tt else inl "target"
                        end) targets
    end.

Definition normalizeAuthProtocol (raw : string) : string + string :=
  let v := ToUpper (TrimSpace raw) in
  if bool_decide (v = "") then inr ""
  else if bool_decide (v ∈ ["SHA"; "SHA-256"; "SHA-384"; "SHA-512"]) then inr v
  else inl "auth_protocol".

Definition normalizePrivProtocol (raw : string) : string + string :=
  let v := ToUpper (TrimSpace raw) in
  if bool_decide (v = "") then inr ""
  else if bool_decide (v ∈ ["AES"; "AES-192"; "AES-256"]) then inr v
  else inl "priv_protocol".

(** The body of the loop over the profiles: the profile with its protocols normalised. *)
Definition validate_profile (p : CredentialProfile) : string + CredentialProfile :=
  guard p_Retries p <? 0 else "retries";
  if bool_decide (p_Type p = ProfileTypeSNMPv2c) then
    guard bool_decide (p_CommunityEnv p = "") else "community_env";
    inr p
  else if bool_decide (p_Type p = ProfileTypeSNMPv3) then
    guard bool_decide (p_UsernameEnv p = "") else "username_env";
    do authProto <- normalizeAuthProtocol (p_AuthProtocol p);
    do privProto <- normalizePrivProtocol (p_PrivProtocol p);
    guard negb (bool_decide (authProto = "")) && bool_decide (p_AuthKeyEnv p = "") else "auth_key_env";
    guard negb (bool_decide (privProto = "")) && bool_decide (p_PrivKeyEnv p = "") else "priv_key_env";
    inr (mkProfile (p_Name p) (p_Type p) (p_CommunityEnv p) (p_UsernameEnv p) authProto (p_AuthKeyEnv p)
           privProto (p_PrivKeyEnv p) (p_Retries p) (p_ContextName p))
  else inl "type".

Fixpoint validate_profiles (known : gset string) (ps : list CredentialProfile)
  : string + (gset string * list CredentialProfile) :=
  match ps with
  | [] => inr (known, [])
  | p :: ps' =>
      guard bool_decide (p_Name p = "") else "credentials.profiles[].name";
      guard bool_decide (p_Name p ∈ known) else "credentials.profiles: duplicate name";
      do p' <- validate_profile p;
      do r <- validate_profiles ({[ p_Name p ]} ∪ known) ps';
      inr (r.1, p' :: r.2)
  end.

Definition validate_assignment (known : gset string) (a : CredentialAssignment) : check :=
  guard bool_decide (a_IP a = "") && bool_decide (a_CIDR a = "") else "credentials.assignments[]";
  guard negb (bool_decide (a_IP a = "")) && negb (bool_decide (a_CIDR a = "")) else "credentials.assignments[]";
  guard negb (bool_decide (a_IP a = "")) && bool_decide (ParseIP (a_IP a) = None) else "credentials.assignments[].ip";
  guard negb (bool_decide (a_CIDR a = "")) && bool_decide (ParseCIDR (a_CIDR a) = None)
    else "credentials.assignments[].cidr";
  check_all (λ n, if bool_decide (n ∈ known) then inr tt else inl "credentials.assignments") (a_Profiles a).

(** The credentials with their profiles normalised. *)
Definition validateCredentials (cr : CredentialsConfig) : string + CredentialsConfig :=
  guard TrialRatePerSecond cr <? 1 else "credentials.trial_rate_per_second";
  if bool_decide (Profiles cr = []) then inr cr
  else
    do r <- validate_profiles ∅ (Profiles cr);
    let '(known, ps) := r in
    do _ <- check_all (validate_assignment known) (Assignments cr);
    do _ <- check_all (λ n, if bool_decide (n ∈ known) then inr tt else inl "credentials.fallback_order") (FallbackOrder cr);
    inr (mkCredentialsConfig ps (Assignments cr) (FallbackOrder cr) (TrialRatePerSecond cr)).

Fixpoint validate_targets (seen : gset (string * Z)) (ts : list TargetConfig) : check :=
  match ts with
  | [] => inr tt
  | t :: ts' =>
      guard bool_decide (t_Host t = "") else "targets[].host";
      guard (t_Port t <? 1) || (65535 <? t_Port t) else "targets[].port";
      guard bool_decide ((t_Host t, t_Port t) ∈ seen) else "targets[] duplicates";
      do _ <- check_all (λ kv, if bool_decide (kv.1 = "") then inl "targets[].labels" else inr tt) (range_map 0 (t_Labels t));
      validate_targets ({[ (t_Host t, t_Port t) ]} ∪ seen) ts'
  end.

Definition validateTargets (ts : list TargetConfig) : check := validate_targets ∅ ts.

Definition validateFDB (m : ModuleOptions) : check :=
  guard mo_MaxVlans m <? 1 else "fdb.max_vlans";
  guard 4096 <? mo_MaxVlans m else "fdb.max_vlans";
  inr tt.

Definition stat_all (paths : list string) : check :=
  check_all (λ p, if os_Stat p then inr tt else inl "tls") paths.

Definition validate_spoke (s : FederationSpokeConfig) : check :=
  guard bool_decide (s_SpokeID s = "") else "federation.spoke.spoke_id";
  do _ <- validateHTTPSEndpoint (s_HubURL s);
  guard bool_decide (s_TLSCACert s = "") || bool_decide (s_TLSCert s = "") || bool_decide (s_TLSKey s = "")
    else "federation.spoke.tls";
  do _ <- stat_all [s_TLSCACert s; s_TLSCert s; s_TLSKey s];
  guard negb (bool_decide (s_Compression s ∈ ["gzip"; "none"])) else "federation.spoke.compression";
  inr tt.

Definition validate_hub (interval spokeTimeout : duration) (h : FederationHubConfig) : check :=
  let ha := h_HA h in
  guard ha_Enabled ha && (ha_LeaseDuration ha <=? ha_RenewDeadline ha) else "federation.hub.ha.renew_deadline";
  guard ha_Enabled ha && ((ha_RetryPeriod ha <=? 0) || (ha_RenewDeadline ha <=? ha_RetryPeriod ha))
    else "federation.hub.ha.retry_period";
  guard bool_decide (h_TLSCACert h = "") || bool_decide (h_TLSCert h = "") || bool_decide (h_TLSKey h = "")
    else "federation.hub.tls";
  do _ <- stat_all [h_TLSCACert h; h_TLSCert h; h_TLSKey h];
  guard h_MaxGraphDevices h <? 0 else "federation.hub.max_graph_devices";
  guard h_MaxGraphEdges h <? 0 else "federation.hub.max_graph_edges";
  guard h_MinPushInterval h <? 0 else "federation.hub.min_push_interval";
  guard (0 <? h_MinPushInterval h) && (0 <? spokeTimeout) && (spokeTimeout <=? h_MinPushInterval h)
    else "federation.hub.min_push_interval";
  guard spokeTimeout <? wrap64 (2 * interval) else "federation.spoke_timeout";
  inr tt.

Definition link_fwd (l : InterDomainLink) : string :=
  LocalDevice l +:+ "|" +:+ LocalPort l +:+ "|" +:+ RemoteDevice l +:+ "|" +:+ RemotePort l.
Definition link_rev (l : InterDomainLink) : string :=
  RemoteDevice l +:+ "|" +:+ RemotePort l +:+ "|" +:+ LocalDevice l +:+ "|" +:+ LocalPort l.

Fixpoint validate_links (seen : gset string) (ls : list InterDomainLink) : check :=
  match ls with
  | [] => inr tt
  | l :: ls' =>
      guard bool_decide (LocalDevice l = "") || bool_decide (LocalPort l = "")
            || bool_decide (RemoteDevice l = "") || bool_decide (RemotePort l = "")
        else "federation.known_inter_domain_links";
      guard bool_decide (LocalDevice l = RemoteDevice l) else "federation.known_inter_domain_links";
      guard bool_decide (link_fwd l ∈ seen) || bool_decide (link_rev l ∈ seen)
        else "federation.known_inter_domain_links: duplicate";
      validate_links ({[ link_fwd l; link_rev l ]} ∪ seen) ls'
  end.

Definition validateFederation (interval : duration) (f : FederationSettings) : check :=
  guard f_SpokeTimeout f <? 0 else "federation.spoke_timeout";
  do _ <- (if bool_decide (f_Role f = RoleStandalone) || bool_decide (f_Role f = RoleUncoordinated) then inr tt
           else if bool_decide (f_Role f = RoleSpoke) then validate_spoke (f_Spoke f)
           else if bool_decide (f_Role f = RoleHub) then validate_hub interval (f_SpokeTimeout f) (f_Hub f)
           else inl "federation.role");
  validate_links ∅ (f_KnownInterDomainLinks f).

Definition validate_discovery (d : DiscoveryConfig) : check :=
  guard d_Parallelism d <? 1 else "discovery.parallelism";
  guard d_UnconfirmedLinkTTLCycles d <? 1 else "discovery.unconfirmed_link_ttl_cycles";
  guard SFleb (d_CycleBudgetFraction d) float_0 || SFltb float_1 (d_CycleBudgetFraction d)
    else "discovery.cycle_budget_fraction";
  guard d_TimeoutPerModule d <? 0 else "discovery.timeout_per_module";
  guard (0 <? d_TimeoutPerModule d) && (d_TimeoutPerDevice d <=? d_TimeoutPerModule d)
    else "discovery.timeout_per_module";
  guard d_MaxGraphDevices d <? 0 else "discovery.max_graph_devices";
  guard d_MaxGraphEdges d <? 0 else "discovery.max_graph_edges";
  guard d_PerTargetPDURatePerSecond d <? 0 else "discovery.per_target_pdu_rate_per_second";
  guard spc_MaxIdle (d_SessionPool d) <? 0 else "discovery.snmp.session_pool.max_idle";
  guard d_Interval d <=? 0 else "discovery.interval";
  guard LivenessMaxStaleCyclesValue d <? 0 else "discovery.liveness_max_stale_cycles";
  guard d_TimeoutPerDevice d <=? 0 else "discovery.timeout_per_device";
  inr tt.

Definition validate_output (o : OutputConfig) : check :=
  guard o_Timeout o <? 0 else "output.otlp.timeout";
  guard o_HeartbeatCycles o <? 1 else "output.otlp.heartbeat_cycles";
  guard negb (bool_decide (o_Protocol o ∈ [""; OTLPProtocolHTTP; OTLPProtocolGRPC])) else "output.otlp.protocol";
  guard (match o_SampleRate o with Some r => SFltb r float_0 || SFltb float_1 r | None => false end)
    else "output.otlp.traces.sample_rate";
  if o_Enabled o then
    if bool_decide (o_Protocol o = OTLPProtocolGRPC) then
      guard bool_decide (o_Endpoint o = "") else "output.otlp.endpoint";
      inr tt
    else validateHTTPEndpoint (o_Endpoint o)
  else inr tt.

(** The configuration with its profiles normalised, and the override resolver. *)
Definition validate (c : Config) : string + (Config * option (list targetOverride)) :=
  do _ <- validateListen (c_Listen c);
  do _ <- validate_discovery (c_Discovery c);
  do _ <- validateScope (d_CIDRAllowList (c_Discovery c)) (c_Targets c);
  match validateTargetOverrides IPNet_String (mo_toggles (c_Modules c)) (d_TargetOverrides (c_Discovery c)) with
  | inl _ => inl "discovery.target_overrides"
  | inr resolver =>
      guard mo_SNMPEnabled (c_Modules c)
            && negb (bool_decide (mo_SNMPVersion (c_Modules c) ∈ [SNMPVersionV2c; SNMPVersionV3]))
        else "modules.snmp.version";
      do cr <- validateCredentials (c_Credentials c);
      do _ <- validateTargets (c_Targets c);
      do _ <- validateFDB (c_Modules c);
      do _ <- validateFederation (d_Interval (c_Discovery c)) (c_Federation c);
      do _ <- validate_output (c_Output c);
      inr (mkConfig (c_Listen c) (c_Discovery c) (c_Modules c) cr (c_SnapshotPath c) (c_Federation c) (c_Output c)
             (c_Targets c), resolver)
  end.

(** [Load] after the decoder. *)
Definition Load (c : Config) : string + (Config * option (list targetOverride)) := validate (applyDefaults c).
End Validate.

(** ** What an accepted configuration satisfies *)

Section Accepted.
Context `{E : ConfigEnv} `{N : NetText} `{R : MapRange}.

Record discovery_ok (d : DiscoveryConfig) : Prop := {
  do_parallelism : 1 ≤ d_Parallelism d;
  do_ttl : 1 ≤ d_UnconfirmedLinkTTLCycles d;
  do_budget : SFleb (d_CycleBudgetFraction d) float_0 = false ∧ SFltb float_1 (d_CycleBudgetFraction d) = false;
  do_module : 0 ≤ d_TimeoutPerModule d ∧ (0 < d_TimeoutPerModule d → d_TimeoutPerModule d < d_TimeoutPerDevice d);
  do_caps : 0 ≤ d_MaxGraphDevices d ∧ 0 ≤ d_MaxGraphEdges d ∧ 0 ≤ d_PerTargetPDURatePerSecond d;
  do_idle : 0 ≤ spc_MaxIdle (d_SessionPool d);
  do_interval : 0 < d_Interval d;
  do_liveness : 0 ≤ LivenessMaxStaleCyclesValue d;
  do_device : 0 < d_TimeoutPerDevice d
}.

Lemma validate_discovery_ok d : validate_discovery d = inr tt ↔ discovery_ok d.
Proof.
  unfold validate_discovery. rewrite !guard_ok, !orb_false_iff, !andb_false_iff, !Z.ltb_ge, !Z.leb_gt. split.
  - intros (H1 & H2 & [H3 H4] & H5 & H6 & H7 & H8 & H9 & H10 & H11 & H12 & H13 & _). split; try done. split; [done|]. lia.
  - intros [H1 H2 [H3 H4] [H5 H6] (H7 & H8 & H9) H10 H11 H12 H13]. split_and!; try done. lia.
Qed.

Definition scope_ok (allow : list string) (targets : list TargetConfig) : Prop :=
  targets ≠ [] → allow ≠ [] ∧ ∃ nets, ParseCIDRsStrict allow = inr nets ∧
    ∀ t ip, t ∈ targets → ParseIP (t_Host t) = Some ip → ∃ n, n ∈ nets ∧ Contains n ip = true.

Lemma validateScope_ok allow targets : validateScope allow targets = inr tt ↔ scope_ok allow targets.
Proof.
  unfold validateScope, scope_ok. case_bool_decide as Ht; [by split|]. case_bool_decide as Ha.
  { split; [done|]. intros Hs. by destruct (Hs Ht) as [? _]. }
  destruct (ParseCIDRsStrict allow) as [e|nets] eqn:Hp.
  { split; [done|]. intros Hs. destruct (Hs Ht) as (_ & nets & ? & _). done. }
  rewrite check_all_ok. unfold cidrContainsAny. split.
  - intros Hall _. split; [done|]. exists nets. split; [done|]. intros t ip Hin Hip. specialize (Hall t Hin). rewrite Hip in Hall.
    destruct (existsb _ nets) eqn:Hx; [|done]. by apply existsb_elem in Hx.
  - intros Hs t Hin. destruct (Hs Ht) as (_ & nets' & [= <-] & Hall). destruct (ParseIP (t_Host t)) as [ip|] eqn:Hip; [|done].
    destruct (Hall t ip Hin Hip) as (n & Hn & Hc). assert (existsb (λ n, Contains n ip) nets = true) as ->; [|done].
    apply existsb_elem. eauto.
Qed.

Record target_ok (t : TargetConfig) : Prop := {
  to_host : t_Host t ≠ "";
  to_port : 1 ≤ t_Port t ≤ 65535;
  to_labels : t_Labels t !! "" = None
}.

Lemma validate_targets_ok seen ts :
  validate_targets seen ts = inr tt ↔
  Forall target_ok ts ∧ NoDup ((λ t, (t_Host t, t_Port t)) <$> ts) ∧
  ∀ t, t ∈ ts → (t_Host t, t_Port t) ∉ seen.
Proof.
  revert seen. induction ts as [|t ts IH]; intros seen; cbn [validate_targets].
  { split; [|done]. intros _. split_and!; [constructor..|]. by intros t ?%elem_of_nil. }
  rewrite !guard_ok, orb_false_iff, !Z.ltb_ge, !bool_decide_eq_false, bind_ok, check_all_ok, IH, Forall_cons.
  assert ((∀ x, x ∈ range_map 0 (t_Labels t) → (if bool_decide (x.1 = "") then inl "targets[].labels" else inr tt) = inr tt)
    ↔ t_Labels t !! "" = None) as Hlab.
  { split.
    - intros Hall. destruct (t_Labels t !! "") as [v|] eqn:Hv; [|done]. specialize (Hall ("", v)).
      rewrite bool_decide_eq_true_2 in Hall by done. by discriminate Hall; apply elem_of_range.
    - intros Hn [k v] Hkv%elem_of_range. rewrite bool_decide_eq_false_2; [done|]. simpl. intros ->. congruence. }
  rewrite Hlab. cbn [fmap list_fmap]. rewrite NoDup_cons. split.
  - intros (H1 & [H2 H3] & H4 & H5 & H6 & H7 & H8). split_and!; try done.
    + intros (t' & Heq & Hin)%list_elem_of_fmap. apply (H8 t' Hin). rewrite <- Heq. set_solver.
    + intros t' [->|Hin]%elem_of_cons; [done|]. specialize (H8 t' Hin). set_solver.
  - intros ([[H1 H2 H3] H4] & [H5 H6] & H7). split_and!; try done; try lia.
    + apply H7. by left.
    + intros t' Hin. rewrite not_elem_of_union, elem_of_singleton. split; [|apply H7; by right].
      intros Heq. apply H5. apply list_elem_of_fmap. by exists t'.
Qed.
(** *** Credentials *)

Definition protocol_name (raw : string) : string := ToUpper (TrimSpace raw).

Definition auth_protocols : list string := [""; "SHA"; "SHA-256"; "SHA-384"; "SHA-512"].
Definition priv_protocols : list string := [""; "AES"; "AES-192"; "AES-256"].

Record profile_ok (p : CredentialProfile) : Prop := {
  po_name : p_Name p ≠ "";
  po_retries : 0 ≤ p_Retries p;
  po_type :
    p_Type p = ProfileTypeSNMPv2c ∧ p_CommunityEnv p ≠ "" ∨
    p_Type p = ProfileTypeSNMPv3 ∧ p_UsernameEnv p ≠ "" ∧
      protocol_name (p_AuthProtocol p) ∈ auth_protocols ∧ protocol_name (p_PrivProtocol p) ∈ priv_protocols ∧
      (protocol_name (p_AuthProtocol p) ≠ "" → p_AuthKeyEnv p ≠ "") ∧
      (protocol_name (p_PrivProtocol p) ≠ "" → p_PrivKeyEnv p ≠ "")
}.

Definition profile_norm (p : CredentialProfile) : CredentialProfile :=
  if bool_decide (p_Type p = ProfileTypeSNMPv3) then
    mkProfile (p_Name p) (p_Type p) (p_CommunityEnv p) (p_UsernameEnv p) (protocol_name (p_AuthProtocol p))
      (p_AuthKeyEnv p) (protocol_name (p_PrivProtocol p)) (p_PrivKeyEnv p) (p_Retries p) (p_ContextName p)
  else p.

Lemma normalizeAuthProtocol_ok raw v :
  normalizeAuthProtocol raw = inr v ↔ v = protocol_name raw ∧ protocol_name raw ∈ auth_protocols.
Proof.
  unfold normalizeAuthProtocol. fold (protocol_name raw). generalize (protocol_name raw) as w. intros w.
  unfold auth_protocols. repeat case_bool_decide; subst; rewrite elem_of_cons.
  - split; [intros [= <-]; auto|by intros [-> _]].
  - split; [intros [= <-]; auto|by intros [-> _]].
  - split; [done|by intros [_ [?|?]]].
Qed.

Lemma normalizePrivProtocol_ok raw v :
  normalizePrivProtocol raw = inr v ↔ v = protocol_name raw ∧ protocol_name raw ∈ priv_protocols.
Proof.
  unfold normalizePrivProtocol. fold (protocol_name raw). generalize (protocol_name raw) as w. intros w.
  unfold priv_protocols. repeat case_bool_decide; subst; rewrite elem_of_cons.
  - split; [intros [= <-]; auto|by intros [-> _]].
  - split; [intros [= <-]; auto|by intros [-> _]].
  - split; [done|by intros [_ [?|?]]].
Qed.

Lemma validate_profile_ok p p' :
  p_Name p ≠ "" → validate_profile p = inr p' ↔ profile_ok p ∧ p' = profile_norm p.
Proof.
  intros Hn. unfold validate_profile, profile_norm. rewrite guard_inr, Z.ltb_ge. case_bool_decide as H2.
  { rewrite guard_inr, bool_decide_eq_false, (bool_decide_eq_false_2 (p_Type p = ProfileTypeSNMPv3)) by (rewrite H2; done). split.
    - intros (Hr & Hc & [= <-]). repeat split; auto.
    - intros [[_ Hr [[_ Hc]|[H3 _]]] ->]; [done|]. rewrite H2 in H3. done. }
  case_bool_decide as H3; [|split; [naive_solver|intros [[_ _ [[? _]|[? _]]] _]; done]].
  rewrite guard_inr, bool_decide_eq_false. setoid_rewrite bind_inr. setoid_rewrite bind_inr.
  setoid_rewrite guard_inr. setoid_rewrite guard_inr. setoid_rewrite normalizeAuthProtocol_ok. setoid_rewrite normalizePrivProtocol_ok. split.
  - intros (Hr & Hu & a & (-> & Ha) & q & (-> & Hq) & Hka & Hkq & [= <-]). split; [|done].
    rewrite andb_false_iff, negb_false_iff, bool_decide_eq_true, bool_decide_eq_false in Hka, Hkq.
    split; [done..|]. right. split_and!; try done; intros ?; tauto.
  - intros [[_ Hr [[? _]|(_ & Hu & Ha & Hq & Hka & Hkq)]] ->]; [done|]. split_and!; [done..|].
    eexists. split; [done|]. eexists. split; [done|]. rewrite !andb_false_iff, !negb_false_iff, !bool_decide_eq_true, !bool_decide_eq_false.
    split_and!; [| |done]; [destruct (decide (protocol_name (p_AuthProtocol p) = ""))|destruct (decide (protocol_name (p_PrivProtocol p) = ""))]; auto.
Qed.

Lemma validate_profiles_ok known ps r :
  validate_profiles known ps = inr r ↔
  (Forall profile_ok ps ∧ NoDup (p_Name <$> ps) ∧ (∀ p, p ∈ ps → p_Name p ∉ known)) ∧
  r = (list_to_set (p_Name <$> ps) ∪ known, profile_norm <$> ps).
Proof.
  revert known r. induction ps as [|p ps IH]; intros known r; cbn [validate_profiles].
  { cbn. rewrite (left_id_L ∅ (∪)). split; [|by intros [_ ->]]. intros [= <-]. split; [|done]. split_and!; [constructor..|].
    by intros p ?%elem_of_nil. }
  rewrite !guard_inr, !bool_decide_eq_false, Forall_cons. cbn [fmap list_fmap]. rewrite NoDup_cons, bind_inr. split.
  - intros (Hn & Hk & p' & Hp & (r' & Hr%IH & [= <-])%bind_inr). apply validate_profile_ok in Hp as [Hp ->]; [|done].
    destruct Hr as [(Hf & Hnd & Hk') ->]. split.
    + split_and!; try done.
      * intros (q & Heq & Hin)%list_elem_of_fmap. apply (Hk' q Hin). rewrite <- Heq. set_solver.
      * intros q [->|Hin]%elem_of_cons; [done|]. specialize (Hk' q Hin). set_solver.
    + cbn. f_equal. set_solver.
  - intros [([Hp Hf] & [Hni Hnd] & Hk) ->]. split_and!; [apply Hp|apply Hk; by left|]. exists (profile_norm p).
    split; [by apply validate_profile_ok; [apply Hp|]|]. apply bind_inr. eexists. split.
    + apply IH. split; [|done]. split_and!; [done..|]. intros q Hq. rewrite not_elem_of_union, elem_of_singleton.
      split; [|apply Hk; by right]. intros Heq. apply Hni. apply list_elem_of_fmap. by exists q.
    + cbn. do 2 f_equal. set_solver.
Qed.
Record assignment_ok (names : list string) (a : CredentialAssignment) : Prop := {
  ao_one : a_IP a = "" ↔ a_CIDR a ≠ "";
  ao_ip : a_IP a ≠ "" → is_Some (ParseIP (a_IP a));
  ao_cidr : a_CIDR a ≠ "" → is_Some (ParseCIDR (a_CIDR a));
  ao_names : a_Profiles a ⊆ names
}.

Lemma known_all (known : gset string) (names l : list string) (e : string) :
  (∀ n, n ∈ known ↔ n ∈ names) →
  check_all (λ n, if bool_decide (n ∈ known) then inr tt else inl e) l = inr tt ↔ l ⊆ names.
Proof.
  intros Hk. rewrite check_all_ok. unfold subseteq, list_subseteq. setoid_rewrite <- Hk.
  split; intros H n Hn; specialize (H n Hn); case_bool_decide; done.
Qed.

Lemma validate_assignment_ok known names a :
  (∀ n, n ∈ known ↔ n ∈ names) → validate_assignment known a = inr tt ↔ assignment_ok names a.
Proof.
  intros Hk. unfold validate_assignment. rewrite !guard_ok, (known_all _ _ _ _ Hk), !andb_false_iff.
  rewrite !negb_false_iff, !bool_decide_eq_false, !bool_decide_eq_true. split.
  - intros (H1 & H2 & H3 & H4 & H5). split; rewrite <- ?not_eq_None_Some; [split; [tauto|]; intros ?; tauto|intros ?; tauto..|done].
  - intros [H1 H2 H3 H4]. rewrite <- not_eq_None_Some in H2. rewrite <- not_eq_None_Some in H3. destruct (decide (a_IP a = "")), (decide (a_CIDR a = "")); tauto.
Qed.

Record credentials_ok (cr : CredentialsConfig) : Prop := {
  co_rate : 1 ≤ TrialRatePerSecond cr;
  co_profiles : Forall profile_ok (Profiles cr);
  co_unique : NoDup (p_Name <$> Profiles cr);
  co_assignments : Profiles cr ≠ [] → Forall (assignment_ok (p_Name <$> Profiles cr)) (Assignments cr);
  co_fallback : Profiles cr ≠ [] → FallbackOrder cr ⊆ p_Name <$> Profiles cr
}.

Definition credentials_norm (cr : CredentialsConfig) : CredentialsConfig :=
  mkCredentialsConfig (profile_norm <$> Profiles cr) (Assignments cr) (FallbackOrder cr) (TrialRatePerSecond cr).

Lemma validateCredentials_ok cr cr' :
  validateCredentials cr = inr cr' ↔ credentials_ok cr ∧ cr' = credentials_norm cr.
Proof.
  unfold validateCredentials, credentials_norm. rewrite guard_inr, Z.ltb_ge. case_bool_decide as Hp.
  { destruct cr as [ps l1 l2 rate]; cbn in *; subst ps. split.
    - intros [Hr [= <-]]. split; [|done]. split; cbn; [done|constructor..|done|done].
    - intros [[Hr _ _ _ _] ->]. done. }
  rewrite bind_inr. assert (∀ n, n ∈ (list_to_set (p_Name <$> Profiles cr) ∪ ∅ : gset string) ↔ n ∈ p_Name <$> Profiles cr) as Hk.
  { intros n. set_solver. }
  split.
  - intros (Hr & r & [(Hf & Hnd & _) ->]%validate_profiles_ok & Hrest).
    apply bind_inr in Hrest as ([] & Ha & Hrest). apply bind_inr in Hrest as ([] & Hb%(known_all _ _ _ _ Hk) & [= <-]).
    rewrite check_all_ok in Ha. split; [|done]. split; [done..| |done]. intros _. rewrite Forall_forall.
    intros a Hin. by apply (validate_assignment_ok _ _ _ Hk), Ha.
  - intros [[Hr Hf Hnd Ha Hb] ->]. split; [done|]. specialize (Ha Hp). specialize (Hb Hp). rewrite Forall_forall in Ha.
    eexists. split; [apply validate_profiles_ok; split; [|done]; split_and!; [done..|set_solver]|].
    cbn beta iota. apply bind_inr. exists tt. split.
    { rewrite check_all_ok. intros a Hin. apply (validate_assignment_ok _ _ _ Hk). auto. }
    apply bind_inr. exists tt. split; [by apply (known_all _ _ _ _ Hk)|done].
Qed.
(** *** Federation, outputs and the rest *)

Record spoke_ok (s : FederationSpokeConfig) : Prop := {
  so_id : s_SpokeID s ≠ "";
  so_url : ∃ host, url_Parse (s_HubURL s) = Some ("https", host) ∧ host ≠ "";
  so_url_set : s_HubURL s ≠ "";
  so_tls : ∀ path, path ∈ [s_TLSCACert s; s_TLSCert s; s_TLSKey s] → path ≠ "" ∧ os_Stat path = true;
  so_compression : s_Compression s = "gzip" ∨ s_Compression s = "none"
}.

Record ha_ok (ha : HubHAConfig) : Prop := {
  ho_order : 0 < ha_RetryPeriod ha < ha_RenewDeadline ha;
  ho_lease : ha_RenewDeadline ha < ha_LeaseDuration ha
}.

Record hub_ok (interval spokeTimeout : duration) (h : FederationHubConfig) : Prop := {
  hb_ha : ha_Enabled (h_HA h) = true → ha_ok (h_HA h);
  hb_tls : ∀ path, path ∈ [h_TLSCACert h; h_TLSCert h; h_TLSKey h] → path ≠ "" ∧ os_Stat path = true;
  hb_caps : 0 ≤ h_MaxGraphDevices h ∧ 0 ≤ h_MaxGraphEdges h;
  hb_rate : 0 ≤ h_MinPushInterval h ∧ (0 < h_MinPushInterval h → 0 < spokeTimeout → h_MinPushInterval h < spokeTimeout);
  hb_timeout : wrap64 (2 * interval) ≤ spokeTimeout
}.

Record link_ok (l : InterDomainLink) : Prop := {
  lo_set : LocalDevice l ≠ "" ∧ LocalPort l ≠ "" ∧ RemoteDevice l ≠ "" ∧ RemotePort l ≠ "";
  lo_apart : LocalDevice l ≠ RemoteDevice l
}.

(** Neither spelling of [b] is a spelling of [a]. *)
Definition links_apart (a b : InterDomainLink) : Prop :=
  link_fwd b ∉ [link_fwd a; link_rev a] ∧ link_rev b ∉ [link_fwd a; link_rev a].

Record federation_ok (interval : duration) (f : FederationSettings) : Prop := {
  fo_timeout : 0 ≤ f_SpokeTimeout f;
  fo_role : f_Role f ∈ [RoleStandalone; RoleUncoordinated] ∨ f_Role f = RoleSpoke ∧ spoke_ok (f_Spoke f) ∨
            f_Role f = RoleHub ∧ hub_ok interval (f_SpokeTimeout f) (f_Hub f);
  fo_links : Forall link_ok (f_KnownInterDomainLinks f) ∧ ForallOrdPairs links_apart (f_KnownInterDomainLinks f)
}.

Lemma stat_all_ok paths : stat_all paths = inr tt ↔ ∀ path, path ∈ paths → os_Stat path = true.
Proof. unfold stat_all. rewrite check_all_ok. split; intros H path Hin; specialize (H path Hin); by destruct (os_Stat path). Qed.

(** The guard on three paths and the loop over them, together. *)
Lemma tls_files a b c :
  bool_decide (a = "") || bool_decide (b = "") || bool_decide (c = "") = false ∧ stat_all [a; b; c] = inr tt ↔
  ∀ path, path ∈ [a; b; c] → path ≠ "" ∧ os_Stat path = true.
Proof.
  rewrite !orb_false_iff, !bool_decide_eq_false, stat_all_ok. split; [set_solver|].
  intros H. split_and!; [apply H; set_solver..|]. intros path Hin. by apply H.
Qed.

Lemma validateHTTPSEndpoint_ok u :
  validateHTTPSEndpoint u = inr tt ↔ u ≠ "" ∧ ∃ host, url_Parse u = Some ("https", host) ∧ host ≠ "".
Proof.
  unfold validateHTTPSEndpoint, validate_endpoint. rewrite guard_ok, bool_decide_eq_false. apply and_iff_compat_l.
  destruct (url_Parse u) as [[scheme host]|]; [|naive_solver].
  rewrite !guard_ok, negb_false_iff, bool_decide_eq_true, bool_decide_eq_false, list_elem_of_singleton. naive_solver.
Qed.

Lemma validate_spoke_ok s : validate_spoke s = inr tt ↔ spoke_ok s.
Proof.
  unfold validate_spoke. rewrite guard_ok, !bind_ok, guard_ok, bind_ok, guard_ok, validateHTTPSEndpoint_ok.
  rewrite bool_decide_eq_false, negb_false_iff, bool_decide_eq_true. split.
  - intros (H1 & [H2 H3] & H4 & H5 & H6 & _). split; [done..| |set_solver]. by apply tls_files.
  - intros [H1 H2 H3 H4%tls_files H5]. destruct H4 as [H4 H4']. split_and!; try done. set_solver.
Qed.

Lemma validate_hub_ok interval timeout h : validate_hub interval timeout h = inr tt ↔ hub_ok interval timeout h.
Proof.
  unfold validate_hub. rewrite !guard_ok, bind_ok, !guard_ok, !andb_false_iff, !Z.ltb_ge, !Z.leb_gt, (orb_false_iff (_ <=? 0)), !Z.leb_gt. split.
  - intros (H1 & H2 & H3 & H4 & H5 & H6 & H7 & H8 & H9 & _). split; try done.
    + intros Hon. rewrite Hon in H1, H2. split; [destruct H2 as [?|?]; [done|lia]|by destruct H1].
    + by apply tls_files.
    + split; [done|]. intros ? ?. lia.
  - intros [H1 H2%tls_files [H3 H4] [H5 H6] H7]. destruct H2 as [H2 H2']. split_and!; try done.
    + destruct (ha_Enabled (h_HA h)); [|by left]. right. by apply H1.
    + destruct (ha_Enabled (h_HA h)); [|by left]. right. destruct (H1 eq_refl) as [? ?]. lia.
    + lia.
Qed.

Lemma validate_links_ok seen ls :
  validate_links seen ls = inr tt ↔
  Forall link_ok ls ∧ ForallOrdPairs links_apart ls ∧ ∀ l, l ∈ ls → link_fwd l ∉ seen ∧ link_rev l ∉ seen.
Proof.
  revert seen. induction ls as [|l ls IH]; intros seen; cbn [validate_links].
  { split; [|done]. intros _. split_and!; [constructor..|]. by intros l ?%elem_of_nil. }
  rewrite !guard_ok, !orb_false_iff, !bool_decide_eq_false, IH, Forall_cons. split.
  - intros ([[[H1 H2] H3] H4] & H5 & [H6 H7] & H8 & H9 & H10). split_and!; try done.
    + constructor; [|done]. apply Forall_forall. intros l' Hin. specialize (H10 l' Hin). unfold links_apart. set_solver.
    + intros l' [->|Hin]%elem_of_cons; [done|]. specialize (H10 l' Hin). set_solver.
  - intros ([[(H1 & H2 & H3 & H4) H5] H6] & H7 & H8). inversion H7 as [|? ? H9 H10]; subst.
    destruct (H8 l) as [H11 H12]; [by left|]. split_and!; try done.
    intros l' Hin. rewrite Forall_forall in H9. destruct (H9 l' Hin) as [Ha Hb]. destruct (H8 l') as [Hc Hd]; [by right|]. set_solver.
Qed.

Lemma validateFederation_ok interval f : validateFederation interval f = inr tt ↔ federation_ok interval f.
Proof.
  unfold validateFederation. rewrite guard_ok, bind_ok, Z.ltb_ge, validate_links_ok. split.
  - intros (H1 & H2 & H3 & H4 & _). split; [done| |done]. repeat case_bool_decide; cbn in H2.
    all: rewrite ?validate_spoke_ok, ?validate_hub_ok in H2; set_solver.
  - intros [H1 H2 [H3 H4]]. split_and!; [done| |done..|set_solver]. destruct H2 as [H2|[[H2 H5]|[H2 H5]]].
    + repeat case_bool_decide; cbn; try done; set_solver.
    + rewrite H2. cbn. by apply validate_spoke_ok.
    + rewrite H2. cbn. by apply validate_hub_ok.
Qed.
Record output_ok (o : OutputConfig) : Prop := {
  oo_timeout : 0 ≤ o_Timeout o;
  oo_heartbeat : 1 ≤ o_HeartbeatCycles o;
  oo_protocol : o_Protocol o ∈ [""; OTLPProtocolHTTP; OTLPProtocolGRPC];
  oo_rate : ∀ r, o_SampleRate o = Some r → SFltb r float_0 = false ∧ SFltb float_1 r = false;
  oo_endpoint : o_Enabled o = true →
    o_Endpoint o ≠ "" ∧
    (o_Protocol o ≠ OTLPProtocolGRPC → ∃ scheme host, url_Parse (o_Endpoint o) = Some (scheme, host) ∧
       scheme ∈ ["http"; "https"] ∧ host ≠ "")
}.

Lemma validateHTTPEndpoint_ok u :
  validateHTTPEndpoint u = inr tt ↔
  u ≠ "" ∧ ∃ scheme host, url_Parse u = Some (scheme, host) ∧ scheme ∈ ["http"; "https"] ∧ host ≠ "".
Proof.
  unfold validateHTTPEndpoint, validate_endpoint. rewrite guard_ok, bool_decide_eq_false. apply and_iff_compat_l.
  destruct (url_Parse u) as [[scheme host]|]; [|naive_solver].
  rewrite !guard_ok, negb_false_iff, bool_decide_eq_true, bool_decide_eq_false. naive_solver.
Qed.

Lemma validate_output_ok o : validate_output o = inr tt ↔ output_ok o.
Proof.
  unfold validate_output. rewrite !guard_ok, !Z.ltb_ge, negb_false_iff, bool_decide_eq_true.
  assert (match o_SampleRate o with Some r => SFltb r float_0 || SFltb float_1 r | None => false end = false ↔
    ∀ r, o_SampleRate o = Some r → SFltb r float_0 = false ∧ SFltb float_1 r = false) as ->.
  { setoid_rewrite <- orb_false_iff. destruct (o_SampleRate o); naive_solver. }
  assert ((if o_Enabled o then if bool_decide (o_Protocol o = OTLPProtocolGRPC)
             then guard bool_decide (o_Endpoint o = "") else "output.otlp.endpoint"; inr tt
             else validateHTTPEndpoint (o_Endpoint o) else inr tt) = inr tt ↔
    (o_Enabled o = true → o_Endpoint o ≠ "" ∧ (o_Protocol o ≠ OTLPProtocolGRPC → ∃ scheme host,
       url_Parse (o_Endpoint o) = Some (scheme, host) ∧ scheme ∈ ["http"; "https"] ∧ host ≠ ""))) as ->.
  { destruct (o_Enabled o); [|done]. case_bool_decide.
    - rewrite guard_ok, bool_decide_eq_false. tauto.
    - rewrite validateHTTPEndpoint_ok. tauto. }
  split; [by intros (? & ? & ? & ? & ?)|by intros []].
Qed.

(** *** The whole configuration *)

Record config_ok (c : Config) : Prop := {
  cf_listen : l_WebConfigFile (c_Listen c) ≠ "" → os_Stat (l_WebConfigFile (c_Listen c)) = true;
  cf_discovery : discovery_ok (c_Discovery c);
  cf_scope : scope_ok (d_CIDRAllowList (c_Discovery c)) (c_Targets c);
  cf_snmp : mo_SNMPEnabled (c_Modules c) = true → mo_SNMPVersion (c_Modules c) ∈ [SNMPVersionV2c; SNMPVersionV3];
  cf_credentials : credentials_ok (c_Credentials c);
  cf_targets : Forall target_ok (c_Targets c) ∧ NoDup ((λ t, (t_Host t, t_Port t)) <$> c_Targets c);
  cf_fdb : 1 ≤ mo_MaxVlans (c_Modules c) ≤ 4096;
  cf_federation : federation_ok (d_Interval (c_Discovery c)) (c_Federation c);
  cf_output : output_ok (c_Output c)
}.

Definition config_norm (c : Config) : Config :=
  mkConfig (c_Listen c) (c_Discovery c) (c_Modules c) (credentials_norm (c_Credentials c)) (c_SnapshotPath c)
    (c_Federation c) (c_Output c) (c_Targets c).

Lemma validateTargets_ok ts :
  validateTargets ts = inr tt ↔ Forall target_ok ts ∧ NoDup ((λ t, (t_Host t, t_Port t)) <$> ts).
Proof. unfold validateTargets. rewrite validate_targets_ok. set_solver. Qed.

Lemma validateFDB_ok m : validateFDB m = inr tt ↔ 1 ≤ mo_MaxVlans m ≤ 4096.
Proof. unfold validateFDB. rewrite !guard_ok, !Z.ltb_ge. tauto. Qed.

Lemma validateListen_ok l : validateListen l = inr tt ↔ (l_WebConfigFile l ≠ "" → os_Stat (l_WebConfigFile l) = true).
Proof.
  unfold validateListen. rewrite guard_ok, andb_false_iff, !negb_false_iff, bool_decide_eq_true.
  destruct (decide (l_WebConfigFile l = "")); tauto.
Qed.

Lemma validate_exact c c' r :
  validate c = inr (c', r) ↔
  config_ok c ∧ c' = config_norm c ∧
  validateTargetOverrides IPNet_String (mo_toggles (c_Modules c)) (d_TargetOverrides (c_Discovery c)) = inr r.
Proof.
  unfold validate. split.
  - intros H. apply bind_inr in H as ([] & H1 & H). rewrite validateListen_ok in H1. apply bind_inr in H as ([] & H2%validate_discovery_ok & H).
    apply bind_inr in H as ([] & H3 & H). rewrite validateScope_ok in H3. destruct (validateTargetOverrides _ _ _) as [|r'] eqn:Ho; [done|].
    apply guard_inr in H as [H4 H]. apply bind_inr in H as (cr & [H5 ->]%validateCredentials_ok & H).
    apply bind_inr in H as ([] & H6%validateTargets_ok & H). apply bind_inr in H as ([] & H7%validateFDB_ok & H).
    apply bind_inr in H as ([] & H8%validateFederation_ok & H). apply bind_inr in H as ([] & H9%validate_output_ok & [= <- <-]).
    split; [|done]. split; try done. intros Hs. rewrite Hs in H4. by apply negb_false_iff, bool_decide_eq_true in H4.
  - intros ([H1 H2 H3 H4 H5 H6 H7 H8 H9] & -> & Ho).
    apply bind_inr. exists tt. split; [by apply validateListen_ok|]. apply bind_inr. exists tt. split; [by apply validate_discovery_ok|].
    apply bind_inr. exists tt. split; [by apply validateScope_ok|]. rewrite Ho. apply guard_inr. split.
    { destruct (mo_SNMPEnabled (c_Modules c)); [|done]. by apply negb_false_iff, bool_decide_eq_true, H4. }
    apply bind_inr. eexists. split; [by apply validateCredentials_ok|]. apply bind_inr. exists tt. split; [by apply validateTargets_ok|].
    apply bind_inr. exists tt. split; [by apply validateFDB_ok|]. apply bind_inr. exists tt. split; [by apply validateFederation_ok|].
    apply bind_inr. exists tt. split; [by apply validate_output_ok|done].
Qed.

(** *** Loading twice *)

Lemma or_Z_idem d z : or_Z d (or_Z d z) = or_Z d z.
Proof. unfold or_Z. destruct (z =? 0) eqn:Hz; [by destruct (d =? 0)|by rewrite Hz]. Qed.

Lemma or_string_idem d s : or_string d (or_string d s) = or_string d s.
Proof. unfold or_string. repeat case_bool_decide; congruence. Qed.

Lemma discovery_defaults_idem d : discovery_defaults (discovery_defaults d) = discovery_defaults d.
Proof.
  unfold discovery_defaults. cbn. rewrite !or_Z_idem. f_equal.
  - destruct (SFeqb (d_CycleBudgetFraction d) float_0) eqn:Hf; [done|by rewrite Hf].
  - by destruct (d_LivenessMaxStaleCycles d).
Qed.

Lemma profile_defaults_idem p : profile_defaults (profile_defaults p) = profile_defaults p.
Proof. unfold profile_defaults. cbn. by rewrite or_Z_idem. Qed.

Lemma federation_defaults_idem i f : federation_defaults i (federation_defaults i f) = federation_defaults i f.
Proof.
  unfold federation_defaults. cbn. rewrite !or_string_idem, !or_Z_idem. do 2 f_equal.
  unfold ha_defaults. destruct (ha_Enabled (h_HA (f_Hub f))) eqn:Hh; cbn; [|by rewrite Hh].
  by rewrite !or_string_idem, !or_Z_idem.
Qed.

Lemma output_defaults_idem o : output_defaults (output_defaults o) = output_defaults o.
Proof. unfold output_defaults. cbn. rewrite !or_string_idem, !or_Z_idem. by destruct (o_SampleRate o). Qed.

Lemma applyDefaults_idem c : applyDefaults (applyDefaults c) = applyDefaults c.
Proof.
  unfold applyDefaults. cbn [c_Listen c_Discovery c_Modules c_Credentials c_SnapshotPath c_Federation c_Output c_Targets].
  rewrite discovery_defaults_idem, federation_defaults_idem, output_defaults_idem. cbn. rewrite !or_string_idem, !or_Z_idem.
  f_equal; [f_equal|]; rewrite <- list_fmap_compose; apply list_fmap_ext; intros i x _; cbn.
  - apply profile_defaults_idem.
  - by rewrite or_Z_idem.
Qed.

Lemma norm_defaults c : applyDefaults (config_norm c) = config_norm (applyDefaults c).
Proof.
  unfold config_norm, applyDefaults, credentials_norm. cbn. do 2 f_equal. rewrite <- !list_fmap_compose.
  apply list_fmap_ext. intros i p _. cbn. unfold profile_norm, profile_defaults. cbn. by case_bool_decide.
Qed.

Lemma protocol_name_idem raw l :
  protocol_name raw ∈ l → Forall (λ s, protocol_name s = s) l → protocol_name (protocol_name raw) = protocol_name raw.
Proof. rewrite Forall_forall. auto. Qed.

Lemma profile_norm_ok p : profile_ok p → profile_ok (profile_norm p) ∧ profile_norm (profile_norm p) = profile_norm p.
Proof.
  intros [H1 H2 H3]. unfold profile_norm. destruct (bool_decide (p_Type p = ProfileTypeSNMPv3)) eqn:Ht; [|by rewrite Ht].
  cbn [p_Type p_Name p_CommunityEnv p_UsernameEnv p_AuthProtocol p_AuthKeyEnv p_PrivProtocol p_PrivKeyEnv p_Retries p_ContextName].
  rewrite Ht.
  apply bool_decide_eq_true in Ht. destruct H3 as [[H3 _]|(_ & Hu & Ha & Hp & Hka & Hkp)]; [by rewrite H3 in Ht|].
  assert (protocol_name (protocol_name (p_AuthProtocol p)) = protocol_name (p_AuthProtocol p)) as Ea.
  { eapply protocol_name_idem; [done|]. repeat constructor. }
  assert (protocol_name (protocol_name (p_PrivProtocol p)) = protocol_name (p_PrivProtocol p)) as Ep.
  { eapply protocol_name_idem; [done|]. repeat constructor. }
  rewrite Ea, Ep. split; [|done]. split; [done..|].
  cbn [p_Type p_Name p_CommunityEnv p_UsernameEnv p_AuthProtocol p_AuthKeyEnv p_PrivProtocol p_PrivKeyEnv]. rewrite Ea, Ep. auto 8.
Qed.

Lemma config_norm_ok c : config_ok c → config_ok (config_norm c) ∧ config_norm (config_norm c) = config_norm c.
Proof.
  intros [H1 H2 H3 H4 [Rt P U A F] H6 H7 H8 H9].
  assert (p_Name <$> (profile_norm <$> Profiles (c_Credentials c)) = p_Name <$> Profiles (c_Credentials c)) as Hn.
  { rewrite <- list_fmap_compose. apply list_fmap_ext. intros i p _. cbn. unfold profile_norm. by case_bool_decide. }
  split.
  - split; try done. cbn. split; cbn; rewrite ?Hn; try done.
    + apply Forall_fmap. eapply Forall_impl; [exact P|]. intros p Hp. by apply profile_norm_ok.
    + intros Hne. apply A. by destruct (Profiles (c_Credentials c)).
    + intros Hne. apply F. by destruct (Profiles (c_Credentials c)).
  - unfold config_norm, credentials_norm. cbn. do 2 f_equal. rewrite <- list_fmap_compose. apply list_fmap_ext.
    intros i p Hp%list_elem_of_lookup_2. rewrite Forall_forall in P. cbn. by apply profile_norm_ok, P.
Qed.
End Accepted.

(** What every user of an accepted configuration relies on. *)
Lemma loaded_ok `{ConfigEnv} `{NetText} `{MapRange} (c0 c : Config) (r : option (list targetOverride)) :
  Load c0 = inr (c, r) → config_ok c.
Proof. unfold Load. rewrite validate_exact. intros (Hok & -> & _). by apply config_norm_ok. Qed.

(** ** Claims *)

(** C21: what [Load] accepts, exactly: the decoded configuration with its defaults in
    place meets every condition of [config_ok], and its overrides resolve. The result is
    that configuration with the protocol names of its v3 profiles trimmed and in upper
    case, and nothing else changed. *)
Theorem load_exact `{ConfigEnv} `{NetText} `{MapRange} (c c' : Config) (r : option (list targetOverride)) :
  Load c = inr (c', r) ↔
  config_ok (applyDefaults c) ∧ c' = config_norm (applyDefaults c) ∧
  validateTargetOverrides IPNet_String (mo_toggles (c_Modules c)) (d_TargetOverrides (c_Discovery c)) = inr r.
Proof. exact (validate_exact (applyDefaults c) c' r). Qed.

(** loading is stable: a configuration that was accepted is accepted again as it is,
    with the same overrides, so a saved or re-validated configuration never drifts. *)
Theorem load_stable `{ConfigEnv} `{NetText} `{MapRange} (c c' : Config) (r : option (list targetOverride)) :
  Load c = inr (c', r) → Load c' = inr (c', r).
Proof.
  unfold Load. rewrite !validate_exact. intros (Hok & -> & Ho). rewrite norm_defaults, applyDefaults_idem.
  destruct (config_norm_ok _ Hok) as [Hok' ->]. done.
Qed.

Definition zero_discovery : DiscoveryConfig :=
  mkDiscovery 0 0 0 [] 0 float_0 0 0 0 0 [] (mkPoolConfig false 0) None.

Definition zero_federation : FederationSettings :=
  mkFederation "" 0 [] (mkHubConfig "" "" "" "" 0 0 false 0 (mkHA false "" "" 0 0 0 false)) (mkSpokeConfig "" "" "" "" "" "").

(** The struct an empty file decodes to. *)
Definition zero_config : Config :=
  mkConfig (mkListen "" "" "") zero_discovery
    (mkModuleOptions (mkModules false false false false false false false false) false "" "" 0 false)
    (mkCredentialsConfig [] [] [] 0) "" zero_federation (mkOutput false "" 0 0 "" false None false "") [].

Definition with_profiles (ps : list CredentialProfile) (c : Config) : Config :=
  mkConfig (c_Listen c) (c_Discovery c) (c_Modules c)
    (mkCredentialsConfig ps (Assignments (c_Credentials c)) (FallbackOrder (c_Credentials c)) (TrialRatePerSecond (c_Credentials c)))
    (c_SnapshotPath c) (c_Federation c) (c_Output c) (c_Targets c).

(** A system where no file exists and no URL parses. *)
Definition bare_env : ConfigEnv := Build_ConfigEnv (λ r, r) (λ _, None) (λ _, false) (λ _, "").

Definition sha_profile : CredentialProfile :=
  mkProfile "core" ProfileTypeSNMPv3 "" "SNMP_USER" " sha-256 " "SNMP_AUTH" "aes" "SNMP_PRIV" 0 "".

Lemma load_stable_witness :
  let c := with_profiles [sha_profile] zero_config in
  ∃ c' r, Load (E := bare_env) (N := go_net) (R := range_std) c = inr (c', r) ∧
    Load (E := bare_env) (N := go_net) (R := range_std) c' = inr (c', r) ∧
    (p_AuthProtocol <$> Profiles (c_Credentials c')) = ["SHA-256"].
Proof.
  intros c. destruct (Load (E := bare_env) (N := go_net) (R := range_std) c) as [e|[c' r]] eqn:Hl.
  - exfalso. revert Hl. vm_compute. discriminate.
  - exists c', r. split; [reflexivity|]. split; [exact (load_stable (H := bare_env) (H0 := go_net) (H1 := range_std) c c' r Hl)|].
    vm_compute in Hl. injection Hl as <- <-. reflexivity.
Defined.

Lemma recognised_protocols a p :
  a ∈ auth_protocols → p ∈ priv_protocols →
  authPrivMsgFlags (parseAuthProto a) (parsePrivProto p) =
  if bool_decide (a = "") then NoAuthNoPriv else if bool_decide (p = "") then AuthNoPriv else AuthPriv.
Proof.
  unfold auth_protocols, priv_protocols. rewrite !elem_of_cons, !elem_of_nil.
  intros Ha Hp. destruct_or! Ha; destruct_or! Hp; subst; reflexivity || done.
Qed.

(** C38: the security level of SNMPv3 sessions.  In an accepted configuration every protocol
    name of a v3 profile is one the transport knows, and the level of the sessions opened for
    the profile depends on which names are set: with no authentication protocol they are
    noAuthNoPriv, even if a privacy protocol is named, so that such a profile is sent in plain
    text; with authentication alone authNoPriv; with both authPriv.  A profile with an
    authentication protocol is never opened without it, nor one with both without privacy. *)
Theorem v3_security_level `{ConfigEnv} `{NetText} `{MapRange} (Getenv : string → string) (c c' : Config)
    (r : option (list targetOverride)) (p : CredentialProfile) (ip : list Z) (port timeout : Z) (h h' : heap) (prm : Params) :
  Load c = inr (c', r) → p ∈ Profiles (c_Credentials c') → p_Type p = ProfileTypeSNMPv3 →
  ProfileToParams Getenv ip port timeout p h = (h', inr prm) →
  let flags := g_MsgFlags (buildClient prm h') in
  p_AuthProtocol p ∈ auth_protocols ∧ p_PrivProtocol p ∈ priv_protocols ∧
  (flags = NoAuthNoPriv ↔ p_AuthProtocol p = "") ∧
  (flags = AuthNoPriv ↔ p_AuthProtocol p ≠ "" ∧ p_PrivProtocol p = "") ∧
  (flags = AuthPriv ↔ p_AuthProtocol p ≠ "" ∧ p_PrivProtocol p ≠ "").
Proof.
  unfold Load. rewrite validate_exact. intros (Hok & -> & _) Hin Ht Hp.
  destruct (config_norm_ok _ Hok) as [[_ _ _ _ [_ Hps _ _ _] _ _ _ _] Hnn]. rewrite Forall_forall in Hps.
  assert (p_AuthProtocol p ∈ auth_protocols ∧ p_PrivProtocol p ∈ priv_protocols) as [Ha Hq].
  { cbn in Hin. apply list_elem_of_fmap in Hin as (q & -> & Hq). destruct Hok as [_ _ _ _ [_ Hps' _ _ _] _ _ _ _].
    rewrite Forall_forall in Hps'. destruct (Hps' q Hq) as [_ _ Htype]. unfold profile_norm in *.
    destruct (bool_decide (p_Type q = ProfileTypeSNMPv3)) eqn:Hb; cbn [p_AuthProtocol p_PrivProtocol p_Type] in *.
    - destruct Htype as [[Hc _]|(_ & _ & ? & ? & _)]; [by rewrite Hc in Ht|done].
    - by rewrite bool_decide_eq_true_2 in Hb. }
  split; [done|]. split; [done|].
  assert (g_MsgFlags (buildClient prm h') = authPrivMsgFlags (parseAuthProto (p_AuthProtocol p)) (parsePrivProto (p_PrivProtocol p))) as ->;
    [|rewrite (recognised_protocols _ _ Ha Hq); repeat case_bool_decide; split_and!; split; naive_solver].
  unfold ProfileToParams in Hp.
  rewrite Ht, bool_decide_eq_false_2, bool_decide_eq_true_2 in Hp by done.
  case_bool_decide; [done|]. destruct (_ && _); [done|]. destruct (alloc _ h) as [h1 a]. destruct (_ && _); [done|].
  destruct (alloc _ h1) as [h2 k]. injection Hp as <- <-. reflexivity.
Qed.

Definition sample_getenv (v : string) : string := v.

Lemma v3_security_level_witness :
  ∃ c' r p h' prm, Load (E := bare_env) (N := go_net) (R := range_std) (with_profiles [sha_profile] zero_config) = inr (c', r) ∧
    p ∈ Profiles (c_Credentials c') ∧
    ProfileToParams sample_getenv [10; 0; 0; 1] 161 Second p [] = (h', inr prm) ∧
    g_MsgFlags (buildClient (H := go_net) prm h') = AuthPriv.
Proof.
  destruct (Load (E := bare_env) (N := go_net) (R := range_std) (with_profiles [sha_profile] zero_config)) as [e|[c' r]] eqn:Hl.
  - exfalso. revert Hl. vm_compute. discriminate.
  - destruct (Profiles (c_Credentials c')) as [|p ps] eqn:Hps; [exfalso; vm_compute in Hl; injection Hl as <- <-; discriminate Hps|].
    destruct (ProfileToParams sample_getenv [10; 0; 0; 1] 161 Second p []) as [h' [e|prm]] eqn:Hp.
    + exfalso. vm_compute in Hl. injection Hl as <- <-. injection Hps as <- _. vm_compute in Hp. discriminate Hp.
    + exists c', r, p, h', prm. assert (p ∈ Profiles (c_Credentials c')) as Hin by (rewrite Hps; left).
      assert (p_Type p = ProfileTypeSNMPv3 ∧ p_AuthProtocol p = "SHA-256" ∧ p_PrivProtocol p = "AES") as (Ht & Ha & Hq).
      { clear Hp Hin. vm_compute in Hl. injection Hl as <- _. injection Hps as <- _. split; [reflexivity|split; reflexivity]. }
      split; [reflexivity|]. split; [rewrite Hps; left|]. split; [exact Hp|].
      pose proof (v3_security_level (H := bare_env) (H0 := go_net) (H1 := range_std) sample_getenv _ _ _ p _ _ _ _ _ _ Hl Hin Ht Hp) as (_ & _ & _ & _ & Hf).
      apply Hf. rewrite Ha, Hq. split; discriminate.
Defined.

(** A v3 profile that asks for privacy alone. *)
Definition priv_only_profile : CredentialProfile :=
  mkProfile "edge" ProfileTypeSNMPv3 "" "SNMP_USER" "" "" "AES" "SNMP_PRIV" 0 "".

(** a v3 profile with a privacy protocol and key but no authentication protocol is
    accepted as it is, and its sessions are opened with neither: noAuthNoPriv. *)
Theorem priv_only_profile_is_plaintext `{ConfigEnv} `{NetText} `{MapRange} :
  ∃ c' p prm h', Load (with_profiles [priv_only_profile] zero_config) = inr (c', None) ∧
    Profiles (c_Credentials c') = [p] ∧ p_PrivProtocol p = "AES" ∧
    ProfileToParams sample_getenv [10; 0; 0; 1] 161 Second p [] = (h', inr prm) ∧
    g_MsgFlags (buildClient prm h') = NoAuthNoPriv.
Proof. do 4 eexists. split_and!; [reflexivity..|]. reflexivity. Qed.

(** An empty file loads; what it means is [applyDefaults]. *)
Example empty_file_loads `{ConfigEnv} `{NetText} `{MapRange} : Load zero_config = inr (applyDefaults zero_config, None).
Proof. reflexivity. Qed.

(** A fraction that is not a number passes the range check. *)
Example nan_budget_accepted :
  SFleb S754_nan float_0 || SFltb float_1 S754_nan = false ∧ SFeqb S754_nan float_0 = false.
Proof. split; reflexivity. Qed.

(** The keys of two different links can be the same string, and the second link is then
    reported as a duplicate of the first. *)
Example link_keys_collide :
  let a := mkIDL "r1" "et|0" "r2" "p" "" in
  let b := mkIDL "r1|et" "0" "r2" "p" "" in
  a ≠ b ∧ link_fwd a = link_fwd b ∧
  validate_links ∅ [a] = inr tt ∧ validate_links ∅ [b] = inr tt ∧
  validate_links ∅ [a; b] = inl "federation.known_inter_domain_links: duplicate".
Proof. split; [discriminate|]. vm_compute. split_and!; reflexivity. Qed.
