(* ===== verification/Yang.v ===== *)
(** * internal/output/yang: the topology as RFC 8345 YANG-JSON

    render.go, types.go, handler.go, and registerYANG of app/app.go.  json.Marshal is an
    argument; the document it is given is the model's result.  The search for a free
    link-id is bounded by the number of ids in use, and always ends with one. *)

From Stdlib Require Import ZArith Lia Ascii.
From S2P Require Import Prelude GoText Discovery.
Open Scope Z_scope.

(** ** The document (types.go) *)

(** Its termination points are their tp-ids; an empty string is an omitted field. *)
Record Node := mkNode {
  NodeID : string;
  TerminationPoint : list string;
  n_Vendor : string;
  n_Model : string;
  n_OSVersion : string;
  n_Site : string
}.

Record Link := mkLink {
  LinkID : string;
  SourceNode : string;
  SourceTP : string;
  DestNode : string;
  DestTP : string;
  DiscoveryProtocol : string;
  l_LinkKind : string;
  l_Confidence : string;
  l_Adjacency : string
}.

Record Network := mkNetwork {
  NetworkID : string;
  Nodes : list Node;
  Links : list Link
}.

Definition defaultNetworkID : string := "network-topology-exporter".

(** ** Render *)

Record nodeAcc := mkAcc { na_dev : option Device; na_tps : gmap string bool }.

Definition no_acc : nodeAcc := mkAcc None ∅.

(** [ensure(id)] for an id that is not empty. *)
Definition ensure (id : string) (nodes : gmap string nodeAcc) : gmap string nodeAcc :=
  match nodes !! id with Some _ => nodes | None => <[id := no_acc]> nodes end.

Definition acc_of (id : string) (nodes : gmap string nodeAcc) : nodeAcc := default no_acc (nodes !! id).

Definition add_device (nodes : gmap string nodeAcc) (d : Device) : gmap string nodeAcc :=
  if bool_decide (ID d = "") then nodes
  else <[ID d := mkAcc (Some d) (na_tps (acc_of (ID d) nodes))]> nodes.

(** One end of an edge: its node, and its termination point if it has a port. *)
Definition add_end (dev port : string) (nodes : gmap string nodeAcc) : gmap string nodeAcc :=
  if bool_decide (port = "") then ensure dev nodes
  else <[dev := mkAcc (na_dev (acc_of dev nodes)) (<[port := true]> (na_tps (acc_of dev nodes)))]> nodes.

Definition usable_edge (e : Edge) : bool :=
  negb (bool_decide (SrcDevice e = "") || bool_decide (DstDevice e = "")).

Definition add_edge (nodes : gmap string nodeAcc) (e : Edge) : gmap string nodeAcc :=
  if usable_edge e then add_end (DstDevice e) (DstPort e) (add_end (SrcDevice e) (SrcPort e) nodes) else nodes.

Definition node_accs (g : Graph) : gmap string nodeAcc :=
  fold_left add_edge (Edges g) (fold_left add_device (Devices g) ∅).

(** [for n := 2; used[id]; n++]. *)
Fixpoint free_id (fuel : nat) (used : gset string) (base proto : string) (n : Z) (id : string) : option string :=
  if bool_decide (id ∈ used) then
    match fuel with
    | O => None
    | S fuel' => free_id fuel' used base proto (n + 1) (base +:+ "#" +:+ proto +:+ "#" +:+ Itoa n)
    end
  else Some id.

Definition link_base (sn stp dn dtp : string) : string := sn +:+ ":" +:+ stp +:+ "-" +:+ dn +:+ ":" +:+ dtp.

Definition mkLinkID (used : gset string) (sn stp dn dtp proto : string) : option string :=
  let base := link_base sn stp dn dtp in
  let id := if bool_decide (base ∈ used) then base +:+ "#" +:+ proto else base in
  free_id (S (size used)) used base proto 2 id.

(** [addLink], from the source to the destination; [None] when no id was found. *)
Definition addLink (st : option (gset string * list Link)) (sn stp dn dtp : string) (e : Edge)
  : option (gset string * list Link) :=
  match st with
  | None => None
  | Some (used, links) =>
      match mkLinkID used sn stp dn dtp (DiscoveryProto e) with
      | None => None
      | Some id =>
          Some ({[ id ]} ∪ used,
                links ++ [mkLink id sn stp dn dtp (DiscoveryProto e) (LinkKind e) (Confidence e) (Adjacency e)])
      end
  end.

Definition add_links (st : option (gset string * list Link)) (e : Edge) : option (gset string * list Link) :=
  if usable_edge e then
    let st := addLink st (SrcDevice e) (SrcPort e) (DstDevice e) (DstPort e) e in
    if bool_decide (Direction e = DirectionBidirectional)
    then addLink st (DstDevice e) (DstPort e) (SrcDevice e) (SrcPort e) e
    else st
  else st.

Definition nul : string := String "000"%char "".

Definition yang_key (e : Edge) : string :=
  SrcDevice e +:+ nul +:+ SrcPort e +:+ nul +:+ DstDevice e +:+ nul +:+ DstPort e +:+ nul +:+ DiscoveryProto e.

Definition yang_le (a b : Edge) : bool := str_le (yang_key a) (yang_key b).

Section Render.
Context `{R : MapRange}.

Definition sorted_keys {V} (site : nat) (m : gmap string V) : list string := sort_by str_le (range_map site m).*1.

Definition out_node (nodes : gmap string nodeAcc) (id : string) : Node :=
  let acc := acc_of id nodes in
  let tps := sorted_keys 1 (na_tps acc) in
  match na_dev acc with
  | Some d => mkNode id tps (Vendor d) (Model d) (OSVersion d) (Site d)
  | None => mkNode id tps "" "" "" ""
  end.

Definition Render (g : Graph) (networkID : string) : option Network :=
  let nid := if bool_decide (networkID = "") then defaultNetworkID else networkID in
  let nodes := node_accs g in
  match fold_left add_links (sort_by yang_le (Edges g)) (Some (∅, [])) with
  | None => None
  | Some (_, links) => Some (mkNetwork nid (out_node nodes <$> sorted_keys 0 nodes) links)
  end.
End Render.

(** ** The endpoint (handler.go) *)

Inductive http_method := GET | HEAD | OtherMethod.

Record yang_response := mkYangResponse {
  yr_status : Z;
  yr_allow : string;
  yr_contentType : string;
  yr_length : Z;
  yr_body : string
}.

Definition http_error (status : Z) (allow : string) : yang_response := mkYangResponse status allow "text/plain" 0 "".

(** The rendering of the graph with this address. *)
Notation renderCache := (nat * string)%type.

Definition Handler (render : Graph → option string) (method : http_method) (ready : bool) (current : nat * Graph)
    (cache : option renderCache) : option renderCache * yang_response :=
  match method with
  | OtherMethod => (cache, http_error 405 "GET, HEAD")
  | _ =>
      if negb ready then (cache, http_error 503 "")
      else
        let '(ptr, g) := current in
        let fresh := match cache with Some (key, _) => negb (bool_decide (key = ptr)) | None => true end in
        let c := if fresh then (λ b, (ptr, b)) <$> render g else cache in
        match c with
        | None => (cache, http_error 500 "")
        | Some (key, bytes) =>
            (Some (key, bytes),
             mkYangResponse 200 "" "application/yang-data+json" (Z.of_nat (slen bytes))
               (match method with HEAD => "" | _ => bytes end))
        end
  end.

(** registerYANG: the route exists only when the output is enabled. *)
Definition registerYANG (enabled : bool) (render : Graph → option string) (method : http_method) (ready : bool)
    (current : nat * Graph) (cache : option renderCache) : option renderCache * yang_response :=
  if enabled then Handler render method ready current cache else (cache, http_error 404 "").

(** ** Link ids *)

Lemma free_id_free fuel used base proto n id r :
  free_id fuel used base proto n id = Some r → r ∉ used.
Proof.
  revert n id. induction fuel as [|fuel IH]; intros n id; cbn [free_id]; case_bool_decide; try done.
  - by intros [= <-].
  - apply IH.
  - by intros [= <-].
Qed.

Definition numbered (base proto : string) (n : Z) : string := base +:+ "#" +:+ proto +:+ "#" +:+ Itoa n.

Lemma app_inj_l (a b c : string) : a +:+ b = a +:+ c → b = c.
Proof. induction a as [|x a IH]; cbn; [done|]. intros [= H]. auto. Qed.

Lemma numbered_inj base proto n m : numbered base proto n = numbered base proto m → n = m.
Proof.
  unfold numbered, Itoa. intros H. do 4 apply app_inj_l in H. by apply (inj pretty) in H.
Qed.

(** If the search fails, all the ids it looked at are in use. *)
Lemma free_id_none fuel used base proto n id :
  free_id fuel used base proto n id = None →
  ∀ i, (i < fuel)%nat → numbered base proto (n + Z.of_nat i) ∈ used.
Proof.
  revert n id. induction fuel as [|fuel IH]; intros n id; cbn [free_id]; case_bool_decide as Hin; intros H i Hi; try done; try lia.
  destruct i as [|i].
  - replace (n + Z.of_nat 0) with n by lia. fold (numbered base proto n) in H.
    destruct fuel; cbn [free_id] in H; case_bool_decide; done.
  - specialize (IH _ _ H i ltac:(lia)). by replace (n + Z.of_nat (S i)) with (n + 1 + Z.of_nat i) by lia.
Qed.

(** More numbers than ids in use: one of them is free. *)
Lemma free_id_total used base proto n id :
  ∃ r, free_id (S (size used)) used base proto n id = Some r.
Proof.
  destruct (free_id _ _ _ _ _ _) as [r|] eqn:H; [by exists r|]. exfalso.
  pose proof (free_id_none _ _ _ _ _ _ H) as Hall.
  set (cands := (λ i, numbered base proto (n + Z.of_nat i)) <$> seq 0 (S (size used))).
  assert (NoDup cands) as Hnd.
  { apply NoDup_fmap_2; [|apply NoDup_seq]. intros i j Hij%numbered_inj. lia. }
  assert (size (list_to_set cands : gset string) ≤ size used)%nat as Hle.
  { apply subseteq_size. intros x (i & -> & Hi%elem_of_seq)%elem_of_list_to_set%list_elem_of_fmap. apply Hall. lia. }
  rewrite size_list_to_set in Hle by done. unfold cands in Hle. rewrite length_fmap, length_seq in Hle. lia.
Qed.

Lemma mkLinkID_total used sn stp dn dtp proto :
  ∃ id, mkLinkID used sn stp dn dtp proto = Some id ∧ id ∉ used.
Proof.
  destruct (free_id_total used (link_base sn stp dn dtp) proto 2
    (if bool_decide (link_base sn stp dn dtp ∈ used) then link_base sn stp dn dtp +:+ "#" +:+ proto else link_base sn stp dn dtp)) as [r Hr].
  exists r. split; [exact Hr|]. by eapply free_id_free.
Qed.

(** ** The nodes *)

Lemma fold_left_or {M A} (f : M → A → M) (P : M → Prop) (Q : A → Prop) l m :
  (∀ m x, P (f m x) ↔ P m ∨ Q x) → P (fold_left f l m) ↔ P m ∨ ∃ x, x ∈ l ∧ Q x.
Proof.
  intros H. revert m. induction l as [|x l IH]; intros m; cbn [fold_left].
  - split; [auto|]. intros [?|(x & ?%elem_of_nil & _)]; done.
  - rewrite IH, H. setoid_rewrite elem_of_cons. naive_solver.
Qed.

Definition declared (nodes : gmap string nodeAcc) (id : string) : Prop := is_Some (nodes !! id).
Definition has_tp (nodes : gmap string nodeAcc) (id port : string) : Prop := is_Some (na_tps (acc_of id nodes) !! port).

Lemma acc_of_insert id acc nodes : acc_of id (<[id := acc]> nodes) = acc.
Proof. unfold acc_of. by rewrite lookup_insert_eq. Qed.

Lemma acc_of_insert_ne id id' acc nodes : id ≠ id' → acc_of id (<[id' := acc]> nodes) = acc_of id nodes.
Proof. intros H. unfold acc_of. by rewrite lookup_insert_ne. Qed.

Lemma acc_of_ensure id id' nodes : acc_of id (ensure id' nodes) = acc_of id nodes.
Proof.
  unfold ensure. destruct (nodes !! id') eqn:H; [done|]. unfold acc_of. destruct (decide (id = id')) as [->|Hne].
  - by rewrite lookup_insert_eq, H.
  - by rewrite lookup_insert_ne.
Qed.

Lemma declared_insert id id' acc nodes : declared (<[id' := acc]> nodes) id ↔ declared nodes id ∨ id = id'.
Proof.
  unfold declared. destruct (decide (id = id')) as [->|Hne].
  - rewrite lookup_insert_eq. naive_solver.
  - rewrite lookup_insert_ne by done. naive_solver.
Qed.

Lemma add_end_declared dev port nodes id : declared (add_end dev port nodes) id ↔ declared nodes id ∨ id = dev.
Proof.
  unfold add_end. case_bool_decide; [|apply declared_insert]. unfold ensure. destruct (nodes !! dev) eqn:Hd; [|apply declared_insert].
  split; [auto|]. intros [?| ->]; [done|]. unfold declared. by rewrite Hd.
Qed.

Lemma add_end_tp dev port nodes id q :
  has_tp (add_end dev port nodes) id q ↔ has_tp nodes id q ∨ (id = dev ∧ q = port ∧ port ≠ "").
Proof.
  unfold add_end, has_tp. case_bool_decide as Hp; [rewrite acc_of_ensure; naive_solver|].
  destruct (decide (id = dev)) as [->|Hne]; [|rewrite acc_of_insert_ne by done; naive_solver].
  rewrite acc_of_insert. cbn. destruct (decide (q = port)) as [->|Hq].
  - rewrite lookup_insert_eq. naive_solver.
  - rewrite lookup_insert_ne by done. naive_solver.
Qed.

Lemma add_end_dev dev port nodes id : na_dev (acc_of id (add_end dev port nodes)) = na_dev (acc_of id nodes).
Proof.
  unfold add_end. case_bool_decide; [by rewrite acc_of_ensure|].
  destruct (decide (id = dev)) as [->|Hne]; [by rewrite acc_of_insert|by rewrite acc_of_insert_ne].
Qed.

Definition touches (id : string) (e : Edge) : Prop := usable_edge e = true ∧ (id = SrcDevice e ∨ id = DstDevice e).
Definition touches_port (id port : string) (e : Edge) : Prop :=
  usable_edge e = true ∧ port ≠ "" ∧ (id = SrcDevice e ∧ port = SrcPort e ∨ id = DstDevice e ∧ port = DstPort e).

Lemma node_accs_declared g id :
  declared (node_accs g) id ↔ (∃ d, d ∈ Devices g ∧ ID d = id ∧ id ≠ "") ∨ ∃ e, e ∈ Edges g ∧ touches id e.
Proof.
  unfold node_accs. rewrite (fold_left_or add_edge (λ m, declared m id) (touches id)).
  - rewrite (fold_left_or add_device (λ m, declared m id) (λ d, ID d = id ∧ id ≠ "")).
    + unfold declared at 1. rewrite lookup_empty. split; [|naive_solver]. intros [[[? [=]]|?]|?]; auto.
    + intros m d. unfold add_device. case_bool_decide as Hd; [|rewrite declared_insert]; naive_solver.
  - intros m e. unfold add_edge, touches. destruct (usable_edge e); [|naive_solver]. rewrite !add_end_declared. naive_solver.
Qed.

Lemma node_accs_tp g id port :
  has_tp (node_accs g) id port ↔ ∃ e, e ∈ Edges g ∧ touches_port id port e.
Proof.
  unfold node_accs. rewrite (fold_left_or add_edge (λ m, has_tp m id port) (touches_port id port)).
  - rewrite (fold_left_or add_device (λ m, has_tp m id port) (λ _, False)).
    + unfold has_tp at 1, acc_of. rewrite lookup_empty. cbn. rewrite lookup_empty. split; [|naive_solver].
      intros [[[? [=]]|(? & _ & [])]|?]. done.
    + intros m d. unfold add_device. case_bool_decide; [naive_solver|]. unfold has_tp. destruct (decide (id = ID d)) as [->|Hne].
      * rewrite acc_of_insert. cbn. naive_solver.
      * rewrite acc_of_insert_ne by done. naive_solver.
  - intros m e. unfold add_edge, touches_port. destruct (usable_edge e); [|naive_solver]. rewrite !add_end_tp. naive_solver.
Qed.

(** The device of a node is the last one listed with its id. *)
Definition last_device (ds : list Device) (id : string) : option Device := last (filter (λ d, ID d = id ∧ id ≠ "") ds).

Lemma node_accs_dev g id : na_dev (acc_of id (node_accs g)) = last_device (Devices g) id.
Proof.
  unfold node_accs. assert (∀ es m, na_dev (acc_of id (fold_left add_edge es m)) = na_dev (acc_of id m)) as ->.
  { induction es as [|e es IH]; intros m; cbn [fold_left]; [done|]. rewrite IH. unfold add_edge.
    destruct (usable_edge e); [|done]. by rewrite !add_end_dev. }
  assert (∀ ds m, na_dev (acc_of id (fold_left add_device ds m)) =
    match last_device ds id with Some d => Some d | None => na_dev (acc_of id m) end) as ->.
  { unfold last_device. induction ds as [|d ds IH]; intros m; cbn [fold_left]; [done|]. rewrite IH, filter_cons.
    destruct (decide (ID d = id ∧ id ≠ "")) as [[Hd Hid]|Hn].
    - rewrite last_cons. destruct (last (filter _ ds)); [done|]. unfold add_device. rewrite bool_decide_eq_false_2 by congruence.
      rewrite <- Hd, acc_of_insert. done.
    - destruct (last (filter _ ds)); [done|]. unfold add_device. case_bool_decide as He; [done|].
      rewrite acc_of_insert_ne; [done|]. intros ->. auto. }
  unfold acc_of. rewrite lookup_empty. by destruct (last_device (Devices g) id).
Qed.

(** ** The links *)

(** A link without its id. *)
Definition link_content (l : Link) : string * string * string * string * (string * string * string * string) :=
  (SourceNode l, SourceTP l, DestNode l, DestTP l, (DiscoveryProtocol l, l_LinkKind l, l_Confidence l, l_Adjacency l)).

(** The links of an edge: one, or one each way when it is bidirectional. *)
Definition edge_links (e : Edge) : list (string * string * string * string * (string * string * string * string)) :=
  let a := (DiscoveryProto e, LinkKind e, Confidence e, Adjacency e) in
  if usable_edge e then
    (SrcDevice e, SrcPort e, DstDevice e, DstPort e, a) ::
    (if bool_decide (Direction e = DirectionBidirectional)
     then [(DstDevice e, DstPort e, SrcDevice e, SrcPort e, a)] else [])
  else [].

Definition links_so_far (contents : list (string * string * string * string * (string * string * string * string)))
    (st : option (gset string * list Link)) : Prop :=
  ∃ used links, st = Some (used, links) ∧ used = list_to_set (LinkID <$> links) ∧ NoDup (LinkID <$> links) ∧
    link_content <$> links = contents.

Lemma addLink_adds contents st sn stp dn dtp e :
  links_so_far contents st →
  links_so_far (contents ++ [(sn, stp, dn, dtp, (DiscoveryProto e, LinkKind e, Confidence e, Adjacency e))])
    (addLink st sn stp dn dtp e).
Proof.
  intros (used & links & -> & Hu & Hnd & <-). cbn [addLink].
  destruct (mkLinkID_total used sn stp dn dtp (DiscoveryProto e)) as (id & -> & Hid).
  eexists _, _. split; [done|]. rewrite !fmap_app. cbn [fmap list_fmap LinkID]. split_and!; [|..|done].
  - rewrite list_to_set_app_L, Hu. cbn. set_solver.
  - apply NoDup_app. split_and!; [done| |apply NoDup_singleton]. intros x Hx ->%list_elem_of_singleton. set_solver.
Qed.

Lemma add_links_adds contents st e :
  links_so_far contents st → links_so_far (contents ++ edge_links e) (add_links st e).
Proof.
  intros H. unfold add_links, edge_links. destruct (usable_edge e); [|by rewrite app_nil_r].
  apply (addLink_adds _ _ (SrcDevice e) (SrcPort e) (DstDevice e) (DstPort e) e) in H. case_bool_decide; [|done].
  apply (addLink_adds _ _ (DstDevice e) (DstPort e) (SrcDevice e) (SrcPort e) e) in H. by rewrite <- app_assoc in H.
Qed.

Lemma links_total es :
  links_so_far (es ≫= edge_links) (fold_left add_links es (Some (∅, []))).
Proof.
  apply (fold_left_prefix_inv (λ pre st, links_so_far (pre ≫= edge_links) st)).
  - exists ∅, []. cbn. split_and!; [done..|constructor|done].
  - intros pre e st H. rewrite bind_app. cbn. rewrite app_nil_r. by apply add_links_adds.
Qed.

Section Facts.
Context `{R : MapRange}.

Lemma sorted_keys_perm {V} site (m : gmap string V) : sorted_keys site m ≡ₚ (map_to_list m).*1.
Proof. unfold sorted_keys. by rewrite sort_by_Permutation, range_map_perm. Qed.

Lemma elem_of_sorted_keys {V} site (m : gmap string V) k : k ∈ sorted_keys site m ↔ is_Some (m !! k).
Proof.
  rewrite sorted_keys_perm, list_elem_of_fmap. split.
  - intros ([k' v] & -> & Hk%elem_of_map_to_list). by exists v.
  - intros [v Hv]. exists (k, v). by rewrite elem_of_map_to_list.
Qed.

Lemma sorted_keys_NoDup {V} site (m : gmap string V) : NoDup (sorted_keys site m).
Proof. rewrite sorted_keys_perm. apply NoDup_fst_map_to_list. Qed.

Lemma out_node_id nodes id : NodeID (out_node nodes id) = id.
Proof. unfold out_node. by destruct (na_dev _). Qed.

Lemma out_node_tps nodes id : TerminationPoint (out_node nodes id) = sorted_keys 1 (na_tps (acc_of id nodes)).
Proof. unfold out_node. by destruct (na_dev _). Qed.

Lemma Render_some g nid :
  ∃ links, Render g nid = Some (mkNetwork (if bool_decide (nid = "") then defaultNetworkID else nid)
      (out_node (node_accs g) <$> sorted_keys 0 (node_accs g)) links) ∧
    NoDup (LinkID <$> links) ∧ link_content <$> links = sort_by yang_le (Edges g) ≫= edge_links.
Proof.
  unfold Render. destruct (links_total (sort_by yang_le (Edges g))) as (used & links & -> & _ & Hnd & Hc). eauto.
Qed.

(** An end of a link is declared, with its termination point if it names one. *)
Definition end_declared (nw : Network) (node tp : string) : Prop :=
  ∃ n, n ∈ Nodes nw ∧ NodeID n = node ∧ (tp = "" ∨ tp ∈ TerminationPoint n).

Lemma nodes_end g nid links node tp :
  (∃ e, e ∈ Edges g ∧ touches node e) → (tp = "" ∨ ∃ e, e ∈ Edges g ∧ touches_port node tp e) →
  end_declared (mkNetwork nid (out_node (node_accs g) <$> sorted_keys 0 (node_accs g)) links) node tp.
Proof.
  intros Hn Ht. exists (out_node (node_accs g) node). cbn [Nodes]. split_and!.
  - apply list_elem_of_fmap. exists node. split; [done|]. apply elem_of_sorted_keys. apply node_accs_declared. auto.
  - apply out_node_id.
  - destruct Ht as [?|Ht]; [by left|right]. rewrite out_node_tps. apply elem_of_sorted_keys. by apply node_accs_tp.
Qed.

Lemma edge_links_in e c :
  c ∈ edge_links e → usable_edge e = true ∧
  (c.1.1.1 = (SrcDevice e, SrcPort e) ∧ (c.1.1.2, c.1.2) = (DstDevice e, DstPort e) ∨
   c.1.1.1 = (DstDevice e, DstPort e) ∧ (c.1.1.2, c.1.2) = (SrcDevice e, SrcPort e)).
Proof.
  unfold edge_links. destruct (usable_edge e); [|by intros ?%elem_of_nil]. intros [->|H]%elem_of_cons; [auto|].
  case_bool_decide; [|by apply elem_of_nil in H]. apply list_elem_of_singleton in H as ->. auto.
Qed.
End Facts.

(** ** Properties *)

(** C26: the YANG document has the integrity RFC 8345 asks for, which its consumers do not
    check. Rendering always succeeds. Node ids, the termination points of a node and
    link ids are unique; both ends of every link are declared nodes with the
    termination points the link names. The nodes are exactly the devices with an id and
    the endpoints of usable edges, with the inventory of the last device listed; the
    links are, in the order of their keys, the usable edges, each way when
    bidirectional, and nothing is lost to a clash of ids. *)
Theorem yang_integrity `{MapRange} (g : Graph) (networkID : string) :
  ∃ nw, Render g networkID = Some nw ∧
    (NoDup (NodeID <$> Nodes nw) ∧ (∀ n, n ∈ Nodes nw → NoDup (TerminationPoint n)) ∧ NoDup (LinkID <$> Links nw)) ∧
    (∀ l, l ∈ Links nw → end_declared nw (SourceNode l) (SourceTP l) ∧ end_declared nw (DestNode l) (DestTP l)) ∧
    (∀ id, id ∈ NodeID <$> Nodes nw ↔
       (∃ d, d ∈ Devices g ∧ ID d = id ∧ id ≠ "") ∨ ∃ e, e ∈ Edges g ∧ touches id e) ∧
    (∀ n, n ∈ Nodes nw →
       (n_Vendor n, n_Model n, n_OSVersion n, n_Site n) =
       match last_device (Devices g) (NodeID n) with
       | Some d => (Vendor d, Model d, OSVersion d, Site d)
       | None => ("", "", "", "")
       end) ∧
    link_content <$> Links nw = sort_by yang_le (Edges g) ≫= edge_links.
Proof.
  destruct (Render_some g networkID) as (links & -> & Hnd & Hc). eexists. split; [done|]. cbn [Nodes Links].
  assert (NodeID <$> (out_node (node_accs g) <$> sorted_keys 0 (node_accs g)) = sorted_keys 0 (node_accs g)) as Hids.
  { rewrite <- list_fmap_compose. rewrite <- (list_fmap_id (sorted_keys 0 (node_accs g))) at 2. apply list_fmap_ext.
    intros i id _. apply out_node_id. }
  split_and!; try done.
  - rewrite Hids. apply sorted_keys_NoDup.
  - intros n (id & -> & _)%list_elem_of_fmap. rewrite out_node_tps. apply sorted_keys_NoDup.
  - intros l Hl. assert (link_content l ∈ sort_by yang_le (Edges g) ≫= edge_links) as Hin.
    { rewrite <- Hc. by apply list_elem_of_fmap_2. }
    apply list_elem_of_bind in Hin as (e & Hin & He%elem_of_sort_by). apply edge_links_in in Hin as [Hu Hends]. cbn in Hends.
    assert (∀ node tp, node = SrcDevice e ∧ tp = SrcPort e ∨ node = DstDevice e ∧ tp = DstPort e →
      end_declared (mkNetwork (if bool_decide (networkID = "") then defaultNetworkID else networkID)
        (out_node (node_accs g) <$> sorted_keys 0 (node_accs g)) links) node tp) as Hend.
    { intros node tp Hnt. apply nodes_end.
      - exists e. split; [done|]. split; [done|]. tauto.
      - destruct (decide (tp = "")); [by left|right]. exists e. split; [done|]. split; [done|]. split; [done|]. tauto. }
    split; apply Hend; destruct Hends as [[[= H1 H2] [= H3 H4]]|[[= H1 H2] [= H3 H4]]]; auto.
  - intros id. rewrite Hids, elem_of_sorted_keys. apply node_accs_declared.
  - intros n (id & -> & _)%list_elem_of_fmap. rewrite out_node_id, <- node_accs_dev. unfold out_node. by destruct (na_dev _).
Qed.

(** the search for a free link-id ends. However many ids are in use and however they
    clash, including ids that look like numbered ones, the loop finds one that is free
    within as many steps as there are ids in use and one more. *)
Theorem link_id_search_ends (used : gset string) (sn stp dn dtp proto : string) :
  ∃ id, mkLinkID used sn stp dn dtp proto = Some id ∧ id ∉ used.
Proof. apply mkLinkID_total. Qed.

Lemma sorted_keys_range (R1 R2 : MapRange) {V} site (m : gmap string V) :
  @sorted_keys R1 V site m = @sorted_keys R2 V site m.
Proof.
  unfold sorted_keys. apply (sort_by_unique str_le str_le_trans str_le_total).
  - by rewrite !range_map_perm.
  - intros x y _ _. apply str_le_antisym.
Qed.

(** Every entry of a set of termination points is true. *)
Definition tps_true (nodes : gmap string nodeAcc) : Prop :=
  ∀ id p b, na_tps (acc_of id nodes) !! p = Some b → b = true.

Lemma add_end_true dev port nodes : tps_true nodes → tps_true (add_end dev port nodes).
Proof.
  intros H id p b. unfold add_end. case_bool_decide; [rewrite acc_of_ensure; apply H|].
  destruct (decide (id = dev)) as [->|Hne]; [|rewrite acc_of_insert_ne by done; apply H].
  rewrite acc_of_insert. cbn. rewrite lookup_insert_Some. intros [[_ <-]|[_ Hb]]; [done|by eapply H].
Qed.

Lemma node_accs_true g : tps_true (node_accs g).
Proof.
  unfold node_accs. apply fold_left_inv.
  - apply fold_left_inv.
    + intros id p b. unfold acc_of. by rewrite lookup_empty.
    + intros m d _ H id p b. unfold add_device. case_bool_decide; [apply H|].
      destruct (decide (id = ID d)) as [->|Hne]; [rewrite acc_of_insert|rewrite acc_of_insert_ne by done]; apply H.
  - intros m e _ H. unfold add_edge. destruct (usable_edge e); [|done]. by do 2 apply add_end_true.
Qed.

(** The nodes depend on the set of edges only. *)
Lemma node_accs_edges g1 g2 :
  Devices g1 = Devices g2 → (∀ e, e ∈ Edges g1 ↔ e ∈ Edges g2) → node_accs g1 = node_accs g2.
Proof.
  intros Hd He. apply map_eq. intros id.
  assert (acc_of id (node_accs g1) = acc_of id (node_accs g2)) as Hacc.
  { pose proof (node_accs_dev g1 id) as H1. pose proof (node_accs_dev g2 id) as H2. rewrite Hd, <- H2 in H1.
    assert (na_tps (acc_of id (node_accs g1)) = na_tps (acc_of id (node_accs g2))) as Ht.
    { apply map_eq. intros p. pose proof (node_accs_tp g1 id p) as T1. pose proof (node_accs_tp g2 id p) as T2.
      unfold has_tp in T1, T2. setoid_rewrite He in T1. rewrite <- T2 in T1.
      destruct (na_tps (acc_of id (node_accs g1)) !! p) as [b1|] eqn:E1, (na_tps (acc_of id (node_accs g2)) !! p) as [b2|] eqn:E2.
      - apply node_accs_true in E1, E2. by subst.
      - destruct T1 as [T1 _]. by destruct T1 as [? ?].
      - destruct T1 as [_ T1]. by destruct T1 as [? ?].
      - done. }
    destruct (acc_of id (node_accs g1)), (acc_of id (node_accs g2)). cbn in *. by subst. }
  assert (declared (node_accs g1) id ↔ declared (node_accs g2) id) as Hdec.
  { rewrite !node_accs_declared, Hd. by setoid_rewrite He. }
  unfold declared, acc_of in *. destruct (node_accs g1 !! id), (node_accs g2 !! id); cbn in *; [by subst| | |done].
  - destruct Hdec as [Hdec _]. by destruct Hdec as [? ?].
  - destruct Hdec as [_ Hdec]. by destruct Hdec as [? ?].
Qed.

(** rendering is deterministic. The document depends neither on the iteration order
    of the maps nor, as long as no two edges agree in endpoints and protocol, on the
    order of the edges. *)
Theorem yang_deterministic (R1 R2 : MapRange) (g1 g2 : Graph) (networkID : string) :
  Devices g1 = Devices g2 → Edges g1 ≡ₚ Edges g2 → NoDup (yang_key <$> Edges g1) →
  @Render R1 g1 networkID = @Render R2 g2 networkID.
Proof.
  intros Hd He Hk.
  assert (sort_by yang_le (Edges g1) = sort_by yang_le (Edges g2)) as Hs.
  { apply (sort_by_unique yang_le).
    - intros x y z. apply str_le_trans.
    - intros x y. apply str_le_total.
    - done.
    - intros x y Hx Hy H1 H2. pose proof (str_le_antisym _ _ H1 H2) as Hxy.
      apply list_elem_of_lookup in Hx as [i Hi]. apply list_elem_of_lookup in Hy as [j Hj].
      assert (i = j) as ->.
      { eapply (NoDup_lookup (yang_key <$> Edges g1)); [done|rewrite list_lookup_fmap, Hi; done|rewrite list_lookup_fmap, Hj; cbn; congruence]. }
      congruence. }
  assert (node_accs g1 = node_accs g2) as Hn.
  { apply node_accs_edges; [done|]. intros e. by rewrite He. }
  unfold Render. rewrite Hs, Hn. destruct (fold_left add_links _ _) as [[used links]|]; [|done]. do 2 f_equal.
  rewrite (sorted_keys_range R1 R2). apply list_fmap_ext. intros i id _. unfold out_node.
  by rewrite (sorted_keys_range R1 R2).
Qed.

(** ** The endpoint over time *)

(** The graphs published so far, the address of the current one its position; a request
    comes between two publications. *)
Inductive yang_action :=
  | Update (g : Graph)
  | Request (method : http_method) (ready : bool).

Record yang_world := mkYangWorld {
  yw_graphs : list Graph;
  yw_cache : option renderCache;
  yw_responses : list (http_method * bool * nat * yang_response)
}.

(** The collector starts with an empty graph. *)
Definition yang_init : yang_world := mkYangWorld [mkGraph [] [] []] None [].

Definition yang_current (w : yang_world) : nat * Graph :=
  let i := (length (yw_graphs w) - 1)%nat in (i, default (mkGraph [] [] []) (yw_graphs w !! i)).

Definition yang_step (render : Graph → option string) (w : yang_world) (a : yang_action) : yang_world :=
  match a with
  | Update g => mkYangWorld (yw_graphs w ++ [g]) (yw_cache w) (yw_responses w)
  | Request method ready =>
      let '(cache, r) := Handler render method ready (yang_current w) (yw_cache w) in
      mkYangWorld (yw_graphs w) cache (yw_responses w ++ [(method, ready, (yang_current w).1, r)])
  end.

(** What the request should be answered when [g] is current. *)
Definition yang_answer (render : Graph → option string) (method : http_method) (ready : bool) (g : Graph) : yang_response :=
  match method with
  | OtherMethod => http_error 405 "GET, HEAD"
  | _ => if negb ready then http_error 503 ""
         else match render g with
              | None => http_error 500 ""
              | Some bytes => mkYangResponse 200 "" "application/yang-data+json" (Z.of_nat (slen bytes))
                                (match method with HEAD => "" | _ => bytes end)
              end
  end.

Record yang_inv (render : Graph → option string) (w : yang_world) : Prop := {
  yi_some : yw_graphs w ≠ [];
  yi_cache : ∀ i b, yw_cache w = Some (i, b) → ∃ g, yw_graphs w !! i = Some g ∧ render g = Some b;
  yi_answers : ∀ m ready i r, (m, ready, i, r) ∈ yw_responses w →
    ∃ g, yw_graphs w !! i = Some g ∧ r = yang_answer render m ready g
}.

Lemma yang_current_lookup w : yw_graphs w ≠ [] → yw_graphs w !! (yang_current w).1 = Some (yang_current w).2.
Proof.
  intros H. unfold yang_current. cbn. destruct (yw_graphs w !! (length (yw_graphs w) - 1)%nat) eqn:E; [done|].
  apply lookup_ge_None in E. destruct (yw_graphs w); [done|]. cbn in E. lia.
Qed.

Lemma Handler_answers render m ready ptr g cache :
  (∀ i b, cache = Some (i, b) → i = ptr → render g = Some b) →
  let '(cache', r) := Handler render m ready (ptr, g) cache in
  r = yang_answer render m ready g ∧ (cache' = cache ∨ ∃ b, cache' = Some (ptr, b) ∧ render g = Some b).
Proof.
  intros Hc.
  assert ((if match cache with Some (key, _) => negb (bool_decide (key = ptr)) | None => true end
           then (λ b, (ptr, b)) <$> render g else cache) = (λ b, (ptr, b)) <$> render g) as E.
  { destruct cache as [[i b]|]; [|done]. case_bool_decide as Hi; cbn; [|done]. subst i. by rewrite (Hc ptr b eq_refl eq_refl). }
  unfold Handler, yang_answer. destruct m; [..|split; [done|by left]]; (destruct ready; cbn [negb]; [|split; [done|by left]]).
  all: rewrite E; destruct (render g) as [b|]; cbn; (split; [done|]); [right; by exists b|by left].
Qed.

Lemma yang_step_inv render w a : yang_inv render w → yang_inv render (yang_step render w a).
Proof.
  intros [Hs Hc Ha]. destruct a as [g|m ready]; cbn [yang_step].
  - split; cbn.
    + by destruct (yw_graphs w).
    + intros i b (g' & Hg & Hr)%Hc. exists g'. split; [by apply lookup_app_l_Some|done].
    + intros m ready i r (g' & Hg & Hr)%Ha. exists g'. split; [by apply lookup_app_l_Some|done].
  - pose proof (yang_current_lookup w Hs) as Hcur. destruct (yang_current w) as [ptr g] eqn:Ew. cbn in Hcur.
    pose proof (Handler_answers render m ready ptr g (yw_cache w)) as Hh.
    destruct (Handler render m ready (ptr, g) (yw_cache w)) as [cache' r].
    destruct Hh as [Hr Hcache]; [intros i b Hib ->; destruct (Hc _ _ Hib) as (g' & Hg & ?); congruence|].
    split; cbn; [done| |].
    + destruct Hcache as [->|(b & -> & Hb)]; [done|]. intros i b' [= <- <-]. by exists g.
    + intros m' ready' i r' [Hin|Heq]%elem_of_app; [by apply Ha|].
      apply list_elem_of_singleton in Heq as [= -> -> -> ->]. by exists g.
Qed.

(** the endpoint never serves a stale document. In every history of publications and
    requests, a request is answered as if the graph current at that moment had been
    rendered for it, although renderings are cached: 405 for other methods, 503 until
    ready, the headers alone for HEAD. *)
Theorem yang_endpoint_fresh (render : Graph → option string) (acts : list yang_action) :
  let w := fold_left (yang_step render) acts yang_init in
  ∀ m ready i r, (m, ready, i, r) ∈ yw_responses w →
    ∃ g, yw_graphs w !! i = Some g ∧ r = yang_answer render m ready g.
Proof.
  intros w. assert (yang_inv render w) as [_ _ H]; [|exact H].
  apply fold_left_inv.
  - split; cbn; [done..|]. by intros m ready i r ?%elem_of_nil.
  - intros w' a _. apply yang_step_inv.
Qed.

(** ** Examples *)

Definition sample_edge (sp dp proto : string) : Edge :=
  mkEdge "r1" sp "r2" dp proto DirectionBidirectional ConfidenceHigh AdjacencyDirect 2 LinkKindEthernet 0 ∅.

Definition sample_graph : Graph :=
  mkGraph [mkDevice "r1" "cisco" "" "15.2" "" 0 ∅] [sample_edge "e0" "e1" "lldp"; sample_edge "e0" "e1" "cdp"] [].

(** Two protocols for one pair of ports: the ids of the second are made distinct. *)
Example parallel_links :
  (λ nw, LinkID <$> Links nw) <$> Render (R := range_std) sample_graph "" =
  Some ["r1:e0-r2:e1"; "r2:e1-r1:e0"; "r1:e0-r2:e1#lldp"; "r2:e1-r1:e0#lldp"].
Proof. vm_compute. reflexivity. Qed.

Lemma yang_deterministic_witness :
  @Render range_std sample_graph "" =
  @Render range_std (mkGraph (Devices sample_graph) [sample_edge "e0" "e1" "cdp"; sample_edge "e0" "e1" "lldp"] []) "".
Proof.
  apply (yang_deterministic range_std range_std).
  - reflexivity.
  - apply Permutation_swap.
  - apply NoDup_cons. split; [|apply NoDup_singleton]. intros H%list_elem_of_singleton. vm_compute in H. discriminate H.
Defined.
