(* ===== verification/SnapshotWriter.v ===== *)
(** * The snapshot writer goroutines

    runSnapshotWriter and writeSnapshot of federation/hub_snapshot.go, and the writer
    that RunDiscoveryLoop of app/loop.go starts.  Both take files from a channel of
    capacity one and write each in a goroutine of its own, which may stall; the steps
    below are their critical points, in any interleaving with the stalled writes, the
    producers, the timers and the shutdown. *)

From Stdlib Require Import ZArith Lia.
From S2P Require Import Prelude Discovery Snapshot.


(** ** What the hub persists *)

(** [writeSnapshot]: the file of a graph. *)
Definition hub_snapshot_file (leaseEpoch : Z) (g : Graph) : File :=
  mkFile 0%Z 0%Z (Devices g) (Edges g) [] ∅ ∅ "" leaseEpoch.

(** What app.go restores from a file when the hub starts. *)
Definition hub_restored (f : File) : Graph := mkGraph (sf_Devices f) (sf_Edges f) (sf_OutOfScope f).

(** ** The writers *)

Inductive writer_kind := HubWriter | LoopWriter.

Inductive write_outcome := WriteOk | WriteErr | WritePanic.

(** Waiting for a message; for the write just started; for it during the shutdown. *)
Inductive writer_phase := Idle | Waiting | Grace | Exited.

Section Writer.
Context {A : Type}.

(** A write is known by a number. [sw_done] is the write whose channel [writeDone] is;
    [sw_signal] has the writes whose channel was closed or holds a result, with
    that result. What was offered and what reached the disk is recorded. *)
Record writer := mkWriter {
  sw_queue : list A;
  sw_closed : bool;
  sw_phase : writer_phase;
  sw_done : option nat;
  sw_running : gmap nat A;
  sw_signal : gmap nat bool;
  sw_next : nat;
  sw_offered : list A;
  sw_written : list A;
  sw_failed : nat;
  sw_panics : nat;
  sw_queue_full : nat;
  sw_in_flight : nat;
  sw_stamps : nat
}.

Definition writer_init : writer := mkWriter [] false Idle None ∅ ∅ 0 [] [] 0 0 0 0 0.

Inductive writer_action :=
  | Offer (f : A)
  | Take
  | Finish (i : nat) (out : write_outcome)
  | Observe
  | Timeout
  | Stop
  | Drained.

(** [writeSnapshotAsync], and the end of publish. *)
Definition offer (f : A) (s : writer) : writer :=
  match sw_queue s with
  | [] => mkWriter [f] (sw_closed s) (sw_phase s) (sw_done s) (sw_running s) (sw_signal s) (sw_next s)
            (sw_offered s ++ [f]) (sw_written s) (sw_failed s) (sw_panics s) (sw_queue_full s) (sw_in_flight s) (sw_stamps s)
  | q => mkWriter q (sw_closed s) (sw_phase s) (sw_done s) (sw_running s) (sw_signal s) (sw_next s)
           (sw_offered s ++ [f]) (sw_written s) (sw_failed s) (sw_panics s) (S (sw_queue_full s)) (sw_in_flight s) (sw_stamps s)
  end.

Definition start_write (f : A) (q : list A) (stamps : nat) (s : writer) : writer :=
  mkWriter q (sw_closed s) Waiting (Some (sw_next s)) (<[sw_next s := f]> (sw_running s)) (sw_signal s) (S (sw_next s))
    (sw_offered s) (sw_written s) (sw_failed s) (sw_panics s) (sw_queue_full s) (sw_in_flight s) (sw_stamps s + stamps)%nat.

(** A message is taken: a write that timed out earlier is collected, or is still in
    flight and the message is dropped. *)
Definition take (k : writer_kind) (f : A) (q : list A) (s : writer) : writer :=
  match sw_done s with
  | None => start_write f q 0 s
  | Some i =>
      match (sw_signal s !! i : option bool) with
      | Some ok => start_write f q (match k with LoopWriter => if ok then 1 else 0 | HubWriter => 0 end)%nat s
      | None => mkWriter q (sw_closed s) (sw_phase s) (sw_done s) (sw_running s) (sw_signal s) (sw_next s)
                  (sw_offered s) (sw_written s) (sw_failed s) (sw_panics s) (sw_queue_full s) (S (sw_in_flight s)) (sw_stamps s)
      end
  end.

(** A write goroutine ends. The hub's closes its channel in any case; the loop's sends
    its result, and nothing if it panicked. *)
Definition finish (k : writer_kind) (i : nat) (f : A) (out : write_outcome) (s : writer) : writer :=
  let signal :=
    match out, k with
    | WriteOk, _ => <[i := true]> (sw_signal s)
    | WriteErr, _ => <[i := false]> (sw_signal s)
    | WritePanic, HubWriter => <[i := false]> (sw_signal s)
    | WritePanic, LoopWriter => sw_signal s
    end in
  mkWriter (sw_queue s) (sw_closed s) (sw_phase s) (sw_done s) (delete i (sw_running s)) signal (sw_next s) (sw_offered s)
    (match out with WriteOk => sw_written s ++ [f] | _ => sw_written s end)
    (match out with WriteErr => S (sw_failed s) | _ => sw_failed s end)
    (match out with WritePanic => S (sw_panics s) | _ => sw_panics s end)
    (sw_queue_full s) (sw_in_flight s)
    (match out, k with WriteOk, HubWriter => S (sw_stamps s) | _, _ => sw_stamps s end).

Definition set_phase (ph : writer_phase) (s : writer) : writer :=
  mkWriter (sw_queue s) (sw_closed s) ph (sw_done s) (sw_running s) (sw_signal s) (sw_next s) (sw_offered s)
    (sw_written s) (sw_failed s) (sw_panics s) (sw_queue_full s) (sw_in_flight s) (sw_stamps s).

(** The result of the write arrives; only the loop forgets the channel. *)
Definition observe (k : writer_kind) (ok : bool) (ph : writer_phase) (s : writer) : writer :=
  match k with
  | HubWriter => set_phase ph s
  | LoopWriter =>
      mkWriter (sw_queue s) (sw_closed s) ph None (sw_running s) (sw_signal s) (sw_next s) (sw_offered s)
        (sw_written s) (sw_failed s) (sw_panics s) (sw_queue_full s) (sw_in_flight s)
        (sw_stamps s + (if ok then 1 else 0))%nat
  end.

Definition step (k : writer_kind) (s : writer) (a : writer_action) : writer :=
  match a with
  | Offer f => if sw_closed s then s else offer f s
  | Take =>
      match sw_phase s, sw_queue s with
      | Idle, f :: q => take k f q s
      | _, _ => s
      end
  | Finish i out =>
      match (sw_running s !! i : option A) with
      | Some f => finish k i f out s
      | None => s
      end
  | Observe =>
      match (sw_done s ≫= λ i, sw_signal s !! i : option bool) with
      | Some ok =>
          match sw_phase s with
          | Waiting => observe k ok Idle s
          | Grace => observe k ok Exited s
          | _ => s
          end
      | None => s
      end
  | Timeout =>
      match sw_phase s with
      | Waiting => set_phase Idle s
      | Grace => set_phase Exited s
      | _ => s
      end
  | Stop =>
      match k with
      | HubWriter =>
          match sw_phase s with
          | Idle => set_phase Exited s
          | Waiting => set_phase Grace s
          | _ => s
          end
      | LoopWriter =>
          mkWriter (sw_queue s) true (sw_phase s) (sw_done s) (sw_running s) (sw_signal s) (sw_next s) (sw_offered s)
            (sw_written s) (sw_failed s) (sw_panics s) (sw_queue_full s) (sw_in_flight s) (sw_stamps s)
      end
  | Drained =>
      match k, sw_phase s, sw_queue s with
      | LoopWriter, Idle, [] => if sw_closed s then set_phase Exited s else s
      | _, _, _ => s
      end
  end.

Definition run (k : writer_kind) (acts : list writer_action) : writer := fold_left (step k) acts writer_init.

(** ** Invariants *)

Record writer_inv (s : writer) : Prop := {
  wi_queue : (length (sw_queue s) ≤ 1)%nat;
  wi_running : ∀ i f, sw_running s !! i = Some f → sw_done s = Some i ∧ sw_signal s !! i = None ∧ (i < sw_next s)%nat;
  wi_signal : ∀ i b, sw_signal s !! i = Some b → (i < sw_next s)%nat;
  wi_offered : length (sw_offered s) = (length (sw_queue s) + sw_queue_full s + sw_in_flight s + sw_next s)%nat;
  wi_started : sw_next s = (size (sw_running s) + length (sw_written s) + sw_failed s + sw_panics s)%nat;
  wi_order : sw_written s ++ (map_to_list (sw_running s)).*2 ++ sw_queue s `sublist_of` sw_offered s
}.

(** Whatever runs is the write of the current channel, so it is alone. *)
Lemma running_cases s : writer_inv s → sw_running s = ∅ ∨ ∃ i f, sw_running s = {[ i := f ]} ∧ sw_done s = Some i.
Proof.
  intros [_ Hr _ _ _ _]. destruct (decide (sw_running s = ∅)) as [|Hne]; [by left|right].
  apply map_choose in Hne as (i & f & Hi). exists i, f. destruct (Hr i f Hi) as (Hd & _ & _). split; [|done].
  apply map_eq. intros j. destruct (decide (i = j)) as [<-|Hij]; [by rewrite lookup_singleton_eq|].
  rewrite lookup_singleton_ne by done. destruct (sw_running s !! j) as [g|] eqn:Hj; [|done].
  destruct (Hr j g Hj) as (Hd' & _ & _). congruence.
Qed.

Lemma set_phase_inv ph s : writer_inv s → writer_inv (set_phase ph s).
Proof. by intros []. Qed.

Lemma offer_inv f s : writer_inv s → writer_inv (offer f s).
Proof.
  intros [Hq Hr Hs Ho Hn Hord]. unfold offer. destruct (sw_queue s) as [|g q] eqn:Eq; split; cbn; try done; try lia.
  - rewrite length_app. cbn in *. lia.
  - rewrite app_assoc. apply sublist_app; [|done]. by rewrite !app_nil_r in Hord.
  - rewrite length_app. cbn in *. lia.
  - by apply sublist_inserts_r.
Qed.

(** Nothing runs when a write starts. *)
Lemma start_write_inv f q stamps s :
  writer_inv s → sw_queue s = f :: q → sw_running s = ∅ → writer_inv (start_write f q stamps s).
Proof.
  intros [Hq Hr Hs Ho Hn Hord] Eq Er. unfold start_write. rewrite Eq in *. rewrite Er in *. cbn in Hq, Ho.
  assert (q = []) as -> by (destruct q; [done|cbn in Hq; lia]). split; cbn; try lia.
  - intros i g. rewrite lookup_insert_Some. intros [[<- <-]|[_ Hg]]; [|by rewrite lookup_empty in Hg].
    split_and!; [done| |lia]. destruct (sw_signal s !! sw_next s) as [b|] eqn:Hb; [|done]. apply Hs in Hb. lia.
  - intros i b Hb%Hs. lia.
  - rewrite insert_empty, map_size_singleton. rewrite map_size_empty in Hn. lia.
  - rewrite insert_empty, map_to_list_singleton. rewrite map_to_list_empty in Hord. exact Hord.
Qed.

Lemma take_inv k f q s : writer_inv s → sw_queue s = f :: q → writer_inv (take k f q s).
Proof.
  intros Hi Eq. pose proof (running_cases s Hi) as Hc. unfold take. destruct (sw_done s) as [i|] eqn:Ed.
  - destruct (sw_signal s !! i) as [ok|] eqn:Es.
    + apply start_write_inv; [done..|]. destruct Hc as [?|(j & g & Hj & [= <-])]; [done|].
      destruct Hi as [_ Hr _ _ _ _]. destruct (Hr i g) as (_ & ? & _); [by rewrite Hj, lookup_singleton_eq|congruence].
    + destruct Hi as [Hq Hr Hs Ho Hn Hord]. rewrite Eq in Hq, Ho, Hord. rewrite Ed in Hr. cbn in Hq, Ho.
      split; cbn; try done; try lia.
      etrans; [|exact Hord]. do 2 (apply sublist_app; [done|]). by apply sublist_cons.
  - apply start_write_inv; [done..|]. destruct Hc as [?|(j & g & Hj & [=])]. done.
Qed.

Lemma finish_inv k i f out s : writer_inv s → sw_running s !! i = Some f → writer_inv (finish k i f out s).
Proof.
  intros Hi Hrun. pose proof (running_cases s Hi) as [Hc|(j & g & Hj & Hd)]; [by rewrite Hc, lookup_empty in Hrun|].
  rewrite Hj in Hrun. apply lookup_singleton_Some in Hrun as [-> ->]. destruct Hi as [Hq Hr Hs Ho Hn Hord].
  destruct (Hr i f) as (_ & Hsig & Hlt); [by rewrite Hj, lookup_singleton_eq|].
  assert (delete i (sw_running s) = ∅) as Hdel by (rewrite Hj; apply delete_singleton_eq).
  rewrite Hj in Hn, Hord. rewrite map_size_singleton in Hn. rewrite map_to_list_singleton in Hord. cbn in Hord.
  unfold finish. rewrite Hdel. split; cbn; try done.
  - destruct out, k; intros n b; rewrite ?lookup_insert_Some; try (intros [[<- _]|[_ Hb%Hs]]; lia). by apply Hs.
  - rewrite map_size_empty. destruct out; rewrite ?length_app; cbn; lia.
  - rewrite map_to_list_empty. cbn. destruct out; [by rewrite <- app_assoc| |].
    all: etrans; [|exact Hord]; apply sublist_app; [done|]; by apply sublist_cons.
Qed.

Lemma observe_inv k ok ph s i : writer_inv s → sw_done s = Some i → is_Some (sw_signal s !! i) → writer_inv (observe k ok ph s).
Proof.
  intros Hi Hd [b Hb]. destruct k; [by apply set_phase_inv|]. pose proof (running_cases s Hi) as Hc. destruct Hi as [Hq Hr Hs Ho Hn Hord].
  split; cbn; try done. intros j f Hj. destruct (Hr j f Hj) as (Hd' & Hs' & _). congruence.
Qed.

Lemma step_inv k s a : writer_inv s → writer_inv (step k s a).
Proof.
  intros Hi. destruct a as [f| |i out| | | |]; cbn [step].
  - destruct (sw_closed s); [done|]. by apply offer_inv.
  - destruct (sw_phase s); try done. destruct (sw_queue s) eqn:Eq; [done|]. by apply take_inv.
  - destruct (sw_running s !! i) eqn:Er; [|done]. by apply finish_inv.
  - destruct (sw_done s) as [i|] eqn:Ed; cbn; [|done]. destruct (sw_signal s !! i) eqn:Es; [|done].
    destruct (sw_phase s); try done; eapply observe_inv; done.
  - destruct (sw_phase s); try done; by apply set_phase_inv.
  - destruct k; [destruct (sw_phase s); try done; by apply set_phase_inv|]. by destruct Hi.
  - destruct k; [done|]. destruct (sw_phase s); try done. destruct (sw_queue s); try done.
    destruct (sw_closed s); [by apply set_phase_inv|done].
Qed.

Lemma writer_run_inv k acts : writer_inv (run k acts).
Proof.
  unfold run. apply fold_left_inv; [|intros s a _; apply step_inv].
  split; cbn; try done; lia.
Qed.

(** ** A write of the loop that panicked *)

(** Its channel is waited for and will never carry a result. *)
Definition lost (i : nat) (s : writer) : Prop :=
  sw_done s = Some i ∧ sw_running s = ∅ ∧ sw_signal s !! i = None ∧ (i < sw_next s)%nat.

Lemma step_lost i s a : lost i s → lost i (step LoopWriter s a) ∧ sw_written (step LoopWriter s a) = sw_written s ∧
  sw_next (step LoopWriter s a) = sw_next s.
Proof.
  intros (Hd & Hr & Hs & Hn). destruct a as [f| |j out| | | |]; cbn [step]; unfold lost.
  - destruct (sw_closed s); [done|]. unfold offer. by destruct (sw_queue s).
  - destruct (sw_phase s); try done. destruct (sw_queue s); [done|]. unfold take. rewrite Hd, Hs. done.
  - rewrite Hr, lookup_empty. done.
  - rewrite Hd. cbn. rewrite Hs. done.
  - by destruct (sw_phase s).
  - done.
  - destruct (sw_phase s); try done. destruct (sw_queue s); try done. by destruct (sw_closed s).
Qed.
End Writer.

Arguments writer : clear implicits.
Arguments writer_action : clear implicits.

(** ** Properties *)

(** C24: the snapshot writers, whatever stalls. In every interleaving of producers, writes
    that stall, fail or panic, timers and shutdown: the queue holds at most one file; at
    most one write runs at a time, so a stalled file system does not pile up goroutines;
    every file offered is queued, was dropped under one of the two counted reasons, or
    was given to a write; every write runs still, succeeded, failed or panicked; and
    files reach the disk in the order in which they were offered, so that a snapshot
    never replaces a newer one. *)
Theorem snapshot_writer_safe {A : Type} (k : writer_kind) (acts : list (writer_action A)) :
  let s := run k acts in
  (length (sw_queue s) ≤ 1)%nat ∧ (size (sw_running s) ≤ 1)%nat ∧
  length (sw_offered s) = (length (sw_queue s) + sw_queue_full s + sw_in_flight s + sw_next s)%nat ∧
  sw_next s = (size (sw_running s) + length (sw_written s) + sw_failed s + sw_panics s)%nat ∧
  sw_written s `sublist_of` sw_offered s.
Proof.
  intros s. pose proof (writer_run_inv k acts) as Hi. fold s in Hi.
  pose proof (running_cases s Hi) as Hc. destruct Hi as [Hq Hr Hs Ho Hn Hord]. split_and!; try done.
  - destruct Hc as [->|(i & f & -> & _)]; [rewrite map_size_empty|rewrite map_size_singleton]; lia.
  - etrans; [|exact Hord]. by apply sublist_inserts_r.
Qed.

(** one panic ends persistence. When a write of the discovery loop panics, its result
    never arrives: every later snapshot is dropped as if that write were still in
    flight, and nothing is written until the process restarts. *)
Theorem panicked_write_stops_snapshots {A : Type} (before after : list (writer_action A)) (i : nat) :
  let s := run LoopWriter before in
  sw_done s = Some i → is_Some (sw_running s !! i) →
  let s' := fold_left (step LoopWriter) after (step LoopWriter s (Finish i WritePanic)) in
  sw_written s' = sw_written s ∧ sw_next s' = sw_next s.
Proof.
  intros s Hd [f Hf] s'. pose proof (writer_run_inv LoopWriter before) as Hi. fold s in Hi.
  assert (lost i (step LoopWriter s (Finish i WritePanic)) ∧ sw_written (step LoopWriter s (Finish i WritePanic)) = sw_written s ∧
    sw_next (step LoopWriter s (Finish i WritePanic)) = sw_next s) as H.
  { cbn [step]. rewrite Hf. destruct (running_cases s Hi) as [Hc|(j & g & Hj & Hd')]; [by rewrite Hc, lookup_empty in Hf|].
    destruct Hi as [_ Hr _ _ _ _]. destruct (Hr i f Hf) as (_ & Hsig & Hlt). unfold lost, finish. cbn. split_and!; try done.
    rewrite Hj in *. apply lookup_singleton_Some in Hf as [-> _]. apply delete_singleton_eq. }
  unfold s'. clear s'. revert H. generalize (step LoopWriter s (Finish i WritePanic)).
  induction after as [|a after IH]; intros t (Hl & Hw & Hnx); cbn [fold_left]; [done|]. apply IH.
  destruct (step_lost i t a Hl) as (? & -> & ->). done.
Qed.

Lemma panicked_write_stops_snapshots_witness :
  sw_written (fold_left (step LoopWriter) [Timeout; Offer 2; Take; Timeout; Offer 3; Take]
    (step LoopWriter (run LoopWriter [Offer 1; Take]) (Finish 0 WritePanic))) = [] ∧
  sw_in_flight (fold_left (step LoopWriter) [Timeout; Offer 2; Take; Timeout; Offer 3; Take]
    (step LoopWriter (run LoopWriter [Offer 1; Take]) (Finish 0 WritePanic))) = 2%nat.
Proof.
  split; [|vm_compute; reflexivity].
  refine (proj1 (panicked_write_stops_snapshots [Offer 1; Take] [Timeout; Offer 2; Take; Timeout; Offer 3; Take] 0%nat _ _)).
  - vm_compute. reflexivity.
  - exists 1. vm_compute. reflexivity.
Defined.

(** The hub's writer goes on after the same panic. *)
Example hub_writer_recovers :
  sw_written (run HubWriter [Offer 1; Take; Finish 0 WritePanic; Timeout; Offer 2; Take; Finish 1 WriteOk]) = [2].
Proof. vm_compute. reflexivity. Qed.

(** A graph that the hub persisted comes back without its out-of-scope neighbours. *)
Example hub_restart_loses_neighbours epoch g :
  hub_restored (hub_snapshot_file epoch g) = mkGraph (Devices g) (Edges g) [].
Proof. reflexivity. Qed.
