(* ===== verification/Collector.v ===== *)
(** * internal/metrics/topology_collector.go: the graph as Prometheus series

    sanitizeLabel and Collect over the graph that Update stored last.  A series is its
    description (the metric name and the names of the labels), its label values and its
    value.  prometheus.MustNewConstMetric is a parameter ([ConstMetrics]). *)

From Stdlib Require Import ZArith Lia Ascii.
From S2P Require Import Prelude GoText Sanitize Discovery Limits HubValidate GraphKeys Reconcile HubMerge.
Open Scope Z_scope.

(** The tables of package unicode for runes past ASCII. *)
Class PrintTable := unicode_print : rune → bool.

Definition IsPrint `{PrintTable} (r : rune) : bool := if r <? 128 then in_range 32 126 r else unicode_print r.

Definition maxLabelLen : Z := 128.

Definition sanitizeLabel `{PrintTable} (s : string) : string :=
  TruncateAtRuneBoundary (strings_Map (λ r, if IsPrint r then Some r else None) s) maxLabelLen.

Inductive sample :=
  | Count (n : Z)
  | Seconds (d : duration).

(** A *prometheus.Desc: the name of the metric and its variable labels. *)
Record Desc := mkDesc { de_name : string; de_labels : list string }.

#[export] Instance Desc_eq_dec : EqDecision Desc.
Proof. solve_decision. Defined.

Record series := mkSeries { se_desc : Desc; se_labels : list string; se_value : sample }.

Definition se_name (s : series) : string := de_name (se_desc s).

(** What Prometheus tells series apart by. *)
Definition series_id (s : series) : string * list string := (se_name s, se_labels s).

Definition deviceInfo : Desc :=
  mkDesc "network_topology_device_info" ["device_id"; "vendor"; "model"; "os_version"; "site"].
Definition deviceUptime : Desc := mkDesc "network_topology_device_uptime_seconds" ["device_id"].
Definition edgeInfo : Desc :=
  mkDesc "network_topology_edge_info"
    ["src_device"; "src_port"; "dst_device"; "dst_port"; "discovery_proto"; "link_kind"; "direction"].
Definition oosCount : Desc := mkDesc "network_topology_out_of_scope_neighbours_total" [].
Definition boundaryObs : Desc :=
  mkDesc "network_topology_boundary_observation_info" ["peer_a"; "peer_b"; "reporting_device"; "src_port"; "proto"].
Definition graphEdges : Desc := mkDesc "network_topology_graph_edges_total" [].
Definition graphDevices : Desc := mkDesc "network_topology_graph_devices_total" [].

Definition Describe : list Desc := [deviceInfo; deviceUptime; edgeInfo; oosCount; boundaryObs; graphEdges; graphDevices].

(** A description that is valid under every naming scheme of Prometheus. *)
Definition legal_desc (d : Desc) : bool :=
  labelKeyPattern (de_name d) && forallb (λ n, labelKeyPattern n && negb (HasPrefix n "__")) (de_labels d) &&
  bool_decide (NoDup (de_labels d)).

(** prometheus.MustNewConstMetric: whether it makes the metric or panics.  It is documented
    to make one of a valid description from as many label values as it has variable
    labels, and label values may be any UTF-8 text. *)
Class ConstMetrics := {
  accepted : Desc → list string → bool;
  accepted_legal : ∀ d ls, legal_desc d = true → length ls = length (de_labels d) →
    (∀ v, v ∈ ls → ValidString v = true) → accepted d ls = true
}.

Definition canonicalPair (a b : string) : string * string := if str_le a b then (a, b) else (b, a).

Section Collect.
Context `{P : PrintTable} `{CM : ConstMetrics}.

Definition device_series (d : Device) : list series :=
  [mkSeries deviceInfo [sanitizeLabel (ID d); sanitizeLabel (Vendor d); sanitizeLabel (Model d);
                        sanitizeLabel (OSVersion d); sanitizeLabel (Site d)] (Count 1);
   mkSeries deviceUptime [sanitizeLabel (ID d)] (Seconds (Uptime d))].

Definition edge_labels (e : Edge) : list string :=
  [sanitizeLabel (SrcDevice e); sanitizeLabel (SrcPort e); sanitizeLabel (DstDevice e); sanitizeLabel (DstPort e);
   sanitizeLabel (DiscoveryProto e); sanitizeLabel (LinkKind e); Direction e].

Definition boundary_labels (n : OutOfScopeNeighbour) : list string :=
  let '(peerA, peerB) := canonicalPair (sanitizeLabel (ReportingDevice n)) (sanitizeLabel (NeighbourHint n)) in
  [peerA; peerB; sanitizeLabel (ReportingDevice n); sanitizeLabel (ReportingPort n); sanitizeLabel (Proto n)].

(** The metrics of a scrape in the order they are sent. *)
Definition scrape (emitBoundaryObs : bool) (g : Graph) : list series :=
  (Devices g ≫= device_series) ++
  ((λ e, mkSeries edgeInfo (edge_labels e) (Count 1)) <$> Edges g) ++
  [mkSeries oosCount [] (Count (Z.of_nat (length (OutOfScope g))))] ++
  (if emitBoundaryObs then (λ n, mkSeries boundaryObs (boundary_labels n) (Count 1)) <$> OutOfScope g else []) ++
  [mkSeries graphEdges [] (Count (Z.of_nat (length (Edges g))));
   mkSeries graphDevices [] (Count (Z.of_nat (length (Devices g))))].

(** [samples], counted the way the loops count. *)
Definition scrapeSamples (emitBoundaryObs : bool) (g : Graph) : Z :=
  let samples := fold_left (λ n _, n + 2) (Devices g) 0 in
  let samples := fold_left (λ n _, n + 1) (Edges g) samples in
  let samples := samples + 1 in
  let samples := if emitBoundaryObs then fold_left (λ n _, n + 1) (OutOfScope g) samples else samples in
  samples + 2.

Definition MustNewConstMetric (s : series) : option series :=
  if accepted (se_desc s) (se_labels s) then Some s else None.

(** [None] is the panic of a scrape. *)
Definition Collect (emitBoundaryObs : bool) (g : Graph) : option (list series * Z) :=
  l ← mapM MustNewConstMetric (scrape emitBoundaryObs g); Some (l, scrapeSamples emitBoundaryObs g).

(** ** The identity of a series *)

(** What an observation keeps after sanitising. *)
Definition observation (n : OutOfScopeNeighbour) : string * string * string * string :=
  (sanitizeLabel (ReportingDevice n), sanitizeLabel (ReportingPort n), sanitizeLabel (NeighbourHint n), sanitizeLabel (Proto n)).

Lemma boundary_labels_inj n1 n2 : boundary_labels n1 = boundary_labels n2 → observation n1 = observation n2.
Proof.
  unfold boundary_labels, observation, canonicalPair.
  destruct (str_le (sanitizeLabel (ReportingDevice n1)) _), (str_le (sanitizeLabel (ReportingDevice n2)) _);
    intros [= H1 H2 H3 H4 H5]; congruence.
Qed.

Lemma boundary_labels_eq n1 n2 : observation n1 = observation n2 → boundary_labels n1 = boundary_labels n2.
Proof. unfold boundary_labels, observation. intros [= -> -> -> ->]. done. Qed.

Lemma NoDup_fmap_eqv {A B C} (f : A → B) (g : A → C) l :
  (∀ x y, f x = f y ↔ g x = g y) → NoDup (f <$> l) ↔ NoDup (g <$> l).
Proof.
  intros H. induction l as [|x l IH]; cbn; [split; constructor|]. rewrite !NoDup_cons, IH. apply and_iff_compat_r.
  apply not_iff_compat. rewrite !list_elem_of_fmap. split; intros (y & Hy & ?); exists y; split; try done; by apply H.
Qed.

(** The series of one metric, apart from those of the others. *)
Definition named (name : string) (l : list series) : list series := filter (λ s, se_name s = name) l.

Lemma NoDup_by_name l :
  NoDup (series_id <$> l) ↔ ∀ name, NoDup (series_id <$> named name l).
Proof.
  split.
  - intros H name. eapply sublist_NoDup; [exact H|]. apply fmap_sublist. apply sublist_filter.
  - intros H. induction l as [|s l IH]; cbn; [constructor|]. apply NoDup_cons. split.
    + intros (t & Ht & Hin)%list_elem_of_fmap. specialize (H (se_name s)). unfold named in H.
      rewrite filter_cons_True in H by done. apply NoDup_cons in H as [H _]. apply H. apply list_elem_of_fmap. exists t.
      split; [done|]. apply list_elem_of_filter. split; [|done]. by injection Ht as -> _.
    + apply IH. intros name. specialize (H name). unfold named in *. rewrite filter_cons in H.
      destruct (decide (se_name s = name)); [|done]. by apply NoDup_cons in H as [_ ?].
Qed.

Lemma named_app name l1 l2 : named name (l1 ++ l2) = named name l1 ++ named name l2.
Proof. apply filter_app. Qed.

Lemma named_fmap {A} name n (f : A → list string) (v : A → sample) l :
  named name ((λ x, mkSeries n (f x) (v x)) <$> l) =
  if bool_decide (de_name n = name) then (λ x, mkSeries n (f x) (v x)) <$> l else [].
Proof.
  unfold named. induction l as [|x l IH]; [by case_bool_decide|]. rewrite fmap_cons, filter_cons, IH. unfold se_name. cbn [se_desc].
  case_bool_decide; by case_decide.
Qed.

Lemma named_devices name ds :
  named name (ds ≫= device_series) =
  (if bool_decide (de_name deviceInfo = name) then (λ d, mkSeries deviceInfo (se_labels (hd (mkSeries deviceInfo [] (Count 0)) (device_series d))) (Count 1)) <$> ds else []) ++
  (if bool_decide (de_name deviceUptime = name) then (λ d, mkSeries deviceUptime [sanitizeLabel (ID d)] (Seconds (Uptime d))) <$> ds else []).
Proof.
  induction ds as [|d ds IH]; cbn [mbind list_bind fmap list_fmap]; [by repeat case_bool_decide|].
  rewrite named_app, IH. unfold named at 1, device_series at 1. rewrite !filter_cons, filter_nil. unfold se_name. cbn [se_desc].
  repeat case_bool_decide; repeat case_decide; try congruence; subst; cbn; done.
Qed.
Lemma samples_of {A} k (l : list A) n : fold_left (λ n _, n + k) l n = n + k * Z.of_nat (length l).
Proof. revert n. induction l as [|x l IH]; intros n; cbn [fold_left length]; [lia|]. rewrite IH. lia. Qed.

Lemma scrape_length emit g : scrapeSamples emit g = Z.of_nat (length (scrape emit g)).
Proof.
  unfold scrapeSamples, scrape. rewrite !samples_of, !length_app, length_fmap.
  assert (∀ ds, length (ds ≫= device_series) = 2 * length ds)%nat as Hd
    by (induction ds as [|d ds IH]; cbn [mbind list_bind length]; [done|rewrite length_app, IH; cbn; lia]).
  rewrite Hd. destruct emit; rewrite ?samples_of, ?length_fmap; cbn [length]; lia.
Qed.

(** ** Labels *)

(** Dropping runes leaves valid text, whatever the bytes were. *)
Lemma keep_valid (p : rune → bool) s : ValidString (strings_Map (λ r, if p r then Some r else None) s) = true.
Proof.
  unfold strings_Map. pose proof (chunks_wf s) as Hw.
  induction s as [|s k t Hne Hs Hk Hch IH] using chunks_ind; [done|]. rewrite Hch in *. inversion_clear Hw.
  cbn [fmap list_fmap sconcat]. destruct k as [r b|c]; cbn [map_chunk].
  - destruct (p r); [|rewrite sapp_nil_l; auto]. rewrite Z.eqb_refl.
    erewrite ValidString_rune by (eapply chunks_rune, Hch). auto.
  - destruct (p RuneError); [|rewrite sapp_nil_l; auto]. erewrite ValidString_rune by apply encode_error. auto.
Qed.

Lemma sanitizeLabel_valid s : ValidString (sanitizeLabel s) = true.
Proof. apply truncate_valid, keep_valid. Qed.

Lemma sanitizeLabel_bound s : Z.of_nat (slen (sanitizeLabel s)) ≤ maxLabelLen.
Proof. apply truncate_length. Qed.

(** A label of a scrape: sanitised, or the direction of an edge as it is. *)
Definition label_ok (g : Graph) (d : Desc) (i : nat) (v : string) : Prop :=
  (ValidString v = true ∧ Z.of_nat (slen v) ≤ maxLabelLen) ∨
  (de_labels d !! i = Some "direction" ∧ ∃ e, e ∈ Edges g ∧ v = Direction e).

(** One series of a scrape against its description. *)
Definition series_ok (g : Graph) (s : series) : Prop :=
  se_desc s ∈ Describe ∧ length (se_labels s) = length (de_labels (se_desc s)) ∧
  ∀ i v, se_labels s !! i = Some v → label_ok g (se_desc s) i v.

Lemma label_sanitized g d i t : label_ok g d i (sanitizeLabel t).
Proof. left. split; [apply sanitizeLabel_valid|apply sanitizeLabel_bound]. Qed.


Lemma scrape_series emit g s : s ∈ scrape emit g → series_ok g s.
Proof.
  assert (∀ s, se_desc s ∈ Describe → length (se_labels s) = length (de_labels (se_desc s)) →
    (∀ i v, se_labels s !! i = Some v → label_ok g (se_desc s) i v) → series_ok g s) as Hok by (intros; by split_and!).
  assert (∀ (d : Desc) i, ([] : list string) !! i = None) as Hnil by done.
  assert (∀ d, d ∈ [deviceInfo; deviceUptime; edgeInfo; oosCount; boundaryObs; graphEdges; graphDevices] → d ∈ Describe) as Hin by done.
  unfold scrape. rewrite !elem_of_app.
  intros [(d & Hd & _)%list_elem_of_bind|[(e & -> & He)%list_elem_of_fmap|[->%list_elem_of_singleton|[Hb|Hr]]]].
  - unfold device_series in Hd. apply elem_of_cons in Hd as [Hd|Hd%list_elem_of_singleton]; subst s;
      (apply Hok; [apply Hin; cbn [se_desc]; rewrite !elem_of_cons; tauto|done|]); cbn [se_desc se_labels];
      intros i v Hi; apply list_elem_of_lookup_2 in Hi;
      repeat (apply elem_of_cons in Hi as [->|Hi]; [apply label_sanitized|]); by apply elem_of_nil in Hi.
  - apply Hok; [apply Hin; cbn [se_desc]; rewrite !elem_of_cons; tauto|done|]. cbn [se_desc se_labels]. unfold edge_labels.
    intros i v Hi. do 6 (destruct i as [|i]; [injection Hi as <-; apply label_sanitized|cbn in Hi]).
    destruct i as [|i]; [|done]. injection Hi as <-. right. split; [done|eauto].
  - apply Hok; [apply Hin; cbn [se_desc]; rewrite !elem_of_cons; tauto|done|done].
  - destruct emit; [|by apply elem_of_nil in Hb]. apply list_elem_of_fmap in Hb as (n & -> & _).
    assert (∀ v, v ∈ boundary_labels n → ∃ t, v = sanitizeLabel t) as Hl.
    { unfold boundary_labels, canonicalPair. destruct (str_le _ _); intros v Hv;
        repeat (apply elem_of_cons in Hv as [->|Hv]; [eauto|]); by apply elem_of_nil in Hv. }
    apply Hok; [apply Hin; cbn [se_desc]; rewrite !elem_of_cons; tauto| |].
    + cbn [se_labels se_desc]. unfold boundary_labels, canonicalPair. by destruct (str_le _ _).
    + cbn [se_labels se_desc]. intros i v Hi%list_elem_of_lookup_2. destruct (Hl v Hi) as [t ->]. apply label_sanitized.
  - apply elem_of_cons in Hr as [Hr|Hr%list_elem_of_singleton]; subst s;
      (apply Hok; [apply Hin; cbn [se_desc]; rewrite !elem_of_cons; tauto|done|done]).
Qed.

Lemma Describe_legal d : d ∈ Describe → legal_desc d = true.
Proof.
  assert (forallb legal_desc Describe = true) as H by (vm_compute; reflexivity). rewrite forallb_forall in H.
  intros Hd. apply H. by apply list_elem_of_In.
Qed.

(** A series whose labels are all UTF-8 is accepted. *)
Lemma series_accepted g s :
  (∀ e, e ∈ Edges g → ValidString (Direction e) = true) → series_ok g s → MustNewConstMetric s = Some s.
Proof.
  intros Hdir (Hd & Hlen & Hl). unfold MustNewConstMetric. rewrite accepted_legal; [done|by apply Describe_legal|done|].
  intros v [i Hi]%list_elem_of_lookup. destruct (Hl i v Hi) as [[Hv _]|(_ & e & He & ->)]; [done|by apply Hdir].
Qed.

Lemma mapM_must l l' : mapM MustNewConstMetric l = Some l' → l' = l.
Proof.
  revert l'. induction l as [|s l IH]; intros l'; [by intros [= <-]|]. cbn [mapM].
  assert (MustNewConstMetric s = None ∨ MustNewConstMetric s = Some s) as [->| ->]; [|done|].
  { unfold MustNewConstMetric. destruct (accepted _ _); auto. }
  cbn. destruct (mapM MustNewConstMetric l) as [l2|]; [|done]. cbn. intros [= <-]. by rewrite (IH l2).
Qed.

Lemma mapM_accepted l : (∀ s, s ∈ l → MustNewConstMetric s = Some s) → mapM MustNewConstMetric l = Some l.
Proof.
  induction l as [|s l IH]; intros H; [done|]. cbn [mapM]. rewrite H by apply list_elem_of_here. cbn.
  rewrite IH; [done|]. intros t Ht. apply H. by apply list_elem_of_further.
Qed.

(** ** Distinct series *)

Lemma NoDup_fmap_mkSeries {A} n (f : A → list string) (v : A → sample) l :
  NoDup (series_id <$> ((λ x, mkSeries n (f x) (v x)) <$> l)) ↔ NoDup (f <$> l).
Proof.
  rewrite <- list_fmap_compose. apply NoDup_fmap_eqv. intros x y. unfold compose, series_id. cbn.
  split; [by intros [= ->]|by intros ->].
Qed.

Lemma named_one name n ls v : named name [mkSeries n ls v] = if bool_decide (de_name n = name) then [mkSeries n ls v] else [].
Proof. unfold named. rewrite filter_cons, filter_nil. unfold se_name. cbn [se_desc]. case_bool_decide; by case_decide. Qed.

Lemma named_scrape name emit g :
  named name (scrape emit g) =
  named name (Devices g ≫= device_series) ++
  (if bool_decide (de_name edgeInfo = name) then (λ e, mkSeries edgeInfo (edge_labels e) (Count 1)) <$> Edges g else []) ++
  (if bool_decide (de_name oosCount = name) then [mkSeries oosCount [] (Count (Z.of_nat (length (OutOfScope g))))] else []) ++
  (if bool_decide (de_name boundaryObs = name) then
     (λ n, mkSeries boundaryObs (boundary_labels n) (Count 1)) <$> (if emit then OutOfScope g else []) else []) ++
  (if bool_decide (de_name graphEdges = name) then [mkSeries graphEdges [] (Count (Z.of_nat (length (Edges g))))] else []) ++
  (if bool_decide (de_name graphDevices = name) then [mkSeries graphDevices [] (Count (Z.of_nat (length (Devices g))))] else []).
Proof.
  unfold scrape. rewrite !named_app, (named_fmap name edgeInfo), named_one.
  change [?a; ?b] with ([a] ++ [b]). rewrite named_app, !named_one. destruct emit.
  - by rewrite (named_fmap name boundaryObs).
  - by destruct (bool_decide (de_name boundaryObs = name)).
Qed.

(** The names are distinct literals: settle which one is meant. *)
Ltac settle_names H :=
  repeat match type of H with
  | context [bool_decide (?a = ?a)] => rewrite (bool_decide_eq_true_2 (a = a)) in H by reflexivity
  | context [bool_decide (?a = ?b)] => rewrite (bool_decide_eq_false_2 (a = b)) in H by discriminate
  end; rewrite ?app_nil_r, ?app_nil_l in H.

Lemma ids_distinct (ds : list Device) : NoDup ((λ d, [sanitizeLabel (ID d)]) <$> ds) ↔ NoDup ((λ d, sanitizeLabel (ID d)) <$> ds).
Proof. apply NoDup_fmap_eqv. intros x y. split; [by intros [= ->]|by intros ->]. Qed.

Lemma observations_distinct (ns : list OutOfScopeNeighbour) : NoDup (boundary_labels <$> ns) ↔ NoDup (observation <$> ns).
Proof. apply NoDup_fmap_eqv. intros x y. split; [apply boundary_labels_inj|apply boundary_labels_eq]. Qed.

Lemma scrape_distinct emit g :
  NoDup (series_id <$> scrape emit g) ↔
  NoDup ((λ d, sanitizeLabel (ID d)) <$> Devices g) ∧ NoDup (edge_labels <$> Edges g) ∧
  NoDup (observation <$> (if emit then OutOfScope g else [])).
Proof.
  rewrite NoDup_by_name, <- ids_distinct, <- observations_distinct. setoid_rewrite named_scrape. setoid_rewrite named_devices. split.
  - intros H. pose proof (H (de_name deviceUptime)) as H1. pose proof (H (de_name edgeInfo)) as H2. pose proof (H (de_name boundaryObs)) as H3.
    settle_names H1. settle_names H2. settle_names H3.
    rewrite NoDup_fmap_mkSeries in H1. rewrite NoDup_fmap_mkSeries in H2. by rewrite NoDup_fmap_mkSeries in H3.
  - intros (H1 & H2 & H3) name.
    repeat (case_bool_decide; try subst name; try discriminate; try congruence);
      rewrite ?app_nil_r, ?app_nil_l, ?NoDup_fmap_mkSeries; cbn [fmap list_fmap]; auto using NoDup_nil_2, NoDup_singleton.
    apply (NoDup_fmap_1 (λ ls, take 1 ls)). rewrite <- list_fmap_compose. exact H1.
Qed.

(** ** Properties *)

(** C27: what a scrape sends.  It does not panic if the directions of the edges are valid
    UTF-8.  A scrape that does not panic publishes the number of series it sends; each is of
    a description that Describe announced, with one value for each of its labels, and every
    value is at most 128 bytes of valid UTF-8, but that of the label direction, which is sent
    as the edge has it.  No series is sent twice exactly when the sanitised device IDs, the
    label tuples of the edges and (with the boundary metric on) the sanitised observations
    are pairwise different. *)
Theorem scrape_contract (emit : bool) (g : Graph) :
  ((∀ e, e ∈ Edges g → ValidString (Direction e) = true) → is_Some (Collect emit g)) ∧
  ∀ l samples, Collect emit g = Some (l, samples) →
    samples = Z.of_nat (length l) ∧
    (∀ s, s ∈ l → se_desc s ∈ Describe ∧ length (se_labels s) = length (de_labels (se_desc s)) ∧
       ∀ i v, se_labels s !! i = Some v →
         (ValidString v = true ∧ Z.of_nat (slen v) ≤ 128) ∨
         (de_labels (se_desc s) !! i = Some "direction" ∧ ∃ e, e ∈ Edges g ∧ v = Direction e)) ∧
    (NoDup (series_id <$> l) ↔
     NoDup ((λ d, sanitizeLabel (ID d)) <$> Devices g) ∧ NoDup (edge_labels <$> Edges g) ∧
     NoDup (observation <$> (if emit then OutOfScope g else []))).
Proof.
  unfold Collect. split.
  - intros Hdir. rewrite mapM_accepted; [by eexists|]. intros s Hs. apply (series_accepted g); [done|]. by apply (scrape_series emit).
  - intros l samples. destruct (mapM MustNewConstMetric (scrape emit g)) as [l'|] eqn:Hm; [|done]. cbn. intros [= -> <-].
    apply mapM_must in Hm as ->. split_and!; [apply scrape_length|apply scrape_series|apply scrape_distinct].
Qed.

End Collect.


(** ** Examples *)

Definition ascii_print : PrintTable := λ _, true.

(** A client library that accepts nothing else. *)
#[refine] Definition strict_metrics : ConstMetrics := {|
  accepted := λ d ls, legal_desc d && (length ls =? length (de_labels d))%nat && forallb ValidString ls
|}.
Proof.
  intros d ls -> -> Hv. rewrite Nat.eqb_refl. apply forallb_forall. intros v Hin. apply Hv. by apply list_elem_of_In.
Defined.

Fixpoint repeat_char (n : nat) (s : string) : string :=
  match n with O => s | S n => String "a" (repeat_char n s) end.

Definition long_ids : SpokePayload :=
  payload_of "dc1" 1 [plain_device (repeat_char 128 "1"); plain_device (repeat_char 128 "2")] [].

(** The hub accepts device IDs of 256 bytes, and a label keeps 128: a push the validator
    accepts, merged into the combined graph, can make every scrape send a series twice. *)
Lemma accepted_push_repeats_series :
  validateSpokePayload (MR:=range_std) long_ids = inr tt ∧
  let g := (buildCombinedGraph (U:=unicode_table) (MR:=range_std) (R:=graph_reconcile (U:=unicode_table) (MR:=range_std))
              sample_cfg (λ _, 2) {["dc1" := mkSpokeEntry long_ids 1]}).1 in
  ¬ NoDup (series_id <$> scrape (P:=ascii_print) false g).
Proof.
  split; [vm_compute; reflexivity|]. cbv zeta. rewrite scrape_distinct. intros [H _].
  set (l := _ <$> _) in H. vm_compute in l. subst l. apply NoDup_cons in H as [H _]. apply H. apply elem_of_cons. by left.
Qed.

Definition one_site : Graph :=
  mkGraph [plain_device "core1"]
    [mkEdge "core1" "Gi0/1" "access1" "Gi0/24" DiscoveryProtocolLLDP DirectionBidirectional ConfidenceHigh AdjacencyDirect 2 LinkKindEthernet 1 ∅]
    [].

Example one_site_scrape :
  Collect (P:=ascii_print) (CM:=strict_metrics) false one_site =
  Some ([mkSeries deviceInfo ["core1"; "cisco"; ""; ""; ""] (Count 1); mkSeries deviceUptime ["core1"] (Seconds 0);
         mkSeries edgeInfo ["core1"; "Gi0/1"; "access1"; "Gi0/24"; "lldp"; "ethernet"; "bidirectional"] (Count 1);
         mkSeries oosCount [] (Count 0); mkSeries graphEdges [] (Count 1); mkSeries graphDevices [] (Count 1)], 6).
Proof. vm_compute. reflexivity. Qed.

(** A direction that is not UTF-8: what a client library does that is as strict as it may be. *)
Definition bad_direction : Graph :=
  mkGraph [] [mkEdge "a" "1" "b" "2" DiscoveryProtocolLLDP (String (chr 255) "") ConfidenceHigh AdjacencyDirect 2 LinkKindEthernet 1 ∅] [].

Example unsanitised_direction : Collect (P:=ascii_print) (CM:=strict_metrics) false bad_direction = None.
Proof. vm_compute. reflexivity. Qed.

Lemma scrape_contract_witness :
  ∃ l samples, Collect (P:=ascii_print) (CM:=strict_metrics) false one_site = Some (l, samples) ∧
    samples = 6 ∧ length l = 6%nat ∧ NoDup (series_id <$> l).
Proof.
  destruct (@scrape_contract ascii_print strict_metrics false one_site) as [Ht Hs].
  destruct Ht as [[l samples] Hc].
  { intros e He. apply list_elem_of_singleton in He as ->. vm_compute. reflexivity. }
  exists l, samples. split; [exact Hc|]. destruct (Hs l samples Hc) as (Hn & _ & Hd).
  assert (samples = 6) as E by (rewrite one_site_scrape in Hc; injection Hc as _ <-; reflexivity).
  split; [exact E|]. split; [lia|]. apply Hd. vm_compute. split_and!; repeat constructor; rewrite ?elem_of_nil; tauto.
Defined.
