(* ===== verification/Otlp.v ===== *)
(** * OTLP output, change events and the closed label values

    internal/output/otlp/otlp.go (the attributes, the change records, the classification
    of push errors), internal/app/otlp_publisher.go (the bounded asynchronous publisher),
    internal/events/events.go and internal/metrics/sub_reason.go.  The OpenTelemetry SDK,
    which carries the records, is what the lists below are handed to. *)

From Stdlib Require Import ZArith Lia Ascii.
From S2P Require Import Prelude GoText Sanitize Discovery Pdu NetAddr GraphKeys Reconcile GraphDiff.
Open Scope Z_scope.

(** ** Attributes *)

Definition replacement : string := encode_rune RuneError.

(** [strings.ToValidUTF8(s, replacement)]: one replacement per run of ill-formed bytes. *)
Fixpoint valid_runs (in_run : bool) (l : list chunk) : string :=
  match l with
  | [] => ""
  | Rune _ b :: l' => b +:+ valid_runs false l'
  | Bad _ :: l' => (if in_run then "" else replacement) +:+ valid_runs true l'
  end.

Definition ToValidUTF8 (s : string) : string := valid_runs false (chunks s).

Definition sanitizeUTF8 (s : string) : string := if ValidString s then s else ToValidUTF8 s.

Definition metadataAttrPrefix : string := "network.topology.".

Definition edgeAttrs `{MapRange} (e : Edge) : list (string * string) :=
  [("src_device", sanitizeUTF8 (SrcDevice e)); ("src_port", sanitizeUTF8 (SrcPort e));
   ("dst_device", sanitizeUTF8 (DstDevice e)); ("dst_port", sanitizeUTF8 (DstPort e));
   ("proto", sanitizeUTF8 (DiscoveryProto e)); ("link_kind", sanitizeUTF8 (LinkKind e));
   ("direction", sanitizeUTF8 (Direction e)); ("confidence", sanitizeUTF8 (Confidence e));
   ("adjacency", sanitizeUTF8 (Adjacency e)); ("precedence_rank", Itoa (PrecedenceRank e))] ++
  ((λ kv, (metadataAttrPrefix +:+ kv.1, sanitizeUTF8 kv.2)) <$> range_map 70 (Metadata e)).

Definition optional_attr (k v : string) : list (string * string) :=
  if bool_decide (v ≠ "") then [(k, sanitizeUTF8 v)] else [].

Definition deviceAttrs (d : Device) : list (string * string) :=
  ("device", sanitizeUTF8 (ID d)) ::
  optional_attr "vendor" (Vendor d) ++ optional_attr "model" (Model d) ++
  optional_attr "os_version" (OSVersion d) ++ optional_attr "site" (Site d).

(** ** Change records *)

Inductive level := LevelInfo | LevelWarn.

Definition change_level (k : ChangeKind) : level :=
  match k with ChangeRemoved => LevelWarn | _ => LevelInfo end.

Definition ChangeKind_String (k : ChangeKind) : string :=
  match k with ChangeAdded => "added" | ChangeRemoved => "removed" | ChangeUpdated => "updated" end.

Record log_record := mkRecord {
  lr_timestamp : time;
  lr_observed : time;
  lr_severity : level;
  lr_body : string;
  lr_attrs : list (string * string)
}.

Definition change_time (now : time) (c : EdgeChange) : time :=
  match After c, Before c with
  | Some a, b =>
      if bool_decide (ObservedAt a ≠ 0) then ObservedAt a
      else match b with Some b => if bool_decide (ObservedAt b ≠ 0) then ObservedAt b else now | None => now end
  | None, Some b => if bool_decide (ObservedAt b ≠ 0) then ObservedAt b else now
  | None, None => now
  end.

Definition change_ends (c : EdgeChange) : list string :=
  let ends e := [SrcDevice e; SrcPort e; DstDevice e; DstPort e; DiscoveryProto e; LinkKind e] in
  match After c, Before c with
  | Some a, _ => ends a
  | None, Some b => ends b
  | None, None => [""; ""; ""; ""; ""; ""]
  end.

Definition change_record (now : time * time) (c : EdgeChange) : log_record :=
  mkRecord (change_time now.1 c) now.2 (change_level (Kind c)) ("topology change: " +:+ ChangeKind_String (Kind c))
    (("change_kind", ChangeKind_String (Kind c)) ::
     zip ["src_device"; "src_port"; "dst_device"; "dst_port"; "proto"; "link_kind"] (sanitizeUTF8 <$> change_ends c)).

(** The clock is read for a record without an observation time, and again for the time
    of the record itself. *)
Definition PushChanges (now : nat → time * time) (cs : list EdgeChange) : list log_record := imap (λ i c, change_record (now i) c) cs.

(** ** Events (events.go) *)

Definition event_args (pre : string) (e : option Edge) : list (string * string) :=
  match e with
  | None => []
  | Some e => [(pre +:+ "src_device", SrcDevice e); (pre +:+ "src_port", SrcPort e); (pre +:+ "dst_device", DstDevice e);
               (pre +:+ "dst_port", DstPort e); (pre +:+ "proto", DiscoveryProto e); (pre +:+ "direction", Direction e)]
  end.

Definition Emit (cs : list EdgeChange) : list (level * list (string * string)) :=
  (λ c, (change_level (Kind c),
         ("change_kind", ChangeKind_String (Kind c)) :: event_args "before_" (Before c) ++ event_args "after_" (After c))) <$> cs.

(** ** Errors of a push *)

Fixpoint strings_Contains (s sub : string) : bool :=
  HasPrefix s sub || match s with "" => false | String _ s' => strings_Contains s' sub end.

(** An error: whether it wraps the deadline's, and its text. *)
Record push_error := mkPushError { pe_deadline : bool; pe_msg : string }.

Definition is_digit_rune (r : rune) : bool := in_range 48 57 r.

(** [strings.FieldsFunc] with everything but the digits as separators. *)
Fixpoint digit_fields (cur : string) (l : list chunk) : list string :=
  let flush rest := if bool_decide (cur = "") then rest else cur :: rest in
  match l with
  | [] => flush []
  | k :: l' => if is_digit_rune (chunk_rune k) then digit_fields (cur +:+ chunk_bytes k) l'
               else flush (digit_fields "" l')
  end.

Inductive statusClass := statusClassNone | statusClass4xx | statusClass5xx.

Definition status_of_code (code : Z) : statusClass :=
  if (400 <=? code) && (code <? 500) then statusClass4xx
  else if (500 <=? code) && (code <? 600) then statusClass5xx else statusClassNone.

Fixpoint classify_fields (l : list string) : statusClass :=
  match l with
  | [] => statusClassNone
  | f :: l' =>
      if negb (slen f =? 3)%nat then classify_fields l'
      else match Atoi f with
           | None => classify_fields l'
           | Some code => match status_of_code code with statusClassNone => classify_fields l' | c => c end
           end
  end.

Definition classifyHTTPStatus (msg : string) : statusClass := classify_fields (digit_fields "" (chunks msg)).

Definition PushReasonTimeout : string := "timeout".
Definition PushReasonTLSError : string := "tls_error".
Definition PushReasonHTTP4xx : string := "http_4xx".
Definition PushReasonHTTP5xx : string := "http_5xx".
Definition PushReasonPayloadRejected : string := "payload_rejected".
Definition PushReasonNetwork : string := "network".
Definition PushReasonNA : string := "n/a".

Definition ClassifyPushError `{Unicode} (e : push_error) : string :=
  if pe_deadline e then PushReasonTimeout
  else
    let lower := ToLower (pe_msg e) in
    if strings_Contains lower "tls:" || strings_Contains lower "x509:" || strings_Contains lower "certificate"
    then PushReasonTLSError
    else if strings_Contains lower "timeout" || strings_Contains lower "deadline exceeded" then PushReasonTimeout
    else match classifyHTTPStatus (pe_msg e) with
         | statusClass4xx => PushReasonHTTP4xx
         | statusClass5xx => PushReasonHTTP5xx
         | statusClassNone => PushReasonNetwork
         end.

Definition PushReason_Valid (r : string) : bool :=
  bool_decide (r ∈ [PushReasonNA; PushReasonTimeout; PushReasonTLSError; PushReasonHTTP4xx; PushReasonHTTP5xx;
                    PushReasonPayloadRejected; PushReasonNetwork]).

(** ** The publisher (otlp_publisher.go) *)

Definition MaxOTLPPushConcurrency : nat := 4.

(** The deferred calls of a push goroutine run one after the other: the slot of the
    semaphore is released, then the wait group is told, then a panic is recovered. *)
Inductive push_phase :=
  | Pushing
  | SlotReleased (panicked : bool)
  | Counted (panicked : bool).

Record publisher := mkPublisher {
  pb_enabled : bool;
  pb_sem : nat;
  pb_wg : nat;
  pb_running : list push_phase;
  pb_total : list (string * string);
  pb_panics : nat
}.

Definition NoopOTLPPublisher : publisher := mkPublisher false 0 0 [] [] 0.
Definition NewOTLPPublisher : publisher := mkPublisher true 0 0 [] [] 0.

(** How [fn] ends. *)
Inductive push_end := PushOK | PushErr (e : push_error) | PushPanic.

Inductive publisher_action :=
  | Push
  | Return (i : nat) (o : push_end)
  | WgDone (i : nat)
  | Recover (i : nat).

Section Publisher.
Context `{U : Unicode} (cap : nat).

Definition publisher_step (p : publisher) (a : publisher_action) : publisher :=
  match a with
  | Push =>
      if negb (pb_enabled p) then p
      else if (pb_sem p <? cap)%nat
      then mkPublisher true (S (pb_sem p)) (S (pb_wg p)) (pb_running p ++ [Pushing]) (pb_total p) (pb_panics p)
      else mkPublisher true (pb_sem p) (pb_wg p) (pb_running p) (pb_total p ++ [("dropped", PushReasonNA)]) (pb_panics p)
  | Return i o =>
      match pb_running p !! i with
      | Some Pushing =>
          mkPublisher (pb_enabled p) (pb_sem p - 1) (pb_wg p)
            (<[i := SlotReleased (match o with PushPanic => true | _ => false end)]> (pb_running p))
            (pb_total p ++ match o with
                           | PushOK => [("ok", PushReasonNA)]
                           | PushErr e => [("error", ClassifyPushError e)]
                           | PushPanic => []
                           end) (pb_panics p)
      | _ => p
      end
  | WgDone i =>
      match pb_running p !! i with
      | Some (SlotReleased b) =>
          mkPublisher (pb_enabled p) (pb_sem p) (pb_wg p - 1) (<[i := Counted b]> (pb_running p)) (pb_total p) (pb_panics p)
      | _ => p
      end
  | Recover i =>
      match pb_running p !! i with
      | Some (Counted b) =>
          mkPublisher (pb_enabled p) (pb_sem p) (pb_wg p) (delete i (pb_running p)) (pb_total p)
            (if b then S (pb_panics p) else pb_panics p)
      | _ => p
      end
  end.

Definition publisher_run (p : publisher) (l : list publisher_action) : publisher := fold_left publisher_step l p.

(** [Drain] returns when the wait group is at zero. *)
Definition drained (p : publisher) : bool := (pb_wg p =? 0)%nat.
End Publisher.

(** ** Lemmas: the publisher *)

Definition holds_slot (ph : push_phase) : nat := match ph with Pushing => 1 | _ => 0 end.
Definition holds_wg (ph : push_phase) : nat := match ph with Counted _ => 0 | _ => 1 end.
Definition uncounted (ph : push_phase) : nat := match ph with Pushing | SlotReleased true | Counted true => 1 | _ => 0 end.

Lemma sum_insert {A} (f : A → nat) l i x y :
  l !! i = Some x → (sum_list_with f (<[i := y]> l) + f x = sum_list_with f l + f y)%nat.
Proof.
  revert i. induction l as [|z l IH]; intros [|i] H; try done; cbn in *; [injection H as ->; lia|].
  rewrite <- !Nat.add_assoc. f_equal. by apply IH.
Qed.

Lemma sum_delete {A} (f : A → nat) l i x : l !! i = Some x → (sum_list_with f (delete i l) + f x = sum_list_with f l)%nat.
Proof.
  revert i. induction l as [|z l IH]; intros [|i] H; try done; cbn in *; [injection H as ->; lia|].
  rewrite <- Nat.add_assoc. f_equal. by apply IH.
Qed.

Definition is_push (a : publisher_action) : nat := match a with Push => 1 | _ => 0 end.

Definition outcome_ok (o : string * string) : Prop :=
  (o.1 ∈ ["ok"; "dropped"] ∧ o.2 = PushReasonNA) ∨ (o.1 = "error" ∧ PushReason_Valid o.2 = true ∧ o.2 ≠ PushReasonNA).

Section Publisher_lemmas.
Context `{U : Unicode} (cap : nat).

Lemma classify_cases e :
  ClassifyPushError e ∈ [PushReasonTimeout; PushReasonTLSError; PushReasonHTTP4xx; PushReasonHTTP5xx; PushReasonNetwork].
Proof.
  unfold ClassifyPushError. rewrite !elem_of_cons. destruct (pe_deadline e); [auto|].
  destruct (_ || _); [auto|]. destruct (_ || _); [auto|]. destruct (classifyHTTPStatus _); auto 8.
Qed.

Lemma classify_valid e : PushReason_Valid (ClassifyPushError e) = true ∧ ClassifyPushError e ≠ PushReasonNA.
Proof.
  pose proof (classify_cases e) as H. set (r := ClassifyPushError e) in *. clearbody r.
  repeat (apply elem_of_cons in H as [->|H]; [split; [reflexivity|discriminate]|]). by apply elem_of_nil in H.
Qed.

Record publisher_inv (pushes : nat) (p : publisher) : Prop := {
  pi_slots : pb_sem p = sum_list_with holds_slot (pb_running p);
  pi_cap : (pb_sem p ≤ cap)%nat;
  pi_wg : pb_wg p = sum_list_with holds_wg (pb_running p);
  pi_all : (length (pb_total p) + pb_panics p + sum_list_with uncounted (pb_running p) =
            if pb_enabled p then pushes else 0)%nat;
  pi_labels : Forall outcome_ok (pb_total p);
  pi_off : pb_enabled p = false → pb_running p = []
}.

Lemma publisher_step_inv n p a : publisher_inv n p → publisher_inv (n + is_push a) (publisher_step cap p a).
Proof.
  intros [H1 H2 H3 H4 H5 H6]. destruct a as [|i o|i|i]; cbn [publisher_step is_push].
  - destruct (pb_enabled p) eqn:He; cbn [negb]; [|split; rewrite ?He; auto; lia].
    destruct (pb_sem p <? cap)%nat eqn:Hc; [apply Nat.ltb_lt in Hc|]; split; cbn -[sum_list_with];
      rewrite ?sum_list_with_app, ?length_app; cbn; try lia; try done.
    apply Forall_app. split; [done|]. apply Forall_singleton. left. split; [by right; left|done].
  - destruct (pb_running p !! i) as [[|b|b]|] eqn:Hi; try (rewrite Nat.add_0_r; by split).
    remember (SlotReleased _) as ph eqn:Hph. pose proof (sum_insert holds_slot _ _ _ ph Hi) as S1.
    pose proof (sum_insert holds_wg _ _ _ ph Hi) as S2. pose proof (sum_insert uncounted _ _ _ ph Hi) as S3.
    subst ph. split; cbn -[sum_list_with]; cbn [holds_slot holds_wg] in S1, S2; try lia.
    + rewrite length_app, Nat.add_0_r. destruct o; cbn [uncounted] in S3; cbn [length]; lia.
    + apply Forall_app. split; [done|]. destruct o as [|e|]; [apply Forall_singleton; left|apply Forall_singleton; right|constructor].
      * split; [by left|done].
      * split; [done|]. apply classify_valid.
    + intros He. rewrite (H6 He) in Hi. done.
  - destruct (pb_running p !! i) as [[|b|b]|] eqn:Hi; try (rewrite Nat.add_0_r; by split).
    pose proof (sum_insert holds_slot _ _ _ (Counted b) Hi) as S1.
    pose proof (sum_insert holds_wg _ _ _ (Counted b) Hi) as S2. pose proof (sum_insert uncounted _ _ _ (Counted b) Hi) as S3.
    split; cbn -[sum_list_with]; cbn [holds_slot holds_wg] in S1, S2; try done; try lia.
    + rewrite Nat.add_0_r. destruct b; cbn [uncounted] in S3; lia.
    + intros He. rewrite (H6 He) in Hi. done.
  - destruct (pb_running p !! i) as [[|b|b]|] eqn:Hi; try (rewrite Nat.add_0_r; by split).
    pose proof (sum_delete holds_slot _ _ _ Hi) as S1.
    pose proof (sum_delete holds_wg _ _ _ Hi) as S2. pose proof (sum_delete uncounted _ _ _ Hi) as S3.
    split; cbn -[sum_list_with]; cbn [holds_slot holds_wg] in S1, S2; try done; try lia.
    + rewrite Nat.add_0_r. destruct b; cbn [uncounted] in S3; lia.
    + intros He. rewrite (H6 He) in Hi. done.
Qed.

Lemma publisher_run_inv n p l : publisher_inv n p → publisher_inv (n + sum_list_with is_push l) (publisher_run cap p l).
Proof.
  revert n p. induction l as [|a l IH]; intros n p H; cbn; [by rewrite Nat.add_0_r|].
  rewrite Nat.add_assoc. by apply IH, publisher_step_inv.
Qed.

Lemma publisher_step_enabled p a : pb_enabled (publisher_step cap p a) = pb_enabled p.
Proof.
  destruct a as [|i o|i|i]; unfold publisher_step; [|by destruct (pb_running p !! i) as [[]|]..].
  destruct (pb_enabled p) eqn:He; cbn [negb]; [|done]. by destruct (_ <? _)%nat.
Qed.

Lemma publisher_run_enabled p l : pb_enabled (publisher_run cap p l) = pb_enabled p.
Proof.
  revert p. induction l as [|a l IH]; intros p; [done|]. unfold publisher_run in *. cbn [fold_left].
  by rewrite IH, publisher_step_enabled.
Qed.

Lemma no_wg rs ph : sum_list_with holds_wg rs = 0%nat → ph ∈ rs → ∃ b, ph = Counted b.
Proof.
  induction rs as [|x rs IH]; [by intros _ ?%elem_of_nil|]. cbn. intros Hd [->|Hin]%elem_of_cons.
  - destruct x; cbn in Hd; [lia|lia|eauto].
  - apply IH; [lia|done].
Qed.
End Publisher_lemmas.

(** ** Lemmas: attributes *)

Lemma valid_runs_valid s b : ValidString (valid_runs b (chunks s)) = true.
Proof.
  revert b. induction s as [|s k t Hne Hs Hk Hch IH] using chunks_ind; intros b; [done|]. rewrite Hch.
  destruct k as [r bs|c]; cbn [valid_runs].
  - erewrite ValidString_rune by (eapply chunks_rune, Hch). apply IH.
  - destruct b; [rewrite sapp_nil_l; apply IH|]. unfold replacement. erewrite ValidString_rune by apply encode_error. apply IH.
Qed.

Lemma sanitizeUTF8_valid s : ValidString (sanitizeUTF8 s) = true.
Proof. unfold sanitizeUTF8. destruct (ValidString s) eqn:E; [done|]. apply valid_runs_valid. Qed.

Lemma sapp_inj_r p s t : p +:+ s = p +:+ t → s = t.
Proof. induction p as [|c p IH]; [done|]. rewrite !sapp_cons. intros [= H]. by apply IH. Qed.

Lemma edge_keys `{MapRange} (e : Edge) : NoDup ((edgeAttrs e).*1).
Proof.
  unfold edgeAttrs. rewrite fmap_app. apply NoDup_app. split; [|split].
  - apply (bool_decide_unpack _). vm_compute. exact I.
  - intros k Hk (kv & Hkv & Hin)%list_elem_of_fmap. apply list_elem_of_fmap in Hin as (m & -> & _). cbn in Hkv. subst k.
    assert (HasPrefix (metadataAttrPrefix +:+ m.1) metadataAttrPrefix = true) as Hp by apply HasPrefix_app.
    set (key := _ +:+ m.1) in *. clearbody key. cbn in Hk.
    repeat (apply elem_of_cons in Hk as [->|Hk]; [vm_compute in Hp; discriminate|]). by apply elem_of_nil in Hk.
  - rewrite <- list_fmap_compose. pose proof (range_map_perm 70 (Metadata e)) as Hr.
    assert (NoDup ((range_map 70 (Metadata e)).*1)) as Hn by (rewrite Hr; apply NoDup_fst_map_to_list).
    replace ((fst ∘ _) <$> range_map 70 (Metadata e))
      with ((λ k, metadataAttrPrefix +:+ k) <$> (range_map 70 (Metadata e)).*1) by (by rewrite <- list_fmap_compose).
    apply NoDup_fmap_2; [|done]. intros k1 k2. apply sapp_inj_r.
Qed.

Lemma device_keys (d : Device) : NoDup ((deviceAttrs d).*1).
Proof.
  unfold deviceAttrs, optional_attr.
  repeat case_bool_decide; apply (bool_decide_unpack _); vm_compute; exact I.
Qed.

Lemma edge_values `{MapRange} (e : Edge) k v : (k, v) ∈ edgeAttrs e → ValidString v = true.
Proof.
  unfold edgeAttrs. rewrite elem_of_app. intros [H1|H2].
  - repeat (apply elem_of_cons in H1 as [[= -> ->]|H1]; [apply sanitizeUTF8_valid || apply printable_text, Itoa_printable|]).
    by apply elem_of_nil in H1.
  - apply list_elem_of_fmap in H2 as (kv & [= -> ->] & _). apply sanitizeUTF8_valid.
Qed.

Lemma device_values (d : Device) k v : (k, v) ∈ deviceAttrs d → ValidString v = true.
Proof.
  assert (∀ k' v', (k, v) ∈ optional_attr k' v' → ValidString v = true) as Ho.
  { intros k' v'. unfold optional_attr. case_bool_decide; [|by intros ?%elem_of_nil].
    intros [= -> ->]%list_elem_of_singleton. apply sanitizeUTF8_valid. }
  unfold deviceAttrs. rewrite elem_of_cons, !elem_of_app. intros [[= -> ->]|Hr]; [apply sanitizeUTF8_valid|].
  naive_solver.
Qed.

Lemma record_values now c k v : (k, v) ∈ lr_attrs (change_record now c) → ValidString v = true.
Proof.
  cbn [change_record lr_attrs]. rewrite elem_of_cons. intros [[= -> ->]|Hz]; [by destruct (Kind c)|].
  apply elem_of_zip_r in Hz. apply list_elem_of_fmap in Hz as (x & -> & _). apply sanitizeUTF8_valid.
Qed.

(** ** Properties *)

(** what is handed to the OTLP SDK is well-formed whatever bytes the devices sent.
    The attributes of an edge and of a device have pairwise different keys, so no metadata
    key can overwrite a built-in one, and their values are valid UTF-8; a valid string is
    passed on unchanged.  Every metadata entry is exported, and every change gives one
    record, at Warn exactly for a removal. *)
Theorem otlp_wellformed (MR : MapRange) (e : Edge) (d : Device) (now : nat → time * time) (cs : list EdgeChange) :
  NoDup ((edgeAttrs e).*1) ∧ NoDup ((deviceAttrs d).*1) ∧
  (∀ k v, (k, v) ∈ edgeAttrs e ∨ (k, v) ∈ deviceAttrs d ∨ (∃ r, r ∈ PushChanges now cs ∧ (k, v) ∈ lr_attrs r) →
     ValidString v = true) ∧
  (∀ s, ValidString s = true → sanitizeUTF8 s = s) ∧
  (∀ k v, Metadata e !! k = Some v → (metadataAttrPrefix +:+ k, sanitizeUTF8 v) ∈ edgeAttrs e) ∧
  length (PushChanges now cs) = length cs ∧
  (∀ i r, PushChanges now cs !! i = Some r →
     ∃ c, cs !! i = Some c ∧ (lr_severity r = LevelWarn ↔ Kind c = ChangeRemoved)).
Proof.
  split_and!.
  - apply edge_keys.
  - apply device_keys.
  - intros k v [He|[Hd|(r & Hr & Hv)]]; [by eapply edge_values|by eapply device_values|].
    unfold PushChanges in Hr. apply elem_of_lookup_imap in Hr as (i & c & -> & _). by eapply record_values.
  - intros s Hs. unfold sanitizeUTF8. by rewrite Hs.
  - intros k v Hm. unfold edgeAttrs. apply elem_of_app. right. apply list_elem_of_fmap. exists (k, v). split; [done|].
    by apply elem_of_range.
  - apply length_imap.
  - intros i r Hr. unfold PushChanges in Hr. rewrite list_lookup_imap in Hr. destruct (cs !! i) as [c|]; [|done].
    injection Hr as <-. exists c. split; [done|]. cbn. by destruct (Kind c).
Qed.

(** C28: the OTLP publisher.  Whatever the interleaving of pushes and of the deferred calls
    of their goroutines, at most [cap] pushes are in flight; every push is accounted for
    exactly once, as ok, as an error with a declared reason, as dropped, or as a recovered
    panic, or is still under way; and when Drain returns no push is running. *)
Theorem publisher_accounts (U : Unicode) (cap : nat) (l : list publisher_action) :
  let p := publisher_run cap NewOTLPPublisher l in
  (sum_list_with holds_slot (pb_running p) ≤ cap)%nat ∧
  (length (pb_total p) + pb_panics p + sum_list_with uncounted (pb_running p) = sum_list_with is_push l)%nat ∧
  Forall outcome_ok (pb_total p) ∧
  (drained p = true → ∀ ph, ph ∈ pb_running p → ∃ b, ph = Counted b) ∧
  publisher_run cap NoopOTLPPublisher l = NoopOTLPPublisher.
Proof.
  assert (publisher_inv cap 0 NewOTLPPublisher) as H0 by (split; cbn; auto; lia).
  pose proof (publisher_run_inv cap _ _ l H0) as [H1 H2 H3 H4 H5 _]. cbn zeta.
  rewrite publisher_run_enabled in H4. cbn [NewOTLPPublisher pb_enabled] in H4. split_and!; [lia|lia|done| |].
  - unfold drained. rewrite H3. intros Hd%Nat.eqb_eq ph. by apply no_wg.
  - clear. unfold publisher_run. induction l as [|a l IH]; [done|]. cbn [fold_left].
    assert (publisher_step cap NoopOTLPPublisher a = NoopOTLPPublisher) as -> by (by destruct a as [|[] ?|[]|[]]). exact IH.
Qed.

(** ** Examples *)

(** The port of an HTTPS collector is read as a status code: a refused connection is
    reported as a client error instead of a network error. *)
Lemma refused_connection_is_4xx :
  ClassifyPushError (H:=unicode_table) (mkPushError false "dial tcp 10.0.0.7:443: connect: connection refused") = PushReasonHTTP4xx.
Proof. vm_compute. reflexivity. Qed.

Example classified :
  (λ m, ClassifyPushError (H:=unicode_table) (mkPushError false m)) <$>
    ["failed to send: 503 Service Unavailable"; "400 Bad Request"; "TLS: bad record"; "i/o timeout"; "EOF"] =
  [PushReasonHTTP5xx; PushReasonHTTP4xx; PushReasonTLSError; PushReasonTimeout; PushReasonNetwork].
Proof. vm_compute. reflexivity. Qed.
