(* ===== verification/Cycle.v ===== *)
(** * One discovery cycle

    internal/app/cycle.go: the aggregation of the concurrent probes and what a cycle
    makes of them.  The goroutines meet at one mutex; the model takes the outcomes of
    the targets in the order of that lock, so every interleaving is one list. *)

From Stdlib Require Import ZArith Lia.
From S2P Require Import Prelude GoText Discovery GraphKeys Reconcile GraphDiff Pdu Credentials Synthesize DeviceWalk.
Open Scope Z_scope.

(** ** Aggregation *)

(** How the goroutine of a target ends: a recovered panic, no slot before the cycle
    budget expired, a failed probe, a successful one with its ARP table. *)
Inductive outcome :=
| Panicked
| BudgetSkipped
| ProbeFailed (reason : string)
| Probed (res : probeResult) (arp : gmap string string).

Record aggregate := mkAggregate {
  ag_results : list probeResult;
  ag_okCount : Z;
  ag_failByReason : gmap string Z;
  ag_allARPMACs : gmap string string
}.

Definition recordFail (reason : string) (a : aggregate) : aggregate :=
  mkAggregate (ag_results a) (ag_okCount a)
    (<[reason := default 0 (ag_failByReason a !! reason) + 1]> (ag_failByReason a)) (ag_allARPMACs a).

Record cycleConfig := mkCycleConfig {
  UnconfirmedLinkTTLCycles : Z;
  MaxGraphDevices : Z;
  MaxGraphEdges : Z
}.

Section RunCycle.
Context `{U : Unicode} `{R : MapRange} `{N : NetText}.

(** The first address seen for a MAC stays. *)
Definition merge_arp (arp all : gmap string string) : gmap string string :=
  fold_left keep_first (range_map 2 arp) all.

Definition collect (a : aggregate) (o : outcome) : aggregate :=
  match o with
  | Panicked => recordFail DiscoveryReasonPanic a
  | BudgetSkipped => recordFail DiscoveryReasonBudgetExpired a
  | ProbeFailed reason => recordFail reason a
  | Probed res arp =>
      mkAggregate (ag_results a ++ [res]) (ag_okCount a + 1) (ag_failByReason a)
        (merge_arp arp (ag_allARPMACs a))
  end.

Definition collect_all (os : list outcome) : aggregate :=
  fold_left collect os (mkAggregate [] 0 ∅ ∅).

Definition by_target (a b : probeResult) : bool := targetIdx a <=? targetIdx b.

(** ** Module status *)

Definition worst_step (m : gmap string Z) (kv : string * Z) : gmap string Z :=
  if default 0 (m !! kv.1) <? kv.2 then <[kv.1 := kv.2]> m else m.

Definition worstStatus (results : list probeResult) : gmap string Z :=
  fold_left (λ m r, fold_left worst_step (range_map 3 (moduleStatus r)) m) results ∅.

(** The gauge keeps the values that are not set. *)
Definition publish_status (worst gauge : gmap string Z) : gmap string Z := worst ∪ gauge.

(** ** The graph of a cycle *)

Definition mgmt_entry (r : probeResult) : option (string * string) :=
  match device r with
  | Some d => if bool_decide (mgmtIP r ≠ "") then Some (mgmtIP r, ID d) else None
  | None => None
  end.

Definition ipToID (results : list probeResult) : gmap string string :=
  fold_left keep_first (omap mgmt_entry results) ∅.

Record cycle_out := mkCycleOut {
  co_graph : Graph;
  co_ages : option (gmap EdgeKey Z);
  co_conflicts : list Conflict;
  co_failCount : Z;
  co_worst : gmap string Z;
  co_suppressed : Z
}.

Definition failCount (a : aggregate) : Z :=
  fold_left (λ n kv, n + kv.2) (range_map 4 (ag_failByReason a)) 0.

(** What [RunCycle] does after [wg.Wait]. *)
Definition cycle_tail (cfg : cycleConfig) (prevAges : option (gmap EdgeKey Z)) (a : aggregate) : cycle_out :=
  let results := sort_by by_target (ag_results a) in
  let devices := omap device results in
  let rawEdges := results ≫= edges in
  let allOOS := results ≫= outOfScope in
  let '(canonicalEdges, suppressed) := SynthesizeEdges rawEdges (ipToID results) (ag_allARPMACs a) in
  let '(reconciledEdges, conflicts) := Reconcile canonicalEdges in
  let '(ages, expired) := AgeUnconfirmed reconciledEdges prevAges (UnconfirmedLinkTTLCycles cfg) in
  let kept := filter (λ e, Key e ∉ expired) reconciledEdges in
  mkCycleOut (mkGraph (DeduplicateDevices devices) kept (DeduplicateOOS allOOS)) ages conflicts
    (failCount a) (worstStatus results) suppressed.

Definition RunCycle (cfg : cycleConfig) (prevAges : option (gmap EdgeKey Z)) (os : list outcome) : cycle_out :=
  cycle_tail cfg prevAges (collect_all os).
End RunCycle.

(** ** Large topologies *)

Definition LargeTopologyEdgeThreshold : Z := 5000.
Definition LargeTopologyWarnCooldownCycles : Z := 60.

(** The warning, if one is emitted, and the state to carry on. *)
Definition MaybeWarnLargeTopology (nedges : Z) (prevAbove : bool) (cycleNum lastWarnCycle : Z)
  : bool * (bool * Z) :=
  let nowAbove := LargeTopologyEdgeThreshold <? nedges in
  if nowAbove && negb prevAbove && (LargeTopologyWarnCooldownCycles <=? cycleNum - lastWarnCycle)
  then (true, (nowAbove, cycleNum))
  else (false, (nowAbove, lastWarnCycle)).

(** ** Lemmas *)

Definition probe_of (o : outcome) : option probeResult :=
  match o with Probed r _ => Some r | _ => None end.

Definition arp_of (o : outcome) : gmap string string :=
  match o with Probed _ a => a | _ => ∅ end.

Definition fail_reason (o : outcome) : option string :=
  match o with
  | Panicked => Some DiscoveryReasonPanic
  | BudgetSkipped => Some DiscoveryReasonBudgetExpired
  | ProbeFailed r => Some r
  | Probed _ _ => None
  end.

Lemma merge_arp_union `{MapRange} arp all : merge_arp arp all = all ∪ arp.
Proof.
  apply map_eq. intros k. unfold merge_arp. rewrite keep_first_lookup, lookup_union.
  assert (snd <$> find_first (λ kv, bool_decide (kv.1 = k)) (range_map 2 arp) = arp !! k) as ->.
  { destruct (find_first _ _) as [[k' v]|] eqn:Hf; cbn.
    - apply find_first_Some in Hf as (pre & post & Heq & Hk & _). bprop. cbn in Hk. subst k'.
      symmetry. apply (elem_of_range 2). rewrite Heq. set_solver.
    - apply find_first_None in Hf. rewrite Forall_forall in Hf.
      destruct (arp !! k) as [v|] eqn:Hv; [|done]. apply (elem_of_range 2), Hf in Hv.
      cbn in Hv. by bprop. }
  by destruct (all !! k), (arp !! k).
Qed.

Definition total (m : gmap string Z) : Z := foldr (λ kv n, kv.2 + n) 0 (map_to_list m).

Lemma foldr_sum_perm (l1 l2 : list (string * Z)) :
  l1 ≡ₚ l2 → foldr (λ kv n, kv.2 + n) 0 l1 = foldr (λ kv n, kv.2 + n) 0 l2.
Proof. induction 1; cbn; lia. Qed.

Lemma total_insert_new k v m : m !! k = None → total (<[k := v]> m) = v + total m.
Proof. intros Hk. unfold total. by rewrite (foldr_sum_perm _ _ (map_to_list_insert m k v Hk)). Qed.

Lemma total_bump k m : total (<[k := default 0 (m !! k) + 1]> m) = total m + 1.
Proof.
  destruct (m !! k) as [v|] eqn:Hk; unfold from_option, id.
  - assert (total m = v + total (delete k m)) as ->.
    { rewrite <-(total_insert_new k v) by apply lookup_delete_eq. by rewrite insert_delete_id. }
    rewrite <-insert_delete_eq, total_insert_new by apply lookup_delete_eq. lia.
  - rewrite total_insert_new by done. cbn. lia.
Qed.

Lemma failCount_total `{MapRange} a : failCount a = total (ag_failByReason a).
Proof.
  unfold failCount, total. rewrite <-(foldr_sum_perm _ _ (range_map_perm 4 (ag_failByReason a))).
  assert (∀ (l : list (string * Z)) n, fold_left (λ n kv, n + kv.2) l n = foldr (λ kv n, kv.2 + n) 0 l + n)
    as H0; [|rewrite H0; lia].
  induction l as [|kv l IH]; intros n; cbn; [lia|]. rewrite IH. lia.
Qed.

(** The parts of the aggregate, in closed form. *)
Record collected `{MapRange} (os : list outcome) (a : aggregate) : Prop := {
  cl_results : ag_results a = omap probe_of os;
  cl_okCount : ag_okCount a = Z.of_nat (length (omap probe_of os));
  cl_total : total (ag_failByReason a) + ag_okCount a = Z.of_nat (length os);
  cl_reasons : ∀ r, default 0 (ag_failByReason a !! r) =
    Z.of_nat (length (filter (λ x, x = r) (omap fail_reason os)));
  cl_arp : ag_allARPMACs a = fold_left (λ all o, all ∪ arp_of o) os ∅
}.

Lemma recordFail_collected `{MapRange} os a o r :
  collected os a → fail_reason o = Some r → collected (os ++ [o]) (recordFail r a).
Proof.
  intros [H1 H2 H3 H4 H5] Ho. assert (probe_of o = None ∧ arp_of o = ∅) as [Hp Ha] by by destruct o.
  assert (omap probe_of (os ++ [o]) = omap probe_of os) as Hpo.
  { rewrite omap_app. cbn [omap list_omap]. by rewrite Hp, app_nil_r. }
  assert (omap fail_reason (os ++ [o]) = omap fail_reason os ++ [r]) as Hfo.
  { rewrite omap_app. cbn [omap list_omap]. by rewrite Ho. }
  split; cbn [recordFail ag_results ag_okCount ag_failByReason ag_allARPMACs]; rewrite ?Hpo; try done.
  - rewrite total_bump, length_app. cbn. lia.
  - intros r'. rewrite Hfo, filter_app, length_app, filter_cons, filter_nil.
    destruct (decide (r = r')) as [->|Hne].
    + rewrite lookup_insert_eq, Nat2Z.inj_add, <-H4. cbn. lia.
    + rewrite lookup_insert_ne, H4 by done. cbn. lia.
  - rewrite fold_left_app. cbn [fold_left]. by rewrite Ha, map_union_empty.
Qed.

Lemma collect_all_spec `{MapRange} os : collected os (collect_all os).
Proof.
  unfold collect_all. apply (fold_left_prefix_inv (λ pre a, collected pre a)); [by split|].
  intros pre o a Hc. destruct o as [| |r|res arp]; try by apply recordFail_collected.
  destruct Hc as [H1 H2 H3 H4 H5].
  assert (omap probe_of (pre ++ [Probed res arp]) = omap probe_of pre ++ [res]) as Hpo by by rewrite omap_app.
  assert (omap fail_reason (pre ++ [Probed res arp]) = omap fail_reason pre) as Hfo
    by by rewrite omap_app, app_nil_r.
  split; cbn [collect ag_results ag_okCount ag_failByReason ag_allARPMACs]; rewrite ?Hpo, ?Hfo, ?length_app.
  - by rewrite H1.
  - cbn. lia.
  - cbn. lia.
  - done.
  - rewrite fold_left_app. cbn [fold_left arp_of]. by rewrite merge_arp_union, H5.
Qed.

(** All ARP tables of the cycle agree on the address of a MAC, in any spelling. *)
Definition arp_consistent `{NetText} (os : list outcome) : Prop :=
  ∀ o1 o2 m1 m2 ip1 ip2, o1 ∈ os → o2 ∈ os → arp_of o1 !! m1 = Some ip1 → arp_of o2 !! m2 = Some ip2 →
    m1 = m2 ∨ (∃ hw, canonical_mac m1 = Some hw ∧ canonical_mac m2 = Some hw) → ip1 = ip2.

Lemma arp_fold_lookup (os : list outcome) all k ip :
  fold_left (λ all o, all ∪ arp_of o) os all !! k = Some ip →
  all !! k = Some ip ∨ ∃ o, o ∈ os ∧ arp_of o !! k = Some ip.
Proof.
  revert all. induction os as [|o os IH]; intros all; cbn; [by left|].
  intros [[H|[_ H]]%lookup_union_Some_raw|(o' & Ho & H)]%IH; [by left|right; exists o; set_solver|].
  right. exists o'. set_solver.
Qed.

Lemma arp_fold_has (os : list outcome) all k o :
  o ∈ os → is_Some (arp_of o !! k) → is_Some (fold_left (λ all o, all ∪ arp_of o) os all !! k).
Proof.
  intros Ho Hk. apply (fold_left_reach (λ all : gmap string string, is_Some (all !! k)) _ os all o Ho).
  - intros m. rewrite lookup_union. destruct Hk as [v ->]. destruct (m !! k); cbn; eauto.
  - intros m o' [v Hv]. exists v. by apply lookup_union_Some_l.
Qed.

Lemma collected_arp_unique `{NetText} `{MapRange} os :
  arp_consistent os → arp_unique (ag_allARPMACs (collect_all os)).
Proof.
  intros Hc m1 m2 ip1 ip2 hw. rewrite (cl_arp _ _ (collect_all_spec os)).
  intros [?|(o1 & ? & ?)]%arp_fold_lookup [?|(o2 & ? & ?)]%arp_fold_lookup ? ?;
    [done..|]. eapply (Hc o1 o2 m1 m2); eauto.
Qed.

Lemma collected_arp_perm `{NetText} (R1 R2 : MapRange) os1 os2 :
  os1 ≡ₚ os2 → arp_consistent os1 →
  ag_allARPMACs (collect_all (R := R1) os1) = ag_allARPMACs (collect_all (R := R2) os2).
Proof.
  intros Hp Hc. rewrite (cl_arp _ _ (collect_all_spec (H := R1) os1)), (cl_arp _ _ (collect_all_spec (H := R2) os2)).
  assert (∀ l1 l2 k ip, l1 ≡ₚ l2 → arp_consistent l1 →
    fold_left (λ all o, all ∪ arp_of o) l1 ∅ !! k = Some ip →
    fold_left (λ all o, all ∪ arp_of o) l2 ∅ !! k = Some ip) as Hdir.
  { intros l1 l2 k ip Hl Hcl [?|(o & Ho & Hk)]%arp_fold_lookup; [set_solver|].
    destruct (arp_fold_has l2 ∅ k o) as [ip' Hip']; [by rewrite <-Hl|eauto|].
    rewrite Hip'. apply arp_fold_lookup in Hip' as [?|(o' & Ho' & Hk')]; [set_solver|].
    f_equal. eapply (Hcl o' o k k); [by rewrite Hl|done..|by left]. }
  apply map_eq. intros k. apply option_eq. intros ip. split; [by apply Hdir|].
  apply Hdir; [done|]. intros o1 o2 m1 m2 ip1 ip2. rewrite <-!Hp. apply Hc.
Qed.

Lemma worst_steps_lookup l m k :
  NoDup l.*1 →
  fold_left worst_step l m !! k =
    match snd <$> find_first (λ kv, bool_decide (kv.1 = k)) l with
    | Some v => if default 0 (m !! k) <? v then Some v else m !! k
    | None => m !! k
    end.
Proof.
  revert m. induction l as [|[k' v] l IH]; intros m Hnd; [done|].
  cbn [fold_left fmap list_fmap fst] in *. apply NoDup_cons in Hnd as [Hk' Hnd]. rewrite IH by done.
  cbn [find_first fst]. case_bool_decide as Hk.
  - subst k'. assert (find_first (λ kv, bool_decide (kv.1 = k)) l = None) as ->.
    { apply find_first_None, Forall_forall. intros kv Hkv. apply bool_decide_eq_false. intros <-.
      apply Hk', list_elem_of_fmap. eauto. }
    cbn. unfold worst_step. cbn [fst snd]. destruct (_ <? v); [by rewrite lookup_insert_eq|done].
  - assert (worst_step m (k', v) !! k = m !! k) as ->; [|done].
    unfold worst_step. cbn [fst snd]. destruct (_ <? v); [by rewrite lookup_insert_ne|done].
Qed.

(** The status of a device, folded into the worst so far. *)
Lemma worst_device_lookup `{MapRange} st m k :
  fold_left worst_step (range_map 3 st) m !! k =
    match st !! k with
    | Some v => if default 0 (m !! k) <? v then Some v else m !! k
    | None => m !! k
    end.
Proof.
  rewrite worst_steps_lookup by apply range_NoDup.
  assert (snd <$> find_first (λ kv, bool_decide (kv.1 = k)) (range_map 3 st) = st !! k) as ->; [|done].
  destruct (find_first _ _) as [[k' v]|] eqn:Hf; cbn.
  - apply find_first_Some in Hf as (pre & post & Heq & Hk & _). bprop. cbn in Hk. subst k'.
    symmetry. apply (elem_of_range 3). rewrite Heq. set_solver.
  - apply find_first_None in Hf. rewrite Forall_forall in Hf.
    destruct (st !! k) as [v|] eqn:Hv; [|done]. apply (elem_of_range 3), Hf in Hv. cbn in Hv. by bprop.
Qed.

Lemma worstStatus_range (R1 R2 : MapRange) results :
  worstStatus (R := R1) results = worstStatus (R := R2) results.
Proof.
  apply map_eq. intros k. unfold worstStatus. generalize (∅ : gmap string Z) at 1 2.
  induction results as [|r rs IH]; intros m; [done|]. cbn [fold_left].
  rewrite IH. f_equal. clear. f_equal. apply map_eq. intros j. by rewrite !worst_device_lookup.
Qed.

Definition status_below (k : string) (b : Z) (results : list probeResult) : Prop :=
  ∀ r v, r ∈ results → moduleStatus r !! k = Some v → v ≤ b.

Lemma status_below_snoc k b pre r :
  status_below k b pre → (∀ v, moduleStatus r !! k = Some v → v ≤ b) → status_below k b (pre ++ [r]).
Proof. intros Hp Hr r' v [H|H%list_elem_of_singleton]%elem_of_app Hv; [by eapply Hp|subst; auto]. Qed.

(** The largest positive status a device reported, if any. *)
Lemma worstStatus_spec `{MapRange} results k :
  match worstStatus results !! k with
  | Some v => 0 < v ∧ (∃ r, r ∈ results ∧ moduleStatus r !! k = Some v) ∧ status_below k v results
  | None => status_below k 0 results
  end.
Proof.
  unfold worstStatus.
  apply (fold_left_prefix_inv (λ pre (m : gmap string Z), match m !! k with
    | Some v => 0 < v ∧ (∃ r, r ∈ pre ∧ moduleStatus r !! k = Some v) ∧ status_below k v pre
    | None => status_below k 0 pre
    end)); [cbv beta; rewrite lookup_empty; by intros r v Hr%elem_of_nil|].
  intros pre r m IH. rewrite worst_device_lookup.
  assert (∀ b b', b ≤ b' → status_below k b pre → status_below k b' pre) as Hmono.
  { intros b b' Hb Hs r' v Hr Hv. specialize (Hs r' v Hr Hv). lia. }
  destruct (m !! k) as [w|] eqn:Hw; [destruct IH as (H1 & (r0 & Hr0 & Hs0) & H3)|];
    (destruct (moduleStatus r !! k) as [v|] eqn:Hv; cbn [from_option id];
      [destruct (_ <? v) eqn:E; bprop|]).
  1,4: split; [lia|]; split; [exists r; set_solver|].
  3,4: split; [lia|]; split; [exists r0; set_solver|].
  all: apply status_below_snoc; [try done; by eapply Hmono; [|done]; lia|].
  all: intros v' Hv'; rewrite Hv in Hv'; try done; injection Hv' as <-; lia.
Qed.

Lemma by_target_trans a b c : by_target a b = true → by_target b c = true → by_target a c = true.
Proof. unfold by_target. intros. bprop. apply Z.leb_le. lia. Qed.

Lemma by_target_total a b : by_target a b = true ∨ by_target b a = true.
Proof. unfold by_target. rewrite !Z.leb_le. lia. Qed.

Lemma by_target_unique l1 l2 :
  l1 ≡ₚ l2 → NoDup (targetIdx <$> l1) → sort_by by_target l1 = sort_by by_target l2.
Proof.
  intros Hp Hnd. apply sort_by_unique; [apply by_target_trans|apply by_target_total|done|].
  intros x y Hx Hy H1 H2. unfold by_target in *. bprop.
  eapply (NoDup_fmap_elem targetIdx); [done..|]. lia.
Qed.

(** The ages and the expired links do not depend on the iteration order. *)
Lemma tail_ages `{Unicode} (R1 R2 : MapRange) canon prevAges ttl :
  let e := reconcile_ref canon in
  let '(a1, x1) := AgeUnconfirmed (MR := R1) e prevAges ttl in
  let '(a2, x2) := AgeUnconfirmed (MR := R2) e prevAges ttl in
  a1 = a2 ∧ ∀ k, k ∈ x1 ↔ k ∈ x2.
Proof.
  intros e. assert (NoDup (Key <$> e)) as Hnd.
  { unfold e. rewrite <-(Reconcile_edges (MR := R1)). apply Reconcile_NoDup. }
  destruct prevAges as [m|]; [|done].
  destruct (AgeUnconfirmed (MR := R1) e (Some m) ttl) as [a1 x1] eqn:H1.
  destruct (AgeUnconfirmed (MR := R2) e (Some m) ttl) as [a2 x2] eqn:H2.
  assert (∀ k, ∃ m1 m2, a1 = Some m1 ∧ a2 = Some m2 ∧ m1 !! k = m2 !! k ∧ (k ∈ x1 ↔ k ∈ x2)) as Hk.
  { intros k. destruct (AgeUnconfirmed_pointwise (MR := R1) ttl e m k Hnd) as (m1 & y1 & E1 & P1).
    destruct (AgeUnconfirmed_pointwise (MR := R2) ttl e m k Hnd) as (m2 & y2 & E2 & P2).
    rewrite H1 in E1. rewrite H2 in E2. apply pair_equal_spec in E1 as [-> ->], E2 as [-> ->].
    exists m1, m2. rewrite <-P2 in P1. apply pair_equal_spec in P1 as [P1 P1'].
    split_and!; [done..|]. revert P1'. repeat case_bool_decide; done. }
  split; [|intros k; by destruct (Hk k) as (? & ? & _ & _ & _ & ?)].
  destruct (Hk (mkEdgeKey "" "" "" "")) as (m1 & m2 & -> & -> & _). f_equal. apply map_eq. intros k.
  destruct (Hk k) as (m1' & m2' & [= ->] & [= ->] & ? & _). done.
Qed.

(** A graph the rest of the program can rely on: one entry per device, per link and
    per out-of-scope neighbour. *)
Record graph_ok (g : Graph) : Prop := {
  go_devices : NoDup (ID <$> Devices g);
  go_edges : NoDup (Key <$> Edges g);
  go_oos : NoDup (oosKey <$> OutOfScope g)
}.

Lemma RunCycle_graph_ok `{Unicode} `{NetText} `{MapRange} cfg prevAges os :
  graph_ok (co_graph (RunCycle cfg prevAges os)).
Proof.
  unfold RunCycle, cycle_tail. destruct (SynthesizeEdges _ _ _) as [canon supp].
  pose proof (Reconcile_NoDup canon) as Hnd. destruct (Reconcile canon) as [rec conf].
  destruct (AgeUnconfirmed _ _ _) as [ages expired]. split; cbn.
  - apply dedup_by_NoDup.
  - by apply NoDup_fmap_filter.
  - apply dedup_by_NoDup.
Qed.

(** ** Properties *)

(** C6: The scheduling of the probes does not matter. Take the outcomes of a cycle in
    two orders of the lock, with any two iteration orders of the maps. If the ARP
    tables of the devices agree on the address of each MAC, the cycle yields the same
    graph, ages, failure count, module statuses and number of suppressed entries: the
    targets are put back in configuration order before anything depends on order. *)
Theorem cycle_schedule_independent `{Unicode} `{NetText} (R1 R2 : MapRange) cfg prevAges os1 os2 :
  os1 ≡ₚ os2 → NoDup (targetIdx <$> omap probe_of os1) → arp_consistent os1 →
  let c1 := RunCycle (R := R1) cfg prevAges os1 in
  let c2 := RunCycle (R := R2) cfg prevAges os2 in
  co_graph c1 = co_graph c2 ∧ co_ages c1 = co_ages c2 ∧ co_failCount c1 = co_failCount c2 ∧
  co_worst c1 = co_worst c2 ∧ co_suppressed c1 = co_suppressed c2.
Proof.
  intros Hp Hnd Hc. unfold RunCycle, cycle_tail.
  pose proof (collect_all_spec (H := R1) os1) as [Hr1 Hk1 Ht1 _ _].
  pose proof (collect_all_spec (H := R2) os2) as [Hr2 Hk2 Ht2 _ _].
  assert (omap probe_of os1 ≡ₚ omap probe_of os2) as Hpp by by rewrite Hp.
  assert (sort_by by_target (omap probe_of os1) = sort_by by_target (omap probe_of os2)) as Hs
    by by apply by_target_unique.
  rewrite Hr1, Hr2, <-Hs, !failCount_total. set (results := sort_by by_target (omap probe_of os1)).
  rewrite <-(collected_arp_perm R1 R2 os1 os2 Hp Hc), <-(SynthesizeEdges_range R1 R2)
    by by apply collected_arp_unique.
  destruct (SynthesizeEdges (R := R1) _ _ _) as [canon supp].
  pose proof (tail_ages R1 R2 canon prevAges (UnconfirmedLinkTTLCycles cfg)) as Hages.
  pose proof (Reconcile_edges (MR := R1) canon) as He1. pose proof (Reconcile_edges (MR := R2) canon) as He2.
  destruct (Reconcile (MR := R1) canon) as [e1 cf1], (Reconcile (MR := R2) canon) as [e2 cf2].
  cbn [fst] in *. subst e2. rewrite <-He1 in *. clear He1.
  destruct (AgeUnconfirmed (MR := R1) _ _ _) as [a1 x1], (AgeUnconfirmed (MR := R2) _ _ _) as [a2 x2].
  destruct Hages as [<- Hx]. cbn [co_graph co_ages co_failCount co_worst co_suppressed]. split_and!; try done.
  - f_equal. apply list_filter_iff. intros e. by rewrite Hx.
  - apply Permutation_length in Hp, Hpp. rewrite Hk1, Hk2 in *. lia.
  - apply worstStatus_range.
Qed.

Definition sample_device (id : string) : Device := mkDevice id "v" "m" "o" "s" 0 ∅.

Definition sample_result (idx : Z) (id ip : string) (es : list Edge) : probeResult :=
  mkProbeResult idx (Some (sample_device id)) es [] ip {["lldp" := 0]}.

Definition sample_outcomes : list outcome :=
  [Probed (sample_result 1 "core1" "10.0.0.2" []) ∅; ProbeFailed DiscoveryReasonTimeout;
   Probed (sample_result 0 "access1" "10.0.0.1" [sample_link]) ∅].

(** The targets finish in the opposite order; the graph is the same, the devices in
    configuration order. *)
Lemma cycle_schedule_independent_witness :
  let run os := RunCycle (U := unicode_table) (R := range_std) (N := sample_net)
                  (mkCycleConfig 3 0 0) (Some ∅) os in
  reverse sample_outcomes ≡ₚ sample_outcomes ∧
  co_graph (run (reverse sample_outcomes)) = co_graph (run sample_outcomes) ∧
  ID <$> Devices (co_graph (run sample_outcomes)) = ["access1"; "core1"].
Proof.
  intros run. assert (reverse sample_outcomes ≡ₚ sample_outcomes) as Hp by apply reverse_Permutation.
  split; [exact Hp|]. split; [|vm_compute; reflexivity].
  apply (@cycle_schedule_independent unicode_table sample_net range_std range_std (mkCycleConfig 3 0 0) (Some ∅)
    (reverse sample_outcomes) sample_outcomes Hp).
  - apply (bool_decide_unpack _). vm_compute. exact I.
  - intros o1 o2 m1 m2 ip1 ip2 Ho1 _ Ha1 _ _. exfalso.
    rewrite elem_of_reverse in Ho1. unfold sample_outcomes in Ho1. rewrite !elem_of_cons in Ho1.
    destruct Ho1 as [->|[->|[->|Ho1]]]; [discriminate Ha1..|]. apply elem_of_nil in Ho1. exact Ho1.
Defined.

(** C37: The graph of a cycle. Devices, links and out-of-scope neighbours are listed
    once each; the devices are exactly those of the targets whose probe succeeded,
    and the first configured target decides what is published of a device. Every
    target is counted: the reported failures and the successes add up to the targets,
    and the failures by reason are the counts of the outcomes with that reason. *)
Theorem cycle_graph `{Unicode} `{NetText} `{MapRange} cfg prevAges os :
  let c := RunCycle cfg prevAges os in
  graph_ok (co_graph c) ∧
  (∀ d, d ∈ Devices (co_graph c) ↔
     find_first (λ x, bool_decide (ID x = ID d)) (omap device (sort_by by_target (omap probe_of os))) = Some d) ∧
  co_failCount c = Z.of_nat (length os) - Z.of_nat (length (omap probe_of os)) ∧
  ∀ r, default 0 (ag_failByReason (collect_all os) !! r) =
    Z.of_nat (length (filter (λ x, x = r) (omap fail_reason os))).
Proof.
  intros c. split; [apply RunCycle_graph_ok|].
  pose proof (collect_all_spec os) as [Hr Hk Ht Hf _]. unfold c, RunCycle, cycle_tail.
  destruct (SynthesizeEdges _ _ _) as [canon supp]. destruct (Reconcile canon) as [rec conf].
  destruct (AgeUnconfirmed _ _ _) as [ages expired]. cbn [co_graph Devices co_failCount].
  rewrite Hr, failCount_total. split_and!; [|lia|done]. intros d. apply dedup_by_first.
Qed.

(** A module status is never reset. The value a cycle publishes for a protocol
    is the largest positive status of a device; when no device reports one, nothing
    is set and the gauge keeps the value of an earlier cycle, also when every device
    reports success. *)
Theorem module_status_sticks `{Unicode} `{NetText} `{MapRange} cfg prevAges os gauge k :
  status_below k 0 (omap probe_of os) →
  publish_status (co_worst (RunCycle cfg prevAges os)) gauge !! k = gauge !! k.
Proof.
  intros Hb. pose proof (collect_all_spec os) as [Hr _ _ _ _]. unfold RunCycle, cycle_tail.
  destruct (SynthesizeEdges _ _ _) as [canon supp]. destruct (Reconcile canon) as [rec conf].
  destruct (AgeUnconfirmed _ _ _) as [ages expired]. cbn [co_worst]. rewrite Hr. unfold publish_status.
  pose proof (worstStatus_spec (sort_by by_target (omap probe_of os)) k) as Hw.
  destruct (worstStatus _ !! k) as [v|] eqn:Hv.
  - destruct Hw as (Hpos & (r & Hin%elem_of_sort_by & Hs) & _). specialize (Hb r v Hin Hs). lia.
  - by rewrite lookup_union_r.
Qed.

(** The LLDP walk of a device failed once; all walks succeed now, and the gauge still
    shows the failure. *)
Lemma module_status_sticks_witness :
  status_below "lldp" 0 (omap probe_of sample_outcomes) ∧
  publish_status (co_worst (RunCycle (U := unicode_table) (R := range_std) (N := sample_net)
    (mkCycleConfig 3 0 0) (Some ∅) sample_outcomes)) {["lldp" := 2]} !! "lldp" = Some 2.
Proof.
  assert (status_below "lldp" 0 (omap probe_of sample_outcomes)) as Hb.
  { intros r v Hr. unfold sample_outcomes in Hr. cbn [omap list_omap probe_of] in Hr. rewrite !elem_of_cons in Hr.
    destruct Hr as [->|[->|Hr]]; [vm_compute; intros [= <-]; discriminate..|].
    apply elem_of_nil in Hr. destruct Hr. }
  split; [exact Hb|].
  rewrite (@module_status_sticks unicode_table sample_net range_std (mkCycleConfig 3 0 0) (Some ∅) sample_outcomes
    {["lldp" := 2]} "lldp" Hb). vm_compute. reflexivity.
Defined.
