(* ===== verification/Loop.v ===== *)
(** * The discovery loop

    internal/app/loop.go: [publish], the cycles of [RunDiscoveryLoop] and the stale
    watchdog.  What the loop does to its surroundings (events, counters, OTLP pushes,
    the topology gauge, the snapshot queue, the spoke's mailbox) is the list of
    actions in the order the code performs them. *)

From Stdlib Require Import ZArith Lia.
From S2P Require Import Prelude GoText Discovery HubValidate GraphKeys Reconcile GraphDiff Snapshot.
From S2P Require Import Pdu Credentials Synthesize DeviceWalk Cycle.
Open Scope Z_scope.

Record publishState := mkPublishState { prevAboveThreshold : bool; lastWarnCycle : Z }.

Record cycleState := mkCycleState {
  prevGraph : Graph;
  cs_ages : option (gmap EdgeKey Z);
  cs_warn : publishState
}.

(** [HeartbeatCycles] is positive in a validated configuration with OTLP enabled. *)
Record LoopConfig := mkLoopConfig {
  lc_cycle : cycleConfig;
  lc_otlp : bool;
  lc_HeartbeatCycles : Z;
  lc_ready : bool;
  lc_snapshot : bool;
  lc_spoke : option string
}.

Inductive action :=
| GraphUpdateRejected
| EmitChanges (cs : list EdgeChange)
| CountChange (kind : ChangeKind) (proto : string)
| OtlpPushChanges (cs : list EdgeChange)
| EmitConflicts (cs : list Conflict)
| CountConflict (c : Conflict)
| OtlpPushGraph (g : Graph)
| SetGraphStale (v : Z)
| TopologyUpdate (g : Graph)
| SetReady
| WarnLargeTopology
| ObserveCycleDuration
| SnapshotQueued (f : File)
| SnapshotDropped
| SpokeEnqueue (p : SpokePayload).

Definition change_proto (c : EdgeChange) : string :=
  match After c, Before c with
  | Some a, _ => DiscoveryProto a
  | None, Some b => DiscoveryProto b
  | None, None => ""
  end.

Definition over_budget (cfg : cycleConfig) (g : Graph) : bool :=
  ((0 <? MaxGraphDevices cfg) && (MaxGraphDevices cfg <? Z.of_nat (length (Devices g)))) ||
  ((0 <? MaxGraphEdges cfg) && (MaxGraphEdges cfg <? Z.of_nat (length (Edges g)))).

Section Publish.
Context `{U : Unicode} `{R : MapRange} `{N : NetText}.

(** The file offered to the writer; version, time and lease are set on writing. *)
Definition snapshot_file (g : Graph) (ages : option (gmap EdgeKey Z)) (credCache : gmap string string) : File :=
  mkFile 0 0 (Devices g) (Edges g) (OutOfScope g) credCache
    (match ages with Some m => EdgeKeysToAges m | None => ∅ end) "" 0.

Definition change_actions (lc : LoopConfig) (changes : list EdgeChange) : list action :=
  match changes with
  | [] => []
  | _ => EmitChanges changes :: ((λ c, CountChange (Kind c) (change_proto c)) <$> changes) ++
         (if lc_otlp lc then [OtlpPushChanges changes] else [])
  end.

Definition conflict_actions (conflicts : list Conflict) : list action :=
  match conflicts with
  | [] => []
  | _ => EmitConflicts conflicts :: (CountConflict <$> conflicts)
  end.

Definition heartbeat_actions (lc : LoopConfig) (changes : list EdgeChange) (cycleNum : Z) (g : Graph)
  : list action :=
  if lc_otlp lc && (negb (bool_decide (changes = [])) || (Z.rem cycleNum (lc_HeartbeatCycles lc) =? 0))
  then [OtlpPushGraph g] else [].

(** A full queue drops the new snapshot. *)
Definition offer_snapshot (lc : LoopConfig) (f : File) (queue : option File) : option File * list action :=
  if lc_snapshot lc then
    match queue with
    | None => (Some f, [SnapshotQueued f])
    | Some _ => (queue, [SnapshotDropped])
    end
  else (queue, []).

Definition spoke_actions (lc : LoopConfig) (now : time) (g : Graph) : list action :=
  match lc_spoke lc with
  | Some id => [SpokeEnqueue (mkSpokePayload id now (Devices g) (Edges g) (OutOfScope g))]
  | None => []
  end.

(** [queue] is the capacity-1 channel of the snapshot writer. *)
Definition publish (lc : LoopConfig) (st : cycleState) (newGraph : Graph) (newAges : option (gmap EdgeKey Z))
    (conflicts : list Conflict) (cycleNum : Z) (credCache : gmap string string) (now : time)
    (queue : option File) : cycleState * option File * list action :=
  if over_budget (lc_cycle lc) newGraph then
    (mkCycleState (prevGraph st) newAges (cs_warn st), queue, [GraphUpdateRejected])
  else
    let changes := Diff (Edges (prevGraph st)) (Edges newGraph) in
    let '(warned, (above, lastWarn)) :=
      MaybeWarnLargeTopology (Z.of_nat (length (Edges newGraph))) (prevAboveThreshold (cs_warn st))
        cycleNum (lastWarnCycle (cs_warn st)) in
    let '(queue, on_snapshot) := offer_snapshot lc (snapshot_file newGraph newAges credCache) queue in
    (mkCycleState newGraph newAges (mkPublishState above lastWarn), queue,
     change_actions lc changes ++ conflict_actions conflicts ++ heartbeat_actions lc changes cycleNum newGraph ++
     [SetGraphStale 0; TopologyUpdate newGraph] ++
     (if lc_ready lc then [SetReady] else []) ++ (if warned then [WarnLargeTopology] else []) ++
     [ObserveCycleDuration] ++ on_snapshot ++ spoke_actions lc now newGraph).
End Publish.

(** ** The cycles *)

(** What one tick meets: the iteration orders, the outcomes of the probes, whether
    the context is done after them, the credential cache, the clock, and whether the
    writer took the queued snapshot since the last cycle. *)
Record tick := mkTick {
  tk_range : MapRange;
  tk_outcomes : list outcome;
  tk_ctx_done : bool;
  tk_credCache : gmap string string;
  tk_now : time;
  tk_writer_took : bool
}.

Record loop_state := mkLoopState {
  ls_cycle : cycleState;
  ls_cycleNum : Z;
  ls_queue : option File;
  ls_actions : list action
}.

Section Loop.
Context `{U : Unicode} `{N : NetText} (lc : LoopConfig).

(** The startup: a loaded snapshot is published at once. *)
Definition start (R0 : MapRange) (snap : option File) : loop_state :=
  let warn := mkPublishState false (- LargeTopologyWarnCooldownCycles) in
  match snap with
  | None => mkLoopState (mkCycleState (mkGraph [] [] []) (Some ∅) warn) 0 None [SetGraphStale 1]
  | Some f =>
      let g := mkGraph (sf_Devices f) (sf_Edges f) (sf_OutOfScope f) in
      mkLoopState (mkCycleState g (Some (AgesToEdgeKeys (MR := R0) (UnconfirmedAges f))) warn) 0 None
        [SetGraphStale 1; TopologyUpdate g]
  end.

Definition with_first_seen (g : Graph) (prev : list OutOfScopeNeighbour) : Graph :=
  mkGraph (Devices g) (Edges g) (MergeOOSFirstSeen (OutOfScope g) prev).

Definition cycle (s : loop_state) (t : tick) : loop_state :=
  let st := ls_cycle s in
  let queue := if tk_writer_took t then None else ls_queue s in
  let cycleNum := ls_cycleNum s + 1 in
  let c := RunCycle (R := tk_range t) (lc_cycle lc) (cs_ages st) (tk_outcomes t) in
  if tk_ctx_done t then mkLoopState st cycleNum queue (ls_actions s)
  else
    let newGraph := with_first_seen (co_graph c) (OutOfScope (prevGraph st)) in
    let '(st', queue', acts) :=
      publish (R := tk_range t) lc st newGraph (co_ages c) (co_conflicts c) cycleNum
        (tk_credCache t) (tk_now t) queue in
    mkLoopState st' cycleNum queue' (ls_actions s ++ acts).

Definition RunDiscoveryLoop (R0 : MapRange) (snap : option File) (ticks : list tick) : loop_state :=
  fold_left cycle ticks (start R0 snap).
End Loop.

(** ** The stale watchdog *)

Definition IsStale (now last : time) (threshold : duration) : bool :=
  if threshold <=? 0 then false else threshold <? time_Sub now last.

(** One tick of the watchdog: it only ever raises the gauge. *)
Definition watchdog_tick (status : option time) (now : time) (maxStale : duration) (gauge : Z) : Z :=
  match status with
  | None => gauge
  | Some lastCycleAt => if IsStale now lastCycleAt maxStale then 1 else gauge
  end.

(** ** Lemmas *)

#[global] Instance same_link_refl : Reflexive same_link.
Proof. intros [e|]; constructor. apply edgeMateriallyChanged_refl. Qed.

Lemma edgeMateriallyChanged_false a b :
  edgeMateriallyChanged a b = false ↔
  (Direction a, DiscoveryProto a, Confidence a, PrecedenceRank a, LinkKind a) =
  (Direction b, DiscoveryProto b, Confidence b, PrecedenceRank b, LinkKind b).
Proof.
  unfold edgeMateriallyChanged. rewrite !orb_false_iff, !bool_decide_eq_false, !pair_equal_spec.
  split; intros H; destruct_and!; split_and!; try (by apply dec_stable); auto.
Qed.

#[global] Instance same_link_trans : Transitive same_link.
Proof.
  intros x y z H1 H2. destruct H1 as [|a b H1]; inversion_clear H2 as [|? c H2']; constructor.
  apply edgeMateriallyChanged_false in H1, H2'. apply edgeMateriallyChanged_false. congruence.
Qed.

(** A consumer whose copy matches the old edges matches the new ones after the
    changes. *)
Lemma diff_patch_from `{MR : MapRange} before after (m : gmap EdgeKey Edge) k :
  NoDup (Key <$> before) → NoDup (Key <$> after) →
  same_link (m !! k) (index_by_key before !! k) →
  same_link (fold_left apply_change (Diff before after) m !! k) (index_by_key after !! k).
Proof.
  intros Hb Ha Hm. pose proof (λ c, Diff_at before after k c Hb Ha) as HD.
  destruct (apply_changes_at (Diff before after) m k) as [H1 H2].
  { intros c c' Hc Hc' Hk Hk'.
    assert (Some c = Some c') by (rewrite <-(proj1 (HD c)), <-(proj1 (HD c')); done). congruence. }
  destruct (change_at (index_by_key before) (index_by_key after) k) as [c|] eqn:Hc.
  - destruct (proj2 (HD c) eq_refl) as [Hin Hk]. rewrite (H1 c Hin Hk). unfold change_at in Hc.
    repeat case_match; simplify_eq; reflexivity.
  - rewrite H2; [|intros c Hin Hk; by specialize (proj1 (HD c) (conj Hin Hk))]. unfold change_at in Hc.
    etrans; [exact Hm|]. repeat case_match; simplify_eq; by constructor.
Qed.

Definition emitted_changes (acts : list action) : list EdgeChange :=
  acts ≫= (λ a, match a with EmitChanges cs => cs | _ => [] end).

Definition updates (acts : list action) : list Graph :=
  omap (λ a, match a with TopologyUpdate g => Some g | _ => None end) acts.

(** What leaves the process carries a graph that was published. *)
Definition carried (a : action) : option Graph :=
  match a with
  | SnapshotQueued f => Some (mkGraph (sf_Devices f) (sf_Edges f) (sf_OutOfScope f))
  | SpokeEnqueue p => Some (mkGraph (sp_Devices p) (sp_Edges p) (sp_OutOfScope p))
  | OtlpPushGraph g => Some g
  | _ => None
  end.

Lemma emitted_changes_app l1 l2 : emitted_changes (l1 ++ l2) = emitted_changes l1 ++ emitted_changes l2.
Proof. apply bind_app. Qed.

Lemma updates_app l1 l2 : updates (l1 ++ l2) = updates l1 ++ updates l2.
Proof. apply omap_app. Qed.

(** Actions that touch neither the event stream nor the gauge, and carry at most the
    graph [g]. *)
Definition quiet (g : Graph) (l : list action) : Prop :=
  emitted_changes l = [] ∧ updates l = [] ∧ ∀ a g', a ∈ l → carried a = Some g' → g' = g.

Lemma quiet_app g l1 l2 : quiet g l1 → quiet g l2 → quiet g (l1 ++ l2).
Proof.
  intros (E1 & U1 & C1) (E2 & U2 & C2). split; [by rewrite emitted_changes_app, E1, E2|].
  split; [by rewrite updates_app, U1, U2|]. intros a g' [Ha|Ha]%elem_of_app; eauto.
Qed.

Lemma quiet_one g a :
  match a with EmitChanges _ | TopologyUpdate _ => False | _ => True end →
  (∀ g', carried a = Some g' → g' = g) → quiet g [a].
Proof.
  intros Ha Hc. split; [by destruct a|]. split; [by destruct a|]. intros a' g' ->%list_elem_of_singleton. auto.
Qed.

Lemma quiet_nil g : quiet g [].
Proof. split; [done|]. split; [done|]. set_solver. Qed.

Lemma quiet_map {A} g (f : A → action) l : (∀ x, quiet g [f x]) → quiet g (f <$> l).
Proof.
  intros Hf. induction l as [|x l IH]; [apply quiet_nil|]. apply (quiet_app g [f x]); [apply Hf|done].
Qed.

#[export] Hint Resolve quiet_app quiet_one quiet_nil quiet_map : ntx.

Lemma change_actions_spec g lc changes :
  emitted_changes (change_actions lc changes) = changes ∧ updates (change_actions lc changes) = [] ∧
  ∀ a g', a ∈ change_actions lc changes → carried a = Some g' → g' = g.
Proof.
  unfold change_actions. destruct changes as [|c cs]; [split; [done|]; split; [done|set_solver]|].
  assert (quiet g (((λ c, CountChange (Kind c) (change_proto c)) <$> c :: cs) ++
    (if lc_otlp lc then [OtlpPushChanges (c :: cs)] else []))) as (He & Hu & Hc).
  { apply quiet_app; [apply quiet_map; intros x; by apply quiet_one|]. destruct (lc_otlp lc); [by apply quiet_one|apply quiet_nil]. }
  set (l := _ ++ _) in *. split; [|split].
  - change (EmitChanges (c :: cs) :: l) with ([EmitChanges (c :: cs)] ++ l).
    rewrite emitted_changes_app, He. cbn. by rewrite !app_nil_r.
  - done.
  - intros a g' [->|Ha]%elem_of_cons; [done|eauto].
Qed.

Lemma publish_quiet_parts lc g conf changes n now f queue (warned : bool) :
  carried (SnapshotQueued f) = Some g →
  quiet g (conflict_actions conf) ∧ quiet g (heartbeat_actions lc changes n g) ∧
  quiet g (if lc_ready lc then [SetReady] else []) ∧ quiet g (if warned then [WarnLargeTopology] else []) ∧
  quiet g (offer_snapshot lc f queue).2 ∧ quiet g (spoke_actions lc now g).
Proof.
  intros Hf. split_and!.
  - unfold conflict_actions. destruct conf as [|c cs]; [apply quiet_nil|].
    apply (quiet_app g [_]); [by apply quiet_one|]. apply quiet_map. intros x. by apply quiet_one.
  - unfold heartbeat_actions. destruct (_ && _); [|apply quiet_nil]. apply quiet_one; [done|]. by intros g' [= ->].
  - destruct (lc_ready lc); [by apply quiet_one|apply quiet_nil].
  - destruct warned; [by apply quiet_one|apply quiet_nil].
  - unfold offer_snapshot. destruct (lc_snapshot lc); [|apply quiet_nil].
    destruct queue; apply quiet_one; try done. intros g'. rewrite Hf. by intros [= ->].
  - unfold spoke_actions. destruct (lc_spoke lc); [|apply quiet_nil]. apply quiet_one; [done|].
    intros g' [= <-]. by destruct g.
Qed.

(** One publication. *)
Lemma publish_spec `{MapRange} lc st g ages conf n cache now queue :
  let '(st', _, acts) := publish lc st g ages conf n cache now queue in
  cs_ages st' = ages ∧
  if over_budget (lc_cycle lc) g then
    prevGraph st' = prevGraph st ∧ acts = [GraphUpdateRejected]
  else
    prevGraph st' = g ∧ emitted_changes acts = Diff (Edges (prevGraph st)) (Edges g) ∧ updates acts = [g] ∧
    ∀ a g', a ∈ acts → carried a = Some g' → g' = g.
Proof.
  unfold publish. destruct (over_budget _ _); [done|].
  set (changes := Diff _ _). destruct (MaybeWarnLargeTopology _ _ _ _) as [warned [above lastWarn]].
  set (f := snapshot_file g ages cache).
  assert (carried (SnapshotQueued f) = Some g) as Hf by by destruct g.
  destruct (publish_quiet_parts lc g conf changes n now f queue warned Hf) as (Q1 & Q2 & Q3 & Q4 & Q5 & Q6).
  destruct (offer_snapshot lc f queue) as [queue' snap]. cbn [snd] in Q5.
  destruct (change_actions_spec g lc changes) as (E0 & U0 & C0).
  pose proof (quiet_app _ _ _ Q1 Q2) as (E1 & U1 & C1).
  assert (quiet g ((if lc_ready lc then [SetReady] else []) ++ (if warned then [WarnLargeTopology] else []) ++
    [ObserveCycleDuration] ++ snap ++ spoke_actions lc now g)) as (E2 & U2 & C2).
  { repeat apply quiet_app; try done. by apply quiet_one. }
  set (tail := (if lc_ready lc then _ else _) ++ _) in *. rewrite (app_assoc (conflict_actions conf)).
  set (mid := conflict_actions conf ++ _) in *. cbn [cs_ages prevGraph].
  split; [done|]. split; [done|]. split; [|split].
  - rewrite !emitted_changes_app, E0, E1, E2. by rewrite !app_nil_r.
  - rewrite !updates_app, U0, U1, U2. done.
  - intros a g' [Ha|[Ha|[Ha|Ha]%elem_of_app]%elem_of_app]%elem_of_app; [by eapply C0|by eapply C1| |by eapply C2].
    apply elem_of_cons in Ha as [->|Ha]; [done|]. by apply list_elem_of_singleton in Ha as ->.
Qed.

Lemma MergeOOSFirstSeen_keys new prev : oosKey <$> MergeOOSFirstSeen new prev = oosKey <$> new.
Proof.
  unfold MergeOOSFirstSeen. rewrite <-list_fmap_compose. apply list_fmap_ext. intros i n _. cbn.
  by destruct (_ !! oosKey n).
Qed.

(** What holds after any number of cycles, relative to the graph of the start. *)
Record loop_inv (lc : LoopConfig) (g0 : Graph) (s : loop_state) : Prop := {
  li_keys : NoDup (Key <$> Edges (prevGraph (ls_cycle s)));
  li_replay : ∀ k, same_link
    (fold_left apply_change (emitted_changes (ls_actions s)) (index_by_key (Edges g0)) !! k)
    (index_by_key (Edges (prevGraph (ls_cycle s))) !! k);
  li_gauge : default g0 (last (updates (ls_actions s))) = prevGraph (ls_cycle s);
  li_carried : ∀ a g, a ∈ ls_actions s → carried a = Some g → g ∈ updates (ls_actions s);
  li_updates : ∀ g, g ∈ updates (ls_actions s) → g = g0 ∨ over_budget (lc_cycle lc) g = false ∧ graph_ok g
}.

Lemma cycle_inv `{Unicode} `{NetText} lc g0 s t : loop_inv lc g0 s → loop_inv lc g0 (cycle lc s t).
Proof.
  intros Hs. unfold cycle. destruct (tk_ctx_done t); [by destruct Hs|].
  set (c := RunCycle _ _ _). pose proof (RunCycle_graph_ok (H1 := tk_range t) (lc_cycle lc)
    (cs_ages (ls_cycle s)) (tk_outcomes t)) as Hg. fold c in Hg.
  set (g := with_first_seen (co_graph c) (OutOfScope (prevGraph (ls_cycle s)))).
  assert (graph_ok g) as Hok.
  { destruct Hg as [? ? Ho]. split; [done..|]. cbn. by rewrite MergeOOSFirstSeen_keys. }
  pose proof (publish_spec (H := tk_range t) lc (ls_cycle s) g (co_ages c) (co_conflicts c)
    (ls_cycleNum s + 1) (tk_credCache t) (tk_now t) (if tk_writer_took t then None else ls_queue s)) as Hp.
  destruct (publish _ _ _ _ _ _ _ _ _) as [[st' queue'] acts]. destruct Hp as [_ Hp].
  destruct Hs as [Hk Hr Hga Hc Hu]. destruct (over_budget (lc_cycle lc) g) eqn:Hb.
  - destruct Hp as [Hpg ->]. split; cbn [ls_cycle ls_actions];
      rewrite ?Hpg, ?emitted_changes_app, ?updates_app; cbn [emitted_changes updates]; rewrite ?app_nil_r; try done.
    intros a g' [Ha|Ha%list_elem_of_singleton]%elem_of_app Hca; [by eapply Hc|by subst].
  - destruct Hp as (Hpg & He & Hup & Hca). split; cbn [ls_cycle ls_actions];
      rewrite ?Hpg, ?emitted_changes_app, ?updates_app, ?He, ?Hup.
    + by destruct Hok.
    + intros k. rewrite fold_left_app. apply diff_patch_from; [done|by destruct Hok|apply Hr].
    + by rewrite last_snoc.
    + intros a g' [Ha|Ha]%elem_of_app Hx; apply elem_of_app; [left; by eapply Hc|right].
      rewrite (Hca a g' Ha Hx). apply list_elem_of_here.
    + intros g' [Ha|Ha%list_elem_of_singleton]%elem_of_app; [by apply Hu|]. subst g'. auto.
Qed.

Lemma start_inv lc R0 snap :
  (∀ f, snap = Some f → NoDup (Key <$> sf_Edges f)) →
  loop_inv lc (prevGraph (ls_cycle (start R0 snap))) (start R0 snap).
Proof.
  intros Hn. destruct snap as [f|]; split; cbn; try done; try apply NoDup_nil_2; try set_solver.
Qed.

(** ** Properties *)

(** C4: The event stream and the published graph agree. Start the loop with or
    without a snapshot, let any cycles run (with any outcomes, rejected updates and
    cancelled cycles among them). A consumer that applies the emitted change events to
    the edges of the starting graph has the links of the graph the metrics show, up
    to the fields a change event ignores. The gauge shows the loop's current graph;
    whatever is queued as a snapshot, handed to the spoke or pushed over OTLP carries
    a graph that was published; and a graph published by a cycle is within the size
    budget and lists every device, link and neighbour once. *)
Theorem loop_events_replay `{Unicode} `{NetText} lc R0 snap ticks :
  (∀ f, snap = Some f → NoDup (Key <$> sf_Edges f)) →
  let g0 := prevGraph (ls_cycle (start R0 snap)) in
  let s := RunDiscoveryLoop lc R0 snap ticks in
  let acts := ls_actions s in
  (∀ k, same_link (fold_left apply_change (emitted_changes acts) (index_by_key (Edges g0)) !! k)
                  (index_by_key (Edges (prevGraph (ls_cycle s))) !! k)) ∧
  default g0 (last (updates acts)) = prevGraph (ls_cycle s) ∧
  (∀ a g, a ∈ acts → carried a = Some g → g ∈ updates acts) ∧
  (∀ g, g ∈ updates acts → g = g0 ∨ over_budget (lc_cycle lc) g = false ∧ graph_ok g).
Proof.
  intros Hn g0 s acts. assert (loop_inv lc g0 s) as [_ Hr Hg Hc Hu].
  { unfold s, RunDiscoveryLoop. apply (fold_left_inv (loop_inv lc g0)); [by apply start_inv|].
    intros s' t _. apply cycle_inv. }
  done.
Qed.

(** Two cycles: a link appears, then its devices do not answer any more. *)
Definition sample_ticks : list tick :=
  [mkTick range_std sample_outcomes false ∅ 5 false; mkTick range_rev [Panicked; BudgetSkipped] false ∅ 9 true].

Definition sample_loop : LoopConfig := mkLoopConfig (mkCycleConfig 3 0 0) true 10 true true (Some "s").

Lemma loop_events_replay_witness :
  let s := RunDiscoveryLoop (U := unicode_table) (N := sample_net) sample_loop range_std None sample_ticks in
  Edges (prevGraph (ls_cycle s)) = [] ∧ length (emitted_changes (ls_actions s)) = 2%nat ∧
  ∀ k, same_link (fold_left apply_change (emitted_changes (ls_actions s)) (index_by_key []) !! k) None.
Proof.
  intros s. split; [vm_compute; reflexivity|]. split; [vm_compute; reflexivity|]. intros k.
  exact (proj1 (@loop_events_replay unicode_table sample_net sample_loop range_std None sample_ticks
    ltac:(discriminate)) k).
Defined.
