(* ===== verification/Admin.v ===== *)
(** * The HTTP surface of the process

    internal/app/rediscover.go (forced walks, the test for client authentication) and
    internal/app/httpx/httpx.go (the admin, readiness and liveness handlers), with
    livenessMaxStale of app.go.  A request carries its decoded body; reading and parsing
    the web configuration are arguments. *)

From Stdlib Require Import ZArith Lia SpecFloat.
From S2P Require Import Prelude GoText Discovery HubValidate Pdu NetAddr Credentials Probe DeviceWalk Config Cycle Loop.
Open Scope Z_scope.

(** ** Forced walks (rediscover.go) *)

Definition RediscoverSuccess : string := "success".
Definition RediscoverTimeout : string := "timeout".
Definition RediscoverAuthFailure : string := "auth_failure".
Definition RediscoverOutOfScope : string := "out_of_scope".
Definition RediscoverError : string := "error".

Record RediscoverResult := mkRediscover {
  rr_Target : string;
  rr_Outcome : string;
  rr_Edges : Z;
  rr_Error : string
}.

(** What a forced walk meets: the context when its turn comes, the regular cycles that
    ran while the mutex was free, the clock, the device. *)
Record forced_env := mkForcedEnv {
  fe_ctxErr : option string;
  fe_cycles : Resolver → Resolver;
  fe_now1 : time;
  fe_now2 : time;
  fe_now3 : time;
  fe_trials : nat → trial;
  fe_walkers : Walkers
}.

(** The results so far, the shared resolver, the secrets in memory, the outcomes that
    were counted and the addresses that were sent SNMP requests. *)
Record forced := mkForced {
  fo_results : list RediscoverResult;
  fo_resolver : Resolver;
  fo_heap : list (list Z);
  fo_counted : list string;
  fo_walked : list (list Z)
}.

Section Rediscover.
Context (Getenv : string → string) `{R : MapRange} `{N : NetText}.
(** [Error()] of the errors of a probe. *)
Context (err_text : probe_err → string).
Context (pcfg : probeConfig) (mods : ModulesConfig) (ov : option (list targetOverride))
  (targets_cfg : list TargetConfig) (allowedNets : list IPNet) (targetPortOverride : gmap string Z).

Definition forced_port (ip : list Z) : Z :=
  let port := match find_first (λ ct, bool_decide (t_Host ct = IP_String ip)) targets_cfg with
              | Some ct => t_Port ct
              | None => 0
              end in
  default port (targetPortOverride !! IP_String ip).

Definition walkOne (e : forced_env) (ip : list Z) (r : Resolver) (h : list (list Z))
  : list (list Z) * Resolver * (string * Z * option string) :=
  match WalkSystemWithCredentials Getenv pcfg r ip (forced_port ip) (fe_now1 e) (fe_now2 e) (fe_trials e) h with
  | (h, r, inl err) =>
      (h, r, (match err with DeadlineExceeded | Canceled => RediscoverTimeout | _ => RediscoverAuthFailure end,
              0, Some (err_text err)))
  | (h, r, inr (dev, params, profileName)) =>
      let r := RecordSuccess (IP_String ip) profileName (fe_now3 e) r in
      let ws := walkModules mods (fe_walkers e) ov (ID dev) ip false in
      ((Zeroize params h).1, r, (RediscoverSuccess, Z.of_nat (length (ws_edges ws)), None))
  end.

Definition in_scope (ip : list Z) : bool := negb (bool_decide (allowedNets = [])) && IPInNets ip allowedNets.

(** The first pass: one result per target, and the indices still to be walked. *)
Definition scan_target (st : list RediscoverResult * list (nat * list Z) * list string) (raw : string)
  : list RediscoverResult * list (nat * list Z) * list string :=
  let '(results, toWalk, counted) := st in
  match ParseIP raw with
  | None => (results ++ [mkRediscover raw RediscoverError 0 "not a valid IP address"], toWalk, counted ++ [RediscoverError])
  | Some ip =>
      if in_scope ip
      then (results ++ [mkRediscover raw "" 0 ""], toWalk ++ [(length results, ip)], counted)
      else (results ++ [mkRediscover raw RediscoverOutOfScope 0 "target is outside discovery.scope.cidr_allow_list (LD-11)"],
            toWalk, counted ++ [RediscoverOutOfScope])
  end.

Definition fill (idx : nat) (outcome : string) (n : Z) (err : option string) (rs : list RediscoverResult) : list RediscoverResult :=
  match rs !! idx with
  | Some res => <[idx := mkRediscover (rr_Target res) outcome n (default (rr_Error res) err)]> rs
  | None => rs
  end.

Definition walk_pending (env : nat → forced_env) (st : nat * forced) (p : nat * list Z) : nat * forced :=
  let '(k, f) := st in
  let e := env k in
  match fe_ctxErr e with
  | Some err =>
      (S k, mkForced (fill p.1 RediscoverTimeout 0 (Some err) (fo_results f)) (fo_resolver f) (fo_heap f)
              (fo_counted f ++ [RediscoverTimeout]) (fo_walked f))
  | None =>
      let '(h, r, (outcome, n, err)) := walkOne e p.2 (fe_cycles e (fo_resolver f)) (fo_heap f) in
      (S k, mkForced (fill p.1 outcome n err (fo_results f)) r h (fo_counted f ++ [outcome]) (fo_walked f ++ [p.2]))
  end.

Definition Rediscover (env : nat → forced_env) (r : Resolver) (h : list (list Z)) (targets : list string) : forced :=
  let '(results, toWalk, counted) := fold_left scan_target targets ([], [], []) in
  (fold_left (walk_pending env) toWalk (0%nat, mkForced results r h counted [])).2.
End Rediscover.

(** ** Client authentication *)

Record web_config := mkWebConfig { BasicAuthUsers : gmap string string; ClientAuthType : string }.

Definition WebConfigHasClientAuth (ReadFile : string → option string) (Unmarshal : string → option web_config)
    (path : string) : bool :=
  if bool_decide (path = "") then false
  else match ReadFile path ≫= Unmarshal with
       | None => false
       | Some wc =>
           if bool_decide (BasicAuthUsers wc ≠ ∅) then true
           else bool_decide (ClientAuthType wc ∈ ["RequireAnyClientCert"; "RequireAndVerifyClientCert"])
       end.

(** ** Handlers (httpx.go) *)

Definition MaxRediscoverTargets : Z := 256.

(** [ar_body] is the decoded list, [None] when decoding failed. *)
Record admin_request := mkAdminRequest { ar_method : string; ar_body : option (list string) }.

(** The status, and the batch that ran. *)
Definition NewRediscoverHandler {A} (authConfigured : bool) (RediscoverResults : list string → A) (rq : admin_request)
  : Z * option A :=
  if bool_decide (ar_method rq ≠ "POST") then (405, None)
  else if negb authConfigured then (403, None)
  else match ar_body rq with
       | None => (400, None)
       | Some ts =>
           if bool_decide (ts = []) then (400, None)
           else if MaxRediscoverTargets <? Z.of_nat (length ts) then (400, None)
           else (200, Some (RediscoverResults ts))
       end.

Definition NewReadyzHandler (isReady : bool) : Z := if isReady then 200 else 503.

Record CycleStatus := mkCycleStatus { LastCycleAt : time; DeviceErrors : Z }.

(** The status code, the reported last cycle and device errors, and the threshold, which
    is printed in seconds. *)
Definition NewHealthzHandler (status : option CycleStatus) (maxStale : duration) (now : time)
  : Z * string * option (time * Z) * option duration :=
  match status with
  | None => (200, "ok", None, None)
  | Some s =>
      if IsStale now (LastCycleAt s) maxStale
      then (503, "stale", Some (LastCycleAt s, DeviceErrors s), Some maxStale)
      else (200, "ok", Some (LastCycleAt s, DeviceErrors s), None)
  end.

Definition livenessMaxStale (role : string) (d : DiscoveryConfig) : duration :=
  if bool_decide (role = RoleHub) then 0
  else
    let cycles := LivenessMaxStaleCyclesValue d in
    if cycles <=? 0 then 0 else wrap64 (d_Interval d * cycles).

(** ** The instrumented metrics endpoint *)

(** What the handler inside does with the counting writer; a Write returns how many bytes
    the connection took. *)
Inductive writer_op := OpWrite (n : Z) | OpFlush | OpHijack | OpPush.

#[export] Instance writer_op_eq : EqDecision writer_op.
Proof. solve_decision. Defined.

(** [bytesWritten] after the calls, [None] for a panic. *)
Fixpoint counting_run (bytesWritten : Z) (ops : list writer_op) : option Z :=
  match ops with
  | [] => Some bytesWritten
  | OpWrite n :: ops => counting_run (wrap64 (bytesWritten + n)) ops
  | OpFlush :: ops => counting_run bytesWritten ops
  | OpHijack :: _ | OpPush :: _ => None
  end.

(** The two observations of a request, none when the handler panicked. *)
Definition InstrumentMetricsHandler (elapsed : duration) (ops : list writer_op) : option (duration * Z) :=
  (λ n, (elapsed, n)) <$> counting_run 0 ops.

(** ** Lemmas *)

Definition op_bytes (op : writer_op) : Z := match op with OpWrite n => n | _ => 0 end.
Definition total_bytes (ops : list writer_op) : Z := fold_right (λ op acc, op_bytes op + acc) 0 ops.

(** The payload size observed is what went out through Write, and nothing can bypass it. *)
Lemma counting_exact ops n :
  Forall (λ op, 0 ≤ op_bytes op) ops → 0 ≤ n → n + total_bytes ops < 2 ^ 63 →
  counting_run n ops = if bool_decide (OpHijack ∈ ops ∨ OpPush ∈ ops) then None else Some (n + total_bytes ops).
Proof.
  revert n. induction ops as [|op ops IH]; intros n Hall Hn Hb.
  { rewrite bool_decide_eq_false_2 by set_solver. cbn. by rewrite Z.add_0_r. }
  apply Forall_cons in Hall as [Hop Hall].
  assert (0 ≤ total_bytes ops) as Hpos by (clear -Hall; induction Hall; unfold total_bytes in *; cbn in *; lia).
  change (total_bytes (op :: ops)) with (op_bytes op + total_bytes ops) in *.
  destruct op as [k| | |]; cbn [counting_run op_bytes] in *.
  - rewrite wrap64_small by (unfold MaxInt; lia). rewrite IH by (done || lia). rewrite Z.add_assoc.
    by rewrite (bool_decide_ext (_ ∨ _) (OpHijack ∈ OpWrite k :: ops ∨ OpPush ∈ OpWrite k :: ops)) by set_solver.
  - rewrite IH by (done || lia). rewrite Z.add_0_l.
    by rewrite (bool_decide_ext (_ ∨ _) (OpHijack ∈ OpFlush :: ops ∨ OpPush ∈ OpFlush :: ops)) by set_solver.
  - by rewrite bool_decide_eq_true_2 by set_solver.
  - by rewrite bool_decide_eq_true_2 by set_solver.
Qed.

Section Rediscover_lemmas.
Context (Getenv : string → string) `{R : MapRange} `{N : NetText}.
Context (err_text : probe_err → string).
Context (pcfg : probeConfig) (mods : ModulesConfig) (ov : option (list targetOverride))
  (targets_cfg : list TargetConfig) (allowedNets : list IPNet) (targetPortOverride : gmap string Z).

Abbreviation scope := (in_scope allowedNets).
Abbreviation scan := (scan_target allowedNets).
Abbreviation walk1 := (walkOne Getenv err_text pcfg mods ov targets_cfg targetPortOverride).
Abbreviation pend := (walk_pending Getenv err_text pcfg mods ov targets_cfg targetPortOverride).

(** What the first pass says about one target. *)
Definition first_result (raw : string) : RediscoverResult :=
  match ParseIP raw with
  | None => mkRediscover raw RediscoverError 0 "not a valid IP address"
  | Some ip => if scope ip then mkRediscover raw "" 0 ""
               else mkRediscover raw RediscoverOutOfScope 0 "target is outside discovery.scope.cidr_allow_list (LD-11)"
  end.

Record scanned (targets : list string) (st : list RediscoverResult * list (nat * list Z) * list string) : Prop := {
  sc_results : st.1.1 = first_result <$> targets;
  sc_nodup : NoDup (st.1.2.*1);
  sc_walk : ∀ i ip, (i, ip) ∈ st.1.2 ↔ ∃ raw, targets !! i = Some raw ∧ ParseIP raw = Some ip ∧ scope ip = true;
  sc_counted : st.2 ++ replicate (length st.1.2) "" ≡ₚ rr_Outcome <$> st.1.1
}.

Lemma scanned_skip pre raw ws cs :
  (∀ ip, ParseIP raw = Some ip → scope ip = false) →
  scanned pre (first_result <$> pre, ws, cs) →
  scanned (pre ++ [raw]) ((first_result <$> pre) ++ [first_result raw], ws, cs ++ [rr_Outcome (first_result raw)]).
Proof.
  intros Hno [_ H2 H3 H4]. cbn [fst snd] in *. split; cbn [fst snd]; [by rewrite fmap_app|done| |].
  - intros i ip. rewrite H3. split; intros (x & Hx & Hp & Hs); exists x; split; [|done| |done].
    + by apply lookup_app_l_Some.
    + apply lookup_snoc_Some in Hx as [[_ ?]|[_ ->]]; [done|]. rewrite (Hno _ Hp) in Hs. done.
  - rewrite fmap_app, <- H4. cbn. by rewrite <- !app_assoc, (Permutation_app_comm (replicate _ _)).
Qed.

Lemma scanned_walk pre raw ip ws cs :
  ParseIP raw = Some ip → scope ip = true → scanned pre (first_result <$> pre, ws, cs) →
  scanned (pre ++ [raw])
    ((first_result <$> pre) ++ [mkRediscover raw "" 0 ""], ws ++ [(length (first_result <$> pre), ip)], cs).
Proof.
  intros Hip Hs [_ H2 H3 H4]. cbn [fst snd] in *. rewrite length_fmap. split; cbn [fst snd].
  - rewrite fmap_app. cbn. unfold first_result at 3. by rewrite Hip, Hs.
  - rewrite fmap_app. apply NoDup_app. split; [done|]. split; [|apply NoDup_singleton].
    intros i ([j ip'] & -> & (x & Hx%lookup_lt_Some & _)%H3)%list_elem_of_fmap Hi. apply list_elem_of_singleton in Hi.
    cbn in Hi. lia.
  - intros i ip'. rewrite elem_of_app, list_elem_of_singleton, H3. split.
    + intros [(x & Hx & ?)|[= -> ->]]; [exists x; split; [by apply lookup_app_l_Some|done]|].
      exists raw. split; [|done]. rewrite lookup_app_r, Nat.sub_diag by lia. done.
    + intros (x & Hx & Hp & ?). apply lookup_snoc_Some in Hx as [[_ ?]|[-> <-]]; [left; eauto|right; congruence].
  - rewrite fmap_app, <- H4, length_app. cbn. by rewrite replicate_add, app_assoc.
Qed.

Lemma scan_all targets : scanned targets (fold_left scan targets ([], [], [])).
Proof.
  apply (fold_left_prefix_inv (λ pre st, scanned pre st)).
  - split; cbn; [done|constructor| |done]. intros i ip. split; [by intros ?%elem_of_nil|by intros (? & ? & _)].
  - intros pre raw [[rs ws] cs] H. pose proof (sc_results _ _ H) as Hr. cbn in Hr. subst rs.
    unfold scan_target. destruct (ParseIP raw) as [ip|] eqn:Hip; [destruct (scope ip) eqn:Hs|].
    + by apply scanned_walk.
    + pose proof (scanned_skip pre raw ws cs) as Hk. unfold first_result at 3 4 in Hk. rewrite Hip, Hs in Hk.
      apply Hk; [intros ip' [= <-]; done|done].
    + pose proof (scanned_skip pre raw ws cs) as Hk. unfold first_result at 3 4 in Hk. rewrite Hip in Hk. by apply Hk.
Qed.

Definition walk_outcomes : list string := [RediscoverSuccess; RediscoverTimeout; RediscoverAuthFailure].

(** What the answer says about one target in the end. *)
Definition final_result (raw : string) (res : RediscoverResult) : Prop :=
  rr_Target res = raw ∧
  match ParseIP raw with
  | Some ip => if scope ip then rr_Outcome res ∈ walk_outcomes ∧ (rr_Outcome res = RediscoverSuccess ∨ rr_Edges res = 0)
               else res = first_result raw
  | None => res = first_result raw
  end.

Lemma walkOne_outcome e ip r h :
  let '(_, _, (outcome, n, _)) := walk1 e ip r h in outcome ∈ walk_outcomes ∧ (outcome = RediscoverSuccess ∨ n = 0).
Proof.
  unfold walkOne, walk_outcomes. destruct (WalkSystemWithCredentials _ _ _ _ _ _ _ _ _) as [[h' r'] [err|[[dev p] name]]].
  - rewrite !elem_of_cons. destruct err; auto.
  - rewrite !elem_of_cons. auto.
Qed.

Record batch (targets : list string) (rest : list (nat * list Z)) (f : forced) : Prop := {
  ba_length : length (fo_results f) = length targets;
  ba_nodup : NoDup (rest.*1);
  ba_rest : ∀ i ip, (i, ip) ∈ rest → ∃ raw, targets !! i = Some raw ∧ ParseIP raw = Some ip ∧ scope ip = true;
  ba_pending : ∀ i raw, targets !! i = Some raw → i ∈ rest.*1 → fo_results f !! i = Some (mkRediscover raw "" 0 "");
  ba_final : ∀ i raw, targets !! i = Some raw → i ∉ rest.*1 → ∃ res, fo_results f !! i = Some res ∧ final_result raw res;
  ba_counted : fo_counted f ++ replicate (length rest) "" ≡ₚ rr_Outcome <$> fo_results f;
  ba_walked : ∀ ip, ip ∈ fo_walked f → scope ip = true ∧ ∃ raw, raw ∈ targets ∧ ParseIP raw = Some ip
}.

Lemma insert_swaps {A} (l : list A) i x y : l !! i = Some x → x :: <[i := y]> l ≡ₚ y :: l.
Proof.
  intros H. rewrite (insert_take_drop l i y) by (by eapply lookup_lt_Some).
  rewrite <- (take_drop_middle l i x H) at 3. rewrite <- !Permutation_middle. apply perm_swap.
Qed.

(** Filling in the result of the next pending target. *)
Lemma batch_fill targets i ip rest f outcome n err r h walked :
  batch targets ((i, ip) :: rest) f →
  outcome ∈ walk_outcomes → outcome = RediscoverSuccess ∨ n = 0 →
  (walked = fo_walked f ∨ walked = fo_walked f ++ [ip]) →
  batch targets rest (mkForced (fill i outcome n err (fo_results f)) r h (fo_counted f ++ [outcome]) walked).
Proof.
  intros [Hlen Hnd Hrest Hpend Hfin Hcnt Hw] Ho Hn Hwk. cbn in Hnd. apply NoDup_cons in Hnd as [Hi Hnd].
  destruct (Hrest i ip) as (raw & Hraw & Hip & Hs); [by left|].
  assert (fo_results f !! i = Some (mkRediscover raw "" 0 "")) as Hcur by (apply Hpend; [done|by left]).
  unfold fill. rewrite Hcur. cbn [rr_Target rr_Error]. split; cbn [fo_results fo_counted fo_walked].
  - by rewrite length_insert.
  - done.
  - intros j ip' Hj. apply Hrest. by right.
  - intros j raw' Hj Hin. rewrite list_lookup_insert_ne by (by intros ->). apply Hpend; [done|by right].
  - intros j raw' Hj Hin. destruct (decide (i = j)) as [<-|Hne].
    + rewrite list_lookup_insert_eq by (by eapply lookup_lt_Some). eexists. split; [done|].
      unfold final_result. cbn. simplify_eq. by rewrite Hip, Hs.
    + rewrite list_lookup_insert_ne by done. apply Hfin; [done|]. cbn. by apply not_elem_of_cons.
  - cbn [length replicate] in Hcnt. apply (Permutation_cons_inv (a:="")).
    set (new := mkRediscover _ outcome _ _).
    change ("" :: (rr_Outcome <$> <[i := new]> (fo_results f)))
      with (rr_Outcome <$> (mkRediscover raw "" 0 "" :: <[i := new]> (fo_results f))).
    rewrite (insert_swaps _ _ _ _ Hcur), fmap_cons, <- Hcnt. cbn [rr_Outcome new].
    rewrite <- app_assoc. cbn. rewrite <- !Permutation_middle. apply perm_swap.
  - assert (∀ ip', ip' ∈ fo_walked f ++ [ip] → scope ip' = true ∧ ∃ raw, raw ∈ targets ∧ ParseIP raw = Some ip') as Hall.
    { intros ip' [?| ->%list_elem_of_singleton]%elem_of_app; [by apply Hw|]. eauto using list_elem_of_lookup_2. }
    destruct Hwk as [-> | ->]; auto.
Qed.

Lemma batch_all env targets rest k f :
  batch targets rest f → batch targets [] (fold_left (pend env) rest (k, f)).2.
Proof.
  revert k f. induction rest as [|[i ip] rest IH]; intros k f Hb; [done|]. cbn [fold_left].
  unfold walk_pending at 2. destruct (fe_ctxErr (env k)) as [err|].
  - apply IH. apply (batch_fill _ i ip); auto. unfold walk_outcomes. rewrite !elem_of_cons. auto.
  - pose proof (walkOne_outcome (env k) ip (fe_cycles (env k) (fo_resolver f)) (fo_heap f)) as Ho. cbn [fst snd].
    destruct (walk1 _ _ _ _) as [[h r] [[outcome n] err]]. destruct Ho. apply IH. by apply (batch_fill _ i ip); auto.
Qed.

Lemma rediscover_batch env r h targets :
  batch targets [] (Rediscover Getenv err_text pcfg mods ov targets_cfg allowedNets targetPortOverride env r h targets).
Proof.
  unfold Rediscover. pose proof (scan_all targets) as Hsc.
  destruct (fold_left scan targets ([], [], [])) as [[rs ws] cs]. destruct Hsc as [H1 H2 H3 H4]. cbn [fst snd] in *.
  apply batch_all. subst rs. split; cbn [fo_results fo_counted fo_walked]; [by rewrite length_fmap|done| | | |done|by intros ? ?%elem_of_nil].
  - intros i ip. apply H3.
  - intros i raw Hr Hi. rewrite list_lookup_fmap, Hr. cbn. apply list_elem_of_fmap in Hi as ([j ip] & -> & Hj).
    apply H3 in Hj as (raw' & Hr' & Hp & Hs). cbn in Hr. simplify_eq. unfold first_result. by rewrite Hp, Hs.
  - intros i raw Hr Hi. rewrite list_lookup_fmap, Hr. eexists. split; [done|]. unfold final_result.
    split; [unfold first_result; by destruct (ParseIP raw) as [ip|]; [destruct (scope ip)|]|].
    destruct (ParseIP raw) as [ip|] eqn:Hp; [|done]. destruct (scope ip) eqn:Hs; [|done].
    destruct Hi. apply list_elem_of_fmap. exists (i, ip). split; [done|]. apply H3. eauto.
Qed.
End Rediscover_lemmas.

Lemma batch_results `{R : MapRange} `{N : NetText} nets targets f :
  batch nets targets [] f → Forall2 (final_result nets) targets (fo_results f).
Proof.
  intros [Hlen _ _ _ Hfin _ _]. apply Forall2_same_length_lookup. split; [done|].
  intros i raw res Hr Hres. destruct (Hfin i raw Hr) as (res' & Hr' & ?); [by intros ?%elem_of_nil|].
  rewrite Hres in Hr'. by injection Hr' as <-.
Qed.

Lemma client_auth_required ReadFile Unmarshal path :
  WebConfigHasClientAuth ReadFile Unmarshal path = true ↔
  path ≠ "" ∧ ∃ b wc, ReadFile path = Some b ∧ Unmarshal b = Some wc ∧
    (BasicAuthUsers wc ≠ ∅ ∨ ClientAuthType wc ∈ ["RequireAnyClientCert"; "RequireAndVerifyClientCert"]).
Proof.
  unfold WebConfigHasClientAuth. case_bool_decide as Hp; [split; [done|by intros [? _]]|].
  split.
  - destruct (ReadFile path) as [b|] eqn:Hb; [|done]. cbn. destruct (Unmarshal b) as [wc|] eqn:Hw; [|done].
    intros H. split; [done|]. exists b, wc. split_and!; [done..|]. case_bool_decide; [by left|]. right. by apply bool_decide_eq_true in H.
  - intros (_ & b & wc & Hb & Hw & Ha). rewrite Hb. cbn. rewrite Hw. case_bool_decide; [done|]. apply bool_decide_eq_true.
    by destruct Ha.
Qed.

(** ** Properties *)

(** C25: POST /admin/rediscover.  A batch runs only for a POST with one to 256 decoded
    targets on a listener whose web configuration authenticates its clients (basic-auth
    users, or a client certificate that is required); every other request is refused with
    405, 403 or 400 and nothing runs.  A batch answers every target, in order: what is not
    an address with an error, an address outside the allow-list (any address, when the
    list is empty) as out of scope, every other with the outcome of its walk.  SNMP
    requests go to targets in scope only, and exactly the reported outcomes are counted. *)
Theorem admin_rediscover_contract (Getenv : string → string) `{R : MapRange} `{N : NetText} err_text pcfg mods ov
    targets_cfg nets ports env r h ReadFile Unmarshal path (rq : admin_request) :
  let run := Rediscover Getenv err_text pcfg mods ov targets_cfg nets ports env r h in
  let auth := WebConfigHasClientAuth ReadFile Unmarshal path in
  match NewRediscoverHandler auth run rq with
  | (code, None) =>
      code = if bool_decide (ar_method rq ≠ "POST") then 405 else if auth then 400 else 403
  | (code, Some f) =>
      code = 200 ∧ ar_method rq = "POST" ∧
      (path ≠ "" ∧ ∃ b wc, ReadFile path = Some b ∧ Unmarshal b = Some wc ∧
         (BasicAuthUsers wc ≠ ∅ ∨ ClientAuthType wc ∈ ["RequireAnyClientCert"; "RequireAndVerifyClientCert"])) ∧
      ∃ ts, ar_body rq = Some ts ∧ 1 ≤ Z.of_nat (length ts) ≤ MaxRediscoverTargets ∧
        Forall2 (final_result nets) ts (fo_results f) ∧
        fo_counted f ≡ₚ rr_Outcome <$> fo_results f ∧
        (∀ ip, ip ∈ fo_walked f → in_scope nets ip = true ∧ ∃ raw, raw ∈ ts ∧ ParseIP raw = Some ip)
  end.
Proof.
  cbv zeta. unfold NewRediscoverHandler. case_bool_decide as Hm; [done|].
  destruct (WebConfigHasClientAuth _ _ _) eqn:Ha; cbn [negb]; [|done]. destruct (ar_body rq) as [ts|]; [|done].
  case_bool_decide as Hne; [done|]. destruct (MaxRediscoverTargets <? _) eqn:Hmax; [done|].
  split; [done|]. split; [done|]. split; [by apply client_auth_required|]. exists ts. split; [done|]. split.
  { apply Z.ltb_ge in Hmax. split; [|done]. destruct ts; [done|]. cbn. lia. }
  pose proof (rediscover_batch Getenv err_text pcfg mods ov targets_cfg nets ports env r h ts) as Hb.
  split; [by apply batch_results|]. split; [|by apply (ba_walked _ _ _ _ Hb)].
  pose proof (ba_counted _ _ _ _ Hb) as Hc. by rewrite app_nil_r in Hc.
Qed.

(** the liveness gate.  In a role with a discovery loop, with the product of the
    interval and the number of cycles in range, /healthz answers 503 exactly when a cycle
    has completed, the gate is enabled and the last cycle is further back than the
    product, and exactly then the watchdog raises the stale gauge; a hub always answers
    200. *)
Theorem liveness_gate (role : string) (d : DiscoveryConfig) (status : option CycleStatus) (now : time) :
  0 ≤ d_Interval d * LivenessMaxStaleCyclesValue d ≤ MaxInt → 0 < d_Interval d →
  let maxStale := livenessMaxStale role d in
  ((NewHealthzHandler status maxStale now).1.1.1 = 503 ↔
   role ≠ RoleHub ∧ 0 < LivenessMaxStaleCyclesValue d ∧
   ∃ s, status = Some s ∧ d_Interval d * LivenessMaxStaleCyclesValue d < time_Sub now (LastCycleAt s)) ∧
  ((NewHealthzHandler status maxStale now).1.1.1 = 503 ↔
   ∀ gauge, watchdog_tick (LastCycleAt <$> status) now maxStale gauge = 1).
Proof.
  intros Hr Hi maxStale. assert (
    (NewHealthzHandler status maxStale now).1.1.1 = 503 ↔
    ∃ s, status = Some s ∧ IsStale now (LastCycleAt s) maxStale = true) as Hst.
  { unfold NewHealthzHandler. destruct status as [s|]; [|split; [done|by intros (? & ? & _)]].
    destruct (IsStale _ _ _) eqn:E; cbn; split; try done; [eauto|]. intros (? & [= <-] & ?). congruence. }
  rewrite Hst. split.
  - subst maxStale. unfold livenessMaxStale, IsStale. case_bool_decide as Hrole.
    { split; [intros (? & _ & [=])|by intros [? _]]. }
    destruct (LivenessMaxStaleCyclesValue d <=? 0) eqn:Hc; bprop.
    { split; [intros (? & _ & [=])|intros (_ & ? & _); lia]. }
    rewrite wrap64_small by done. split.
    + intros (s & -> & H). destruct (_ <=? 0); [done|]. bprop. split; [done|]. split; [lia|eauto].
    + intros (_ & _ & s & -> & H). exists s. split; [done|]. destruct (_ <=? 0) eqn:E; bprop; [nia|lia].
  - unfold watchdog_tick. destruct status as [s|]; cbn.
    + split; [intros (? & [= <-] & ->); done|]. intros H. exists s. split; [done|]. by destruct (IsStale _ _ _); [|specialize (H 0)].
    + split; [by intros (? & ? & _)|]. intros H. by specialize (H 0).
Qed.

(** ** Witnesses and examples *)

Definition every_minute (cycles : Z) : DiscoveryConfig :=
  mkDiscovery (60 * Second) (10 * Second) 8 [] 3 (S754_zero false) 0 0 0 0 [] (mkPoolConfig false 0) (Some cycles).

Lemma liveness_gate_witness :
  (NewHealthzHandler (Some (mkCycleStatus 0 2)) (livenessMaxStale "standalone" (every_minute 3)) (181 * Second)).1.1.1 = 503.
Proof.
  destruct (liveness_gate "standalone" (every_minute 3) (Some (mkCycleStatus 0 2)) (181 * Second)) as [H _];
    [split; vm_compute; discriminate|reflexivity|].
  apply H. split; [discriminate|]. split; [reflexivity|]. exists (mkCycleStatus 0 2). split; reflexivity.
Defined.

(** Nothing bounds the number of cycles: the product can wrap to a threshold shorter than
    one interval, and a healthy process is then reported as stale between its cycles. *)
Example cycle_count_wraps :
  0 < livenessMaxStale "standalone" (every_minute 307445735) < d_Interval (every_minute 307445735) ∧
  (NewHealthzHandler (Some (mkCycleStatus 0 0)) (livenessMaxStale "standalone" (every_minute 307445735)) (59 * Second)).1.1.1 = 503.
Proof. vm_compute. auto. Qed.

Definition quiet_env : forced_env :=
  mkForcedEnv None (λ r, r) 0 0 0 (λ _, mkTrial None (inl (WalkError "no answer")) None)
    (mkWalkers (λ _, inr ([], [])) (λ _, inr ([], [])) (λ _, inr ([], [])) (λ _, inr ([], []))
       (λ _, inr ([], [])) (λ _, inr ([], [])) (λ _, inr ([], []))).

Definition lab_nets : list IPNet := option_list (ParseCIDR (NetText:=go_net) "10.0.0.0/8").

(** A name, an address outside the list, a silent device, and a context that ends before
    the last walk. *)
Example four_targets :
  let env k := if (k =? 1)%nat then mkForcedEnv (Some "context canceled") (λ r, r) 0 0 0 (fe_trials quiet_env) (fe_walkers quiet_env)
               else quiet_env in
  let f := Rediscover (R:=range_std) (N:=go_net) half_env (λ _, "auth") (mkProbeConfig [half_profile] "" 0)
             (mkModules true false false false false false false false) None [] lab_nets ∅ env half_resolver []
             ["core1"; "192.0.2.1"; "10.0.0.1"; "10.0.0.2"] in
  rr_Outcome <$> fo_results f = [RediscoverError; RediscoverOutOfScope; RediscoverAuthFailure; RediscoverTimeout] ∧
  fo_walked f = [v4InV6Prefix ++ [10; 0; 0; 1]].
Proof. vm_compute. auto. Qed.
