(* ===== verification/Leadership.v ===== *)
(** * Leadership of a federated hub

    The election callbacks that Run of app/app.go gives the elector, CurrentEpoch and
    inClusterNamespace of federation/elector_k8s.go, and the fence of the snapshots the
    hub writes.  The election itself is Kubernetes' client: when the callbacks run, and
    what the Lease holds when it is read, are the steps below. *)

From Stdlib Require Import ZArith Lia Sorted Ascii.
From S2P Require Import Prelude GoText Discovery HubValidate GraphKeys Reconcile HubMerge Hub Snapshot SnapshotWriter.
Open Scope Z_scope.

(** The namespace of the Lease: configured, of the environment, or of the service account
    (whose file may be absent or blank). *)
Definition inClusterNamespace (file : option string) : string :=
  match file with
  | None => "default"
  | Some data => let ns := TrimSpace data in if bool_decide (ns = "") then "default" else ns
  end.

Definition lease_namespace (configured POD_NAMESPACE : string) (file : option string) : string :=
  let namespace := if bool_decide (configured = "") then POD_NAMESPACE else configured in
  if bool_decide (namespace = "") then inClusterNamespace file else namespace.

(** The elector: the Lease it competes for and the identity it competes under.  The
    in-cluster configuration, the clientset and the host name are what the machine answers. *)
Record k8sLeaseElector := mkElector { ke_LeaseName : string; ke_LeaseNamespace : string; ke_Identity : string }.

Definition NewK8sLeaseElector (InClusterConfig NewForConfig : string + unit) (Hostname : option string) (file : option string)
    (leaseName namespace identity : string) : string + k8sLeaseElector :=
  do _ <- InClusterConfig;
  do _ <- NewForConfig;
  do identity <- (if bool_decide (identity = "") then
                    match Hostname with None => inl "resolve identity" | Some host => inr host end
                  else inr identity);
  let namespace := if bool_decide (namespace = "") then inClusterNamespace file else namespace in
  inr (mkElector leaseName namespace identity).

(** The elector of a hub with HA, as Run builds it from the environment. *)
Definition hub_elector (POD_NAME POD_NAMESPACE : string) (Hostname : option string) (file : option string)
    (InClusterConfig NewForConfig : string + unit) (leaseName leaseNamespace : string) : string + k8sLeaseElector :=
  let identity := if bool_decide (POD_NAME = "") then default "" Hostname else POD_NAME in
  let namespace := if bool_decide (leaseNamespace = "") then POD_NAMESPACE else leaseNamespace in
  NewK8sLeaseElector InClusterConfig NewForConfig Hostname file leaseName namespace identity.

(** [CurrentEpoch] of a Lease that was read. *)
Definition CurrentEpoch (LeaderTransitions : Z) : Z := if LeaderTransitions <? 0 then 0 else LeaderTransitions.

(** No server epoch; or a read of the Lease, which may fail. *)
Inductive epoch_source := NoReader | Reader (transitions : option Z).

Record pod := mkPod { pod_hub : Hub; pod_localEpoch : Z; pod_cancelled : bool }.

Inductive pod_step :=
  | Elected                       (** OnStartedLeading: the leader flag *)
  | ReadEpoch (src : epoch_source)  (** and then the epoch *)
  | Demoted                       (** OnStoppedLeading *)
  | ElectorReturned.              (** the elector's goroutine ends and cancels the process *)

Definition uint64 (z : Z) : Z := z mod 2 ^ 64.

Definition leadership_step (p : pod) (s : pod_step) : pod :=
  match s with
  | Elected => mkPod (SetLeader true (pod_hub p)) (pod_localEpoch p) (pod_cancelled p)
  | ReadEpoch NoReader =>
      let epoch := uint64 (pod_localEpoch p + 1) in
      mkPod (SetLeaseEpoch epoch (pod_hub p)) epoch (pod_cancelled p)
  | ReadEpoch (Reader None) => p
  | ReadEpoch (Reader (Some t)) => mkPod (SetLeaseEpoch (CurrentEpoch t) (pod_hub p)) (pod_localEpoch p) (pod_cancelled p)
  | Demoted => mkPod (SetLeader false (pod_hub p)) (pod_localEpoch p) (pod_cancelled p)
  | ElectorReturned => mkPod (pod_hub p) (pod_localEpoch p) true
  end.

Definition lead (p : pod) (l : list pod_step) : pod := fold_left leadership_step l p.

(** A hub at start: without HA it is the leader, with HA it is not until it is elected. *)
Definition start_pod (ha : bool) (path : string) : pod :=
  mkPod (if ha then SetLeader false (NewHub path) else NewHub path) 0 false.

(** ** The elector's Run *)

(** What the client's elector calls back, in the order it does; the reads of the Lease that
    the hub does on its election come with it. *)
Inductive le_event := StartedLeading (read : option Z) | StoppedLeading | NewLeader (id : string).

(** The callbacks, each of which may be missing, on a state of the process. *)
Record LeaderCallbacks (A : Type) := mkCallbacks {
  OnStartedLeading : option (option Z → A → A);
  OnStoppedLeading : option (A → A);
  OnNewLeader : option (string → A → A)
}.
Arguments mkCallbacks {A} _ _ _.
Arguments OnStartedLeading {A} _.
Arguments OnStoppedLeading {A} _.
Arguments OnNewLeader {A} _.

Definition call_back {A} (cb : LeaderCallbacks A) (a : A) (ev : le_event) : A :=
  match ev with
  | StartedLeading r => match OnStartedLeading cb with Some f => f r a | None => a end
  | StoppedLeading => match OnStoppedLeading cb with Some f => f a | None => a end
  | NewLeader id => match OnNewLeader cb with Some f => f id a | None => a end
  end.

(** [k8sLeaseElector.Run]: the client's elector is built, or the lock is refused; it calls
    back until it returns, which by its documentation it does when the context ends or it
    no longer holds the Lease. *)
Definition elector_Run {A} (NewLeaderElector : string + list le_event) (ctx_err : option string) (cb : LeaderCallbacks A) (a : A)
    : A * option string :=
  match NewLeaderElector with
  | inl err => (a, Some ("federation.hub.ha: build leader elector: " +:+ err))
  | inr evs => (fold_left (call_back cb) evs a, ctx_err)
  end.

(** The callbacks of a hub, and its elector's goroutine, which cancels the process however
    it ends; whether an error of the elector is logged. *)
Definition hub_callbacks (epochReader : bool) : LeaderCallbacks pod :=
  mkCallbacks
    (Some (λ r p, leadership_step (leadership_step p Elected) (ReadEpoch (if epochReader then Reader r else NoReader))))
    (Some (λ p, leadership_step p Demoted))
    (Some (λ _ p, p)).

Definition elector_goroutine (epochReader : bool) (NewLeaderElector : string + list le_event) (ctx_err : option string) (p : pod) : pod * bool :=
  let '(p', rerr) := elector_Run NewLeaderElector ctx_err (hub_callbacks epochReader) p in
  (leadership_step p' ElectorReturned, bool_decide (rerr ≠ None) && bool_decide (ctx_err = None)).

(** The steps of a hub that an event of the elector is. *)
Definition event_steps (epochReader : bool) (ev : le_event) : list pod_step :=
  match ev with
  | StartedLeading r => [Elected; ReadEpoch (if epochReader then Reader r else NoReader)]
  | StoppedLeading => [Demoted]
  | NewLeader _ => []
  end.

(** ** Lemmas *)

Lemma inClusterNamespace_named file : inClusterNamespace file ≠ "".
Proof. unfold inClusterNamespace. destruct file as [d|]; [|done]. by case_bool_decide. Qed.

(** A hub gets its elector exactly in a cluster and with a name for itself; it then competes
    for the configured Lease in a namespace that is never empty. *)
Lemma hub_elector_exact POD_NAME POD_NAMESPACE Hostname file icc nfc leaseName leaseNamespace :
  (∃ e, hub_elector POD_NAME POD_NAMESPACE Hostname file icc nfc leaseName leaseNamespace = inr e) ↔
    icc = inr tt ∧ nfc = inr tt ∧ (POD_NAME ≠ "" ∨ Hostname ≠ None).
Proof.
  unfold hub_elector, NewK8sLeaseElector. split.
  - intros [e He]. destruct icc as [|[]]; [done|]. destruct nfc as [|[]]; [done|]. split_and!; [done|done|].
    destruct (decide (POD_NAME = "")) as [->|]; [|by left]. right. intros ->. by cbn in He.
  - intros (-> & -> & Hn). destruct (decide (POD_NAME = "")) as [Hp|Hp].
    + rewrite (bool_decide_eq_true_2 (POD_NAME = "")) by done. destruct Hostname as [host|]; [|naive_solver].
      cbn. case_bool_decide; eauto.
    + rewrite !(bool_decide_eq_false_2 (POD_NAME = "")) by done. cbn. eauto.
Qed.

Lemma hub_elector_lease POD_NAME POD_NAMESPACE Hostname file icc nfc leaseName leaseNamespace e :
  hub_elector POD_NAME POD_NAMESPACE Hostname file icc nfc leaseName leaseNamespace = inr e →
  ke_LeaseName e = leaseName ∧ ke_LeaseNamespace e = lease_namespace leaseNamespace POD_NAMESPACE file ∧
  ke_LeaseNamespace e ≠ "" ∧ (POD_NAME ≠ "" → ke_Identity e = POD_NAME).
Proof.
  unfold hub_elector, NewK8sLeaseElector, lease_namespace. set (ns := if bool_decide (leaseNamespace = "") then _ else _).
  destruct icc as [|[]]; [done|]. destruct nfc as [|[]]; [done|]. cbn.
  set (id := if bool_decide (POD_NAME = "") then _ else _).
  set (got := if bool_decide (id = "") then _ else _). destruct got as [|i] eqn:Hid; cbn; [done|]. intros [= <-]. cbn.
  split_and!; try done.
  - case_bool_decide; [apply inClusterNamespace_named|done].
  - intros Hp. unfold got, id in Hid. rewrite !(bool_decide_eq_false_2 (POD_NAME = "")) in Hid by done. congruence.
Qed.

(** The epochs that reach the hub when the Lease can be read. *)
Definition epoch_read (s : pod_step) : option Z :=
  match s with ReadEpoch (Reader (Some t)) => Some (CurrentEpoch t) | _ => None end.

Definition leads (s : pod_step) : option bool :=
  match s with Elected => Some true | Demoted => Some false | _ => None end.

Definition local_read (s : pod_step) : bool := match s with ReadEpoch NoReader => true | _ => false end.

Lemma last_cons_default {A} (x : A) l : default x (last l) = default x (last (x :: l)).
Proof. by destruct l. Qed.

Lemma lead_leader p l : isLeader (pod_hub (lead p l)) = default (isLeader (pod_hub p)) (last (omap leads l)).
Proof.
  revert p. induction l as [|s l IH]; intros p; [done|]. change (lead p (s :: l)) with (lead (leadership_step p s) l).
  rewrite IH. destruct s as [|[|[t|]]| |]; cbn [leadership_step omap list_omap leads]; try done;
    by rewrite last_cons; destruct (last (omap leads l)).
Qed.

Lemma lead_epoch p l :
  forallb (λ s, negb (local_read s)) l = true →
  leaseEpoch (pod_hub (lead p l)) = default (leaseEpoch (pod_hub p)) (last (omap epoch_read l)).
Proof.
  revert p. induction l as [|s l IH]; intros p; [done|]. cbn [forallb]. intros [Hs Hl]%andb_true_iff.
  change (lead p (s :: l)) with (lead (leadership_step p s) l).
  rewrite IH by done. destruct s as [|[|[t|]]| |]; cbn [leadership_step omap list_omap epoch_read]; try done.
  by rewrite last_cons; destruct (last (omap epoch_read l)).
Qed.

Lemma lead_local p l :
  omap epoch_read l = [] → pod_localEpoch p = leaseEpoch (pod_hub p) → 0 ≤ pod_localEpoch p →
  pod_localEpoch p + Z.of_nat (length l) < 2 ^ 64 →
  leaseEpoch (pod_hub (lead p l)) = pod_localEpoch p + Z.of_nat (length (filter (λ s, local_read s = true) l)).
Proof.
  revert p. induction l as [|s l IH]; intros p Hr He Hp Hb; [cbn; lia|].
  change (lead p (s :: l)) with (lead (leadership_step p s) l). rewrite filter_cons. cbn [length] in Hb.
  destruct s as [|[|[t|]]| |]; cbn [omap list_omap epoch_read local_read] in *; try discriminate Hr;
    try (rewrite decide_False by done; rewrite IH; cbn [leadership_step pod_localEpoch pod_hub]; [done|done|done|done|lia]).
  rewrite decide_True by done. cbn [length].
  assert (uint64 (pod_localEpoch p + 1) = pod_localEpoch p + 1) as Hu by (unfold uint64; apply Z.mod_small; lia).
  rewrite IH; cbn [leadership_step pod_localEpoch pod_hub]; rewrite ?Hu; [lia|done|done|lia|lia].
Qed.

(** One source of epochs for the whole life of the process: the Lease, whose number of
    transitions only grows, or the local counter. *)
Definition one_source (l : list pod_step) : Prop :=
  (forallb (λ s, negb (local_read s)) l = true ∧ Sorted Z.le (omap epoch_read l)) ∨
  (omap epoch_read l = [] ∧ Z.of_nat (length l) < 2 ^ 64).

Lemma epoch_read_nonneg (l : list pod_step) z : z ∈ omap epoch_read l → 0 ≤ z.
Proof.
  intros (s & _ & H)%list_elem_of_omap. destruct s as [|[|[t|]]| |]; try done. injection H as <-.
  unfold CurrentEpoch. destruct (t <? 0) eqn:E; bprop; lia.
Qed.

Lemma sorted_last l1 l2 : Sorted Z.le (l1 ++ l2) → (∀ z, z ∈ l1 ++ l2 → 0 ≤ z) → default 0 (last l1) ≤ default 0 (last (l1 ++ l2)).
Proof.
  intros Hs H0. destruct (last l1) as [x|] eqn:E1; cbn.
  - apply last_Some in E1 as [l ->]. rewrite last_app. destruct (last l2) as [y|] eqn:E2; cbn; [|by rewrite last_snoc].
    apply last_Some in E2 as [l' ->]. apply Sorted_StronglySorted in Hs; [|intros a b c; lia].
    rewrite <- app_assoc in Hs. apply StronglySorted_app in Hs as (_ & _ & Hs). cbn in Hs.
    inversion_clear Hs as [|? ? _ Hf]. rewrite Forall_forall in Hf. apply Hf. set_solver.
  - destruct (last (l1 ++ l2)) as [y|] eqn:E2; cbn; [|lia]. apply H0, (last_Some_elem_of _ _ E2).
Qed.

Lemma omap_prefix_nil {A B} (f : A → option B) (l1 l2 : list A) : omap f (l1 ++ l2) = [] → omap f l1 = [].
Proof. rewrite omap_app. by intros [? _]%app_eq_nil. Qed.

(** ** Properties *)

(** C23: leadership and the fence token.  A hub with HA leads exactly between an election
    and the next demotion, and not before the first; without HA it leads from the start.
    With one source of epochs (the Lease, whose transitions only grow, or the local
    counter) the epoch of the hub never decreases, a failed read included, and it is the
    last epoch read, or the number of elections counted locally. *)
Theorem leadership_epoch (ha : bool) (path : string) (pre suf : list pod_step) :
  one_source (pre ++ suf) →
  let p := lead (start_pod ha path) pre in
  let q := lead (start_pod ha path) (pre ++ suf) in
  isLeader (pod_hub q) = default (negb ha) (last (omap leads (pre ++ suf))) ∧
  0 ≤ leaseEpoch (pod_hub p) ≤ leaseEpoch (pod_hub q) ∧
  leaseEpoch (pod_hub q) = default (Z.of_nat (length (filter (λ s, local_read s = true) (pre ++ suf))))
                             (last (omap epoch_read (pre ++ suf))).
Proof.
  intros Hs p q. split.
  { unfold q. rewrite lead_leader. by destruct ha. }
  assert (leaseEpoch (pod_hub (start_pod ha path)) = 0) as H0 by (by destruct ha).
  destruct Hs as [[Hr Hsort]|[Hr Hb]].
  - assert (filter (λ s, local_read s = true) (pre ++ suf) = []) as ->.
    { clear -Hr. induction (pre ++ suf) as [|s l IH]; [done|]. cbn [forallb] in Hr. apply andb_true_iff in Hr as [H1 H2].
      rewrite filter_cons, decide_False; [by apply IH|]. by destruct (local_read s). }
    unfold p, q. rewrite !lead_epoch, H0; [|done|rewrite forallb_app in Hr; by apply andb_true_iff in Hr as [? _]].
    split; [|done]. rewrite omap_app in *. split; [|apply sorted_last; [done|]].
    + destruct (last (omap epoch_read pre)) as [z|] eqn:E; cbn; [|lia]. apply (epoch_read_nonneg pre).
      by apply last_Some_elem_of.
    + intros z. rewrite <- omap_app. apply epoch_read_nonneg.
  - rewrite Hr. cbn [last default]. unfold p, q. rewrite length_app in Hb.
    rewrite !lead_local; try (destruct ha; cbn [start_pod pod_localEpoch]; rewrite ?length_app; first [done|lia|by eapply omap_prefix_nil]).
    rewrite filter_app, length_app. cbn [start_pod pod_localEpoch]. split; lia.
Qed.

(** a hub that was elected but has read no epoch yet, because every read failed or
    none has happened since it started, writes its snapshots without a fence: with a
    working disk the file is replaced whatever epoch it carries. *)
Theorem unread_epoch_unfenced (MR : MapRange) (C : Codec) (ha : bool) (hub_path path tmp part b : string) (l : list pod_step)
    (fs : FS) (now : time) (g : Graph) :
  forallb (λ s, negb (local_read s)) l = true → omap epoch_read l = [] →
  let f := hub_snapshot_file (leaseEpoch (pod_hub (lead (start_pod ha hub_path) l))) g in
  marshal (stamp now f) = Some b →
  let '(_, final, err) := Write no_faults now tmp part fs path f in
  err = None ∧ final !! path = Some b.
Proof.
  intros Hl Hr. rewrite lead_epoch, Hr by done.
  assert (leaseEpoch (pod_hub (start_pod ha hub_path)) = 0) as -> by (by destruct ha).
  cbn [last default]. cbv zeta. intros Hb. unfold Write. cbn. rewrite Hb. cbn. split; [done|]. apply lookup_insert_eq.
Qed.

(** the elector of a hub: what its callbacks do to the hub is the sequence of steps
    of its events, and its return ends the process, an elector that lost the Lease while the
    context goes on included; an error is logged exactly if the lock was refused in a live
    process. *)
Theorem elector_steps (epochReader : bool) (built : string + list le_event) (ctx_err : option string) (p : pod) :
  let evs := match built with inl _ => [] | inr evs => evs end in
  let '(q, logged) := elector_goroutine epochReader built ctx_err p in
  q = lead p ((evs ≫= event_steps epochReader) ++ [ElectorReturned]) ∧ pod_cancelled q = true ∧
  (logged = true ↔ ctx_err = None ∧ ∃ err, built = inl err).
Proof.
  unfold elector_goroutine, elector_Run. destruct built as [err|evs]; cbn [fst snd].
  { split; [done|]. split; [done|]. rewrite andb_true_iff, !bool_decide_eq_true. naive_solver. }
  split; [|split; [done|rewrite andb_true_iff, !bool_decide_eq_true; naive_solver]].
  unfold lead. rewrite fold_left_app. cbn [fold_left]. f_equal. revert p. induction evs as [|ev evs IH]; intros p; [done|].
  cbn [fold_left]. rewrite IH. cbn [mbind list_bind]. rewrite fold_left_app. f_equal. by destruct ev.
Qed.

(** A hub that loses the Lease does not stay as a follower: it ends. *)
Example lost_lease_ends_process :
  let '(q, logged) := elector_goroutine true (inr [StartedLeading (Some 3); NewLeader "pod-1"; StoppedLeading]) None (start_pod true "s") in
  isLeader (pod_hub q) = false ∧ leaseEpoch (pod_hub q) = 3 ∧ pod_cancelled q = true ∧ logged = false.
Proof. vm_compute. auto. Qed.

(** ** Witnesses *)

Definition elections : list pod_step :=
  [Elected; ReadEpoch (Reader (Some 3)); Demoted; Elected; ReadEpoch (Reader None)].

Lemma leadership_epoch_witness :
  isLeader (pod_hub (lead (start_pod true "snap.json") elections)) = true ∧
  leaseEpoch (pod_hub (lead (start_pod true "snap.json") elections)) = 3.
Proof.
  destruct (leadership_epoch true "snap.json" elections []) as (H1 & _ & H3).
  - left. split; [reflexivity|]. repeat constructor.
  - split; [exact H1|exact H3].
Defined.

#[refine] Definition zero_codec : Codec := {|
  marshal f := if bool_decide (f = stamp 9 (hub_snapshot_file 0 (mkGraph [] [] []))) then Some "zero" else None;
  unmarshal b := if bool_decide (b = "zero") then Some (stamp 9 (hub_snapshot_file 0 (mkGraph [] [] [])))
                 else if bool_decide (b = "seven") then Some (epoch_file 7 []) else None
|}.
Proof. intros f b. case_bool_decide; [|done]. intros [= <-]. subst. eexists. split; [reflexivity|by split_and!]. Defined.

(** The disk holds a snapshot of epoch 7. *)
Lemma unread_epoch_unfenced_witness :
  (Load (MR:=range_std) (C:=zero_codec) no_faults {["snap.json" := "seven"]} "snap.json").2 = Loaded (epoch_file 7 []) ∧
  (Write (MR:=range_std) (C:=zero_codec) no_faults 9 "t" "" {["snap.json" := "seven"]} "snap.json"
     (hub_snapshot_file (leaseEpoch (pod_hub (lead (start_pod true "snap.json") [Elected; ReadEpoch (Reader None)]))) (mkGraph [] [] []))).2
  = None.
Proof.
  split; [vm_compute; reflexivity|].
  pose proof (unread_epoch_unfenced range_std zero_codec true "snap.json" "snap.json" "t" "" "zero"
    [Elected; ReadEpoch (Reader None)] {["snap.json" := "seven"]} 9 (mkGraph [] [] [])) as H.
  specialize (H ltac:(reflexivity) ltac:(reflexivity) ltac:(vm_compute; reflexivity)).
  destruct (Write _ _ _ _ _ _ _) as [[tr fin] err]. exact (proj1 H).
Defined.

Example namespaces :
  lease_namespace "" "" (Some (" ops" +:+ String "010"%char "")) = "ops" ∧ lease_namespace "" "" None = "default" ∧
  lease_namespace "hub" "ops" None = "hub".
Proof. vm_compute. auto. Qed.
