(* ===== verification/Scheduler.v ===== *)
(** * The scheduler: one mutex, cycles, forced walks and panics

    RunDiscoveryLoop of app/loop.go around the cycles of [Loop]: the cycle mutex it shares
    with the forced walks of app/rediscover.go, the recovery of a panicking cycle and the
    status that /healthz reads.  A cycle is three steps: RunCycle under the mutex, the check
    of the context with the store of the status after the unlock, and publish; together they
    are [Loop.cycle] ([cycle_parts]).  A forced walk runs in the goroutine of its request,
    whose panics net/http recovers. *)

From Stdlib Require Import ZArith Lia.
From S2P Require Import Prelude GoText Discovery HubValidate GraphKeys Reconcile GraphDiff Snapshot.
From S2P Require Import Pdu Credentials Synthesize DeviceWalk Config Cycle Loop Admin.
Open Scope Z_scope.

(** Who holds [CycleMu]. *)
Inductive holder := Free | HeldByLoop | HeldByAdmin.

(** Where the goroutine of the loop is: before the first cycle; at the select; waiting for
    the mutex; in RunCycle; after the unlock, with what RunCycle returned; past the store of
    the status; gone. *)
Inductive loop_phase :=
  | Starting
  | AtSelect
  | AtLock (t : tick)
  | InRunCycle (t : tick)
  | Unlocked (t : tick) (c : cycle_out)
  | Publishing (t : tick) (c : cycle_out)
  | Returned.

Record sched := mkSched {
  sd_loop : loop_state;
  sd_phase : loop_phase;
  sd_mutex : holder;
  sd_status : option CycleStatus;
  sd_panics : nat;
  sd_walking : nat  (** forced walks under way *)
}.

Inductive event :=
  | Tick (t : tick)                             (** the first cycle, or the ticker fires *)
  | LockAcquired                                (** the loop gets the mutex it waited for *)
  | RunCycleReturns                             (** and the mutex is unlocked *)
  | StatusStored (doneAt : time) (errors : Z)   (** unless the context is done: then the cycle ends *)
  | PublishReturns
  | CyclePanics                                 (** RunCycle panics *)
  | PublishPanics (k : nat)                     (** publish panics after [k] of its effects *)
  | AdminLocks
  | AdminUnlocks
  | AdminPanics                                 (** the walk panics before the unlock *)
  | Cancelled.                                  (** the select takes ctx.Done *)

(** The cycle has begun. *)
Definition counted (s : loop_state) : loop_state :=
  mkLoopState (ls_cycle s) (ls_cycleNum s + 1) (ls_queue s) (ls_actions s).

(** What the writer left in its queue. *)
Definition left_queue (s : loop_state) (t : tick) : option File := if tk_writer_took t then None else ls_queue s.

Section Sched.
Context `{U : Unicode} `{N : NetText} (lc : LoopConfig).

(** The call of RunCycle: it reads the ages of the state. *)
Definition run_cycle (s : loop_state) (t : tick) : cycle_out :=
  RunCycle (R := tk_range t) (lc_cycle lc) (cs_ages (ls_cycle s)) (tk_outcomes t).

(** The cycle ends at the check of the context. *)
Definition skipped (s : loop_state) (t : tick) : loop_state :=
  mkLoopState (ls_cycle s) (ls_cycleNum s) (left_queue s t) (ls_actions s).

(** The call of publish with what RunCycle returned, and what it is to do. *)
Definition publishing (s : loop_state) (t : tick) (c : cycle_out) : cycleState * option File * list action :=
  publish (R := tk_range t) lc (ls_cycle s) (with_first_seen (co_graph c) (OutOfScope (prevGraph (ls_cycle s))))
    (co_ages c) (co_conflicts c) (ls_cycleNum s) (tk_credCache t) (tk_now t) (left_queue s t).

Definition published (s : loop_state) (t : tick) (c : cycle_out) : loop_state :=
  let '(st', queue', acts) := publishing s t c in mkLoopState st' (ls_cycleNum s) queue' (ls_actions s ++ acts).

(** A publish that panicked after [k] of its effects: the assignment of the new state does
    not happen; a snapshot that was queued stays queued. *)
Definition cut_publish (s : loop_state) (t : tick) (c : cycle_out) (k : nat) : loop_state :=
  let acts := take k (publishing s t c).2 in
  mkLoopState (ls_cycle s) (ls_cycleNum s)
    (match find_first (λ a, match a with SnapshotQueued _ => true | _ => false end) acts with
     | Some (SnapshotQueued f) => Some f
     | _ => left_queue s t
     end) (ls_actions s ++ acts).

(** A cycle begins: it is counted, and takes the mutex or waits for it. *)
Definition begin_cycle (s : sched) (t : tick) : sched :=
  match sd_mutex s with
  | Free => mkSched (counted (sd_loop s)) (InRunCycle t) HeldByLoop (sd_status s) (sd_panics s) (sd_walking s)
  | m => mkSched (counted (sd_loop s)) (AtLock t) m (sd_status s) (sd_panics s) (sd_walking s)
  end.

Definition sched_step (s : sched) (e : event) : sched :=
  match e with
  | Tick t => match sd_phase s with Starting | AtSelect => begin_cycle s t | _ => s end
  | LockAcquired =>
      match sd_phase s, sd_mutex s with
      | AtLock t, Free => mkSched (sd_loop s) (InRunCycle t) HeldByLoop (sd_status s) (sd_panics s) (sd_walking s)
      | _, _ => s
      end
  | RunCycleReturns =>
      match sd_phase s with
      | InRunCycle t => mkSched (sd_loop s) (Unlocked t (run_cycle (sd_loop s) t)) Free (sd_status s) (sd_panics s) (sd_walking s)
      | _ => s
      end
  | StatusStored doneAt errors =>
      match sd_phase s with
      | Unlocked t c =>
          if tk_ctx_done t then mkSched (skipped (sd_loop s) t) AtSelect (sd_mutex s) (sd_status s) (sd_panics s) (sd_walking s)
          else mkSched (sd_loop s) (Publishing t c) (sd_mutex s) (Some (mkCycleStatus doneAt errors)) (sd_panics s) (sd_walking s)
      | _ => s
      end
  | PublishReturns =>
      match sd_phase s with
      | Publishing t c => mkSched (published (sd_loop s) t c) AtSelect (sd_mutex s) (sd_status s) (sd_panics s) (sd_walking s)
      | _ => s
      end
  | CyclePanics =>
      match sd_phase s with
      | InRunCycle t => mkSched (sd_loop s) AtSelect (sd_mutex s) (sd_status s) (S (sd_panics s)) (sd_walking s)
      | _ => s
      end
  | PublishPanics k =>
      match sd_phase s with
      | Publishing t c => mkSched (cut_publish (sd_loop s) t c k) AtSelect (sd_mutex s) (sd_status s) (S (sd_panics s)) (sd_walking s)
      | _ => s
      end
  | AdminLocks =>
      match sd_mutex s with
      | Free => mkSched (sd_loop s) (sd_phase s) HeldByAdmin (sd_status s) (sd_panics s) (S (sd_walking s))
      | _ => s
      end
  | AdminUnlocks =>
      match sd_mutex s, sd_walking s with
      | HeldByAdmin, S n => mkSched (sd_loop s) (sd_phase s) Free (sd_status s) (sd_panics s) n
      | _, _ => s
      end
  | AdminPanics =>
      match sd_walking s with
      | S n => mkSched (sd_loop s) (sd_phase s) (sd_mutex s) (sd_status s) (sd_panics s) n
      | O => s
      end
  | Cancelled =>
      match sd_phase s with
      | AtSelect => mkSched (sd_loop s) Returned (sd_mutex s) (sd_status s) (sd_panics s) (sd_walking s)
      | _ => s
      end
  end.

Definition sched_init (R0 : MapRange) (snap : option File) : sched :=
  mkSched (Loop.start R0 snap) Starting Free None 0 0.

Definition sched_run (s : sched) (es : list event) : sched := fold_left sched_step es s.

(** The ticks that the loop takes: those that come when it is at the select, and the first
    cycle. *)
Definition takes (s : sched) (e : event) : list tick :=
  match e, sd_phase s with Tick t, (Starting | AtSelect) => [t] | _, _ => [] end.

Fixpoint taken (s : sched) (es : list event) : list tick :=
  match es with [] => [] | e :: es => takes s e ++ taken (sched_step s e) es end.

(** The tick of a cycle that has begun and not ended. *)
Definition pending (s : sched) : list tick :=
  match sd_phase s with AtLock t | InRunCycle t | Unlocked t _ | Publishing t _ => [t] | _ => [] end.
End Sched.

(** ** Lemmas *)

Section Sched_lemmas.
Context `{U : Unicode} `{N : NetText} (lc : LoopConfig).

Record sched_inv (s : sched) : Prop := {
  si_loop : ∀ t, sd_phase s = InRunCycle t → sd_mutex s = HeldByLoop;
  si_one : (sd_walking s ≤ 1)%nat;
  si_admin : sd_walking s ≠ O → sd_mutex s = HeldByAdmin
}.

Lemma sched_step_inv s e : sched_inv s → sched_inv (sched_step lc s e).
Proof.
  intros Hs. pose proof Hs as [H1 H2 H3]. destruct s as [l ph m stt p w]. cbn [sd_phase sd_mutex sd_walking] in *.
  destruct e; cbn [sched_step sd_phase sd_mutex sd_walking]; unfold begin_cycle; cbn [sd_mutex]; repeat case_match; try exact Hs; simplify_eq/=;
    (split; cbn [sd_phase sd_mutex sd_walking];
     [intros t' Ht'; try discriminate Ht'; first [by eauto|specialize (H1 _ Ht'); congruence]
     |first [lia|destruct w; [lia|by specialize (H3 ltac:(lia))]]
     |intros Hw; first [by auto|lia|specialize (H3 ltac:(lia)); congruence
                       |specialize (H1 _ eq_refl); specialize (H3 ltac:(lia)); congruence]]).
Qed.

Lemma sched_run_inv s es : sched_inv s → sched_inv (sched_run lc s es).
Proof. revert s. induction es as [|e es IH]; intros s Hs; [done|]. by apply IH, sched_step_inv. Qed.

Lemma sched_init_inv R0 snap : sched_inv (sched_init R0 snap).
Proof. split; cbn; [done|lia|lia]. Qed.

Lemma sched_run_app s es1 es2 : sched_run lc s (es1 ++ es2) = sched_run lc (sched_run lc s es1) es2.
Proof. apply fold_left_app. Qed.

Lemma taken_app s es1 es2 : taken lc s (es1 ++ es2) = taken lc s es1 ++ taken lc (sched_run lc s es1) es2.
Proof. revert s. induction es1 as [|e es1 IH]; intros s; [done|]. cbn [app taken]. rewrite IH. by rewrite app_assoc. Qed.

(** *** One cycle is its three parts *)

Lemma cycle_parts s t :
  Loop.cycle lc s t = if tk_ctx_done t then skipped (counted s) t else published lc (counted s) t (run_cycle lc s t).
Proof. unfold Loop.cycle, skipped, published, publishing, run_cycle, left_queue. by destruct (tk_ctx_done t). Qed.

(** *** Without panics *)

Definition calm (e : event) : bool :=
  match e with CyclePanics | PublishPanics _ | AdminPanics => false | _ => true end.

(** Where the cycle that is under way has got to, after the cycles that led to [s0]. *)
Definition under_way (s0 : loop_state) (s : sched) : Prop :=
  match sd_phase s with
  | Starting | AtSelect | Returned => sd_loop s = s0
  | AtLock t | InRunCycle t => sd_loop s = counted s0
  | Unlocked t c => sd_loop s = counted s0 ∧ c = run_cycle lc s0 t
  | Publishing t c => sd_loop s = counted s0 ∧ c = run_cycle lc s0 t ∧ tk_ctx_done t = false
  end.

(** [ts] are the ticks whose cycles have ended, of the ticks that were [served]. *)
Record serves (R0 : MapRange) (snap : option File) (served ts : list tick) (s : sched) : Prop := {
  sv_loop : under_way (RunDiscoveryLoop lc R0 snap ts) s;
  sv_ticks : served = ts ++ pending s;
  sv_free : sd_walking s = O → (∀ t, sd_phase s ≠ InRunCycle t) → sd_mutex s = Free
}.

Lemma serves_done R0 snap ts t s :
  sd_loop s = Loop.cycle lc (RunDiscoveryLoop lc R0 snap ts) t → sd_phase s = AtSelect →
  (sd_walking s = O → sd_mutex s = Free) → serves R0 snap (ts ++ [t]) (ts ++ [t]) s.
Proof.
  intros Hl Hp Hf. split.
  - unfold under_way. rewrite Hp, Hl. unfold RunDiscoveryLoop. by rewrite fold_left_app.
  - unfold pending. by rewrite Hp, app_nil_r.
  - auto.
Qed.

Lemma serves_step R0 snap served ts s e :
  calm e = true → sched_inv s → serves R0 snap served ts s →
  ∃ ts', serves R0 snap (served ++ takes s e) ts' (sched_step lc s e).
Proof.
  intros Hc Hi Hs. pose proof Hs as [H1 H2 H3]. pose proof Hi as [I1 I2 I3].
  destruct s as [l ph m stt p w]. unfold pending, under_way in H1, H2. cbn [sd_loop sd_phase sd_mutex sd_walking] in *.
  assert (serves R0 snap (served ++ []) ts (mkSched l ph m stt p w)) as Hsame by by rewrite app_nil_r.
  assert (∀ t : tick, served = ts ++ [] → m = Free ∨ w ≠ O → l = RunDiscoveryLoop lc R0 snap ts →
    serves R0 snap (served ++ [t]) ts (begin_cycle (mkSched l ph m stt p w) t)) as Hbegin.
  { intros t -> Hm ->. rewrite app_nil_r. unfold begin_cycle. cbn [sd_mutex sd_loop].
    destruct m; (split; [done|done|]); cbn; intros Hw Hno; [by destruct (Hno t)|..]; by destruct Hm. }
  assert ((∀ t, ph ≠ InRunCycle t) → m = Free ∨ w ≠ O) as Hm
    by (intros Hno; destruct (decide (w = O)) as [E|E]; [left; by apply H3|by right]).
  destruct e as [t| |  |doneAt errors| | | | | | |]; try discriminate Hc; cbn [sched_step takes sd_phase sd_mutex sd_walking sd_loop] in *.
  - destruct ph; try (by exists ts); (exists ts; apply Hbegin; [done|by apply Hm|done]).
  - destruct ph, m; try (by exists ts). exists ts. rewrite app_nil_r. split; cbn; [done|done|]. intros _ Hno. by destruct (Hno t).
  - destruct ph as [| |t|t|t c|t c|]; try (by exists ts). exists ts. rewrite app_nil_r. split; cbn; [|done|done]. by rewrite H1.
  - destruct ph as [| |t|t|t c|t c|]; try (by exists ts). destruct H1 as [-> ->].
    destruct (tk_ctx_done t) eqn:Hd; rewrite app_nil_r; subst served.
    + exists (ts ++ [t]). apply serves_done; cbn; [by rewrite cycle_parts, Hd|done|]. intros Hw. by apply H3.
    + exists ts. split; cbn; [done|done|]. intros Hw _. by apply H3.
  - destruct ph as [| |t|t|t c|t c|]; try (by exists ts). destruct H1 as (-> & -> & Hd). rewrite app_nil_r. subst served.
    exists (ts ++ [t]). apply serves_done; cbn; [by rewrite cycle_parts, Hd|done|]. intros Hw. by apply H3.
  - destruct m; try (by exists ts). exists ts. rewrite app_nil_r. split; cbn; [done|done|lia].
  - destruct m; try (by exists ts). destruct w as [|w]; try (by exists ts). exists ts. rewrite app_nil_r. by split.
  - destruct ph; try (by exists ts). exists ts. rewrite app_nil_r. split; cbn; [done|done|]. intros Hw _. by apply H3.
Qed.

Lemma serves_run R0 snap served ts s es :
  Forall (λ e, calm e = true) es → sched_inv s → serves R0 snap served ts s →
  ∃ ts', serves R0 snap (served ++ taken lc s es) ts' (sched_run lc s es).
Proof.
  revert served ts s. induction es as [|e es IH]; intros served ts s Hc Hi Hs; cbn [taken].
  { exists ts. cbn. by rewrite app_nil_r. }
  apply Forall_cons in Hc as [He Hc]. destruct (serves_step R0 snap served ts s e He Hi Hs) as [ts1 H1].
  rewrite app_assoc. exact (IH _ ts1 (sched_step lc s e) Hc (sched_step_inv s e Hi) H1).
Qed.

Lemma serves_init R0 snap : serves R0 snap [] [] (sched_init R0 snap).
Proof. by split. Qed.

(** What is left of the cycle under way, and of the walk that keeps it waiting. *)
Definition rest_of (s : sched) (now : time) (errors : Z) : list event :=
  (if bool_decide (sd_walking s = O) then [] else [AdminUnlocks]) ++
  match sd_phase s with
  | AtLock _ => [LockAcquired; RunCycleReturns; StatusStored now errors; PublishReturns]
  | InRunCycle _ => [RunCycleReturns; StatusStored now errors; PublishReturns]
  | Unlocked _ _ => [StatusStored now errors; PublishReturns]
  | Publishing _ _ => [PublishReturns]
  | _ => []
  end.

Lemma rest_calm s now errors : Forall (λ e, calm e = true) (rest_of s now errors) ∧ (length (rest_of s now errors) ≤ 5)%nat.
Proof.
  unfold rest_of. case_bool_decide; destruct (sd_phase s); cbn; (split; [repeat constructor|lia]).
Qed.

Definition idle (s : sched) : Prop :=
  (sd_phase s = Starting ∨ sd_phase s = AtSelect) ∧ sd_mutex s = Free ∧ sd_walking s = O.

Lemma rest_idle R0 snap served ts s now errors :
  sched_inv s → serves R0 snap served ts s → sd_phase s ≠ Returned →
  idle (sched_run lc s (rest_of s now errors)) ∧ taken lc s (rest_of s now errors) = [].
Proof.
  intros [I1 I2 I3] [H1 H2 H3] Hr. destruct s as [l ph m stt p w]. unfold rest_of, idle. cbn [sd_phase sd_mutex sd_walking] in *.
  case_bool_decide as Hw.
  - subst w. destruct ph as [| |t|t|t c|t c|]; try done.
    all: try (assert (m = Free) as -> by (apply H3; [done|by intros ?])).
    all: cbn; try (destruct (tk_ctx_done t)); cbn; auto.
  - assert (m = HeldByAdmin) as -> by auto. assert (w = 1%nat) as -> by lia.
    destruct ph as [| |t|t|t c|t c|]; try done.
    all: try (specialize (I1 t eq_refl); discriminate).
    all: cbn; try (destruct (tk_ctx_done t)); cbn; auto.
Qed.

(** A tick that finds the loop idle is served. *)
Definition whole_cycle (t : tick) (now : time) (errors : Z) : list event :=
  [Tick t; RunCycleReturns; StatusStored now errors; PublishReturns].

Lemma idle_cycle s t now errors :
  idle s →
  let s' := sched_run lc s (whole_cycle t now errors) in
  idle s' ∧ taken lc s (whole_cycle t now errors) = [t] ∧ sd_loop s' = Loop.cycle lc (sd_loop s) t ∧ sd_phase s' = AtSelect.
Proof.
  intros (Hp & Hm & Hw). destruct s as [l ph m stt p w]. cbn [sd_phase sd_mutex sd_walking sd_loop] in *. subst m w. cbv zeta.
  rewrite cycle_parts. unfold idle.
  destruct Hp as [->| ->]; cbn; destruct (tk_ctx_done t); cbn; auto 10.
Qed.

(** *** After a panic that kept the mutex *)

Record wedged (s0 s : sched) : Prop := {
  wd_mutex : sd_mutex s = HeldByLoop;
  wd_phase : ∀ t, sd_phase s ≠ InRunCycle t;
  wd_phase' : pending s = [] ∨ ∃ t, sd_phase s = AtLock t;
  wd_walking : sd_walking s = O;
  wd_cycle : ls_cycle (sd_loop s) = ls_cycle (sd_loop s0);
  wd_actions : ls_actions (sd_loop s) = ls_actions (sd_loop s0);
  wd_status : sd_status s = sd_status s0
}.

Lemma wedged_step s0 s e : wedged s0 s → wedged s0 (sched_step lc s e).
Proof.
  intros Hs. pose proof Hs as [H1 H2 H3 H4 H5 H6 H7]. destruct s as [l ph m stt p w]. cbn in *. subst.
  assert (∀ t c, ph ≠ Unlocked t c ∧ ph ≠ Publishing t c) as H8
    by (intros t c; destruct H3 as [H3|[t' ->]]; [split; intros ->; discriminate H3|done]).
  destruct e; cbn; destruct ph; cbn; try exact Hs; try (exfalso; eapply H2; reflexivity);
    try (exfalso; eapply (proj1 (H8 _ _)); reflexivity); try (exfalso; eapply (proj2 (H8 _ _)); reflexivity);
    (split; unfold pending; cbn; try done; eauto).
Qed.

Lemma wedged_run s0 s es : wedged s0 s → wedged s0 (sched_run lc s es).
Proof. revert s. induction es as [|e es IH]; intros s Hs; [done|]. by apply IH, wedged_step. Qed.

(** *** A run of panicking publications *)

(** A cycle whose publication panics. *)
Definition panicking (x : tick * time * Z * nat) : list event :=
  [Tick x.1.1.1; RunCycleReturns; StatusStored x.1.1.2 x.1.2; PublishPanics x.2].

Lemma publish_panics_run xs s0 :
  idle s0 → Forall (λ x : tick * time * Z * nat, tk_ctx_done x.1.1.1 = false) xs →
  let s1 := sched_run lc s0 (xs ≫= panicking) in
  ls_cycle (sd_loop s1) = ls_cycle (sd_loop s0) ∧
  sd_status s1 = match last xs with Some x => Some (mkCycleStatus x.1.1.2 x.1.2) | None => sd_status s0 end.
Proof.
  revert s0. induction xs as [|[[[t0 a0] e0] k0] xs IH]; intros s0 Hi0 Hf0; [done|]. apply Forall_cons in Hf0 as [Hd Hf0].
  cbv zeta. cbn [mbind list_bind]. rewrite sched_run_app. cbn [fst] in Hd.
  assert (let s1 := sched_run lc s0 (panicking (t0, a0, e0, k0)) in
    idle s1 ∧ ls_cycle (sd_loop s1) = ls_cycle (sd_loop s0) ∧ sd_status s1 = Some (mkCycleStatus a0 e0)) as (Hi1 & Hc1 & Hs1).
  { destruct Hi0 as (Hp & Hm & Hw). destruct s0 as [l ph m stt p w]. cbn [sd_phase sd_mutex sd_walking] in *. subst m w. unfold idle.
    destruct Hp as [->| ->]; cbn; rewrite Hd; cbn; auto 10. }
  destruct (IH _ Hi1 Hf0) as [I1 I2]. rewrite I1, I2. split; [done|].
  rewrite last_cons. by destruct (last xs) as [[[[? ?] ?] ?]|].
Qed.
End Sched_lemmas.

(** ** Properties *)

(** C29: the scheduler implements the loop, and serialises SNMP discovery.  Whatever panics, a
    call of RunCycle and a forced walk are never under way at the same time, nor are two
    forced walks.  If nothing panics, then in any interleaving of ticks, forced walks and
    shutdown the first cycle and every tick that comes at the select are served, once each
    and in order: once the cycle under way has ended the state is exactly that of
    RunDiscoveryLoop over them, and until then that of the cycles before it, with the new one
    counted.  Nothing can block it but a walk: unless the loop has returned, at most five
    events end the cycle under way, and then the next tick is served by its own four. *)
Theorem scheduler_refines_loop (U : Unicode) (N : NetText) (lc : LoopConfig) (R0 : MapRange) (snap : option File) (es : list event) :
  let s0 := sched_init R0 snap in
  let s := sched_run lc s0 es in
  ((sd_walking s ≤ 1)%nat ∧ (sd_walking s = 1%nat → ∀ t, sd_phase s ≠ InRunCycle t)) ∧
  (Forall (λ e, calm e = true) es →
   (∃ ts, taken lc s0 es = ts ++ pending s ∧
      match pending s with
      | [] => sd_loop s = RunDiscoveryLoop lc R0 snap ts
      | _ => sd_loop s = counted (RunDiscoveryLoop lc R0 snap ts)
      end) ∧
   (sd_phase s ≠ Returned → ∀ t now errors, ∃ rest,
      Forall (λ e, calm e = true) rest ∧ (length rest ≤ 5)%nat ∧
      taken lc s0 (es ++ rest ++ whole_cycle t now errors) = taken lc s0 es ++ [t] ∧
      let s' := sched_run lc s0 (es ++ rest ++ whole_cycle t now errors) in
      sd_phase s' = AtSelect ∧ sd_loop s' = RunDiscoveryLoop lc R0 snap (taken lc s0 es ++ [t]))).
Proof.
  intros s0 s. pose proof (sched_run_inv lc _ es (sched_init_inv R0 snap)) as Hi. fold s0 s in Hi. split.
  { destruct Hi as [H1 H2 H3]. split; [done|]. intros Hw t Ht. specialize (H3 ltac:(lia)). rewrite (H1 t Ht) in H3. discriminate. }
  intros Hc. destruct (serves_run lc R0 snap [] [] _ es Hc (sched_init_inv R0 snap) (serves_init lc R0 snap)) as [ts Hs].
  fold s0 s in Hs. cbn [app] in Hs. split.
  - pose proof Hs as [H1 H2 _]. exists ts. split; [done|]. unfold under_way in H1. unfold pending. destruct (sd_phase s); try done; apply H1.
  - intros Hr t now errors. exists (rest_of s now errors). destruct (rest_calm s now errors) as [Hcalm Hlen].
    split; [done|]. split; [done|].
    destruct (rest_idle lc R0 snap _ ts s now errors Hi Hs Hr) as [Hidle Hno].
    destruct (serves_run lc R0 snap _ ts s _ Hcalm Hi Hs) as [ts1 [L1 L2 _]]. rewrite Hno, app_nil_r in L2.
    set (s1 := sched_run lc s (rest_of s now errors)) in *.
    assert (pending s1 = [] ∧ sd_loop s1 = RunDiscoveryLoop lc R0 snap ts1) as [Hp Hl]
      by (unfold pending; unfold under_way in L1; destruct Hidle as ([E|E] & _); rewrite E in L1 |- *; done).
    rewrite Hp, app_nil_r in L2. destruct (idle_cycle lc s1 t now errors Hidle) as (_ & Ht & Hl' & Hp').
    rewrite !sched_run_app, !taken_app. fold s s1. rewrite Hno, Ht, L2. split; [done|]. split; [exact Hp'|].
    rewrite Hl', Hl. unfold RunDiscoveryLoop. by rewrite fold_left_app.
Qed.

(** a panic inside RunCycle wedges the process.  The recovery leaves the mutex locked:
    no later cycle completes, no forced walk runs, the published state and the reported
    status stay what they were, and /healthz reports it only if the liveness gate is on
    and a cycle had completed before. *)
Theorem panicked_cycle_wedges (U : Unicode) (N : NetText) (lc : LoopConfig) (R0 : MapRange) (snap : option File)
    (before after : list event) (t : tick) :
  let s := sched_run lc (sched_init R0 snap) before in
  sd_phase s = InRunCycle t →
  let s' := sched_run lc s (CyclePanics :: after) in
  ls_cycle (sd_loop s') = ls_cycle (sd_loop s) ∧ ls_actions (sd_loop s') = ls_actions (sd_loop s) ∧
  sd_walking s' = O ∧ (∀ t', sd_phase s' ≠ InRunCycle t') ∧
  ∀ maxStale now, (NewHealthzHandler (sd_status s') maxStale now).1.1.1 = 503 ↔
    0 < maxStale ∧ ∃ st, sd_status s = Some st ∧ maxStale < time_Sub now (LastCycleAt st).
Proof.
  intros s Ht s'. pose proof (sched_run_inv lc _ before (sched_init_inv R0 snap)) as [H1 H2 H3]. fold s in H1, H2, H3.
  assert (wedged s s') as [W1 W2 _ W3 W4 W4' W5].
  { unfold s'. cbn [sched_run fold_left]. apply wedged_run. unfold sched_step. rewrite Ht. split; cbn; try done; [by eapply H1|by left|].
    destruct (sd_walking s) as [|w] eqn:Hw; [done|]. rewrite (H1 _ Ht) in H3. by specialize (H3 ltac:(lia)). }
  clearbody s'. rewrite W4, W4', W5. split_and!; try done.
  intros maxStale now. unfold NewHealthzHandler, IsStale. destruct (sd_status s) as [st|].
  - destruct (maxStale <=? 0) eqn:E1; bprop; [split; [done|lia]|]. destruct (maxStale <? _) eqn:E2; bprop; cbn.
    + split; [intros _; split; [lia|eauto]|done].
    + split; [done|]. intros (_ & ? & [= <-] & ?). lia.
  - cbn. split; [done|]. by intros (_ & ? & ? & _).
Qed.

(** a publish that panics looks healthy.  However many cycles in a row panic while they
    publish, the graph that is published and compared against stays the old one, yet the
    status says that the last of them has completed: /healthz answers 200 as long as
    they come on time. *)
Theorem panicking_publish_looks_healthy (U : Unicode) (N : NetText) (lc : LoopConfig) (s : sched) (ts : list (tick * time * Z * nat))
    (maxStale : duration) (now doneAt : time) (errors : Z) (t : tick) (k : nat) :
  idle s → Forall (λ x, tk_ctx_done x.1.1.1 = false) (ts ++ [(t, doneAt, errors, k)]) →
  time_Sub now doneAt ≤ maxStale →
  let s' := sched_run lc s ((ts ++ [(t, doneAt, errors, k)]) ≫= panicking) in
  ls_cycle (sd_loop s') = ls_cycle (sd_loop s) ∧ (NewHealthzHandler (sd_status s') maxStale now).1.1.1 = 200.
Proof.
  intros Hi Hf Hn. cbv zeta.
  destruct (publish_panics_run lc _ s Hi Hf) as [-> ->]. split; [done|]. rewrite last_snoc. cbn. unfold IsStale.
  destruct (maxStale <=? 0); [done|]. by rewrite (proj2 (Z.ltb_ge _ _)).
Qed.

(** ** Witnesses and examples *)

Definition first_tick : tick := mkTick range_std sample_outcomes false ∅ 5 false.

(** A forced walk holds the mutex, and keeps the first cycle waiting. *)
Definition waiting : list event := [AdminLocks; Tick first_tick].

Lemma scheduler_refines_loop_witness :
  let run := sched_run (U:=unicode_table) (N:=sample_net) sample_loop (sched_init range_std None) in
  sd_phase (run waiting) = AtLock first_tick ∧
  ∃ rest, Forall (λ e, calm e = true) rest ∧
    sd_loop (run (waiting ++ rest ++ whole_cycle first_tick 9 0)) =
      RunDiscoveryLoop (U:=unicode_table) (N:=sample_net) sample_loop range_std None [first_tick; first_tick].
Proof.
  cbv zeta. destruct (scheduler_refines_loop unicode_table sample_net sample_loop range_std None waiting) as [_ H].
  destruct (H ltac:(repeat constructor)) as [_ Hs]. destruct (Hs ltac:(discriminate) first_tick 9 0) as (rest & Hc & _ & _ & _ & Hl).
  split; [reflexivity|]. exists rest. split; [exact Hc|]. rewrite Hl. reflexivity.
Defined.

Lemma panicked_cycle_wedges_witness :
  let s' := sched_run (U:=unicode_table) (N:=sample_net) sample_loop (sched_init range_std None)
    ((whole_cycle first_tick 5 0 ++ [Tick first_tick]) ++ CyclePanics :: [Tick first_tick; LockAcquired; AdminLocks; RunCycleReturns]) in
  sd_walking s' = O ∧ sd_status s' = Some (mkCycleStatus 5 0).
Proof.
  cbv zeta. rewrite sched_run_app. split; [|reflexivity].
  destruct (panicked_cycle_wedges unicode_table sample_net sample_loop range_std None
    (whole_cycle first_tick 5 0 ++ [Tick first_tick]) [Tick first_tick; LockAcquired; AdminLocks; RunCycleReturns] first_tick eq_refl)
    as (_ & _ & H & _). exact H.
Defined.

Lemma panicking_publish_looks_healthy_witness :
  (NewHealthzHandler (sd_status (sched_run (U:=unicode_table) (N:=sample_net) sample_loop (sched_init range_std None)
     (panicking (first_tick, 60, 0, 0%nat)))) 180 100).1.1.1 = 200.
Proof.
  exact (proj2 (panicking_publish_looks_healthy unicode_table sample_net sample_loop (sched_init range_std None) [] 180 100 60 0
    first_tick 0 ltac:(split_and!; [by left|reflexivity..]) ltac:(repeat constructor) ltac:(vm_compute; discriminate))).
Defined.

(** A cycle whose publication panics after the events are out is repeated by the next one:
    its changes are emitted again. *)
Example events_repeat_after_panic :
  let s := sched_run (U:=unicode_table) (N:=sample_net) sample_loop (sched_init range_std None)
    (panicking (first_tick, 5, 0, 1%nat) ++ whole_cycle first_tick 9 0) in
  Kind <$> emitted_changes (ls_actions (sd_loop s)) = [ChangeAdded; ChangeAdded].
Proof. vm_compute. reflexivity. Qed.
