(* ===== verification/Telemetry.v ===== *)
(** * OpenTelemetry wiring

    internal/otelx/otelx.go (protocols, the endpoint as the HTTP and the gRPC exporters
    want it, the resource), internal/tracing/tracing.go (New, newTraceExporter, Shutdown)
    and the exporter of internal/output/otlp/otlp.go (New, assemble, newMetricExporter,
    newLogExporter, PushGraph, Shutdown).  The SDK is a class: its constructors and flushes
    give an error or succeed, and what the code hands to them is recorded. *)

From Stdlib Require Import ZArith Lia SpecFloat.
From S2P Require Import Prelude GoText Discovery Pdu NetAddr Credentials GraphDiff DeviceWalk Config Otlp.
Open Scope Z_scope.

(** ** The shared settings (otelx.go) *)

Definition ServiceName : string := "network-topology-exporter".
Definition ScopeName : string := "github.com/grafana/network-topology-exporter".
Definition ProtocolHTTP : string := "http".
Definition ProtocolGRPC : string := "grpc".

Definition Protocol_Valid (p : string) : bool := bool_decide (p = ProtocolHTTP) || bool_decide (p = ProtocolGRPC).

Inductive signal := Metrics | Logs | Traces.
Inductive transport := OverGRPC | OverHTTP.
Inductive exporter_option :=
| WithTimeout (d : duration)
| WithEndpoint (host : string)
| WithEndpointURL (url : string)
| WithInsecure.

#[export] Instance transport_eq : EqDecision transport.
Proof. solve_decision. Defined.
#[export] Instance exporter_option_eq : EqDecision exporter_option.
Proof. solve_decision. Defined.

(** The OpenTelemetry SDK: what its constructors answer and the host name of the machine. *)
Class OTelSDK := {
  os_Hostname : option string;
  version_Version : string;
  resource_New : list (string * string) → string + unit;
  exporter_New : signal → transport → list exporter_option → string + unit
}.

(** The settings of otlp.Config and tracing.Config that both have. *)
Record TelemetryConfig := mkTelemetry {
  x_Endpoint : string;
  x_Timeout : duration;
  x_Protocol : string;
  x_InstanceID : string
}.

Section Telemetry.
Context `{E : ConfigEnv} `{S : OTelSDK}.

Definition resource_attributes (instanceID : string) : list (string * string) :=
  let id := if bool_decide (instanceID = "") then default "" os_Hostname else instanceID in
  [("service.name", ServiceName); ("service.version", version_Version); ("service.instance.id", id)].

Definition NewResource (instanceID : string) : string + list (string * string) :=
  let attrs := resource_attributes instanceID in
  do _ <- resource_New attrs;
  inr attrs.

Definition EndpointURL (endpoint : string) : string * bool * bool :=
  if bool_decide (endpoint = "") then ("", false, false)
  else match url_Parse endpoint with
       | None => (endpoint, false, true)
       | Some (scheme, _) => (endpoint, bool_decide (scheme = "http"), true)
       end.

Definition EndpointHostInsecure (endpoint : string) : string * bool :=
  if bool_decide (endpoint = "") then ("", false)
  else match url_Parse endpoint with
       | None => (endpoint, true)
       | Some (scheme, host) =>
           if bool_decide (host = "") then (endpoint, true) else (host, bool_decide (scheme = "http"))
       end.

(** ** The three exporters *)

Definition grpc_options (cfg : TelemetryConfig) : list exporter_option :=
  let '(host, insecure) := EndpointHostInsecure (x_Endpoint cfg) in
  WithTimeout (x_Timeout cfg) ::
  (if bool_decide (host ≠ "") then [WithEndpoint host] else []) ++ (if insecure then [WithInsecure] else []).

Definition http_options (cfg : TelemetryConfig) : list exporter_option :=
  let '(u, insecure, ok) := EndpointURL (x_Endpoint cfg) in
  WithTimeout (x_Timeout cfg) ::
  (if ok : bool then WithEndpointURL u :: (if insecure : bool then [WithInsecure] else []) else []).

Definition wire (cfg : TelemetryConfig) : transport * list exporter_option :=
  if bool_decide (x_Protocol cfg = ProtocolGRPC) then (OverGRPC, grpc_options cfg) else (OverHTTP, http_options cfg).

Definition new_exporter (sig : signal) (cfg : TelemetryConfig) : string + (transport * list exporter_option) :=
  let '(t, opts) := wire cfg in
  do _ <- exporter_New sig t opts;
  inr (t, opts).

Definition newMetricExporter : TelemetryConfig → string + (transport * list exporter_option) := new_exporter Metrics.
Definition newLogExporter : TelemetryConfig → string + (transport * list exporter_option) := new_exporter Logs.
Definition newTraceExporter : TelemetryConfig → string + (transport * list exporter_option) := new_exporter Traces.

Definition telemetry_defaults (cfg : TelemetryConfig) : TelemetryConfig :=
  mkTelemetry (x_Endpoint cfg) (if x_Timeout cfg =? 0 then 10 * Second else x_Timeout cfg)
    (if bool_decide (x_Protocol cfg = "") then ProtocolHTTP else x_Protocol cfg) (x_InstanceID cfg).

(** *** Tracing *)

Record Provider := mkProvider {
  tp_resource : list (string * string);
  tp_exporter : transport * list exporter_option;
  tp_ratio : spec_float
}.

Definition tracing_New (cfg0 : TelemetryConfig) (sampleRate : spec_float) : string + Provider :=
  let cfg := telemetry_defaults cfg0 in
  guard negb (Protocol_Valid (x_Protocol cfg)) else "tracing: unsupported protocol";
  guard SFltb sampleRate float_0 || SFltb float_1 sampleRate else "tracing: sample_rate out of range";
  do res <- NewResource (x_InstanceID cfg);
  do exp <- newTraceExporter cfg;
  inr (mkProvider res exp sampleRate).

(** A nil provider has nothing to flush. *)
Definition Provider_Shutdown (flush : string + unit) (p : option Provider) : string + unit :=
  match p with None => inr tt | Some _ => flush end.

(** *** Metrics and logs *)

Record Exporter := mkExporter {
  e_resource : list (string * string);
  e_metrics : transport * list exporter_option;
  e_logs : transport * list exporter_option;
  e_latest : option Graph
}.

(** The gauges are registered with the SDK; creating them gives an error or not. *)
Definition assemble (gauge : string → string + unit) (res : list (string * string))
    (m l : transport * list exporter_option) : string + Exporter :=
  do _ <- gauge "network_topology_edge_info";
  do _ <- gauge "network_topology_device_info";
  inr (mkExporter res m l None).

Definition otlp_New (gauge : string → string + unit) (cfg0 : TelemetryConfig) : string + Exporter :=
  let cfg := telemetry_defaults cfg0 in
  guard negb (Protocol_Valid (x_Protocol cfg)) else "otlp: unsupported protocol";
  do res <- NewResource (x_InstanceID cfg);
  do metricExp <- newMetricExporter cfg;
  do logExp <- newLogExporter cfg;
  assemble gauge res metricExp logExp.

Definition Exporter_Shutdown (meter logger : string + unit) : list string :=
  (match meter with inl e => [e] | inr _ => [] end) ++ (match logger with inl e => [e] | inr _ => [] end).

(** *** Pushing a graph

    A push stores the graph and then asks the SDK to collect and export.  Several pushes may
    run at once, and the periodic reader collects on its own.  A collection calls the two
    gauge callbacks in the order they were registered; each of them loads the graph stored
    last, so that other pushes may store between the two. *)

Inductive series := EdgeSeries (attrs : list (string * string)) | DeviceSeries (attrs : list (string * string)).

Definition observe_edges `{MapRange} (latest : option Graph) : list series :=
  match latest with None => [] | Some g => (EdgeSeries ∘ edgeAttrs) <$> Edges g end.
Definition observe_devices (latest : option Graph) : list series :=
  match latest with None => [] | Some g => (DeviceSeries ∘ deviceAttrs) <$> Devices g end.
Definition collect `{MapRange} (latest : option Graph) : list series := observe_edges latest ++ observe_devices latest.

(** Where a collection is: before the edge callback, or between it and the device callback. *)
Inductive collection := AtEdges | AtDevices (edges : list series).

(** A push before its store and in its flush; a collection of the periodic reader. *)
Inductive push_state :=
| Storing (g : Graph)
| Flushing (c : collection)
| Returned (result : string + unit)
| Reading (c : collection)
| Read.

Record pushes := mkPushes {
  ps_exporter : Exporter;
  ps_calls : list push_state;
  ps_exports : list (list series)
}.

(** [Advance i r] is the next step of the call [i]; [r] is what the receiver says to its
    export, if it comes to that. *)
Inductive push_event :=
| Call (g : Graph)
| Periodic
| Advance (i : nat) (export : string + unit).

Definition store_latest (e : Exporter) (g : Graph) : Exporter := mkExporter (e_resource e) (e_metrics e) (e_logs e) (Some g).

Definition push_result (r : string + unit) : string + unit :=
  match r with inl e => inl ("otlp: flush metrics: " +:+ e) | inr _ => inr tt end.

(** A step of a collection: the next callback, or what is exported. *)
Definition callback `{MapRange} (latest : option Graph) (c : collection) : collection + list series :=
  match c with
  | AtEdges => inl (AtDevices (observe_edges latest))
  | AtDevices edges => inr (edges ++ observe_devices latest)
  end.

Definition push_step `{MapRange} (s : pushes) (ev : push_event) : pushes :=
  let goto i c := mkPushes (ps_exporter s) (<[i := c]> (ps_calls s)) (ps_exports s) in
  let export i c x := mkPushes (ps_exporter s) (<[i := c]> (ps_calls s)) (ps_exports s ++ [x]) in
  match ev with
  | Call g => mkPushes (ps_exporter s) (ps_calls s ++ [Storing g]) (ps_exports s)
  | Periodic => mkPushes (ps_exporter s) (ps_calls s ++ [Reading AtEdges]) (ps_exports s)
  | Advance i r =>
      match ps_calls s !! i with
      | Some (Storing g) => mkPushes (store_latest (ps_exporter s) g) (<[i := Flushing AtEdges]> (ps_calls s)) (ps_exports s)
      | Some (Flushing c) =>
          match callback (e_latest (ps_exporter s)) c with
          | inl c' => goto i (Flushing c')
          | inr x => export i (Returned (push_result r)) x
          end
      | Some (Reading c) =>
          match callback (e_latest (ps_exporter s)) c with
          | inl c' => goto i (Reading c')
          | inr x => export i Read x
          end
      | _ => s
      end
  end.

Definition push_run `{MapRange} (s : pushes) (evs : list push_event) : pushes := fold_left push_step evs s.
End Telemetry.

(** The settings app.go takes from an accepted configuration. *)
Definition output_telemetry (c : Config) : TelemetryConfig :=
  mkTelemetry (o_Endpoint (c_Output c)) (o_Timeout (c_Output c)) (o_Protocol (c_Output c)) (s_SpokeID (f_Spoke (c_Federation c))).

Definition sample_rate (c : Config) : spec_float := default float_0_1 (o_SampleRate (c_Output c)).

(** ** Lemmas *)

Definition fails {A} (x : string + A) : Prop := ∃ e, x = inl e.

Section Telemetry_lemmas.
Context `{E : ConfigEnv} `{S : OTelSDK}.

Lemma defaults_valid cfg :
  x_Protocol cfg ∈ [""; OTLPProtocolHTTP; OTLPProtocolGRPC] → Protocol_Valid (x_Protocol (telemetry_defaults cfg)) = true.
Proof.
  intros Hp. repeat (apply elem_of_cons in Hp as [Hp|Hp]; [cbn; rewrite Hp; reflexivity|]). by apply elem_of_nil in Hp.
Qed.

Lemma http_insecure cfg :
  WithInsecure ∈ http_options cfg ↔
  x_Endpoint cfg ≠ "" ∧ ∃ host, url_Parse (x_Endpoint cfg) = Some ("http", host).
Proof.
  unfold http_options, EndpointURL. case_bool_decide as He; cbn [fst snd].
  { rewrite list_elem_of_singleton. naive_solver. }
  destruct (url_Parse (x_Endpoint cfg)) as [[scheme host]|]; [case_bool_decide|]; set_solver.
Qed.

Lemma grpc_insecure cfg :
  WithInsecure ∈ grpc_options cfg ↔
  x_Endpoint cfg ≠ "" ∧ ∀ scheme host, url_Parse (x_Endpoint cfg) = Some (scheme, host) → host ≠ "" → scheme = "http".
Proof.
  unfold grpc_options, EndpointHostInsecure. case_bool_decide as He.
  { rewrite bool_decide_eq_false_2 by naive_solver. set_solver. }
  destruct (url_Parse (x_Endpoint cfg)) as [[scheme host]|]; repeat case_bool_decide; set_solver.
Qed.

Lemma wire_timeout cfg : 0 ≤ x_Timeout cfg → ∃ d, WithTimeout d ∈ (wire (telemetry_defaults cfg)).2 ∧ 0 < d.
Proof.
  intros H. exists (x_Timeout (telemetry_defaults cfg)). split.
  - unfold wire. case_bool_decide; cbn [snd]; unfold grpc_options, http_options.
    + destruct (EndpointHostInsecure _). left.
    + destruct (EndpointURL _) as [[] ?]. left.
  - cbn. unfold Second. destruct (Z.eqb_spec (x_Timeout cfg) 0); lia.
Qed.
End Telemetry_lemmas.

(** ** Claims *)

(** an accepted configuration never fails the checks of the two telemetry
    constructors: they fail exactly when the SDK does.  When both succeed, metrics, logs and
    traces describe the same process and use the same transport, endpoint, security and a
    positive timeout.  With the push enabled, telemetry is sent in plain text exactly to
    an http endpoint, or over gRPC to one that names no scheme and host. *)
Theorem telemetry_agrees `{ConfigEnv} `{NetText} `{MapRange} `{OTelSDK} (gauge : string → string + unit)
    (c0 c : Config) (ov : option (list targetOverride)) :
  Load c0 = inr (c, ov) →
  let cfg := telemetry_defaults (output_telemetry c) in
  let '(t, opts) := wire cfg in
  (fails (otlp_New gauge (output_telemetry c)) ↔
     fails (resource_New (resource_attributes (s_SpokeID (f_Spoke (c_Federation c))))) ∨
     fails (exporter_New Metrics t opts) ∨ fails (exporter_New Logs t opts) ∨
     fails (gauge "network_topology_edge_info") ∨ fails (gauge "network_topology_device_info")) ∧
  (fails (tracing_New (output_telemetry c) (sample_rate c)) ↔
     fails (resource_New (resource_attributes (s_SpokeID (f_Spoke (c_Federation c))))) ∨ fails (exporter_New Traces t opts)) ∧
  (∀ e p, otlp_New gauge (output_telemetry c) = inr e → tracing_New (output_telemetry c) (sample_rate c) = inr p →
     e_resource e = tp_resource p ∧ e_metrics e = (t, opts) ∧ e_logs e = (t, opts) ∧ tp_exporter p = (t, opts)) ∧
  (∃ d, WithTimeout d ∈ opts ∧ 0 < d) ∧
  (o_Enabled (c_Output c) = true →
     (WithInsecure ∈ opts ↔
      if bool_decide (t = OverGRPC)
      then ∀ scheme host, url_Parse (o_Endpoint (c_Output c)) = Some (scheme, host) → host ≠ "" → scheme = "http"
      else ∃ host, url_Parse (o_Endpoint (c_Output c)) = Some ("http", host))).
Proof.
  intros [_ _ _ _ _ _ _ _ [Ht _ Hp Hr He]]%loaded_ok cfg.
  assert (Protocol_Valid (x_Protocol (telemetry_defaults (output_telemetry c))) = true) as Hv by by apply defaults_valid.
  assert (SFltb (sample_rate c) float_0 || SFltb float_1 (sample_rate c) = false) as Hs.
  { unfold sample_rate. destruct (o_SampleRate (c_Output c)) as [r|]; [|done]. cbn [from_option]. unfold id. destruct (Hr r eq_refl) as [-> ->]. done. }
  pose proof (wire_timeout (output_telemetry c) Ht) as Hto.
  destruct (wire cfg) as [t opts] eqn:Hw. subst cfg. rewrite Hw in Hto.
  unfold otlp_New, tracing_New, assemble. rewrite Hv, Hs. cbn [negb].
  unfold newMetricExporter, newLogExporter, newTraceExporter, new_exporter, NewResource. rewrite Hw.
  cbn [output_telemetry telemetry_defaults x_InstanceID]. unfold fails. split_and!.
  - destruct (resource_New _), (exporter_New Metrics t opts), (exporter_New Logs t opts),
      (gauge "network_topology_edge_info"), (gauge "network_topology_device_info"); naive_solver.
  - destruct (resource_New _), (exporter_New Traces t opts); naive_solver.
  - intros e p. destruct (resource_New _), (exporter_New Metrics t opts), (exporter_New Logs t opts),
      (gauge "network_topology_edge_info"), (gauge "network_topology_device_info"), (exporter_New Traces t opts);
      naive_solver.
  - done.
  - intros [Hne _]%He. unfold wire in Hw. case_bool_decide as Hg; injection Hw as <- <-.
    + rewrite bool_decide_eq_true_2 by done. rewrite grpc_insecure. cbn. naive_solver.
    + rewrite bool_decide_eq_false_2 by done. rewrite http_insecure. cbn. naive_solver.
Qed.

(** A system where every file exists and a URL is the one of the receiver or none. *)
Definition grpc_env : ConfigEnv :=
  Build_ConfigEnv (λ r, r) (λ u, if bool_decide (u = "https://alloy:4317") then Some ("https", "alloy:4317") else None) (λ _, true) (λ _, "").
Definition sample_sdk : OTelSDK :=
  Build_OTelSDK None "dev" (λ _, inr tt) (λ sig _ _, match sig with Logs => inl "refused" | _ => inr tt end).

Definition with_output (o : OutputConfig) (c : Config) : Config :=
  mkConfig (c_Listen c) (c_Discovery c) (c_Modules c) (c_Credentials c) (c_SnapshotPath c) (c_Federation c) o (c_Targets c).

Lemma telemetry_agrees_witness :
  let c := with_output (mkOutput true "https://alloy:4317" 0 0 "grpc" true None false "") zero_config in
  ∃ c' r, Load (E := grpc_env) (N := go_net) (R := range_std) c = inr (c', r) ∧
    let S := sample_sdk in let E := grpc_env in
    fails (otlp_New (λ _, inr tt) (output_telemetry c')) ∧ ~ fails (tracing_New (output_telemetry c') (sample_rate c')) ∧
    WithInsecure ∉ (wire (telemetry_defaults (output_telemetry c'))).2.
Proof.
  intros c. destruct (Load (E := grpc_env) (N := go_net) (R := range_std) c) as [e|[c' r]] eqn:Hl.
  - exfalso. revert Hl. vm_compute. discriminate.
  - exists c', r. split; [reflexivity|]. intros S E.
    pose proof (telemetry_agrees (H := grpc_env) (H0 := go_net) (H1 := range_std) (H2 := sample_sdk) (λ _, inr tt) c c' r Hl) as T.
    vm_compute in Hl. injection Hl as <- <-. cbv zeta in T.
    destruct (wire _) as [t opts] eqn:Hw in T. vm_compute in Hw. injection Hw as <- <-.
    destruct T as (T1 & T2 & _ & _ & T3). split_and!.
    + apply T1. right. right. left. exists "refused". reflexivity.
    + intros Hf. apply T2 in Hf. vm_compute in Hf. naive_solver.
    + intros Hi. apply T3 in Hi; [|reflexivity]. cbn in Hi. assert ("https" = "http") by (by apply (Hi "https" "alloy:4317")). discriminate.
Defined.

(** *** What is exported *)

Section Pushes.
Context `{MR : MapRange}.

Lemma elem_of_insert_inv {A} (l : list A) i x y : x ∈ <[i := y]> l → x = y ∨ x ∈ l.
Proof.
  intros [j Hj]%list_elem_of_lookup. apply list_lookup_insert_Some in Hj as [(_ & -> & _)|[_ Hj]]; [by left|].
  right. by eapply list_elem_of_lookup_2.
Qed.

Definition called (evs : list push_event) : list Graph :=
  omap (λ ev, match ev with Call g => Some g | _ => None end) evs.

Definition pushed_or_none (gs : list Graph) (o : option Graph) : Prop := ∀ g, o = Some g → g ∈ gs.

(** Everything in flight, stored or exported was handed to a push. *)
Record pushes_ok (gs : list Graph) (s : pushes) : Prop := {
  pk_storing : ∀ g, Storing g ∈ ps_calls s → g ∈ gs;
  pk_edges : ∀ x, Flushing (AtDevices x) ∈ ps_calls s ∨ Reading (AtDevices x) ∈ ps_calls s →
    ∃ o, pushed_or_none gs o ∧ x = observe_edges o;
  pk_latest : pushed_or_none gs (e_latest (ps_exporter s));
  pk_exports : ∀ x, x ∈ ps_exports s →
    ∃ o1 o2, pushed_or_none gs o1 ∧ pushed_or_none gs o2 ∧ x = observe_edges o1 ++ observe_devices o2
}.

Lemma pushed_more gs gs' o : pushed_or_none gs o → pushed_or_none (gs ++ gs') o.
Proof. intros H g Hg. apply elem_of_app. auto. Qed.

Lemma pushes_ok_more gs gs' s : pushes_ok gs s → pushes_ok (gs ++ gs') s.
Proof.
  intros [H1 H2 H3 H4]. split.
  - intros g Hg. apply elem_of_app. auto.
  - intros x Hx. destruct (H2 x Hx) as (o & Ho & ->). exists o. eauto using pushed_more.
  - by apply pushed_more.
  - intros x Hx. destruct (H4 x Hx) as (o1 & o2 & Ho1 & Ho2 & ->). exists o1, o2. eauto using pushed_more.
Qed.

(** A call is replaced by one that holds nothing new, and possibly exports. *)
Lemma pushes_ok_advance gs s i c xs :
  pushes_ok gs s → (∀ g, c ≠ Storing g) →
  (∀ x, c = Flushing (AtDevices x) ∨ c = Reading (AtDevices x) → ∃ o, pushed_or_none gs o ∧ x = observe_edges o) →
  (∀ x, x ∈ xs → ∃ o1 o2, pushed_or_none gs o1 ∧ pushed_or_none gs o2 ∧ x = observe_edges o1 ++ observe_devices o2) →
  pushes_ok gs (mkPushes (ps_exporter s) (<[i := c]> (ps_calls s)) (ps_exports s ++ xs)).
Proof.
  intros [H1 H2 H3 H4] Hc Hx He. split; cbn [ps_calls ps_exporter ps_exports]; [..|done|].
  - intros g [Hg|Hg]%elem_of_insert_inv; [by destruct (Hc g)|auto].
  - intros x [[Hg|Hg]%elem_of_insert_inv|[Hg|Hg]%elem_of_insert_inv]; auto.
  - intros x [Hin|Hin]%elem_of_app; auto.
Qed.

Lemma pushes_ok_callback gs s i c wrap done :
  pushes_ok gs s → ps_calls s !! i = Some (wrap c) →
  (∀ c g, wrap c ≠ Storing g) → (∀ g, done ≠ Storing g) → (∀ x, done ≠ Flushing x ∧ done ≠ Reading x) →
  (∀ x, wrap (AtDevices x) = Flushing (AtDevices x) ∨ wrap (AtDevices x) = Reading (AtDevices x)) →
  (∀ x y, wrap (AtDevices x) = Flushing (AtDevices y) ∨ wrap (AtDevices x) = Reading (AtDevices y) → x = y) →
  pushes_ok gs
    (match callback (e_latest (ps_exporter s)) c with
     | inl c' => mkPushes (ps_exporter s) (<[i := wrap c']> (ps_calls s)) (ps_exports s)
     | inr x => mkPushes (ps_exporter s) (<[i := done]> (ps_calls s)) (ps_exports s ++ [x])
     end).
Proof.
  intros Hok Hi Hw Hd Hd' Hshape Hinj. pose proof Hok as [H1 H2 H3 H4]. destruct c as [|edges]; cbn [callback].
  - rewrite <- (app_nil_r (ps_exports s)). apply pushes_ok_advance; [done|by apply Hw| |by intros ? ?%elem_of_nil].
    intros x <-%Hinj. by exists (e_latest (ps_exporter s)).
  - apply pushes_ok_advance; [done|done| |].
    + intros x [Hx|Hx]; destruct (Hd' (AtDevices x)) as [N1 N2]; [by destruct N1|by destruct N2].
    + intros x ->%list_elem_of_singleton. apply list_elem_of_lookup_2 in Hi.
      destruct (H2 edges) as (o & Ho & ->); [destruct (Hshape edges) as [<-|<-]; auto|]. by exists o, (e_latest (ps_exporter s)).
Qed.

Lemma push_step_ok gs s ev : pushes_ok gs s → pushes_ok (gs ++ called [ev]) (push_step s ev).
Proof.
  intros Hok. apply (pushes_ok_more _ (called [ev])) in Hok. pose proof Hok as [H1 H2 H3 H4]. destruct ev as [g| |i r]; cbn [push_step].
  - split; cbn; [| |done|done].
    + intros g' [Hin|[= ->]%list_elem_of_singleton]%elem_of_app; [auto|]. set_solver.
    + intros x [[Hin|?%list_elem_of_singleton]%elem_of_app|[Hin|?%list_elem_of_singleton]%elem_of_app]; auto; done.
  - split; cbn; [| |done|done].
    + intros g' [Hin|?%list_elem_of_singleton]%elem_of_app; [auto|done].
    + intros x [[Hin|?%list_elem_of_singleton]%elem_of_app|[Hin|?%list_elem_of_singleton]%elem_of_app]; auto; done.
  - destruct (ps_calls s !! i) as [[g|c|r'|c|]|] eqn:Hi; try done.
    + assert (g ∈ gs ++ called [Advance i r]) as Hg by (by apply H1; eapply list_elem_of_lookup_2).
      destruct (pushes_ok_advance _ s i (Flushing AtEdges) [] Hok) as [K1 K2 K3 K4]; [done|naive_solver|by intros ? ?%elem_of_nil|].
      cbn [ps_exports] in K4. rewrite app_nil_r in K4. split; [done|done| |done]. cbn. by intros ? [= <-].
    + apply (pushes_ok_callback _ s i c Flushing); naive_solver.
    + apply (pushes_ok_callback _ s i c Reading); naive_solver.
Qed.

Lemma push_run_ok gs s evs : pushes_ok gs s → pushes_ok (gs ++ called evs) (push_run s evs).
Proof.
  revert gs s. induction evs as [|ev evs IH]; intros gs s Hok; [by rewrite app_nil_r|].
  apply (push_step_ok _ _ ev), IH in Hok. rewrite <- app_assoc in Hok. unfold called in *. rewrite <- omap_app in Hok. exact Hok.
Qed.

Lemma push_run_app s l1 l2 : push_run s (l1 ++ l2) = push_run (push_run s l1) l2.
Proof. apply fold_left_app. Qed.

(** A whole push and a whole collection of the reader, as the calls from number [i] on. *)
Definition whole_push (i : nat) (g : Graph) (r : string + unit) : list push_event := [Call g; Advance i r; Advance i r; Advance i r].
Fixpoint whole_reads (i n : nat) : list push_event :=
  match n with O => [] | S n => [Periodic; Advance i (inr tt); Advance i (inr tt)] ++ whole_reads (S i) n end.

Lemma push_alone s g r :
  push_run s (whole_push (length (ps_calls s)) g r) =
  mkPushes (store_latest (ps_exporter s) g) (ps_calls s ++ [Returned (push_result r)]) (ps_exports s ++ [collect (Some g)]).
Proof.
  unfold push_run, whole_push. cbn [fold_left push_step ps_calls]. rewrite list_lookup_middle by done. cbn.
  rewrite list_lookup_insert_eq by (rewrite length_app; cbn; lia). cbn.
  rewrite list_lookup_insert_eq by (rewrite length_insert, length_app; cbn; lia). cbn.
  by rewrite !list_insert_insert_eq, insert_app_r_alt, Nat.sub_diag by lia.
Qed.

Lemma reads_alone s n :
  push_run s (whole_reads (length (ps_calls s)) n) =
  mkPushes (ps_exporter s) (ps_calls s ++ replicate n Read) (ps_exports s ++ replicate n (collect (e_latest (ps_exporter s)))).
Proof.
  revert s. induction n as [|n IH]; intros s; cbn [whole_reads]; [cbn; rewrite !app_nil_r; by destruct s|].
  rewrite push_run_app. assert (push_run s [Periodic; Advance (length (ps_calls s)) (inr tt); Advance (length (ps_calls s)) (inr tt)] =
    mkPushes (ps_exporter s) (ps_calls s ++ [Read]) (ps_exports s ++ [collect (e_latest (ps_exporter s))])) as ->.
  { unfold push_run. cbn [fold_left push_step ps_calls]. rewrite list_lookup_middle by done. cbn.
    rewrite list_lookup_insert_eq by (rewrite length_app; cbn; lia). cbn.
    by rewrite !list_insert_insert_eq, insert_app_r_alt, Nat.sub_diag by lia. }
  specialize (IH (mkPushes (ps_exporter s) (ps_calls s ++ [Read]) (ps_exports s ++ [collect (e_latest (ps_exporter s))]))).
  cbn [ps_calls ps_exporter ps_exports] in IH. rewrite length_app, Nat.add_1_r in IH. rewrite IH.
  cbn [replicate]. by rewrite <- !app_assoc.
Qed.
End Pushes.

Definition fresh_pushes (e : Exporter) : pushes := mkPushes e [] [].

(** C35: what the OTLP receiver gets, in every interleaving of the steps of pushes and periodic
    collections of a new exporter, down to the two gauge callbacks of a collection: the
    edges of an export are exactly those of one graph that was pushed, one series per edge
    and no other, and so are its devices, but the two graphs may differ (none, before the
    first store).  A push that runs on its own exports exactly its graph, as does every
    later collection until another push stores one, whether or not the receiver took the
    export; so a removed link does not linger. *)
Theorem otlp_exports_graphs `{MapRange} (gauge : string → string + unit) (res : list (string * string))
    (m l : transport * list exporter_option) (e : Exporter) (evs : list push_event) :
  assemble gauge res m l = inr e →
  let s := push_run (fresh_pushes e) evs in
  (∀ x, x ∈ ps_exports s → ∃ edges devices, x = edges ++ devices ∧
     (edges = [] ∨ ∃ g, g ∈ called evs ∧ edges = (EdgeSeries ∘ edgeAttrs) <$> Edges g) ∧
     (devices = [] ∨ ∃ g, g ∈ called evs ∧ devices = (DeviceSeries ∘ deviceAttrs) <$> Devices g)) ∧
  (∀ g r n, let i := length (ps_calls s) in
     let s' := push_run s (whole_push i g r ++ whole_reads (S i) n) in
     ps_exports s' = ps_exports s ++
       replicate (1 + n) (((EdgeSeries ∘ edgeAttrs) <$> Edges g) ++ ((DeviceSeries ∘ deviceAttrs) <$> Devices g)) ∧
     ∃ v, ps_calls s' !! i = Some (Returned v) ∧ (v = inr tt ↔ r = inr tt)).
Proof.
  intros He s. split.
  - intros x Hx. assert (pushes_ok (called evs) s) as [_ _ _ Hs].
    { apply (push_run_ok []). unfold assemble in He. rewrite !bind_inr in He. destruct He as (_ & _ & He).
      rewrite bind_inr in He. destruct He as (_ & _ & [= <-]).
      split; cbn; [by intros ? ?%elem_of_nil|by intros ? [?%elem_of_nil|?%elem_of_nil]|done|by intros ? ?%elem_of_nil]. }
    destruct (Hs x Hx) as (o1 & o2 & H1 & H2 & ->). exists (observe_edges o1), (observe_devices o2). split; [done|].
    split; [destruct o1 as [g|]|destruct o2 as [g|]]; try (by left); right; exists g; auto.
  - intros g r n i s'. subst s' i. rewrite push_run_app, push_alone.
    pose proof (reads_alone (mkPushes (store_latest (ps_exporter s) g) (ps_calls s ++ [Returned (push_result r)])
      (ps_exports s ++ [collect (Some g)])) n) as Hr.
    cbn [ps_calls ps_exporter ps_exports] in Hr. rewrite length_app, Nat.add_1_r in Hr. rewrite Hr. cbn [ps_exports ps_calls e_latest store_latest].
    split; [by rewrite <- app_assoc|].
    eexists. split; [rewrite <- app_assoc; by apply list_lookup_middle|]. clear Hr. unfold push_result. destruct r as [err|[]]; split; congruence.
Qed.

Definition core_device : Device := mkDevice "core1" "cisco" "" "" "" 0 ∅.
Definition one_device_graph : Graph := mkGraph [core_device] [] [].

Lemma otlp_exports_graphs_witness :
  let M := range_std in
  ∃ e, assemble (λ _, inr tt) [] (OverHTTP, []) (OverHTTP, []) = inr e ∧
    ps_exports (push_run (push_run (fresh_pushes e) (whole_reads 0 1)) (whole_push 1 one_device_graph (inl "refused") ++ whole_reads 2 1)) =
    [[]; [DeviceSeries (deviceAttrs core_device)]; [DeviceSeries (deviceAttrs core_device)]].
Proof.
  intros M. eexists. split; [reflexivity|].
  destruct (otlp_exports_graphs (λ _, inr tt) [] (OverHTTP, []) (OverHTTP, []) _ (whole_reads 0 1) eq_refl) as [_ Hg].
  exact (proj1 (Hg one_device_graph (inl "refused") 1%nat)).
Defined.

(** A push that stores between the two callbacks of another one's collection: the export has
    the edges of the one graph and the devices of the other, and a link to a device it does
    not list. *)
Example torn_export :
  let M := range_std in
  let e := mkExporter [] (OverHTTP, []) (OverHTTP, []) None in
  let link := mkEdge "core1" "Gi0/1" "access1" "Gi0/24" DiscoveryProtocolLLDP DirectionBidirectional ConfidenceHigh
                AdjacencyDirect 2 LinkKindEthernet 1 ∅ in
  let before := mkGraph [core_device] [link] [] in
  ps_exports (push_run (fresh_pushes e)
    [Call before; Advance 0 (inr tt); Advance 0 (inr tt); Call (mkGraph [] [] []); Advance 1 (inr tt); Advance 0 (inr tt)]) =
  [[EdgeSeries (edgeAttrs link)]].
Proof. vm_compute. reflexivity. Qed.

(** the stores are not ordered: of two overlapping pushes the one that stores last is
    what every collection reports from then on, even when it carries the older graph. *)
Lemma late_store_stays `{MapRange} (e : Exporter) (old new : Graph) (n : nat) :
  ps_exports (push_run (fresh_pushes e)
    ([Call old; Call new; Advance 1 (inr tt); Advance 1 (inr tt); Advance 1 (inr tt);
      Advance 0 (inr tt); Advance 0 (inr tt); Advance 0 (inr tt)] ++ whole_reads 2 n)) =
  collect (Some new) :: replicate (1 + n) (collect (Some old)).
Proof.
  rewrite push_run_app. exact (f_equal ps_exports (reads_alone (mkPushes (store_latest (store_latest e new) old)
    [Returned (push_result (inr tt)); Returned (push_result (inr tt))] [collect (Some new); collect (Some old)]) n)).
Qed.

(** with the push disabled nothing checks the endpoint that tracing then uses, and a
    sample rate that is not a number passes both range checks. *)
Example unchecked_traces :
  let c := with_output (mkOutput false "alloy 4317" 0 0 "" true (Some S754_nan) false "") zero_config in
  match Load (E := bare_env) (N := go_net) (R := range_std) c with
  | inl _ => False
  | inr (c', _) => ∃ p, tracing_New (E := bare_env) (S := sample_sdk) (output_telemetry c') (sample_rate c') = inr p ∧
      tp_exporter p = (OverHTTP, [WithTimeout (10 * Second); WithEndpointURL "alloy 4317"]) ∧ tp_ratio p = S754_nan
  end.
Proof. vm_compute. eexists. split_and!; reflexivity. Qed.
