(* ===== verification/Lifecycle.v ===== *)
(** * The life of the process

    internal/app/app.go (Run, registerYANG, NewLogger), internal/app/debug.go,
    internal/app/recover.go, internal/federation/hub_server.go (Serve) and the construction
    of the spoke in internal/federation/spoke.go: startup as the ordered list of effects it
    has and either an exit code or the running process, supervision as a step function over
    what the goroutines and listeners do, shutdown as a timeline.  What the machine answers
    (flags, files, certificates, the lease client, the SDK) is the environment. *)

From Stdlib Require Import ZArith Lia SpecFloat.
From S2P Require Import Prelude GoText Discovery Pdu NetAddr Credentials DeviceWalk Config Snapshot Admin Telemetry.
Open Scope Z_scope.

(** ** The parts Run puts together *)

Inductive log_level := LevelDebug | LevelInformation | LevelWarning | LevelErr.

Definition NewLogger (level : string) : log_level :=
  if bool_decide (level = "debug") then LevelDebug
  else if bool_decide (level = "warn") then LevelWarning
  else if bool_decide (level = "error") then LevelErr
  else LevelInformation.

Definition HasSuffix (s suf : string) : bool :=
  bool_decide (String.substring (String.length s - String.length suf) (String.length suf) s = suf).

(** Files, certificates, net/url's joining of a path to a base URL, and the decoder of a
    web configuration. *)
Class Machine := {
  os_ReadFile : string → option string;
  AppendCertsFromPEM : string → bool;
  LoadX509KeyPair : string → string → bool;
  url_Path : string → string;
  url_Resolve : string → string → string → string;
  yaml_Unmarshal : string → option web_config
}.

Section Parts.
Context `{E : ConfigEnv} `{K : Machine}.

(** The path of the base gets a final slash before the push path is resolved against it. *)
Definition buildSpokeURL (baseURL : string) : string + string :=
  match url_Parse baseURL with
  | None => inl "parse hub URL"
  | Some (scheme, host) =>
      guard negb (bool_decide (scheme = "https")) else "hub URL must use HTTPS";
      guard bool_decide (host = "") else "hub URL has no host";
      let path := url_Path baseURL in
      inr (url_Resolve baseURL (if HasSuffix path "/" then path else path +:+ "/") "spoke/push")
  end.

Record Spoke := mkSpoke { sp_pushURL : string; sp_contentEncoding : string }.

(** The files both ends of the federation need: a CA and a key pair. *)
Definition load_tls (who ca cert key : string) : string + unit :=
  match os_ReadFile ca with
  | None => inl (who +:+ ": read CA cert")
  | Some pem =>
      guard negb (AppendCertsFromPEM pem) else who +:+ ": no CA certs parsed";
      guard negb (LoadX509KeyPair cert key) else who +:+ ": load cert/key";
      inr tt
  end.

Definition NewSpoke (s : FederationSpokeConfig) : string + Spoke :=
  do _ <- load_tls "spoke" (s_TLSCACert s) (s_TLSCert s) (s_TLSKey s);
  do pushURL <- buildSpokeURL (s_HubURL s);
  inr (mkSpoke pushURL (if bool_decide (s_Compression s ≠ "none") then "gzip" else "")).

(** The mux panics on a pattern that is registered twice. *)
Definition debug_routes : list string :=
  ["/debug/pprof/"; "/debug/pprof/cmdline"; "/debug/pprof/profile"; "/debug/pprof/symbol"; "/debug/pprof/trace"].

(** ** Startup *)

Inductive worker := HubElector | HubServe | StaleWatchdog | DiscoveryLoop.

Inductive action :=
| RegisterMetrics (uncoordinated : bool)
| StampSnapshotWritten
| NewSessionPool (maxIdle : duration)
| HandleRoute (pattern : string)
| EnableProfiling
| InstallTracer (p : Provider)
| SetGraphStale (v : Z)
| RestoreGraph (f : File)
| SetLeader (b : bool)
| UseHubReadiness
| NewRediscoverer (authenticated : bool)
| StartWorker (w : worker)
| ListenMetrics (addr : string) (web_config : option string)
| ListenDebug (addr : string).

(** What one start meets: the flags, the configuration, the snapshot, the lease client. *)
Record launch := mkLaunch {
  la_flags_parse : bool;
  la_version : bool;
  la_listen_flag : option string;
  la_config : string + (Config * option (list targetOverride));
  la_hub_snapshot : option File;
  la_elector : string + unit;
  la_gauge : string → string + unit;
  la_now : time
}.

Record process := mkProcess {
  pr_config : Config;
  pr_debug : bool;
  pr_pool : bool;
  pr_tracer : option Provider;
  pr_otlp : option Exporter;
  pr_workers : list worker
}.

Definition when {A} (b : bool) (l : list A) : list A := if b then l else [].

Context `{N : NetText} `{S : OTelSDK}.

Definition run_result : Type := list action * (Z + process).

(** Effects first, then the rest of the function. *)
Definition emit (acts : list action) (rest : run_result) : run_result := (acts ++ rest.1, rest.2).
Definition try {A} (x : string + A) (rest : A → run_result) : run_result :=
  match x with inl _ => ([], inl 1) | inr a => rest a end.

Definition effective_addr (la : launch) (cfg : Config) : string := default (l_Addr (c_Listen cfg)) (la_listen_flag la).

Definition is_hub (cfg : Config) : bool := bool_decide (f_Role (c_Federation cfg) = RoleHub).
Definition watchdog_on (cfg : Config) : bool := 0 <? livenessMaxStale (f_Role (c_Federation cfg)) (c_Discovery cfg).

(** The tail of Run up to the wait: the last routes and the listeners. *)
Definition run_listeners (la : launch) (cfg : Config) (p : process) : run_result :=
  emit ([HandleRoute "/readyz"] ++ when (o_YANGEnabled (c_Output cfg)) [HandleRoute "/topology/yang"] ++
        [ListenMetrics (effective_addr la cfg)
           (if bool_decide (l_WebConfigFile (c_Listen cfg) ≠ "") then Some (l_WebConfigFile (c_Listen cfg)) else None)] ++
        when (pr_debug p) [ListenDebug (l_DebugListenAddr (c_Listen cfg))])
    ([], inr p).

Definition run_hub (la : launch) (cfg : Config) (p : process) : run_result :=
  let ha := ha_Enabled (h_HA (f_Hub (c_Federation cfg))) in
  emit ([SetGraphStale 1] ++ (match la_hub_snapshot la with Some f => [RestoreGraph f] | None => [] end) ++ [UseHubReadiness])
    (try (if ha then la_elector la else inr tt) (λ _,
      emit (when ha [SetLeader false; StartWorker HubElector] ++ [StartWorker HubServe])
        (run_listeners la cfg
           (mkProcess cfg (pr_debug p) (pr_pool p) (pr_tracer p) None (when ha [HubElector] ++ [HubServe]))))).

Definition run_discovery (la : launch) (cfg : Config) (p : process) : run_result :=
  try (if bool_decide (f_Role (c_Federation cfg) = RoleSpoke)
       then do s <- NewSpoke (f_Spoke (c_Federation cfg)); inr (Some s) else inr None) (λ _,
  try (if o_Enabled (c_Output cfg) then do e <- otlp_New (la_gauge la) (output_telemetry cfg); inr (Some e) else inr None) (λ exp,
  try (New (c_Credentials cfg) (la_now la)) (λ _,
    emit ([NewRediscoverer (WebConfigHasClientAuth os_ReadFile yaml_Unmarshal (l_WebConfigFile (c_Listen cfg)));
           HandleRoute "/admin/rediscover"] ++ when (watchdog_on cfg) [StartWorker StaleWatchdog] ++ [StartWorker DiscoveryLoop])
      (run_listeners la cfg
         (mkProcess cfg (pr_debug p) (pr_pool p) (pr_tracer p) exp (when (watchdog_on cfg) [StaleWatchdog] ++ [DiscoveryLoop])))))).

Definition run_config (la : launch) (cfg : Config) : run_result :=
  let debug := bool_decide (l_DebugListenAddr (c_Listen cfg) ≠ "") in
  let pool := spc_Enabled (d_SessionPool (c_Discovery cfg)) in
  emit ([RegisterMetrics (bool_decide (f_Role (c_Federation cfg) = RoleUncoordinated)); StampSnapshotWritten] ++
        when pool [NewSessionPool (spc_MaxIdle (d_SessionPool (c_Discovery cfg)))] ++
        [HandleRoute "/metrics"; HandleRoute "/healthz"; HandleRoute "/"] ++ when debug [EnableProfiling])
    (try (if o_TracesEnabled (c_Output cfg)
          then do t <- tracing_New (output_telemetry cfg) (sample_rate cfg); inr (Some t) else inr None) (λ tracer,
      emit (match tracer with Some t => [InstallTracer t] | None => [] end)
        (let p := mkProcess cfg debug pool tracer None [] in
         if is_hub cfg then run_hub la cfg p else run_discovery la cfg p))).

(** [Run] up to the wait for the end of its context. *)
Definition Run (la : launch) : run_result :=
  if negb (la_flags_parse la) then ([], inl 1)
  else if la_version la then ([], inl 0)
  else match la_config la with
       | inl _ => ([], inl 1)
       | inr (cfg, _) => run_config la cfg
       end.
End Parts.

(** ** Supervision

    The root context ends on a signal, when the metrics listener fails, and when a hub
    worker ends in any way.  A panic of a worker is recovered and counted. *)

#[export] Instance worker_eq : EqDecision worker.
Proof. solve_decision. Defined.

Definition panic_site (w : worker) : string :=
  match w with
  | HubElector => "hub_elector" | HubServe => "hub_serve"
  | StaleWatchdog => "stale_watchdog" | DiscoveryLoop => "discovery_loop"
  end.

Definition cancels_root (w : worker) : bool := match w with HubElector | HubServe => true | _ => false end.

Record running := mkRunning {
  ru_alive : list worker;
  ru_cancelled : bool;
  ru_panics : list string
}.

Inductive proc_event :=
| Signal
| MetricsServeEnds (err : option string)
| DebugServeEnds (err : option string)
| WorkerReturns (w : worker)
| WorkerPanics (w : worker).

Definition ErrServerClosed : string := "http: Server closed".

Definition recoverGoroutine (site : string) (panicked : bool) (counts : list string) : list string :=
  if panicked then counts ++ [site] else counts.

(** The deferred calls of a worker: the recovery, the cancellation where there is one, and
    the decrement of the wait group. *)
Definition worker_ends (w : worker) (panicked : bool) (r : running) : running :=
  if bool_decide (w ∈ ru_alive r)
  then mkRunning (filter (λ x, x ≠ w) (ru_alive r)) (ru_cancelled r || cancels_root w)
         (recoverGoroutine (panic_site w) panicked (ru_panics r))
  else r.

Definition supervise (r : running) (e : proc_event) : running :=
  match e with
  | Signal => mkRunning (ru_alive r) true (ru_panics r)
  | MetricsServeEnds (Some err) =>
      if bool_decide (err = ErrServerClosed) then r else mkRunning (ru_alive r) true (ru_panics r)
  | MetricsServeEnds None | DebugServeEnds _ => r
  | WorkerReturns w => worker_ends w false r
  | WorkerPanics w => worker_ends w true r
  end.

Definition supervise_all (p : process) (l : list proc_event) : running :=
  fold_left supervise l (mkRunning (pr_workers p) false []).

(** *** The federation listener of a hub (hub_server.go) *)

Inductive hub_goroutine := RunEviction | RunSnapshotWriter | ShutdownOnCancel.

(** [Serve] up to its accept loop; [snapshots] says whether the hub has a snapshot channel. *)
Definition hub_Serve `{Machine} (h : FederationHubConfig) (listen : string + unit) (snapshots : bool)
  : string + list hub_goroutine :=
  do _ <- load_tls "hub" (h_TLSCACert h) (h_TLSCert h) (h_TLSKey h);
  do _ <- listen;
  inr ([RunEviction] ++ when snapshots [RunSnapshotWriter] ++ [ShutdownOnCancel]).

(** ** Shutdown

    Times are counted from the end of the root context.  http.Server.Shutdown returns when
    the server is idle or its context ends; a select between a channel and a timer takes
    whichever is ready first and either when both are. *)

Definition shutdownTimeout : duration := 5 * Second.

Class FloatScale := {
  float_scale : duration → spec_float → duration;
  float_scale_bounds : ∀ d f, 0 ≤ d ≤ 2 ^ 53 → SFleb f float_0 = false → SFltb float_1 f = false → f ≠ S754_nan →
    0 ≤ float_scale d f ≤ d
}.

Record drain_env := mkDrainEnv {
  de_http : duration;
  de_debug : duration;
  de_workers : option duration;
  de_otlp : option duration;
  de_flush : duration;
  de_coin : bool * bool
}.

Record shutdown_report := mkReport {
  sr_exit : Z;
  sr_http_err : bool;
  sr_debug_err : bool;
  sr_workers_drained : bool;
  sr_otlp_drained : bool;
  sr_pool_closed : option duration;
  sr_flush_err : bool;
  sr_time : duration
}.

(** A call that is given the shutdown context at [now] and needs [need]: when it returns, and
    whether with the error of the context. *)
Definition until_deadline (now need : duration) : duration * bool :=
  let limit := Z.max now shutdownTimeout in
  if (need <=? 0) || (now + need <? limit) then (now + Z.max 0 need, false) else (limit, true).

Definition wait_done (coin : bool) (now : duration) (ends : option duration) (timeout : duration) : duration * bool :=
  let limit := now + Z.max 0 timeout in
  match ends with
  | None => (limit, false)
  | Some d =>
      if if 0 <? timeout then (d <? limit) || (coin && (d =? limit)) else coin && (d <=? now)
      then (Z.max now d, true) else (limit, false)
  end.

Definition drainTimeout `{FloatScale} (d : DiscoveryConfig) : duration :=
  wrap64 (float_scale (d_Interval d) (d_CycleBudgetFraction d) + d_TimeoutPerDevice d).

(** The federation listener when the root context ends: Serve returns as soon as Shutdown is
    called, while the pushes in flight (which need [inflight]) may go on until the goroutine
    that called it gives up.  The worker ends with Serve; nothing waits for that goroutine. *)
Definition hub_serve_ends (inflight : duration) : duration * duration := (0, (until_deadline 0 inflight).1).

(** [Run] after its context ended. *)
Definition shutdown `{FloatScale} (p : process) (e : drain_env) : shutdown_report :=
  let '(t1, http_err) := until_deadline 0 (de_http e) in
  let '(t2, debug_err) := if pr_debug p then until_deadline t1 (de_debug e) else (t1, false) in
  let timeout := drainTimeout (c_Discovery (pr_config p)) in
  let '(t3, drained) := wait_done (de_coin e).1 t2 (de_workers e) timeout in
  let '(t4, otlp_drained) := wait_done (de_coin e).2 t3 (match pr_otlp p with Some _ => de_otlp e | None => Some t3 end) timeout in
  let pool := if pr_pool p then Some t4 else None in
  let '(t5, flush_err) :=
    match pr_tracer p with
    | None => (t4, false)
    | Some _ => until_deadline t4 (de_flush e)
    end in
  mkReport 0 http_err debug_err drained otlp_drained pool flush_err t5.

(** *** The exit code *)

(** What the end of Serve is to the process, if it ends at once. *)
Definition serve_events `{Machine} (h : FederationHubConfig) (listen : string + unit) (snapshots : bool) : list proc_event :=
  match hub_Serve h listen snapshots with inl _ => [WorkerReturns HubServe] | inr _ => [] end.

(** What Run returns, if it has: the code of a start that went no further, or that of the
    shutdown once the root context has ended. *)
Definition process_exit `{ConfigEnv} `{Machine} `{NetText} `{OTelSDK} `{FloatScale}
    (la : launch) (l : list proc_event) (e : drain_env) : option Z :=
  match (Run la).2 with
  | inl code => Some code
  | inr p => if ru_cancelled (supervise_all p l) then Some (sr_exit (shutdown p e)) else None
  end.

(** ** Lemmas: startup *)

(** What a pattern registration and a worker start look like in the list of effects. *)
Definition route_of (a : action) : option string := match a with HandleRoute r => Some r | _ => None end.
Definition worker_of (a : action) : option worker := match a with StartWorker w => Some w | _ => None end.
Definition goes_live (a : action) : bool :=
  match a with StartWorker _ | ListenMetrics _ _ | ListenDebug _ => true | _ => false end.

Definition routes (acts : list action) : list string := omap route_of acts.
Definition workers (acts : list action) : list worker := omap worker_of acts.

Section Startup_lemmas.
Context `{E : ConfigEnv} `{K : Machine} `{N : NetText} `{S : OTelSDK}.

Lemma buildSpokeURL_ok u host :
  url_Parse u = Some ("https", host) → host ≠ "" → ∃ r, buildSpokeURL u = inr r.
Proof. intros Hu Hh. unfold buildSpokeURL. rewrite Hu, bool_decide_eq_true_2, bool_decide_eq_false_2 by done. cbn. eauto. Qed.

(** The spoke client of an accepted configuration fails only on its files. *)
Lemma NewSpoke_fails s : spoke_ok s → fails (NewSpoke s) ↔ fails (load_tls "spoke" (s_TLSCACert s) (s_TLSCert s) (s_TLSKey s)).
Proof.
  intros [_ (host & Hu & Hh) _ _ _]. unfold NewSpoke, fails. destruct (load_tls _ _ _ _); cbn; [naive_solver|].
  destruct (buildSpokeURL_ok _ _ Hu Hh) as [r ->]. cbn. naive_solver.
Qed.

Lemma assign_total names l ex cs : Forall (assignment_ok names) l → ~ fails (assign l ex cs).
Proof.
  intros Hl. revert ex cs. induction Hl as [|a l [Hone _ Hc _] Hl IH]; intros ex cs; cbn; [unfold fails; naive_solver|].
  case_bool_decide as Hi; [apply IH|]. case_bool_decide as Hd; [|apply IH].
  destruct (Hc Hd) as [n ->]. apply IH.
Qed.

(** With profiles to choose from, the assignments were checked. *)
Lemma New_total c now : credentials_ok c → Profiles c ≠ [] → ~ fails (New c now).
Proof.
  intros [_ _ _ Ha _] Hp [e He]. unfold New in He. eapply assign_total; [by apply Ha|].
  destruct (assign _ _ _) as [x|[]] eqn:Ea; [by exists x|done].
Qed.

(** How the effects and the early returns compose. *)
Definition exits (r : run_result) : Prop := ∃ code, r.2 = inl code.
Definition quiet (acts : list action) : bool := forallb (λ a, negb (goes_live a)) acts.

Lemma emit_exits acts r : exits (emit acts r) ↔ exits r.
Proof. done. Qed.

Lemma try_exits {A} (x : string + A) k : exits (try x k) ↔ fails x ∨ ∃ a, x = inr a ∧ exits (k a).
Proof. unfold exits, fails. destruct x; naive_solver. Qed.

Lemma optional_fails {A} (b : bool) (x : string + A) :
  fails (if b then do a <- x; inr (Some a) else inr None) ↔ b = true ∧ fails x.
Proof. unfold fails. destruct b, x; naive_solver. Qed.

Lemma try_exits_const {A} (x : string + A) k P : (∀ a, exits (k a) ↔ P) → exits (try x k) ↔ fails x ∨ P.
Proof. intros Hk. rewrite try_exits. setoid_rewrite Hk. unfold fails. destruct x; naive_solver. Qed.

Lemma listeners_run la cfg p : ~ exits (run_listeners la cfg p).
Proof. intros [code Hc]. done. Qed.

(** The result of a start with a configuration. *)
Lemma run_config_exit la cfg :
  exits (run_config la cfg) ↔
  (o_TracesEnabled (c_Output cfg) = true ∧ fails (tracing_New (output_telemetry cfg) (sample_rate cfg))) ∨
  (if is_hub cfg then ha_Enabled (h_HA (f_Hub (c_Federation cfg))) = true ∧ fails (la_elector la)
   else (f_Role (c_Federation cfg) = RoleSpoke ∧ fails (NewSpoke (f_Spoke (c_Federation cfg)))) ∨
        (o_Enabled (c_Output cfg) = true ∧ fails (otlp_New (la_gauge la) (output_telemetry cfg))) ∨
        fails (New (c_Credentials cfg) (la_now la))).
Proof.
  unfold run_config. rewrite emit_exits. rewrite <- optional_fails. apply try_exits_const. intros tracer.
  rewrite emit_exits. destruct (is_hub cfg).
  - unfold run_hub. rewrite emit_exits, try_exits. unfold fails, exits.
    destruct (ha_Enabled _); [destruct (la_elector la)|]; cbn; naive_solver.
  - rewrite <- (bool_decide_eq_true (f_Role (c_Federation cfg) = RoleSpoke)), <- optional_fails. unfold run_discovery. apply try_exits_const. intros _. rewrite <- optional_fails. apply try_exits_const. intros e.
    rewrite (try_exits_const _ _ False); [tauto|]. intros r. rewrite emit_exits. split; [apply listeners_run|done].
Qed.

(** A start that fails does so with code 1 and has started no worker and opened no listener. *)
Lemma run_config_failed la cfg code : (run_config la cfg).2 = inl code → code = 1 ∧ quiet (run_config la cfg).1 = true.
Proof.
  assert (∀ A (x : string + A) k, (∀ a code, (k a).2 = inl code → code = 1 ∧ quiet (k a).1 = true) →
    ∀ code, (try x k).2 = inl code → code = 1 ∧ quiet (try x k).1 = true) as Ht.
  { intros A x k Hk code'. destruct x; cbn; [naive_solver|apply Hk]. }
  assert (∀ acts r, quiet acts = true → (∀ code, r.2 = inl code → code = 1 ∧ quiet r.1 = true) →
    ∀ code, (emit acts r).2 = inl code → code = 1 ∧ quiet (emit acts r).1 = true) as He.
  { intros acts r Ha Hr code'. cbn. unfold quiet in *. rewrite forallb_app, Ha. apply Hr. }
  revert code. unfold run_config. apply He; [unfold when; by repeat case_match|]. apply Ht. intros tracer. apply He; [by case_match|].
  destruct (is_hub cfg).
  - apply He; [by case_match|]. apply Ht. by intros [] code.
  - apply Ht. intros _. apply Ht. intros e. apply Ht. by intros r code.
Qed.
End Startup_lemmas.

(** *** Supervision and shutdown *)

Lemma supervise_alive w r e : w ∈ ru_alive (supervise r e) → w ∈ ru_alive r.
Proof.
  destruct e as [|[err|]|err|w'|w']; cbn; [done| |done..| |]; [by case_bool_decide|..];
    unfold worker_ends; case_bool_decide; cbn; rewrite ?list_elem_of_filter; tauto.
Qed.

(** Until the root context ends, every worker that would end it is alive. *)
Definition heads_alive (ws : list worker) (r : running) : Prop :=
  ru_cancelled r = false → ∀ w, w ∈ ws → cancels_root w = true → w ∈ ru_alive r.

Lemma supervise_heads ws r e : heads_alive ws r → heads_alive ws (supervise r e).
Proof.
  intros H. destruct e as [|[err|]|err|w|w]; cbn; [done| |done..| |]; [by case_bool_decide|..];
    unfold worker_ends; case_bool_decide as Hin; try done; intros [Hc Hw]%orb_false_iff w' Hws Hh; cbn;
    rewrite list_elem_of_filter; (split; [by intros ->; congruence|by apply H]).
Qed.

Lemma supervise_all_heads p l : heads_alive (pr_workers p) (supervise_all p l).
Proof.
  unfold supervise_all. assert (heads_alive (pr_workers p) (mkRunning (pr_workers p) false [])) as Hh by by intros _.
  revert Hh. generalize (mkRunning (pr_workers p) false []). induction l as [|e l IH]; intros r Hh; [done|].
  by apply IH, supervise_heads.
Qed.

(** What ends the root context. *)
Definition ends_root (ws : list worker) (e : proc_event) : bool :=
  match e with
  | Signal => true
  | MetricsServeEnds (Some err) => negb (bool_decide (err = ErrServerClosed))
  | MetricsServeEnds None | DebugServeEnds _ => false
  | WorkerReturns w | WorkerPanics w => cancels_root w && bool_decide (w ∈ ws)
  end.

Lemma supervise_cancelled ws r e :
  heads_alive ws r → (∀ w, w ∈ ru_alive r → w ∈ ws) →
  ru_cancelled (supervise r e) = ru_cancelled r || ends_root ws e.
Proof.
  intros Hh Hs. assert (∀ w b, ru_cancelled (worker_ends w b r) = ru_cancelled r || cancels_root w && bool_decide (w ∈ ws)) as Hw.
  { intros w b. unfold worker_ends. destruct (ru_cancelled r) eqn:Hc; [by case_bool_decide|].
    case_bool_decide as Hin; cbn.
    - rewrite (bool_decide_eq_true_2 (w ∈ ws)) by auto. by rewrite andb_true_r.
    - rewrite Hc. destruct (cancels_root w) eqn:Hcw; [|done]. rewrite bool_decide_eq_false_2; [done|].
      intros Hws. by apply Hin, Hh. }
  destruct e as [|[err|]|err|w|w]; cbn; try apply Hw; rewrite ?orb_true_r, ?orb_false_r; try done.
  case_bool_decide; cbn; by rewrite ?orb_true_r, ?orb_false_r.
Qed.

Lemma supervise_all_cancelled p l : ru_cancelled (supervise_all p l) = existsb (ends_root (pr_workers p)) l.
Proof.
  induction l as [|e l IH] using rev_ind; [done|]. unfold supervise_all. rewrite fold_left_app, existsb_app, <- IH. cbn.
  rewrite orb_false_r. apply supervise_cancelled; [apply supervise_all_heads|].
  clear IH. induction l as [|e' l IH] using rev_ind; [done|]. intros w. unfold supervise_all. rewrite fold_left_app.
  intros Hw%supervise_alive. by apply IH.
Qed.

(** The same over the lists of events. *)
Lemma ends_root_in ws l :
  existsb (ends_root ws) l = true ↔
  Signal ∈ l ∨ (∃ err, MetricsServeEnds (Some err) ∈ l ∧ err ≠ ErrServerClosed) ∨
  ∃ w, w ∈ ws ∧ cancels_root w = true ∧ (WorkerReturns w ∈ l ∨ WorkerPanics w ∈ l).
Proof.
  rewrite existsb_exists. setoid_rewrite <- list_elem_of_In. split.
  - intros (e & Hin & He). destruct e as [|[err|]|err|w|w]; cbn in He; bprop; try done; [by left|..].
    + right; left. by exists err.
    + right; right. exists w. auto.
    + right; right. exists w. auto.
  - intros [Hs|[(err & Hin & Hne)|(w & Hw & Hc & [Hin|Hin])]]; eexists; (split; [exact Hin || exact Hs|]); cbn.
    + done.
    + by rewrite bool_decide_eq_false_2.
    + by rewrite Hc, bool_decide_eq_true_2.
    + by rewrite Hc, bool_decide_eq_true_2.
Qed.

Lemma shutdown_exit `{FloatScale} p e : sr_exit (shutdown p e) = 0.
Proof.
  unfold shutdown. destruct (until_deadline 0 (de_http e)). destruct (pr_debug p); [destruct (until_deadline _ (de_debug e))|];
    (destruct (wait_done _ _ _ _) as [t3 ?]; destruct (wait_done _ t3 _ _) as [t4 ?]; destruct (pr_tracer p); [by destruct (until_deadline t4 _)|done]).
Qed.

Lemma until_deadline_bounds now need : now ≤ (until_deadline now need).1 ≤ Z.max now shutdownTimeout.
Proof.
  unfold until_deadline. destruct (need <=? 0) eqn:E1; cbn; [|destruct (_ <? _) eqn:E2]; cbn; bprop; lia.
Qed.

Lemma until_deadline_error now need :
  0 < need → shutdownTimeout ≤ (until_deadline now need).1 → (until_deadline now need).2 = true.
Proof.
  intros Hd. unfold until_deadline. destruct (Z.leb_spec need 0); [lia|].
  destruct (Z.ltb_spec (now + need) (Z.max now shutdownTimeout)); cbn; [lia|done].
Qed.

Lemma wait_done_bounds coin now ends timeout :
  let '(t, ok) := wait_done coin now ends timeout in
  now ≤ t ≤ now + Z.max 0 timeout ∧ (ok = true → ∃ d, ends = Some d ∧ d ≤ t) ∧
  (ok = false → t = now + Z.max 0 timeout ∧ ∀ d, ends = Some d → d < t → timeout ≤ 0).
Proof.
  unfold wait_done. destruct ends as [d|]; [|split_and!; try lia; done].
  set (b := if 0 <? timeout then _ else _). assert (b = true → d ≤ now + Z.max 0 timeout) as Ht.
  { subst b. destruct (Z.ltb_spec 0 timeout), coin; cbn; rewrite ?orb_true_iff, ?Z.ltb_lt, ?Z.leb_le, ?Z.eqb_eq; lia || naive_solver lia. }
  assert (b = false → 0 < timeout → now + Z.max 0 timeout ≤ d) as Hf.
  { subst b. intros Hb Hp. destruct (Z.ltb_spec 0 timeout); [|lia]. apply orb_false_iff in Hb as [Hb%Z.ltb_ge _]. lia. }
  destruct b; split_and!; try lia; try done; intros _; [specialize (Ht eq_refl); eauto with lia|..].
  split; [done|]. intros d' [= <-] Hd. destruct (Z.ltb_spec 0 timeout); lia.
Qed.

Lemma wait_done_now coin now timeout : 0 < timeout → wait_done coin now (Some now) timeout = (now, true).
Proof.
  intros Ht. unfold wait_done. destruct (Z.ltb_spec 0 timeout); [|lia]. rewrite Z.max_id.
  by destruct (Z.ltb_spec now (now + Z.max 0 timeout)); [|lia].
Qed.

(** *** The causes of a failed start *)

(** What refuses a start with an accepted configuration: an outside service, a file, or an
    assignment that was not checked for want of profiles. *)
Inductive start_refused `{ConfigEnv} `{Machine} `{NetText} `{OTelSDK} (la : launch) (cfg : Config) : Prop :=
| refused_tracer :
    o_TracesEnabled (c_Output cfg) = true → fails (tracing_New (output_telemetry cfg) (sample_rate cfg)) →
    start_refused la cfg
| refused_elector :
    f_Role (c_Federation cfg) = RoleHub → ha_Enabled (h_HA (f_Hub (c_Federation cfg))) = true → fails (la_elector la) →
    start_refused la cfg
| refused_spoke :
    f_Role (c_Federation cfg) = RoleSpoke →
    fails (load_tls "spoke" (s_TLSCACert (f_Spoke (c_Federation cfg))) (s_TLSCert (f_Spoke (c_Federation cfg)))
             (s_TLSKey (f_Spoke (c_Federation cfg)))) →
    start_refused la cfg
| refused_exporter :
    f_Role (c_Federation cfg) ≠ RoleHub → o_Enabled (c_Output cfg) = true →
    fails (otlp_New (la_gauge la) (output_telemetry cfg)) → start_refused la cfg
| refused_assignment :
    f_Role (c_Federation cfg) ≠ RoleHub → Profiles (c_Credentials cfg) = [] →
    fails (New (c_Credentials cfg) (la_now la)) → start_refused la cfg.

Section Refused.
Context `{E : ConfigEnv} `{K : Machine} `{N : NetText} `{S : OTelSDK}.

Lemma loaded_spoke interval f : federation_ok interval f → f_Role f = RoleSpoke → spoke_ok (f_Spoke f).
Proof.
  intros [_ Hrole _] Hr. rewrite Hr in Hrole. destruct Hrole as [Hin|[[_ ?]|[? _]]]; [|done..].
  repeat (apply elem_of_cons in Hin as [Hin|Hin]; [done|]). by apply elem_of_nil in Hin.
Qed.

Lemma run_config_refused la cfg : config_ok cfg → exits (run_config la cfg) ↔ start_refused la cfg.
Proof.
  intros [_ _ _ _ Hcr _ _ Hfed _]. rewrite run_config_exit. unfold is_hub. split.
  - intros [[]|Hrest]; [by apply refused_tracer|]. case_bool_decide as Hr; [by destruct Hrest; apply refused_elector|].
    destruct Hrest as [[Hs Hn]|[[]|Hn]]; [|by apply refused_exporter|].
    + apply refused_spoke; [done|]. by apply NewSpoke_fails, Hn; eapply loaded_spoke.
    + apply refused_assignment; [done| |done]. destruct (Profiles (c_Credentials cfg)) eqn:Ep; [done|].
      destruct (New_total _ (la_now la) Hcr); [by rewrite Ep|done].
  - intros []; [by left|..]; right.
    + by rewrite bool_decide_eq_true_2.
    + rewrite bool_decide_eq_false_2 by (by rewrite H). left. split; [done|]. apply NewSpoke_fails; [by eapply loaded_spoke|done].
    + rewrite bool_decide_eq_false_2 by done. tauto.
    + rewrite bool_decide_eq_false_2 by done. tauto.
Qed.
End Refused.

(** ** Claims *)

(** A spoke without profiles whose only assignment names no network. *)
Definition with_assignment (a : CredentialAssignment) (c : Config) : Config :=
  mkConfig (c_Listen c) (c_Discovery c) (c_Modules c)
    (mkCredentialsConfig (Profiles (c_Credentials c)) [a] (FallbackOrder (c_Credentials c)) (TrialRatePerSecond (c_Credentials c)))
    (c_SnapshotPath c) (c_Federation c) (c_Output c) (c_Targets c).

Definition bare_machine : Machine := Build_Machine (λ _, None) (λ _, false) (λ _ _, false) (λ _, "") (λ b p r, b) (λ _, None).

Definition launch_with (c : Config) : launch :=
  mkLaunch true false None (Config.Load (E := bare_env) (N := go_net) (R := range_std) c) None (inl "no cluster") (λ _, inr tt) 0.

(** Where an effect stands in the list. *)
Definition before (acts : list action) (x y : action) : Prop :=
  ∃ l1 l2 l3, acts = l1 ++ x :: l2 ++ y :: l3.

Section Wiring.
Context `{E : ConfigEnv} `{K : Machine} `{N : NetText} `{S : OTelSDK}.

(** The routes and workers of a role. *)
Definition expected_routes (cfg : Config) : list string :=
  ["/metrics"; "/healthz"; "/"] ++ when (negb (is_hub cfg)) ["/admin/rediscover"] ++ ["/readyz"] ++
  when (o_YANGEnabled (c_Output cfg)) ["/topology/yang"].

Definition expected_workers (cfg : Config) : list worker :=
  if is_hub cfg then when (ha_Enabled (h_HA (f_Hub (c_Federation cfg)))) [HubElector] ++ [HubServe]
  else when (watchdog_on cfg) [StaleWatchdog] ++ [DiscoveryLoop].

Lemma try_inr {A} (x : string + A) k p : (try x k).2 = inr p → ∃ a, try x k = k a ∧ (k a).2 = inr p.
Proof. destruct x; cbn; [done|eauto]. Qed.

Definition wired (cfg : Config) (pre_routes : list string) (r : run_result) : Prop :=
  ∀ p, r.2 = inr p →
    pre_routes ++ routes r.1 = expected_routes cfg ∧ workers r.1 = pr_workers p ∧ pr_workers p = expected_workers cfg ∧
    pr_config p = cfg.

Lemma emit_wired cfg pre acts r :
  workers acts = [] → wired cfg (pre ++ routes acts) r → wired cfg pre (emit acts r).
Proof.
  intros Hw Hr p Hp. destruct (Hr p Hp) as (H1 & H2 & H3). unfold emit, routes, workers in *. cbn [fst snd].
  rewrite !omap_app, Hw. rewrite app_assoc. by rewrite H1, H2.
Qed.

Lemma try_wired {A} cfg pre (x : string + A) k : (∀ a, wired cfg pre (k a)) → wired cfg pre (try x k).
Proof. intros Hk. destruct x; [by intros p|apply Hk]. Qed.

Lemma run_config_wired la cfg : wired cfg [] (run_config la cfg).
Proof.
  unfold run_config. apply emit_wired; [unfold when; by repeat case_match|]. apply try_wired. intros tracer.
  apply emit_wired; [by case_match|]. destruct (is_hub cfg) eqn:Hh.
  - unfold run_hub. apply emit_wired; [by case_match|]. apply try_wired. intros u p [= <-].
    unfold expected_routes, expected_workers, run_listeners, when. rewrite Hh. cbn. repeat case_match; done.
  - unfold run_discovery. do 3 (apply try_wired; intros ?). intros p [= <-].
    unfold expected_routes, expected_workers, run_listeners, when. rewrite Hh. cbn. repeat case_match; done.
Qed.
End Wiring.

Lemma before_emit acts r x y : before r.1 x y → before (emit acts r).1 x y.
Proof. intros (l1 & l2 & l3 & Hr). exists (acts ++ l1), l2, l3. cbn. rewrite Hr. by rewrite app_assoc. Qed.

Lemma run_config_elector `{ConfigEnv} `{Machine} `{NetText} `{OTelSDK} la cfg p :
  (run_config la cfg).2 = inr p → is_hub cfg = true → ha_Enabled (h_HA (f_Hub (c_Federation cfg))) = true →
  before (run_config la cfg).1 (SetLeader false) (StartWorker HubElector).
Proof.
  unfold run_config. intros Hp Hh Ha. apply before_emit. apply try_inr in Hp as (t & -> & Hp). apply before_emit.
  rewrite Hh in *. unfold run_hub in *. rewrite Ha in *. apply before_emit. apply try_inr in Hp as (u & -> & _).
  eexists [], [], _. reflexivity.
Qed.

(** C31: what a successful start wires up.  No pattern is registered twice, so the mux
    never panics; the routes and workers are exactly those of the role: a hub has no
    discovery loop, no watchdog and no admin endpoint, every other role has the loop and the
    endpoint, the watchdog runs exactly when the liveness gate is on, and profiling is
    never on the metrics mux.  A hub with HA gives up leadership before its elector can run. *)
Theorem startup_wiring `{ConfigEnv} `{Machine} `{NetText} `{OTelSDK} (la : launch) (p : process) :
  (Run la).2 = inr p →
  let acts := (Run la).1 in
  NoDup (routes acts) ∧ NoDup debug_routes ∧ routes acts = expected_routes (pr_config p) ∧
  (∀ r, r ∈ routes acts → HasPrefix r "/debug" = false) ∧
  workers acts = pr_workers p ∧ pr_workers p = expected_workers (pr_config p) ∧
  (HubElector ∈ pr_workers p → before acts (SetLeader false) (StartWorker HubElector)) ∧
  (DiscoveryLoop ∈ pr_workers p ↔ f_Role (c_Federation (pr_config p)) ≠ RoleHub) ∧
  (StaleWatchdog ∈ pr_workers p ↔ 0 < livenessMaxStale (f_Role (c_Federation (pr_config p))) (c_Discovery (pr_config p))).
Proof.
  unfold Run. destruct (la_flags_parse la); [|done]. destruct (la_version la); [done|]. cbn [negb].
  destruct (la_config la) as [|[cfg ov]]; [done|]. intros Hp. set (acts := (run_config la cfg).1).
  destruct (run_config_wired la cfg p Hp) as (Hr & Hw & He & ->). fold acts in Hr, Hw. cbn [app] in Hr. rewrite Hr.
  assert (∀ P : string → Prop, P "/metrics" → P "/healthz" → P "/" → P "/admin/rediscover" → P "/readyz" → P "/topology/yang" →
    ∀ r, r ∈ expected_routes cfg → P r) as Hall.
  { intros P ?????? r. unfold expected_routes, when. repeat case_match; cbn [app]; intros Hin;
      repeat (apply elem_of_cons in Hin as [->|Hin]; [done|]); by apply elem_of_nil in Hin. }
  split_and!; try done.
  - unfold expected_routes, when. repeat case_match; apply (bool_decide_unpack _); vm_compute; exact I.
  - apply (bool_decide_unpack _). vm_compute. exact I.
  - by apply Hall.
  - rewrite He. unfold expected_workers. destruct (is_hub cfg) eqn:Hh; [|unfold when; case_match; set_solver].
    destruct (ha_Enabled _) eqn:Ha; [|set_solver]. intros _. by eapply run_config_elector.
  - rewrite He. unfold expected_workers, is_hub, when. repeat case_match; bprop; set_solver.
  - rewrite He, <- Z.ltb_lt. fold (watchdog_on cfg). unfold expected_workers, is_hub, when. case_bool_decide as Hrole.
    + unfold watchdog_on, livenessMaxStale. rewrite bool_decide_eq_true_2 by done. cbn. case_match; set_solver.
    + destruct (watchdog_on cfg); set_solver.
Qed.

(** A hub with HA whose lease client can be built. *)
Definition hub_config : Config :=
  mkConfig (mkListen ":9100" "" "localhost:6060") zero_discovery
    (mkModuleOptions (mkModules false false false false false false false false) false "" "" 0 false)
    (mkCredentialsConfig [] [] [] 0) ""
    (mkFederation "hub" 0 [] (mkHubConfig ":9443" "ca" "cert" "key" 0 0 false 0 (mkHA true "" "" 0 0 0 false))
       (mkSpokeConfig "" "" "" "" "" ""))
    (mkOutput false "" 0 0 "" false None true "") [].

Definition hub_launch : launch :=
  mkLaunch true false (Some ":9200") (Config.Load (E := grpc_env) (N := go_net) (R := range_std) hub_config) None (inr tt) (λ _, inr tt) 0.

Lemma startup_wiring_witness :
  ∃ p, (Run (E := grpc_env) (K := bare_machine) (N := go_net) (S := sample_sdk) hub_launch).2 = inr p ∧
    pr_workers p = [HubElector; HubServe] ∧ pr_debug p = true ∧
    routes (Run (E := grpc_env) (K := bare_machine) (N := go_net) (S := sample_sdk) hub_launch).1 =
      ["/metrics"; "/healthz"; "/"; "/readyz"; "/topology/yang"] ∧
    before (Run (E := grpc_env) (K := bare_machine) (N := go_net) (S := sample_sdk) hub_launch).1
      (SetLeader false) (StartWorker HubElector).
Proof.
  destruct (Run (E := grpc_env) (K := bare_machine) (N := go_net) (S := sample_sdk) hub_launch).2 as [z|p] eqn:Hr.
  { exfalso. revert Hr. vm_compute. discriminate. }
  destruct (startup_wiring (H := grpc_env) (H0 := bare_machine) (H1 := go_net) (H2 := sample_sdk) hub_launch p Hr)
    as (_ & _ & Hrt & _ & _ & Hw & Hb & _). vm_compute in Hr. injection Hr as <-.
  eexists. split; [reflexivity|]. split; [reflexivity|]. split; [reflexivity|]. split; [exact Hrt|]. apply Hb. left.
Defined.

(** C32: supervision.  Whatever the goroutines and listeners do, the process starts to
    drain exactly when a signal arrived, the metrics listener failed, or a worker of a hub
    ended, by an error, a panic or a return; a debug listener that cannot bind never ends it.
    So a hub that is not draining has its push server and its elector running. *)
Theorem supervision_exact `{ConfigEnv} `{Machine} `{NetText} `{OTelSDK} (la : launch) (p : process) (l : list proc_event) :
  (Run la).2 = inr p →
  (ru_cancelled (supervise_all p l) = true ↔
     Signal ∈ l ∨ (∃ err, MetricsServeEnds (Some err) ∈ l ∧ err ≠ ErrServerClosed) ∨
     ∃ w, w ∈ pr_workers p ∧ cancels_root w = true ∧ (WorkerReturns w ∈ l ∨ WorkerPanics w ∈ l)) ∧
  (f_Role (c_Federation (pr_config p)) = RoleHub → ru_cancelled (supervise_all p l) = false →
     HubServe ∈ ru_alive (supervise_all p l) ∧
     (ha_Enabled (h_HA (f_Hub (c_Federation (pr_config p)))) = true → HubElector ∈ ru_alive (supervise_all p l))).
Proof.
  intros Hp. split.
  - rewrite supervise_all_cancelled. apply ends_root_in.
  - intros Hr Hc. pose proof (supervise_all_heads p l Hc) as Hh.
    assert (pr_workers p = expected_workers (pr_config p)) as He.
    { unfold Run in Hp. repeat case_match; try done. by destruct (run_config_wired _ _ _ Hp) as (_ & _ & ? & ->). }
    unfold expected_workers, is_hub in He. rewrite bool_decide_eq_true_2 in He by done. rewrite He in Hh.
    split; [|intros Ha; rewrite Ha in Hh]; apply Hh; try done; unfold when; set_solver.
Qed.

(** the witness: the push server of a hub panics, the debug listener was never there. *)
Lemma supervision_exact_witness :
  ∃ p, (Run (E := grpc_env) (K := bare_machine) (N := go_net) (S := sample_sdk) hub_launch).2 = inr p ∧
    ru_cancelled (supervise_all p [DebugServeEnds (Some "address in use")]) = false ∧
    HubElector ∈ ru_alive (supervise_all p [DebugServeEnds (Some "address in use")]) ∧
    ru_cancelled (supervise_all p [WorkerPanics HubServe]) = true.
Proof.
  destruct (Run (E := grpc_env) (K := bare_machine) (N := go_net) (S := sample_sdk) hub_launch).2 as [z|p] eqn:Hr.
  { exfalso. revert Hr. vm_compute. discriminate. }
  pose proof (supervision_exact (H := grpc_env) (H0 := bare_machine) (H1 := go_net) (H2 := sample_sdk) hub_launch p) as T.
  destruct (T [DebugServeEnds (Some "address in use")] Hr) as [_ T1]. destruct (T [WorkerPanics HubServe] Hr) as [T2 _].
  clear T. vm_compute in Hr. injection Hr as <-. eexists. split; [reflexivity|]. split; [reflexivity|]. split.
  - apply T1; reflexivity.
  - apply T2. right. right. exists HubServe. split; [right; left|]. split; [reflexivity|]. right. left.
Defined.

(** The start of a configuration: refused, or the workers of its role are up. *)
Lemma Run_cases `{ConfigEnv} `{Machine} `{NetText} `{MapRange} `{OTelSDK} (la : launch) (c0 cfg : Config) ov :
  la_config la = Config.Load c0 → Config.Load c0 = inr (cfg, ov) → la_flags_parse la = true → la_version la = false →
  (start_refused la cfg ∧ (Run la).2 = inl 1) ∨
  (¬ start_refused la cfg ∧ ∃ p, (Run la).2 = inr p ∧ pr_config p = cfg ∧ pr_workers p = expected_workers cfg).
Proof.
  intros Hl HL Hf Hv. unfold Run. rewrite Hf, Hv, Hl, HL. cbn [negb].
  pose proof (run_config_refused la cfg (loaded_ok _ _ _ HL)) as Hr. unfold exits in Hr.
  pose proof (run_config_failed la cfg) as Hc. pose proof (run_config_wired la cfg) as Hw.
  destruct (run_config la cfg).2 as [code|p] eqn:E.
  - left. split; [apply Hr; eauto|]. by destruct (Hc code eq_refl) as [-> _].
  - right. split; [intros [code Hx]%Hr; discriminate|]. exists p. destruct (Hw p E) as (_ & _ & He1 & He2). done.
Qed.

(** C30: the exit code of the process.  It is 1 exactly when the flags or the configuration
    are bad, or an accepted configuration meets a refusal at its start: of the SDK (tracing,
    or the OTLP push outside a hub), of the lease client of a hub with HA, of the TLS files
    of a spoke, or of an assignment when no profile is configured; such a start has started
    no worker and opened no listener.  It is 0 exactly when the version was asked for, or the
    process started and then its context ended: by a signal, by a failure of the metrics
    listener, or by the end of a hub's elector or push server.  There is no other code, and
    without one of these the process keeps running.  So a hub that cannot serve its spokes,
    for want of its TLS files or its address, ends with 0. *)
Theorem process_exit_code `{ConfigEnv} `{Machine} `{NetText} `{MapRange} `{OTelSDK} `{FloatScale}
    (la : launch) (c0 : Config) (l : list proc_event) (e : drain_env) :
  la_config la = Config.Load c0 →
  let ends cfg :=
    Signal ∈ l ∨ (∃ err, MetricsServeEnds (Some err) ∈ l ∧ err ≠ ErrServerClosed) ∨
    (f_Role (c_Federation cfg) = RoleHub ∧
     ((WorkerReturns HubServe ∈ l ∨ WorkerPanics HubServe ∈ l) ∨
      ha_Enabled (h_HA (f_Hub (c_Federation cfg))) = true ∧ (WorkerReturns HubElector ∈ l ∨ WorkerPanics HubElector ∈ l))) in
  (process_exit la l e = Some 1 ↔
     la_flags_parse la = false ∨
     la_version la = false ∧
     (fails (Config.Load c0) ∨ ∃ cfg ov, Config.Load c0 = inr (cfg, ov) ∧ start_refused la cfg)) ∧
  (process_exit la l e = Some 0 ↔
     la_flags_parse la = true ∧
     (la_version la = true ∨ ∃ cfg ov, Config.Load c0 = inr (cfg, ov) ∧ ¬ start_refused la cfg ∧ ends cfg)) ∧
  (∀ code, process_exit la l e = Some code → code = 0 ∨ code = 1) ∧
  (∀ code, (Run la).2 = inl code → quiet (Run la).1 = true) ∧
  (∀ cfg ov listen snapshots, Config.Load c0 = inr (cfg, ov) → la_flags_parse la = true → ¬ start_refused la cfg →
     f_Role (c_Federation cfg) = RoleHub →
     let h := f_Hub (c_Federation cfg) in
     fails (load_tls "hub" (h_TLSCACert h) (h_TLSCert h) (h_TLSKey h)) ∨ fails listen →
     serve_events h listen snapshots ⊆ l → process_exit la l e = Some 0).
Proof.
  intros Hl ends.
  assert (∀ cfg, existsb (ends_root (expected_workers cfg)) l = true ↔ ends cfg) as Hends.
  { intros cfg. rewrite ends_root_in. unfold ends, expected_workers, is_hub, when. case_bool_decide as Hr.
    - setoid_rewrite elem_of_app. setoid_rewrite list_elem_of_singleton. destruct (ha_Enabled _).
      + setoid_rewrite list_elem_of_singleton. split; intros [?|[?|Hw]]; auto; right; right; [naive_solver|].
        destruct Hw as (_ & [Hw|[_ Hw]]); [exists HubServe|exists HubElector]; auto.
      + setoid_rewrite elem_of_nil. split; intros [?|[?|Hw]]; auto; right; right; [naive_solver|].
        destruct Hw as (_ & [Hw|[? _]]); [exists HubServe; auto|done].
    - setoid_rewrite elem_of_app. setoid_rewrite list_elem_of_singleton. split; intros [?|[?|Hw]]; auto; [|by destruct Hw].
      destruct Hw as (w & [Hw|Hw] & Hc & _); [|by subst w]. case_match; [apply list_elem_of_singleton in Hw; by subst w|by apply elem_of_nil in Hw]. }
  destruct (la_flags_parse la) eqn:Hf.
  2: { unfold process_exit, Run. rewrite Hf. cbn. split_and!; try done; try (by intros code [= <-]; auto); split; auto; [done|by intros []]. }
  destruct (la_version la) eqn:Hv.
  { unfold process_exit, Run. rewrite Hf, Hv. cbn. split_and!; try done; try (by intros code [= <-]; auto); split; auto; [done|].
    intros [|[]]; done. }
  destruct (Config.Load c0) as [err|[cfg ov]] eqn:HL.
  { unfold process_exit, Run. rewrite Hf, Hv, Hl. cbn. split_and!; try done; try (by intros code [= <-]; auto); split; auto.
    - intros _. right. split; [done|]. left. by eexists.
    - done.
    - intros (_ & [|(? & ? & [=] & _)]); done. }
  assert (∀ code, (Run la).2 = inl code → quiet (Run la).1 = true) as Hq.
  { unfold Run. rewrite Hf, Hv, Hl. cbn [negb]. by intros code [_ ?]%run_config_failed. }
  split_and!; [| | |exact Hq|]; clear Hq; unfold process_exit;
    (destruct (Run_cases la c0 cfg ov) as [[Href Hrun]|[Hno (p & Hrun & Hcfg & Hws)]]; rewrite ?HL; try done; rewrite Hrun;
     [|rewrite supervise_all_cancelled, Hws, shutdown_exit; specialize (Hends cfg)]).
  - split; [intros _; right; split; [done|]; right; eauto|done].
  - split; [by case_match|]. intros [|[_ [[err [=]]|(cfg' & ov' & [= <- <-] & Hr)]]]; done.
  - split; [done|]. intros (_ & [|(cfg' & ov' & [= <- <-] & Hr & _)]); done.
  - destruct (existsb _ l); split; try done.
    + intros _. split; [done|]. right. exists cfg, ov. split; [done|]. split; [done|]. by apply Hends.
    + intros (_ & [|(cfg' & ov' & [= <- <-] & _ & He)]); [done|]. apply Hends in He. done.
  - intros code [= <-]. auto.
  - intros code. case_match; [intros [= <-]; auto|done].
  - intros cfg' ov' listen snapshots [= <- <-] _ Hn. done.
  - intros cfg' ov' listen snapshots [= <- <-] _ _ Hr Hfail Hsub. set (h := f_Hub _) in *.
    rewrite (proj2 Hends); [done|]. unfold ends. right. right. split; [done|]. left. left. apply Hsub. unfold serve_events.
    assert (∃ x, hub_Serve h listen snapshots = inl x) as [x ->]; [|by left].
    unfold hub_Serve, fails in *. destruct (load_tls _ _ _ _); [by eexists|]. cbn. destruct listen; [by eexists|].
    destruct Hfail as [[? [=]]|[? [=]]].
Qed.

(** One function with the bounds: half the interval, whatever the fraction. *)
#[refine] Definition half_scale : FloatScale := {| float_scale d _ := d / 2 |}.
Proof. intros d f Hd _ _ _. split; [apply Z.div_pos; lia|apply Z.div_le_upper_bound; lia]. Defined.

(** A hub without HA, whose certificates are not there. *)
Definition plain_hub : Config :=
  mkConfig (c_Listen hub_config) (c_Discovery hub_config) (c_Modules hub_config) (c_Credentials hub_config) ""
    (mkFederation "hub" 0 [] (mkHubConfig ":9443" "ca" "cert" "key" 0 0 false 0 (mkHA false "" "" 0 0 0 false))
       (mkSpokeConfig "" "" "" "" "" ""))
    (c_Output hub_config) [].

Definition plain_launch : launch :=
  mkLaunch true false None (Config.Load (E := grpc_env) (N := go_net) (R := range_std) plain_hub) None (inl "no cluster") (λ _, inr tt) 0.

(** A configuration that [Load] accepts and that the resolver then refuses exits with 1; the
    hub without certificates starts, and exits with 0. *)
Lemma process_exit_code_witness :
  let c0 := with_assignment (mkAssignment "" "10.0.0.0/33" []) zero_config in
  let e := mkDrainEnv 0 0 None None 0 (true, true) in
  let exit_bare la l := process_exit (H := bare_env) (H0 := bare_machine) (H1 := go_net) (H2 := sample_sdk) (H3 := half_scale) la l e in
  let exit_hub la l := process_exit (H := grpc_env) (H0 := bare_machine) (H1 := go_net) (H2 := sample_sdk) (H3 := half_scale) la l e in
  exit_bare (launch_with c0) [] = Some 1 ∧
  exit_hub plain_launch [] = None ∧
  exit_hub plain_launch (serve_events (H := bare_machine) (f_Hub (c_Federation plain_hub)) (inr tt) false) = Some 0.
Proof.
  intros c0 e exit_bare exit_hub. split; [|split; [vm_compute; reflexivity|]].
  - destruct (Config.Load (E := bare_env) (N := go_net) (R := range_std) c0) as [err|[cfg ov]] eqn:Hl.
    { exfalso. revert Hl. vm_compute. discriminate. }
    destruct (process_exit_code (H := bare_env) (H0 := bare_machine) (H1 := go_net) (H2 := range_std) (H3 := sample_sdk) (H4 := half_scale)
      (launch_with c0) c0 [] e eq_refl) as (H1 & _).
    apply H1. right. split; [reflexivity|right]. exists cfg, ov. split; [exact Hl|]. vm_compute in Hl. injection Hl as <- <-.
    apply refused_assignment; [by vm_compute|reflexivity|]. clear H1 exit_bare exit_hub. eexists. vm_compute. reflexivity.
  - destruct (Config.Load (E := grpc_env) (N := go_net) (R := range_std) plain_hub) as [err|[cfg ov]] eqn:Hl.
    { exfalso. revert Hl. vm_compute. discriminate. }
    destruct (process_exit_code (H := grpc_env) (H0 := bare_machine) (H1 := go_net) (H2 := range_std) (H3 := sample_sdk) (H4 := half_scale)
      plain_launch plain_hub (serve_events (H := bare_machine) (f_Hub (c_Federation plain_hub)) (inr tt) false) e eq_refl) as (_ & _ & _ & _ & H5).
    vm_compute in Hl. injection Hl as <- <-.
    refine (H5 _ _ (inr tt) false eq_refl eq_refl _ eq_refl _ _).
    + intros [Ht _|_ Ha _|Hs _|Hr _|Hr _]; try discriminate; by apply Hr.
    + left. eexists. reflexivity.
    + intros x Hx. exact Hx.
Defined.

(** Nothing supervises the other workers: after a panic of the discovery loop itself the
    process keeps serving until a signal or a failure of its listener, whatever else
    happens, and its liveness probe answers 200 for ever when no cycle had completed or the
    gate is off. *)
Lemma dead_loop_keeps_serving (p : process) (l : list proc_event) (status : option CycleStatus) (now : time) :
  pr_workers p = expected_workers (pr_config p) → f_Role (c_Federation (pr_config p)) ≠ RoleHub →
  (∀ e, e ∈ l → e ≠ Signal ∧ ∀ err, e = MetricsServeEnds (Some err) → err = ErrServerClosed) →
  ru_cancelled (supervise_all p (WorkerPanics DiscoveryLoop :: l)) = false ∧
  DiscoveryLoop ∉ ru_alive (supervise_all p (WorkerPanics DiscoveryLoop :: l)) ∧
  (status = None ∨ LivenessMaxStaleCyclesValue (c_Discovery (pr_config p)) = 0 →
   (NewHealthzHandler status (livenessMaxStale (f_Role (c_Federation (pr_config p))) (c_Discovery (pr_config p))) now).1.1.1 = 200).
Proof.
  intros Hw Hr Hl. split_and!.
  - rewrite supervise_all_cancelled. apply not_true_iff_false. rewrite existsb_exists. intros (e & Hin & He).
    rewrite Hw in He. unfold expected_workers, is_hub in He. rewrite bool_decide_eq_false_2 in He by done.
    destruct Hin as [<-|Hin%list_elem_of_In]; [done|]. destruct (Hl _ Hin) as [Hs Hm].
    destruct e as [|[err|]|err|w|w]; cbn in He; bprop; try done.
    + by specialize (Hm err eq_refl).
    + unfold when in *. destruct w; cbn in *; try done; case_match; set_solver.
    + unfold when in *. destruct w; cbn in *; try done; case_match; set_solver.
  - unfold supervise_all. cbn [fold_left]. set (r := supervise _ _).
    assert (DiscoveryLoop ∉ ru_alive r) as Hd.
    { subst r. cbn. unfold worker_ends. case_bool_decide as Hin; cbn; [rewrite list_elem_of_filter; naive_solver|done]. }
    clearbody r. clear Hl. revert r Hd. induction l as [|e l IH]; intros r Hd; [done|]. apply IH.
    by intros ?%supervise_alive.
  - unfold NewHealthzHandler, livenessMaxStale. rewrite bool_decide_eq_false_2 by done. intros [->| ->]; [done|].
    by destruct status.
Qed.

(** The drain timeout of an accepted configuration. *)
Lemma drainTimeout_bounds `{FloatScale} (d : DiscoveryConfig) :
  discovery_ok d → d_Interval d ≤ 2 ^ 53 → d_TimeoutPerDevice d ≤ 2 ^ 62 → d_CycleBudgetFraction d ≠ S754_nan →
  0 < drainTimeout d ≤ d_Interval d + d_TimeoutPerDevice d.
Proof.
  intros [_ _ [Hb1 Hb2] _ _ _ Hi _ Hd] Hm1 Hm2 Hn. unfold drainTimeout.
  pose proof (float_scale_bounds (d_Interval d) (d_CycleBudgetFraction d) ltac:(lia) Hb1 Hb2 Hn) as Hs.
  rewrite wrap64_small by (unfold MaxInt; lia). lia.
Qed.

(** C33: shutdown ends.  From the end of its context, a process with an accepted
    configuration returns 0 within five seconds plus twice the interval and device timeout,
    however long connections, walks, pushes and exports would take.  Listeners get five
    seconds between them; workers and then OTLP pushes get the drain timeout each.  When the
    workers drained in time, the session pool is closed only after the last of them ended;
    spans are flushed only in what is left of the first five seconds. *)
Theorem shutdown_bounded `{ConfigEnv} `{NetText} `{MapRange} `{FloatScale} (c0 : Config) (ov : option (list targetOverride))
    (p : process) (e : drain_env) :
  Config.Load c0 = inr (pr_config p, ov) →
  let d := c_Discovery (pr_config p) in
  d_Interval d ≤ 2 ^ 53 → d_TimeoutPerDevice d ≤ 2 ^ 62 → d_CycleBudgetFraction d ≠ S754_nan →
  let r := shutdown p e in
  sr_exit r = 0 ∧
  0 ≤ sr_time r ≤ shutdownTimeout + 2 * (d_Interval d + d_TimeoutPerDevice d) ∧
  (sr_http_err r = true ↔ shutdownTimeout ≤ de_http e) ∧
  (sr_workers_drained r = true → ∃ w, de_workers e = Some w ∧ w ≤ sr_time r ∧ ∀ t, sr_pool_closed r = Some t → w ≤ t) ∧
  (pr_otlp p = None → sr_otlp_drained r = true) ∧
  (is_Some (pr_tracer p) → 0 < de_flush e → shutdownTimeout ≤ sr_time r → sr_flush_err r = true).
Proof.
  intros Hl d Hi Ht Hn. pose proof (drainTimeout_bounds d (cf_discovery _ (loaded_ok _ _ _ Hl)) Hi Ht Hn) as Hd.
  assert (0 < shutdownTimeout) as Hpos by done. unfold shutdown. fold d. set (T := drainTimeout d) in *.
  pose proof (until_deadline_bounds 0 (de_http e)) as B1.
  assert ((until_deadline 0 (de_http e)).2 = true ↔ shutdownTimeout ≤ de_http e) as Hh.
  { unfold until_deadline. rewrite Z.add_0_l.
    destruct (Z.leb_spec (de_http e) 0); cbn [orb snd]; [split; [done|lia]|].
    destruct (Z.ltb_spec (de_http e) (Z.max 0 shutdownTimeout)); cbn [snd]; split; done || lia. }
  destruct (until_deadline 0 (de_http e)) as [t1 err1]. cbn [fst snd] in B1, Hh.
  set (q2 := if pr_debug p then until_deadline t1 (de_debug e) else (t1, false)).
  assert (t1 ≤ q2.1 ≤ Z.max t1 shutdownTimeout) as B2.
  { subst q2. destruct (pr_debug p); [apply until_deadline_bounds|cbn; lia]. }
  destruct q2 as [t2 err2]. cbn [fst] in B2.
  pose proof (wait_done_bounds (de_coin e).1 t2 (de_workers e) T) as B3. destruct (wait_done _ t2 _ T) as [t3 drained].
  set (o := match pr_otlp p with Some _ => de_otlp e | None => Some t3 end).
  pose proof (wait_done_bounds (de_coin e).2 t3 o T) as B4. destruct (wait_done _ t3 o T) as [t4 otlp].
  set (q5 := match pr_tracer p with Some _ => until_deadline t4 (de_flush e) | None => (t4, false) end).
  assert (t4 ≤ q5.1 ≤ Z.max t4 shutdownTimeout) as B5.
  { subst q5. destruct (pr_tracer p); [apply until_deadline_bounds|cbn; lia]. }
  assert (is_Some (pr_tracer p) → 0 < de_flush e → shutdownTimeout ≤ q5.1 → q5.2 = true) as B6.
  { intros [tp Htp] Hf. subst q5. rewrite Htp. by apply until_deadline_error. }
  destruct q5 as [t5 err5]. cbn [fst snd] in B5, B6. destruct B3 as (B3 & B3t & _), B4 as (B4 & _ & B4f). cbn.
  split_and!; try done; try lia.
  - intros Hdr. destruct (B3t Hdr) as (w & Hw & Hle). exists w. split_and!; [done|lia|].
    destruct (pr_pool p); [|done]. intros t [= <-]. lia.
  - intros Ho. subst o. rewrite Ho in B4f. destruct otlp; [done|]. destruct (B4f eq_refl) as [He Hlate].
    specialize (Hlate t3 eq_refl). lia.
Qed.

(** A spoke that traces, whose hub does not answer: the pusher's last attempt takes all of
    its drain timeout. *)
Definition SpokePushDrainTimeout : duration := 5 * Second.

Definition default_config : Config := applyDefaults zero_config.
Definition traced_process : process :=
  mkProcess default_config false true (Some (mkProvider [] (OverHTTP, []) float_0_1)) None [StaleWatchdog; DiscoveryLoop].

Lemma shutdown_bounded_witness :
  let e := mkDrainEnv 0 0 (Some SpokePushDrainTimeout) None 1 (true, true) in
  let r := shutdown (H := half_scale) traced_process e in
  (∃ ov, Config.Load (E := bare_env) (N := go_net) (R := range_std) zero_config = inr (pr_config traced_process, ov)) ∧
  sr_exit r = 0 ∧ sr_time r ≤ 145 * Second ∧ sr_workers_drained r = true ∧ sr_flush_err r = true.
Proof.
  intros e r. destruct (Config.Load (E := bare_env) (N := go_net) (R := range_std) zero_config) as [x|[c ov]] eqn:Hl.
  { exfalso. revert Hl. vm_compute. discriminate. }
  assert (c = pr_config traced_process) as -> by (vm_compute in Hl; injection Hl as <- <-; vm_compute; reflexivity).
  destruct (shutdown_bounded (H := bare_env) (H0 := go_net) (H1 := range_std) (H2 := half_scale) zero_config ov traced_process e Hl)
    as (H1 & H2 & _ & _ & _ & H3); [vm_compute; discriminate..|].
  split; [by exists ov|]. split; [exact H1|]. split; [exact (proj2 H2)|]. split; [vm_compute; reflexivity|].
  apply H3; [by eexists|reflexivity|vm_compute; discriminate].
Defined.

(** a hub's push server starts exactly when its files and its address are usable, and then
    evicts silent spokes and, with a snapshot path, writes snapshots. *)
Lemma hub_Serve_exact `{Machine} (h : FederationHubConfig) (listen : string + unit) (snapshots : bool) :
  (fails (hub_Serve h listen snapshots) ↔
     fails (load_tls "hub" (h_TLSCACert h) (h_TLSCert h) (h_TLSKey h)) ∨ fails listen) ∧
  (∀ gs, hub_Serve h listen snapshots = inr gs →
     RunEviction ∈ gs ∧ ShutdownOnCancel ∈ gs ∧ (RunSnapshotWriter ∈ gs ↔ snapshots = true)).
Proof.
  unfold hub_Serve, fails. split.
  - destruct (load_tls _ _ _ _), listen; naive_solver.
  - intros gs. destruct (load_tls _ _ _ _), listen; [done..|]. intros [= <-]. destruct snapshots; cbn; set_solver.
Qed.

(** a hub does not wait for the pushes it is handling: without HA and with idle
    metrics connections the process ends as soon as its context does, however long the
    pushes in flight still need within the five seconds the listener grants them. *)
Theorem hub_exit_cuts_pushes `{FloatScale} (p : process) (e : drain_env) (inflight : duration) :
  pr_workers p = [HubServe] → pr_debug p = false → pr_tracer p = None → pr_otlp p = None →
  0 < drainTimeout (c_Discovery (pr_config p)) →
  de_http e = 0 → de_workers e = Some (hub_serve_ends inflight).1 → 0 < inflight →
  sr_time (shutdown p e) = 0 ∧ sr_workers_drained (shutdown p e) = true ∧ 0 < (hub_serve_ends inflight).2.
Proof.
  intros _ Hd Ht Ho HT Hh Hw Hi. unfold shutdown. rewrite Hd, Ht, Ho, Hh, Hw. unfold hub_serve_ends. cbn [fst snd].
  change (until_deadline 0 0) with (0, false). cbv beta iota. rewrite !wait_done_now by done. cbn. split_and!; [done..|].
  unfold until_deadline. destruct (Z.leb_spec inflight 0); [lia|]. cbn [orb]. case_match; cbn; [lia|done].
Qed.

Lemma hub_exit_cuts_pushes_witness :
  let p := mkProcess (applyDefaults hub_config) false false None None [HubServe] in
  let r := shutdown (H := half_scale) p (mkDrainEnv 0 0 (Some 0) None 0 (true, true)) in
  sr_time r = 0 ∧ sr_workers_drained r = true ∧ (hub_serve_ends (3 * Second)).2 = 3 * Second.
Proof.
  intros p r. destruct (hub_exit_cuts_pushes (H := half_scale) p (mkDrainEnv 0 0 (Some 0) None 0 (true, true)) (3 * Second))
    as (H1 & H2 & _); try reflexivity. split; [exact H1|]. split; [exact H2|]. reflexivity.
Defined.
