(* ===== verification/Registry.v ===== *)
(** * internal/metrics/metrics.go: the metric set and its registration

    Every collector [New] builds, with its kind, name, label names and buckets, and the
    order in which they are registered; the descriptions of the topology collector
    (topology_collector.go); the two adapters; and, for what the other components count,
    the series it lands on.  A registry refuses a description that is not valid or whose
    name it has, and a vector panics on a wrong number of label values, so what is to be
    shown is that neither happens.  Help texts are left out. *)

From Stdlib Require Import ZArith Lia Ascii.
From S2P Require Import Prelude GoText Discovery HubValidate Pdu NetAddr GraphKeys Reconcile GraphDiff Walker Transport.
From S2P Require Import SessionPool DeviceWalk Snapshot Collector Otlp Loop.
Open Scope Z_scope.

(** ** What a collector is made from *)

(** The start of exponential buckets is in thousandths. *)
Inductive metric_kind := Counter | Gauge | Histogram (start_milli factor : Z) (count : nat).

Record opts := mkOpts { op_kind : metric_kind; op_name : string; op_labels : list string }.

Module Metrics.

Inductive metric :=
| Topology | TopologyChangeTotal | TopologyConflictTotal | GraphStale | SnapshotLastWrittenUnix
| SnapshotLoadedDevicesTotal | DiscoveryDevicesTotal | DiscoveryCycleDuration | DiscoveryModuleDuration
| SNMPWalksTotal | SNMPSessionPoolSize | SNMPSessionPoolHits | SNMPSessionPoolMisses
| SNMPSessionPoolEvictions | SNMPRateLimitWaitSeconds | DiscoveryDecodeIssues | DiscoveryQuarantinedRowsTotal
| DiscoveryDegradedTotal | DiscoveryHardFailTotal | ModuleLastStatus | CredentialTrialsTotal | OTLPPushTotal
| FederationSpokeUp | FederationSpokeLastPushUnix | FederationSpokePushFailuresTotal
| FederationSpokePushLastSuccessUnix | FederationSpokePushDropsTotal | FederationSpokePushQueueDepth
| GraphUpdatesRejectedTotal | HubOOSUnmatchedTotal | TopologyLastScrapeDurationSeconds
| TopologyLastScrapeSamplesTotal | FDBSuppressedMACs | GoRoutines | SnapshotQueueDepth | SnapshotDropsTotal
| CycleBudgetSkipsTotal | AdminRediscoveryTotal | MetricsRenderDuration | BGPWalkerOutcomeTotal
| WalkerOutcomeTotal | SystemWalkAnomalyTotal | PanicsRecoveredTotal | MetricsPayloadBytes.

End Metrics.

Section Registration.
Import Metrics.

Definition opts_of (m : metric) : option opts :=
  match m with
  | Topology => None
  | TopologyChangeTotal => Some $ mkOpts Counter "network_topology_change_total" ["change_kind"; "discovery_proto"]
  | TopologyConflictTotal => Some $ mkOpts Counter "network_topology_conflict_total" ["conflict_type"]
  | GraphStale => Some $ mkOpts Gauge "network_topology_graph_stale" []
  | SnapshotLastWrittenUnix => Some $ mkOpts Gauge "network_topology_snapshot_last_written_timestamp_seconds" []
  | SnapshotLoadedDevicesTotal => Some $ mkOpts Gauge "network_topology_snapshot_loaded_devices_total" []
  | DiscoveryDevicesTotal => Some $ mkOpts Gauge "network_topology_discovery_devices_total" ["status"; "reason"]
  | DiscoveryCycleDuration => Some $ mkOpts (Histogram 500 2 10) "network_topology_discovery_cycle_duration_seconds" []
  | DiscoveryModuleDuration => Some $ mkOpts (Histogram 50 2 10) "network_topology_discovery_module_duration_seconds" ["module"]
  | SNMPWalksTotal => Some $ mkOpts Counter "network_topology_snmp_walks_total" ["status"; "reason"]
  | SNMPSessionPoolSize => Some $ mkOpts Gauge "network_topology_snmp_session_pool_size" []
  | SNMPSessionPoolHits => Some $ mkOpts Counter "network_topology_snmp_session_pool_hits_total" []
  | SNMPSessionPoolMisses => Some $ mkOpts Counter "network_topology_snmp_session_pool_misses_total" []
  | SNMPSessionPoolEvictions => Some $ mkOpts Counter "network_topology_snmp_session_pool_evictions_total" ["reason"]
  | SNMPRateLimitWaitSeconds => Some $ mkOpts (Histogram 1 2 12) "network_topology_snmp_rate_limit_wait_seconds" []
  | DiscoveryDecodeIssues => Some $ mkOpts Counter "network_topology_discovery_decode_issues_total" ["module"; "oid"; "reason"]
  | DiscoveryQuarantinedRowsTotal => Some $ mkOpts Counter "network_topology_discovery_quarantined_rows_total" ["module"; "oid"; "reason"]
  | DiscoveryDegradedTotal => Some $ mkOpts Counter "network_topology_discovery_degraded_total" ["module"; "reason"]
  | DiscoveryHardFailTotal => Some $ mkOpts Counter "network_topology_discovery_hard_fail_total" ["module"; "reason"]
  | ModuleLastStatus => Some $ mkOpts Gauge "network_topology_module_last_status" ["module"]
  | CredentialTrialsTotal => Some $ mkOpts Counter "network_topology_credential_trials_total" ["status"]
  | OTLPPushTotal => Some $ mkOpts Counter "network_topology_otlp_push_total" ["status"; "reason"]
  | FederationSpokeUp => Some $ mkOpts Gauge "network_topology_federation_spoke_up" ["spoke_id"]
  | FederationSpokeLastPushUnix => Some $ mkOpts Gauge "network_topology_federation_spoke_last_push_timestamp_seconds" ["spoke_id"]
  | FederationSpokePushFailuresTotal => Some $ mkOpts Counter "network_topology_federation_spoke_push_failures_total" []
  | FederationSpokePushLastSuccessUnix => Some $ mkOpts Gauge "network_topology_federation_spoke_push_last_success_unix" []
  | FederationSpokePushDropsTotal => Some $ mkOpts Counter "network_topology_federation_spoke_push_drops_total" ["reason"]
  | FederationSpokePushQueueDepth => Some $ mkOpts Gauge "network_topology_federation_spoke_push_queue_depth" []
  | GraphUpdatesRejectedTotal => Some $ mkOpts Counter "network_topology_graph_updates_rejected_total" ["reason"]
  | HubOOSUnmatchedTotal => Some $ mkOpts Gauge "network_topology_hub_oos_unmatched_total" []
  | TopologyLastScrapeDurationSeconds => Some $ mkOpts Gauge "network_topology_last_scrape_duration_seconds" []
  | TopologyLastScrapeSamplesTotal => Some $ mkOpts Gauge "network_topology_last_scrape_samples_total" []
  | FDBSuppressedMACs => Some $ mkOpts Counter "network_topology_fdb_suppressed_macs_total" []
  | GoRoutines => Some $ mkOpts Gauge "network_topology_goroutines" []
  | SnapshotQueueDepth => Some $ mkOpts Gauge "network_topology_snapshot_queue_depth" []
  | SnapshotDropsTotal => Some $ mkOpts Counter "network_topology_snapshot_drops_total" ["reason"]
  | CycleBudgetSkipsTotal => Some $ mkOpts Counter "network_topology_cycle_budget_skips_total" []
  | AdminRediscoveryTotal => Some $ mkOpts Counter "network_topology_admin_rediscovery_total" ["outcome"]
  | MetricsRenderDuration => Some $ mkOpts (Histogram 1 2 16) "network_topology_metrics_render_duration_seconds" []
  | BGPWalkerOutcomeTotal => Some $ mkOpts Counter "network_topology_bgp_walker_outcome_total" ["walker"; "outcome"]
  | WalkerOutcomeTotal => Some $ mkOpts Counter "network_topology_walker_outcome_total" ["walker"; "outcome"]
  | SystemWalkAnomalyTotal => Some $ mkOpts Counter "network_topology_system_walk_anomaly_total" ["reason"]
  | PanicsRecoveredTotal => Some $ mkOpts Counter "network_topology_panics_total" ["site"]
  | MetricsPayloadBytes => Some $ mkOpts (Histogram 1024000 4 9) "network_topology_metrics_payload_bytes" []
  end.

Definition registered : list metric :=
  [Topology; TopologyChangeTotal; TopologyConflictTotal; GraphStale; SnapshotLastWrittenUnix;
   SnapshotLoadedDevicesTotal; DiscoveryDevicesTotal; DiscoveryCycleDuration; DiscoveryModuleDuration;
   SNMPWalksTotal; SNMPRateLimitWaitSeconds; SNMPSessionPoolSize; SNMPSessionPoolHits; SNMPSessionPoolMisses;
   SNMPSessionPoolEvictions; DiscoveryDecodeIssues; DiscoveryQuarantinedRowsTotal; DiscoveryDegradedTotal;
   DiscoveryHardFailTotal; ModuleLastStatus; CredentialTrialsTotal; OTLPPushTotal; FederationSpokeUp;
   FederationSpokeLastPushUnix; FederationSpokePushFailuresTotal; FederationSpokePushLastSuccessUnix;
   FederationSpokePushDropsTotal; FederationSpokePushQueueDepth; GraphUpdatesRejectedTotal;
   HubOOSUnmatchedTotal; TopologyLastScrapeDurationSeconds; TopologyLastScrapeSamplesTotal; FDBSuppressedMACs;
   GoRoutines; SnapshotQueueDepth; SnapshotDropsTotal; CycleBudgetSkipsTotal; AdminRediscoveryTotal;
   MetricsRenderDuration; MetricsPayloadBytes; BGPWalkerOutcomeTotal; WalkerOutcomeTotal;
   SystemWalkAnomalyTotal; PanicsRecoveredTotal].

(** The descriptions of the topology collector. *)
Definition topology_descs : list (string * list string) := (λ d, (de_name d, de_labels d)) <$> Collector.Describe.

Definition Describe (m : metric) : list (string * list string) :=
  match opts_of m with
  | None => topology_descs
  | Some o => [(op_name o, op_labels o)]
  end.

Definition label_names (m : metric) : list string := match opts_of m with None => [] | Some o => op_labels o end.

(** ** The registry of the client library *)

(** A name the library accepts in any mode; a label may not be reserved. *)
Definition valid_metric_name (n : string) : bool := labelKeyPattern n.
Definition valid_label_name (n : string) : bool := labelKeyPattern n && negb (HasPrefix n "__").

Definition valid_desc (d : string * list string) : bool :=
  valid_metric_name d.1 && forallb valid_label_name d.2 && bool_decide (NoDup d.2).

(** Building a histogram panics on bad buckets or on a label the exposition format uses. *)
Definition constructible (o : opts) : bool :=
  match op_kind o with
  | Histogram start factor count =>
      (0 <? start) && (1 <? factor) && (1 <=? count)%nat && negb (bool_decide ("le" ∈ op_labels o))
  | _ => true
  end.

(** [Register]: the names taken so far, and those of a collector's descriptions. *)
Definition Register (taken : list string) (descs : list (string * list string)) : option (list string) :=
  if forallb valid_desc descs && bool_decide (NoDup descs.*1) && forallb (λ d, negb (bool_decide (d.1 ∈ taken))) descs
  then Some (taken ++ descs.*1) else None.

Fixpoint MustRegister (taken : list string) (cs : list (list (string * list string))) : option (list string) :=
  match cs with
  | [] => Some taken
  | c :: cs' => Register taken c ≫= λ taken', MustRegister taken' cs'
  end.

(** The Go and process collectors of the client library: documented to use these prefixes. *)
Class RuntimeCollectors := {
  go_descs : list (string * list string);
  process_descs : list (string * list string);
  runtime_registers : is_Some (MustRegister [] [go_descs; process_descs]);
  runtime_prefix : ∀ d, d ∈ go_descs ++ process_descs → HasPrefix d.1 "go_" = true ∨ HasPrefix d.1 "process_" = true
}.

(** [None] is a panic. *)
Definition New `{RuntimeCollectors} : option (list string) :=
  if forallb (λ m, from_option constructible true (opts_of m)) registered
  then MustRegister [] (go_descs :: process_descs :: (Describe <$> registered)) else None.
End Registration.

(** ** What the components count *)

Import Metrics.
Definition emission : Type := metric * list string.

(** The adapters (walker_metrics_adapter.go, session_pool_metrics_adapter.go). *)
Definition RecordWalkerOutcome (walker outcome : string) : emission := (BGPWalkerOutcomeTotal, [walker; outcome]).
Definition RecordProtocolWalkerOutcome (walker outcome : string) : emission := (WalkerOutcomeTotal, [walker; outcome]).
Definition RecordDegraded (module reason : string) : emission := (DiscoveryDegradedTotal, [module; reason]).
Definition RecordSystemWalkAnomaly (reason : string) : emission := (SystemWalkAnomalyTotal, [reason]).

Definition pool_emission (p : pool_metric) : emission :=
  match p with
  | RecordHit => (SNMPSessionPoolHits, [])
  | RecordMiss => (SNMPSessionPoolMisses, [])
  | SetSize _ => (SNMPSessionPoolSize, [])
  | RecordEviction reason => (SNMPSessionPoolEvictions, [reason])
  end.

(** The reporters probe_target.go installs, and what walkModules counts. *)
Definition walk_emissions (ev : walk_event) : list emission :=
  match ev with
  | EvDecodeIssue i => [(DiscoveryDecodeIssues, [di_Module i; di_OID i; di_Reason i]);
                        (DiscoveryQuarantinedRowsTotal, [di_Module i; di_OID i; di_Reason i])]
  | EvProtocolOutcome walker outcome => [RecordProtocolWalkerOutcome walker outcome]
  | EvBGPOutcome walker outcome => [RecordWalkerOutcome walker outcome]
  | EvDegraded module reason => [RecordDegraded module reason]
  | EvPanic site => [(PanicsRecoveredTotal, [site])]
  | EvWarn _ | EvRelease _ => []
  end.

Definition transport_emissions (ev : transport_event) : list emission :=
  match ev with
  | TePanic site => [(PanicsRecoveredTotal, [site])]
  | TeRateWait _ => [(SNMPRateLimitWaitSeconds, [])]
  | TeInterrupt => []
  end.

Definition module_emission (m : walk_metric) : emission :=
  match m with
  | DeviceWalk.DiscoveryHardFailTotal proto reason => (DiscoveryHardFailTotal, [proto; reason])
  | DeviceWalk.SNMPWalksTotal status reason => (SNMPWalksTotal, [status; reason])
  | DeviceWalk.DiscoveryDegradedTotal proto reason => (DiscoveryDegradedTotal, [proto; reason])
  | DeviceWalk.CredentialTrialsTotal status => (CredentialTrialsTotal, [status])
  end.

(** The publishing part of a cycle. *)
Definition loop_emissions (a : action) : list emission :=
  match a with
  | GraphUpdateRejected => [(GraphUpdatesRejectedTotal, [RejectReason_String RejectReasonSizeBudgetExceeded])]
  | CountChange kind proto => [(TopologyChangeTotal, [ChangeKind_String kind; proto])]
  | CountConflict c => [(TopologyConflictTotal, [c_Kind c])]
  | SetGraphStale _ => [(GraphStale, [])]
  | ObserveCycleDuration => [(DiscoveryCycleDuration, [])]
  | SnapshotDropped => [(SnapshotDropsTotal, ["queue_full"])]
  | _ => []
  end.

(** Push outcomes: a status with its reason. *)
Definition otlp_emission (o : string * string) : emission := (OTLPPushTotal, [o.1; o.2]).

(** ** Lemmas *)

#[export] Instance metric_eq : EqDecision metric.
Proof. solve_decision. Defined.

Lemma Register_some taken descs taken' :
  Register taken descs = Some taken' ↔
  (∀ d, d ∈ descs → valid_desc d = true) ∧ NoDup descs.*1 ∧ (∀ d, d ∈ descs → d.1 ∉ taken) ∧ taken' = taken ++ descs.*1.
Proof.
  unfold Register.
  assert (forallb valid_desc descs && bool_decide (NoDup descs.*1) && forallb (λ d, negb (bool_decide (d.1 ∈ taken))) descs = true ↔
    (∀ d, d ∈ descs → valid_desc d = true) ∧ NoDup descs.*1 ∧ (∀ d, d ∈ descs → d.1 ∉ taken)) as Hc.
  { rewrite !andb_true_iff, !forallb_elem, bool_decide_eq_true. setoid_rewrite negb_true_iff.
    setoid_rewrite bool_decide_eq_false. tauto. }
  destruct (_ && _ && _); [|naive_solver]. destruct Hc as [Hc _]. specialize (Hc eq_refl). naive_solver.
Qed.

(** What two groups of collectors with different names do after each other. *)
Lemma MustRegister_shift t0 cs t t' :
  MustRegister t cs = Some t' → (∀ c d, c ∈ cs → d ∈ c → d.1 ∉ t0) → MustRegister (t0 ++ t) cs = Some (t0 ++ t').
Proof.
  revert t. induction cs as [|c cs IH]; intros t; cbn; [by intros [= <-]|].
  rewrite bind_Some. intros (t1 & Hr & Hcs) Hd. apply Register_some in Hr as (Hv & Hn & Hnt & ->).
  assert (Register (t0 ++ t) c = Some (t0 ++ t ++ c.*1)) as ->.
  { apply Register_some. split_and!; [done..| |by rewrite app_assoc]. intros d Hin. rewrite elem_of_app.
    intros [Hin0|Hin1]; [eapply Hd; [left|..]; done|by eapply Hnt]. }
  cbn. apply IH; [done|]. intros c' d' Hc'. apply Hd. by right.
Qed.

Lemma MustRegister_app t cs1 cs2 : MustRegister t (cs1 ++ cs2) = MustRegister t cs1 ≫= λ t', MustRegister t' cs2.
Proof. revert t. induction cs1 as [|c cs1 IH]; intros t; cbn; [done|]. destruct (Register t c); cbn; [apply IH|done]. Qed.

Lemma MustRegister_names t cs t' : MustRegister t cs = Some t' → t' = t ++ (mjoin cs).*1.
Proof.
  revert t. induction cs as [|c cs IH]; intros t; cbn; [intros [= <-]; by rewrite app_nil_r|].
  rewrite bind_Some. intros (t1 & Hr & ->%IH). apply Register_some in Hr as (_ & _ & _ & ->).
  by rewrite fmap_app, app_assoc.
Qed.

Lemma MustRegister_NoDup t cs t' : MustRegister t cs = Some t' → NoDup t → NoDup t'.
Proof.
  revert t. induction cs as [|c cs IH]; intros t; cbn; [by intros [= <-]|].
  rewrite bind_Some. intros (t1 & (_ & Hn & Hd & ->)%Register_some & Hcs) Ht. eapply IH; [exact Hcs|].
  apply NoDup_app. split_and!; [done| |done]. intros n Hin Hc. apply list_elem_of_fmap in Hc as (d & -> & Hd'). by eapply Hd.
Qed.

Definition own_names : list string := (mjoin (Describe <$> registered)).*1.

Lemma own_register : MustRegister [] (Describe <$> registered) = Some own_names.
Proof. vm_compute. reflexivity. Qed.

Lemma own_prefix n : n ∈ own_names → HasPrefix n "network_topology_" = true.
Proof.
  assert (forallb (λ n, HasPrefix n "network_topology_") own_names = true) as H by (vm_compute; reflexivity).
  intros Hin%list_elem_of_In. rewrite forallb_forall in H. by apply H.
Qed.

Lemma metric_registered m : m ∈ registered.
Proof. destruct m; apply (bool_decide_unpack _); vm_compute; exact I. Qed.

Lemma prefix_clash n : HasPrefix n "network_topology_" = true →
  HasPrefix n "go_" = true ∨ HasPrefix n "process_" = true → False.
Proof.
  destruct n as [|b n]; cbn [HasPrefix]; [done|]. destruct (Ascii.eqb_spec "n"%char b) as [<-|]; [|done]. intros _ [Hc|Hc]; discriminate Hc.
Qed.

(** ** Claims *)

(** building the metric set never panics, in either mode and beside any runtime
    collectors that keep to their prefixes.  Every histogram has usable buckets, every name
    and label name is valid and the labels of a metric differ, no name is registered twice,
    and every metric of the set is registered, under the exporter's prefix. *)
Theorem metrics_register `{RuntimeCollectors} :
  ∃ taken, New = Some taken ∧ NoDup taken ∧
    (∀ m d, d ∈ Describe m → d.1 ∈ taken ∧ HasPrefix d.1 "network_topology_" = true ∧ valid_desc d = true).
Proof.
  unfold New. assert (forallb (λ m, from_option constructible true (opts_of m)) registered = true) as -> by (vm_compute; reflexivity).
  destruct runtime_registers as [t0 Ht0].
  change (go_descs :: process_descs :: ?l) with ([go_descs; process_descs] ++ l).
  rewrite MustRegister_app, Ht0. cbn [mbind option_bind].
  pose proof (MustRegister_names _ _ _ Ht0) as Hn. cbn in Hn. rewrite app_nil_r in Hn.
  assert (∀ n, n ∈ t0 → n ∉ own_names) as Hdis.
  { intros n Hin Hown%own_prefix. eapply prefix_clash; [done|]. rewrite Hn in Hin.
    apply list_elem_of_fmap in Hin as (d & -> & Hd). by apply runtime_prefix. }
  assert (∀ c d, c ∈ (Describe <$> registered) → d ∈ c → d.1 ∈ own_names) as Hown.
  { intros c d Hc Hd. apply list_elem_of_fmap. exists d. split; [done|]. apply list_elem_of_join. eauto. }
  pose proof (MustRegister_shift t0 _ _ _ own_register (λ c d Hc Hd Hin, Hdis _ Hin (Hown c d Hc Hd))) as Hr.
  rewrite app_nil_r in Hr. eexists. split; [exact Hr|]. split.
  - eapply MustRegister_NoDup; [exact Hr|]. eapply MustRegister_NoDup; [exact Ht0|constructor].
  - intros m d Hd. assert (d.1 ∈ own_names) as Hin.
    { eapply Hown; [|exact Hd]. apply list_elem_of_fmap. exists m. split; [done|apply metric_registered]. }
    split_and!; [apply elem_of_app; by right|by apply own_prefix|].
    assert (forallb (λ m, forallb valid_desc (Describe m)) registered = true) as Hv by (vm_compute; reflexivity).
    rewrite forallb_elem in Hv. specialize (Hv m (metric_registered m)). rewrite forallb_elem in Hv. by apply Hv.
Qed.

(** A library with the first runtime metrics of each kind. *)
#[refine] Definition some_runtime : RuntimeCollectors := {|
  go_descs := [("go_goroutines", []); ("go_info", ["version"])];
  process_descs := [("process_cpu_seconds_total", [])]
|}.
Proof.
  - eexists. vm_compute. reflexivity.
  - cbn. intros d Hd. repeat (apply elem_of_cons in Hd as [->|Hd]; [vm_compute; auto|]). by apply elem_of_nil in Hd.
Defined.

Example runtime_beside_own : ∃ taken, New (H := some_runtime) = Some ("go_goroutines" :: taken).
Proof. eexists. vm_compute. reflexivity. Qed.

(** Beside one collector of each kind. *)
Lemma metrics_register_witness :
  ∃ taken, New (H := some_runtime) = Some taken ∧ "network_topology_graph_stale" ∈ taken.
Proof.
  destruct (@metrics_register some_runtime) as (taken & Hn & _ & Hd). exists taken. split; [exact Hn|].
  apply (Hd GraphStale ("network_topology_graph_stale", [])). vm_compute. left.
Defined.

(** A value that lands on a metric with as many label values as it has labels. *)
Definition lands (e : emission) : Prop := e.1 ∈ registered ∧ length e.2 = length (label_names e.1).

(** no series is counted with the wrong number of label values, so no counter
    panics for that: whatever the walkers, the transport, the session pool, the modules, the
    publishing of a cycle and the OTLP publisher report lands on a registered metric, and
    every series of a scrape has a description of its name with as many labels. *)
Theorem emissions_match `{PrintTable} (ev : walk_event) (tv : transport_event) (pm : pool_metric) (wm : walk_metric)
    (a : action) (o : string * string) (reason : string) (b : bool) (g : Graph) :
  Forall lands (walk_emissions ev) ∧ Forall lands (transport_emissions tv) ∧ lands (pool_emission pm) ∧
  lands (module_emission wm) ∧ Forall lands (loop_emissions a) ∧ lands (otlp_emission o) ∧
  lands (RecordSystemWalkAnomaly reason) ∧
  (∀ s, s ∈ scrape b g → ∃ labels, (se_name s, labels) ∈ topology_descs ∧ length (se_labels s) = length labels).
Proof.
  assert (∀ e, length e.2 = length (label_names e.1) → lands e) as Hl by (split; [apply metric_registered|done]).
  split_and!.
  - destruct ev; cbn; repeat (apply Forall_cons; split); try apply Forall_nil_2; by apply Hl.
  - destruct tv; cbn; repeat (apply Forall_cons; split); try apply Forall_nil_2; by apply Hl.
  - destruct pm; by apply Hl.
  - destruct wm; by apply Hl.
  - destruct a; cbn; repeat (apply Forall_cons; split); try apply Forall_nil_2; by apply Hl.
  - by apply Hl.
  - by apply Hl.
  - intros s Hs. destruct (scrape_series _ _ _ Hs) as (Hd & Hlen & _). exists (de_labels (se_desc s)). split; [|done].
    unfold topology_descs. apply list_elem_of_fmap. by exists (se_desc s).
Qed.

(** The panic sites the comment on the counter lists; the transport reports another. *)
Definition documented_sites : list string :=
  ["discovery_loop"; "snapshot_writer"; "spoke_pusher"; "otlp_push"; "hub_serve"; "hub_rebuild"; "hub_eviction";
   "hub_snapshot_writer"; "hub_elector"; "fdb_vlan_walk"; "stale_watchdog"].

Example undocumented_site : ∃ site, panic_events true = [TePanic site] ∧ site ∉ documented_sites.
Proof. eexists. split; [reflexivity|]. apply (bool_decide_unpack _). vm_compute. exact I. Qed.
