(* ===== verification/Agent.v ===== *)
(** * internal/snmptest/agent.go: the SNMP agent of the tests

    The agent that serves captured tables to the walkers' tests: the order of OIDs, the two
    lookups by binary search, the handlers of the three requests, and the dispatch by
    community.  A string position is the suffix that starts there.  The wire format and the
    socket (gosnmp, net) are not part of the model: a request is its decoded packet, a reply
    the variables that are sent. *)

From Stdlib Require Import ZArith Lia Ascii.
From S2P Require Import Prelude GoText Discovery Pdu NetAddr Walker Bgp.
Open Scope Z_scope.

(** ** Variables *)

Inductive Asn1BER :=
  | Integer | OctetString | ObjectIdentifier | IPAddress | Counter32 | Gauge32 | TimeTicks | Counter64
  | NoSuchObject | EndOfMibView.

#[export] Instance Asn1BER_eq_dec : EqDecision Asn1BER.
Proof. solve_decision. Defined.

#[export] Instance pdu_value_eq_dec : EqDecision pdu_value.
Proof. solve_decision. Defined.

(** A variable with its type tag. *)
Record variable := mkVariable { Name : string; Type_ : Asn1BER; Value : pdu_value }.

#[export] Instance variable_eq_dec : EqDecision variable.
Proof. solve_decision. Defined.

(** ** The order of OIDs *)

Definition componentOverflow : Z := MaxInt.

(** The loop of [nextComponent] over one component; [overflow] as in the code. *)
Fixpoint component_from (v : Z) (overflow : bool) (s : string) : Z * string :=
  match s with
  | EmptyString => (v, "")
  | String c s' =>
      if Ascii.eqb c "." then (v, s')
      else match digit_val c with
           | None => component_from v overflow s'
           | Some d =>
               if overflow then component_from v overflow s'
               else if (MaxInt - d) / 10 <? v then component_from componentOverflow true s'
               else component_from (v * 10 + d) false s'
           end
  end.

Definition nextComponent (s : string) : Z * string := component_from 0 false s.

Definition strip_dot (s : string) : string :=
  match s with String c s' => if Ascii.eqb c "." then s' else s | EmptyString => s end.

(** The comparison loop; every turn takes at least one byte of each string. *)
Fixpoint oid_compare (fuel : nat) (a b : string) : bool :=
  match fuel with
  | O => false
  | S fuel' =>
      if bool_decide (a ≠ "") && bool_decide (b ≠ "") then
        let '(av, an) := nextComponent a in
        let '(bv, bn) := nextComponent b in
        if av =? bv then oid_compare fuel' an bn else av <? bv
      else bool_decide (b ≠ "")
  end.

Definition oidLess (a b : string) : bool := oid_compare (S (slen a)) (strip_dot a) (strip_dot b).

(** ** Lookups *)

(** [sort.Search]: the half-open interval shrinks in every turn. *)
Fixpoint search_from (fuel : nat) (f : nat → bool) (i j : nat) : nat :=
  match fuel with
  | O => i
  | S fuel' =>
      if (i <? j)%nat then
        let h := ((i + j) / 2)%nat in
        if f h then search_from fuel' f i h else search_from fuel' f (S h) j
      else i
  end.

Definition sort_Search (n : nat) (f : nat → bool) : nat := search_from n f 0 n.

Definition name_at (pdus : list variable) (i : nat) : string := from_option Name "" (pdus !! i).

Definition exactLookup (pdus : list variable) (name : string) : option variable :=
  let i := sort_Search (length pdus) (λ i, negb (oidLess (name_at pdus i) name)) in
  match pdus !! i with
  | Some p => if bool_decide (Name p = name) then Some p else None
  | None => None
  end.

Definition nextLookup (pdus : list variable) (name : string) : option variable :=
  pdus !! sort_Search (length pdus) (λ i, oidLess name (name_at pdus i)).

(** ** Handlers *)

Definition defaultMaxRepetitions : Z := 50.
Definition maxBulkRepetitions : Z := 1000.

Definition absent (t : Asn1BER) (name : string) : variable := mkVariable name t VOther.

Definition handleGet (pdus vars : list variable) : list variable :=
  (λ v, default (absent NoSuchObject (Name v)) (exactLookup pdus (Name v))) <$> vars.

Definition next_or_end (pdus : list variable) (v : variable) : variable :=
  default (absent EndOfMibView (Name v)) (nextLookup pdus (Name v)).

Definition handleGetNext (pdus vars : list variable) : list variable := next_or_end pdus <$> vars.

Definition clampReps (maxReps : Z) : Z :=
  let maxReps := if maxReps =? 0 then defaultMaxRepetitions else maxReps in
  if (maxReps <? 0) || (maxBulkRepetitions <? maxReps) then maxBulkRepetitions else maxReps.

(** One repeater. *)
Fixpoint repeat_next (pdus : list variable) (reps : nat) (cur : string) : list variable :=
  match reps with
  | O => []
  | S reps' =>
      match nextLookup pdus cur with
      | None => [absent EndOfMibView cur]
      | Some p => p :: repeat_next pdus reps' (Name p)
      end
  end.

(** A slice [vars[:nr]] with a negative bound panics; the decoder's count is unsigned. *)
Definition handleBulk (pdus vars : list variable) (nonRepeaters : nat) (maxReps : Z) : list variable :=
  let reps := Z.to_nat (clampReps maxReps) in
  let nr := Nat.min nonRepeaters (length vars) in
  (next_or_end pdus <$> take nr vars) ++ (drop nr vars ≫= λ v, repeat_next pdus reps (Name v)).

(** ** Requests *)

Inductive pdu_type := GetRequest | GetNextRequest | GetBulkRequest | OtherRequest.

Record packet := mkPacket {
  pk_Community : string;
  pk_Type : pdu_type;
  pk_RequestID : Z;
  pk_Variables : list variable;
  pk_NonRepeaters : nat;
  pk_MaxRepetitions : Z
}.

(** [None] is the nil slice, after which nothing is sent.  The bulk handler starts from a
    nil slice and returns it when it appended nothing. *)
Definition dispatchPDU (pdus : list variable) (pkt : packet) : option (list variable) :=
  match pk_Type pkt with
  | GetRequest => Some (handleGet pdus (pk_Variables pkt))
  | GetNextRequest => Some (handleGetNext pdus (pk_Variables pkt))
  | GetBulkRequest =>
      let resp := handleBulk pdus (pk_Variables pkt) (pk_NonRepeaters pkt) (pk_MaxRepetitions pkt) in
      if bool_decide (resp = []) then None else Some resp
  | OtherRequest => None
  end.

Record reply := mkReply { rp_Community : string; rp_RequestID : Z; rp_Variables : list variable }.

(** One turn of [serve]: what is sent for a datagram, which may not decode. *)
Definition serve_one (community : string) (pdus : list variable) (datagram : option packet) : option reply :=
  pkt ← datagram;
  if bool_decide (pk_Community pkt = community) then
    resp ← dispatchPDU pdus pkt; Some (mkReply community (pk_RequestID pkt) resp)
  else None.

(** One turn of [serveMulti]. *)
Definition serveMulti_one (communities : gmap string (list variable)) (datagram : option packet) : option reply :=
  pkt ← datagram;
  pdus ← communities !! pk_Community pkt;
  resp ← dispatchPDU pdus pkt;
  Some (mkReply (pk_Community pkt) (pk_RequestID pkt) resp).

(** What [Start] serves: the variables sorted by OID. *)
Definition oid_le (a b : variable) : bool := negb (oidLess (Name b) (Name a)).
Definition sorted_pdus (pdus : list variable) : list variable := sort_by oid_le pdus.

(** ** The reference order: lists of components, compared from the left *)

Fixpoint components_from (fuel : nat) (s : string) : list Z :=
  match fuel with
  | O => []
  | S fuel' =>
      if bool_decide (s ≠ "") then let '(v, r) := nextComponent s in v :: components_from fuel' r else []
  end.

Definition components (oid : string) : list Z := components_from (slen oid) (strip_dot oid).

Fixpoint lex_less (a b : list Z) : bool :=
  match a, b with
  | x :: a', y :: b' => if x =? y then lex_less a' b' else x <? y
  | [], _ :: _ => true
  | _, [] => false
  end.

(** ** Lemmas: the order *)

Lemma component_shorter v o s : (slen (component_from v o s).2 ≤ slen s)%nat.
Proof.
  revert v o. induction s as [|c s IH]; intros v o; cbn; [done|]. destruct (Ascii.eqb c "."); [cbn; lia|].
  destruct (digit_val c); repeat case_match; apply le_S, IH.
Qed.

Lemma nextComponent_shorter s : s ≠ "" → (slen (nextComponent s).2 < slen s)%nat.
Proof.
  destruct s as [|c s]; [done|]. intros _. unfold nextComponent. cbn. destruct (Ascii.eqb c "."); [cbn; lia|].
  destruct (digit_val c); repeat case_match; apply Nat.lt_succ_r, component_shorter.
Qed.

Lemma components_enough n1 n2 s : (slen s ≤ n1)%nat → (slen s ≤ n2)%nat → components_from n1 s = components_from n2 s.
Proof.
  revert n2 s. induction n1 as [|n1 IH]; intros [|n2] s H1 H2; cbn; try done.
  - destruct s; unfold slen in *; cbn in *; [done|lia].
  - destruct s; unfold slen in *; cbn in *; [done|lia].
  - case_bool_decide as Hs; [|done]. pose proof (nextComponent_shorter s Hs). destruct (nextComponent s) as [v r]. cbn [snd] in *.
    f_equal. apply IH; lia.
Qed.

Lemma compare_lex n a b :
  (slen a < n)%nat → oid_compare n a b = lex_less (components_from (slen a) a) (components_from (slen b) b).
Proof.
  revert a b. induction n as [|n IH]; intros a b Hn; [lia|]. cbn [oid_compare].
  assert (∀ s, s ≠ "" → components_from (slen s) s =
    (nextComponent s).1 :: components_from (slen (nextComponent s).2) (nextComponent s).2) as Hc.
  { intros s Hs. pose proof (nextComponent_shorter s Hs) as Hl. destruct (slen s) as [|k] eqn:Hk; [lia|]. cbn [components_from].
    rewrite bool_decide_eq_true_2 by done. destruct (nextComponent s) as [v r]. cbn [fst snd] in *. f_equal.
    apply components_enough; lia. }
  case_bool_decide as Ha; cbn [andb].
  - rewrite (Hc a Ha). case_bool_decide as Hb; cbn [andb].
    + rewrite (Hc b Hb). pose proof (nextComponent_shorter a Ha). destruct (nextComponent a) as [av an], (nextComponent b) as [bv bn].
      cbn [fst snd lex_less] in *. destruct (av =? bv); [|done]. apply IH. lia.
    + destruct b; done.
  - destruct a; [|done]. destruct b as [|c b]; [done|]. rewrite (Hc (String c b)) by done. done.
Qed.

Lemma strip_dot_length s : (slen (strip_dot s) ≤ slen s)%nat.
Proof. unfold slen. destruct s as [|c s]; cbn; [done|]. destruct (Ascii.eqb c "."); cbn; lia. Qed.

Lemma oidLess_lex a b : oidLess a b = lex_less (components a) (components b).
Proof.
  unfold oidLess, components. pose proof (strip_dot_length a). pose proof (strip_dot_length b).
  rewrite compare_lex by lia. f_equal; apply components_enough; done.
Qed.

Lemma lex_irrefl a : lex_less a a = false.
Proof. induction a as [|x a IH]; cbn; [done|]. by rewrite Z.eqb_refl. Qed.

Lemma lex_trans a b c : lex_less a b = true → lex_less b c = true → lex_less a c = true.
Proof.
  revert b c. induction a as [|x a IH]; intros [|y b] [|z c]; cbn; try done.
  destruct (Z.eqb_spec x y), (Z.eqb_spec y z), (Z.eqb_spec x z); subst; rewrite ?Z.ltb_lt; try lia; eauto.
Qed.

Lemma lex_total a b : lex_less a b = false → lex_less b a = false → a = b.
Proof.
  revert b. induction a as [|x a IH]; intros [|y b]; cbn; try done.
  rewrite (Z.eqb_sym y x). destruct (Z.eqb_spec x y) as [->|]; [|rewrite !Z.ltb_ge; lia]. intros. f_equal. by apply IH.
Qed.

Lemma lex_le_lt a b c : lex_less a b = true → lex_less c b = false → lex_less a c = true.
Proof.
  intros H1 H2. destruct (lex_less a c) eqn:H3; [done|]. destruct (lex_less b c) eqn:H4.
  - by rewrite (lex_trans _ _ _ H1 H4) in H3.
  - rewrite (lex_total b c H4 H2) in H1. congruence.
Qed.

Lemma lex_lt_asym a b : lex_less a b = true → lex_less b a = false.
Proof. intros H. destruct (lex_less b a) eqn:E; [|done]. by rewrite <- (lex_irrefl a), (lex_trans _ _ _ H E). Qed.

(** *** What a component is worth *)

(** The digits up to the dot as one number, everything else skipped. *)
Fixpoint digits_value (acc : Z) (s : string) : Z :=
  match s with
  | EmptyString => acc
  | String c s' =>
      if Ascii.eqb c "." then acc
      else match digit_val c with None => digits_value acc s' | Some d => digits_value (acc * 10 + d) s' end
  end.

Lemma digit_range c d : digit_val c = Some d → 0 ≤ d ≤ 9.
Proof. unfold digit_val, in_range. case_match eqn:E; [|done]. intros [= <-]. bprop. lia. Qed.

Lemma digits_value_ge acc s : 0 ≤ acc → acc ≤ digits_value acc s.
Proof.
  revert acc. induction s as [|c s IH]; intros acc Ha; cbn; [done|]. destruct (Ascii.eqb c "."); [done|].
  destruct (digit_val c) as [d|] eqn:Hd; [|by apply IH]. apply digit_range in Hd. specialize (IH (acc * 10 + d)). lia.
Qed.

Lemma component_saturated v s : (component_from v true s).1 = v.
Proof. induction s as [|c s IH]; cbn; [done|]. destruct (Ascii.eqb c "."); [done|]. by destruct (digit_val c). Qed.

Lemma component_clamped acc s : 0 ≤ acc ≤ MaxInt → (component_from acc false s).1 = Z.min MaxInt (digits_value acc s).
Proof.
  revert acc. induction s as [|c s IH]; intros acc Ha; cbn; [lia|]. destruct (Ascii.eqb c "."); [cbn; lia|].
  destruct (digit_val c) as [d|] eqn:Hd; [|by apply IH]. apply digit_range in Hd.
  destruct (Z.ltb_spec ((MaxInt - d) / 10) acc) as [Ho|Ho].
  - rewrite component_saturated. pose proof (digits_value_ge (acc * 10 + d) s ltac:(lia)).
    assert (MaxInt < acc * 10 + d); [|unfold componentOverflow; lia].
    pose proof (Z.mod_pos_bound (MaxInt - d) 10 ltac:(lia)). pose proof (Z.div_mod (MaxInt - d) 10 ltac:(lia)). lia.
  - apply IH. pose proof (Z.mul_div_le (MaxInt - d) 10 ltac:(lia)). lia.
Qed.

Lemma component_number acc s w r :
  parse_digits acc s = Some w → 0 ≤ acc → w ≤ MaxInt → component_from acc false (s +:+ r) = component_from w false r.
Proof.
  revert acc. induction s as [|c s IH]; intros acc; cbn [parse_digits]; [intros [= <-]; done|].
  destruct (digit_val c) as [d|] eqn:Hd; [|done]. intros Hp Ha Hw. rewrite sapp_cons. cbn [component_from].
  rewrite Hd. destruct (Ascii.eqb_spec c ".") as [->|_]; [by vm_compute in Hd|]. apply digit_range in Hd.
  assert (acc * 10 + d ≤ w) as Hle.
  { clear IH Hw. assert (0 ≤ acc * 10 + d) as Hpos by lia. revert Hp Hpos. generalize (acc * 10 + d). clear.
    induction s as [|c s IH]; intros z; cbn; [naive_solver lia|]. destruct (digit_val c) as [d|] eqn:Hd; [|done].
    apply digit_range in Hd. intros Hp Hz. specialize (IH _ Hp). lia. }
  destruct (Z.ltb_spec ((MaxInt - d) / 10) acc) as [Ho|_]; [|apply IH; [done|lia|done]].
  pose proof (Z.mod_pos_bound (MaxInt - d) 10 ltac:(lia)). pose proof (Z.div_mod (MaxInt - d) 10 ltac:(lia)). lia.
Qed.

Lemma components_dotted n l :
  Forall (λ z, 0 ≤ z ≤ MaxInt) l → (slen (dotted l) ≤ n)%nat → components_from n (dotted l) = l.
Proof.
  intros Hl. revert n. induction Hl as [|z l Hz Hl IH]; intros n Hn; [by destruct n|].
  assert (dotted (z :: l) ≠ "") as Hne.
  { unfold dotted. cbn [fmap list_fmap strings_Join]. pose proof (Itoa_nonempty z). destruct (Itoa z), (Itoa <$> l); done. }
  rewrite (components_enough n (slen (dotted (z :: l)))) by done.
  pose proof (nextComponent_shorter _ Hne) as Hs.
  assert (nextComponent (dotted (z :: l)) = (z, dotted l)) as Hc.
  { unfold nextComponent, dotted. cbn [fmap list_fmap strings_Join]. destruct l as [|y l]; cbn [fmap list_fmap].
    - rewrite <- (sapp_nil_r (Itoa z)). by erewrite component_number by (apply Itoa_digits || lia; lia).
    - by erewrite component_number by (apply Itoa_digits || lia; lia). }
  destruct (slen (dotted (z :: l))) as [|k]; [lia|]. cbn [components_from]. rewrite bool_decide_eq_true_2, Hc by done.
  rewrite Hc in Hs. cbn [snd] in Hs. f_equal. apply IH. lia.
Qed.

(** *** Binary search *)

Lemma search_from_spec n f fuel i j :
  (j - i ≤ fuel)%nat → (i ≤ j ≤ n)%nat →
  (∀ a b, (a ≤ b < n)%nat → f a = true → f b = true) →
  (∀ k, (k < i)%nat → f k = false) → (∀ k, (j ≤ k < n)%nat → f k = true) →
  let r := search_from fuel f i j in
  (r ≤ n)%nat ∧ (∀ k, (k < r)%nat → f k = false) ∧ (∀ k, (r ≤ k < n)%nat → f k = true).
Proof.
  intros Hf Hij Hm Hlo Hhi. revert i j Hf Hij Hlo Hhi. induction fuel as [|fuel IH]; intros i j Hf Hij Hlo Hhi; cbn [search_from].
  { assert (i = j) as -> by lia. split_and!; [lia|done|done]. }
  destruct (Nat.ltb_spec i j) as [Hlt|]; [|assert (i = j) as -> by lia; split_and!; [lia|done|done]].
  assert (i ≤ (i + j) / 2 < j)%nat as Hh by (split; [apply Nat.div_le_lower_bound; lia|apply Nat.div_lt_upper_bound; lia]).
  set (h := ((i + j) / 2)%nat) in *. clearbody h. destruct (f h) eqn:Hfh.
  - apply IH; [lia|lia|done|]. intros k Hk. destruct (decide (j ≤ k)%nat); [apply Hhi; lia|]. apply (Hm h); [lia|done].
  - apply IH; [lia|lia| |done]. intros k Hk. destruct (f k) eqn:Hfk; [|done]. rewrite <- Hfh. symmetry. apply (Hm k); [lia|done].
Qed.

(** The search over a list whose test is monotone along it finds what a scan finds. *)
Lemma search_scan {A} (p : A → bool) (l : list A) f :
  (∀ i x, l !! i = Some x → f i = p x) →
  (∀ i j x y, (i ≤ j)%nat → l !! i = Some x → l !! j = Some y → p x = true → p y = true) →
  l !! sort_Search (length l) f = find_first p l.
Proof.
  intros Hf Hm. unfold sort_Search.
  destruct (search_from_spec (length l) f (length l) 0 (length l)) as (Hr & Hlo & Hhi); [lia|lia| |intros; lia|intros; lia|].
  { intros a b Hab Ha. destruct (lookup_lt_is_Some_2 l a) as [x Hx]; [lia|]. destruct (lookup_lt_is_Some_2 l b) as [y Hy]; [lia|].
    rewrite (Hf _ _ Hx) in Ha. rewrite (Hf _ _ Hy). apply (Hm a b x y); [lia|done..]. }
  set (r := search_from _ _ _ _) in *. clearbody r. destruct (find_first p l) as [x|] eqn:E.
  - apply find_first_Some in E as (pre & post & -> & Hx & Hpre). enough (r = length pre) as -> by (by apply list_lookup_middle).
    assert (f (length pre) = true) as Hfx by (rewrite (Hf _ x); [done|by apply list_lookup_middle]).
    destruct (Nat.lt_trichotomy r (length pre)) as [Hlt|[|Hgt]]; [|done|].
    + destruct (lookup_lt_is_Some_2 pre r Hlt) as [y Hy]. rewrite Forall_forall in Hpre.
      specialize (Hpre y (list_elem_of_lookup_2 _ _ _ Hy)). exfalso.
      assert (f r = true) as Hfr by (apply Hhi; rewrite length_app; cbn; lia).
      rewrite (Hf _ y) in Hfr by (by apply lookup_app_l_Some). congruence.
    + by rewrite (Hlo _ Hgt) in Hfx.
  - apply find_first_None in E. apply lookup_ge_None_2. destruct (decide (r < length l)%nat) as [Hlt|]; [|lia]. exfalso.
    destruct (lookup_lt_is_Some_2 l r Hlt) as [y Hy]. rewrite Forall_forall in E.
    specialize (E y (list_elem_of_lookup_2 _ _ _ Hy)). rewrite <- (Hf _ _ Hy), Hhi in E by lia. done.
Qed.

(** *** Lookups and walks over a sorted table *)

Definition before_oid (a b : variable) : Prop := oidLess (Name a) (Name b) = true.

(** The variables after an OID, in order. *)
Definition after (cur : string) (pdus : list variable) : list variable := filter (λ p, oidLess cur (Name p) = true) pdus.

Lemma oidLess_trans a b c : oidLess a b = true → oidLess b c = true → oidLess a c = true.
Proof. rewrite !oidLess_lex. apply lex_trans. Qed.

Lemma oidLess_irrefl a : oidLess a a = false.
Proof. rewrite oidLess_lex. apply lex_irrefl. Qed.

Lemma sorted_lookup pdus i j x y :
  StronglySorted before_oid pdus → (i ≤ j)%nat → pdus !! i = Some x → pdus !! j = Some y → x = y ∨ before_oid x y.
Proof.
  intros Hs. revert i j. induction Hs as [|z l Hl IH Hz]; intros [|i] [|j] Hij; cbn; try done; try lia.
  - intros [= <-] [= <-]. by left.
  - intros [= <-] Hy. right. rewrite Forall_forall in Hz. by eapply Hz, list_elem_of_lookup_2.
  - apply IH. lia.
Qed.

Lemma nextLookup_scan pdus name :
  StronglySorted before_oid pdus → nextLookup pdus name = find_first (λ p, oidLess name (Name p)) pdus.
Proof.
  intros Hs. unfold nextLookup. apply search_scan; [by intros i x Hx; unfold name_at; rewrite Hx|].
  intros i j x y Hij Hx Hy Hp. destruct (sorted_lookup _ _ _ _ _ Hs Hij Hx Hy) as [<-|Hxy]; [done|]. by eapply oidLess_trans.
Qed.

Lemma exactLookup_scan pdus name :
  StronglySorted before_oid pdus → exactLookup pdus name = find_first (λ p, bool_decide (Name p = name)) pdus.
Proof.
  intros Hs. unfold exactLookup. rewrite (search_scan (λ p, negb (oidLess (Name p) name))).
  - induction Hs as [|x l Hl IH Hx]; [done|]. cbn [find_first]. destruct (oidLess (Name x) name) eqn:Hlt; cbn [negb].
    + rewrite IH, bool_decide_eq_false_2; [done|]. intros <-. by rewrite oidLess_irrefl in Hlt.
    + case_bool_decide as Hn; [done|]. symmetry. apply find_first_None. apply (Forall_impl _ _ _ Hx). intros y Hxy.
      apply bool_decide_eq_false_2. intros <-. unfold before_oid in Hxy. congruence.
  - intros i x Hx. unfold name_at. by rewrite Hx.
  - intros i j x y Hij Hx Hy. rewrite !negb_true_iff. intros Hp. destruct (sorted_lookup _ _ _ _ _ Hs Hij Hx Hy) as [<-|Hxy]; [done|].
    destruct (oidLess (Name y) name) eqn:E; [|done]. by rewrite <- Hp, (oidLess_trans _ _ _ Hxy E).
Qed.

Lemma after_head pdus cur : head (after cur pdus) = find_first (λ p, oidLess cur (Name p)) pdus.
Proof.
  unfold after. induction pdus as [|x l IH]; [done|]. rewrite filter_cons. cbn [find_first].
  destruct (oidLess cur (Name x)) eqn:E; [by rewrite decide_True|by rewrite decide_False].
Qed.

Lemma filter_agree {A} (P Q : A → Prop) `{∀ x, Decision (P x), ∀ x, Decision (Q x)} l :
  Forall (λ x, P x ↔ Q x) l → filter P l = filter Q l.
Proof.
  induction 1 as [|x l Hx Hl IH]; [done|]. rewrite !filter_cons, IH. repeat case_decide; tauto || done.
Qed.

(** After the first variable that follows come the others that follow. *)
Lemma after_next pdus cur p l :
  StronglySorted before_oid pdus → after cur pdus = p :: l → after (Name p) pdus = l.
Proof.
  unfold after. intros Hs. revert l. induction Hs as [|x pdus Hl IH Hx]; intros l; [done|]. rewrite !filter_cons.
  destruct (decide (oidLess cur (Name x) = true)) as [Hc|Hc].
  - intros [= <- <-]. rewrite decide_False by (by rewrite oidLess_irrefl).
    apply filter_agree, (Forall_impl _ _ _ Hx). intros y Hxy. unfold before_oid in Hxy.
    split; [|done]. intros _. by eapply oidLess_trans.
  - intros Hf. assert (p ∈ filter (λ q, oidLess cur (Name q) = true) pdus) as Hp by (rewrite Hf; left).
    apply list_elem_of_filter in Hp as [_ Hp]. rewrite Forall_forall in Hx. specialize (Hx p Hp). unfold before_oid in Hx.
    rewrite decide_False; [by apply IH|]. rewrite not_true_iff_false, oidLess_lex in *. by apply lex_lt_asym.
Qed.

(** What one repeater of a bulk request returns. *)
Definition repeated (reps : nat) (cur : string) (l : list variable) : list variable :=
  take reps l ++ (if (length l <? reps)%nat then [absent EndOfMibView (from_option Name cur (last l))] else []).

Lemma repeat_next_exact pdus reps cur :
  StronglySorted before_oid pdus → repeat_next pdus reps cur = repeated reps cur (after cur pdus).
Proof.
  intros Hs. revert cur. induction reps as [|reps IH]; intros cur; [done|]. cbn [repeat_next].
  rewrite nextLookup_scan, <- after_head by done. destruct (after cur pdus) as [|p l] eqn:Ha; [done|]. cbn [head].
  rewrite IH, (after_next _ _ _ _ Hs Ha). unfold repeated. cbn [take length app Nat.ltb Nat.leb].
  destruct l as [|q l]; [done|].
  rewrite last_cons_cons. destruct (last (q :: l)) eqn:El; [done|]. by apply last_None in El.
Qed.

Lemma oid_le_trans a b c : oid_le a b = true → oid_le b c = true → oid_le a c = true.
Proof.
  unfold oid_le. rewrite !negb_true_iff, !oidLess_lex. intros H1 H2.
  destruct (lex_less (components (Name c)) (components (Name a))) eqn:E; [|done].
  by rewrite <- H2, (lex_le_lt _ _ _ E H1).
Qed.

Lemma oid_le_total a b : oid_le a b = true ∨ oid_le b a = true.
Proof.
  unfold oid_le. rewrite !negb_true_iff, !oidLess_lex. destruct (lex_less _ _) eqn:E; [right; by apply lex_lt_asym|by left].
Qed.

(** Different OIDs are sorted strictly. *)
Lemma sorted_pdus_strict pdus :
  NoDup (components ∘ Name <$> pdus) → StronglySorted before_oid (sorted_pdus pdus).
Proof.
  intros Hn. pose proof (sort_by_StronglySorted oid_le oid_le_trans oid_le_total pdus) as Hs.
  assert (NoDup (components ∘ Name <$> sorted_pdus pdus)) as Hn' by (unfold sorted_pdus; by rewrite sort_by_Permutation).
  unfold sorted_pdus in *. induction Hs as [|x l Hl IH Hx]; [constructor|]. apply NoDup_cons in Hn' as [Hxl Hn'].
  constructor; [by apply IH|]. rewrite Forall_forall in *. intros y Hy. specialize (Hx y Hy). unfold Rle, oid_le in Hx.
  apply negb_true_iff in Hx. unfold before_oid. rewrite oidLess_lex in *.
  destruct (lex_less (components (Name x)) _) eqn:E; [done|]. exfalso. apply Hxl, list_elem_of_fmap.
  exists y. split; [|done]. cbn. by apply lex_total.
Qed.

Lemma clampReps_bounds r : 1 ≤ clampReps r ≤ maxBulkRepetitions.
Proof.
  unfold clampReps, maxBulkRepetitions, defaultMaxRepetitions. destruct (Z.eqb_spec r 0); [done|].
  destruct (Z.ltb_spec r 0), (Z.ltb_spec 1000 r); cbn; lia.
Qed.

Lemma repeated_length reps cur l : (1 ≤ reps)%nat → (1 ≤ length (repeated reps cur l) ≤ reps)%nat.
Proof.
  intros Hr. unfold repeated. rewrite length_app, length_take. destruct (Nat.ltb_spec (length l) reps); cbn; lia.
Qed.

Lemma repeated_all reps cur l : (length l < reps)%nat → repeated reps cur l = l ++ [absent EndOfMibView (from_option Name cur (last l))].
Proof. intros Hr. unfold repeated. rewrite take_ge by lia. by destruct (Nat.ltb_spec (length l) reps); [|lia]. Qed.

Lemma bind_length_bounds {A B} (f : A → list B) (l : list A) (n : nat) :
  (∀ x, (length (f x) ≤ n)%nat) → (length (l ≫= f) ≤ n * length l)%nat.
Proof.
  intros Hf. induction l as [|x l IH]; [cbn; lia|]. rewrite bind_cons, length_app. cbn [length]. specialize (Hf x). lia.
Qed.

(** ** Claims *)

(** OIDs are compared as lists of numbers.  The scan over the two strings decides
    exactly the lexicographic order of their components, whatever bytes they hold; a
    component is the number its digits spell, or the largest int when that does not fit, so
    the order never wraps; and an OID written in the usual way, with or without the leading
    dot, is read back as its numbers. *)
Theorem oid_order_exact (a b s : string) (l m : list Z) :
  oidLess a b = lex_less (components a) (components b) ∧
  (nextComponent s).1 = Z.min MaxInt (digits_value 0 s) ∧
  (Forall (λ z, 0 ≤ z ≤ MaxInt) l → Forall (λ z, 0 ≤ z ≤ MaxInt) m →
   components (String "." (dotted l)) = l ∧ components (dotted l) = l ∧
   oidLess (dotted l) (String "." (dotted m)) = lex_less l m).
Proof.
  assert (∀ l, Forall (λ z, 0 ≤ z ≤ MaxInt) l → components (String "." (dotted l)) = l ∧ components (dotted l) = l) as Hc.
  { intros k Hk. split; unfold components.
    - cbn [strip_dot Ascii.eqb Bool.eqb]. apply components_dotted; [done|]. unfold slen. cbn. lia.
    - replace (strip_dot (dotted k)) with (dotted k); [by apply components_dotted|].
      destruct k as [|z k]; [done|]. unfold dotted. cbn [fmap list_fmap strings_Join].
      pose proof (Itoa_no_dot z) as Hd. pose proof (Itoa_nonempty z) as Hn. destruct (Itoa z) as [|c t]; [done|].
      cbn in Hd. apply orb_false_iff in Hd as [Hd _]. destruct (Itoa <$> k); rewrite ?sapp_cons; cbn; by rewrite Hd. }
  split_and!; [apply oidLess_lex|apply component_clamped; unfold MaxInt; lia|]. intros Hl Hm.
  destruct (Hc l Hl) as [H1 H2], (Hc m Hm) as [H3 _]. split_and!; [done..|]. by rewrite oidLess_lex, H2, H3.
Qed.

Lemma oid_order_exact_witness :
  oidLess "1.3.6.1.2.1.2.2.1.9" ".1.3.6.1.2.1.2.2.1.10" = true ∧ components ".1.3.6" = [1; 3; 6].
Proof.
  destruct (oid_order_exact "" "" "" [1; 3; 6; 1; 2; 1; 2; 2; 1; 9] [1; 3; 6; 1; 2; 1; 2; 2; 1; 10]) as (_ & _ & H1).
  destruct (oid_order_exact "" "" "" [1; 3; 6] []) as (_ & _ & H2). split.
  - apply H1; repeat constructor; vm_compute; discriminate.
  - apply H2; repeat constructor; vm_compute; discriminate.
Defined.

(** the agent serves its table.  For variables with different OIDs it keeps them
    all, in OID order; a Get returns the variable of that name or noSuchObject; a GetNext
    the first variable after the OID in that order, or endOfMibView; a GetBulk, for every
    repeater, the variables that follow, up to the clamped repetitions and with endOfMibView
    when they run out, so a reply has at most a thousand variables per requested one.
    Walking from an OID before the table meets every variable once, in order, and ends. *)
Theorem agent_serves_table (pdus vars : list variable) (nonRepeaters : nat) (maxReps : Z) (root : string) :
  NoDup (components ∘ Name <$> pdus) →
  let table := sorted_pdus pdus in
  let nr := Nat.min nonRepeaters (length vars) in
  table ≡ₚ pdus ∧
  handleGet table vars =
    ((λ v, default (absent NoSuchObject (Name v)) (find_first (λ p, bool_decide (Name p = Name v)) table)) <$> vars) ∧
  handleGetNext table vars = ((λ v, default (absent EndOfMibView (Name v)) (head (after (Name v) table))) <$> vars) ∧
  handleBulk table vars nonRepeaters maxReps =
    handleGetNext table (take nr vars) ++
    (drop nr vars ≫= λ v, repeated (Z.to_nat (clampReps maxReps)) (Name v) (after (Name v) table)) ∧
  (length (handleBulk table vars nonRepeaters maxReps) ≤ 1000 * length vars)%nat ∧
  (Forall (λ p, oidLess root (Name p) = true) pdus →
   repeat_next table (S (length pdus)) root = table ++ [absent EndOfMibView (from_option Name root (last table))]).
Proof.
  intros Hn table nr. pose proof (sorted_pdus_strict pdus Hn) as Hs. fold table in Hs.
  assert (table ≡ₚ pdus) as Hp by apply sort_by_Permutation. split_and!.
  - done.
  - apply list_fmap_ext. intros i v _. by rewrite exactLookup_scan.
  - apply list_fmap_ext. intros i v _. unfold next_or_end. by rewrite nextLookup_scan, after_head.
  - unfold handleBulk. f_equal. apply list_bind_ext; [|done]. intros v. by apply repeat_next_exact.
  - unfold handleBulk. rewrite length_app, length_fmap. pose proof (clampReps_bounds maxReps) as Hc.
    assert (length (drop nr vars ≫= λ v, repeat_next table (Z.to_nat (clampReps maxReps)) (Name v)) ≤ 1000 * length (drop nr vars))%nat
      as Hb.
    { apply bind_length_bounds. intros v. rewrite repeat_next_exact by done.
      destruct (repeated_length (Z.to_nat (clampReps maxReps)) (Name v) (after (Name v) table)) as [_ Hle]; [lia|].
      unfold maxBulkRepetitions in Hc. lia. }
    fold nr. rewrite length_take. rewrite length_drop in Hb. lia.
  - intros Hroot. rewrite repeat_next_exact by done.
    assert (after root table = table) as ->.
    { rewrite <- Hp in Hroot. unfold after. clear -Hroot. induction Hroot as [|p l Hp Hl IH]; [done|].
      by rewrite filter_cons, decide_True, IH. }
    rewrite repeated_all; [done|]. rewrite Hp. lia.
Qed.

Definition system_table : list variable :=
  [mkVariable ".1.3.6.1.2.1.1.10.0" Integer (VInt 10); mkVariable ".1.3.6.1.2.1.1.5.0" OctetString (VBytes "core1");
   mkVariable ".1.3.6.1.2.1.1.1.0" OctetString (VBytes "IOS")].

Lemma agent_serves_table_witness :
  let table := sorted_pdus system_table in
  NoDup (components ∘ Name <$> system_table) ∧
  repeat_next table 4 ".1.3.6" = table ++ [absent EndOfMibView ".1.3.6.1.2.1.1.10.0"] ∧
  (Name <$> table) = [".1.3.6.1.2.1.1.1.0"; ".1.3.6.1.2.1.1.5.0"; ".1.3.6.1.2.1.1.10.0"].
Proof.
  intros table. assert (NoDup (components ∘ Name <$> system_table)) as Hn by (apply (bool_decide_unpack _); vm_compute; exact I).
  destruct (agent_serves_table system_table [] 0 0 ".1.3.6" Hn) as (_ & _ & _ & _ & _ & Hw).
  split; [exact Hn|]. split; [|vm_compute; reflexivity]. apply Hw.
  repeat (apply Forall_cons; split; [vm_compute; reflexivity|]). apply Forall_nil_2.
Defined.

(** the community selects what is answered: a datagram of another community, one that does
    not decode or one of another type is ignored, and otherwise the reply carries the
    request's identifier.  A bulk request for no variable is not answered either, while a
    Get for none gets an empty reply. *)
Lemma serve_community (community : string) (pdus : list variable) (pkt : packet) :
  (is_Some (serve_one community pdus (Some pkt)) ↔
     pk_Community pkt = community ∧ pk_Type pkt ≠ OtherRequest ∧ (pk_Type pkt = GetBulkRequest → pk_Variables pkt ≠ [])) ∧
  (∀ r, serve_one community pdus (Some pkt) = Some r → rp_RequestID r = pk_RequestID pkt ∧ rp_Community r = community) ∧
  serve_one community pdus None = None ∧
  serveMulti_one {[community := pdus]} (Some pkt) = serve_one community pdus (Some pkt).
Proof.
  assert (∀ vars n r, handleBulk pdus vars n r = [] ↔ vars = []) as Hb.
  { intros vars n r. unfold handleBulk. split; [|by intros ->; rewrite drop_nil, take_nil].
    destruct vars as [|v vars]; [done|]. intros [H1 H2]%app_eq_nil. destruct n as [|n]; [|done]. cbn in H2.
    apply app_eq_nil in H2 as [H2 _]. pose proof (clampReps_bounds r). destruct (Z.to_nat (clampReps r)) eqn:E; [lia|].
    cbn in H2. by destruct (nextLookup pdus (Name v)). }
  split_and!.
  - cbn. unfold dispatchPDU. case_bool_decide as Hc; [|split; [by intros []|naive_solver]].
    destruct (pk_Type pkt); cbn; [naive_solver..| |split; [by intros []|naive_solver]].
    case_bool_decide as Hn; cbn; rewrite Hb in Hn; [split; [by intros []|naive_solver]|naive_solver].
  - intros r. cbn. case_bool_decide; [|done]. destruct (dispatchPDU pdus pkt); cbn; [by intros [= <-]|done].
  - done.
  - cbn. case_bool_decide as Hc.
    + rewrite Hc, lookup_singleton_eq. done.
    + by rewrite lookup_singleton_ne.
Qed.
