(* ===== verification/Capture.v ===== *)
(** * internal/snmptest/capture.go: reading snmpwalk captures

    The parser that turns the text of an snmpwalk capture into the variables the test agent
    serves.  A capture is the list of lines the scanner yields, with the error it ends with
    (a line over its buffer, a read error). *)

From Stdlib Require Import ZArith Lia Ascii.
From S2P Require Import Prelude GoText Discovery HubValidate Pdu NetAddr Walker Bgp Agent.
Open Scope Z_scope.

(** ** The string functions the parser uses *)

(** [strings.Index], [None] for -1. *)
Fixpoint strings_Index (s sub : string) : option nat :=
  if HasPrefix s sub then Some O
  else match s with EmptyString => None | String _ s' => S <$> strings_Index s' sub end.

(** [strings.Trim] for one byte. *)
Fixpoint TrimLeft (c : ascii) (s : string) : string :=
  match s with
  | String b s' => if Ascii.eqb b c then TrimLeft c s' else s
  | EmptyString => ""
  end.

Definition Trim (c : ascii) (s : string) : string := TrimRight c (TrimLeft c s).

(** [strings.ReplaceAll(s, c, the empty string)]. *)
Fixpoint remove_byte (c : ascii) (s : string) : string :=
  match s with
  | EmptyString => ""
  | String b s' => if Ascii.eqb b c then remove_byte c s' else String b (remove_byte c s')
  end.

(** [strconv.ParseUint(s, 10, bits)]: digits only, at least one, in range. *)
Definition ParseUint (bits : Z) (s : string) : option Z :=
  if bool_decide (s = "") then None
  else v ← parse_digits 0 s; if v <? 2 ^ bits then Some v else None.

(** [hex.DecodeString]. *)
Fixpoint DecodeString (s : string) : option string :=
  match s with
  | EmptyString => Some ""
  | String a (String b s') =>
      x ← hex_val a; y ← hex_val b; r ← DecodeString s'; Some (String (chr (16 * x + y)) r)
  | String _ EmptyString => None
  end.

(** ** Values *)

Definition parseHexBytes (s : string) : option string := DecodeString (remove_byte " " s).

(** The loop of [looksHex]; [seen] as in the code. *)
Fixpoint looks_hex_from (seen : bool) (l : list rune) : bool :=
  match l with
  | [] => seen
  | c :: l' =>
      if c =? 32 then looks_hex_from seen l'
      else if in_range 48 57 c || in_range 97 102 c || in_range 65 70 c then looks_hex_from true l'
      else false
  end.

Definition looksHex (s : string) : bool := looks_hex_from false (runes_of s).

Definition is_letter (c : ascii) : bool := in_range 65 90 (byte_val c) || in_range 97 122 (byte_val c).
Definition is_type_byte (c : ascii) : bool := is_letter c || in_range 48 57 (byte_val c) || Ascii.eqb c "-".

Definition looksLikeTypeToken (s : string) : bool :=
  match s with
  | EmptyString => false
  | String c s' => is_letter c && all_bytes is_type_byte s'
  end.

Definition type_tokens : list string :=
  ["INTEGER"; "Gauge32"; "Gauge"; "Unsigned32"; "Counter32"; "Counter"; "Counter64"; "Timeticks"; "Timeticks32";
   "IpAddress"; "Hex-STRING"; "STRING"; "OID"].

Definition isTypeToken (s : string) : bool := bool_decide (s ∈ type_tokens).

(** The first run of digits, from its first digit on. *)
Fixpoint digit_run (s : string) : string :=
  match s with
  | String c s' => if in_range 48 57 (byte_val c) then String c (digit_run s') else ""
  | EmptyString => ""
  end.

Fixpoint firstUint (s : string) : option Z :=
  match s with
  | EmptyString => None
  | String c s' => if in_range 48 57 (byte_val c) then ParseUint 64 (digit_run s) else firstUint s'
  end.

Definition quote : ascii := chr 34.

Definition typedValue (oid typ val : string) : string + variable :=
  let bad := inl (typ +:+ ": bad value") in
  if bool_decide (typ = "INTEGER") then
    match Atoi val with None => bad | Some n => inr (mkVariable oid Integer (VInt n)) end
  else if bool_decide (typ ∈ ["Gauge32"; "Gauge"; "Unsigned32"]) then
    match ParseUint 32 val with None => bad | Some n => inr (mkVariable oid Gauge32 (VUint n)) end
  else if bool_decide (typ ∈ ["Counter32"; "Counter"]) then
    match ParseUint 32 val with None => bad | Some n => inr (mkVariable oid Counter32 (VUint n)) end
  else if bool_decide (typ = "Counter64") then
    match ParseUint 64 val with None => bad | Some n => inr (mkVariable oid Counter64 (VUint64 n)) end
  else if bool_decide (typ ∈ ["Timeticks"; "Timeticks32"]) then
    match firstUint val with
    | None => bad
    | Some n => if 2 ^ 32 - 1 <? n then bad else inr (mkVariable oid TimeTicks (VUint32 n))
    end
  else if bool_decide (typ = "IpAddress") then inr (mkVariable oid IPAddress (VString val))
  else if bool_decide (typ = "Hex-STRING") then
    match parseHexBytes val with None => bad | Some b => inr (mkVariable oid OctetString (VBytes b)) end
  else if bool_decide (typ = "STRING") then inr (mkVariable oid OctetString (VBytes (Trim quote val)))
  else if bool_decide (typ = "OID") then inr (mkVariable oid ObjectIdentifier (VString val))
  else inl ("unsupported SNMP type " +:+ typ).

Definition parseValue (oid rest : string) : string + variable :=
  let bare := inr (mkVariable oid OctetString (VBytes (Trim quote rest))) in
  match IndexByte rest ":" with
  | Some (S k) =>
      let typ := stake (S k) rest in
      let val := TrimSpace (sdrop (S (S k)) rest) in
      if looksLikeTypeToken typ then
        if isTypeToken typ then typedValue oid typ val else inl ("unsupported SNMP type " +:+ typ)
      else bare
  | _ => bare
  end.

(** ** Lines *)

(** The bytes a variable holds; anything but a byte slice counts as none. *)
Definition value_bytes (v : pdu_value) : string := match v with VBytes b => b | _ => "" end.

(** [None]: the line is no continuation.  The last variable is replaced in place. *)
Definition appendHexContinuation (pdus : list variable) (line : string) : string + option (list variable) :=
  match last pdus with
  | None => inr None
  | Some p =>
      if negb (bool_decide (Type_ p = OctetString)) || negb (looksHex line) then inr None
      else match parseHexBytes line with
           | None => inl "continuation hex"
           | Some b =>
               inr (Some (take (length pdus - 1) pdus ++ [mkVariable (Name p) (Type_ p) (VBytes (value_bytes (Value p) +:+ b))]))
           end
  end.

Definition separator : string := " = ".

Definition parse_line (pdus : list variable) (line : string) : string + list variable :=
  let trimmed := TrimSpace line in
  if bool_decide (trimmed = "") || HasPrefix trimmed "#" then inr pdus
  else match strings_Index line separator with
       | None =>
           match appendHexContinuation pdus trimmed with
           | inl e => inl e
           | inr (Some pdus') => inr pdus'
           | inr None => inl "no ' = ' separator"
           end
       | Some eq =>
           do p <- parseValue (TrimSpace (stake eq line)) (TrimSpace (sdrop (eq + 3) line));
           inr (pdus ++ [p])
       end.

Fixpoint parse_lines (pdus : list variable) (lines : list string) : string + list variable :=
  match lines with
  | [] => inr pdus
  | line :: lines' => do pdus' <- parse_line pdus line; parse_lines pdus' lines'
  end.

Definition parseCapture (lines : list string) (scan_err : option string) : string + list variable :=
  do pdus <- parse_lines [] lines;
  match scan_err with Some e => inl e | None => inr pdus end.

(** ** What snmpwalk prints

    The printer the parser is meant for, with numeric OIDs and enumerations: sixteen octets
    to a line of a hexadecimal string, an unset string as two quotes. *)

Definition upper_hex (z : Z) : ascii := if z <? 10 then chr (48 + z) else chr (55 + z).

Fixpoint hex_pairs (s : string) : string :=
  match s with
  | EmptyString => ""
  | String c s' => String (upper_hex (byte_val c / 16)) (String (upper_hex (byte_val c mod 16)) (String " " (hex_pairs s')))
  end.

(** A string cut into lines of sixteen octets. *)
Fixpoint hex_lines (fuel : nat) (s : string) : list string :=
  match fuel with
  | O => []
  | S fuel' => if bool_decide (s = "") then [] else hex_pairs (stake 16 s) :: hex_lines fuel' (sdrop 16 s)
  end.

Definition typed_line (oid typ val : string) : string := oid +:+ separator +:+ typ +:+ ": " +:+ val.

Definition print_variable (v : variable) : list string :=
  match Type_ v, Value v with
  | Integer, VInt n => [typed_line (Name v) "INTEGER" (Itoa n)]
  | Gauge32, VUint n => [typed_line (Name v) "Gauge32" (Itoa n)]
  | Counter32, VUint n => [typed_line (Name v) "Counter32" (Itoa n)]
  | Counter64, VUint64 n => [typed_line (Name v) "Counter64" (Itoa n)]
  | TimeTicks, VUint32 n => [typed_line (Name v) "Timeticks" ("(" +:+ Itoa n +:+ ") 0:00:00.00")]
  | IPAddress, VString s => [typed_line (Name v) "IpAddress" s]
  | ObjectIdentifier, VString s => [typed_line (Name v) "OID" s]
  | OctetString, VBytes b =>
      match hex_lines (slen b) b with
      | [] => [Name v +:+ separator +:+ String quote (String quote "")]
      | l :: ls => typed_line (Name v) "Hex-STRING" l :: ls
      end
  | _, _ => []
  end.

Definition print_capture (vs : list variable) : list string := vs ≫= print_variable.

(** The variables that can be printed: an OID of digits and dots, a value of the range and
    type of its tag, and texts that are words (an address, an OID). *)
Definition oid_byte (c : ascii) : bool := in_range 48 57 (byte_val c) || Ascii.eqb c ".".
Definition word (s : string) : bool := bool_decide (s ≠ "") && all_bytes oid_byte s.

Definition printable_variable (v : variable) : Prop :=
  word (Name v) = true ∧
  match Type_ v, Value v with
  | Integer, VInt n => MinInt ≤ n ≤ MaxInt
  | (Gauge32 | Counter32), VUint n => 0 ≤ n < 2 ^ 32
  | Counter64, VUint64 n => 0 ≤ n < 2 ^ 64
  | TimeTicks, VUint32 n => 0 ≤ n < 2 ^ 32
  | (IPAddress | ObjectIdentifier), VString s => word s = true
  | OctetString, VBytes _ => True
  | _, _ => False
  end.

Example capture_sample :
  parseCapture
    ["# lab capture"; ".1.3.6.1.2.1.1.3.0 = Timeticks: (12345) 0:02:03.45"; ".1.3.6.1.2.1.1.5.0 = STRING: core1";
     ".1.3.6.1.2.1.2.2.1.6.1 = Hex-STRING: 00 1B 21"; "AB CD "; ".1.3.6.1.2.1.31.1.1.1.18.1 = "] None =
  inr [mkVariable ".1.3.6.1.2.1.1.3.0" TimeTicks (VUint32 12345); mkVariable ".1.3.6.1.2.1.1.5.0" OctetString (VBytes "core1");
       mkVariable ".1.3.6.1.2.1.2.2.1.6.1" OctetString (VBytes (octet_string [0; 27; 33; 171; 205]));
       mkVariable ".1.3.6.1.2.1.31.1.1.1.18.1" OctetString (VBytes "")].
Proof. vm_compute. reflexivity. Qed.

(** ** Lemmas: trimming *)

Definition left_tight (s : string) : Prop := match s with String c _ => IsSpace (byte_val c) = false | EmptyString => False end.
Definition right_tight (s : string) : Prop := ∃ t c, s = t +:+ String c "" ∧ IsSpace (byte_val c) = false.
Definition space_byte (c : ascii) : bool := (byte_val c <? 128) && IsSpace (byte_val c).

Lemma chunks_ascii c s : byte_val c < 128 → chunks (String c s) = Rune (byte_val c) (String c "") :: chunks s.
Proof. intros Hc. cbn [chunks]. cbv zeta. by rewrite (proj2 (Z.ltb_lt _ _) Hc). Qed.

Lemma spaces_ascii a : all_bytes space_byte a = true → is_ascii a = true.
Proof. induction a as [|c a IH]; cbn; [done|]. unfold space_byte at 1. intros. bprop. rewrite IH by done. rewrite andb_true_r. by apply Z.ltb_lt. Qed.

Lemma spaces_chunks a : all_bytes space_byte a = true → Forall (λ k, IsSpace (chunk_rune k) = true) (chunks a).
Proof.
  induction a as [|c a IH]; [constructor|]. cbn [all_bytes]. unfold space_byte at 1. intros. bprop. rewrite chunks_ascii by done.
  constructor; [done|by apply IH].
Qed.

Lemma drop_space_all l1 l2 : Forall (λ k, IsSpace (chunk_rune k) = true) l1 → drop_space (l1 ++ l2) = drop_space l2.
Proof. induction 1 as [|k l Hk Hl IH]; cbn; [done|]. by rewrite Hk. Qed.

Lemma drop_space_stop k l : IsSpace (chunk_rune k) = false → drop_space (k :: l) = k :: l.
Proof. intros Hk. cbn. by rewrite Hk. Qed.

Lemma is_ascii_app a b : is_ascii (a +:+ b) = is_ascii a && is_ascii b.
Proof. induction a as [|c a IH]; [done|]. rewrite sapp_cons. cbn [is_ascii]. by rewrite IH, andb_assoc. Qed.

Lemma TrimSpace_around a m b :
  all_bytes space_byte a = true → all_bytes space_byte b = true → is_ascii m = true → left_tight m → right_tight m →
  TrimSpace (a +:+ m +:+ b) = m.
Proof.
  intros Ha Hb Hm Hl (t & d & Ht & Hd). unfold TrimSpace.
  rewrite chunks_ascii_app by (by apply spaces_ascii). rewrite chunks_ascii_app by done.
  rewrite drop_space_all by (by apply spaces_chunks).
  assert (drop_space (chunks m ++ chunks b) = chunks m ++ chunks b) as ->.
  { destruct m as [|c m]; [done|]. cbn [is_ascii] in Hm. bprop. rewrite chunks_ascii by done. by apply drop_space_stop. }
  rewrite reverse_app, drop_space_all by (rewrite Forall_reverse; by apply spaces_chunks).
  assert (drop_space (reverse (chunks m)) = reverse (chunks m)) as ->.
  { rewrite Ht in Hm |- *. assert (is_ascii t = true ∧ byte_val d < 128) as [Hta Hda].
    { rewrite is_ascii_app in Hm. cbn [is_ascii] in Hm. by bprop. }
    rewrite chunks_ascii_app, chunks_ascii, reverse_app by done. cbn [chunks reverse]. apply drop_space_stop. done. }
  rewrite reverse_involutive. apply chunks_bytes.
Qed.

Lemma TrimSpace_tight m : is_ascii m = true → left_tight m → right_tight m → TrimSpace m = m.
Proof. intros. rewrite <- (sapp_nil_r m) at 1. rewrite <- (sapp_nil_l (m +:+ "")). by apply TrimSpace_around. Qed.

Lemma left_tight_app a b : left_tight a → left_tight (a +:+ b).
Proof. by destruct a. Qed.

Lemma right_tight_app a b : right_tight b → right_tight (a +:+ b).
Proof. intros (t & c & -> & Hc). exists (a +:+ t), c. by rewrite sapp_assoc. Qed.

(** A word over bytes that are neither spaces nor past ASCII. *)
Lemma tight_word p s :
  (∀ c, p c = true → byte_val c < 128 ∧ IsSpace (byte_val c) = false) → s ≠ "" → all_bytes p s = true →
  is_ascii s = true ∧ left_tight s ∧ right_tight s.
Proof.
  intros Hp Hne Hs. split_and!.
  - clear Hne. induction s as [|c s IH]; cbn in *; [done|]. bprop. rewrite IH by done. rewrite andb_true_r. apply Z.ltb_lt. by apply Hp.
  - destruct s as [|c s]; [done|]. cbn in *. bprop. by apply Hp.
  - induction s as [|c s IH]; [done|]. cbn in Hs. bprop. destruct s as [|d s].
    + exists "", c. split; [done|by apply Hp].
    + destruct IH as (t & e & -> & He); [done|done|]. by exists (String c t), e.
Qed.

(** *** One line *)

Lemma Index_separator a b : has_byte " " a = false → strings_Index (a +:+ separator +:+ b) separator = Some (slen a).
Proof.
  induction a as [|c a IH]; intros Ha; [by destruct b|]. cbn [has_byte] in Ha. apply orb_false_iff in Ha as [Hc Ha].
  rewrite sapp_cons. cbn [strings_Index]. replace (HasPrefix (String c _) separator) with false; [by rewrite IH|].
  unfold separator. cbn [HasPrefix]. rewrite Ascii.eqb_sym in Hc. by rewrite Hc.
Qed.

Lemma Index_absent s : has_byte "=" s = false → strings_Index s separator = None.
Proof.
  induction s as [|c s IH]; [done|]. cbn [has_byte]. intros Hs. cbn [strings_Index].
  replace (HasPrefix (String c s) separator) with false; [apply orb_false_iff in Hs as [_ Hs]; by rewrite IH|].
  unfold separator. cbn [HasPrefix]. destruct (Ascii.eqb " " c); [|done]. destruct s as [|d s]; [done|].
  cbn [has_byte] in Hs. apply orb_false_iff in Hs as [_ Hs]. apply orb_false_iff in Hs as [Hd _].
  rewrite Ascii.eqb_sym in Hd. cbn [HasPrefix]. by rewrite Hd.
Qed.

Lemma all_bytes_without p c s : p c = false → all_bytes p s = true → has_byte c s = false.
Proof.
  intros Hc. induction s as [|d s IH]; cbn; [done|]. intros [Hd Hs]%andb_true_iff. rewrite IH by done. rewrite orb_false_r.
  apply Ascii.eqb_neq. intros ->. congruence.
Qed.

Lemma oid_byte_tight c : oid_byte c = true → byte_val c < 128 ∧ IsSpace (byte_val c) = false.
Proof.
  unfold oid_byte, in_range. intros [H|H%Ascii.eqb_eq]%orb_true_iff; [|by subst; vm_compute]. bprop. split; [lia|].
  unfold IsSpace, in_range. repeat (apply orb_false_iff; split); rewrite ?andb_false_iff, ?Z.leb_gt, ?Z.eqb_neq; lia.
Qed.

Lemma word_tight s : word s = true → is_ascii s = true ∧ left_tight s ∧ right_tight s.
Proof. unfold word. intros. bprop. eapply tight_word; [apply oid_byte_tight|done..]. Qed.

Lemma token_shape typ :
  typ ∈ type_tokens →
  is_ascii typ = true ∧ left_tight typ ∧ has_byte ":" typ = false ∧ looksLikeTypeToken typ = true ∧ isTypeToken typ = true.
Proof.
  intros Ht. split_and!.
  all: try (unfold isTypeToken; by apply bool_decide_eq_true_2).
  all: revert typ Ht; apply Forall_forall; repeat (apply Forall_cons; split; [vm_compute; reflexivity|]); apply Forall_nil_2.
Qed.

Lemma word_start oid x : word oid = true → oid +:+ x ≠ "" ∧ HasPrefix (oid +:+ x) "#" = false.
Proof.
  destruct oid as [|c oid]; [done|]. unfold word. cbn [all_bytes]. intros. bprop. rewrite sapp_cons. split; [done|].
  cbn [HasPrefix]. destruct (Ascii.eqb_spec "#" c) as [<-|]; [|done]. by vm_compute in *.
Qed.

Lemma word_spaceless oid : word oid = true → has_byte " " oid = false.
Proof. unfold word. intros. bprop. by apply (all_bytes_without oid_byte). Qed.

(** A typed line of an snmpwalk capture is its type's value. *)
Lemma parse_typed_line pdus oid typ m b :
  word oid = true → typ ∈ type_tokens → is_ascii m = true → left_tight m → right_tight m → all_bytes space_byte b = true →
  parse_line pdus (typed_line oid typ (m +:+ b)) = do p <- typedValue oid typ m; inr (pdus ++ [p]).
Proof.
  intros Ho Ht Hm Hml Hmr Hb. pose proof (word_tight _ Ho) as (Hoa & Hol & Hor).
  destruct (token_shape _ Ht) as (Hta & Htl & Htc & Hlook & His).
  set (rest := typ +:+ ": " +:+ m).
  assert (typed_line oid typ (m +:+ b) = "" +:+ (oid +:+ separator +:+ rest) +:+ b) as Hline.
  { unfold typed_line, rest. by rewrite sapp_nil_l, <- !sapp_assoc. }
  assert (right_tight rest) as Hrr by (unfold rest; by do 2 apply right_tight_app).
  assert (is_ascii rest = true) as Hra by (unfold rest; by rewrite !is_ascii_app, Hta, Hm).
  assert (TrimSpace (typed_line oid typ (m +:+ b)) = oid +:+ separator +:+ rest) as Htrim.
  { rewrite Hline. apply TrimSpace_around; [done|done|by rewrite !is_ascii_app, Hoa, Hra|by apply left_tight_app|].
    by do 2 apply right_tight_app. }
  unfold parse_line. rewrite Htrim. destruct (word_start oid (separator +:+ rest) Ho) as [Hne Hh].
  rewrite bool_decide_eq_false_2, Hh by done. cbn [orb].
  assert (typed_line oid typ (m +:+ b) = oid +:+ separator +:+ (rest +:+ b)) as Hl2 by (rewrite Hline; by rewrite sapp_nil_l, <- !sapp_assoc).
  rewrite Hl2, Index_separator by (by apply word_spaceless).
  rewrite stake_app, (TrimSpace_tight oid) by done.
  replace (sdrop (slen oid + 3) (oid +:+ separator +:+ rest +:+ b)) with (rest +:+ b); cycle 1.
  { rewrite <- (sapp_assoc oid). symmetry. replace (slen oid + 3)%nat with (slen (oid +:+ separator)) by by rewrite slen_app. apply sdrop_app. }
  replace (TrimSpace (rest +:+ b)) with rest; cycle 1.
  { symmetry. rewrite <- (sapp_nil_l (rest +:+ b)). apply TrimSpace_around; try done. unfold rest. by apply left_tight_app. }
  unfold parseValue, rest. change (": " +:+ m) with (String ":" (String " " m)). rewrite IndexByte_app by done.
  destruct (slen typ) as [|k] eqn:Hk; [by destruct typ|]. rewrite <- Hk, stake_app, Hlook, His.
  replace (sdrop (S (slen typ)) (typ +:+ String ":" (String " " m))) with (" " +:+ m +:+ ""); cycle 1.
  { rewrite sapp_nil_r. replace (typ +:+ String ":" (String " " m)) with ((typ +:+ ":") +:+ (" " +:+ m)) by by rewrite sapp_assoc.
    replace (S (slen typ)) with (slen (typ +:+ ":")) by (rewrite slen_app; cbn; lia). by rewrite sdrop_app. }
  by rewrite TrimSpace_around.
Qed.

(** *** Numbers *)

Definition number_byte (c : ascii) : bool := in_range 48 57 (byte_val c) || Ascii.eqb c "-".

Lemma number_byte_tight c : number_byte c = true → byte_val c < 128 ∧ IsSpace (byte_val c) = false.
Proof.
  unfold number_byte, in_range. intros [H|H%Ascii.eqb_eq]%orb_true_iff; [|by subst; vm_compute]. bprop. split; [lia|].
  unfold IsSpace, in_range. repeat (apply orb_false_iff; split); rewrite ?andb_false_iff, ?Z.leb_gt, ?Z.eqb_neq; lia.
Qed.

Lemma digits_bytes acc s v : parse_digits acc s = Some v → all_digits s = true.
Proof.
  revert acc. induction s as [|c s IH]; intros acc; cbn; [done|]. unfold digit_val. destruct (in_range 48 57 (byte_val c)); [|done].
  apply IH.
Qed.

Lemma all_digits_numbers s : all_digits s = true → all_bytes number_byte s = true.
Proof. induction s as [|c s IH]; cbn; [done|]. unfold number_byte at 1. intros [-> Hs]%andb_true_iff. cbn. by apply IH. Qed.

Lemma Itoa_negative z : 0 < z → Itoa (- z) = String "-" (Itoa z).
Proof. intros Hz. destruct z as [|p|p]; [lia| |lia]. reflexivity. Qed.

Lemma Itoa_tight n : is_ascii (Itoa n) = true ∧ left_tight (Itoa n) ∧ right_tight (Itoa n).
Proof.
  assert (∀ m, 0 ≤ m → all_bytes number_byte (Itoa m) = true) as Hpos.
  { intros m Hm. eapply all_digits_numbers, digits_bytes, Itoa_digits, Hm. }
  eapply tight_word; [apply number_byte_tight|apply Itoa_nonempty|].
  destruct (Z.le_gt_cases 0 n) as [Hn|Hn]; [by apply Hpos|].
  replace n with (- - n) by lia. rewrite Itoa_negative by lia. cbn [all_bytes]. rewrite Hpos by lia. done.
Qed.

Lemma ParseUint_Itoa bits n : 0 ≤ n < 2 ^ bits → ParseUint bits (Itoa n) = Some n.
Proof.
  intros Hn. unfold ParseUint. rewrite bool_decide_eq_false_2 by apply Itoa_nonempty. rewrite Itoa_digits by lia. cbn.
  by rewrite (proj2 (Z.ltb_lt _ _)) by lia.
Qed.

Lemma digit_run_all s c t :
  all_digits s = true → in_range 48 57 (byte_val c) = false → digit_run (s +:+ String c t) = s.
Proof.
  intros Hs Hc. induction s as [|d s IH]; [rewrite sapp_nil_l; cbn [digit_run]; by rewrite Hc|].
  cbn [all_digits] in Hs. apply andb_true_iff in Hs as [Hd Hs]. rewrite sapp_cons. cbn [digit_run]. by rewrite Hd, IH.
Qed.

Lemma firstUint_ticks n t : 0 ≤ n < 2 ^ 64 → firstUint ("(" +:+ Itoa n +:+ String ")" t) = Some n.
Proof.
  intros Hn. pose proof (digits_bytes _ _ _ (Itoa_digits n ltac:(lia))) as Hd. pose proof (Itoa_nonempty n) as Hne.
  pose proof (ParseUint_Itoa 64 n Hn) as Hp. destruct (Itoa n) as [|c s]; [done|].
  change ("(" +:+ ?x) with (String "(" x). cbn [firstUint]. change (in_range 48 57 (byte_val "(")) with false. cbn [firstUint].
  rewrite sapp_cons. cbn [firstUint]. assert (Hd' := Hd). cbn [all_digits] in Hd.
  apply andb_true_iff in Hd as [Hc Hs]. rewrite Hc. rewrite <- sapp_cons, digit_run_all; done.
Qed.

(** *** Hexadecimal strings *)

(** The octets of a line without the blank at its end. *)
Fixpoint hexes (s : string) : string :=
  match s with
  | EmptyString => ""
  | String c s' =>
      String (upper_hex (byte_val c / 16)) (String (upper_hex (byte_val c mod 16))
        (match s' with EmptyString => "" | _ => String " " (hexes s') end))
  end.

Lemma hex_pairs_hexes s : s ≠ "" → hex_pairs s = hexes s +:+ " ".
Proof.
  induction s as [|c s IH]; [done|]. intros _. cbn [hex_pairs hexes]. destruct s as [|d s]; [done|].
  rewrite (IH ltac:(done)). by rewrite !sapp_cons.
Qed.

Definition hex_byte_of (c : ascii) : bool := in_range 48 57 (byte_val c) || in_range 65 70 (byte_val c).

Lemma upper_hex_byte d : 0 ≤ d < 16 → hex_byte_of (upper_hex d) = true ∧ hex_val (upper_hex d) = Some d.
Proof.
  intros Hd. assert (d ∈ [0; 1; 2; 3; 4; 5; 6; 7; 8; 9; 10; 11; 12; 13; 14; 15]) as Hin.
  { assert (d = 0 ∨ d = 1 ∨ d = 2 ∨ d = 3 ∨ d = 4 ∨ d = 5 ∨ d = 6 ∨ d = 7 ∨ d = 8 ∨ d = 9 ∨ d = 10 ∨ d = 11 ∨ d = 12 ∨
            d = 13 ∨ d = 14 ∨ d = 15) by lia. set_solver. }
  clear Hd. revert d Hin. apply Forall_forall. repeat (apply Forall_cons; split; [by vm_compute|]). apply Forall_nil_2.
Qed.

Lemma byte_halves c : 0 ≤ byte_val c / 16 < 16 ∧ 0 ≤ byte_val c mod 16 < 16.
Proof.
  pose proof (byte_val_range c). split; [split; [apply Z.div_pos; lia|apply Z.div_lt_upper_bound; lia]|apply Z.mod_pos_bound; lia].
Qed.

Definition hex_or_space (c : ascii) : bool := hex_byte_of c || Ascii.eqb c " ".

Lemma hexes_bytes s : all_bytes hex_or_space (hexes s) = true.
Proof.
  induction s as [|c s IH]; [done|]. destruct (byte_halves c) as [H1 H2]. cbn [hexes all_bytes].
  unfold hex_or_space at 1 2. rewrite (proj1 (upper_hex_byte _ H1)), (proj1 (upper_hex_byte _ H2)). cbn [orb andb].
  by destruct s.
Qed.

Lemma hex_byte_tight c : hex_byte_of c = true → byte_val c < 128 ∧ IsSpace (byte_val c) = false.
Proof.
  unfold hex_byte_of, in_range. intros [H|H]%orb_true_iff; bprop; (split; [lia|]);
  unfold IsSpace, in_range; repeat (apply orb_false_iff; split); rewrite ?andb_false_iff, ?Z.leb_gt, ?Z.eqb_neq; lia.
Qed.

Lemma hexes_tight s : s ≠ "" → is_ascii (hexes s) = true ∧ left_tight (hexes s) ∧ right_tight (hexes s).
Proof.
  intros Hs. split_and!.
  - pose proof (hexes_bytes s) as Hb. revert Hb. generalize (hexes s) as t. induction t as [|c t IH]; [done|].
    cbn [all_bytes is_ascii]. intros [Hc Ht]%andb_true_iff. rewrite IH, andb_true_r by done. apply Z.ltb_lt.
    unfold hex_or_space in Hc. apply orb_true_iff in Hc as [Hc| ->%Ascii.eqb_eq]; [by apply hex_byte_tight|by vm_compute].
  - destruct s as [|c s]; [done|]. cbn. destruct (byte_halves c) as [H1 _]. by apply hex_byte_tight, upper_hex_byte.
  - induction s as [|c s IH]; [done|]. destruct (byte_halves c) as [H1 H2]. cbn [hexes]. destruct s as [|d s].
    + exists (String (upper_hex (byte_val c / 16)) ""), (upper_hex (byte_val c mod 16)). split; [done|].
      by apply hex_byte_tight, upper_hex_byte.
    + destruct IH as (t & e & He & Hsp); [done|]. rewrite He.
      exists (String (upper_hex (byte_val c / 16)) (String (upper_hex (byte_val c mod 16)) (String " " t))), e. by rewrite !sapp_cons.
Qed.

Lemma remove_hex c s : hex_byte_of c = true → remove_byte " " (String c s) = String c (remove_byte " " s).
Proof. intros Hc. cbn. destruct (Ascii.eqb_spec c " ") as [->|]; [by vm_compute in Hc|done]. Qed.

Lemma parseHexBytes_hexes s : parseHexBytes (hexes s) = Some s.
Proof.
  unfold parseHexBytes. induction s as [|c s IH]; [done|]. destruct (byte_halves c) as [H1 H2].
  destruct (upper_hex_byte _ H1) as [Hb1 Hv1], (upper_hex_byte _ H2) as [Hb2 Hv2]. cbn [hexes].
  rewrite !remove_hex by done. cbn [DecodeString]. rewrite Hv1, Hv2. cbn [mbind option_bind].
  assert (remove_byte " " (match s with EmptyString => "" | String _ _ => String " " (hexes s) end) = remove_byte " " (hexes s)) as ->
    by by destruct s.
  rewrite IH. cbn [mbind option_bind]. do 2 f_equal. rewrite <- Z.div_mod by lia.
  unfold chr, byte_val. rewrite N2Z.id. apply ascii_N_embedding.
Qed.

Lemma runes_hex t seen :
  all_bytes hex_or_space t = true →
  looks_hex_from seen (runes_of t) = (seen || negb (bool_decide (remove_byte " " t = ""))).
Proof.
  revert seen. induction t as [|c t IH]; intros seen; [cbn; by rewrite orb_false_r|]. cbn [all_bytes].
  intros [Hc Ht]%andb_true_iff. unfold hex_or_space in Hc. apply orb_true_iff in Hc as [Hc| ->%Ascii.eqb_eq].
  - destruct (hex_byte_tight _ Hc) as [Hlt Hsp]. rewrite runes_of_ascii by done. cbn [looks_hex_from].
    destruct (Z.eqb_spec (byte_val c) 32) as [E|_]; [by rewrite E in Hsp|].
    assert (Hc' := Hc). unfold hex_byte_of in Hc'. replace (in_range 48 57 (byte_val c) || in_range 97 102 (byte_val c) || in_range 65 70 (byte_val c)) with true; cycle 1.
    { apply orb_true_iff in Hc' as [Hx|Hx]; rewrite Hx, ?orb_true_r; done. }
    rewrite IH by done. cbn [orb]. rewrite remove_hex, bool_decide_eq_false_2 by done. by rewrite orb_true_r.
  - rewrite runes_of_ascii by by vm_compute. cbn [looks_hex_from]. change (byte_val " " =? 32) with true. by apply IH.
Qed.

Lemma remove_hexes_nonempty s : s ≠ "" → remove_byte " " (hexes s) ≠ "".
Proof.
  destruct s as [|c s]; [done|]. intros _. destruct (byte_halves c) as [H1 _]. cbn [hexes].
  by rewrite remove_hex by (by apply upper_hex_byte).
Qed.

Lemma looksHex_hexes s : s ≠ "" → looksHex (hexes s) = true.
Proof.
  intros Hs. unfold looksHex. rewrite runes_hex by apply hexes_bytes.
  by rewrite bool_decide_eq_false_2 by by apply remove_hexes_nonempty.
Qed.

Lemma hex_pairs_without s : has_byte "=" (hex_pairs s) = false.
Proof.
  induction s as [|c s IH]; [done|]. destruct (byte_halves c) as [H1 H2]. cbn [hex_pairs has_byte]. rewrite IH.
  assert (∀ d, 0 ≤ d < 16 → Ascii.eqb (upper_hex d) "=" = false) as Hd.
  { intros d Hd. apply Ascii.eqb_neq. intros E. destruct (upper_hex_byte d Hd) as [Hb _]. by rewrite E in Hb. }
  by rewrite !Hd.
Qed.

(** A wrapped line extends the octets before it. *)
Lemma parse_continuation pdus oid acc s :
  s ≠ "" →
  parse_line (pdus ++ [mkVariable oid OctetString (VBytes acc)]) (hex_pairs s) =
  inr (pdus ++ [mkVariable oid OctetString (VBytes (acc +:+ s))]).
Proof.
  intros Hs. destruct (hexes_tight s Hs) as (Ha & Hl & Hr).
  assert (TrimSpace (hex_pairs s) = hexes s) as Ht.
  { rewrite hex_pairs_hexes, <- (sapp_nil_l (hexes s +:+ " ")) by done. by apply TrimSpace_around. }
  unfold parse_line. rewrite Ht, Index_absent by apply hex_pairs_without.
  replace (bool_decide (hexes s = "")) with false by (symmetry; apply bool_decide_eq_false_2; by destruct s).
  replace (HasPrefix (hexes s) "#") with false; cycle 1.
  { destruct s as [|c s]; [done|]. cbn [hexes HasPrefix]. destruct (Ascii.eqb_spec "#" (upper_hex (byte_val c / 16))) as [E|]; [|done].
    destruct (byte_halves c) as [H1 _]. destruct (upper_hex_byte _ H1) as [Hb _]. by rewrite <- E in Hb. }
  cbn [orb]. unfold appendHexContinuation. rewrite last_snoc. cbn [Type_ Name Value value_bytes].
  rewrite looksHex_hexes, parseHexBytes_hexes by done. rewrite bool_decide_eq_true_2 by done. cbn [negb orb].
  rewrite length_app. cbn [length]. rewrite Nat.add_sub, take_app_length. done.
Qed.

Lemma parse_lines_app pdus l1 l2 : parse_lines pdus (l1 ++ l2) = do pdus' <- parse_lines pdus l1; parse_lines pdus' l2.
Proof. revert pdus. induction l1 as [|x l1 IH]; intros pdus; cbn; [done|]. destruct (parse_line pdus x); cbn; [done|apply IH]. Qed.

Lemma parse_hex_lines n pdus oid acc s :
  (slen s ≤ n)%nat →
  parse_lines (pdus ++ [mkVariable oid OctetString (VBytes acc)]) (hex_lines n s) =
  inr (pdus ++ [mkVariable oid OctetString (VBytes (acc +:+ s))]).
Proof.
  revert acc s. induction n as [|n IH]; intros acc s Hn; cbn [hex_lines parse_lines].
  { destruct s; [by rewrite sapp_nil_r|unfold slen in Hn; cbn in Hn; lia]. }
  case_bool_decide as Hs; [subst; by rewrite sapp_nil_r|]. cbn [parse_lines].
  rewrite parse_continuation by (by destruct s). rewrite IH.
  - by rewrite sapp_assoc, stake_sdrop.
  - rewrite slen_sdrop. lia.
Qed.

(** Decides the comparisons of a type keyword with the known ones. *)
Ltac decide_token :=
  unfold typedValue;
  repeat match goal with
  | |- context [bool_decide ?P] => let b := eval vm_compute in (bool_decide P) in change (bool_decide P) with b
  end; cbv iota.

Ltac token := apply (bool_decide_unpack _); vm_compute; exact I.

(** A variable on one line. *)
Lemma parse_one_line pdus oid typ m v :
  word oid = true → typ ∈ type_tokens → is_ascii m = true ∧ left_tight m ∧ right_tight m → typedValue oid typ m = inr v →
  parse_lines pdus [typed_line oid typ m] = inr (pdus ++ [v]).
Proof.
  intros Ho Ht (Ha & Hl & Hr) Hp. cbn [parse_lines]. rewrite <- (sapp_nil_r m), parse_typed_line, Hp by done. done.
Qed.

Lemma ticks_tight n :
  let m := "(" +:+ Itoa n +:+ ") 0:00:00.00" in is_ascii m = true ∧ left_tight m ∧ right_tight m.
Proof.
  destruct (Itoa_tight n) as (Ha & _ & _). split_and!.
  - by rewrite !is_ascii_app, Ha.
  - done.
  - do 2 apply right_tight_app. exists ") 0:00:00.0", "0"%char. done.
Qed.

Lemma parse_empty_string pdus oid :
  word oid = true →
  parse_lines pdus [oid +:+ separator +:+ String quote (String quote "")] = inr (pdus ++ [mkVariable oid OctetString (VBytes "")]).
Proof.
  intros Ho. destruct (word_tight _ Ho) as (Ha & Hl & Hr). set (q := String quote (String quote "")).
  assert (TrimSpace (oid +:+ separator +:+ q) = oid +:+ separator +:+ q) as Ht.
  { apply TrimSpace_tight; [by rewrite !is_ascii_app, Ha|by apply left_tight_app|]. do 2 apply right_tight_app. by exists (String quote ""), quote. }
  cbn [parse_lines]. unfold parse_line. rewrite Ht. destruct (word_start oid (separator +:+ q) Ho) as [Hne Hh].
  rewrite bool_decide_eq_false_2, Hh by done. cbn [orb]. rewrite Index_separator by (by apply word_spaceless).
  rewrite stake_app, (TrimSpace_tight oid) by done.
  replace (sdrop (slen oid + 3) (oid +:+ separator +:+ q)) with q; [done|].
  rewrite <- (sapp_assoc oid). symmetry. replace (slen oid + 3)%nat with (slen (oid +:+ separator)) by by rewrite slen_app. apply sdrop_app.
Qed.

Lemma parse_octets pdus oid b :
  word oid = true → parse_lines pdus (print_variable (mkVariable oid OctetString (VBytes b))) =
  inr (pdus ++ [mkVariable oid OctetString (VBytes b)]).
Proof.
  intros Ho. unfold print_variable. cbn [Type_ Value Name]. destruct b as [|c b]; [by apply parse_empty_string|].
  set (s := String c b). change (slen s) with (S (slen b)). cbn [hex_lines]. rewrite bool_decide_eq_false_2 by done.
  rewrite hex_pairs_hexes by done. destruct (hexes_tight (stake 16 s)) as (Ha & Hl & Hr); [done|].
  cbn [parse_lines]. rewrite parse_typed_line; [|done|token|done..].
  decide_token. rewrite parseHexBytes_hexes. rewrite parse_hex_lines by (rewrite slen_sdrop; subst s; unfold slen; cbn; lia).
  by rewrite stake_sdrop.
Qed.

(** A variable alone. *)
Lemma parse_printed pdus v : printable_variable v → parse_lines pdus (print_variable v) = inr (pdus ++ [v]).
Proof.
  destruct v as [oid t val]. intros [Ho Hv]. cbn [Name Type_ Value] in *.
  destruct t, val; try done; try by apply parse_octets; unfold print_variable; cbn [Name Type_ Value].
  all: apply parse_one_line; [done|token| |decide_token].
  all: try apply Itoa_tight; try apply word_tight, Hv; try apply ticks_tight; try done.
  - by rewrite Atoi_Itoa.
  - by rewrite ParseUint_Itoa.
  - by rewrite ParseUint_Itoa.
  - rewrite firstUint_ticks by lia. by destruct (Z.ltb_spec (2 ^ 32 - 1) z); [lia|].
  - by rewrite ParseUint_Itoa.
Qed.

(** A variable whose value has the type and range of its tag. *)
Definition well_typed (v : variable) : Prop :=
  match Type_ v, Value v with
  | Integer, VInt n => MinInt ≤ n ≤ MaxInt
  | (Gauge32 | Counter32), VUint n => 0 ≤ n < 2 ^ 32
  | Counter64, VUint64 n => 0 ≤ n < 2 ^ 64
  | TimeTicks, VUint32 n => 0 ≤ n < 2 ^ 32
  | (IPAddress | ObjectIdentifier), VString _ => True
  | OctetString, VBytes _ => True
  | _, _ => False
  end.

Lemma parse_digits_pos acc s v : parse_digits acc s = Some v → 0 ≤ acc → 0 ≤ v.
Proof.
  revert acc. induction s as [|c s IH]; intros acc; cbn; [naive_solver|]. destruct (digit_val c) as [d|] eqn:Hd; [|done].
  apply digit_range in Hd. intros Hp Ha. eapply IH; [exact Hp|lia].
Qed.

Lemma ParseUint_range bits s n : ParseUint bits s = Some n → 0 ≤ n < 2 ^ bits.
Proof.
  unfold ParseUint. case_bool_decide; [done|]. intros (v & Hv & Hr)%bind_Some. destruct (Z.ltb_spec v (2 ^ bits)); [|done].
  injection Hr as <-. split; [by eapply parse_digits_pos|done].
Qed.

Lemma Atoi_range s n : Atoi s = Some n → MinInt ≤ n ≤ MaxInt.
Proof.
  assert (∀ z, (if in_range MinInt MaxInt z then Some z else None) = Some n → MinInt ≤ n ≤ MaxInt) as Hc.
  { intros z. unfold in_range. case_match eqn:E; [|done]. intros [= <-]. bprop. lia. }
  unfold Atoi. destruct s as [|c s]; [done|]. destruct (Ascii.eqb c "-"); [|destruct (Ascii.eqb c "+")].
  - destruct s; [done|]. intros (v & _ & Hv)%bind_Some. by eapply Hc.
  - destruct s; [done|]. intros (v & _ & Hv)%bind_Some. by eapply Hc.
  - intros (v & _ & Hv)%bind_Some. by eapply Hc.
Qed.

Lemma firstUint_range s n : firstUint s = Some n → 0 ≤ n.
Proof.
  induction s as [|c s IH]; cbn [firstUint]; [done|]. destruct (in_range 48 57 (byte_val c)); [|done].
  by intros [? _]%ParseUint_range.
Qed.

Lemma typedValue_typed oid typ val v : typedValue oid typ val = inr v → well_typed v.
Proof.
  unfold typedValue. repeat case_bool_decide; try done; intros Hv;
    repeat match goal with H : match ?x with _ => _ end = _ |- _ => destruct x eqn:?; [|done] end;
    try (destruct (_ <? _) eqn:Hlt in Hv; [done|]); injection Hv as <-; cbn; try done;
    eauto using Atoi_range, ParseUint_range.
  apply Z.ltb_ge in Hlt. apply firstUint_range in Heqo. lia.
Qed.

Lemma parseValue_typed oid rest v : parseValue oid rest = inr v → well_typed v.
Proof.
  unfold parseValue. destruct (IndexByte rest ":") as [[|k]|]; try by intros [= <-].
  destruct (looksLikeTypeToken _); [|by intros [= <-]]. destruct (isTypeToken _); [apply typedValue_typed|done].
Qed.

Lemma parse_line_typed pdus line pdus' : Forall well_typed pdus → parse_line pdus line = inr pdus' → Forall well_typed pdus'.
Proof.
  intros Hp. unfold parse_line. destruct (_ || _); [by intros [= <-]|]. destruct (strings_Index line separator).
  - intros (v & Hv & [= <-])%bind_inr. apply Forall_app. split; [done|]. by eapply Forall_singleton, parseValue_typed.
  - unfold appendHexContinuation. destruct (last pdus) as [p|] eqn:El; [|done]. destruct (_ || _) eqn:Hc; [done|].
    apply orb_false_iff in Hc as [Ht _]. bprop. destruct (parseHexBytes _) as [b|]; [|done]. intros [= <-].
    apply Forall_app. split; [by apply Forall_take|]. apply Forall_singleton. unfold well_typed. cbn. by rewrite Ht.
Qed.

(** ** Claims *)

(** a capture is read back.  What snmpwalk prints for any list of well-formed
    variables, octet strings wrapped over lines of sixteen octets included, is parsed to
    exactly those variables, in order; comments and blank lines anywhere change nothing. *)
Theorem capture_roundtrip (vs : list variable) :
  Forall printable_variable vs →
  parseCapture (print_capture vs) None = inr vs ∧
  (∀ pdus line, TrimSpace line = "" ∨ HasPrefix (TrimSpace line) "#" = true → parse_line pdus line = inr pdus).
Proof.
  intros Hv. split.
  - unfold parseCapture. enough (∀ pdus, parse_lines pdus (print_capture vs) = inr (pdus ++ vs)) as -> by done.
    induction Hv as [|v vs Hp Hv IH]; intros pdus; [by rewrite app_nil_r|]. unfold print_capture. rewrite bind_cons.
    rewrite parse_lines_app, parse_printed by done. fold (print_capture vs). rewrite IH. by rewrite <- app_assoc.
  - intros pdus line [Hh|Hh]; unfold parse_line; [by rewrite Hh|by rewrite Hh, orb_true_r].
Qed.

Definition wide_table : list variable :=
  [mkVariable ".1.3.6.1.2.1.1.3.0" TimeTicks (VUint32 12345); mkVariable ".1.0.8802.1.1.2.1.4.1.1.5.0.1.1" OctetString
     (VBytes "a chassis identifier of more than sixteen bytes"); mkVariable ".1.3.6.1.2.1.2.2.1.1.1" Integer (VInt (-1));
   mkVariable ".1.3.6.1.2.1.14.10.1.1.10.0.0.2.0" IPAddress (VString "10.0.0.2"); mkVariable ".1.3.6.1.2.1.31.1.1.1.18.1" OctetString (VBytes "")].

Lemma capture_roundtrip_witness :
  length (print_capture wide_table) = 7%nat ∧ parseCapture (print_capture wide_table) None = inr wide_table.
Proof.
  split; [vm_compute; reflexivity|]. apply capture_roundtrip.
  repeat (apply Forall_cons; split; [split; [vm_compute; reflexivity|vm_compute; auto; split; discriminate || reflexivity]|]).
  apply Forall_nil_2.
Defined.

(** whatever the text, a variable that is parsed has a value of the type and range
    of its tag: a number that does not fit its SNMP type fails the capture, it is never cut,
    and a scanner error fails it too. *)
Theorem capture_typed (lines : list string) (scan_err : option string) (vs : list variable) :
  parseCapture lines scan_err = inr vs → Forall well_typed vs ∧ scan_err = None.
Proof.
  unfold parseCapture. intros (pdus & Hl & He)%bind_inr. destruct scan_err; [done|]. injection He as <-. split; [|done].
  assert (Forall well_typed []) as H0 by constructor. revert H0 Hl. generalize ([] : list variable).
  induction lines as [|line lines IH]; intros acc Hacc; cbn; [by intros [= <-]|].
  intros (acc' & Hp & Hl)%bind_inr. eapply IH; [|exact Hl]. by eapply parse_line_typed.
Qed.

Lemma capture_typed_witness :
  ∃ vs, parseCapture [".1.3.6.1.2.1.2.2.1.5.1 = Gauge32: 4294967295"] None = inr vs ∧ Forall well_typed vs ∧
    parseCapture [".1.3.6.1.2.1.2.2.1.5.1 = Gauge32: 4294967296"] None = inl "Gauge32: bad value".
Proof.
  exists [mkVariable ".1.3.6.1.2.1.2.2.1.5.1" Gauge32 (VUint 4294967295)].
  assert (parseCapture [".1.3.6.1.2.1.2.2.1.5.1 = Gauge32: 4294967295"] None =
    inr [mkVariable ".1.3.6.1.2.1.2.2.1.5.1" Gauge32 (VUint 4294967295)]) as Hp by (vm_compute; reflexivity).
  split; [exact Hp|]. split; [exact (proj1 (capture_typed _ None _ Hp))|]. vm_compute. reflexivity.
Defined.

(** The comment speaks of the preceding Hex-STRING; a line of hexadecimal digits is folded
    into a preceding text string too. *)
Example text_swallows_line :
  parseCapture [".1.3.6.1.2.1.1.5.0 = STRING: first"; "cafe"] None =
  inr [mkVariable ".1.3.6.1.2.1.1.5.0" OctetString (VBytes ("first" +:+ octet_string [202; 254]))].
Proof. vm_compute. reflexivity. Qed.
