(* ===== verification/Spoke.v ===== *)
(** * internal/federation/spoke.go and internal/app/spoke_pusher.go

    The spoke's side of the federation: one push with its retries, and the
    latest-only mailbox that decouples pushes from discovery cycles.  JSON, gzip and
    the HTTP transport are not modelled: a response is its status code, and the
    marshalled body is not looked into. *)

From Stdlib Require Import ZArith Lia.
From S2P Require Import Prelude GoText Discovery.
Open Scope Z_scope.

(** ** One attempt *)

(** What [client.Do] gives back. *)
Inductive http_outcome :=
| TransportError
| Response (StatusCode : Z).

Inductive push_error :=
| PushTransport
| PushStatus (code : Z)
| Fatal (code : Z)
| CtxErr
| Exhausted (e : push_error).

Definition post (r : http_outcome) : push_error + unit :=
  match r with
  | TransportError => inl PushTransport
  | Response code =>
      if code =? 204 then inr tt
      else if (400 <=? code) && (code <? 500) && negb (code =? 429) then inl (Fatal code)
      else inl (PushStatus code)
  end.

(** ** Retries *)

Definition spokePushBaseBackoff : duration := Second.
Definition maxAttempts : nat := 5.

(** [rand.N(half)]: a value of the half-open range. *)
Class Jitter := {
  rand_N : nat → duration → duration;
  rand_N_range : ∀ k half, 0 < half → 0 ≤ rand_N k half < half
}.

#[refine] Definition no_jitter : Jitter := {| rand_N _ _ := 0 |}.
Proof. lia. Defined.

Section Push.
Context `{J : Jitter}.

Definition jitteredBackoff (k : nat) (d : duration) : duration :=
  let half := Z.quot d 2 in
  if half <=? 0 then d else half + rand_N k half.

(** The surroundings of an attempt: the context before it, the response, and the
    context while the loop waits. *)
Record attempt_env := mkAttempt {
  at_done : bool;
  at_response : http_outcome;
  at_done_waiting : bool
}.

(** What a push did: its result, the responses it received, the delays it waited
    and the increments of the failure counter. *)
Record push_out := mkPush {
  po_result : push_error + unit;
  po_posts : list http_outcome;
  po_waits : list duration;
  po_failures : Z
}.

Definition after_post (r : http_outcome) (out : push_out) : push_out :=
  mkPush (po_result out) (r :: po_posts out) (po_waits out) (po_failures out).

Definition after_wait (d : duration) (out : push_out) : push_out :=
  mkPush (po_result out) (po_posts out) (d :: po_waits out) (po_failures out).

(** The loop, with [left] attempts left; [attempt] is [maxAttempts + 1 - left]. *)
Fixpoint push_loop (env : nat → attempt_env) (left : nat) (attempt : nat) (backoff : duration)
    (lastErr : push_error) : push_out :=
  match left with
  | O => mkPush (inl (Exhausted lastErr)) [] [] 1
  | S left' =>
      let a := env attempt in
      if at_done a then mkPush (inl CtxErr) [] [] 0
      else
        after_post (at_response a)
          match post (at_response a) with
          | inr _ => mkPush (inr tt) [] [] 0
          | inl (Fatal code) => mkPush (inl (Fatal code)) [] [] 1
          | inl err =>
              match left' with
              | O => push_loop env left' (S attempt) backoff err
              | _ =>
                  if at_done_waiting a then mkPush (inl CtxErr) [] [] 0
                  else after_wait (jitteredBackoff attempt backoff)
                         (push_loop env left' (S attempt) (backoff * 2) err)
              end
          end
  end.

Definition Push (env : nat → attempt_env) : push_out :=
  push_loop env maxAttempts 1 spokePushBaseBackoff PushTransport.

(** [doPush] of the pusher: the failure counter after a push, and whether the
    time of the last success was set. *)
Definition doPush (ctxDone : bool) (env : nat → attempt_env) : Z * bool :=
  let out := Push env in
  match po_result out with
  | inl _ => (po_failures out + (if ctxDone then 0 else 1), false)
  | inr _ => (po_failures out, true)
  end.
End Push.

(** ** The mailbox *)

Section Mailbox.
Context {A : Type}.

(** Where the producer is inside [Enqueue]: not in it; its first send found the
    slot full; it has drained the slot. *)
Inductive enq_phase := EIdle | EFull (q : A) | EDrained (q : A).

(** Where [run] is: at its select; inside [doPush]; in [drainOnce] before the
    receive; in the final push; returned. *)
Inductive run_phase := RIdle | RPush (q : A) | RDrain | RFinal (q : A) | RStopped.

(** The last three fields are the history: payloads given to [Enqueue], payloads
    handed to the push function, payloads counted as superseded. *)
Record spokePusher := mkPusher {
  ch : option A;
  enq : enq_phase;
  run : run_phase;
  ctx_done : bool;
  enqueued : list A;
  pushed : list A;
  superseded : list A
}.

Definition newSpokePusher : spokePusher := mkPusher None EIdle RIdle false [] [] [].

Inductive pusher_step : spokePusher → spokePusher → Prop :=
| step_send q r d hs ps ss :
    pusher_step (mkPusher None EIdle r d hs ps ss)
                (mkPusher (Some q) EIdle r d (hs ++ [q]) ps ss)
| step_full q x r d hs ps ss :
    pusher_step (mkPusher (Some x) EIdle r d hs ps ss)
                (mkPusher (Some x) (EFull q) r d (hs ++ [q]) ps ss)
| step_supersede q x r d hs ps ss :
    pusher_step (mkPusher (Some x) (EFull q) r d hs ps ss)
                (mkPusher None (EDrained q) r d hs ps (ss ++ [x]))
| step_taken q r d hs ps ss :
    pusher_step (mkPusher None (EFull q) r d hs ps ss)
                (mkPusher None (EDrained q) r d hs ps ss)
| step_resend q r d hs ps ss :
    pusher_step (mkPusher None (EDrained q) r d hs ps ss)
                (mkPusher (Some q) EIdle r d hs ps ss)
| step_lost q x r d hs ps ss :
    pusher_step (mkPusher (Some x) (EDrained q) r d hs ps ss)
                (mkPusher (Some x) EIdle r d hs ps ss)
| step_take q e d hs ps ss :
    pusher_step (mkPusher (Some q) e RIdle d hs ps ss)
                (mkPusher None e (RPush q) d hs (ps ++ [q]) ss)
| step_pushed q c e d hs ps ss :
    pusher_step (mkPusher c e (RPush q) d hs ps ss) (mkPusher c e RIdle d hs ps ss)
| step_cancel c e r hs ps ss :
    pusher_step (mkPusher c e r false hs ps ss) (mkPusher c e r true hs ps ss)
| step_done c e hs ps ss :
    pusher_step (mkPusher c e RIdle true hs ps ss) (mkPusher c e RDrain true hs ps ss)
| step_final q e d hs ps ss :
    pusher_step (mkPusher (Some q) e RDrain d hs ps ss)
                (mkPusher None e (RFinal q) d hs (ps ++ [q]) ss)
| step_empty e d hs ps ss :
    pusher_step (mkPusher None e RDrain d hs ps ss) (mkPusher None e RStopped d hs ps ss)
| step_stopped q c e d hs ps ss :
    pusher_step (mkPusher c e (RFinal q) d hs ps ss) (mkPusher c e RStopped d hs ps ss).

Definition in_hand (e : enq_phase) : list A :=
  match e with EIdle => [] | EFull q | EDrained q => [q] end.

Record pusher_inv (s : spokePusher) : Prop := {
  pi_drained : ∀ q, enq s = EDrained q → ch s = None;
  pi_history : ∃ done, enqueued s = done ++ option_list (ch s) ++ in_hand (enq s) ∧
    pushed s `sublist_of` done ∧ superseded s `sublist_of` done ∧ done ≡ₚ pushed s ++ superseded s ∧
    (enq s = EIdle → ch s = None → last done = last (pushed s))
}.
End Mailbox.

(** ** Lemmas *)

Definition retryable (r : http_outcome) : Prop :=
  match r with
  | TransportError => True
  | Response code => code ≠ 204 ∧ ¬ (400 ≤ code < 500 ∧ code ≠ 429)
  end.

Lemma post_cases r :
  match post r with
  | inr _ => r = Response 204
  | inl (Fatal code) => r = Response code ∧ 400 ≤ code < 500 ∧ code ≠ 429
  | inl e => retryable r ∧ (e = PushTransport ∨ ∃ code, e = PushStatus code)
  end.
Proof.
  destruct r as [|code]; cbn; [eauto|]. destruct (code =? 204) eqn:H1; bprop; [by subst|].
  destruct (_ && _) eqn:H2; bprop; [done|]. cbn. split; [|eauto]. split; [done|]. intros [[? ?] ?].
  destruct H2 as [[H2|H2]%andb_false_iff|H2]; bprop; lia.
Qed.

(** Every response but the last let the loop go on. *)
Fixpoint all_but_last (P : http_outcome → Prop) (l : list http_outcome) : Prop :=
  match l with
  | [] | [_] => True
  | r :: l' => P r ∧ all_but_last P l'
  end.

(** The [k]-th delay lies between half of the doubled base and the whole. *)
Fixpoint delays_ok (backoff : duration) (ws : list duration) : Prop :=
  match ws with
  | [] => True
  | w :: ws' => Z.quot backoff 2 ≤ w < backoff ∧ delays_ok (backoff * 2) ws'
  end.

Lemma jitteredBackoff_range `{Jitter} k d : 2 ≤ d → Z.quot d 2 ≤ jitteredBackoff k d < d.
Proof.
  intros Hd. unfold jitteredBackoff. assert (0 < Z.quot d 2) by (apply Z.quot_str_pos; lia).
  destruct (_ <=? _) eqn:E; bprop; [lia|]. pose proof (rand_N_range k (Z.quot d 2) ltac:(lia)).
  assert (2 * Z.quot d 2 ≤ d) by (apply Z.mul_quot_le; lia). lia.
Qed.

Record push_spec (left : nat) (backoff : duration) (out : push_out) : Prop := {
  ps_posts : (length (po_posts out) ≤ left)%nat;
  ps_waits : (length (po_waits out) ≤ pred left)%nat;
  ps_delays : delays_ok backoff (po_waits out);
  ps_on : all_but_last retryable (po_posts out);
  ps_ok : po_result out = inr tt ↔ last (po_posts out) = Some (Response 204);
  ps_counted : po_failures out = match po_result out with
               | inl (Exhausted _) | inl (Fatal _) => 1
               | _ => 0
               end;
  ps_exhausted : (∃ e, po_result out = inl (Exhausted e)) →
    length (po_posts out) = left ∧ Forall retryable (po_posts out)
}.

Lemma all_but_last_cons P r l : P r → all_but_last P l → all_but_last P (r :: l).
Proof. intros Hr Hl. by destruct l. Qed.

Lemma push_loop_retry left backoff r w out :
  retryable r → left ≠ O → Z.quot backoff 2 ≤ w < backoff →
  push_spec left (backoff * 2) out →
  push_spec (S left) backoff (after_post r (after_wait w out)).
Proof.
  intros Hr Hl Hw [H1 H2 H3 H4 H5 H6 H7]. split; cbn.
  - lia.
  - lia.
  - done.
  - by apply all_but_last_cons.
  - rewrite H5, last_cons. destruct (last (po_posts out)) eqn:Hlast; [done|].
    split; [done|]. intros [= ->]. cbn in Hr. by destruct Hr.
  - done.
  - intros [Hlen Hall]%H7. split; [lia|by constructor].
Qed.

Lemma push_loop_spec `{Jitter} env left attempt backoff e :
  2 ≤ backoff → push_spec left backoff (push_loop env left attempt backoff e).
Proof.
  revert attempt backoff e. induction left as [|left IH]; intros attempt backoff e Hb.
  { split; cbn; try done; try lia. }
  cbn [push_loop]. destruct (at_done (env attempt)); [split; cbn; try done; try lia; by intros [? ?]|].
  pose proof (post_cases (at_response (env attempt))) as Hp.
  set (r := at_response (env attempt)) in *. destruct (post r) as [err|[]] eqn:Hpost.
  2:{ subst r. rewrite Hp. split; cbn; try done; try lia; by intros [? ?]. }
  assert ((∃ code, err = Fatal code) ∨ retryable r ∧ (err = PushTransport ∨ ∃ code, err = PushStatus code))
    as [[code ->]|[Hr Herr]] by (destruct err; eauto).
  { destruct Hp as [-> Hc]. split; cbn; try done; try lia; [|by intros [? ?]].
    split; [done|]. intros [= ->]. lia. }
  replace (match err with Fatal code => _ | _ => _ end) with
    (match left with
     | O => push_loop env left (S attempt) backoff err
     | S _ => if at_done_waiting (env attempt) then mkPush (inl CtxErr) [] [] 0
              else after_wait (jitteredBackoff attempt backoff) (push_loop env left (S attempt) (backoff * 2) err)
     end) by (destruct Herr as [->|[? ->]]; done).
  destruct left as [|left'].
  { split; cbn; try done; try lia; [|auto]. split; [done|]. intros [= Heq]. rewrite Heq in Hr. by destruct Hr. }
  destruct (at_done_waiting (env attempt)).
  { split; cbn; try done; try lia; [|by intros [? ?]]. split; [done|]. intros [= Heq]. rewrite Heq in Hr. by destruct Hr. }
  apply push_loop_retry; [done..|by apply jitteredBackoff_range|]. apply IH. lia.
Qed.

Lemma delays_sum n ws : (length ws ≤ n)%nat → ∀ b, 0 < b → delays_ok b ws →
  foldr Z.add 0 ws ≤ b * (2 ^ Z.of_nat n - 1).
Proof.
  revert ws. induction n as [|n IH]; intros [|w ws] Hl b Hb Hd; cbn [foldr length delays_ok] in *; try lia.
  { apply Z.mul_nonneg_nonneg; [lia|]. pose proof (Z.pow_pos_nonneg 2 (Z.of_nat (S n))). lia. }
  destruct Hd as [Hw Hd]. specialize (IH ws ltac:(lia) (b * 2) ltac:(lia) Hd).
  rewrite Nat2Z.inj_succ, Z.pow_succ_r by lia. lia.
Qed.

(** *** The mailbox *)

Lemma pusher_inv_step {A} (s s' : spokePusher (A := A)) : pusher_inv s → pusher_step s s' → pusher_inv s'.
Proof.
  intros [Hd (done & Hh & Hp & Hs & Hperm & Hlast)] Hstep.
  destruct Hstep; cbn in *; split; cbn; try done; try (intros ? [= ->]; by apply (Hd q)).
  all: try (exists done; rewrite ?app_nil_r in *; split_and!; done).
  - exists done. rewrite Hh, app_nil_r. split_and!; done.
  - exists done. rewrite Hh, <-app_assoc. split_and!; done.
  - exists (done ++ [x]). rewrite Hh, <-app_assoc. cbn. split_and!; [done|..|done].
    + by apply sublist_inserts_r.
    + by apply sublist_app.
    + by rewrite Hperm, <-app_assoc.
  - specialize (Hd q eq_refl). done.
  - exists (done ++ [q]). rewrite Hh, <-app_assoc. cbn. split_and!; [done|..].
    + by apply sublist_app.
    + by apply sublist_inserts_r.
    + rewrite Hperm, <-!app_assoc. f_equiv. apply Permutation_app_comm.
    + intros _ _. by rewrite !last_snoc.
  - exists (done ++ [q]). rewrite Hh, <-app_assoc. cbn. split_and!; [done|..].
    + by apply sublist_app.
    + by apply sublist_inserts_r.
    + rewrite Hperm, <-!app_assoc. f_equiv. apply Permutation_app_comm.
    + intros _ _. by rewrite !last_snoc.
Qed.

Lemma pusher_reachable {A} (s : spokePusher (A := A)) : rtc pusher_step newSpokePusher s → pusher_inv s.
Proof.
  assert (pusher_inv (newSpokePusher (A := A))) as H0 by (split; [done|]; exists []; split_and!; done).
  revert H0. generalize (newSpokePusher (A := A)). intros s0 H0.
  induction 1 as [s0|s0 s1 s2 Hstep _ IH]; [done|]. by eapply IH, pusher_inv_step.
Qed.

(** ** Properties *)

(** C39: The retries of a push. A push makes at most five attempts; it goes on after
    an attempt only when the failure was a transport error or a status other than
    the client errors that are not 429; it succeeds exactly when its last response
    is 204. The delays double from one second, each jittered into the upper half of
    its nominal value, and add up to at most fifteen seconds. The failure counter is
    incremented once when the attempts are exhausted or the failure was fatal, and
    not when the context ended the push; exhaustion means five retryable failures. *)
Theorem push_retries `{Jitter} env :
  let out := Push env in
  (length (po_posts out) ≤ 5)%nat ∧
  all_but_last retryable (po_posts out) ∧
  (po_result out = inr tt ↔ last (po_posts out) = Some (Response 204)) ∧
  delays_ok Second (po_waits out) ∧ foldr Z.add 0 (po_waits out) ≤ 15 * Second ∧
  po_failures out = match po_result out with
                    | inl (Exhausted _) | inl (Fatal _) => 1
                    | _ => 0
                    end ∧
  ((∃ e, po_result out = inl (Exhausted e)) →
   length (po_posts out) = 5%nat ∧ Forall retryable (po_posts out)).
Proof.
  intros out. destruct (push_loop_spec env maxAttempts 1 spokePushBaseBackoff PushTransport ltac:(done))
    as [H1 H2 H3 H4 H5 H6 H7]. split_and!; try done.
  pose proof (delays_sum 4 (po_waits out) H2 Second ltac:(done) H3) as Hs.
  change (2 ^ Z.of_nat 4 - 1) with 15 in Hs. lia.
Qed.

(** The mailbox of the pusher. In every interleaving of the discovery loop with
    the pushing goroutine, payloads are pushed in the order they were enqueued and
    at most once; every enqueued payload is pushed, counted as superseded, or still
    held; the slot is free when [Enqueue] sends again, so the newest payload is
    never lost: when [Enqueue] has returned, it is in the slot or was the last one
    handed to the push function. *)
Theorem mailbox_latest_wins {A} (s : spokePusher (A := A)) :
  rtc pusher_step newSpokePusher s →
  pushed s `sublist_of` enqueued s ∧
  enqueued s ≡ₚ pushed s ++ superseded s ++ option_list (ch s) ++ in_hand (enq s) ∧
  (∀ q, enq s = EDrained q → ch s = None) ∧
  (enq s = EIdle →
   last (enqueued s) = match ch s with Some q => Some q | None => last (pushed s) end).
Proof.
  intros [Hd (done & Hh & Hp & Hs & Hperm & Hlast)]%pusher_reachable. rewrite Hh. split_and!.
  - by apply sublist_inserts_r.
  - by rewrite Hperm, <-app_assoc.
  - done.
  - intros He. rewrite He. destruct (ch s) as [q|]; cbn; [by rewrite last_snoc|].
    rewrite app_nil_r. auto.
Qed.

(** Three payloads arrive while the first is being pushed: the second is
    superseded. *)
Lemma mailbox_latest_wins_witness :
  let s := mkPusher (A := Z) (Some 3) EIdle (RPush 1) false [1; 2; 3] [1] [2] in
  rtc pusher_step newSpokePusher s ∧ last (enqueued s) = Some 3.
Proof.
  intros s. assert (rtc pusher_step newSpokePusher s) as Hs.
  { eapply rtc_l; [apply (step_send 1)|]. eapply rtc_l; [apply step_take|].
    eapply rtc_l; [apply (step_send 2)|]. eapply rtc_l; [apply (step_full 3)|].
    eapply rtc_l; [apply step_supersede|]. eapply rtc_l; [apply step_resend|]. apply rtc_refl. }
  split; [exact Hs|]. exact (proj2 (proj2 (proj2 (mailbox_latest_wins s Hs))) eq_refl).
Defined.

(** A push that fails while its context is alive is counted twice, by [Push] and by
    [doPush]. *)
Example failed_push_counted_twice :
  doPush (J := no_jitter) false (λ _, mkAttempt false (Response 503) false) = (2, false).
Proof. reflexivity. Qed.

