(* ===== verification/SharedSnapshot.v ===== *)
(** * A snapshot file shared by the replicas of a hub

    The composition of [Leadership], [SnapshotWriter] and [Snapshot] over a volume that the
    replicas of a hub with HA share (docs/operator/federation.md, "Optional shared
    snapshot").  Write and Load of snapshot/snapshot.go are cut here at their calls to the
    operating system, so that the calls of several processes interleave in any order, and so
    that a crash can stop one at any of them; run alone, the cut routine is [Write] of
    [Snapshot]. *)

From Stdlib Require Import ZArith Lia.
From S2P Require Import Prelude GoText Discovery HubValidate GraphKeys Reconcile HubMerge Hub Snapshot SnapshotWriter Leadership.
Open Scope Z_scope.

(** ** One call, cut at its system calls *)

(** Where a call of Write is, or of the Load of a start: about to read the file, to open a
    quarantine slot, to fill or to drop it, to remove the original; past the fence; about
    to fill the temporary file, to drop it, to rename it. *)
Inductive pc :=
  | PRead
  | PBadOpen (b : string) (i : nat)
  | PBadWrite (b dst : string)
  | PBadClean (dst : string)
  | PBadRemove
  | PMarshal
  | PTmpWrite (b tmp : string)
  | PTmpClean (tmp : string) (e : write_error)
  | PRename (b tmp : string)
  | PDone (err : option write_error).

(** A call: the file it writes and the time it stamps (none: a Load), where it is, and what
    its fence read, if it has read. *)
Record proc := mkProc { p_job : option (File * time); p_pc : pc; p_base : option (option string) }.

Section Calls.
Context `{MR : MapRange} `{C : Codec} (path : string).

Definition goto (p : proc) (l : pc) : proc := mkProc (p_job p) l (p_base p).

(** After a Load: a start is done; Write goes on. *)
Definition after_load (p : proc) : pc := match p_job p with None => PDone None | Some _ => PMarshal end.

(** A call begins: only a fenced write reads first. *)
Definition begin_write (f : File) (now : time) : proc :=
  mkProc (Some (f, now)) (if 0 <? LeaseEpoch f then PRead else PMarshal) None.

Definition begin_load : proc := mkProc None PRead None.

(** What the bytes of a file are to Load. *)
Inductive reading := Corrupt | Invalid | Intact (f : File).

Definition read_as (b : string) : reading :=
  match unmarshal b with
  | None => Corrupt
  | Some f =>
      if negb (Version f =? CurrentVersion) then Corrupt
      else match validateSnapshotFields f with [] => Intact f | _ => Invalid end
  end.

Definition refused (p : proc) (existing : File) : bool :=
  match p_job p with Some (f, _) => LeaseEpoch f <? LeaseEpoch existing | None => false end.

(** The next system call: [ft] says which fail, [tmp] is the name os.CreateTemp picks and
    [part] what a failing write leaves. *)
Definition call_step (ft : faults) (tmp part : string) (fs : FS) (p : proc) : FS * proc :=
  match p_pc p with
  | PRead =>
      if read_fails ft then (fs, goto p (after_load p))
      else
        let seen l := mkProc (p_job p) l (Some (fs !! path)) in
        match fs !! path with
        | None => (fs, seen (after_load p))
        | Some b =>
            match read_as b with
            | Corrupt => (fs, seen (PBadOpen b 0))
            | Invalid => (fs, seen (after_load p))
            | Intact existing => (fs, seen (if refused p existing then PDone (Some ErrStaleEpoch) else after_load p))
            end
        end
  | PBadOpen b i =>
      if bool_decide (maxAttempts ≤ i)%nat then ((os_Remove ft fs path).1, goto p (after_load p))
      else
        let dst := bad_name path i in
        if bool_decide (is_Some (fs !! dst)) then (fs, goto p (PBadOpen b (S i)))
        else if open_fails ft dst then (fs, goto p (after_load p))
        else (<[dst := ""]> fs, goto p (PBadWrite b dst))
  | PBadWrite b dst =>
      if bad_write_fails ft || bad_close_fails ft then (fs, goto p (PBadClean dst))
      else (<[dst := b]> fs, goto p PBadRemove)
  | PBadClean dst => ((os_Remove ft fs dst).1, goto p (after_load p))
  | PBadRemove => ((os_Remove ft fs path).1, goto p (after_load p))
  | PMarshal =>
      match p_job p with
      | None => (fs, goto p (PDone None))
      | Some (f, now) =>
          match marshal (stamp now f) with
          | None => (fs, goto p (PDone (Some ErrMarshal)))
          | Some b =>
              if mkdir_fails ft then (fs, goto p (PDone (Some ErrMkdir)))
              else if temp_fails ft then (fs, goto p (PDone (Some ErrTemp)))
              else (<[tmp := ""]> fs, goto p (PTmpWrite b tmp))
          end
      end
  | PTmpWrite b t =>
      if tmp_write_fails ft then (<[t := part]> fs, goto p (PTmpClean t ErrTmpWrite))
      else if sync_fails ft then (<[t := b]> fs, goto p (PTmpClean t ErrSync))
      else if tmp_close_fails ft then (<[t := b]> fs, goto p (PTmpClean t ErrTmpClose))
      else (<[t := b]> fs, goto p (PRename b t))
  | PTmpClean t e => ((os_Remove ft fs t).1, goto p (PDone (Some e)))
  | PRename b t =>
      if rename_fails ft then (fs, goto p (PTmpClean t ErrRename))
      else match fs !! t with
           | None => (fs, goto p (PTmpClean t ErrRename))
           | Some contents => (<[path := contents]> (delete t fs), goto p (PDone None))
           end
  | PDone _ => (fs, p)
  end.

(** A call that nothing interrupts. *)
Fixpoint alone (ft : faults) (tmp part : string) (n : nat) (s : FS * proc) : FS * proc :=
  match n with O => s | S n => alone ft tmp part n (call_step ft tmp part s.1 s.2) end.

Lemma alone_app ft tmp part n m s : alone ft tmp part (n + m) s = alone ft tmp part m (alone ft tmp part n s).
Proof. revert s. induction n as [|n IH]; intros s; [done|]. apply IH. Qed.

(** The end of Write, after the fence. *)
Definition write_end (ft : faults) (now : time) (tmp part : string) (fs : FS) (f : File) : FS * pc :=
  match marshal (stamp now f) with
  | None => (fs, PDone (Some ErrMarshal))
  | Some b =>
      if mkdir_fails ft then (fs, PDone (Some ErrMkdir))
      else if temp_fails ft then (fs, PDone (Some ErrTemp))
      else
        let fs1 := <[tmp := ""]> fs in
        if tmp_write_fails ft then ((os_Remove ft (<[tmp := part]> fs1) tmp).1, PDone (Some ErrTmpWrite))
        else
          let fs2 := <[tmp := b]> fs1 in
          let undone := (os_Remove ft fs2 tmp).1 in
          if sync_fails ft then (undone, PDone (Some ErrSync))
          else if tmp_close_fails ft then (undone, PDone (Some ErrTmpClose))
          else if rename_fails ft then (undone, PDone (Some ErrRename))
          else (<[path := b]> (delete tmp fs2), PDone None)
  end.

(** The part of a call after its fence. *)
Lemma alone_tail ft tmp part fs p f now :
  p_job p = Some (f, now) → p_pc p = PMarshal → tmp ≠ path →
  ∃ n, let '(fs', p') := alone ft tmp part n (fs, p) in
    p_job p' = Some (f, now) ∧
    (fs', p_pc p') =
      write_end ft now tmp part fs f.
Proof.
  intros Hj Hp Hne. destruct p as [j l base]. cbn in Hj, Hp. subst j l. unfold write_end.
  destruct (marshal (stamp now f)) as [b|] eqn:Hm; [|exists 1%nat; cbn; by rewrite Hm].
  destruct (mkdir_fails ft) eqn:H1; [exists 1%nat; cbn; by rewrite Hm, H1|].
  destruct (temp_fails ft) eqn:H2; [exists 1%nat; cbn; by rewrite Hm, H1, H2|].
  destruct (tmp_write_fails ft) eqn:H3; [exists 3%nat; cbn; by rewrite Hm, H1, H2; cbn; rewrite H3|].
  destruct (sync_fails ft) eqn:H4; [exists 3%nat; cbn; by rewrite Hm, H1, H2; cbn; rewrite H3, H4|].
  destruct (tmp_close_fails ft) eqn:H5; [exists 3%nat; cbn; by rewrite Hm, H1, H2; cbn; rewrite H3, H4, H5|].
  destruct (rename_fails ft) eqn:H6;
    [exists 4%nat; cbn; by rewrite Hm, H1, H2; cbn; rewrite H3, H4, H5; cbn; rewrite H6|].
  exists 3%nat. cbn. rewrite Hm, H1, H2. cbn. rewrite H3, H4, H5. cbn. rewrite H6, lookup_insert_eq. done.
Qed.

(** The quarantine of a call. *)
Lemma alone_quarantine ft tmp part fs p b i fuel :
  p_pc p = PBadOpen b i → (i + fuel = maxAttempts)%nat →
  ∃ n, let '(fs', p') := alone ft tmp part n (fs, p) in
    p_job p' = p_job p ∧ p_pc p' = after_load p ∧ fs' = (quarantine_from ft path b i fuel fs).1.
Proof.
  revert i p. induction fuel as [|fuel IH]; intros i [j l base] Hp Hi; cbn in Hp; subst l.
  { exists 1%nat. cbn [alone call_step p_pc p_job fst snd]. rewrite bool_decide_true by lia. by cbn. }
  cbn [quarantine_from]. case_bool_decide as Hex.
  - destruct (IH (S i) (mkProc j (PBadOpen b (S i)) base) eq_refl ltac:(lia)) as [n Hn]. exists (S n).
    cbn [alone call_step p_pc p_job fst snd]. rewrite bool_decide_false by lia. by rewrite bool_decide_true.
  - destruct (open_fails ft (bad_name path i)) eqn:Ho.
    { exists 1%nat. cbn [alone call_step p_pc p_job fst snd]. rewrite bool_decide_false by lia.
      rewrite bool_decide_false by done. rewrite Ho. done. }
    exists 3%nat. cbn [alone call_step p_pc p_job fst snd]. rewrite bool_decide_false by lia.
    rewrite bool_decide_false by done. rewrite Ho. cbn [goto p_pc p_job p_base fst snd].
    unfold call_step at 2 3. cbn [goto p_pc p_job p_base fst snd].
    destruct (bad_write_fails ft || bad_close_fails ft); cbn; [done|]. by rewrite insert_insert_eq.
Qed.

Lemma Write_end ft now tmp part fs f :
  let '(_, final, err) := Write ft now tmp part fs path f in
  (final, PDone err) =
    (let '(fs0, stale) := fence ft fs path f in if stale then (fs0, PDone (Some ErrStaleEpoch)) else write_end ft now tmp part fs0 f).
Proof.
  unfold Write, write_end. destruct (fence ft fs path f) as [fs0 []]; [done|]. destruct (marshal _); [|done].
  destruct (mkdir_fails ft); [done|]. destruct (temp_fails ft); [done|]. cbv zeta.
  destruct (tmp_write_fails ft); [done|]. destruct (sync_fails ft); [done|]. destruct (tmp_close_fails ft); [done|].
  by destruct (rename_fails ft).
Qed.

(** The fence of a call. *)
Lemma alone_fence ft tmp part fs f now :
  ∃ n, let '(fs', p') := alone ft tmp part n (fs, begin_write f now) in
    p_job p' = Some (f, now) ∧ fs' = (fence ft fs path f).1 ∧
    p_pc p' = if (fence ft fs path f).2 then PDone (Some ErrStaleEpoch) else PMarshal.
Proof.
  unfold fence, begin_write. destruct (0 <? LeaseEpoch f); [|by exists O].
  assert (∀ b, fs !! path = Some b → read_fails ft = false → read_as b = Corrupt →
    ∃ n, let '(fs', p') := alone ft tmp part n (fs, mkProc (Some (f, now)) PRead None) in
      p_job p' = Some (f, now) ∧ fs' = (quarantine ft fs path b).1 ∧ p_pc p' = PMarshal) as Hq.
  { intros b Hb Hr Hc.
    destruct (alone_quarantine ft tmp part fs (mkProc (Some (f, now)) (PBadOpen b 0) (Some (Some b))) b 0 maxAttempts eq_refl eq_refl)
      as [n Hn]. exists (S n). cbn [alone call_step p_pc p_job fst snd]. rewrite Hr, Hb, Hc.
    destruct (alone _ _ _ n _) as [fs' p']. by destruct Hn as (-> & -> & ->). }
  unfold Load. destruct (read_fails ft) eqn:Hr; [exists 1%nat; cbn; by rewrite Hr|].
  destruct (fs !! path) as [b|] eqn:Hb; [|exists 1%nat; cbn; by rewrite Hr, Hb].
  specialize (Hq b eq_refl eq_refl). unfold read_as in Hq.
  destruct (unmarshal b) as [g|] eqn:Hu; [|by apply Hq].
  destruct (negb (Version g =? CurrentVersion)) eqn:Hv; [by apply Hq|]. clear Hq.
  exists 1%nat. cbn. rewrite Hr, Hb. unfold read_as. rewrite Hu, Hv. by destruct (validateSnapshotFields g).
Qed.

(** the routine cut at its system calls is Write: a call that nothing interrupts ends,
    and leaves the file system and returns the error that [Write] gives for the same
    faults. *)
Theorem uninterrupted_write ft now tmp part fs f :
  tmp ≠ path →
  let '(_, final, err) := Write ft now tmp part fs path f in
  ∃ n, let '(fs', p') := alone ft tmp part n (fs, begin_write f now) in fs' = final ∧ p_pc p' = PDone err.
Proof.
  intros Hne.
  assert (∀ fs0 p, p_job p = Some (f, now) → p_pc p = PMarshal →
    ∃ n, let '(fs', p') := alone ft tmp part n (fs0, p) in (fs', p_pc p') = write_end ft now tmp part fs0 f) as Htail.
  { intros fs0 p Hj Hp. destruct (alone_tail ft tmp part fs0 p f now Hj Hp Hne) as [n Hn]. exists n.
    destruct (alone _ _ _ n _). by destruct Hn. }
  pose proof (Write_end ft now tmp part fs f) as Hw. pose proof (alone_fence ft tmp part fs f now) as [n Hn].
  destruct (Write ft now tmp part fs path f) as [[trace final] err].
  destruct (alone ft tmp part n _) as [fs0 p0] eqn:Ha, (fence ft fs path f) as [fs0' []]; cbn in Hn; destruct Hn as (Hj & -> & Hp).
  { exists n. rewrite Ha. injection Hw as -> ->. done. }
  destruct (Htail fs0' p0 Hj Hp) as [m Hm]. exists (n + m)%nat. rewrite alone_app, Ha.
  destruct (alone ft tmp part m _) as [fs' p']. rewrite <- Hw in Hm. by injection Hm as -> ->.
Qed.

(** *** A crash at any system call *)

Lemma os_Remove_path ft fs p q : (os_Remove ft fs p).1 !! q = fs !! q ∨ (os_Remove ft fs p).1 !! q = None.
Proof. destruct (os_Remove_cases ft fs p q) as [?|[_ ?]]; auto. Qed.

Section Crash.
Context (ft : faults) (tmp part : string) (fs0 : gmap string string) (f : File) (now : time).
Context (tmp_path : tmp ≠ path) (tmp_bad : ∀ j, tmp ≠ bad_name path j).

(** A fenced write that found a corrupt file moved it away: its bytes are in a quarantine
    slot that was free, or no slot was free. *)
Definition moved (fs : FS) : Prop :=
  fs !! path = None ∧ 0 < LeaseEpoch f ∧ ∃ b, fs0 !! path = Some b ∧ read_as b = Corrupt ∧
    ((∃ j, (j < maxAttempts)%nat ∧ fs0 !! bad_name path j = None ∧ fs !! bad_name path j = Some b) ∨
     ∀ j, (j < maxAttempts)%nat → is_Some (fs0 !! bad_name path j)).

Definition intact (fs : FS) : Prop := fs !! path = fs0 !! path ∨ moved fs.

(** No file that existed has changed, but the one at the path and the temporary one. *)
Definition others (fs : FS) : Prop := ∀ q, q ≠ path → q ≠ tmp → is_Some (fs0 !! q) → fs !! q = fs0 !! q.

(** The quarantine of [b], up to its last step. *)
Definition quarantining (fs : FS) (b : string) : Prop :=
  fs !! path = Some b ∧ fs0 !! path = Some b ∧ read_as b = Corrupt ∧ 0 < LeaseEpoch f.

Definition slot (dst : string) : Prop := ∃ j, (j < maxAttempts)%nat ∧ dst = bad_name path j ∧ fs0 !! dst = None.

Definition at_call (fs : FS) (p : proc) : Prop :=
  match p_pc p with
  | PRead => fs = fs0 ∧ 0 < LeaseEpoch f
  | PBadOpen b i => fs = fs0 ∧ quarantining fs b ∧ ∀ j, (j < i)%nat → is_Some (fs0 !! bad_name path j)
  | PBadWrite b dst => quarantining fs b ∧ slot dst
  | PBadClean dst => (∃ b, quarantining fs b) ∧ slot dst
  | PBadRemove => ∃ b dst, quarantining fs b ∧ slot dst ∧ fs !! dst = Some b
  | PMarshal => intact fs
  | PTmpWrite b t => intact fs ∧ t = tmp ∧ marshal (stamp now f) = Some b
  | PTmpClean t _ => intact fs ∧ t = tmp
  | PRename b t => intact fs ∧ t = tmp ∧ marshal (stamp now f) = Some b ∧ fs !! t = Some b
  | PDone None => ∃ b, marshal (stamp now f) = Some b ∧ fs !! path = Some b
  | PDone (Some _) => intact fs
  end.

Definition crash_ok (s : FS * proc) : Prop := p_job s.2 = Some (f, now) ∧ others s.1 ∧ at_call s.1 s.2.

Lemma intact_tmp fs v : intact fs → intact (<[tmp := v]> fs).
Proof.
  intros [H|(H & He & b & Hb & Hc & Hq)]; [left; by rewrite lookup_insert_ne|right].
  split; [by rewrite lookup_insert_ne|]. split; [done|]. exists b. split; [done|]. split; [done|].
  destruct Hq as [(j & Hj & Hn & Hv)|?]; [left|by right]. exists j. by rewrite lookup_insert_ne.
Qed.

Lemma intact_remove fs : intact fs → intact (os_Remove ft fs tmp).1.
Proof.
  intros [H|(H & He & b & Hb & Hc & Hq)]; [left; by rewrite os_Remove_other|right].
  split; [by rewrite os_Remove_other|]. split; [done|]. exists b. split; [done|]. split; [done|].
  destruct Hq as [(j & Hj & Hn & Hv)|?]; [left|by right]. exists j. by rewrite os_Remove_other.
Qed.

Lemma others_tmp fs v : others fs → others (<[tmp := v]> fs).
Proof. intros H q Hq Ht Hs. rewrite lookup_insert_ne by done. by apply H. Qed.

Lemma others_remove fs p : p = tmp ∨ p = path ∨ fs0 !! p = None → others fs → others (os_Remove ft fs p).1.
Proof.
  intros Hp H q Hq Ht Hs. rewrite os_Remove_other; [by apply H|]. intros ->. destruct Hp as [?|[?|Hn]]; [done..|].
  rewrite Hn in Hs. by destruct Hs.
Qed.

Lemma slot_other dst fs v : slot dst → others fs → others (<[dst := v]> fs).
Proof.
  intros (j & _ & _ & Hn) H q Hq Ht Hs. rewrite lookup_insert_ne; [by apply H|]. intros ->. rewrite Hn in Hs. by destruct Hs.
Qed.

Lemma slot_path dst : slot dst → dst ≠ path.
Proof. intros (j & _ & -> & _). apply bad_name_ne. Qed.

(** The quarantine ends with the removal of the original, which may fail. *)
Lemma remove_original fs b :
  quarantining fs b →
  ((∃ dst, slot dst ∧ fs !! dst = Some b) ∨ ∀ j, (j < maxAttempts)%nat → is_Some (fs0 !! bad_name path j)) →
  intact (os_Remove ft fs path).1.
Proof.
  intros (Hp & Hb & Hc & He) Hq. destruct (os_Remove_path ft fs path path) as [H|H]; [left; by rewrite H, Hp|right].
  split; [done|]. split; [done|]. exists b. split; [done|]. split; [done|].
  destruct Hq as [(dst & (j & Hj & -> & Hn) & Hv)|?]; [left|by right]. exists j. split; [done|]. split; [done|].
  by rewrite os_Remove_other by (intros E; symmetry in E; by apply bad_name_ne in E).
Qed.

Lemma quarantining_intact fs b : quarantining fs b → intact fs.
Proof. intros (Hp & Hb & _). left. by rewrite Hp, Hb. Qed.

(** A step to a later place of the call. *)
Lemma crash_goto fs p l :
  p_job p = Some (f, now) → others fs → at_call fs (goto p l) → crash_ok (fs, goto p l).
Proof. intros Hj Ho Ha. split; [done|]. by split. Qed.

Lemma crash_call fs p : fs0 !! tmp = None → crash_ok (fs, p) → crash_ok (call_step ft tmp part fs p).
Proof.
  intros Hfree (Hj & Ho & Ha). cbn [fst snd] in Hj, Ho, Ha.
  assert (after_load p = PMarshal) as Hal by (unfold after_load; by rewrite Hj).
  assert (∀ l, at_call fs (goto p l) → crash_ok (fs, goto p l)) as Hstay by (intros l; by apply crash_goto).
  unfold at_call in Ha. unfold call_step.
  destruct (p_pc p) as [|b i|b dst|dst| | |b t|t e|b t|[e|]] eqn:Hp.
  - destruct Ha as [-> He]. rewrite Hal. destruct (read_fails ft); [apply Hstay; by left|].
    destruct (fs0 !! path) as [b|] eqn:Hb; [|unfold crash_ok; split_and!; [done..|by left]].
    destruct (read_as b) as [| |existing] eqn:Hr; [|unfold crash_ok; split_and!; [done..|by left]|].
    + unfold crash_ok. split_and!; [done..|]. cbn. unfold quarantining. split_and!; [done|done|done|done|done|lia].
    + destruct (refused p existing); (unfold crash_ok; split_and!; [done..|by left]).
  - destruct Ha as (-> & Hq & Htaken). pose proof Hq as (Hpath & Hb & Hc & He). rewrite Hal. case_bool_decide as Hi.
    { apply crash_goto; [done|apply others_remove; auto|]. apply (remove_original _ b); [done|]. right. intros j Hj'. apply Htaken. lia. }
    case_bool_decide as Hex.
    { apply Hstay. split; [done|]. split; [done|]. intros j Hj'. destruct (decide (j = i)) as [->|]; [done|]. apply Htaken. lia. }
    apply eq_None_not_Some in Hex. destruct (open_fails ft _); [apply Hstay; by left|].
    assert (slot (bad_name path i)) as Hslot by (exists i; split_and!; [lia|done|done]).
    apply crash_goto; [done|by apply slot_other|]. split; [|done]. unfold quarantining. split_and!; try done.
    by rewrite lookup_insert_ne by apply bad_name_ne.
  - destruct Ha as (Hq & Hslot). pose proof Hq as (Hpath & Hb & Hc & He). pose proof (slot_path _ Hslot) as Hd.
    destruct (_ || _); [apply Hstay; split; [by exists b|done]|]. apply crash_goto; [done|by apply slot_other|].
    exists b, dst. unfold quarantining. split_and!; try done; [by rewrite lookup_insert_ne|by rewrite lookup_insert_eq].
  - destruct Ha as ((b & Hq) & Hslot). pose proof (slot_path _ Hslot) as Hd. rewrite Hal.
    apply crash_goto; [done|apply others_remove; [right; right; by destruct Hslot as (? & _ & -> & ?)|done]|].
    apply (quarantining_intact _ b). destruct Hq as (Hpath & Hb & Hc & He). unfold quarantining. split_and!; try done. by rewrite os_Remove_other.
  - destruct Ha as (b & dst & Hq & Hslot & Hv). rewrite Hal. apply crash_goto; [done|apply others_remove; auto|].
    apply (remove_original _ b); [done|]. left. by exists dst.
  - rewrite Hj. destruct (marshal (stamp now f)) as [b|] eqn:Hm; [|by apply Hstay]. destruct (mkdir_fails ft); [by apply Hstay|].
    destruct (temp_fails ft); [by apply Hstay|]. apply crash_goto; [done|by apply others_tmp|].
    split_and!; [by apply intact_tmp|done|done].
  - destruct Ha as (Hint & -> & Hm).
    destruct (tmp_write_fails ft); [apply crash_goto; [done|by apply others_tmp|]; split; [by apply intact_tmp|done]|].
    destruct (sync_fails ft); [apply crash_goto; [done|by apply others_tmp|]; split; [by apply intact_tmp|done]|].
    destruct (tmp_close_fails ft); [apply crash_goto; [done|by apply others_tmp|]; split; [by apply intact_tmp|done]|].
    apply crash_goto; [done|by apply others_tmp|]. split_and!; [by apply intact_tmp|done|done|apply lookup_insert_eq].
  - destruct Ha as (Hint & ->). apply crash_goto; [done|apply others_remove; auto|]. by apply intact_remove.
  - destruct Ha as (Hint & -> & Hm & Hv). destruct (rename_fails ft); [by apply Hstay|]. rewrite Hv.
    apply crash_goto; [done| |].
    + intros q Hq Ht Hs. rewrite lookup_insert_ne, lookup_delete_ne by done. by apply Ho.
    + exists b. split; [done|apply lookup_insert_eq].
  - unfold crash_ok. split_and!; try done. cbn. unfold at_call. by rewrite Hp.
  - unfold crash_ok. split_and!; try done. cbn. unfold at_call. by rewrite Hp.
Qed.

Lemma crash_run n s : fs0 !! tmp = None → crash_ok s → crash_ok (alone ft tmp part n s).
Proof.
  intros Hfree. revert s. induction n as [|n IH]; intros s Hs; [done|]. apply IH. destruct s as [fs p]. by apply crash_call.
Qed.
End Crash.

(** C7: a write is atomic under every combination of failures and at every system call a
    crash can stop it.  As long as it has not succeeded, the file at the path is the old
    one, or a fenced write has found the old one corrupt and moved it away, which loses
    its bytes only if no quarantine slot was free; a success means that the complete new
    document is in place.  No other file that existed changes at any time, and the call
    ends. *)
Theorem write_crash_safe (ft : faults) (tmp part : string) (fs : gmap string string) (f : File) (now : time) :
  tmp ≠ path → (∀ j, tmp ≠ bad_name path j) → fs !! tmp = None →
  (∀ n, let '(fs', p') := alone ft tmp part n (fs, begin_write f now) in
     (p_pc p' ≠ PDone None →
        fs' !! path = fs !! path ∨
        fs' !! path = None ∧ 0 < LeaseEpoch f ∧ ∃ b, fs !! path = Some b ∧ read_as b = Corrupt ∧
          ((∃ j, (j < maxAttempts)%nat ∧ fs !! bad_name path j = None ∧ fs' !! bad_name path j = Some b) ∨
           ∀ j, (j < maxAttempts)%nat → is_Some (fs !! bad_name path j))) ∧
     (p_pc p' = PDone None → ∃ b, marshal (stamp now f) = Some b ∧ fs' !! path = Some b) ∧
     (∀ q, q ≠ path → q ≠ tmp → is_Some (fs !! q) → fs' !! q = fs !! q)) ∧
  ∃ n err, p_pc (alone ft tmp part n (fs, begin_write f now)).2 = PDone err.
Proof.
  intros Hne Hbad Hfree. split.
  - intros n. assert (crash_ok tmp fs f now (fs, begin_write f now)) as H0.
    { unfold begin_write. destruct (Z.ltb_spec 0 (LeaseEpoch f)); (unfold crash_ok; split_and!; [done|by intros q|]); cbn; [done|by left]. }
    pose proof (crash_run ft tmp part fs f now Hne Hbad n _ Hfree H0) as (_ & Ho & Ha).
    destruct (alone ft tmp part n _) as [fs' p']. cbn [fst snd] in Ho, Ha. split_and!; [| |done].
    + intros Hd. unfold at_call in Ha. destruct (p_pc p') as [|b i|b dst|dst| | |b t|t e|b t|[e|]]; try done; try apply Ha.
      * left. by destruct Ha as [-> _].
      * destruct Ha as (_ & Hq & _). by eapply quarantining_intact.
      * destruct Ha as (Hq & _). by eapply quarantining_intact.
      * destruct Ha as ((b & Hq) & _). by eapply quarantining_intact.
      * destruct Ha as (b & d & Hq & _). by eapply quarantining_intact.
    + intros Hd. unfold at_call in Ha. by rewrite Hd in Ha.
  - pose proof (uninterrupted_write ft now tmp part fs f Hne) as H. destruct (Write _ _ _ _ _ _ _) as [[trace final] err].
    destruct H as [n H]. exists n, err. destruct (alone _ _ _ n _) as [fs' p']. by destruct H.
Qed.
End Calls.

(** ** The replicas *)

(** The shared volume, the calls in flight, the replicas and the LeaderTransitions of the
    Lease.  The history has what the server assigned. *)
Record cluster := mkCluster { c_fs : gmap string string; c_calls : gmap nat proc; c_pods : gmap nat pod; c_lease : Z }.

(** The Lease in a cluster is Kubernetes': a handover makes its LeaderTransitions greater. *)
Definition lease_steps (lease : Z) (s : pod_step) : bool :=
  match s with
  | ReadEpoch NoReader => false
  | ReadEpoch (Reader (Some t)) => t =? lease
  | _ => true
  end.

Section Cluster.
Context `{MR : MapRange} `{C : Codec} (path : string).

(** A replica starts; the Lease changes hands; a callback of the elector runs in a replica,
    and reads the Lease as it is or fails to; the writer of a replica starts to write a
    graph with the epoch the replica has then, as the leader or not; a start loads the
    file; a call in flight does its next system call; a process dies in the middle of one. *)
Inductive cluster_step : cluster → cluster → Prop :=
  | c_start i hub_path c :
      c_pods c !! i = None →
      cluster_step c (mkCluster (c_fs c) (c_calls c) (<[i := start_pod true hub_path]> (c_pods c)) (c_lease c))
  | c_handover n c :
      c_lease c < n → cluster_step c (mkCluster (c_fs c) (c_calls c) (c_pods c) n)
  | c_callback i p s c :
      c_pods c !! i = Some p → lease_steps (c_lease c) s = true →
      cluster_step c (mkCluster (c_fs c) (c_calls c) (<[i := leadership_step p s]> (c_pods c)) (c_lease c))
  | c_begin_write w i p g now c :
      c_calls c !! w = None → c_pods c !! i = Some p →
      cluster_step c (mkCluster (c_fs c) (<[w := begin_write (hub_snapshot_file (leaseEpoch (pod_hub p)) g) now]> (c_calls c)) (c_pods c) (c_lease c))
  | c_begin_load w c :
      c_calls c !! w = None →
      cluster_step c (mkCluster (c_fs c) (<[w := begin_load]> (c_calls c)) (c_pods c) (c_lease c))
  | c_call w p ft tmp part c :
      c_calls c !! w = Some p → tmp ≠ path → c_fs c !! tmp = None →
      cluster_step c (let '(fs', p') := call_step path ft tmp part (c_fs c) p in
                      mkCluster fs' (<[w := p']> (c_calls c)) (c_pods c) (c_lease c))
  | c_crash w c :
      cluster_step c (mkCluster (c_fs c) (delete w (c_calls c)) (c_pods c) (c_lease c)).

(** The epoch that Load finds in the file. *)
Definition disk_epoch (b : option string) : option Z :=
  match b with
  | Some b => match read_as b with Intact f => Some (LeaseEpoch f) | _ => None end
  | None => None
  end.

(** No replica yet; what a previous deployment left has an epoch of this Lease. *)
Definition cluster_initial (fs0 : FS) (c : cluster) : Prop :=
  c_fs c = fs0 ∧ c_calls c = ∅ ∧ c_pods c = ∅ ∧ 0 ≤ c_lease c ∧
  ∀ e, disk_epoch (fs0 !! path) = Some e → e ≤ c_lease c.

Inductive cluster_reach (fs0 : FS) : cluster → Prop :=
  | cr_init c : cluster_initial fs0 c → cluster_reach fs0 c
  | cr_step c c' : cluster_reach fs0 c → cluster_step c c' → cluster_reach fs0 c'.

(** *** One call among others *)

(** The file that a call has made and still works on. *)
Definition owned (l : pc) : option string :=
  match l with
  | PBadWrite _ dst | PBadClean dst => Some dst
  | PTmpWrite _ tmp | PTmpClean tmp _ | PRename _ tmp => Some tmp
  | _ => None
  end.

(** The epoch of what a call writes. *)
Definition job_epoch (p : proc) : Z := match p_job p with Some (f, _) => LeaseEpoch f | None => 0 end.

(** What holds of a call in a file system. *)
Record call_ok (fs : FS) (p : proc) : Prop := {
  co_owned : ∀ n, owned (p_pc p) = Some n → n ≠ path ∧ is_Some (fs !! n);
  co_rename : ∀ b t, p_pc p = PRename b t → fs !! t = Some b;
  co_bytes : ∀ b t, p_pc p = PTmpWrite b t ∨ p_pc p = PRename b t → ∃ f now, p_job p = Some (f, now) ∧ marshal (stamp now f) = Some b;
  co_clean : ∀ t e, p_pc p = PTmpClean t e → e ≠ ErrStaleEpoch;
  co_fence : p_job p ≠ None → p_pc p ≠ PDone (Some ErrStaleEpoch) →
    ∀ e b, p_base p = Some b → disk_epoch b = Some e → e ≤ job_epoch p
}.

Lemma call_ok_frame fs fs' p :
  (∀ n, owned (p_pc p) = Some n → fs' !! n = fs !! n) → call_ok fs p → call_ok fs' p.
Proof.
  intros Hf [H1 H2 H3 H4 H5]. split; [|..|done|done|done].
  - intros n Hn. destruct (H1 n Hn) as [Hne Hs]. split; [done|]. by rewrite Hf.
  - intros b t Hp. rewrite Hf; [by apply H2|by rewrite Hp].
Qed.

(** What a system call of a call does to the rest of the file system and to the shared file. *)
Record call_effect (fs fs' : FS) (p p' : proc) : Prop := {
  ce_job : p_job p' = p_job p;
  ce_frame : ∀ q, q ≠ path → owned (p_pc p) ≠ Some q → is_Some (fs !! q) → fs' !! q = fs !! q;
  ce_own : ∀ n, owned (p_pc p') = Some n → owned (p_pc p) = Some n ∨ fs !! n = None;
  ce_path : fs' !! path = fs !! path ∨ fs' !! path = None ∨
    ∃ b t f now, p_pc p = PRename b t ∧ p_job p = Some (f, now) ∧ marshal (stamp now f) = Some b ∧ fs' !! path = Some b;
  ce_refused : p_pc p' = PDone (Some ErrStaleEpoch) →
    p_pc p = PDone (Some ErrStaleEpoch) ∨ ∃ e, disk_epoch (fs !! path) = Some e ∧ job_epoch p < e
}.

(** A step that keeps every file and owns none afterwards. *)
Lemma quiet_step fs p p' :
  p_job p' = p_job p → owned (p_pc p') = None →
  (p_job p ≠ None → p_pc p' ≠ PDone (Some ErrStaleEpoch) → ∀ e b, p_base p' = Some b → disk_epoch b = Some e → e ≤ job_epoch p) →
  (p_pc p' = PDone (Some ErrStaleEpoch) →
    p_pc p = PDone (Some ErrStaleEpoch) ∨ ∃ e, disk_epoch (fs !! path) = Some e ∧ job_epoch p < e) →
  call_ok fs p' ∧ call_effect fs fs p p'.
Proof.
  intros Hj Ho Hf Hr. split; split; try done; try (by intros n; rewrite Ho); try (by left);
    try (intros b t; destruct (p_pc p'); naive_solver).
  intros Hjob Hp e b Hb He. unfold job_epoch. rewrite Hj in *. by apply (Hf Hjob Hp e b).
Qed.

Lemma after_load_quiet p : owned (after_load p) = None ∧ after_load p ≠ PDone (Some ErrStaleEpoch).
Proof. unfold after_load. by destruct (p_job p). Qed.

(** The files change, but for the shared one only by a removal. *)
Lemma file_step fs fs' p l :
  call_ok fs p → p_pc p ≠ PDone (Some ErrStaleEpoch) → l ≠ PDone (Some ErrStaleEpoch) →
  (∀ q, q ≠ path → owned (p_pc p) ≠ Some q → is_Some (fs !! q) → fs' !! q = fs !! q) →
  (∀ n, owned l = Some n → n ≠ path ∧ is_Some (fs' !! n) ∧ (owned (p_pc p) = Some n ∨ fs !! n = None)) →
  (fs' !! path = fs !! path ∨ fs' !! path = None) →
  (∀ b t, l = PRename b t → fs' !! t = Some b) →
  (∀ b t, l = PTmpWrite b t ∨ l = PRename b t → ∃ f now, p_job p = Some (f, now) ∧ marshal (stamp now f) = Some b) →
  (∀ t e, l = PTmpClean t e → e ≠ ErrStaleEpoch) →
  call_ok fs' (goto p l) ∧ call_effect fs fs' p (goto p l).
Proof.
  intros [_ _ _ _ Hf] Hp Hl Hframe Hown Hpath Hren Hby Hcl. split; split; cbn [goto p_pc p_job p_base]; try done.
  - intros n Hn. naive_solver.
  - intros Hj _. by apply Hf.
  - naive_solver.
  - tauto.
Qed.

Lemma call_read fs p ft tmp part :
  p_pc p = PRead → call_ok fs p →
  let '(fs', p') := call_step path ft tmp part fs p in call_ok fs' p' ∧ call_effect fs fs' p p'.
Proof.
  intros Hp [_ _ _ _ Hf]. unfold call_step. rewrite Hp. destruct (after_load_quiet p) as [Hl1 Hl2].
  assert (p_pc p ≠ PDone (Some ErrStaleEpoch)) as Hp' by by rewrite Hp.
  destruct (read_fails ft); [apply quiet_step; cbn; try done; intros Hj _; by apply Hf|].
  destruct (fs !! path) as [b|] eqn:Hb; [|apply quiet_step; cbn; try done; naive_solver].
  assert (disk_epoch (Some b) = match read_as b with Intact g => Some (LeaseEpoch g) | _ => None end) as Hd by done.
  destruct (read_as b) as [| |g] eqn:Hr;
    [apply quiet_step; cbn [p_pc p_job p_base]; try done; intros _ _ e b' [= <-]; by rewrite Hd..|].
  unfold refused. destruct (p_job p) as [[f now]|] eqn:Hj; [|apply quiet_step; cbn; by rewrite ?Hj].
  assert (job_epoch p = LeaseEpoch f) as Hje by (unfold job_epoch; by rewrite Hj).
  destruct (LeaseEpoch f <? LeaseEpoch g) eqn:Hlt; bprop.
  - apply quiet_step; cbn [p_pc p_job p_base owned]; [by rewrite Hj|done|done|]. intros _. right. exists (LeaseEpoch g).
    rewrite Hb, Hje. done.
  - apply quiet_step; cbn [p_pc p_job p_base]; [by rewrite Hj|done| |done].
    intros _ _ e b' [= <-] He'. rewrite Hd in He'. injection He' as <-. lia.
Qed.

(** A step to a place that owns nothing and is no refusal. *)
Lemma settle_step fs fs' p l :
  call_ok fs p → p_pc p ≠ PDone (Some ErrStaleEpoch) → l ≠ PDone (Some ErrStaleEpoch) → owned l = None →
  (∀ q, q ≠ path → owned (p_pc p) ≠ Some q → is_Some (fs !! q) → fs' !! q = fs !! q) →
  (fs' !! path = fs !! path ∨ fs' !! path = None) →
  call_ok fs' (goto p l) ∧ call_effect fs fs' p (goto p l).
Proof. intros Hok Hp Hl Ho Hf Hpath. apply file_step; try done; destruct l; naive_solver. Qed.

(** A step that makes or fills a file of the call's own. *)
Lemma own_step fs p l n v :
  call_ok fs p → p_pc p ≠ PDone (Some ErrStaleEpoch) → owned l = Some n → n ≠ path →
  (owned (p_pc p) = Some n ∨ fs !! n = None) →
  (∀ b t, l = PRename b t → b = v) →
  (∀ b t, l = PTmpWrite b t ∨ l = PRename b t → ∃ f now, p_job p = Some (f, now) ∧ marshal (stamp now f) = Some b) →
  (∀ t e, l = PTmpClean t e → e ≠ ErrStaleEpoch) →
  call_ok (<[n := v]> fs) (goto p l) ∧ call_effect fs (<[n := v]> fs) p (goto p l).
Proof.
  intros Hok Hp Ho Hne Hfree Hren Hby Hcl. apply file_step; try done.
  - by intros ->.
  - intros q Hq Hown [x Hx]. rewrite lookup_insert_ne; [done|]. intros ->. destruct Hfree; congruence.
  - intros m Hm. rewrite Ho in Hm. injection Hm as <-. rewrite lookup_insert_eq. eauto.
  - left. by rewrite lookup_insert_ne.
  - intros b t ->. cbn in Ho. injection Ho as ->. rewrite lookup_insert_eq. f_equal. symmetry. by eapply Hren.
Qed.

Lemma rename_step fs p b t :
  call_ok fs p → p_pc p = PRename b t →
  call_ok (<[path := b]> (delete t fs)) (goto p (PDone None)) ∧
  call_effect fs (<[path := b]> (delete t fs)) p (goto p (PDone None)).
Proof.
  intros [Ho Hr Hb Hc Hf] Hp. destruct (Hb b t (or_intror Hp)) as (f & now & Hj & Hm). split; split; cbn; try done.
  - naive_solver.
  - intros Hjob _. apply Hf; [done|by rewrite Hp].
  - intros q Hq Hown _. rewrite Hp in Hown. cbn in Hown. by rewrite lookup_insert_ne, lookup_delete_ne by congruence.
  - right. right. exists b, t, f, now. by rewrite lookup_insert_eq.
Qed.

(** One system call keeps what holds of its call, and does to the other files and to the
    shared one no more than [call_effect]. *)
Lemma call_step_ok fs p ft tmp part :
  call_ok fs p → tmp ≠ path → fs !! tmp = None →
  let '(fs', p') := call_step path ft tmp part fs p in call_ok fs' p' ∧ call_effect fs fs' p p'.
Proof.
  intros Hok Hne Hfree. pose proof (after_load_quiet p) as [Hl1 Hl2].
  assert (∀ q, (os_Remove ft fs path).1 !! q = fs !! q ∨ q = path) as Hrm.
  { intros q. destruct (decide (q = path)); [by right|]. left. by apply os_Remove_other. }
  destruct (p_pc p) as [|b i|b dst|dst| | |b t|t e|b t|err] eqn:Hp; [by apply call_read|..]; unfold call_step; rewrite Hp.
  - case_bool_decide.
    { apply settle_step; rewrite ?Hp; try done; [naive_solver|apply os_Remove_path]. }
    case_bool_decide as Hex; [apply settle_step; rewrite ?Hp; eauto; done|].
    destruct (open_fails ft _); [apply settle_step; rewrite ?Hp; eauto|].
    apply own_step; rewrite ?Hp; try done; [apply bad_name_ne|right; by apply eq_None_not_Some|naive_solver].
  - destruct (co_owned _ _ Hok dst ltac:(by rewrite Hp)) as [Hd Hs]. destruct (_ || _).
    + apply file_step; rewrite ?Hp; try done; [|by left|naive_solver]. cbn. intros n [= <-]. eauto.
    + apply settle_step; rewrite ?Hp; try done; [|left; by rewrite lookup_insert_ne].
      cbn. intros q _ Hq _. by rewrite lookup_insert_ne by congruence.
  - destruct (co_owned _ _ Hok dst ltac:(by rewrite Hp)) as [Hd Hs]. apply settle_step; rewrite ?Hp; try done.
    + cbn. intros q _ Hq _. apply os_Remove_other. congruence.
    + left. by apply os_Remove_other.
  - apply settle_step; rewrite ?Hp; try done; [naive_solver|apply os_Remove_path].
  - destruct (p_job p) as [[f now]|] eqn:Hj; [|apply settle_step; rewrite ?Hp; eauto; done].
    destruct (marshal (stamp now f)) as [b|] eqn:Hm; [|apply settle_step; rewrite ?Hp; eauto; done].
    destruct (mkdir_fails ft); [apply settle_step; rewrite ?Hp; eauto; done|].
    destruct (temp_fails ft); [apply settle_step; rewrite ?Hp; eauto; done|].
    apply own_step; rewrite ?Hp; try done; [by right|]. intros b' t [[= -> ->]|?]; [|done]. eauto.
  - destruct (co_owned _ _ Hok t ltac:(by rewrite Hp)) as [Hd Hs].
    pose proof (co_bytes _ _ Hok b t (or_introl Hp)) as Hb.
    destruct (tmp_write_fails ft); [apply own_step; rewrite ?Hp; try done; [by left|naive_solver..]|].
    destruct (sync_fails ft); [apply own_step; rewrite ?Hp; try done; [by left|naive_solver..]|].
    destruct (tmp_close_fails ft); [apply own_step; rewrite ?Hp; try done; [by left|naive_solver..]|].
    apply own_step; rewrite ?Hp; try done; [by left|naive_solver..].
  - destruct (co_owned _ _ Hok t ltac:(by rewrite Hp)) as [Hd Hs]. apply settle_step; rewrite ?Hp; try done.
    + intros [= ->]. by apply (co_clean _ _ Hok t ErrStaleEpoch).
    + cbn. intros q _ Hq _. apply os_Remove_other. congruence.
    + left. by apply os_Remove_other.
  - destruct (co_owned _ _ Hok t ltac:(by rewrite Hp)) as [Hd Hs]. rewrite (co_rename _ _ Hok b t Hp).
    destruct (rename_fails ft); [|by apply rename_step].
    apply file_step; rewrite ?Hp; try done; [|by left|naive_solver..]. cbn. intros n [= <-]. eauto.
  - split; [done|]. split; rewrite ?Hp; eauto.
Qed.

(** *** The cluster *)

(** A whole document of a hub, with an epoch that the Lease has reached. *)
Definition hub_document (lease : Z) (b : string) : Prop :=
  ∃ e g now, marshal (stamp now (hub_snapshot_file e g)) = Some b ∧ e ≤ lease.

Record cluster_ok (fs0 : FS) (c : cluster) : Prop := {
  k_lease : 0 ≤ c_lease c;
  k_first : ∀ e, disk_epoch (fs0 !! path) = Some e → e ≤ c_lease c;
  k_pods : ∀ i p, c_pods c !! i = Some p → leaseEpoch (pod_hub p) ≤ c_lease c;
  k_calls : ∀ w p, c_calls c !! w = Some p → call_ok (c_fs c) p;
  k_own : ∀ w1 w2 p1 p2 n, c_calls c !! w1 = Some p1 → c_calls c !! w2 = Some p2 →
    owned (p_pc p1) = Some n → owned (p_pc p2) = Some n → w1 = w2;
  k_jobs : ∀ w p f now, c_calls c !! w = Some p → p_job p = Some (f, now) → ∃ e g, f = hub_snapshot_file e g ∧ e ≤ c_lease c;
  k_path : ∀ b, c_fs c !! path = Some b → fs0 !! path = Some b ∨ hub_document (c_lease c) b;
  k_refused : ∀ w p, c_calls c !! w = Some p → p_pc p = PDone (Some ErrStaleEpoch) → job_epoch p < c_lease c
}.

Lemma disk_epoch_document b now f e : marshal (stamp now f) = Some b → disk_epoch (Some b) = Some e → e = LeaseEpoch f.
Proof.
  intros Hm. cbn. unfold read_as. destruct (unmarshal_marshal _ _ Hm) as (f' & -> & _ & _ & He & _).
  destruct (negb _); [done|]. destruct (validateSnapshotFields _); [|done]. by intros [= <-].
Qed.

Lemma disk_bound fs0 c e : cluster_ok fs0 c → disk_epoch (c_fs c !! path) = Some e → e ≤ c_lease c.
Proof.
  intros Hok He. destruct (c_fs c !! path) as [b|] eqn:Hb; [|done].
  destruct (k_path _ _ Hok b Hb) as [Hi|(e' & g & now & Hm & Hle)].
  - apply (k_first _ _ Hok). by rewrite Hi.
  - by rewrite (disk_epoch_document _ _ _ _ Hm He).
Qed.

Lemma leadership_epoch_bound p s lease : 0 ≤ lease → leaseEpoch (pod_hub p) ≤ lease → lease_steps lease s = true →
  leaseEpoch (pod_hub (leadership_step p s)) ≤ lease.
Proof.
  intros Hl Hp Hs. destruct s as [|[|[t|]]| |]; cbn in *; try done. bprop. subst. unfold CurrentEpoch. by destruct (_ <? 0).
Qed.

(** A call begins. *)
Lemma begin_ok fs0 c w p :
  cluster_ok fs0 c → c_calls c !! w = None → owned (p_pc p) = None → p_base p = None → p_pc p ≠ PDone (Some ErrStaleEpoch) →
  (∀ f now, p_job p = Some (f, now) → ∃ e g, f = hub_snapshot_file e g ∧ e ≤ c_lease c) →
  cluster_ok fs0 (mkCluster (c_fs c) (<[w := p]> (c_calls c)) (c_pods c) (c_lease c)).
Proof.
  intros [H1 H2 H3 H4 H5 H6 H7 H8] Hw Ho Hb Hd Hj. split; cbn; try done.
  - intros w' p' [[<- <-]|[_ Hp']]%lookup_insert_Some; [|by apply (H4 w')].
    split; intros; try congruence; destruct (p_pc p); naive_solver.
  - intros w1 w2 p1 p2 n [[<- <-]|[_ G1]]%lookup_insert_Some [[<- <-]|[_ G2]]%lookup_insert_Some ? ?; try congruence.
    by apply (H5 w1 w2 p1 p2 n).
  - intros w' p' f now [[<- <-]|[_ Hp']]%lookup_insert_Some; [apply Hj|by apply (H6 w')].
  - intros w' p' [[<- <-]|[_ Hp']]%lookup_insert_Some; [done|by apply (H8 w')].
Qed.

(** A call does its next system call. *)
Lemma call_cluster_ok fs0 c w p fs' p' :
  cluster_ok fs0 c → c_calls c !! w = Some p → call_ok fs' p' → call_effect (c_fs c) fs' p p' →
  cluster_ok fs0 (mkCluster fs' (<[w := p']> (c_calls c)) (c_pods c) (c_lease c)).
Proof.
  intros Hok Hw Hp' [E1 E2 E3 E4 E5]. pose proof Hok as [H1 H2 H3 H4 H5 H6 H7 H8].
  assert (∀ w2 p2 n, w ≠ w2 → c_calls c !! w2 = Some p2 → owned (p_pc p2) = Some n →
    owned (p_pc p) ≠ Some n ∧ n ≠ path ∧ is_Some (c_fs c !! n)) as Hother.
  { intros w2 p2 n Hne G2 Hn. split; [|by apply (co_owned _ _ (H4 _ _ G2))]. intros Hn'. by apply Hne, (H5 w w2 p p2 n). }
  split; cbn; try done.
  - intros w2 p2 [[<- <-]|[Hne G2]]%lookup_insert_Some; [done|]. eapply call_ok_frame; [|by apply (H4 w2)].
    intros n Hn. destruct (Hother w2 p2 n Hne G2 Hn) as (? & ? & ?). by apply E2.
  - assert (∀ w2 p2 n, w ≠ w2 → c_calls c !! w2 = Some p2 → owned (p_pc p') = Some n → owned (p_pc p2) = Some n → False) as Hx.
    { intros w2 p2 n Hne G2 Hn Hn2. destruct (Hother w2 p2 n Hne G2 Hn2) as (Ho & _ & [x Hx]). destruct (E3 n Hn); congruence. }
    intros w1 w2 p1 p2 n [[<- <-]|[N1 G1]]%lookup_insert_Some [[<- <-]|[N2 G2]]%lookup_insert_Some O1 O2; [done|..].
    + exfalso. by apply (Hx w2 p2 n).
    + exfalso. by apply (Hx w1 p1 n).
    + by apply (H5 w1 w2 p1 p2 n).
  - intros w2 p2 f now [[<- <-]|[_ G2]]%lookup_insert_Some; [rewrite E1; by apply (H6 w)|by apply (H6 w2)].
  - intros b Hb. destruct E4 as [E4|[E4|(b' & t & f & now & Hpc & Hj & Hm & E4)]]; [|congruence|].
    + apply H7. congruence.
    + right. rewrite E4 in Hb. injection Hb as ->. destruct (H6 w p f now Hw Hj) as (e & g & -> & Hle). by exists e, g, now.
  - intros w2 p2 [[<- <-]|[_ G2]]%lookup_insert_Some Hd; [|by apply (H8 w2)]. unfold job_epoch. rewrite E1. fold (job_epoch p).
    destruct (E5 Hd) as [Hd'|(e & He & Hlt)]; [by apply (H8 w)|]. pose proof (disk_bound _ _ _ Hok He). lia.
Qed.

Lemma cluster_step_ok fs0 c c' : cluster_ok fs0 c → cluster_step c c' → cluster_ok fs0 c'.
Proof.
  intros Hok Hs. destruct Hs as [i hp c Hi|n c Hn|i p s c Hi Hl|w i p g now c Hw Hi|w c Hw|w p ft tmp part c Hw Hne Hfree|w c].
  - destruct Hok as [H1 H2 H3 H4 H5 H6 H7 H8]. split; try done. cbn.
    intros j p [[<- <-]|[_ Hp]]%lookup_insert_Some; [done|by apply (H3 j)].
  - destruct Hok as [H1 H2 H3 H4 H5 H6 H7 H8]. split; cbn; try done; [lia|..].
    + intros e He. specialize (H2 e He). lia.
    + intros i p Hp. specialize (H3 i p Hp). lia.
    + intros w p f now Hp Hj. destruct (H6 w p f now Hp Hj) as (e & g & -> & Hle). exists e, g. split; [done|lia].
    + intros b Hb. destruct (H7 b Hb) as [?|(e & g & now & Hm & Hle)]; [by left|]. right. exists e, g, now. split; [done|lia].
    + intros w p Hp Hd. specialize (H8 w p Hp Hd). lia.
  - destruct Hok as [H1 H2 H3 H4 H5 H6 H7 H8]. split; cbn; try done.
    intros j p' [[<- <-]|[_ Hp]]%lookup_insert_Some; [|by apply (H3 j)]. apply leadership_epoch_bound; eauto.
  - apply begin_ok; try done; cbn; [by destruct (_ <? _)..|]. intros f now' [= <- <-]. eexists _, _. split; [done|]. by eapply k_pods.
  - by apply begin_ok.
  - pose proof (call_step_ok (c_fs c) p ft tmp part (k_calls _ _ Hok _ _ Hw) Hne Hfree) as He.
    destruct (call_step path ft tmp part (c_fs c) p) as [fs' p']. destruct He. by apply (call_cluster_ok fs0 c w p).
  - destruct Hok as [H1 H2 H3 H4 H5 H6 H7 H8]. split; cbn; try done.
    + intros w' p [_ Hp]%lookup_delete_Some. by apply (H4 w').
    + intros w1 w2 p1 p2 n [_ G1]%lookup_delete_Some [_ G2]%lookup_delete_Some. by apply H5.
    + intros w' p f now [_ Hp]%lookup_delete_Some. by apply (H6 w').
    + intros w' p [_ Hp]%lookup_delete_Some. by apply (H8 w').
Qed.

Lemma cluster_reach_ok fs0 c : cluster_reach fs0 c → cluster_ok fs0 c.
Proof.
  induction 1 as [c (<- & Hc & Hp & Hl & Hd)|c c' _ IH Hs]; [|by eapply cluster_step_ok].
  split; try done; rewrite ?Hc, ?Hp; try done. auto.
Qed.

(** C8: the shared snapshot, whatever the replicas do: started, elected, demoted, killed in
    the middle of a write, their writes stalled and interleaved at every system call.
    The file is never torn: it is the one found at first or a whole document that a replica
    wrote, with an epoch the Lease has reached.  A write is refused as stale only to a
    replica that the Lease has left behind.  And the epoch of a readable file goes down
    only by the rename of a write whose fence did not read the file, or read another file
    than the one it replaces. *)
Theorem shared_snapshot_fenced (fs0 : FS) (c : cluster) :
  cluster_reach fs0 c →
  (∀ b, c_fs c !! path = Some b → fs0 !! path = Some b ∨ hub_document (c_lease c) b) ∧
  (∀ w p, c_calls c !! w = Some p → p_pc p = PDone (Some ErrStaleEpoch) → job_epoch p < c_lease c) ∧
  (∀ c' e e', cluster_step c c' → disk_epoch (c_fs c !! path) = Some e → disk_epoch (c_fs c' !! path) = Some e' → e' < e →
    ∃ w p b t, c_calls c !! w = Some p ∧ p_pc p = PRename b t ∧ c_fs c' !! path = Some b ∧ job_epoch p = e' ∧
      p_base p ≠ Some (c_fs c !! path)).
Proof.
  intros Hr. pose proof (cluster_reach_ok _ _ Hr) as Hok. split; [apply (k_path _ _ Hok)|]. split; [apply (k_refused _ _ Hok)|].
  intros c' e e' Hs He He' Hlt.
  destruct Hs as [i hp c Hi|n c Hn|i p s c Hi Hl|w i p g now c Hw Hi|w c Hw|w p ft tmp part c Hw Hne Hfree|w c];
    try (exfalso; cbn in He'; rewrite He in He'; injection He' as ->; lia).
  pose proof (k_calls _ _ Hok _ _ Hw) as Hp.
  pose proof (call_step_ok (c_fs c) p ft tmp part Hp Hne Hfree) as Hc.
  destruct (call_step path ft tmp part (c_fs c) p) as [fs' p']. cbn in He' |- *.
  destruct Hc as [_ [_ _ _ [E|[E|(b & t & f & now & Hpc & Hj & Hm & E)]] _]]; rewrite E in He'.
  - rewrite He in He'. injection He' as ->. lia.
  - done.
  - assert (job_epoch p = LeaseEpoch f) as Hje by (unfold job_epoch; by rewrite Hj).
    pose proof (disk_epoch_document _ _ _ _ Hm He') as ->. exists w, p, b, t. split_and!; try done.
    intros Hb. pose proof (co_fence _ _ Hp ltac:(by rewrite Hj) ltac:(by rewrite Hpc) _ _ Hb He). lia.
Qed.

(** ** Runs *)

(** The steps of a cluster as data: a schedule can be computed. *)
Inductive event :=
  | EvStart (i : nat) (hub_path : string)
  | EvHandover (n : Z)
  | EvCallback (i : nat) (s : pod_step)
  | EvWrite (w i : nat) (g : Graph) (now : time)
  | EvLoad (w : nat)
  | EvCall (w : nat) (tmp : string)
  | EvCrash (w : nat).

Definition happen (c : cluster) (ev : event) : option cluster :=
  match ev with
  | EvStart i hp =>
      match (c_pods c !! i : option pod) with
      | None => Some (mkCluster (c_fs c) (c_calls c) (<[i := start_pod true hp]> (c_pods c)) (c_lease c))
      | Some _ => None
      end
  | EvHandover n => if c_lease c <? n then Some (mkCluster (c_fs c) (c_calls c) (c_pods c) n) else None
  | EvCallback i s =>
      match (c_pods c !! i : option pod) with
      | Some p =>
          if lease_steps (c_lease c) s
          then Some (mkCluster (c_fs c) (c_calls c) (<[i := leadership_step p s]> (c_pods c)) (c_lease c)) else None
      | None => None
      end
  | EvWrite w i g now =>
      match (c_calls c !! w : option proc), (c_pods c !! i : option pod) with
      | None, Some p =>
          Some (mkCluster (c_fs c) (<[w := begin_write (hub_snapshot_file (leaseEpoch (pod_hub p)) g) now]> (c_calls c)) (c_pods c) (c_lease c))
      | _, _ => None
      end
  | EvLoad w =>
      match (c_calls c !! w : option proc) with
      | None => Some (mkCluster (c_fs c) (<[w := begin_load]> (c_calls c)) (c_pods c) (c_lease c))
      | Some _ => None
      end
  | EvCall w tmp =>
      match (c_calls c !! w : option proc), (c_fs c !! tmp : option string) with
      | Some p, None =>
          if bool_decide (tmp = path) then None
          else let '(fs', p') := call_step path no_faults tmp "" (c_fs c) p in
               Some (mkCluster fs' (<[w := p']> (c_calls c)) (c_pods c) (c_lease c))
      | _, _ => None
      end
  | EvCrash w => Some (mkCluster (c_fs c) (delete w (c_calls c)) (c_pods c) (c_lease c))
  end.

Definition schedule (c : cluster) (l : list event) : option cluster := foldl (λ c ev, c ≫= λ c, happen c ev) (Some c) l.

Lemma happen_step c ev c' : happen c ev = Some c' → cluster_step c c'.
Proof.
  destruct ev as [i hp|n|i s|w i g now|w|w tmp|w]; cbn.
  - destruct (c_pods c !! i) eqn:?; [done|]. intros [= <-]. by constructor.
  - destruct (_ <? _) eqn:?; [|done]. intros [= <-]. bprop. by constructor.
  - destruct (c_pods c !! i) eqn:?; [|done]. destruct (lease_steps _ _) eqn:?; [|done]. intros [= <-]. by constructor.
  - destruct (c_calls c !! w) eqn:?; [done|]. destruct (c_pods c !! i) eqn:?; [|done]. intros [= <-]. by econstructor.
  - destruct (c_calls c !! w) eqn:?; [done|]. intros [= <-]. by constructor.
  - destruct (c_calls c !! w) as [p|] eqn:Hw; [|done]. destruct (c_fs c !! tmp) eqn:Ht; [done|]. case_bool_decide as Hne; [done|].
    pose proof (c_call w p no_faults tmp "" c Hw Hne Ht) as Hs. destruct (call_step _ _ _ _ _ _) as [fs' p'].
    by intros [= <-].
  - intros [= <-]. constructor.
Qed.

Lemma foldl_none l : foldl (λ c ev, c ≫= λ c, happen c ev) None l = None.
Proof. by induction l. Qed.

Lemma schedule_reach fs0 c l c' : cluster_reach fs0 c → schedule c l = Some c' → cluster_reach fs0 c'.
Proof.
  revert c. induction l as [|ev l IH]; intros c Hr; unfold schedule; cbn; [by intros [= <-]|].
  destruct (happen c ev) as [c1|] eqn:Hh; [|by rewrite foldl_none]. apply IH. eapply cr_step; [done|]. by apply (happen_step c ev).
Qed.
End Cluster.

(** ** Instances *)

(** A codec of two documents. *)
#[refine] Definition two_codec (f1 f2 : File) : Codec := {|
  marshal := λ f, if bool_decide (f = f1) then Some "one" else if bool_decide (f = f2) then Some "two" else None;
  unmarshal := λ b, if bool_decide (b = "one") then Some f1 else if bool_decide (b = "two") then Some f2 else None
|}.
Proof.
  intros f b. case_bool_decide; [intros [= <-]; subst|case_bool_decide; [intros [= <-]; subst|done]];
    (eexists; split; [reflexivity|by split_and!]).
Defined.

Definition old_graph : Graph := mkGraph [plain_device "core1"] [] [].
Definition new_graph : Graph := mkGraph [plain_device "core2"] [] [].

Definition sample_codec : Codec :=
  two_codec (stamp 7 (hub_snapshot_file 1 old_graph)) (stamp 9 (hub_snapshot_file 2 new_graph)).

Definition empty_cluster (fs : gmap string string) : cluster := mkCluster fs ∅ ∅ 0.

(** Replica 1 leads, and its write stalls before the rename; the Lease goes to replica 2,
    which writes; the stalled rename happens then. *)
Definition overlap : list event :=
  [EvStart 1 "s"; EvStart 2 "s"; EvHandover 1; EvCallback 1 Elected; EvCallback 1 (ReadEpoch (Reader (Some 1)));
   EvWrite 1 1 old_graph 7; EvCall 1 "t0"; EvCall 1 "t1"; EvCall 1 "t0";
   EvHandover 2; EvCallback 2 Elected; EvCallback 2 (ReadEpoch (Reader (Some 2))); EvCallback 1 Demoted;
   EvWrite 2 2 new_graph 9; EvCall 2 "t0"; EvCall 2 "t2"; EvCall 2 "t0"; EvCall 2 "t0"].

Definition sample_schedule (fs : gmap string string) (l : list event) : option cluster :=
  schedule (MR := range_std) (C := sample_codec) "snap.json" (empty_cluster fs) l.

Lemma empty_initial (C : Codec) fs : fs !! "snap.json" = None → cluster_initial (MR := range_std) "snap.json" fs (empty_cluster fs).
Proof. intros Hf. by split_and!; try done; rewrite Hf. Qed.

Lemma shared_snapshot_fenced_witness :
  ∃ c, sample_schedule ∅ overlap = Some c ∧ c_fs c !! "snap.json" = Some "two" ∧ hub_document (C := sample_codec) 2 "two".
Proof.
  destruct (sample_schedule ∅ overlap) as [c|] eqn:Hc; [|vm_compute in Hc; discriminate Hc].
  assert (c_fs c !! "snap.json" = Some "two" ∧ c_lease c = 2) as [Hf Hl].
  { assert ((λ c, (c_fs c !! "snap.json", c_lease c)) <$> sample_schedule ∅ overlap = Some (Some "two", 2)) as H by (vm_compute; reflexivity).
    rewrite Hc in H. apply (inj Some), pair_equal_spec in H. exact H. }
  exists c. split; [reflexivity|]. split; [exact Hf|]. rewrite <- Hl.
  destruct (@shared_snapshot_fenced range_std sample_codec "snap.json" ∅ c
    (schedule_reach _ _ _ _ _ (cr_init _ _ _ (empty_initial sample_codec ∅ (lookup_empty "snap.json"))) Hc)) as [H _].
  destruct (H "two" Hf) as [H'|H']; [vm_compute in H'; discriminate H'|exact H'].
Defined.

(** A crash after the quarantine of a corrupt file: there is no snapshot, and the bytes are
    in a quarantine slot. *)
Lemma write_crash_safe_witness :
  let state n := alone (MR := range_std) (C := sample_codec) "snap.json" no_faults "t" "" n
                   ({["snap.json" := "{"]}, begin_write (hub_snapshot_file 1 old_graph) 7) in
  (state 4%nat).1 !! "snap.json" = None ∧
  (∃ j, (j < maxAttempts)%nat ∧ (state 4%nat).1 !! bad_name "snap.json" j = Some "{") ∧
  (∃ n err, p_pc (state n).2 = PDone err) ∧
  (state 8%nat).1 !! "snap.json" = Some "one".
Proof.
  intros state.
  assert (∀ j, "t" ≠ bad_name "snap.json" j) as Hbad by (intros j; unfold bad_name; by destruct (_ =? _)%nat).
  destruct (@write_crash_safe range_std sample_codec "snap.json" no_faults "t" "" {["snap.json" := "{"]}
    (hub_snapshot_file 1 old_graph) 7 ltac:(discriminate) Hbad ltac:(reflexivity)) as [Hs He].
  assert ((state 4%nat).1 !! "snap.json" = None) as Hnone by (vm_compute; reflexivity).
  split; [exact Hnone|]. split.
  - pose proof (Hs 4%nat) as H4. fold (state 4%nat) in H4. destruct (state 4%nat) as [fs' p'] eqn:E. destruct H4 as (H4 & _).
    assert (p_pc p' ≠ PDone None) as Hd by (change p' with (fs', p').2; rewrite <- E; vm_compute; discriminate).
    cbn [fst] in Hnone. destruct (H4 Hd) as [H|(_ & _ & b & Hb & _ & [(j & Hj & _ & Hv)|Hfull])].
    + rewrite Hnone in H. vm_compute in H. discriminate H.
    + exists j. split; [exact Hj|]. cbn [fst]. rewrite Hv. symmetry. exact Hb.
    + destruct (Hfull 0%nat ltac:(unfold maxAttempts; lia)) as [x Hx]. vm_compute in Hx. discriminate Hx.
  - split; [exact He|]. vm_compute. reflexivity.
Defined.

(** The fence reads before it writes: a stale leader whose write began before the new
    leader's ended replaces the newer snapshot, after it was demoted; and then its next
    write passes the fence too, as the file now has its own epoch. *)
Example stale_leader_overwrites :
  let again := [EvWrite 3 1 old_graph 7; EvCall 3 "t0"; EvCall 3 "t3"; EvCall 3 "t0"; EvCall 3 "t0"] in
  let report c := (c_fs c !! "snap.json", p_pc <$> c_calls c !! 1%nat, p_pc <$> c_calls c !! 3%nat, c_lease c) in
  report <$> sample_schedule ∅ overlap = Some (Some "two", Some (PRename "one" "t1"), None, 2) ∧
  report <$> sample_schedule ∅ (overlap ++ [EvCall 1 "t0"]) = Some (Some "one", Some (PDone None), None, 2) ∧
  report <$> sample_schedule ∅ (overlap ++ EvCall 1 "t0" :: again) = Some (Some "one", Some (PDone None), Some (PDone None), 2) ∧
  report <$> sample_schedule ∅ (overlap ++ again) = Some (Some "two", Some (PRename "one" "t1"), Some (PDone (Some ErrStaleEpoch)), 2).
Proof. split_and!; vm_compute; reflexivity. Qed.

(** A quarantine removes the file by its name: a replica that read a corrupt file and comes
    to remove it late removes the snapshot that another has written meanwhile, of which no
    copy is left. *)
Example late_quarantine_removes_snapshot :
  let written := [EvStart 2 "s"; EvHandover 2; EvCallback 2 Elected; EvCallback 2 (ReadEpoch (Reader (Some 2)));
    EvLoad 1; EvCall 1 "t0"; EvWrite 2 2 new_graph 9] ++ replicate 4 (EvCall 2 "t0") ++ [EvCall 2 "t2"; EvCall 2 "t0"; EvCall 2 "t0"] in
  let report c := ((λ n, c_fs c !! n) <$> ["snap.json"; "snap.json.bad"; "snap.json.bad.1"], p_pc <$> c_calls c !! 2%nat) in
  report <$> sample_schedule {["snap.json" := "{"]} written = Some ([Some "two"; Some "{"; None], Some (PDone None)) ∧
  report <$> sample_schedule {["snap.json" := "{"]} (written ++ replicate 4 (EvCall 1 "t0")) =
    Some ([None; Some "{"; Some "{"], Some (PDone None)).
Proof. split_and!; vm_compute; reflexivity. Qed.
