(* ===== verification/Federation.v ===== *)
(** * The federation: spokes, their mailboxes and the hub

    The composition of [Spoke] and [Hub].  Each spoke is a mailbox whose pusher hands one
    payload at a time to Push; every attempt of that push may reach the hub, where it
    interleaves with the requests of other spokes, with builds in flight, evictions and
    leader changes.  A request carries the identity of the client certificate; its answer
    may get lost, in which case the spoke tries again with the same payload.

    Two fields are history that no step reads: which push a generation of the hub belongs
    to, and which pushes of a spoke were answered with 204.

    What turns a payload into a body and back (encoding/json and compress/gzip on both
    sides, and the caps of the hub on what it reads) is a parameter ([Wire]). *)

From Stdlib Require Import ZArith Lia Sorted.
From S2P Require Import Prelude GoText Discovery GraphKeys Reconcile Limits HubValidate HubMerge Hub Spoke.
Open Scope Z_scope.

Notation pusher := (spokePusher (A := SpokePayload)).


(** The strings of a payload. *)
Definition payload_text (q : SpokePayload) : list string :=
  SpokeID q :: (sp_Devices q ≫= device_text) ++ (sp_Edges q ≫= edge_text) ++ (sp_OutOfScope q ≫= oos_text).
Definition utf8_payload (q : SpokePayload) : bool := forallb ValidString (payload_text q).

(** What the hub's decoder makes of the body that a spoke with this content encoding makes
    of a payload; none if the spoke cannot encode it.  A payload that is encoded and decoded
    is the same if its strings are valid UTF-8; in others each invalid byte is replaced. *)
Class Wire := {
  wire : string → SpokePayload → option decoded;
  wire_text : ∀ enc q p, wire enc q = Some (Decoded p) → utf8_payload q = true → p = q
}.

(** What [post] sends, under a certificate for [cn]. *)
Definition spoke_request `{Wire} (cn enc : string) (q : SpokePayload) : option request :=
  (λ body, mkRequest "POST" enc body (Some cn)) <$> wire enc q.



(** The status a response of the hub carries. *)
Definition status_of (r : response) : Z :=
  match r with
  | NoContent => 204
  | HttpError code => code
  | TooManyRequests _ => 429
  | PushRejection code _ => code
  end.

Section Federation.
Context `{U : Unicode} `{W : Wire} (cfg : FederationConfig).

(** [handlePush] up to the build: the answer, or a build in flight. *)
Definition receive (MR : MapRange) (now : time) (req : request) (w : world) : world * (response + flight) :=
  match admit_push cfg (isLeader (hub w)) now req with
  | inl (resp, counted) =>
      (mkWorld (match counted with None => hub w | Some r => set_mx (hub w) (count_reject r (mx (hub w))) end)
         (flights w) (rebuilds w), inl resp)
  | inr p =>
      match begin_push cfg now p (hub w) with
      | inl resp => (w, inl resp)
      | inr (h', f) => (mkWorld h' (f :: flights w) (rebuilds w), inr f)
      end
  end.









(** ** Lemmas *)






(** *** The invariant *)







(** *** Mailbox steps *)




(** *** Steps of the hub that begin and end no push *)




(** *** A request *)





(** *** An answer *)



End Federation.

(** ** Answers and retries *)

Lemma retryable_code code : retryable (Response code) ↔ code ≠ 204 ∧ (code < 400 ∨ code = 429 ∨ 500 ≤ code).
Proof. cbn. lia. Qed.

Lemma post_success code : post (Response code) = inr tt ↔ code = 204.
Proof. unfold post. destruct (Z.eqb_spec code 204); [done|]. destruct (_ && _ && _); done. Qed.

Lemma status_reject r : 400 ≤ statusForRejectReason r < 500 ∧ statusForRejectReason r ≠ 429.
Proof. destruct r; cbn; unfold StatusRequestEntityTooLarge, StatusConflict, StatusBadRequest; lia. Qed.

(** A refusal before the lock: only that of a hub that does not lead is worth a retry. *)
Lemma admit_refused (MR : MapRange) cfg leader now req resp counted :
  admit_push cfg leader now req = inl (resp, counted) → Method req = "POST" →
  if leader then 400 ≤ status_of resp < 500 ∧ status_of resp ≠ 429 else resp = HttpError 503.
Proof.
  intros Ha Hm. unfold admit_push in Ha. rewrite Hm in Ha. cbn in Ha.
  destruct leader; cbn in Ha; [|by injection Ha as <- _].
  unfold decode_body, check_spoke_id, check_cn, check_cycle_at,
    StatusRequestEntityTooLarge, StatusBadRequest, StatusUnsupportedMediaType, StatusForbidden in Ha.
  repeat (case_match; simplify_eq; cbn in *; try lia; try done).
Qed.

(** ** Claims *)


(** the hub's answers and the spoke's retries fit.  A spoke takes an answer for
    success exactly when the hub published its push.  It retries exactly when the hub
    asked it to wait or does not lead; every other refusal ends the push at once. *)
Theorem answers_fit_retries `{Wire} (MR : MapRange) (cfg : FederationConfig) (now : time) (id enc : string) (q : SpokePayload)
    (w : world) (f : flight) (g : Graph) (u : Z) :
  (∀ req resp, spoke_request id enc q = Some req → (receive cfg MR now req w).2 = inl resp →
     post (Response (status_of resp)) ≠ inr tt ∧
     (retryable (Response (status_of resp)) ↔ isLeader (hub w) = false ∨ ∃ secs, resp = TooManyRequests secs)) ∧
  (let '(h', resp) := finish_flight cfg f g u (hub w) in
   (post (Response (status_of resp)) = inr tt ↔ lastPublishedGen (hub w) < f_gen f ∧ lastPublishedGen h' = f_gen f) ∧
   ¬ retryable (Response (status_of resp))).
Proof.
  split.
  - intros req resp Hreq. unfold receive.
    assert (Method req = "POST") as Hm by (unfold spoke_request in Hreq; destruct (wire enc q); [by injection Hreq as <-|done]).
    destruct (admit_push cfg (isLeader (hub w)) now req) as [[r counted]|p] eqn:Ha.
    + cbn [snd]. intros [= <-]. pose proof (admit_refused _ _ _ _ _ _ _ Ha Hm) as Hr.
      destruct (isLeader (hub w)) eqn:Hl; cbn in Hr.
      * rewrite post_success. split; [lia|].
        rewrite retryable_code. split; [lia|]. intros [?|[secs ->]]; [done|]. cbn in Hr. lia.
      * subst r. cbn. split; [done|]. split; [by left|]. intros _. lia.
    + apply admit_push_ok in Ha as (Hlead & _). unfold begin_push. destruct (too_soon _ _ _) as [secs|]; [|done].
      cbn. intros [= <-]. cbn. split; [done|]. split; [eauto|lia].
  - destruct (finish_flight cfg f g u (hub w)) as [h' resp] eqn:Hf.
    pose proof Hf as [(-> & Hlt & Hlp & _)|(r & -> & Hh)]%finish_flight_publishes.
    + cbn. rewrite Hlp in Hlt. split; [done|]. lia.
    + cbn [status_of]. pose proof (status_reject r) as Hs. split; [|rewrite retryable_code; lia]. split.
      * rewrite post_success. lia.
      * intros [Hlt Heq]. assert (lastPublishedGen h' = lastPublishedGen (hub w)) by (by destruct Hh as [->| ->]). lia.
Qed.

(** a push whose answer is lost is reported as failed although the hub has it.  The
    attempts that follow carry the same payload and are held off by the rate limit, so
    when it is longer than the retries last the push ends as exhausted and counts one
    failure, while the registry holds exactly that payload. *)
Theorem lost_answer_reported_failed `{Jitter} (cfg : FederationConfig) (h : Hub) (p : SpokePayload) (t0 : time)
    (env : nat → attempt_env) :
  spokes h !! SpokeID p = Some (mkSpokeEntry p t0) → 0 < MinPushInterval cfg →
  env 1%nat = mkAttempt false TransportError false →
  (∀ k, (2 ≤ k ≤ 5)%nat → ∃ t resp, time_Sub t t0 < MinPushInterval cfg ∧ begin_push cfg t p h = inl resp ∧
     env k = mkAttempt false (Response (status_of resp)) false) →
  po_result (Push env) = inl (Exhausted (PushStatus 429)) ∧ po_failures (Push env) = 1 ∧
  payload <$> spokes h !! SpokeID p = Some p.
Proof.
  intros Hreg Hmin H1 Hk.
  assert (∀ k, (2 ≤ k ≤ 5)%nat → env k = mkAttempt false (Response 429) false) as H429.
  { intros k (t & resp & _ & Hb & ->)%Hk. unfold begin_push in Hb. destruct (too_soon _ _ _); [|done]. by injection Hb as <-. }
  rewrite Hreg. unfold Push, maxAttempts. cbn [push_loop]. rewrite H1. cbn [at_done at_response post at_done_waiting].
  rewrite !H429 by lia. done.
Qed.

(** The limit does hold off every attempt within it. *)
Lemma within_limit cfg h p t0 t :
  spokes h !! SpokeID p = Some (mkSpokeEntry p t0) → 0 < MinPushInterval cfg → time_Sub t t0 < MinPushInterval cfg →
  ∃ secs, begin_push cfg t p h = inl (TooManyRequests secs).
Proof.
  intros Hreg Hmin Ht. unfold begin_push, too_soon. rewrite Hreg. cbn [lastSeen].
  destruct (Z.ltb_spec 0 (MinPushInterval cfg)); [|lia]. destruct (Z.ltb_spec (time_Sub t t0) (MinPushInterval cfg)); [|lia]. eauto.
Qed.

(** ** Witnesses *)


Definition dc1_payload : SpokePayload := payload_of "dc1" (1000 * Second) [plain_device "a"] [].





Lemma lost_answer_reported_failed_witness :
  let h := set_spokes (NewHub "") {["dc1" := mkSpokeEntry dc1_payload noon]} in
  let env k := mkAttempt false (if (k =? 1)%nat then TransportError else Response 429) false in
  po_result (Push (J:=no_jitter) env) = inl (Exhausted (PushStatus 429)) ∧ payload <$> spokes h !! "dc1" = Some dc1_payload.
Proof.
  intros h env.
  destruct (lost_answer_reported_failed (H:=no_jitter) hub_cfg h dc1_payload noon env) as (H1 & _ & H3).
  - apply lookup_singleton_eq.
  - done.
  - done.
  - intros k Hk. exists (noon + Second), (TooManyRequests 29). split_and!; [vm_compute; reflexivity|vm_compute; reflexivity|].
    unfold env. destruct (Nat.eqb_spec k 1); [lia|done].
  - split; [exact H1|exact H3].
Defined.
