(* ===== verification/Restart.v ===== *)
(** * A restart of the discovery loop

    The composition of [Loop] and [Snapshot]: a process publishes, its snapshot is written,
    the process ends, and the next one loads the file and goes on.  What a restart cannot
    keep is what the snapshot does not hold: the number of the cycle (the OTLP heartbeat),
    the state of the large-topology warning and the queue of the writer. *)

From Stdlib Require Import ZArith Lia.
From S2P Require Import Prelude GoText Discovery HubValidate GraphKeys Reconcile GraphDiff Snapshot.
From S2P Require Import Pdu Credentials Synthesize DeviceWalk Cycle Loop.
Open Scope Z_scope.

(** The actions that do not depend on what a restart forgets. *)
Definition essential (a : action) : bool :=
  match a with
  | GraphUpdateRejected | EmitChanges _ | CountChange _ _ | OtlpPushChanges _ | EmitConflicts _ | CountConflict _
  | TopologyUpdate _ | SpokeEnqueue _ | SetReady => true
  | OtlpPushGraph _ | SetGraphStale _ | WarnLargeTopology | ObserveCycleDuration | SnapshotQueued _ | SnapshotDropped => false
  end.

Definition essentials (l : list action) : list action := List.filter essential l.

Section Restart.
Context `{U : Unicode} `{N : NetText} (lc : LoopConfig).

(** Two states of the loop that differ only in what a restart forgets. *)
Record alike (s1 s2 : loop_state) : Prop := {
  al_graph : prevGraph (ls_cycle s1) = prevGraph (ls_cycle s2);
  al_ages : cs_ages (ls_cycle s1) = cs_ages (ls_cycle s2)
}.

Lemma essentials_app l1 l2 : essentials (l1 ++ l2) = essentials l1 ++ essentials l2.
Proof. apply List.filter_app. Qed.

(** What a publication does that is essential depends on the graphs, the conflicts and the
    clock alone. *)
Lemma publish_essential (R : MapRange) st1 st2 g ages conf n1 n2 cache now q1 q2 :
  prevGraph st1 = prevGraph st2 →
  let '(st1', _, acts1) := publish lc st1 g ages conf n1 cache now q1 in
  let '(st2', _, acts2) := publish lc st2 g ages conf n2 cache now q2 in
  prevGraph st1' = prevGraph st2' ∧ cs_ages st1' = cs_ages st2' ∧ essentials acts1 = essentials acts2.
Proof.
  intros Hg. unfold publish. destruct (over_budget (lc_cycle lc) g); [cbn; by rewrite Hg|]. rewrite Hg.
  set (changes := Diff _ _).
  destruct (MaybeWarnLargeTopology _ (prevAboveThreshold (cs_warn st1)) _ _) as [w1 [a1 l1]].
  destruct (MaybeWarnLargeTopology _ (prevAboveThreshold (cs_warn st2)) _ _) as [w2 [a2 l2]].
  assert (∀ n, essentials (heartbeat_actions lc changes n g) = []) as Hh
    by (intros n; unfold heartbeat_actions; by destruct (_ && _)).
  assert (∀ f q, essentials (offer_snapshot lc f q).2 = []) as Ho
    by (intros f q; unfold offer_snapshot; destruct (lc_snapshot lc); [by destruct q|done]).
  set (f := snapshot_file g ages cache). pose proof (Ho f q1) as Ho1. pose proof (Ho f q2) as Ho2.
  destruct (offer_snapshot lc f q1) as [q1' o1], (offer_snapshot lc f q2) as [q2' o2]. cbn [snd] in Ho1, Ho2.
  cbn [prevGraph cs_ages]. split; [done|]. split; [done|].
  rewrite !essentials_app, !Hh, Ho1, Ho2. by destruct w1, w2.
Qed.

Lemma cycle_alike s1 s2 t :
  alike s1 s2 →
  alike (cycle lc s1 t) (cycle lc s2 t) ∧
  ∃ a1 a2, ls_actions (cycle lc s1 t) = ls_actions s1 ++ a1 ∧ ls_actions (cycle lc s2 t) = ls_actions s2 ++ a2 ∧
    essentials a1 = essentials a2.
Proof.
  intros [Hg Ha]. unfold cycle. rewrite Ha. destruct (tk_ctx_done t).
  { split; [done|]. exists [], []. by rewrite !app_nil_r. }
  rewrite Hg. set (c := RunCycle _ _ _). set (g := with_first_seen _ _).
  pose proof (publish_essential (tk_range t) (ls_cycle s1) (ls_cycle s2) g (co_ages c) (co_conflicts c)
    (ls_cycleNum s1 + 1) (ls_cycleNum s2 + 1) (tk_credCache t) (tk_now t)
    (if tk_writer_took t then None else ls_queue s1) (if tk_writer_took t then None else ls_queue s2) Hg) as Hp.
  destruct (publish lc (ls_cycle s1) _ _ _ _ _ _ _) as [[st1 q1] a1], (publish lc (ls_cycle s2) _ _ _ _ _ _ _) as [[st2 q2] a2].
  destruct Hp as (H1 & H2 & H3). cbn [ls_cycle ls_actions]. split; [done|]. by exists a1, a2.
Qed.

Lemma cycles_alike ts s1 s2 :
  alike s1 s2 →
  alike (fold_left (cycle lc) ts s1) (fold_left (cycle lc) ts s2) ∧
  ∃ a1 a2, ls_actions (fold_left (cycle lc) ts s1) = ls_actions s1 ++ a1 ∧
    ls_actions (fold_left (cycle lc) ts s2) = ls_actions s2 ++ a2 ∧ essentials a1 = essentials a2.
Proof.
  revert s1 s2. induction ts as [|t ts IH]; intros s1 s2 Hs; cbn [fold_left].
  { split; [done|]. exists [], []. by rewrite !app_nil_r. }
  destruct (cycle_alike s1 s2 t Hs) as [Hs' (a1 & a2 & E1 & E2 & E3)].
  destruct (IH _ _ Hs') as [Hs'' (b1 & b2 & F1 & F2 & F3)]. split; [done|].
  exists (a1 ++ b1), (a2 ++ b2). rewrite F1, F2, E1, E2, !essentials_app, E3, F3. by rewrite !app_assoc.
Qed.

(** The loop always counts ages. *)
Lemma cycle_ages s t : is_Some (cs_ages (ls_cycle s)) → is_Some (cs_ages (ls_cycle (cycle lc s t))).
Proof.
  intros [m Hm]. unfold cycle. rewrite Hm. destruct (tk_ctx_done t); [by eexists|]. set (c := RunCycle _ _ _).
  pose proof (publish_spec (H := tk_range t) lc (ls_cycle s) (with_first_seen (co_graph c) (OutOfScope (prevGraph (ls_cycle s))))
    (co_ages c) (co_conflicts c) (ls_cycleNum s + 1) (tk_credCache t) (tk_now t) (if tk_writer_took t then None else ls_queue s)) as Hp.
  destruct (publish _ _ _ _ _ _ _ _ _) as [[st' q'] acts]. destruct Hp as [Hp _]. cbn [ls_cycle]. rewrite Hp.
  unfold c, RunCycle, cycle_tail. destruct (SynthesizeEdges _ _ _), (Reconcile _). cbn. eauto.
Qed.

Lemma loop_ages R0 snap ts : is_Some (cs_ages (ls_cycle (RunDiscoveryLoop lc R0 snap ts))).
Proof.
  apply (fold_left_inv (λ s, is_Some (cs_ages (ls_cycle s)))); [destruct snap; cbn; eauto|]. intros s t _. apply cycle_ages.
Qed.

(** A snapshot that a cycle queued into a free slot holds that cycle's graph and ages. *)
Lemma queued_snapshot s t f :
  tk_writer_took t = true ∨ ls_queue s = None → ls_queue (cycle lc s t) = Some f →
  let st := ls_cycle (cycle lc s t) in
  f = snapshot_file (R := tk_range t) (prevGraph st) (cs_ages st) (tk_credCache t).
Proof.
  intros Hfree. unfold cycle. assert ((if tk_writer_took t then None else ls_queue s) = None) as ->
    by (destruct Hfree as [->| ->]; [done|by destruct (tk_writer_took t)]).
  destruct (tk_ctx_done t); [done|]. unfold publish. destruct (over_budget _ _); [done|].
  destruct (MaybeWarnLargeTopology _ _ _ _) as [w [a l]]. unfold offer_snapshot. destruct (lc_snapshot lc); [|done].
  cbn. by intros [= <-].
Qed.

(** A loop that starts from the snapshot of a state is like that state. *)
Lemma start_alike (R0 R1 : MapRange) s cache now :
  is_Some (cs_ages (ls_cycle s)) →
  alike (start R1 (Some (stamp now (snapshot_file (R := R0) (prevGraph (ls_cycle s)) (cs_ages (ls_cycle s)) cache)))) s.
Proof.
  intros [m Hm]. split; cbn; [by destruct (prevGraph (ls_cycle s))|]. by rewrite Hm, ages_snapshot_roundtrip.
Qed.
(** C9: a restart is invisible.  A process publishes in its last cycle, the snapshot of that
    cycle, whose strings are valid UTF-8 and within the caps of the loader, is queued into a
    free slot and written; the next process loads the file the write left and starts from
    it.  Whatever the ticks that follow, the restarted loop has then the graph and the
    lifecycle counters that the first process would have had without the restart, and does
    the same things (change events, their counters and their OTLP pushes, conflicts, metrics
    updates, spoke pushes, readiness) in the same order, after one metrics update with the
    restored graph.  What depends on the number of the cycle (the heartbeat pushes of the
    whole graph), on the large-topology warning and on the writer's queue is left out. *)
Theorem restart_transparent (C : Codec) (R0 R1 : MapRange) snap ts t ts2 ft now tmp part fs path f trace final :
  let s1 := cycle lc (RunDiscoveryLoop lc R0 snap ts) t in
  tk_writer_took t = true ∨ ls_queue (RunDiscoveryLoop lc R0 snap ts) = None →
  ls_queue s1 = Some f →
  tmp ≠ path → validateSnapshotFields (MR := R0) f = [] → utf8_file f = true →
  Write (MR := R0) ft now tmp part fs path f = (trace, final, None) →
  ∃ loaded rest,
    Load (MR := R0) no_faults final path = (final, Loaded loaded) ∧
    let unbroken := fold_left (cycle lc) ts2 s1 in
    let restarted := RunDiscoveryLoop lc R1 (Some loaded) ts2 in
    alike restarted unbroken ∧
    ls_actions unbroken = ls_actions s1 ++ rest ∧
    essentials (ls_actions restarted) = TopologyUpdate (prevGraph (ls_cycle s1)) :: essentials rest.
Proof.
  intros s1 Hfree Hq Hne Hval Htext Hw. pose proof (queued_snapshot _ _ _ Hfree Hq) as Hf. cbv zeta in Hf. fold s1 in Hf.
  assert (is_Some (cs_ages (ls_cycle s1))) as Hages by (apply cycle_ages, loop_ages).
  pose proof (start_alike (tk_range t) R1 s1 (tk_credCache t) now Hages) as Ha. rewrite <- Hf in Ha.
  destruct (cycles_alike ts2 _ _ Ha) as [Hal (a1 & a2 & E1 & E2 & E3)]. exists (stamp now f), a2.
  split; [eapply snapshot_roundtrip; eauto; left; by rewrite Hf|]. split; [exact Hal|]. split; [exact E2|].
  unfold RunDiscoveryLoop. rewrite E1, essentials_app, E3. destruct Ha as [Hg _]. rewrite <- Hg. done.
Qed.
End Restart.

(** ** Instances *)

(** A codec that knows one document. *)
#[refine] Definition one_codec (f0 : File) : Codec := {|
  marshal := λ f, if bool_decide (f = f0) then Some "{}" else None;
  unmarshal := λ b, if bool_decide (b = "{}") then Some f0 else None
|}.
Proof. intros f b. case_bool_decide; [|done]. intros [= <-]. subst. eexists. split; [by rewrite bool_decide_true|by split_and!]. Defined.

Definition tick1 : tick := mkTick range_std sample_outcomes false ∅ 5 false.
Definition tick2 : tick := mkTick range_rev [Panicked; BudgetSkipped] false ∅ 9 true.

Definition published : loop_state :=
  cycle (U := unicode_table) (N := sample_net) sample_loop (RunDiscoveryLoop (U := unicode_table) (N := sample_net) sample_loop range_std None []) tick1.

Definition published_file : File := default (mkFile 0 0 [] [] [] ∅ ∅ "" 0) (ls_queue published).

Lemma restart_transparent_witness :
  ∃ trace final loaded,
    Write (MR := range_std) (C := one_codec (stamp 7 published_file)) no_faults 7 "t" "" ∅ "snap.json" published_file = (trace, final, None) ∧
    Load (MR := range_std) (C := one_codec (stamp 7 published_file)) no_faults final "snap.json" = (final, Loaded loaded) ∧
    let restarted := RunDiscoveryLoop (U := unicode_table) (N := sample_net) sample_loop range_rev (Some loaded) [tick2] in
    length (Edges (prevGraph (ls_cycle published))) = 1%nat ∧ Edges (prevGraph (ls_cycle restarted)) = [].
Proof.
  destruct (Write (MR := range_std) (C := one_codec (stamp 7 published_file)) no_faults 7 "t" "" ∅ "snap.json" published_file)
    as [[trace final] err] eqn:Hw.
  assert (err = None) as -> by (change err with (trace, final, err).2; rewrite <- Hw; vm_compute; reflexivity).
  destruct (@restart_transparent unicode_table sample_net sample_loop (one_codec (stamp 7 published_file)) range_std range_rev
    None [] tick1 [tick2] no_faults 7 "t" "" ∅ "snap.json" published_file trace final
    ltac:(right; vm_compute; reflexivity) ltac:(vm_compute; reflexivity) ltac:(discriminate) ltac:(vm_compute; reflexivity)
    ltac:(vm_compute; reflexivity) Hw)
    as (loaded & rest & Hl & Ha & _).
  exists trace, final, loaded. split; [reflexivity|]. split; [exact Hl|]. split; [vm_compute; reflexivity|].
  rewrite (al_graph _ _ Ha). vm_compute. reflexivity.
Defined.

(** A restart without the snapshot of what was last published (it was dropped, or the
    process ended before the write) forgets the links published since: one that has gone by
    the time the next process looks is never reported as removed. *)
Example stale_restart_misses_removal :
  let unbroken := cycle (U := unicode_table) (N := sample_net) sample_loop published tick2 in
  let restarted := RunDiscoveryLoop (U := unicode_table) (N := sample_net) sample_loop range_rev None [tick2] in
  Kind <$> emitted_changes (ls_actions unbroken) = [ChangeAdded; ChangeRemoved] ∧
  Kind <$> emitted_changes (ls_actions published) = [ChangeAdded] ∧
  emitted_changes (ls_actions restarted) = [] ∧ prevGraph (ls_cycle restarted) = prevGraph (ls_cycle unbroken).
Proof. split_and!; vm_compute; reflexivity. Qed.
